(* ===== verification/_CoqProject ===== *)
-Q . S2P
Prelude.v
GoSem.v
GoStrings.v
Refs.v
Sha256.v
Store.v
TempStore.v
MFile.v
BlockDevice.v
BlockDeviceSpec.v
BlockDeviceProps.v
Crc32.v
Blockset.v
BlocksetSpec.v
Proto.v
Models.v
ModelsSpec.v
INodeStore.v
File.v
FileSpec.v
FileProps.v
Ring.v
RingSpec.v
Metadata.v
MetaTemp.v
MetaTempSpec.v
EtcdKeys.v
Etcd.v
EtcdSpec.v
EtcdProps.v
Admin.v
BlockVolume.v
BlockVolumeSpec.v
Nbd.v
NbdSpec.v
Aoe.v
AoeSpec.v
GC.v
GCSpec.v
LRU.v
Distributor.v
DistributorSpec.v
Cluster.v
Registry.v
Heartbeat.v
HeartbeatSpec.v
Tdp.v
TdpSpec.v
Grpc.v
Rebalance.v
RebalanceSpec.v
ClusterSpec.v
