(* ===== verification/Prelude.v ===== *)
(** * Torus: a verification development for the distributed block store

    Torus keeps block devices on a cluster of nodes.  A volume is a file; a file is
    an inode and a list of references to blocks; every node keeps blocks in a local
    store and sends copies to the peers a ring names; a metadata service holds what
    the nodes must agree on.  This library translates that program from Go (the
    sources are under [src/]) into functions, state transformers and step relations,
    and proves what makes them correct.

    ** The parts and how they fit

    A Go function is a Rocq function; one that changes state is a computation in the
    monad [M S A] of [GoSem], whose outcome is a value, an error or a panic, and
    whose state survives an error.  Integers are [Z] and are wrapped to their width
    where the code computes with them.  A slice is a reference wherever two holders
    can see each other's writes.  A Go interface is a class of operations on a state
    type, with a second class of laws: clients are proved against the laws and
    implementations discharge them ([BlockStoreLaws], [IteratorLaws],
    [BlockMetadataLaws], [HandlerLaws], [NetworkLaws]).

    - [Prelude], [GoSem], [GoStrings]: machine integers, bytes and lists; errors
      ([src/errors.go]) and control flow; strings.
    - [Refs]: the references of inodes and blocks ([src/storage.go]).
    - [Store]: the interface [BlockStore].  Its implementations are [TempStore]
      ([src/storage/temp.go]), [MFile] ([mfile.go], [mmap_file.go]) and [BlockDevice]
      ([block_device.go] and its package, with mkfs and fsck), the last with [Sha256]
      for the places of blocks and [BlockDeviceSpec], [BlockDeviceProps] for its
      theorems.
    - [Blockset] with [Crc32]: the layers between a file and the store
      ([src/blockset.go], [src/blockset]); theorems in [BlocksetSpec].
    - [Proto], [Models], [ModelsSpec]: the protobuf wire format and the messages
      ([src/models]).
    - [INodeStore] ([src/inode.go]); [File], [FileSpec], [FileProps] ([src/file.go],
      [src/file_cache.go]).
    - [Ring], [RingSpec]: where blocks go ([src/ring.go], [src/ring]).
    - [Metadata]: what the two metadata services have in common.  [MetaTemp] and
      [MetaTempSpec] are the one in memory ([src/metadata/temp], [src/block/temp.go]);
      [EtcdKeys], [Etcd], [EtcdSpec] and [EtcdProps] the one in etcd
      ([src/metadata/etcd], [src/block/etcd.go]).
    - [BlockVolume], [BlockVolumeSpec]: volumes and the files they are opened as
      ([src/block/volume.go], [blockfile.go]).
    - [GC], [GCSpec]: what may be deleted ([src/gc], [src/block/gc_block_vol.go]).
    - [LRU], [Distributor], [DistributorSpec]: the block store over a cluster
      ([src/distributor]).
    - [Rebalance], [RebalanceSpec]: moving blocks to where the ring wants them
      ([src/distributor/rebalance]).
    - [Cluster], [ClusterSpec]: nodes that are the network of each other, a call that
      arrives being carried out by the handlers of the peer.
    - [Tdp], [TdpSpec]: the protocol between nodes ([src/distributor/protocols/tdp]).
    - [Grpc]: the other protocol between nodes ([src/distributor/protocols/grpc] and
      its stubs in [src/models/rpc.pb.go]).
    - [Nbd], [NbdSpec]: volumes served as network block devices ([src/internal/nbd],
      [src/cmd/torusblk/nbd.go]); [Aoe], [AoeSpec]: as ATA over Ethernet
      ([src/block/aoe]).
    - [Heartbeat], [HeartbeatSpec]: the server of a node, its lease, its heartbeats and
      the address it advertises ([src/server.go], [src/heartbeat.go],
      [src/distributor/replication.go], [src/metadata/common.go]).
    - [Registry]: the registries of implementations and the set-up of a server
      ([src/metadata.go], [src/local_server.go], [src/distributor/protocols]).
    - [Admin]: the commands that change the ring ([src/cmd/torusctl/peer.go],
      [ring.go]).

    ** What the theorems show

    - A store is a map of blocks ([temp_store_refines_map], [mfile_store_refines_map],
      [device_store_refines_map]), also after it is opened again
      ([mfile_reopen_persists], [device_store_durable]); the block device store only
      while no reference is written again after a deletion ([rewritten_block_lost]),
      and the memory-mapped one while no stored reference is
      ([mfile_duplicate_write_resurrects]).
    - A blockset is a list of blocks ([blockset_refines_list]), survives its
      serialization ([marshal_unmarshal]), detects a corrupted block
      ([crc_detects_corruption]) and repairs it ([replication_repairs_corruption]).
    - A file is an array of bytes ([file_refines_array]), for accesses inside it, that
      can be synced and opened again ([file_sync_reopen], [volume_close_reopen]).
    - The locks, inodes and snapshots of volumes are as promised over any metadata
      service that keeps the contract ([lock_excludes], [snapshot_restore]); etcd keeps
      it ([etcd_meets_contract]), gives no number twice to concurrent clients
      ([etcd_ids_unique]), and holds well-typed values at all times when names are
      plain path elements ([etcd_well_typed]).  Deleting a volume is outside what the
      lock protects.
    - In a cluster whose calls lose requests and replies, and under every interleaving
      of the goroutines of a call, what is read is what was written
      ([distributor_coherent]), what was acknowledged is kept although every node runs
      its rebalancer ([acknowledged_write_kept]), and a rebalancer deletes only what is
      dead or held elsewhere ([rebalance_safe], [gc_exact]).  The events at the nodes
      come one after the other, and a call that arrives is carried out whole; a put
      over tdp that is cut short is not ([interrupted_put_kept]).
    - The protocol between nodes is transparent on an intact connection
      ([tdp_refines_handler]); theorems of kind error say what happens on one that is
      not.
      The same over gRPC, whose calls may be lost ([grpc_transparent]).
    - A block device client that talks NBD sees the array of bytes of the volume
      ([nbd_session]), and for a device that does not panic the only input that makes
      the server panic is a request with an offset beyond a signed 64-bit integer
      ([nbd_input_bounds]); the filter the AoE server attaches changes nothing it does
      ([aoe_filter_equiv]).
    - Heartbeats register a node and tell who is alive ([heartbeats_register]) and keep
      its locks ([heartbeats_keep_lock]), unless a single one goes unanswered
      ([missed_heartbeat_loses_lock]); commands that change the ring with
      [SetRing] at the same time never undo each other ([ring_commands_serialize]).

    ** Bounds and fuel

    Loops are structural on what they range over wherever the code's are.  A loop of
    the code that has no bound of its own takes its number of rounds as an argument
    ([modify_loop], [etcd_SaveSnapshot], [read_tries]); a theorem says when the rounds
    are enough ([etcd_modify_returns], [cycle_ends]), and running out is the error
    [ErrForever] that no operation of the code returns.  The search of the block
    device goes once over its places ([findReal_fuel]), and the unmarshalling loops
    take one round per byte, which the theorems about round trips show is enough.

    ** Not modelled

    Third-party code is a parameter with its documented behaviour as laws: etcd
    ([EtcdLaws]), the consistent hash ring ([HashRingLaws]), mmap ([MMapLib]),
    encoding/json ([JsonLaws]), the order of a range over a map ([Range],
    [MapOrder]), and preconditions checked by godbc.
    The laws of the other libraries are those of the device behind NBD ([DeviceLaws]),
    of the AoE and BPF packages ([AoePkgLaws], [BpfLaws]) and what gRPC does with a
    message ([GrpcLib]).

    Not modelled, because they only call the system or print: the flags, output and
    signals of the commands under [src/cmd], [src/internal/flagconfig], tracing and
    monitoring, the ioctls and sockets of [src/internal/nbd], the kernel interface of
    [src/internal/tcmu], and the listeners of the servers.  Not modelled either are the
    commands that copy a whole volume ([CreateBlockFromSnapshot], and dump and load of
    torusctl), which read one open file and write another through the operations that
    are modelled, and the simulations of [src/cmd/ringtool].
    Metrics, log lines, traces and contexts are left out throughout. *)

From stdpp Require Export base gmap list strings numbers.
From stdpp Require Import finite.
From Stdlib Require Export ZArith.
From Stdlib Require Export Strings.Byte.
From Stdlib Require Import NArith Lia.

#[global] Set Default Goal Selector "!".
#[global] Open Scope Z_scope.

(** ** Automation shared by the whole library *)

(** Rewriting rules that compute the length of a list expression. *)
Create Rewrite HintDb len.

(** Facts about machine integers and bytes that close side conditions. *)
Create HintDb torus discriminated.

#[export] Hint Rewrite @length_app @length_cons @length_nil @length_take
  @length_drop @length_replicate @length_insert @length_fmap @length_rev
  @length_seq : len.

Ltac len := autorewrite with len in *; try first [lia | reflexivity | simpl in *; lia].

(** Closed decidable goals, by evaluation. *)
Ltac by_compute := refine (bool_decide_eq_true_1 _ _); vm_compute; reflexivity.

(** Case analysis on the discriminees of the matches and conditionals of the
    goal, keeping the equations. *)
Ltac case_all :=
  repeat (case_match || case_decide || case_bool_decide);
  simplify_eq/=.

(** ** Machine integers

    A Go [uint64], [uint32] or [uint16] is a [Z] in range; arithmetic wraps
    with the functions below. *)
Definition wrap (w : Z) (z : Z) : Z := z `mod` 2 ^ w.
Abbreviation wrap64 := (wrap 64).
Abbreviation wrap32 := (wrap 32).

Definition in_width (w : Z) (z : Z) : Prop := 0 ≤ z < 2 ^ w.
Abbreviation u64 := (in_width 64).
Abbreviation u32 := (in_width 32).

(** The value of a [w]-bit pattern read as a two's complement integer, as the
    conversions [int64(x)] and [int32(x)] do. *)
Definition to_signed (w : Z) (z : Z) : Z :=
  if decide (wrap w z < 2 ^ (w - 1)) then wrap w z else wrap w z - 2 ^ w.

#[global] Instance in_width_dec w z : Decision (in_width w z).
Proof. unfold in_width. apply _. Defined.

Lemma wrap_range w z : 0 ≤ w → in_width w (wrap w z).
Proof. intros. apply Z.mod_pos_bound, Z.pow_pos_nonneg; lia. Qed.

Lemma wrap_id w z : in_width w z → wrap w z = z.
Proof. intros H. apply Z.mod_small. exact H. Qed.

Lemma to_signed_small w z : 0 ≤ z < 2 ^ (w - 1) → 0 < w → to_signed w z = z.
Proof.
  intros Hz Hw. unfold to_signed.
  assert (2 ^ (w - 1) ≤ 2 ^ w) by (apply Z.pow_le_mono_r; lia).
  rewrite wrap_id by (unfold in_width; lia).
  case_decide; lia.
Qed.

#[export] Hint Resolve wrap_range : torus.

(** ** Bytes *)

Abbreviation bytes := (list byte).

#[global] Instance byte_eq_decision : EqDecision byte := Byte.byte_eq_dec.
#[global] Instance byte_inhabited : Inhabited byte := populate x00.

Definition byte_to_Z (b : byte) : Z := Z.of_N (Byte.to_N b).
Definition byte_of_Z (z : Z) : byte := default x00 (Byte.of_N (Z.to_N (z `mod` 256))).

Lemma byte_to_Z_range b : 0 ≤ byte_to_Z b < 256.
Proof. unfold byte_to_Z. pose proof (Byte.to_N_bounded b). lia. Qed.

Lemma byte_to_of_Z z : byte_to_Z (byte_of_Z z) = z `mod` 256.
Proof.
  unfold byte_to_Z, byte_of_Z.
  pose proof (Z.mod_pos_bound z 256 eq_refl).
  destruct (Byte.of_N (Z.to_N (z `mod` 256))) as [b|] eqn:E; simpl.
  - apply Byte.to_of_N in E. lia.
  - apply Byte.of_N_None_iff in E. lia.
Qed.

Lemma byte_of_to_Z b : byte_of_Z (byte_to_Z b) = b.
Proof.
  unfold byte_of_Z. rewrite Z.mod_small by apply byte_to_Z_range.
  unfold byte_to_Z. by rewrite N2Z.id, Byte.of_to_N.
Qed.

#[global] Instance byte_to_Z_inj : Inj (=) (=) byte_to_Z.
Proof. intros x y H. by rewrite <-(byte_of_to_Z x), H, byte_of_to_Z. Qed.

#[export] Hint Resolve byte_to_Z_range : torus.

Definition zeros (n : nat) : bytes := replicate n x00.

Lemma length_zeros n : length (zeros n) = n.
Proof. apply length_replicate. Qed.
#[export] Hint Rewrite length_zeros : len.

Lemma take_zeros k n : take k (zeros n) = zeros (k `min` n).
Proof. apply take_replicate. Qed.
Lemma drop_zeros k n : drop k (zeros n) = zeros (n - k).
Proof. apply drop_replicate. Qed.
Lemma zeros_app k n : zeros k ++ zeros n = zeros (k + n).
Proof. symmetry. apply replicate_add. Qed.
Lemma zeros_lookup n i : zeros n !! i = if decide (i < n)%nat then Some x00 else None.
Proof. unfold zeros. case_decide; [by apply lookup_replicate_2|apply lookup_replicate_None; lia]. Qed.

(** ** encoding/binary *)

(** [le_put n z] is what [binary.LittleEndian.PutUint{16,32,64}] writes for
    [n] = 2, 4, 8; [le_get] is what [Uint{16,32,64}] reads back. *)
Fixpoint le_put (n : nat) (z : Z) : bytes :=
  match n with
  | O => []
  | S n' => byte_of_Z z :: le_put n' (z / 256)
  end.

Fixpoint le_get (b : bytes) : Z :=
  match b with
  | [] => 0
  | x :: b' => byte_to_Z x + 256 * le_get b'
  end.

Definition be_put (n : nat) (z : Z) : bytes := reverse (le_put n z).
Definition be_get (b : bytes) : Z := le_get (reverse b).

Lemma length_le_put n z : length (le_put n z) = n.
Proof. revert z. induction n as [|n IH]; intros z; simpl; [done|]. by rewrite IH. Qed.
Lemma length_be_put n z : length (be_put n z) = n.
Proof. unfold be_put. by rewrite length_reverse, length_le_put. Qed.
#[export] Hint Rewrite length_le_put length_be_put @length_reverse : len.

Lemma le_get_range b : 0 ≤ le_get b < 2 ^ (8 * Z.of_nat (length b)).
Proof.
  induction b as [|x b IH]; [simpl; lia|].
  pose proof (byte_to_Z_range x).
  cbn [le_get length]. rewrite Nat2Z.inj_succ.
  replace (8 * Z.succ (Z.of_nat (length b)))
    with (8 + 8 * Z.of_nat (length b)) by lia.
  rewrite Z.pow_add_r by lia. change (2 ^ 8) with 256. nia.
Qed.

(** Reading back what was written gives the value truncated to the width. *)
Lemma le_get_put n z : le_get (le_put n z) = wrap (8 * Z.of_nat n) z.
Proof.
  unfold wrap. revert z. induction n as [|n IH]; intros z.
  { simpl. by rewrite Z.mod_1_r. }
  cbn [le_put le_get]. rewrite IH, byte_to_of_Z, Nat2Z.inj_succ.
  replace (8 * Z.succ (Z.of_nat n)) with (8 + 8 * Z.of_nat n) by lia.
  rewrite Z.pow_add_r by lia. change (2 ^ 8) with 256.
  rewrite Z.rem_mul_r by (try apply Z.pow_pos_nonneg; lia). lia.
Qed.

(** Writing what was read gives the bytes back. *)
Lemma le_put_get b : le_put (length b) (le_get b) = b.
Proof.
  induction b as [|x b IH]; [done|].
  cbn [length le_get le_put]. pose proof (byte_to_Z_range x).
  f_equal.
  - rewrite <-(byte_of_to_Z x) at 2. unfold byte_of_Z. do 3 f_equal.
    rewrite Z.mul_comm, Z.mod_add by lia. done.
  - rewrite Z.mul_comm, Z.div_add, (Z.div_small (byte_to_Z x)) by lia. by rewrite Z.add_0_l.
Qed.

Lemma be_get_put n z : be_get (be_put n z) = wrap (8 * Z.of_nat n) z.
Proof. unfold be_get, be_put. by rewrite reverse_involutive, le_get_put. Qed.

Lemma be_put_get b : be_put (length b) (be_get b) = b.
Proof.
  unfold be_get, be_put. rewrite <-(length_reverse b), le_put_get.
  apply reverse_involutive.
Qed.

Lemma be_get_range b : 0 ≤ be_get b < 2 ^ (8 * Z.of_nat (length b)).
Proof. unfold be_get. rewrite <-(length_reverse b). apply le_get_range. Qed.

Lemma le_put_zero n : le_put n 0 = zeros n.
Proof.
  induction n as [|n IH]; [done|].
  cbn [le_put]. change (0 / 256) with 0. rewrite IH. reflexivity.
Qed.

Lemma le_put_inj n x y :
  in_width (8 * Z.of_nat n) x → in_width (8 * Z.of_nat n) y →
  le_put n x = le_put n y → x = y.
Proof.
  intros Hx Hy H%(f_equal le_get). rewrite !le_get_put, !wrap_id in H by done. done.
Qed.

Lemma le_get_nil : le_get [] = 0.
Proof. done. Qed.
Lemma le_get_cons x b : le_get (x :: b) = byte_to_Z x + 256 * le_get b.
Proof. done. Qed.

#[global] Opaque le_put le_get zeros.

(** ** Slices

    [gslice lo hi b] is Go's [b[lo:hi]] for a slice whose capacity is its
    length; [None] is the runtime panic. *)
Section slices.
Context {A : Type}.
Implicit Types b src dst : list A.

Definition gslice (lo hi : Z) b : option (list A) :=
  if decide (0 ≤ lo ≤ hi ∧ hi ≤ Z.of_nat (length b))
  then Some (take (Z.to_nat (hi - lo)) (drop (Z.to_nat lo) b))
  else None.

(** [b[i]]: [None] is the index-out-of-range panic. *)
Definition gindex b (i : Z) : option A :=
  if decide (0 ≤ i) then b !! Z.to_nat i else None.

(** [b[i] = x] *)
Definition gassign (i : Z) (x : A) b : option (list A) :=
  if decide (0 ≤ i < Z.of_nat (length b)) then Some (<[Z.to_nat i := x]> b) else None.

(** [blit off src dst] is [dst] after [copy(dst[off:], src)]. *)
Definition blit (off : nat) src dst : list A :=
  take off dst ++ take (length dst - off) src ++ drop (off + length src) dst.

(** The number of elements [copy] reports. *)
Definition copied (off : nat) src dst : nat := Nat.min (length src) (length dst - off).

Lemma length_blit off src dst : length (blit off src dst) = length dst.
Proof. unfold blit. len. Qed.

Lemma blit_lookup_in off src dst i :
  (off + length src ≤ length dst)%nat → (off ≤ i < off + length src)%nat →
  blit off src dst !! i = src !! (i - off)%nat.
Proof.
  intros Hb Hi. unfold blit.
  rewrite lookup_app_r by len. rewrite length_take.
  rewrite lookup_app_l by len. rewrite lookup_take_lt by lia. f_equal. lia.
Qed.

Lemma blit_lookup_out off src dst i :
  (i < off ∨ off + length src ≤ i)%nat → (off ≤ length dst)%nat →
  blit off src dst !! i = dst !! i.
Proof.
  intros Hi Hoff. unfold blit. destruct Hi as [Hi|Hi].
  - rewrite lookup_app_l by len. by rewrite lookup_take_lt.
  - destruct (decide (i < length dst)%nat) as [Hlt|Hge].
    + rewrite lookup_app_r by len. rewrite length_take.
      rewrite lookup_app_r by len. rewrite length_take, lookup_drop. f_equal. lia.
    + rewrite !lookup_ge_None_2; [done|lia|len].
Qed.

Lemma blit_all src dst : length src = length dst → blit 0 src dst = src.
Proof.
  intros Hl. unfold blit. rewrite take_0, drop_ge, take_ge by lia.
  simpl. apply app_nil_r.
Qed.

Lemma blit_nil off dst : blit off [] dst = dst.
Proof. unfold blit. rewrite take_nil, Nat.add_0_r. apply take_drop. Qed.

(** Two adjacent copies are one. *)
Lemma blit_app off x y m :
  (off + length x + length y ≤ length m)%nat → blit (off + length x) y (blit off x m) = blit off (x ++ y) m.
Proof.
  intros H. unfold blit. len. rewrite !(take_ge x), !(take_ge y), !(take_ge (x ++ y)) by len.
  rewrite (app_assoc (take off m) x), take_app_length', drop_app_ge by len. rewrite drop_drop, <-!app_assoc.
  do 3 f_equal. f_equal. len.
Qed.

(** The second of two copies to the same place is left. *)
Lemma blit_over off x y m : length x = length y → (off + length y ≤ length m)%nat → blit off y (blit off x m) = blit off y m.
Proof.
  intros Hl Hm. apply list_eq. intros i. pose proof (length_blit off x m).
  destruct (decide (off ≤ i < off + length y)%nat) as [Hi|Hi].
  - by rewrite !blit_lookup_in by lia.
  - by rewrite !blit_lookup_out by lia.
Qed.

Lemma gslice_all b : gslice 0 (Z.of_nat (length b)) b = Some b.
Proof.
  unfold gslice. rewrite decide_True by lia.
  by rewrite Z.sub_0_r, Nat2Z.id, drop_0, take_ge by lia.
Qed.

Lemma gindex_nat b (i : nat) : gindex b (Z.of_nat i) = b !! i.
Proof. unfold gindex. rewrite decide_True by lia. by rewrite Nat2Z.id. Qed.

Lemma gindex_drop b (n : nat) x l : drop n b = x :: l → gindex b (Z.of_nat n) = Some x ∧ drop (S n) b = l.
Proof.
  intros E. assert (b !! n = Some x) as Hx by (rewrite <-(Nat.add_0_r n), <-lookup_drop; by rewrite E).
  split; [by rewrite gindex_nat|]. rewrite (drop_S _ _ _ Hx) in E. by injection E.
Qed.

Lemma gindex_Some b i x :
  gindex b i = Some x ↔ 0 ≤ i ∧ b !! Z.to_nat i = Some x.
Proof. unfold gindex. case_decide; naive_solver. Qed.
End slices.
#[export] Hint Rewrite @length_blit : len.

(** Splitting an index into a block number and an offset inside the block. *)
Lemma div_mod_split (a b : Z) : 0 < b → a = b * (a / b) + a `mod` b ∧ 0 ≤ a `mod` b < b.
Proof. intros. split; [apply Z.div_mod; lia|apply Z.mod_pos_bound; lia]. Qed.

(** Bytes and strings as keys of maps. *)
#[global] Instance byte_countable : Countable byte.
Proof.
  refine (inj_countable' Byte.to_N (λ n, default x00 (Byte.of_N n)) _).
  intros b. by rewrite Byte.of_to_N.
Defined.

(** ** Fixed-size blocks inside a byte array *)

Definition block_at (bs i : nat) (m : bytes) : bytes := take bs (drop (i * bs) m).

Lemma length_block_at bs i m :
  ((i + 1) * bs ≤ length m)%nat → length (block_at bs i m) = bs.
Proof. intros H. unfold block_at. len. Qed.

Lemma block_at_lookup bs i m k :
  (k < bs)%nat → block_at bs i m !! k = m !! (i * bs + k)%nat.
Proof. intros H. unfold block_at. rewrite lookup_take_lt, lookup_drop by lia. done. Qed.

Lemma block_at_blit_eq bs i d m :
  length d = bs → ((i + 1) * bs ≤ length m)%nat → block_at bs i (blit (i * bs) d m) = d.
Proof.
  intros Hd Hm. apply list_eq. intros k. destruct (decide (k < bs)%nat).
  - rewrite block_at_lookup, blit_lookup_in by lia. f_equal. lia.
  - rewrite !lookup_ge_None_2; [done|lia|]. rewrite length_block_at; [lia|len].
Qed.

Lemma block_at_blit_ne bs i j d m :
  length d = bs → ((i + 1) * bs ≤ length m)%nat → i ≠ j →
  block_at bs j (blit (i * bs) d m) = block_at bs j m.
Proof.
  intros Hd Hm Hne. unfold block_at. apply list_eq. intros k.
  destruct (decide (k < bs)%nat).
  - rewrite !lookup_take_lt, !lookup_drop by lia. apply blit_lookup_out; [nia|nia].
  - rewrite !lookup_take_ge by lia. done.
Qed.
