(* ===== verification/GoSem.v ===== *)
(** * Go control flow: errors, results, the state-and-error monad

    Models [src/errors.go] (the error values the packages share) and fixes the
    meaning of a Go function: a state transformer whose outcome is a value, an
    error or a runtime panic.  The state survives an error, as the mutations a
    Go function makes before [return err] do. *)
From S2P Require Import Prelude.

(** The errors of [errors.go], the ones other packages define as values the
    code compares against, and errors made from a message. *)
Inductive error : Type :=
  | ErrBlockUnavailable
  | ErrINodeUnavailable
  | ErrBlockNotExist
  | ErrClosed
  | ErrInvalid
  | ErrOutOfSpace
  | ErrExists
  | ErrNotExist
  | ErrAgain
  | ErrNoGlobalMetadata
  | ErrNonSequentialRing
  | ErrNoPeer
  | ErrCompareFailed
  | ErrIsSymlink
  | ErrNotDir
  | ErrWrongVolumeType
  | ErrNotSupported
  | ErrLocked
  | ErrLeaseNotFound
  | ErrUsage
  | EOF
  | ErrMsg (msg : string).

#[global] Instance error_eq_dec : EqDecision error.
Proof. solve_decision. Defined.

(** The outcome given to a call that does not come back: it waits for a mutex that
    nobody unlocks, or goes on trying. *)
Definition ErrForever : error := ErrMsg "waits forever".

(** What a call comes back with. *)
Inductive res (A : Type) : Type :=
  | Ok (a : A)
  | Err (e : error)
  | Panic.
Arguments Ok {A} _.
Arguments Err {A} _.
Arguments Panic {A}.

#[global] Instance res_eq_dec {A} `{EqDecision A} : EqDecision (res A).
Proof. solve_decision. Defined.

Definition res_map {A B} (f : A → B) (r : res A) : res B :=
  match r with Ok a => Ok (f a) | Err e => Err e | Panic => Panic end.

Definition res_bind {A B} (f : A → res B) (r : res A) : res B :=
  match r with Ok a => f a | Err e => Err e | Panic => Panic end.

#[global] Instance res_ret : MRet res := λ A a, Ok a.
#[global] Instance res_mbind : MBind res := λ A B f r, res_bind f r.
#[global] Instance res_fmap : FMap res := λ A B f r, res_map f r.

(** The [error] a call returns; [None] is nil. *)
Definition of_error (o : option error) : res unit :=
  match o with Some e => Err e | None => Ok tt end.

(** An operation whose failure is a runtime panic (an index or a slice bound). *)
Definition or_panic {A} (o : option A) : res A :=
  match o with Some a => Ok a | None => Panic end.

Definition is_ok {A} (r : res A) : bool := match r with Ok _ => true | _ => false end.

(** ** Stateful code *)

Definition M (S A : Type) : Type := S → res A * S.

Section monad.
Context {S : Type}.

#[global] Instance M_ret : MRet (M S) := λ A a s, (Ok a, s).
#[global] Instance M_bind : MBind (M S) := λ A B f m s,
  match m s with
  | (Ok a, s') => f a s'
  | (Err e, s') => (Err e, s')
  | (Panic, s') => (Panic, s')
  end.

(** [return err] *)
Definition throw {A} (e : error) : M S A := λ s, (Err e, s).
Definition panic {A} : M S A := λ s, (Panic, s).

Definition get : M S S := λ s, (Ok s, s).
Definition put (s : S) : M S unit := λ _, (Ok tt, s).
Definition modify (f : S → S) : M S unit := λ s, (Ok tt, f s).
Definition gets {A} (f : S → A) : M S A := λ s, (Ok (f s), s).

Definition lift {A} (r : res A) : M S A := λ s, (r, s).

(** [v, err := m()]: the error becomes a value the caller inspects; a panic
    still unwinds. *)
Definition try {A} (m : M S A) : M S (A + error) := λ s,
  match m s with
  | (Ok a, s') => (Ok (inl a), s')
  | (Err e, s') => (Ok (inr e), s')
  | (Panic, s') => (Panic, s')
  end.

Lemma bind_ret_l {A B} (a : A) (f : A → M S B) s : (mret a ≫= f) s = f a s.
Proof. reflexivity. Qed.

Lemma bind_ok {A B} (m : M S A) (f : A → M S B) s b s' :
  (m ≫= f) s = (Ok b, s') ↔ ∃ a s1, m s = (Ok a, s1) ∧ f a s1 = (Ok b, s').
Proof.
  unfold mbind, M_bind. destruct (m s) as [[a|e|] s1]; naive_solver.
Qed.

Lemma bind_err {A B} (m : M S A) (f : A → M S B) s e s' :
  (m ≫= f) s = (Err e, s') ↔
  m s = (Err e, s') ∨ ∃ a s1, m s = (Ok a, s1) ∧ f a s1 = (Err e, s').
Proof.
  unfold mbind, M_bind. destruct (m s) as [[a|e'|] s1]; naive_solver.
Qed.

(** Rewriting a sequence whose first half is known. *)
Lemma bind_step {A B} (m : M S A) (f : A → M S B) s a s1 :
  m s = (Ok a, s1) → (m ≫= f) s = f a s1.
Proof. intros H. unfold mbind, M_bind. by rewrite H. Qed.

Lemma bind_step_err {A B} (m : M S A) (f : A → M S B) s e s1 :
  m s = (Err e, s1) → (m ≫= f) s = (Err e, s1).
Proof. intros H. unfold mbind, M_bind. by rewrite H. Qed.

Lemma bind_assoc {A B C} (m : M S A) (f : A → M S B) (g : B → M S C) s :
  ((m ≫= f) ≫= g) s = (m ≫= λ a, f a ≫= g) s.
Proof. unfold mbind, M_bind. destruct (m s) as [[a|e|] s1]; done. Qed.
End monad.

(** [run_inv] takes a hypothesis that a sequence of calls succeeded apart into
    the calls it is made of. *)
Ltac run_inv :=
  repeat match goal with
  | H : (_ ≫= _) _ = (Ok _, _) |- _ =>
      let a := fresh "v" in let s := fresh "s" in let H1 := fresh "Hrun" in
      apply bind_ok in H as (a & s & H1 & H)
  | H : mret _ _ = _ |- _ => unfold mret, M_ret in H; simplify_eq/=
  | H : gets _ _ = _ |- _ => unfold gets in H; simplify_eq/=
  | H : get _ = _ |- _ => unfold get in H; simplify_eq/=
  | H : put _ _ = _ |- _ => unfold put in H; simplify_eq/=
  | H : modify _ _ = _ |- _ => unfold modify in H; simplify_eq/=
  | H : throw _ _ = _ |- _ => unfold throw in H; simplify_eq/=
  | H : panic _ = _ |- _ => unfold panic in H; simplify_eq/=
  end.

(** [run_step H] executes the first call of the goal's sequence with [H]. *)
Ltac run_step H := first [rewrite (bind_step _ _ _ _ _ H) | rewrite (bind_step_err _ _ _ _ _ H)].
