(* ===== verification/GoStrings.v ===== *)
(** * The string functions of the Go library the program uses

    [strings.ToLower], [strings.Split] with a one-byte separator and
    [strconv.Atoi], on strings as sequences of bytes.  [to_lower] maps ASCII
    letters only: the program compares the result with ASCII words, and no
    other code point has one of their letters as its lower case. *)
From S2P Require Import Prelude GoSem.
From Stdlib Require Import Ascii.

Definition char_lower (c : ascii) : ascii :=
  let n := N_of_ascii c in
  if decide (65 ≤ n ∧ n ≤ 90)%N then ascii_of_N (n + 32) else c.

Fixpoint to_lower (s : string) : string :=
  match s with
  | EmptyString => EmptyString
  | String c s' => String (char_lower c) (to_lower s')
  end.

(** [strings.Split(s, sep)]: never empty; one piece more than separators. *)
Fixpoint split (sep : ascii) (s : string) : list string :=
  match s with
  | EmptyString => [EmptyString]
  | String c s' =>
      if decide (c = sep) then EmptyString :: split sep s'
      else match split sep s' with
           | [] => [String c EmptyString]
           | w :: ws => String c w :: ws
           end
  end.

(** [strings.Join] *)
Fixpoint join (sep : string) (l : list string) : string :=
  match l with
  | [] => EmptyString
  | [w] => w
  | w :: l' => (w ++ sep ++ join sep l')%string
  end.

Definition digit (c : ascii) : option Z :=
  let n := Z.of_N (N_of_ascii c) in
  if decide (48 ≤ n ≤ 57) then Some (n - 48) else None.

Fixpoint digits (acc : Z) (s : string) : option Z :=
  match s with
  | EmptyString => Some acc
  | String c s' => match digit c with Some d => digits (10 * acc + d) s' | None => None end
  end.

(** [strconv.Atoi]: an optional sign, at least one digit, within an [int]. *)
Definition Atoi (s : string) : option Z :=
  let '(neg, body) :=
    match s with
    | String c s' =>
        if decide (c = "-"%char) then (true, s')
        else if decide (c = "+"%char) then (false, s') else (false, s)
    | EmptyString => (false, s)
    end in
  match body with
  | EmptyString => None
  | _ =>
      match digits 0 body with
      | Some n =>
          let v := if neg then - n else n in
          if decide (- 2 ^ 63 ≤ v < 2 ^ 63) then Some v else None
      | None => None
      end
  end.

(** ** Facts *)

Fixpoint mem (c : ascii) (s : string) : bool :=
  match s with
  | EmptyString => false
  | String c' s' => bool_decide (c' = c) || mem c s'
  end.

Lemma split_nonempty sep s : split sep s ≠ [].
Proof. destruct s as [|c s]; simpl; [done|]. case_decide; [done|]. by destruct (split sep s). Qed.

Lemma split_app sep w s :
  mem sep w = false → split sep (w ++ String sep s)%string = w :: split sep s.
Proof.
  induction w as [|c w IH]; simpl; intros Hm; [by rewrite decide_True|].
  apply orb_false_elim in Hm as [Hc Hm]. apply bool_decide_eq_false in Hc.
  rewrite decide_False by done. by rewrite IH.
Qed.

Lemma split_none sep w : mem sep w = false → split sep w = [w].
Proof.
  induction w as [|c w IH]; simpl; intros Hm; [done|].
  apply orb_false_elim in Hm as [Hc Hm]. apply bool_decide_eq_false in Hc.
  rewrite decide_False by done. by rewrite IH.
Qed.

(** Splitting what was joined gives the pieces back. *)
Lemma split_join sep l :
  l ≠ [] → Forall (λ w, mem sep w = false) l → split sep (join (String sep EmptyString) l) = l.
Proof.
  intros Hne Hall. induction Hall as [|w l Hw Hl IH]; [done|]. destruct l as [|w' l].
  - simpl. by apply split_none.
  - change (join _ (w :: w' :: l))
      with (w ++ String sep (join (String sep EmptyString) (w' :: l)))%string.
    rewrite split_app by done. by rewrite IH.
Qed.
