(* ===== verification/Refs.v ===== *)
(** * Identifiers of inodes and blocks

    Models [src/storage.go]: [VolumeID], [INodeRef], [BlockRef], their byte and
    protobuf encodings, the block type packed in the upper bits of the volume,
    and the read/write level names.  A [uint64] field is a [Z]; [wf_inoderef]
    and [wf_blockref] say that the fields are in range. *)
From S2P Require Import Prelude GoSem.

(** ** Data *)

Inductive BlockTypeT := TypeBlock | TypeINode.

(** The [BlockType] constants; the type itself is a [uint16]. *)
Definition BlockType_num (t : BlockTypeT) : Z :=
  match t with TypeBlock => 0 | TypeINode => 1 end.

Definition VolumeMax : Z := 0x000000FFFFFFFFFF.

Record INodeRef := mkINodeRef { volume : Z; INode : Z }.

Record BlockRef := mkBlockRef { br_inode :> INodeRef; Index : Z }.

#[global] Instance INodeRef_eq_dec : EqDecision INodeRef.
Proof. solve_decision. Defined.
#[global] Instance BlockRef_eq_dec : EqDecision BlockRef.
Proof. solve_decision. Defined.
#[global] Instance INodeRef_countable : Countable INodeRef.
Proof.
  refine (inj_countable' (λ r, (volume r, INode r)) (λ p, mkINodeRef p.1 p.2) _).
  by intros [].
Defined.
#[global] Instance BlockRef_countable : Countable BlockRef.
Proof.
  refine (inj_countable' (λ r, (br_inode r, Index r)) (λ p, mkBlockRef p.1 p.2) _).
  by intros [].
Defined.

Definition wf_inoderef (i : INodeRef) : Prop := u64 (volume i) ∧ u64 (INode i).
Definition wf_blockref (b : BlockRef) : Prop := wf_inoderef b ∧ u64 (Index b).

(** ** Operations on [INodeRef] *)

Definition Equals (i x : INodeRef) : bool :=
  bool_decide (volume i = volume x) && bool_decide (INode i = INode x).

Definition Volume (i : INodeRef) : Z := Z.land (volume i) VolumeMax.

Definition VolumeIDByteSize : nat := 5.
Definition INodeRefByteSize : nat := 8 * 2.
Definition BlockRefByteSize : nat := 8 * 3.

(** [VolumeID.ToBytes] keeps the five low bytes. *)
Definition VolumeID_ToBytes (v : Z) : bytes := take VolumeIDByteSize (le_put 8 v).

Definition INodeRef_ToBytes (i : INodeRef) : bytes :=
  le_put 8 (volume i) ++ le_put 8 (INode i).

(** Reading eight bytes at [off]; a short slice panics. *)
Definition get_u64_at (off : Z) (b : bytes) : res Z :=
  le_get <$> or_panic (gslice off (off + 8) b).

Definition INodeRefFromBytes (b : bytes) : res INodeRef :=
  v ← get_u64_at 0 b; i ← get_u64_at 8 b; mret (mkINodeRef v i).

(** [godbc.Require] is a design-by-contract library the code calls; a condition
    that holds has no effect, and what one that does not hold does depends on a
    build tag. *)
Class Godbc := {
  Require : bool → res unit;
  Require_true : Require true = Ok tt;
}.

Definition NewINodeRef `{Godbc} (vol i : Z) : res INodeRef :=
  _ ← Require (bool_decide (vol < VolumeMax));
  mret (mkINodeRef (Z.land vol VolumeMax) i).

Lemma land_VolumeMax v : 0 ≤ v < VolumeMax → Z.land v VolumeMax = v.
Proof.
  intros Hv. change VolumeMax with (Z.ones 40). rewrite Z.land_ones by lia. apply Z.mod_small. unfold VolumeMax in Hv. lia.
Qed.
Lemma NewINodeRef_small `{Godbc} vol i : 0 ≤ vol < VolumeMax → NewINodeRef vol i = Ok (mkINodeRef vol i).
Proof.
  intros Hv. unfold NewINodeRef. rewrite bool_decide_true, Require_true by lia. cbn [mbind res_mbind res_bind].
  by rewrite land_VolumeMax.
Qed.

(** ** Operations on [BlockRef] *)

Definition BlockRef_ToBytes (b : BlockRef) : bytes :=
  le_put 8 (volume b) ++ le_put 8 (INode b) ++ le_put 8 (Index b).

(** [ToBytesBuf] writes the three words into the caller's buffer. *)
Definition ToBytesBuf (b : BlockRef) (buf : bytes) : res bytes :=
  _ ← or_panic (gslice 16 24 buf);
  mret (blit 0 (BlockRef_ToBytes b) buf).

Definition BlockRefFromBytes (b : bytes) : res BlockRef :=
  v ← get_u64_at 0 b; i ← get_u64_at 8 b; x ← get_u64_at 16 b;
  mret (mkBlockRef (mkINodeRef v i) x).

Definition BlockRefFromUint64s (v i x : Z) : BlockRef := mkBlockRef (mkINodeRef v i) x.

Definition BlockType (b : BlockRef) : Z :=
  wrap 16 (Z.shiftr (Z.ldiff (volume b) VolumeMax) 40).

Definition SetBlockType (t : Z) (b : BlockRef) : BlockRef :=
  mkBlockRef
    (mkINodeRef (Z.lor (volume b) (Z.shiftl (Z.land t 0xFFFFFF) 40)) (INode b))
    (Index b).

Definition HasINode (b : BlockRef) (i : INodeRef) (t : Z) : bool :=
  bool_decide (INode b = INode i) && bool_decide (Volume b = Volume i)
  && bool_decide (BlockType b = t).

Definition IsZero (b : BlockRef) : bool :=
  bool_decide (Volume b = 0) && bool_decide (INode b = 0) && bool_decide (Index b = 0).

Definition ZeroBlock : BlockRef := mkBlockRef (mkINodeRef 0 0) 0.
Definition ZeroINode : INodeRef := mkINodeRef 0 0.

(** ** Protobuf images ([models.BlockRef], [models.INodeRef]) *)

Record pbBlockRef := { pb_Volume : Z; pb_INode : Z; pb_Block : Z }.
Record pbINodeRef := { pbi_Volume : Z; pbi_INode : Z }.

Definition BlockRef_ToProto (b : BlockRef) : pbBlockRef :=
  {| pb_Volume := volume b; pb_INode := INode b; pb_Block := Index b |}.
Definition INodeRef_ToProto (i : INodeRef) : pbINodeRef :=
  {| pbi_Volume := volume i; pbi_INode := INode i |}.
Definition BlockFromProto (p : pbBlockRef) : BlockRef :=
  mkBlockRef (mkINodeRef (pb_Volume p) (pb_INode p)) (pb_Block p).
Definition INodeFromProto (p : pbINodeRef) : INodeRef :=
  mkINodeRef (pbi_Volume p) (pbi_INode p).

(** ** Read and write levels *)

Inductive WriteLevel := WriteAll | WriteOne | WriteLocal.
Inductive ReadLevel := ReadBlock | ReadSequential | ReadSpread.

Definition ParseWriteLevel (s : string) : res WriteLevel :=
  if String.eqb s "all" then Ok WriteAll
  else if String.eqb s "one" then Ok WriteOne
  else if String.eqb s "local" then Ok WriteLocal
  else Err (ErrMsg "invalid writelevel; use one of 'one', 'all', or 'local'").

Definition ParseReadLevel (s : string) : res ReadLevel :=
  if String.eqb s "spread" then Ok ReadSpread
  else if String.eqb s "seq" then Ok ReadSequential
  else if String.eqb s "block" then Ok ReadBlock
  else Err (ErrMsg "invalid readlevel; use one of 'spread', 'seq', or 'block'").

#[global] Instance WriteLevel_eq_dec : EqDecision WriteLevel.
Proof. solve_decision. Defined.
#[global] Instance ReadLevel_eq_dec : EqDecision ReadLevel.
Proof. solve_decision. Defined.

(** ** Lemmas *)

Lemma length_INodeRef_ToBytes i : length (INodeRef_ToBytes i) = INodeRefByteSize.
Proof. unfold INodeRef_ToBytes. len. Qed.
Lemma length_BlockRef_ToBytes b : length (BlockRef_ToBytes b) = BlockRefByteSize.
Proof. unfold BlockRef_ToBytes. len. Qed.
#[export] Hint Rewrite length_INodeRef_ToBytes length_BlockRef_ToBytes : len.

(** The word at [8 * length pre / 8] of a buffer made of whole words. *)
Lemma get_u64_at_app (pre post : bytes) z :
  u64 z → get_u64_at (Z.of_nat (length pre)) (pre ++ le_put 8 z ++ post) = Ok z.
Proof.
  intros Hz. unfold get_u64_at, gslice.
  rewrite decide_True by (len). simpl.
  replace (Z.of_nat (length pre) + 8 - Z.of_nat (length pre)) with 8 by lia.
  change (Z.to_nat 8) with 8%nat.
  rewrite Nat2Z.id, drop_app_length, take_app_length' by len.
  unfold fmap, res_fmap, res_map. by rewrite le_get_put, wrap_id.
Qed.

Lemma INodeRef_bytes_roundtrip i :
  wf_inoderef i → INodeRefFromBytes (INodeRef_ToBytes i) = Ok i.
Proof.
  intros [Hv Hi]. unfold INodeRefFromBytes, INodeRef_ToBytes.
  pose proof (get_u64_at_app [] (le_put 8 (INode i)) _ Hv) as H1.
  pose proof (get_u64_at_app (le_put 8 (volume i)) [] _ Hi) as H2.
  rewrite length_le_put, app_nil_r in H2. simpl app in H1.
  change (Z.of_nat 8) with 8 in H2. change (Z.of_nat (length [])) with 0 in H1.
  rewrite H1. cbn [mbind res_mbind res_bind]. rewrite H2. by destruct i.
Qed.

Lemma BlockRef_bytes_roundtrip_aux b :
  wf_blockref b → BlockRefFromBytes (BlockRef_ToBytes b) = Ok b.
Proof.
  intros [[Hv Hi] Hx]. unfold BlockRefFromBytes, BlockRef_ToBytes.
  pose proof (get_u64_at_app [] (le_put 8 (INode b) ++ le_put 8 (Index b)) _ Hv) as H1.
  pose proof (get_u64_at_app (le_put 8 (volume b)) (le_put 8 (Index b)) _ Hi) as H2.
  pose proof (get_u64_at_app (le_put 8 (volume b) ++ le_put 8 (INode b)) [] _ Hx) as H3.
  rewrite app_nil_r, <-app_assoc in H3. rewrite length_app, !length_le_put in H3.
  rewrite length_le_put in H2. simpl app in H1.
  change (Z.of_nat 8) with 8 in H2. change (Z.of_nat (8 + 8)) with 16 in H3.
  change (Z.of_nat (length [])) with 0 in H1.
  rewrite H1. cbn [mbind res_mbind res_bind]. rewrite H2. cbn [mbind res_mbind res_bind].
  rewrite H3. by destruct b as [[] ?].
Qed.

(** Decoding is also injective the other way: a 24-byte buffer is the encoding
    of the reference read from it. *)
Lemma le_get_u64 b : length b = 8%nat → u64 (le_get b).
Proof. intros H. pose proof (le_get_range b) as Hr. rewrite H in Hr. exact Hr. Qed.

Lemma BlockRefFromBytes_total buf :
  length buf = BlockRefByteSize →
  ∃ b, BlockRefFromBytes buf = Ok b ∧ wf_blockref b ∧ BlockRef_ToBytes b = buf.
Proof.
  intros Hl. unfold BlockRefByteSize in Hl. simpl in Hl.
  set (w0 := take 8 buf). set (w1 := take 8 (drop 8 buf)). set (w2 := drop 16 buf).
  assert (length w0 = 8%nat ∧ length w1 = 8%nat ∧ length w2 = 8%nat) as (H0 & H1 & H2).
  { unfold w0, w1, w2. len. }
  assert (buf = w0 ++ w1 ++ w2) as Hbuf.
  { unfold w0, w1, w2. rewrite <-(take_drop 8 buf) at 1. f_equal.
    rewrite <-(take_drop 8 (drop 8 buf)) at 1. by rewrite drop_drop. }
  set (b := mkBlockRef (mkINodeRef (le_get w0) (le_get w1)) (le_get w2)).
  assert (BlockRef_ToBytes b = buf) as Hto.
  { unfold BlockRef_ToBytes, b. simpl. rewrite Hbuf.
    rewrite <-H0 at 1. rewrite le_put_get. rewrite <-H1 at 1. rewrite le_put_get.
    rewrite <-H2 at 1. by rewrite le_put_get. }
  assert (wf_blockref b) as Hwf by (repeat split; simpl; apply le_get_u64; done).
  exists b. rewrite <-Hto at 1. by rewrite BlockRef_bytes_roundtrip_aux.
Qed.

Lemma BlockRef_ToBytes_inj a b :
  wf_blockref a → wf_blockref b → BlockRef_ToBytes a = BlockRef_ToBytes b → a = b.
Proof.
  intros Ha Hb H%(f_equal BlockRefFromBytes).
  rewrite !BlockRef_bytes_roundtrip_aux in H by done. congruence.
Qed.

(** Volume and block type as the low and high part of the same word. *)
Lemma Volume_mod i : Volume i = volume i `mod` 2 ^ 40.
Proof. unfold Volume. change VolumeMax with (Z.ones 40). apply Z.land_ones. lia. Qed.

Lemma BlockType_div b : BlockType b = (volume b / 2 ^ 40) `mod` 2 ^ 16.
Proof.
  unfold BlockType, wrap. change VolumeMax with (Z.ones 40).
  rewrite Z.ldiff_ones_r by lia.
  rewrite Z.shiftr_shiftl_l by lia. rewrite Z.sub_diag, Z.shiftl_0_r.
  by rewrite Z.shiftr_div_pow2 by lia.
Qed.

Lemma SetBlockType_Volume t (b : BlockRef) : Volume (SetBlockType t b) = Volume b.
Proof.
  unfold Volume. simpl. rewrite Z.land_lor_distr_l.
  replace (Z.land (Z.shiftl (Z.land t 16777215) 40) VolumeMax) with 0; [apply Z.lor_0_r|].
  change VolumeMax with (Z.ones 40). rewrite Z.land_ones, Z.shiftl_mul_pow2 by lia.
  by rewrite Z.mod_mul by lia.
Qed.

Lemma SetBlockType_BlockType t b :
  0 ≤ t < 2 ^ 16 → BlockType (SetBlockType t b) = Z.lor (BlockType b) t.
Proof.
  intros Ht. rewrite !BlockType_div. simpl volume.
  rewrite <-!Z.shiftr_div_pow2 by lia. rewrite Z.shiftr_lor.
  rewrite Z.shiftr_shiftl_l by lia. rewrite Z.sub_diag, Z.shiftl_0_r.
  rewrite <-!(Z.land_ones _ 16) by lia. rewrite Z.land_lor_distr_l. f_equal.
  change 16777215 with (Z.ones 24). rewrite !Z.land_ones by lia.
  rewrite (Z.mod_small t (2 ^ 24)) by lia. apply Z.mod_small. lia.
Qed.

Lemma BlockType_small (b : BlockRef) : 0 ≤ volume b ≤ VolumeMax → BlockType b = 0.
Proof.
  intros H. rewrite BlockType_div. unfold VolumeMax in H.
  rewrite Z.div_small by lia. done.
Qed.

Lemma SetBlockType_wf t (b : BlockRef) : 0 ≤ t < 2 ^ 16 → wf_blockref b → wf_blockref (SetBlockType t b).
Proof.
  intros Ht [[Hv Hi] Hx]. repeat split; simpl; try apply Hi; try apply Hx.
  - apply Z.lor_nonneg. split; [apply Hv|]. apply Z.shiftl_nonneg, Z.land_nonneg. lia.
  - set (x := Z.shiftl _ _).
    assert (0 ≤ x < 2 ^ 64) as Hxr.
    { unfold x. change 0xFFFFFF with (Z.ones 24). rewrite Z.land_ones by lia.
      rewrite Z.mod_small by lia. rewrite Z.shiftl_mul_pow2 by lia. lia. }
    destruct (Z.eq_dec (Z.lor (volume b) x) 0) as [->|Hne]; [lia|].
    apply Z.log2_lt_pow2; [assert (0 ≤ Z.lor (volume b) x) by (apply Z.lor_nonneg; split; [apply Hv|lia]); lia|].
    rewrite Z.log2_lor by (try apply Hv; lia).
    destruct Hv as [Hv0 Hv1].
    apply Z.max_lub_lt.
    + destruct (Z.eq_dec (volume b) 0) as [->|]; [done|]. apply Z.log2_lt_pow2; lia.
    + destruct (Z.eq_dec x 0) as [->|]; [done|]. apply Z.log2_lt_pow2; lia.
Qed.

#[global] Opaque SetBlockType.

(** ** Properties *)

(** Encoding a block reference to its 24 bytes and decoding gives the
    reference back, and every 24-byte buffer is the encoding of the well-formed
    reference it decodes to: [ToBytes] and [BlockRefFromBytes] are inverse
    bijections between in-range references and 24-byte buffers. *)
Theorem blockref_bytes_roundtrip :
  (∀ b, wf_blockref b → BlockRefFromBytes (BlockRef_ToBytes b) = Ok b) ∧
  (∀ buf, length buf = BlockRefByteSize →
     ∃ b, BlockRefFromBytes buf = Ok b ∧ wf_blockref b ∧ BlockRef_ToBytes b = buf).
Proof. split; [apply BlockRef_bytes_roundtrip_aux|apply BlockRefFromBytes_total]. Qed.

(** The block type lives in bits 40 and up of the volume word.
    [SetBlockType] adds the bits of its argument to the type (it never clears
    one), leaves the volume, the inode and the index alone, and on a reference
    without a type makes [HasINode] recognise exactly the blocks of that inode
    and type. *)
Theorem set_block_type_correct (b : BlockRef) (t : Z) :
  0 ≤ t < 2 ^ 16 →
  BlockType (SetBlockType t b) = Z.lor (BlockType b) t ∧
  Volume (SetBlockType t b) = Volume b ∧
  INode (SetBlockType t b) = INode b ∧
  Index (SetBlockType t b) = Index b ∧
  (0 ≤ volume b ≤ VolumeMax → ∀ i t',
     HasINode (SetBlockType t b) i t' =
     bool_decide (INode b = INode i ∧ Volume b = Volume i ∧ t = t')).
Proof.
  intros Ht. rewrite SetBlockType_BlockType, SetBlockType_Volume by done.
  repeat split; try done.
  intros Hv i t'. unfold HasINode. rewrite SetBlockType_BlockType, SetBlockType_Volume by done.
  rewrite (BlockType_small _ Hv), Z.lor_0_l. simpl.
  repeat case_bool_decide; naive_solver.
Qed.

Definition sample_ref : BlockRef := mkBlockRef (mkINodeRef 3 4) 5.

Lemma set_block_type_correct_witness :
  0 ≤ 1 < 2 ^ 16 ∧ BlockType (SetBlockType 1 sample_ref) = 1 ∧
  HasINode (SetBlockType 1 sample_ref) (mkINodeRef 3 4) 1 = true.
Proof.
  split; [lia|].
  destruct (set_block_type_correct sample_ref 1 ltac:(lia)) as (H & _ & _ & _ & Hi).
  split; [rewrite H; vm_compute; reflexivity|].
  rewrite Hi by (vm_compute; split; discriminate). vm_compute. reflexivity.
Defined.
