(* ===== verification/Sha256.v ===== *)
(** * crypto/sha256

    The hash function of the Go standard library the block device uses to place a
    block: FIPS 180-4 on 32-bit words, with the words as integers that are wrapped
    after each addition. *)
From S2P Require Import Prelude.

Definition add32 (x y : Z) : Z := wrap 32 (x + y).
Definition rotr (n x : Z) : Z := Z.lor (Z.shiftr x n) (wrap 32 (Z.shiftl x (32 - n))).
Definition not32 (x : Z) : Z := Z.lxor x 0xFFFFFFFF.

Definition Ch (x y z : Z) : Z := Z.lxor (Z.land x y) (Z.land (not32 x) z).
Definition Maj (x y z : Z) : Z := Z.lxor (Z.lxor (Z.land x y) (Z.land x z)) (Z.land y z).
Definition Sigma0 (x : Z) : Z := Z.lxor (Z.lxor (rotr 2 x) (rotr 13 x)) (rotr 22 x).
Definition Sigma1 (x : Z) : Z := Z.lxor (Z.lxor (rotr 6 x) (rotr 11 x)) (rotr 25 x).
Definition sigma0 (x : Z) : Z := Z.lxor (Z.lxor (rotr 7 x) (rotr 18 x)) (Z.shiftr x 3).
Definition sigma1 (x : Z) : Z := Z.lxor (Z.lxor (rotr 17 x) (rotr 19 x)) (Z.shiftr x 10).

(** The constants, as the standard defines them: the first 32 bits of the fractional
    parts of the cube roots of the first 64 primes, and of the square roots of the
    first eight. *)
Definition is_prime (n : nat) : bool := forallb (λ d, negb (n mod d =? 0)%nat) (seq 2 (n - 2)).
Definition primes : list Z := Z.of_nat <$> List.filter is_prime (seq 2 310).

(** The integer cube root of [n] below [2 ^ bits]. *)
Fixpoint cbrt (bits : nat) (n root : Z) : Z :=
  match bits with
  | O => root
  | Datatypes.S k => let r := root + 2 ^ Z.of_nat k in cbrt k n (if r ^ 3 <=? n then r else root)
  end.

Definition sha_K : list Z := Eval vm_compute in (λ p, wrap 32 (cbrt 36 (p * 2 ^ 96) 0)) <$> primes.
Definition sha_H0 : list Z := Eval vm_compute in (λ p, wrap 32 (Z.sqrt (p * 2 ^ 64))) <$> take 8 primes.

(** The message schedule, the latest word first. *)
Fixpoint schedule (n : nat) (w : list Z) : list Z :=
  match n with
  | O => w
  | Datatypes.S n' =>
      let at_ i := default 0 (w !! i) in
      schedule n' (add32 (add32 (sigma1 (at_ 1%nat)) (at_ 6%nat)) (add32 (sigma0 (at_ 14%nat)) (at_ 15%nat)) :: w)
  end.

Definition sha_round (st : list Z) (kw : Z * Z) : list Z :=
  match st with
  | [a; b; c; d; e; f; g; h] =>
      let t1 := add32 (add32 (add32 h (Sigma1 e)) (Ch e f g)) (add32 kw.1 kw.2) in
      let t2 := add32 (Sigma0 a) (Maj a b c) in
      [add32 t1 t2; a; b; c; add32 d t1; e; f; g]
  | _ => st
  end.

(** The big-endian words of a byte string. *)
Fixpoint words (n : nat) (b : bytes) : list Z :=
  match n with O => [] | Datatypes.S n' => be_get (take 4 b) :: words n' (drop 4 b) end.

Definition sha_block (st : list Z) (b : bytes) : list Z :=
  let w := reverse (schedule 48 (reverse (words 16 b))) in
  zip_with add32 st (foldl sha_round st (zip sha_K w)).

Definition sha_pad (b : bytes) : bytes :=
  b ++ [x80] ++ zeros (Z.to_nat ((55 - Z.of_nat (length b)) mod 64)) ++ be_put 8 (8 * Z.of_nat (length b)).

Fixpoint sha_blocks (n : nat) (st : list Z) (b : bytes) : list Z :=
  match n with O => st | Datatypes.S n' => sha_blocks n' (sha_block st (take 64 b)) (drop 64 b) end.

Definition Sum256 (b : bytes) : bytes :=
  let p := sha_pad b in
  concat (be_put 4 <$> sha_blocks (length p / 64) sha_H0 p).

(** The test vectors of the standard: the empty message, [abc], and one of two
    blocks. *)
Example sha256_empty : be_get (Sum256 []) = 0xe3b0c44298fc1c149afbf4c8996fb92427ae41e4649b934ca495991b7852b855.
Proof. vm_compute. reflexivity. Qed.
Example sha256_abc : be_get (Sum256 [x61; x62; x63]) = 0xba7816bf8f01cfea414140de5dae2223b00361a396177a9cb410ff61f20015ad.
Proof. vm_compute. reflexivity. Qed.
Example sha256_long :
  be_get (Sum256 (replicate 119 x61)) = 0x31eba51c313a5c08226adf18d4a359cfdfd8d2e816b13f4af952f7ea6584dcfb.
Proof. vm_compute. reflexivity. Qed.
