(* ===== verification/Store.v ===== *)
(** * The block store interface

    Models the Go interface [torus.BlockStore] of [src/storage.go] as a class of
    operations on a state type [S], together with the laws the rest of the
    program relies on ([BlockStoreLaws]).  The clients ([Blockset], [INodeStore],
    [File]) are proved against the laws; [TempStore] and [MFile] discharge them.

    A Go [[]byte] is a reference: the slice [GetBlock] returns may be the memory
    the store itself keeps (the temp store returns its own buffer, the mfile
    store a window of its memory map), so a caller that writes into the slice
    writes into the store.  The class therefore has slices with an explicit
    dereference, allocation and in-place copy; [backing] names the memory a
    stored block lives in. *)
From S2P Require Import Prelude GoSem Refs.

Class BlockStore (S : Type) : Type := {
  slice : Type;
  slice_eq_dec :: EqDecision slice;
  (** the bytes a slice shows in a state *)
  deref : S → slice → bytes;
  (** [make([]byte, n)] followed by filling: a new buffer holding the bytes *)
  mk_slice : bytes → S → slice * S;
  (** [copy(sl[off:], data)] *)
  copy_to : slice → nat → bytes → S → S;

  HasBlock : BlockRef → M S bool;
  GetBlock : BlockRef → M S slice;
  WriteBlock : BlockRef → bytes → M S unit;
  WriteBuf : BlockRef → M S slice;
  DeleteBlock : BlockRef → M S unit;
  NumBlocks : S → Z;
  UsedBlocks : S → Z;
  BlockSize : S → Z;
  Flush : M S unit;
  Close : M S unit;
  (** [torus.BlockIterator]: an iterator may read the store at every [Next] *)
  iterator : Type;
  BlockIterator : S → iterator;
  iter_Next : S → iterator → res bool * iterator;
  iter_BlockRef : iterator → res BlockRef;
  iter_Err : iterator → option error;
}.

(** What the implementations promise.  [inv] is the store's own invariant,
    [valid] the references it can hold, [fits] the data it can hold unchanged,
    [live] the slices whose memory is not reused, [backing] the memory of a
    stored block. *)
Class BlockStoreLaws (S : Type) `{B : BlockStore S} : Type := {
  inv : S → Prop;
  is_open : S → Prop;
  valid : BlockRef → Prop;
  fits : S → bytes → Prop;
  live : S → slice → Prop;
  backing : S → BlockRef → option slice;

  backing_live s r sl : inv s → backing s r = Some sl → live s sl;
  backing_inj s r r' sl :
    inv s → backing s r = Some sl → backing s r' = Some sl → r = r';
  BlockSize_pos s : inv s → 0 < BlockSize s;
  fits_size s d : inv s → Z.of_nat (length d) = BlockSize s → fits s d;

  (** allocation gives memory nothing else refers to *)
  mk_slice_spec s d sl s' :
    inv s → mk_slice d s = (sl, s') →
    inv s' ∧ (is_open s → is_open s') ∧ BlockSize s' = BlockSize s ∧
    deref s' sl = d ∧ live s' sl ∧ ¬ live s sl ∧
    (∀ r, backing s' r = backing s r) ∧
    (∀ sl', live s sl' → live s' sl' ∧ deref s' sl' = deref s sl');

  (** an in-place copy changes the bytes of that slice only *)
  copy_to_spec s sl off d :
    inv s → live s sl → (off + length d ≤ length (deref s sl))%nat →
    let s' := copy_to sl off d s in
    inv s' ∧ (is_open s → is_open s') ∧ BlockSize s' = BlockSize s ∧
    deref s' sl = blit off d (deref s sl) ∧
    (∀ r, backing s' r = backing s r) ∧
    (∀ sl', live s sl' → live s' sl' ∧ (sl' ≠ sl → deref s' sl' = deref s sl'));

  (** a read finds the block exactly when it is stored *)
  GetBlock_ok s r sl s' :
    inv s → GetBlock r s = (Ok sl, s') →
    inv s' ∧ (is_open s → is_open s') ∧ BlockSize s' = BlockSize s ∧ live s' sl ∧
    Some (deref s' sl) = deref s <$> backing s r ∧
    (backing s' r = Some sl ∨ ¬ live s sl ∧ ∀ r', backing s' r' ≠ Some sl) ∧
    (∀ r', backing s' r' = backing s r') ∧
    (∀ sl', live s sl' → live s' sl' ∧ deref s' sl' = deref s sl');
  GetBlock_err s r e s' : inv s → GetBlock r s = (Err e, s') → s' = s;
  GetBlock_no_panic s r s' : inv s → GetBlock r s ≠ (Panic, s');
  GetBlock_found s r sl :
    inv s → is_open s → backing s r = Some sl → ∃ sl' s', GetBlock r s = (Ok sl', s');
  GetBlock_missing s r :
    inv s → is_open s → backing s r = None → ∃ e, GetBlock r s = (Err e, s);

  (** a successful write stores the bytes under the reference, in memory that
      was not in use; a failed one changes no stored block *)
  WriteBlock_ok s r d s' :
    inv s → valid r → fits s d → WriteBlock r d s = (Ok tt, s') →
    inv s' ∧ (is_open s → is_open s') ∧ BlockSize s' = BlockSize s ∧
    (∃ sl, backing s' r = Some sl ∧ deref s' sl = d ∧
           (backing s r = Some sl ∨ ¬ live s sl)) ∧
    (∀ r', r' ≠ r → backing s' r' = backing s r') ∧
    (∀ sl, live s sl → live s' sl ∧ deref s' sl = deref s sl);
  WriteBlock_err s r d e s' :
    inv s → valid r → fits s d → WriteBlock r d s = (Err e, s') →
    inv s' ∧ (is_open s → is_open s') ∧ BlockSize s' = BlockSize s ∧
    (∀ r', backing s' r' = backing s r') ∧
    (∀ sl, live s sl → live s' sl ∧ deref s' sl = deref s sl);
  WriteBlock_no_panic s r d s' :
    inv s → valid r → fits s d → WriteBlock r d s ≠ (Panic, s');

  (** deletion removes that block only *)
  DeleteBlock_ok s r s' :
    inv s → DeleteBlock r s = (Ok tt, s') →
    inv s' ∧ (is_open s → is_open s') ∧ BlockSize s' = BlockSize s ∧
    backing s' r = None ∧ (∀ r', r' ≠ r → backing s' r' = backing s r') ∧
    (∀ sl, live s sl → backing s r ≠ Some sl → live s' sl ∧ deref s' sl = deref s sl);
  DeleteBlock_err s r e s' : inv s → DeleteBlock r s = (Err e, s') → s' = s;
  DeleteBlock_no_panic s r s' : inv s → DeleteBlock r s ≠ (Panic, s');
  DeleteBlock_found s r sl :
    inv s → is_open s → backing s r = Some sl → ∃ s', DeleteBlock r s = (Ok tt, s');

  (** a flush changes nothing a client of the process can see *)
  Flush_same s o s' : Flush s = (o, s') → s' = s ∧ o ≠ Panic;

  (** a block is there exactly when it is stored *)
  HasBlock_run s r : inv s → HasBlock r s = (Ok (bool_decide (is_Some (backing s r))), s);
}.

(** The iterators of a store that takes a list of its references when an iterator
    is made: [iter_left] are those still to visit, whatever happens to the store
    meanwhile.  The list has every stored block. *)
Class IteratorLaws (S : Type) `{BlockStoreLaws S} : Type := {
  iter_ok : iterator → Prop;
  iter_left : iterator → list BlockRef;
  iter_new s : iter_ok (BlockIterator s);
  iter_all s r sl : backing s r = Some sl → r ∈ iter_left (BlockIterator s);
  iter_end s it :
    iter_ok it → iter_left it = [] →
    ∃ it', iter_Next s it = (Ok false, it') ∧ iter_ok it' ∧ iter_left it' = [] ∧ iter_Err it' = None;
  iter_step s it r l :
    iter_ok it → iter_left it = r :: l →
    ∃ it', iter_Next s it = (Ok true, it') ∧ iter_ok it' ∧ iter_left it' = l ∧ iter_BlockRef it' = Ok r;
}.

(** The bytes stored under a reference. *)
Definition stored {S} `{BlockStoreLaws S} (s : S) (r : BlockRef) : option bytes :=
  deref s <$> backing s r.

(** ** Consequences of the laws *)

Section facts.
Context {S : Type} `{L : BlockStoreLaws S}.
Implicit Types (s : S) (r : BlockRef) (d : bytes).

(** A store state reached without losing a block or the memory of a slice. *)
Record store_ext (s s' : S) : Prop := {
  ext_inv : inv s';
  ext_open : is_open s → is_open s';
  ext_size : BlockSize s' = BlockSize s;
  ext_slice : ∀ sl, live s sl → live s' sl ∧ deref s' sl = deref s sl;
  ext_private : ∀ sl, live s sl → (∀ r, backing s r ≠ Some sl) → ∀ r, backing s' r ≠ Some sl;
}.

Lemma store_ext_refl s : inv s → store_ext s s.
Proof. by split. Qed.

Lemma store_ext_trans s1 s2 s3 : store_ext s1 s2 → store_ext s2 s3 → store_ext s1 s3.
Proof.
  intros [? O1 Z1 S1 P1] [I2 O2 Z2 S2 P2]. split; [done|auto|congruence| |].
  - intros sl Hl. destruct (S1 sl Hl) as [Hl' E]. destruct (S2 sl Hl') as [? E']. split; congruence.
  - intros sl Hl Hp. apply P2; [by apply S1|by apply P1].
Qed.

(** A read returns the stored bytes and changes no stored block. *)
Lemma GetBlock_stored s r sl s' :
  inv s → GetBlock r s = (Ok sl, s') →
  store_ext s s' ∧ stored s r = Some (deref s' sl) ∧ ∀ r', stored s' r' = stored s r'.
Proof.
  intros Hi Hg. destruct (GetBlock_ok _ _ _ _ Hi Hg) as (?&?&?&?&He&_&Hb&Hs).
  repeat split; try done; try (by apply Hs).
  { intros sl' _ Hp r'. by rewrite Hb. }
  intros r'. unfold stored. rewrite Hb.
  destruct (backing s r') as [sl'|] eqn:E; [|done]. simpl. f_equal.
  apply Hs. by eapply backing_live.
Qed.

Lemma WriteBlock_stored s r d s' :
  inv s → valid r → fits s d → WriteBlock r d s = (Ok tt, s') →
  store_ext s s' ∧ stored s' r = Some d ∧ ∀ r', r' ≠ r → stored s' r' = stored s r'.
Proof.
  intros Hi Hv Hf Hw.
  destruct (WriteBlock_ok _ _ _ _ Hi Hv Hf Hw) as (?&?&?&(sl&Hb&Hd&Hn)&Ho&Hs).
  split; [split; try done|].
  { intros sl' Hl Hp r'. destruct (decide (r' = r)) as [->|Hne]; [|by rewrite Ho]. rewrite Hb. intros [= ->].
    destruct Hn as [Hn|Hn]; [by apply (Hp r)|done]. } split; [unfold stored; rewrite Hb; simpl; congruence|].
  intros r' Hne. unfold stored. rewrite Ho by done.
  destruct (backing s r') as [sl'|] eqn:E; [|done]. simpl. f_equal.
  apply Hs. by eapply backing_live.
Qed.

Lemma WriteBlock_err_stored s r d e s' :
  inv s → valid r → fits s d → WriteBlock r d s = (Err e, s') →
  store_ext s s' ∧ ∀ r', stored s' r' = stored s r'.
Proof.
  intros Hi Hv Hf Hw. destruct (WriteBlock_err _ _ _ _ _ Hi Hv Hf Hw) as (?&?&?&Ho&Hs).
  split; [split; try done; intros sl _ Hp r'; by rewrite Ho|]. intros r'. unfold stored. rewrite Ho.
  destruct (backing s r') as [sl'|] eqn:E; [|done]. simpl. f_equal.
  apply Hs. by eapply backing_live.
Qed.

(** Reading a block that is stored. *)
Lemma store_get_run s r d :
  inv s → is_open s → stored s r = Some d →
  ∃ sl s', GetBlock r s = (Ok sl, s') ∧ deref s' sl = d ∧
    store_ext s s' ∧ ∀ r', stored s' r' = stored s r'.
Proof.
  intros Hi Ho Hs. pose proof Hs as Hb. unfold stored in Hb.
  destruct (backing s r) as [sl0|] eqn:E; [|done].
  destruct (GetBlock_found _ _ _ Hi Ho E) as (sl & s' & Hg).
  destruct (GetBlock_stored _ _ _ _ Hi Hg) as (?&Hd&?). exists sl, s'. split_and!; try done. congruence.
Qed.

(** Deleting a block that is stored. *)
Lemma store_delete_run s r d :
  inv s → is_open s → stored s r = Some d →
  ∃ s', DeleteBlock r s = (Ok tt, s') ∧ inv s' ∧ is_open s' ∧ BlockSize s' = BlockSize s ∧
    stored s' r = None ∧ ∀ r', r' ≠ r → stored s' r' = stored s r'.
Proof.
  intros Hi Ho Hs. unfold stored in Hs. destruct (backing s r) as [sl|] eqn:E; [|done].
  destruct (DeleteBlock_found _ _ _ Hi Ho E) as [s' Hd].
  destruct (DeleteBlock_ok _ _ _ Hi Hd) as (?&?&?&Hn&Hk&Hx). exists s'. split_and!; auto.
  - unfold stored. by rewrite Hn.
  - intros r' Hne. unfold stored. rewrite Hk by done.
    destruct (backing s r') as [sl'|] eqn:E'; [|done]. simpl. f_equal. apply Hx; [by eapply backing_live|].
    rewrite E. intros [= ->]. apply Hne. eauto using backing_inj.
Qed.

Lemma mk_slice_stored s d sl s' :
  inv s → mk_slice d s = (sl, s') →
  store_ext s s' ∧ deref s' sl = d ∧ ∀ r', stored s' r' = stored s r'.
Proof.
  intros Hi Hm. destruct (mk_slice_spec _ _ _ _ Hi Hm) as (?&?&?&?&?&_&Hb&Hs).
  split; [split; try done; intros sl' _ Hp r'; by rewrite Hb|]. split; [done|]. intros r'. unfold stored. rewrite Hb.
  destruct (backing s r') as [sl'|] eqn:E; [|done]. simpl. f_equal.
  apply Hs. by eapply backing_live.
Qed.
End facts.

(** ** Sequences of operations

    The operations a client makes and what it observes of them, for the
    refinement theorems of the implementations. *)

Inductive op : Type :=
  | OpGet (r : BlockRef)
  | OpHas (r : BlockRef)
  | OpWrite (r : BlockRef) (d : bytes)
  | OpDelete (r : BlockRef)
  | OpUsed
  | OpClose.

Inductive out : Type := OBytes (d : bytes) | OBool (b : bool) | ONum (n : Z) | OUnit.

Definition run_op {S} `{BlockStore S} (o : op) : M S out :=
  match o with
  | OpGet r => l ← GetBlock r; gets (λ t, OBytes (deref t l))
  | OpHas r => b ← HasBlock r; mret (OBool b)
  | OpWrite r d => _ ← WriteBlock r d; mret OUnit
  | OpDelete r => _ ← DeleteBlock r; mret OUnit
  | OpUsed => gets (λ t, ONum (UsedBlocks t))
  | OpClose => _ ← Close; mret OUnit
  end.

(** The outputs of a sequence of operations. *)
Fixpoint run_all {S} (step : op → S → res out * S) (ops : list op) (s : S) : list (res out) * S :=
  match ops with
  | [] => ([], s)
  | o :: ops' =>
      let '(r, s1) := step o s in
      let '(rs, s2) := run_all step ops' s1 in (r :: rs, s2)
  end.
