(* ===== verification/TempStore.v ===== *)
(** * The in-memory block store

    Models [src/storage/temp.go].  [store] maps a reference to the buffer that
    holds the block; the buffers live in [heap], so that the slice [GetBlock]
    hands out is the store's own buffer, as in the code.  The mutex makes every
    method atomic, which is what a function on the whole state expresses; the
    prometheus counters are left out. *)
From S2P Require Import Prelude GoSem Refs Store.

Record tempBlockStore := mkTemp {
  heap : gmap positive bytes;
  next : positive;
  store : option (gmap BlockRef positive);  (** [None]: the nil map after Close *)
  nBlocks : Z;
  name : string;
  blockSize : Z;
}.

Definition set_heap (h : gmap positive bytes) (t : tempBlockStore) : tempBlockStore :=
  mkTemp h (next t) (store t) (nBlocks t) (name t) (blockSize t).
Definition set_store (m : option (gmap BlockRef positive)) (t : tempBlockStore) : tempBlockStore :=
  mkTemp (heap t) (next t) m (nBlocks t) (name t) (blockSize t).

(** [StorageSize / BlockSize] divides by zero when the block size is zero. *)
Definition openTempBlockStore (nm : string) (storageSize bSize : Z) : res tempBlockStore :=
  if decide (bSize = 0) then Panic
  else Ok (mkTemp ∅ 1%positive (Some ∅) (storageSize / bSize) nm bSize).

(** ** Slices *)

Definition t_deref (t : tempBlockStore) (l : positive) : bytes := default [] (heap t !! l).

Definition t_make (d : bytes) (t : tempBlockStore) : positive * tempBlockStore :=
  (next t, mkTemp (<[next t := d]> (heap t)) (Pos.succ (next t)) (store t)
             (nBlocks t) (name t) (blockSize t)).

Definition t_copy (l : positive) (off : nat) (d : bytes) (t : tempBlockStore) : tempBlockStore :=
  set_heap (<[l := blit off d (t_deref t l)]> (heap t)) t.

(** ** Methods *)

Definition Kind : string := "temp".
Definition Flush : M tempBlockStore unit := mret tt.
Definition BlockSize (t : tempBlockStore) : Z := blockSize t.

Definition Close : M tempBlockStore unit := modify (set_store None).

Definition NumBlocks (t : tempBlockStore) : Z := nBlocks t.
Definition UsedBlocks (t : tempBlockStore) : Z :=
  match store t with Some m => Z.of_nat (size m) | None => 0 end.

Definition HasBlock (r : BlockRef) : M tempBlockStore bool := λ t,
  (Ok (match store t with Some m => bool_decide (is_Some (m !! r)) | None => false end), t).

Definition GetBlock (r : BlockRef) : M tempBlockStore positive := λ t,
  match store t with
  | None => (Err ErrClosed, t)
  | Some m =>
      match m !! r with
      | None => (Err ErrBlockNotExist, t)
      | Some l => (Ok l, t)
      end
  end.

(** The checks [WriteBlock] and [WriteBuf] share, then a new buffer under [r]. *)
Definition store_new (r : BlockRef) (d : bytes) : M tempBlockStore positive := λ t,
  match store t with
  | None => (Err ErrClosed, t)
  | Some m =>
      if decide (to_signed 64 (nBlocks t) ≤ Z.of_nat (size m)) then (Err ErrOutOfSpace, t)
      else let '(l, t') := t_make d t in (Ok l, set_store (Some (<[r := l]> m)) t')
  end.

Definition WriteBlock (r : BlockRef) (data : bytes) : M tempBlockStore unit :=
  _ ← store_new r data; mret tt.

Definition WriteBuf (r : BlockRef) : M tempBlockStore positive :=
  n ← gets blockSize; store_new r (zeros (Z.to_nat n)).

Definition DeleteBlock (r : BlockRef) : M tempBlockStore unit := λ t,
  match store t with
  | None => (Err ErrClosed, t)
  | Some m => (Ok tt, set_store (Some (delete r m)) t)
  end.

(** ** The iterator object *)

Record tempIterator := mkIter { it_blocks : list BlockRef; it_index : Z }.

(** Go visits a map in an unspecified order; this is one of them. *)
Definition BlockIterator (t : tempBlockStore) : tempIterator :=
  mkIter (match store t with Some m => (map_to_list m).*1 | None => [] end) (-1).

Definition Next : M tempIterator bool := λ i,
  let j := it_index i + 1 in
  (Ok (negb (bool_decide (Z.of_nat (length (it_blocks i)) ≤ j))), mkIter (it_blocks i) j).

Definition iter_BlockRef (i : tempIterator) : res BlockRef :=
  or_panic (gindex (it_blocks i) (it_index i)).
Definition iter_Err (i : tempIterator) : option error := None.

(** ** The interface *)

#[export] Instance temp_BlockStore : Store.BlockStore tempBlockStore := {|
  Store.slice := positive;
  Store.deref := t_deref;
  Store.mk_slice := t_make;
  Store.copy_to := t_copy;
  Store.HasBlock := HasBlock;
  Store.GetBlock := GetBlock;
  Store.WriteBlock := WriteBlock;
  Store.WriteBuf := WriteBuf;
  Store.DeleteBlock := DeleteBlock;
  Store.NumBlocks := NumBlocks;
  Store.UsedBlocks := UsedBlocks;
  Store.BlockSize := BlockSize;
  Store.Flush := Flush;
  Store.Close := Close;
  Store.iterator := tempIterator;
  Store.BlockIterator := BlockIterator;
  Store.iter_Next := λ _, Next;
  Store.iter_BlockRef := iter_BlockRef;
  Store.iter_Err := iter_Err;
|}.

(** ** Invariant: buffers are allocated, distinct and below [next] *)

Definition lookup_store (t : tempBlockStore) (r : BlockRef) : option positive :=
  m ← store t; m !! r.

Record temp_inv (t : tempBlockStore) : Prop := {
  ti_next l : is_Some (heap t !! l) → (l < next t)%positive;
  ti_alloc r l : lookup_store t r = Some l → is_Some (heap t !! l);
  ti_inj r r' l : lookup_store t r = Some l → lookup_store t r' = Some l → r = r';
  ti_size : 0 < blockSize t;
}.

Definition temp_live (t : tempBlockStore) (l : positive) : Prop := is_Some (heap t !! l).

Lemma temp_next_fresh t : temp_inv t → heap t !! next t = None.
Proof.
  intros Hi. destruct (heap t !! next t) eqn:E; [|done].
  pose proof (ti_next _ Hi (next t)). rewrite E in *. ospecialize (H _); [done|lia].
Qed.

Lemma make_inv t d l t' : temp_inv t → t_make d t = (l, t') → temp_inv t'.
Proof.
  intros Hi Hm. pose proof (temp_next_fresh _ Hi). destruct Hi as [Hn Ha Hj Hs].
  unfold t_make in Hm. simplify_eq/=. split; simpl.
  - intros l. destruct (decide (l = next t)) as [->|Hne]; simplify_map_eq; [lia|].
    intros ?%Hn. lia.
  - intros r l Hl. pose proof (Ha r l Hl).
    destruct (decide (l = next t)) as [->|]; simplify_map_eq; done.
  - exact Hj.
  - exact Hs.
Qed.

Lemma make_other t d l t' l' :
  temp_inv t → t_make d t = (l, t') → temp_live t l' →
  temp_live t' l' ∧ t_deref t' l' = t_deref t l'.
Proof.
  intros Hi Hm [b Hb]. pose proof (temp_next_fresh _ Hi). unfold t_make in Hm. simplify_eq/=.
  unfold temp_live, t_deref. simpl.
  rewrite lookup_insert_ne by congruence. rewrite Hb. done.
Qed.

(** The two outcomes of [store_new]. *)
Lemma store_new_spec r d t :
  temp_inv t →
  match store_new r d t with
  | (Ok l, t') =>
      temp_inv t' ∧ blockSize t' = blockSize t ∧ is_Some (store t') ∧
      lookup_store t' r = Some l ∧ t_deref t' l = d ∧ ¬ temp_live t l ∧
      (∀ r', r' ≠ r → lookup_store t' r' = lookup_store t r') ∧
      (∀ l', temp_live t l' → temp_live t' l' ∧ t_deref t' l' = t_deref t l')
  | (Err e, t') => t' = t
  | (Panic, _) => False
  end.
Proof.
  intros Hi. unfold store_new. destruct (store t) as [m|] eqn:Em; [|done].
  case_decide as Hd; [done|]. destruct (t_make d t) as [l t1] eqn:Hm.
  pose proof (make_inv _ _ _ _ Hi Hm) as Hi1.
  pose proof (λ l', make_other _ _ _ _ l' Hi Hm) as Ho.
  pose proof (temp_next_fresh _ Hi) as Hf.
  unfold t_make in Hm. simplify_eq/=.
  split_and!; try done.
  - destruct Hi as [Hn Ha Hj Hs], Hi1 as [Hn1 Ha1 Hj1 Hs1]. simpl in *.
    unfold lookup_store in *. rewrite Em in *. simpl in *.
    split; simpl; unfold lookup_store; simpl; try done.
    + intros r' l'. rewrite lookup_insert. case_decide; intros ?; simplify_eq.
      * rewrite lookup_insert_eq. done.
      * by apply (Ha1 r').
    + assert (∀ r0, m !! r0 ≠ Some (next t)) as Hfr.
      { intros r0 [? ?]%Ha. congruence. }
      intros r1 r2 l' H1%lookup_insert_Some H2%lookup_insert_Some.
      destruct H1 as [[<- <-]|[? H1]], H2 as [[<- ?]|[? H2]]; try done.
      * by destruct (Hfr r2).
      * subst. by destruct (Hfr r1).
      * by apply (Hj r1 r2 l').
  - unfold lookup_store. simpl. apply lookup_insert_eq.
  - unfold t_deref. simpl. by rewrite lookup_insert_eq.
  - unfold temp_live. rewrite Hf. by intros [].
  - intros r' Hne. unfold lookup_store. rewrite Em. simpl. by rewrite lookup_insert_ne.
Qed.

Lemma copy_spec t l off d :
  temp_inv t → temp_live t l →
  temp_inv (t_copy l off d t) ∧ t_deref (t_copy l off d t) l = blit off d (t_deref t l) ∧
  (∀ l', temp_live t l' →
     temp_live (t_copy l off d t) l' ∧ (l' ≠ l → t_deref (t_copy l off d t) l' = t_deref t l')).
Proof.
  intros [Hn Ha Hj Hs] Hl. unfold t_copy, temp_live, t_deref in *. simpl.
  assert (∀ l', is_Some (<[l:=blit off d (default [] (heap t !! l))]> (heap t) !! l') ↔
                is_Some (heap t !! l')) as Hsome.
  { intros l'. destruct (decide (l = l')) as [<-|]; simplify_map_eq; naive_solver. }
  split_and!.
  - split; simpl; unfold lookup_store in *; simpl in *; try done.
    + intros l'. rewrite Hsome. apply Hn.
    + intros r l' ?. rewrite Hsome. eauto.
  - by rewrite lookup_insert_eq.
  - intros l' Hl'. rewrite Hsome. split; [done|]. intros ?. by rewrite lookup_insert_ne.
Qed.

(** ** The laws of the interface *)

#[export] Program Instance temp_BlockStoreLaws : BlockStoreLaws tempBlockStore := {|
  Store.inv := temp_inv;
  Store.is_open := λ t, is_Some (store t);
  Store.valid := λ _, True;
  Store.fits := λ _ _, True;
  Store.live := temp_live;
  Store.backing := lookup_store;
|}.
Next Obligation. intros s r sl Hi. apply (ti_alloc _ Hi). Qed.
Next Obligation. intros s r r' sl Hi. apply (ti_inj _ Hi). Qed.
Next Obligation. intros s Hi. apply (ti_size _ Hi). Qed.
Next Obligation. done. Qed.
Next Obligation.
  intros s d sl s' Hi Hm. pose proof (make_inv _ _ _ _ Hi Hm) as Hi'.
  pose proof (λ l', make_other _ _ _ _ l' Hi Hm) as Ho. pose proof (temp_next_fresh _ Hi) as Hf.
  unfold Store.mk_slice in Hm; simpl in Hm. unfold t_make in Hm. simplify_eq/=.
  split_and!; try done; unfold temp_live, t_deref; simpl.
  - by rewrite lookup_insert_eq.
  - rewrite lookup_insert_eq. done.
  - rewrite Hf. by intros [].
Qed.
Next Obligation.
  intros s sl off d Hi Hl _ s'. destruct (copy_spec s sl off d Hi Hl) as (?&?&?).
  split_and!; done.
Qed.
Next Obligation.
  intros s r sl s' Hi Hg. simpl in Hg. unfold GetBlock in Hg.
  destruct (store s) as [m|] eqn:Em; [|done]. destruct (m !! r) as [l|] eqn:El; simplify_eq.
  assert (lookup_store s' r = Some sl) as Hb by (unfold lookup_store; by rewrite Em).
  split_and!; try done; [by apply (ti_alloc _ Hi r)|by rewrite Hb|by left].
Qed.
Next Obligation.
  intros s r e s' Hi Hg. simpl in Hg. unfold GetBlock in Hg. case_all; done.
Qed.
Next Obligation.
  intros s r s' Hi Hg. simpl in Hg. unfold GetBlock in Hg. case_all; done.
Qed.
Next Obligation.
  intros s r sl Hi [m Hm] Hb. simpl. unfold GetBlock, lookup_store in *. rewrite Hm in *.
  simpl in Hb. rewrite Hb. eauto.
Qed.
Next Obligation.
  intros s r Hi [m Hm] Hb. simpl. unfold GetBlock, lookup_store in *. rewrite Hm in *.
  simpl in Hb. rewrite Hb. eauto.
Qed.
Next Obligation.
  intros s r d s' Hi _ _ Hw. simpl in Hw. unfold WriteBlock in Hw.
  apply bind_ok in Hw as (l & s1 & Hn & Hr). unfold mret, M_ret in Hr. simplify_eq.
  pose proof (store_new_spec r d s Hi) as Hs. rewrite Hn in Hs.
  destruct Hs as (?&?&?&?&?&?&?&?). split_and!; try done. eauto.
Qed.
Next Obligation.
  intros s r d e s' Hi _ _ Hw. simpl in Hw. unfold WriteBlock in Hw.
  apply bind_err in Hw as [Hw|(l & s1 & _ & Hr)]; [|done].
  pose proof (store_new_spec r d s Hi) as Hs. rewrite Hw in Hs. by subst.
Qed.
Next Obligation.
  intros s r d s' Hi _ _ Hw. pose proof (store_new_spec r d s Hi) as Hs. simpl in Hw.
  unfold WriteBlock, mbind, M_bind in Hw. case_all; done.
Qed.
Next Obligation.
  intros s r s' Hi Hd. simpl in Hd. unfold DeleteBlock in Hd.
  destruct (store s) as [m|] eqn:Em; simplify_eq. destruct Hi as [Hn Ha Hj Hs].
  unfold lookup_store in *. rewrite Em in *. simpl in *.
  split_and!; try done.
  - split; simpl; unfold lookup_store; simpl; try done.
    + intros r' l [_ ?]%lookup_delete_Some. eauto.
    + intros r1 r2 l [_ ?]%lookup_delete_Some [_ ?]%lookup_delete_Some. eauto.
  - apply lookup_delete_eq.
  - intros r' ?. by rewrite lookup_delete_ne.
Qed.
Next Obligation.
  intros s r e s' Hi Hd. simpl in Hd. unfold DeleteBlock in Hd. case_all; done.
Qed.
Next Obligation.
  intros s r s' Hi Hd. simpl in Hd. unfold DeleteBlock in Hd. case_all; done.
Qed.
Next Obligation. intros s r sl Hi [m Hm] _. simpl. unfold DeleteBlock. rewrite Hm. eauto. Qed.
Next Obligation. intros s o s' Hf. simpl in Hf. unfold Flush, mret, M_ret in Hf. by simplify_eq. Qed.
Next Obligation. intros s r Hi. simpl. unfold HasBlock, lookup_store. by destruct (store s). Qed.

#[export] Program Instance temp_IteratorLaws : IteratorLaws tempBlockStore := {|
  Store.iter_ok := λ i : tempIterator, -1 ≤ it_index i;
  Store.iter_left := λ i : tempIterator, drop (Z.to_nat (it_index i + 1)) (it_blocks i);
|}.
Next Obligation. intros s. cbn. lia. Qed.
Next Obligation.
  intros s r sl Hb. cbn in Hb |- *. unfold lookup_store in Hb. destruct (store s) as [m|]; [|done].
  apply list_elem_of_fmap. exists (r, sl). split; [done|by apply elem_of_map_to_list].
Qed.
Next Obligation.
  intros s [l j] Hj Hl. cbn in *. eexists. unfold Next; cbn. assert (length l ≤ Z.to_nat (j + 1))%nat as Hle.
  { pose proof (length_drop l (Z.to_nat (j + 1))) as Hd. rewrite Hl in Hd. cbn in Hd. lia. }
  rewrite bool_decide_true by lia. split_and!; [done|cbn; lia| |done]. cbn. apply drop_ge. lia.
Qed.
Next Obligation.
  intros s [l j] r l' Hj Hl. cbn in *. destruct (gindex_drop _ _ _ _ Hl) as [Hg Hd].
  eexists. unfold Next, iter_BlockRef; cbn.
  pose proof (proj2 (proj1 (gindex_Some _ _ _) Hg)) as Hlt%lookup_lt_Some.
  rewrite bool_decide_false by lia. rewrite Z2Nat.id in Hg by lia. split_and!; [done|cbn; lia| |].
  - cbn. rewrite <-Hd. f_equal. lia.
  - cbn. by rewrite Hg.
Qed.

(** ** Refinement of a finite map

    The abstract store is a finite map from references to bytes with a
    capacity, and no map at all once it is closed. *)

Definition spec_op (cap : Z) (o : op) (m : option (gmap BlockRef bytes)) :
    res out * option (gmap BlockRef bytes) :=
  match m, o with
  | None, OpHas _ => (Ok (OBool false), m)
  | None, OpUsed => (Ok (ONum 0), m)
  | None, OpClose => (Ok OUnit, m)
  | None, _ => (Err ErrClosed, m)
  | Some m', OpGet r =>
      (match m' !! r with Some d => Ok (OBytes d) | None => Err ErrBlockNotExist end, m)
  | Some m', OpHas r => (Ok (OBool (bool_decide (is_Some (m' !! r)))), m)
  | Some m', OpWrite r d =>
      if decide (cap ≤ Z.of_nat (size m')) then (Err ErrOutOfSpace, m)
      else (Ok OUnit, Some (<[r := d]> m'))
  | Some m', OpDelete r => (Ok OUnit, Some (delete r m'))
  | Some m', OpUsed => (Ok (ONum (Z.of_nat (size m'))), m)
  | Some _, OpClose => (Ok OUnit, None)
  end.

Definition abs (t : tempBlockStore) : option (gmap BlockRef bytes) :=
  match store t with Some m => Some (t_deref t <$> m) | None => None end.

Lemma abs_write t r d m l t' :
  temp_inv t → store t = Some m → t_make d t = (l, t') →
  abs (set_store (Some (<[r := l]> m)) t') = Some (<[r := d]> (t_deref t <$> m)).
Proof.
  intros Hi Em Hm. unfold abs. simpl. f_equal. rewrite fmap_insert.
  pose proof (λ l', make_other _ _ _ _ l' Hi Hm) as Ho.
  f_equal.
  - unfold t_make in Hm. simplify_eq/=. unfold t_deref. simpl. by rewrite lookup_insert_eq.
  - apply map_eq. intros r'. rewrite !lookup_fmap.
    destruct (m !! r') as [l'|] eqn:E; [|done]. simpl. f_equal.
    apply Ho, (ti_alloc _ Hi r'). unfold lookup_store. by rewrite Em.
Qed.

Lemma temp_run_op_refines o t :
  temp_inv t →
  let '(r, t') := Store.run_op o t in
  temp_inv t' ∧ nBlocks t' = nBlocks t ∧
  spec_op (to_signed 64 (nBlocks t)) o (abs t) = (r, abs t').
Proof.
  intros Hi. destruct o as [r|r|r d|r| |]; simpl;
    unfold mbind, M_bind, mret, M_ret, gets, modify; simpl.
  - unfold GetBlock, abs. destruct (store t) as [m|] eqn:Em; simpl; [|by rewrite ?Em].
    rewrite lookup_fmap. destruct (m !! r); simpl; rewrite ?Em; done.
  - unfold abs. destruct (store t) as [m|] eqn:Em; simpl; rewrite ?Em; [|done].
    split_and!; [done|done|]. rewrite lookup_fmap. do 3 f_equal.
    apply bool_decide_ext. by rewrite fmap_is_Some.
  - unfold WriteBlock, mbind, M_bind, mret, M_ret.
    pose proof (store_new_spec r d t Hi) as Hs. unfold store_new in *.
    destruct (store t) as [m|] eqn:Em; simpl.
    + unfold abs at 1. rewrite Em. simpl. rewrite map_size_fmap.
      revert Hs. destruct (decide _) as [Hc|Hc]; simpl; [intros _; unfold abs; by rewrite Em|].
      destruct (t_make d t) as [l t1] eqn:Hm. intros (?&?&_).
      split_and!; [done|by unfold t_make in Hm; simplify_eq/=|].
      rewrite <-(abs_write t r d m _ _ Hi Em eq_refl). done.
    + unfold abs. by rewrite Em.
  - pose proof (DeleteBlock_ok t r) as Hs. simpl in Hs. unfold DeleteBlock in *.
    unfold abs. destruct (store t) as [m|] eqn:Em; simpl; [|by rewrite ?Em].
    split_and!; [by eapply Hs|done|]. by rewrite fmap_delete.
  - unfold UsedBlocks, abs. destruct (store t) as [m|] eqn:Em; simpl; rewrite ?Em; [|done].
    by rewrite map_size_fmap.
  - unfold Close, modify, abs. destruct Hi. split_and!; [by split|done|].
    simpl. by destruct (store t).
Qed.

(** C21: the in-memory block store refines a finite map with a capacity: any
    sequence of reads, membership tests, writes, deletions, counts and closes,
    run from a state satisfying the store's invariant (a newly opened store
    does), gives exactly the answers, errors included, that the map gives. *)
Theorem temp_store_refines_map (ops : list op) (t : tempBlockStore) :
  temp_inv t →
  (run_all run_op ops t).1 = (run_all (spec_op (to_signed 64 (nBlocks t))) ops (abs t)).1 ∧
  temp_inv (run_all run_op ops t).2.
Proof.
  revert t. induction ops as [|o ops IH]; intros t Hi; [done|]. simpl.
  pose proof (temp_run_op_refines o t Hi) as Hr. destruct (run_op o t) as [r t1].
  destruct Hr as (Hi1 & Hn & ->). destruct (IH t1 Hi1) as [IH1 IH2]. rewrite Hn in IH1.
  destruct (run_all run_op ops t1), (run_all _ ops (abs t1)). simpl in *. by subst.
Qed.

Lemma open_inv nm sz bs t : 0 < bs → openTempBlockStore nm sz bs = Ok t → temp_inv t.
Proof.
  intros Hb Ho. unfold openTempBlockStore in Ho. case_decide; [done|]. simplify_eq.
  split; simpl; try done. by intros l [? ?].
Qed.

Lemma temp_store_refines_map_witness :
  ∃ t, openTempBlockStore "current" 64 16 = Ok t ∧ temp_inv t ∧
  (run_all run_op [OpWrite sample_ref [x01]; OpGet sample_ref; OpDelete sample_ref;
                   OpGet sample_ref; OpClose; OpGet sample_ref] t).1
  = [Ok OUnit; Ok (OBytes [x01]); Ok OUnit; Err ErrBlockNotExist; Ok OUnit; Err ErrClosed].
Proof.
  eexists. split; [reflexivity|]. eassert (temp_inv _) as Hi.
  { eapply (open_inv "current" 64 16); [lia|reflexivity]. }
  split; [exact Hi|]. rewrite (proj1 (temp_store_refines_map _ _ Hi)).
  vm_compute. reflexivity.
Defined.
