(* ===== verification/MFile.v ===== *)
(** * The memory-mapped file block store

    Models [src/storage/mmap_file.go] (a file seen as an array of equal blocks)
    and [src/storage/mfile.go] (the block store made of a data file and a file
    of references).  The mmap package is third-party code: [MMapLib] lists the
    four calls made to it.  The mutex makes each method atomic; metrics and log
    lines are left out, except the two slice expressions [x[:10]] inside a log
    call of [WriteBlock], which can panic. *)
From S2P Require Import Prelude GoSem Refs Store.

Record MFileT := mkMFile { mmap : bytes; blkSize : Z; fsize : Z }.

(** The calls made to the mmap package: the bytes a mapping of a file shows,
    and the outcome of the flush and unmap system calls. *)
Class MMapLib := {
  mmap_Map : bytes → res bytes;
  mmap_FlushAsync : bytes → option error;
  mmap_Flush : bytes → option error;
  mmap_Unmap : bytes → option error;
}.

(** ** mmap_file.go *)

Definition MFile_GetBlock (m : MFileT) (n : Z) : res (option bytes) :=
  let offset := wrap64 (n * blkSize m) in
  if decide (fsize m ≤ offset) then Ok None
  else Some <$> or_panic (gslice offset (wrap64 (offset + blkSize m)) (mmap m)).

Definition MFile_NumBlocks (m : MFileT) : Z := fsize m / blkSize m.

(** [zero] fills a slice eight kilobytes at a time. *)
Definition zero_chunk : nat := Z.to_nat (8 * 1024).
Fixpoint zero_loop (fuel : nat) (b : bytes) : bytes :=
  match fuel with
  | O => b
  | S fuel' =>
      if decide (length b = 0%nat) then b
      else let n := Nat.min (length b) zero_chunk in
           zeros n ++ zero_loop fuel' (drop n b)
  end.
Definition zero (b : bytes) : bytes := zero_loop (length b) b.

Definition MFile_WriteBlock (n : Z) (data : bytes) (m : MFileT) : res MFileT :=
  let sz := Z.of_nat (length data) in
  if decide (blkSize m < sz) then Err (ErrMsg "Data block too large")
  else
    let offset := wrap64 (n * blkSize m) in
    if decide (sz = blkSize m) then
      if decide (offset ≤ Z.of_nat (length (mmap m)))
      then Ok (mkMFile (blit (Z.to_nat offset) data (mmap m)) (blkSize m) (fsize m))
      else Panic
    else
      blk ← MFile_GetBlock m n;
      match blk with
      | None => Err (ErrMsg "Offset too large")
      | Some b =>
          let b' := blit 0 data b in
          let k := copied 0 data b in
          Ok (mkMFile (blit (Z.to_nat offset) (take k b' ++ zero (drop k b')) (mmap m))
                (blkSize m) (fsize m))
      end.

Section mmap_lib.
Context `{MMapLib}.

Definition MFile_Flush (m : MFileT) : res unit := of_error (mmap_FlushAsync (mmap m)).

(** [Unmap] sets the mapping to nil. *)
Definition MFile_Close : M MFileT unit :=
  m ← get;
  _ ← lift (of_error (mmap_Flush (mmap m)));
  _ ← lift (of_error (mmap_Unmap (mmap m)));
  put (mkMFile [] (blkSize m) (fsize m)).

(** Opening maps the file; the contents of the path are an argument. *)
Definition OpenMFile (file : bytes) (bSize : Z) : res MFileT :=
  let sz := Z.of_nat (length file) in
  if decide (bSize = 0) then Panic
  else if decide (sz `mod` bSize ≠ 0) then
    Err (ErrMsg "File size is not a multiple of the block size")
  else b ← mmap_Map file; mret (mkMFile b bSize sz).

Definition CreateMFile (size : Z) : bytes := zeros (Z.to_nat size).

(** [file] is what is at the path, [None] for no file. *)
Definition CreateOrOpenMFile (file : option bytes) (size bSize : Z) : res MFileT :=
  match file with
  | None => OpenMFile (CreateMFile size) bSize
  | Some f =>
      let have := Z.of_nat (length f) in
      if decide (have = size) then OpenMFile f bSize
      else if decide (size < have) then Err (ErrMsg "Specified size is smaller than current size")
      else OpenMFile (f ++ zeros (Z.to_nat (size - have))) bSize
  end.

(** ** mfile.go: state *)

Record mfileBlock := mkMfile {
  dataFile : MFileT;
  refFile : MFileT;
  refIndex : gmap BlockRef Z;
  closed : bool;
  lastFree : Z;
  mname : string;
  blocksize : Z;
  mheap : gmap positive bytes;  (** buffers made by the callers *)
  mnext : positive;
}.

Definition with_files (d r : MFileT) (m : mfileBlock) : mfileBlock :=
  mkMfile d r (refIndex m) (closed m) (lastFree m) (mname m) (blocksize m) (mheap m) (mnext m).
Definition with_index (ix : gmap BlockRef Z) (m : mfileBlock) : mfileBlock :=
  mkMfile (dataFile m) (refFile m) ix (closed m) (lastFree m) (mname m) (blocksize m)
    (mheap m) (mnext m).
Definition with_lastFree (i : Z) (m : mfileBlock) : mfileBlock :=
  mkMfile (dataFile m) (refFile m) (refIndex m) (closed m) i (mname m) (blocksize m)
    (mheap m) (mnext m).
Definition with_closed (m : mfileBlock) : mfileBlock :=
  mkMfile (dataFile m) (refFile m) (refIndex m) true (lastFree m) (mname m) (blocksize m)
    (mheap m) (mnext m).
Definition with_heap (h : gmap positive bytes) (n : positive) (m : mfileBlock) : mfileBlock :=
  mkMfile (dataFile m) (refFile m) (refIndex m) (closed m) (lastFree m) (mname m) (blocksize m)
    h n.

Definition blankRefBytes : bytes := zeros BlockRefByteSize.

(** [bytes.Equal(blank, b)]; a nil slice has length 0. *)
Definition is_blank (b : option bytes) : bool :=
  bool_decide (default [] b = blankRefBytes).

(** ** Opening *)

Fixpoint loadIndex_loop (k : nat) (i : Z) (m : MFileT) (out : gmap BlockRef Z)
    : res (gmap BlockRef Z) :=
  match k with
  | O => Ok out
  | S k' =>
      b ← MFile_GetBlock m i;
      if is_blank b then loadIndex_loop k' (i + 1) m out
      else r ← BlockRefFromBytes (default [] b);
           loadIndex_loop k' (i + 1) m (<[r := i]> out)
  end.

Definition loadIndex (m : MFileT) : res (gmap BlockRef Z) :=
  loadIndex_loop (Z.to_nat (MFile_NumBlocks m)) 0 m ∅.

Definition newMFileBlockStore (nm : string) (storageSize0 bSize : Z)
    (dfile rfile : option bytes) : res mfileBlock :=
  if decide (bSize = 0) then Panic
  else
    let offset := storageSize0 `mod` bSize in
    let storageSize := if decide (offset ≠ 0) then storageSize0 - offset else storageSize0 in
    let nBlocks := storageSize / bSize in
    d ← CreateOrOpenMFile dfile storageSize bSize;
    m ← CreateOrOpenMFile rfile (wrap64 (nBlocks * Z.of_nat BlockRefByteSize))
          (Z.of_nat BlockRefByteSize);
    ix ← loadIndex m;
    if decide (MFile_NumBlocks m ≠ MFile_NumBlocks d) then Panic
    else mret (mkMfile d m ix false 0 nm bSize ∅ 1%positive).

(** ** Methods *)

Definition Kind : string := "mfile".
Definition numBlocks (m : mfileBlock) : Z := MFile_NumBlocks (dataFile m).
Definition NumBlocks (m : mfileBlock) : Z := numBlocks m.
Definition BlockSize (m : mfileBlock) : Z := blocksize m.
Definition UsedBlocks (m : mfileBlock) : Z := Z.of_nat (size (refIndex m)).

Definition flush (m : mfileBlock) : res unit :=
  _ ← MFile_Flush (dataFile m); MFile_Flush (refFile m).
Definition Flush : M mfileBlock unit := λ m, (flush m, m).

(** Closing one of the two files. *)
Definition close_data : M mfileBlock unit := λ m,
  let '(r, f) := MFile_Close (dataFile m) in (r, with_files f (refFile m) m).
Definition close_ref : M mfileBlock unit := λ m,
  let '(r, f) := MFile_Close (refFile m) in (r, with_files (dataFile m) f m).

(** [close] ignores the error of its own flush. *)
Definition close : M mfileBlock unit :=
  _ ← try Flush;
  m ← get;
  if closed m then mret tt
  else
    _ ← close_data;
    _ ← close_ref;
    modify with_closed.
Definition Close : M mfileBlock unit := close.

Definition findIndex (r : BlockRef) (m : mfileBlock) : Z := default (-1) (refIndex m !! r).

(** The scan starts after the last slot given out and goes round once. *)
Fixpoint findEmpty_loop (k : nat) (i : Z) (m : mfileBlock) : res Z :=
  match k with
  | O => Ok (-1)
  | S k' =>
      let slot := wrap64 (wrap64 (i + wrap64 (lastFree m)) + 1) `mod` numBlocks m in
      b ← MFile_GetBlock (refFile m) slot;
      if is_blank b then Ok slot else findEmpty_loop k' (i + 1) m
  end.

Definition findEmpty : M mfileBlock Z := λ m,
  match findEmpty_loop (Z.to_nat (numBlocks m)) 0 m with
  | Ok i => if decide (i = -1) then (Ok (-1), m) else (Ok i, with_lastFree i m)
  | r => (r, m)
  end.

Definition HasBlock (r : BlockRef) : M mfileBlock bool := λ m,
  (Ok (negb (bool_decide (findIndex r m = -1))), m).

(** A slice is a buffer of the caller or a block of the data file's mapping. *)
Inductive mslice : Type := MHeap (l : positive) | MMapped (n : Z).

#[export] Instance mslice_eq_dec : EqDecision mslice.
Proof. solve_decision. Defined.

Definition GetBlock (r : BlockRef) : M mfileBlock mslice := λ m,
  if closed m then (Err ErrClosed, m)
  else
    let index := findIndex r m in
    if decide (index = -1) then (Err ErrBlockNotExist, m)
    else match MFile_GetBlock (dataFile m) (wrap64 index) with
         | Ok _ => (Ok (MMapped index), m)
         | Err e => (Err e, m)
         | Panic => (Panic, m)
         end.

(** Writing one of the two files and keeping the state when it fails. *)
Definition write_data (i : Z) (d : bytes) : M mfileBlock unit := λ m,
  match MFile_WriteBlock (wrap64 i) d (dataFile m) with
  | Ok f => (Ok tt, with_files f (refFile m) m)
  | Err e => (Err e, m)
  | Panic => (Panic, m)
  end.
Definition write_ref (i : Z) (d : bytes) : M mfileBlock unit := λ m,
  match MFile_WriteBlock (wrap64 i) d (refFile m) with
  | Ok f => (Ok tt, with_files (dataFile m) f m)
  | Err e => (Err e, m)
  | Panic => (Panic, m)
  end.

Definition WriteBlock (s : BlockRef) (data : bytes) : M mfileBlock unit :=
  m0 ← get;
  if closed m0 then throw ErrClosed
  else
    index ← findEmpty;
    if decide (index = -1) then throw ErrOutOfSpace
    else
      _ ← write_data index data;
      _ ← write_ref index (BlockRef_ToBytes s);
      m ← get;
      let v := findIndex s m in
      if decide (v ≠ -1) then
        olddata ← lift (MFile_GetBlock (dataFile m) (wrap64 v));
        if decide (default [] olddata ≠ data) then
          _ ← lift (or_panic (gslice 0 10 (default [] olddata)));
          _ ← lift (or_panic (gslice 0 10 data));
          throw ErrExists
        else mret tt
      else modify (λ m, with_index (<[s := index]> (refIndex m)) m).

Definition WriteBuf (s : BlockRef) : M mfileBlock mslice :=
  m0 ← get;
  if closed m0 then throw ErrClosed
  else
    index ← findEmpty;
    if decide (index = -1) then throw ErrOutOfSpace
    else
      _ ← lift (MFile_GetBlock (dataFile m0) (wrap64 index));
      _ ← write_ref index (BlockRef_ToBytes s);
      m ← get;
      if decide (findIndex s m ≠ -1) then throw ErrExists
      else
        _ ← modify (λ m, with_index (<[s := index]> (refIndex m)) m);
        mret (MMapped index).

Definition DeleteBlock (s : BlockRef) : M mfileBlock unit :=
  m0 ← get;
  if closed m0 then throw ErrClosed
  else
    let index := findIndex s m0 in
    if decide (index = -1) then throw ErrBlockNotExist
    else
      _ ← write_ref index blankRefBytes;
      modify (λ m, with_index (delete s (refIndex m)) m).

(** ** The iterator object *)

Record mfileIterator := mkMIter { mi_set : list BlockRef; mi_i : Z; mi_done : bool }.

Definition BlockIterator (m : mfileBlock) : mfileIterator := mkMIter (map_to_list (refIndex m)).*1 (-1) false.

Definition Next : M mfileIterator bool := λ it,
  if mi_done it then (Ok false, it)
  else
    let j := mi_i it + 1 in
    if decide (j = Z.of_nat (length (mi_set it))) then (Ok false, mkMIter (mi_set it) j true)
    else (Ok true, mkMIter (mi_set it) j false).

Definition iter_BlockRef (it : mfileIterator) : res BlockRef :=
  or_panic (gindex (mi_set it) (mi_i it)).
Definition iter_Err (it : mfileIterator) : option error := None.

(** ** Slices and the interface *)

Definition m_deref (m : mfileBlock) (sl : mslice) : bytes :=
  match sl with
  | MHeap l => default [] (mheap m !! l)
  | MMapped n => block_at (Z.to_nat (blocksize m)) (Z.to_nat n) (mmap (dataFile m))
  end.

Definition m_make (d : bytes) (m : mfileBlock) : mslice * mfileBlock :=
  (MHeap (mnext m), with_heap (<[mnext m := d]> (mheap m)) (Pos.succ (mnext m)) m).

Definition m_copy (sl : mslice) (off : nat) (d : bytes) (m : mfileBlock) : mfileBlock :=
  match sl with
  | MHeap l => with_heap (<[l := blit off d (m_deref m sl)]> (mheap m)) (mnext m) m
  | MMapped n =>
      let f := dataFile m in
      with_files
        (mkMFile (blit (Z.to_nat n * Z.to_nat (blocksize m)) (blit off d (m_deref m sl)) (mmap f))
           (blkSize f) (fsize f))
        (refFile m) m
  end.

#[export] Instance mfile_BlockStore : Store.BlockStore mfileBlock := {|
  Store.slice := mslice;
  Store.deref := m_deref;
  Store.mk_slice := m_make;
  Store.copy_to := m_copy;
  Store.HasBlock := HasBlock;
  Store.GetBlock := GetBlock;
  Store.WriteBlock := WriteBlock;
  Store.WriteBuf := WriteBuf;
  Store.DeleteBlock := DeleteBlock;
  Store.NumBlocks := NumBlocks;
  Store.UsedBlocks := UsedBlocks;
  Store.BlockSize := BlockSize;
  Store.Flush := Flush;
  Store.Close := Close;
  Store.iterator := mfileIterator;
  Store.BlockIterator := BlockIterator;
  Store.iter_Next := λ _, Next;
  Store.iter_BlockRef := iter_BlockRef;
  Store.iter_Err := iter_Err;
|}.

(** ** Facts about one mapped file *)

(** A mapping of [n] blocks of [bs] bytes, of a size a process can map. *)
Record mf_ok (f : MFileT) (bs n : Z) : Prop := {
  mo_bs : blkSize f = bs;
  mo_size : fsize f = n * bs;
  mo_len : Z.of_nat (length (mmap f)) = n * bs;
  mo_pos : 0 < bs;
  mo_n : 0 ≤ n;
  mo_max : n * bs < 2 ^ 63;
}.

Lemma mf_slot_bounds f bs n i : mf_ok f bs n → 0 ≤ i < n → 0 ≤ i * bs ∧ i * bs + bs ≤ n * bs.
Proof. intros [] Hi. nia. Qed.

Lemma mf_slot_nat f bs n i :
  mf_ok f bs n → 0 ≤ i < n →
  ((Z.to_nat i + 1) * Z.to_nat bs ≤ length (mmap f))%nat ∧
  Z.to_nat (i * bs) = (Z.to_nat i * Z.to_nat bs)%nat.
Proof.
  intros Ho Hi. pose proof (mf_slot_bounds _ _ _ _ Ho Hi) as [? ?]. destruct Ho.
  split; [|rewrite Z2Nat.inj_mul by lia; done].
  apply Nat2Z.inj_le. rewrite Nat2Z.inj_mul, Nat2Z.inj_add, !Z2Nat.id by lia. lia.
Qed.

Lemma mf_NumBlocks f bs n : mf_ok f bs n → MFile_NumBlocks f = n.
Proof. intros []. unfold MFile_NumBlocks. rewrite mo_bs0, mo_size0. apply Z.div_mul. lia. Qed.

Lemma mf_GetBlock f bs n i :
  mf_ok f bs n → 0 ≤ i < n →
  MFile_GetBlock f i = Ok (Some (block_at (Z.to_nat bs) (Z.to_nat i) (mmap f))).
Proof.
  intros Ho Hi. pose proof (mf_slot_bounds _ _ _ _ Ho Hi) as [? ?].
  pose proof (mf_slot_nat _ _ _ _ Ho Hi) as [_ Hn]. destruct Ho.
  unfold MFile_GetBlock. rewrite mo_bs0, mo_size0.
  rewrite wrap_id by (unfold in_width; lia). rewrite decide_False by nia.
  rewrite wrap_id by (unfold in_width; lia).
  unfold gslice. rewrite decide_True by lia. simpl.
  unfold fmap, res_fmap, res_map. do 2 f_equal. unfold block_at. rewrite Hn. f_equal. lia.
Qed.

Lemma mf_WriteBlock f bs n i d :
  mf_ok f bs n → 0 ≤ i < n → Z.of_nat (length d) = bs →
  ∃ f', MFile_WriteBlock i d f = Ok f' ∧ mf_ok f' bs n ∧
        mmap f' = blit (Z.to_nat i * Z.to_nat bs) d (mmap f).
Proof.
  intros Ho Hi Hd. pose proof (mf_slot_bounds _ _ _ _ Ho Hi) as [? ?].
  pose proof (mf_slot_nat _ _ _ _ Ho Hi) as [_ Hn]. destruct Ho.
  unfold MFile_WriteBlock. rewrite mo_bs0. rewrite decide_False by lia.
  rewrite decide_True by done. rewrite wrap_id by (unfold in_width; lia).
  rewrite decide_True by lia. rewrite Hn.
  eexists. split; [done|]. split; [|done].
  split; simpl; try done. by rewrite length_blit.
Qed.

Lemma mf_block_eq f bs n i d :
  mf_ok f bs n → 0 ≤ i < n → Z.of_nat (length d) = bs →
  block_at (Z.to_nat bs) (Z.to_nat i) (blit (Z.to_nat i * Z.to_nat bs) d (mmap f)) = d.
Proof.
  intros Ho Hi Hd. apply block_at_blit_eq; [lia|]. by apply (mf_slot_nat _ _ _ _ Ho Hi).
Qed.

Lemma mf_block_ne f bs n i j d :
  mf_ok f bs n → 0 ≤ i < n → 0 ≤ j → i ≠ j → Z.of_nat (length d) = bs →
  block_at (Z.to_nat bs) (Z.to_nat j) (blit (Z.to_nat i * Z.to_nat bs) d (mmap f))
  = block_at (Z.to_nat bs) (Z.to_nat j) (mmap f).
Proof.
  intros Ho Hi Hj Hne Hd.
  apply block_at_blit_ne; [lia|by apply (mf_slot_nat _ _ _ _ Ho Hi)|lia].
Qed.

Lemma zero_chunk_pos : (0 < zero_chunk)%nat.
Proof. unfold zero_chunk. lia. Qed.
#[local] Opaque zero_chunk.

Lemma zero_loop_spec k b : (length b ≤ k)%nat → zero_loop k b = zeros (length b).
Proof.
  revert b. induction k as [|k IH]; intros b Hk; simpl.
  { destruct b; [done|simpl in Hk; lia]. }
  pose proof zero_chunk_pos. case_decide as Hz; [by destruct b|].
  rewrite IH by len. rewrite zeros_app. f_equal. len.
Qed.

Lemma zero_spec b : zero b = zeros (length b).
Proof. by apply zero_loop_spec. Qed.

Lemma blit_blit0 (d b : bytes) :
  (length d ≤ length b)%nat →
  take (copied 0 d b) (blit 0 d b) = d ∧
  zero (drop (copied 0 d b) (blit 0 d b)) = zeros (length b - length d).
Proof.
  intros Hl. unfold copied. rewrite Nat.sub_0_r, Nat.min_l by done. rewrite zero_spec. split.
  - unfold blit. rewrite take_0. simpl. rewrite take_app_le by len. rewrite take_take, take_ge by len.
    done.
  - f_equal. len.
Qed.

(** A short write is the write of the padded data. *)
Lemma write_padded f bs n i d :
  mf_ok f bs n → 0 ≤ i < n → Z.of_nat (length d) ≤ bs →
  MFile_WriteBlock i d f = MFile_WriteBlock i (d ++ zeros (Z.to_nat bs - length d)) f.
Proof.
  intros Ho Hi Hl. destruct (decide (Z.of_nat (length d) = bs)) as [E|E].
  { replace (Z.to_nat bs - length d)%nat with 0%nat by lia. by rewrite app_nil_r. }
  pose proof (mf_slot_bounds _ _ _ i Ho Hi) as Hb.
  pose proof (mf_slot_nat f bs n i Ho Hi) as [Hs _].
  unfold MFile_WriteBlock at 1. rewrite (mo_bs _ _ _ Ho), !decide_False by lia.
  rewrite (mf_GetBlock f bs n i Ho Hi). cbn [mbind res_mbind res_bind].
  destruct (blit_blit0 d (block_at (Z.to_nat bs) (Z.to_nat i) (mmap f))) as [-> ->].
  { rewrite length_block_at by done. lia. }
  rewrite length_block_at by done. set (d' := d ++ _).
  assert (Z.of_nat (length d') = bs) as Hd' by (unfold d'; len).
  unfold MFile_WriteBlock. destruct Ho. rewrite mo_bs0, decide_False by lia.
  rewrite (decide_True (P := (Z.of_nat (length d') = bs))) by done.
  by rewrite !wrap_id, decide_True by (unfold in_width; lia).
Qed.

(** Writing at most a block's worth of data into a block of a mapped file
    succeeds, the block then reads as the data padded with zeros to the block
    size, and every other block is as it was; longer data is refused, and short
    data for a block past the end is refused too. *)
Theorem mfile_block_write (f : MFileT) (bs n i : Z) (d : bytes) :
  mf_ok f bs n → 0 ≤ i → i * bs < 2 ^ 64 →
  (bs < Z.of_nat (length d) → MFile_WriteBlock i d f = Err (ErrMsg "Data block too large")) ∧
  (Z.of_nat (length d) < bs → n ≤ i → MFile_WriteBlock i d f = Err (ErrMsg "Offset too large")) ∧
  (Z.of_nat (length d) ≤ bs → i < n →
   ∃ f', MFile_WriteBlock i d f = Ok f' ∧ mf_ok f' bs n ∧
     MFile_GetBlock f' i = Ok (Some (d ++ zeros (Z.to_nat bs - length d))) ∧
     ∀ j, 0 ≤ j < n → j ≠ i → MFile_GetBlock f' j = MFile_GetBlock f j).
Proof.
  intros Ho Hi Hw. split_and!.
  - intros Hl. unfold MFile_WriteBlock. by rewrite (mo_bs _ _ _ Ho), decide_True by lia.
  - intros Hl Hn. unfold MFile_WriteBlock. destruct Ho.
    rewrite mo_bs0, !decide_False by lia. unfold MFile_GetBlock.
    rewrite mo_bs0, mo_size0, wrap_id by (unfold in_width; nia). by rewrite decide_True by nia.
  - intros Hl Hn. set (d' := d ++ zeros (Z.to_nat bs - length d)).
    assert (Z.of_nat (length d') = bs) as Hd' by (unfold d'; len).
    rewrite (write_padded f bs n i d Ho) by lia. fold d'.
    destruct (mf_WriteBlock f bs n i d' Ho) as (f' & -> & Ho' & Hm); [lia|done|].
    exists f'. split_and!; try done.
    + rewrite (mf_GetBlock f' bs n i Ho') by lia. rewrite Hm. do 2 f_equal.
      by apply (mf_block_eq f bs n); [|lia|].
    + intros j Hj Hne. rewrite (mf_GetBlock f' bs n j Ho'), (mf_GetBlock f bs n j Ho) by done.
      rewrite Hm. do 2 f_equal. by apply (mf_block_ne f bs n); [|lia|lia| |].
Qed.

Lemma mfile_block_write_witness :
  ∃ f', MFile_WriteBlock 1 [x07; x08] (mkMFile (replicate 8 x01) 4 8) = Ok f' ∧
        MFile_GetBlock f' 1 = Ok (Some [x07; x08; x00; x00]).
Proof.
  assert (mf_ok (mkMFile (replicate 8 x01) 4 8) 4 2) as Ho by (by split).
  destruct (mfile_block_write _ 4 2 1 [x07; x08] Ho ltac:(lia) ltac:(lia)) as (_ & _ & Hw).
  destruct (Hw ltac:(simpl; lia) ltac:(lia)) as (f' & Hf & _ & Hg & _).
  exists f'. split; [exact Hf|exact Hg].
Defined.

(** ** Invariant of the store *)

Definition nslots (m : mfileBlock) : Z := numBlocks m.
Abbreviation refsz := (Z.of_nat BlockRefByteSize).

(** The bytes of a slot of the reference file. *)
Definition ref_slot (m : mfileBlock) (i : Z) : bytes :=
  block_at BlockRefByteSize (Z.to_nat i) (mmap (refFile m)).

Definition nonzero_ref (r : BlockRef) : Prop := wf_blockref r ∧ r ≠ ZeroBlock.

Record mfile_inv (m : mfileBlock) : Prop := {
  fi_data : mf_ok (dataFile m) (blocksize m) (nslots m);
  fi_refs : mf_ok (refFile m) refsz (nslots m);
  fi_big : 10 ≤ blocksize m;
  fi_free : 0 ≤ lastFree m ∧ (0 < nslots m → lastFree m < nslots m);
  fi_index r i : refIndex m !! r = Some i →
    0 ≤ i < nslots m ∧ nonzero_ref r ∧ ref_slot m i = BlockRef_ToBytes r;
  fi_heap l : is_Some (mheap m !! l) → (l < mnext m)%positive;
}.

Lemma nonzero_ref_bytes r : nonzero_ref r → BlockRef_ToBytes r ≠ blankRefBytes.
Proof.
  intros [Hwf Hne] Hb. apply Hne. apply BlockRef_ToBytes_inj; [done|split; [split|]; done|].
  rewrite Hb. unfold BlockRef_ToBytes, ZeroBlock. simpl. rewrite !le_put_zero. done.
Qed.

Lemma index_inj m r r' i :
  mfile_inv m → refIndex m !! r = Some i → refIndex m !! r' = Some i → r = r'.
Proof.
  intros Hi H1 H2. destruct (fi_index _ Hi _ _ H1) as (_ & [? _] & E1).
  destruct (fi_index _ Hi _ _ H2) as (_ & [? _] & E2).
  apply BlockRef_ToBytes_inj; congruence.
Qed.

(** A blank slot belongs to no reference. *)
Lemma blank_unused m i r :
  mfile_inv m → ref_slot m i = blankRefBytes → refIndex m !! r ≠ Some i.
Proof.
  intros Hi Hb Hr. destruct (fi_index _ Hi _ _ Hr) as (_ & Hn & E).
  apply (nonzero_ref_bytes _ Hn). congruence.
Qed.

(** ** The scan for a free slot *)

Lemma scan_slot m j :
  mfile_inv m → 0 ≤ j < nslots m →
  wrap64 (wrap64 (j + wrap64 (lastFree m)) + 1) `mod` numBlocks m
  = (j + lastFree m + 1) `mod` nslots m.
Proof.
  intros Hi Hj. destruct (fi_free _ Hi) as [? Hf]. ospecialize (Hf _); [lia|].
  pose proof (mo_max _ _ _ (fi_refs _ Hi)). unfold refsz in *. simpl in *.
  rewrite (wrap_id 64 (lastFree m)) by (unfold in_width; lia).
  rewrite (wrap_id 64 (j + _)) by (unfold in_width; lia).
  rewrite wrap_id by (unfold in_width; lia). done.
Qed.

Lemma findEmpty_loop_spec k m j :
  mfile_inv m → 0 ≤ j → j + Z.of_nat k = nslots m →
  ∃ i, findEmpty_loop k j m = Ok i ∧
    (i = -1 ∧ (∀ j', j ≤ j' < nslots m →
                 ref_slot m ((j' + lastFree m + 1) `mod` nslots m) ≠ blankRefBytes)
     ∨ 0 ≤ i < nslots m ∧ ref_slot m i = blankRefBytes).
Proof.
  intros Hi. revert j. induction k as [|k IH]; intros j Hj Hk; simpl.
  { exists (-1). split; [done|]. left. split; [done|]. lia. }
  rewrite (scan_slot m j Hi) by lia.
  set (slot := (j + lastFree m + 1) `mod` nslots m).
  assert (0 ≤ slot < nslots m) as Hs by (apply Z.mod_pos_bound; lia).
  rewrite (mf_GetBlock _ _ _ _ (fi_refs _ Hi) Hs). cbn [mbind res_mbind res_bind].
  unfold is_blank. simpl default. rewrite Nat2Z.id. case_bool_decide as Hb.
  { exists slot. split; [done|]. right. done. }
  destruct (IH (j + 1)) as (i & Hr & Ho); [lia|lia|]. exists i. split; [done|].
  destruct Ho as [[-> Hall]|Ho]; [|by right]. left. split; [done|].
  intros j' Hj'. destruct (decide (j' = j)) as [->|]; [exact Hb|]. apply Hall. lia.
Qed.

(** The scan finds a blank slot when there is one. *)
Lemma findEmpty_spec m :
  mfile_inv m →
  (findEmpty m = (Ok (-1), m) ∧ ∀ i, 0 ≤ i < nslots m → ref_slot m i ≠ blankRefBytes) ∨
  ∃ i, findEmpty m = (Ok i, with_lastFree i m) ∧ 0 ≤ i < nslots m ∧ ref_slot m i = blankRefBytes.
Proof.
  intros Hi. unfold findEmpty. fold (nslots m).
  pose proof (mo_n _ _ _ (fi_refs _ Hi)).
  destruct (findEmpty_loop_spec (Z.to_nat (nslots m)) m 0 Hi) as (i & -> & Ho); [lia|lia|].
  destruct Ho as [[-> Hall]|[Hr Hb]].
  - left. rewrite decide_True by done. split; [done|]. intros i Hi'.
    pose proof (Hall ((i - lastFree m - 1) `mod` nslots m)) as Hx.
    ospecialize (Hx _); [apply Z.mod_pos_bound; lia|].
    replace (((i - lastFree m - 1) `mod` nslots m + lastFree m + 1) `mod` nslots m) with i in Hx; [done|].
    rewrite <-Z.add_assoc, Zplus_mod_idemp_l.
    replace (i - lastFree m - 1 + (lastFree m + 1)) with i by lia. by rewrite Z.mod_small.
  - right. exists i. rewrite decide_False by lia. done.
Qed.

Lemma with_lastFree_inv m i : mfile_inv m → 0 ≤ i < nslots m → mfile_inv (with_lastFree i m).
Proof. intros [] ?. split; simpl; try done. unfold nslots, numBlocks in *. simpl in *. lia. Qed.

(** ** Steps of a write *)

(** The parts of the state the file writes leave alone. *)
Record same_index (m m' : mfileBlock) : Prop := {
  si_index : refIndex m' = refIndex m;
  si_closed : closed m' = closed m;
  si_bs : blocksize m' = blocksize m;
  si_heap : mheap m' = mheap m;
  si_next : mnext m' = mnext m;
  si_slots : nslots m' = nslots m;
}.

Lemma same_index_trans m1 m2 m3 : same_index m1 m2 → same_index m2 m3 → same_index m1 m3.
Proof. intros [] []. split; congruence. Qed.

Lemma slot_u64 m i : mfile_inv m → 0 ≤ i < nslots m → wrap64 i = i.
Proof.
  intros Hi ?. pose proof (mo_max _ _ _ (fi_refs _ Hi)) as Hm. change refsz with 24 in Hm.
  apply wrap_id. unfold in_width. lia.
Qed.

Lemma write_data_spec m i d :
  mfile_inv m → 0 ≤ i < nslots m → Z.of_nat (length d) = blocksize m →
  ∃ m', write_data i d m = (Ok tt, m') ∧ mfile_inv m' ∧ same_index m m' ∧
    refFile m' = refFile m ∧ m_deref m' (MMapped i) = d ∧
    ∀ j, 0 ≤ j → j ≠ i → m_deref m' (MMapped j) = m_deref m (MMapped j).
Proof.
  intros Hi Hs Hd. unfold write_data. rewrite (slot_u64 _ _ Hi Hs).
  destruct (mf_WriteBlock _ _ _ _ _ (fi_data _ Hi) Hs Hd) as (f' & -> & Hok & Hm).
  assert (MFile_NumBlocks f' = nslots m) as Hn by (by eapply mf_NumBlocks).
  eexists. split; [done|]. split_and!; try done.
  - destruct Hi. split; unfold nslots, numBlocks, ref_slot in *; simpl; rewrite ?Hn; done.
  - simpl. rewrite Hm. eapply mf_block_eq; [apply (fi_data _ Hi)|done|done].
  - intros j Hj Hne. simpl. rewrite Hm.
    eapply mf_block_ne; [apply (fi_data _ Hi)|done|done|done|done].
Qed.

(** A reference written to a slot no reference of the index uses. *)
Lemma write_ref_spec m i d :
  mfile_inv m → 0 ≤ i < nslots m → length d = BlockRefByteSize →
  ∃ m', write_ref i d m = (Ok tt, m') ∧ same_index m m' ∧ dataFile m' = dataFile m ∧
    lastFree m' = lastFree m ∧
    mf_ok (refFile m') refsz (nslots m) ∧ ref_slot m' i = d ∧
    ∀ j, 0 ≤ j → j ≠ i → ref_slot m' j = ref_slot m j.
Proof.
  intros Hi Hs Hd. unfold write_ref. rewrite (slot_u64 _ _ Hi Hs).
  assert (Z.of_nat (length d) = refsz) as Hd' by lia.
  destruct (mf_WriteBlock _ _ _ _ _ (fi_refs _ Hi) Hs Hd') as (f' & -> & Hok & Hm).
  eexists. split; [done|]. split_and!; try done; unfold ref_slot; simpl.
  - rewrite Hm. pose proof (mf_block_eq _ _ _ _ _ (fi_refs _ Hi) Hs Hd') as He.
    rewrite Nat2Z.id in *. exact He.
  - intros j Hj Hne. rewrite Hm.
    pose proof (mf_block_ne _ _ _ _ j _ (fi_refs _ Hi) Hs Hj ltac:(done) Hd') as He.
    rewrite Nat2Z.id in *. exact He.
Qed.

(** The invariant only depends on the files through the slots in use. *)
Lemma inv_reindex m m' ix :
  mfile_inv m → same_index m m' → dataFile m' = dataFile m → lastFree m' = lastFree m →
  mf_ok (refFile m') refsz (nslots m) →
  (∀ r i, ix !! r = Some i → 0 ≤ i < nslots m ∧ nonzero_ref r ∧ ref_slot m' i = BlockRef_ToBytes r) →
  mfile_inv (with_index ix m').
Proof.
  intros [] [] Hdf Hlf Hok Hix. split; unfold nslots, numBlocks, ref_slot in *; simpl in *;
    rewrite ?Hdf, ?si_bs0, ?si_heap0, ?si_next0, ?Hlf; try done.
Qed.

Lemma with_index_id m : with_index (refIndex m) m = m.
Proof. by destruct m. Qed.

(** ** WriteBlock *)

Definition mlive (m : mfileBlock) (sl : mslice) : Prop :=
  match sl with
  | MHeap l => is_Some (mheap m !! l)
  | MMapped i => ∃ r, refIndex m !! r = Some i
  end.
Definition mbacking (m : mfileBlock) (r : BlockRef) : option mslice :=
  match refIndex m !! r with Some i => Some (MMapped i) | None => None end.

Lemma findIndex_None m r : refIndex m !! r = None → findIndex r m = -1.
Proof. intros E. unfold findIndex. by rewrite E. Qed.

Lemma findIndex_Some m r i : refIndex m !! r = Some i → findIndex r m = i.
Proof. intros E. unfold findIndex. by rewrite E. Qed.

(** A reference written to a blank slot: the slot names [r], and the index is
    untouched. *)
Lemma write_ref_blank m i r :
  mfile_inv m → 0 ≤ i < nslots m → ref_slot m i = blankRefBytes → wf_blockref r →
  ∃ m2, write_ref i (BlockRef_ToBytes r) m = (Ok tt, m2) ∧ mfile_inv m2 ∧ same_index m m2 ∧
    ref_slot m2 i = BlockRef_ToBytes r ∧
    (∀ j, 0 ≤ j → j ≠ i → ref_slot m2 j = ref_slot m j) ∧
    (∀ sl, m_deref m2 sl = m_deref m sl) ∧
    (r ≠ ZeroBlock → mfile_inv (with_index (<[r := i]> (refIndex m2)) m2)).
Proof.
  intros Hi Hs Hb Hr.
  destruct (write_ref_spec m i (BlockRef_ToBytes r) Hi Hs) as (m2 & Hw2 & S2 & Hdf & Hlf & Hok & Hsl & Hslo);
    [apply length_BlockRef_ToBytes|].
  assert (∀ r' j, refIndex m2 !! r' = Some j → 0 ≤ j < nslots m ∧ nonzero_ref r' ∧
            ref_slot m2 j = BlockRef_ToBytes r') as Hix.
  { intros r' j E. rewrite (si_index _ _ S2) in E. pose proof (fi_index _ Hi _ _ E) as (?&?&?).
    rewrite Hslo; [done|lia|]. intros ->. by apply (blank_unused m i r' Hi Hb). }
  exists m2. split_and!; try done.
  - rewrite <-(with_index_id m2). by apply (inv_reindex m).
  - intros [l|j]; simpl; [by rewrite (si_heap _ _ S2)|by rewrite Hdf, (si_bs _ _ S2)].
  - intros Hne. apply (inv_reindex m); try done.
    intros r' j [[<- <-]|[_ E]]%lookup_insert_Some; [|by apply Hix]. split_and!; try done; lia.
Qed.

(** The state after both files have been written: the data is in slot [i], the
    slot of the reference file names [r], and the index is untouched. *)
Lemma write_both m i r d :
  mfile_inv m → 0 ≤ i < nslots m → ref_slot m i = blankRefBytes → wf_blockref r →
  Z.of_nat (length d) = blocksize m →
  ∃ m1 m2, write_data i d m = (Ok tt, m1) ∧ write_ref i (BlockRef_ToBytes r) m1 = (Ok tt, m2) ∧
    mfile_inv m2 ∧ same_index m m2 ∧ m_deref m2 (MMapped i) = d ∧
    ref_slot m2 i = BlockRef_ToBytes r ∧
    (∀ j, 0 ≤ j → j ≠ i → ref_slot m2 j = ref_slot m j) ∧
    (∀ sl, mlive m sl → m_deref m2 sl = m_deref m sl) ∧
    (r ≠ ZeroBlock → mfile_inv (with_index (<[r := i]> (refIndex m2)) m2)).
Proof.
  intros Hi Hs Hb Hr Hd.
  destruct (write_data_spec _ _ _ Hi Hs Hd) as (m1 & Hw1 & Hi1 & S1 & Hrf & Hd1 & Ho1).
  assert (∀ j, ref_slot m1 j = ref_slot m j) as Hrs by (intros j; unfold ref_slot; by rewrite Hrf).
  destruct (write_ref_blank m1 i r Hi1) as (m2 & Hw2 & Hi2 & S2 & Hsl & Hslo & Hde & Hix);
    [by rewrite (si_slots _ _ S1)|by rewrite Hrs|done|].
  exists m1, m2. split_and!; try done.
  - by eapply same_index_trans.
  - by rewrite Hde.
  - intros j ??. rewrite <-Hrs. by apply Hslo.
  - intros [l|j] Hl; rewrite Hde; simpl in Hl; [simpl; by rewrite (si_heap _ _ S1)|].
    destruct Hl as [r' E]. apply Ho1; [apply (fi_index _ Hi _ _ E)|].
    intros ->. by apply (blank_unused m i r' Hi Hb).
Qed.

Lemma same_index_lastFree m i : same_index m (with_lastFree i m).
Proof. by split. Qed.

Lemma length_mapped m i :
  mfile_inv m → 0 ≤ i < nslots m → Z.of_nat (length (m_deref m (MMapped i))) = blocksize m.
Proof.
  intros Hi Hs. simpl. pose proof (mf_slot_nat _ _ _ _ (fi_data _ Hi) Hs) as [Hl _].
  rewrite length_block_at by done. pose proof (mo_pos _ _ _ (fi_data _ Hi)). lia.
Qed.

Lemma log_slice (d : bytes) : 10 ≤ Z.of_nat (length d) → ∃ x, gslice 0 10 d = Some x.
Proof. intros. unfold gslice. rewrite decide_True by lia. eauto. Qed.

(** The state a write leaves the files in, when it found slot [i]. *)
Record written (m : mfileBlock) (i : Z) (r : BlockRef) (d : bytes) (m2 : mfileBlock) : Prop := {
  wr_slot : 0 ≤ i < nslots m;
  wr_blank : ref_slot m i = blankRefBytes;
  wr_inv : mfile_inv m2;
  wr_same : same_index m m2;
  wr_data : m_deref m2 (MMapped i) = d;
  wr_ref : ref_slot m2 i = BlockRef_ToBytes r;
  wr_other j : 0 ≤ j → j ≠ i → ref_slot m2 j = ref_slot m j;
  wr_live sl : mlive m sl → m_deref m2 sl = m_deref m sl;
  wr_insert : mfile_inv (with_index (<[r := i]> (refIndex m2)) m2);
}.

(** [WriteBlock] of a full block: it fails when no slot is blank; otherwise it
    has filled the slot before it looks whether the block is stored already. *)
Lemma WriteBlock_run r d m :
  mfile_inv m → nonzero_ref r → Z.of_nat (length d) = blocksize m → closed m = false →
  (WriteBlock r d m = (Err ErrOutOfSpace, m) ∧
   ∀ i, 0 ≤ i < nslots m → ref_slot m i ≠ blankRefBytes) ∨
  ∃ i m2, written m i r d m2 ∧
    WriteBlock r d m =
      match refIndex m !! r with
      | None => (Ok tt, with_index (<[r := i]> (refIndex m2)) m2)
      | Some v => (if decide (m_deref m (MMapped v) = d) then Ok tt else Err ErrExists, m2)
      end.
Proof.
  intros Hi Hr Hd Hc. unfold WriteBlock. rewrite (bind_step get _ m m m), Hc by done.
  destruct (findEmpty_spec m Hi) as [[Hf Hall]|(i & Hf & Hs & Hb)]; rewrite (bind_step _ _ _ _ _ Hf).
  { rewrite decide_True by done. by left. }
  right. rewrite decide_False by lia. pose proof (with_lastFree_inv m i Hi Hs) as Hi0.
  destruct (write_both (with_lastFree i m) i r d Hi0 Hs Hb (proj1 Hr) Hd)
    as (m1 & m2 & Hw1 & Hw2 & Hi2 & S2 & Hd2 & Hr2 & Hr2' & Ho & Hix).
  assert (same_index m m2) as S by (eapply same_index_trans; [apply same_index_lastFree|exact S2]).
  exists i, m2. split; [split; try done; by apply Hix, Hr|].
  rewrite (bind_step _ _ _ _ _ Hw1), (bind_step _ _ _ _ _ Hw2), (bind_step get _ m2 m2 m2) by done.
  cbv zeta. pose proof (si_index _ _ S) as HI.
  destruct (refIndex m !! r) as [v|] eqn:Ev; cycle 1.
  { by rewrite (findIndex_None m2 r), decide_False by (try rewrite HI; auto). }
  pose proof (fi_index _ Hi _ _ Ev) as (Hv & _).
  assert (m_deref m2 (MMapped v) = m_deref m (MMapped v)) as Hold by (apply (Ho (MMapped v)); by exists r).
  assert (0 ≤ v < nslots m2) as Hv2 by (by rewrite (si_slots _ _ S)).
  rewrite (findIndex_Some m2 r v), decide_True by (try rewrite HI; auto; lia).
  rewrite (slot_u64 m v Hi Hv). unfold lift at 1.
  rewrite (bind_step _ _ _ _ _ (f_equal (λ x, (x, m2)) (mf_GetBlock _ _ _ _ (fi_data _ Hi2) Hv2))).
  change (default [] (Some _)) with (m_deref m2 (MMapped v)). rewrite Hold.
  case_decide as Hne; [|by rewrite decide_True].
  pose proof (length_mapped m v Hi Hv) as Hlen. pose proof (fi_big _ Hi) as Hbig.
  destruct (log_slice (m_deref m (MMapped v))) as [x Hx]; [lia|].
  destruct (log_slice d) as [y Hy]; [lia|].
  rewrite decide_False by done. unfold lift, mbind, M_bind. by rewrite Hx, Hy.
Qed.

(** [WriteBuf] gives out the slot as it is; a block that is stored already has
    used up the slot before it is noticed. *)
Lemma WriteBuf_run r m :
  mfile_inv m → nonzero_ref r → closed m = false →
  WriteBuf r m = (Err ErrOutOfSpace, m) ∨
  ∃ i m2, written m i r (m_deref m (MMapped i)) m2 ∧
    WriteBuf r m =
      match refIndex m !! r with
      | None => (Ok (MMapped i), with_index (<[r := i]> (refIndex m2)) m2)
      | Some _ => (Err ErrExists, m2)
      end.
Proof.
  intros Hi Hr Hc. unfold WriteBuf. rewrite (bind_step get _ m m m), Hc by done.
  destruct (findEmpty_spec m Hi) as [[Hf Hall]|(i & Hf & Hs & Hb)]; rewrite (bind_step _ _ _ _ _ Hf).
  { rewrite decide_True by done. by left. }
  right. rewrite decide_False by lia. pose proof (with_lastFree_inv m i Hi Hs) as Hi0.
  destruct (write_ref_blank (with_lastFree i m) i r Hi0 Hs Hb (proj1 Hr)) as (m2 & Hw2 & Hi2 & S2 & Hr2 & Hr2' & Hde & Hix).
  assert (same_index m m2) as S by (eapply same_index_trans; [apply same_index_lastFree|exact S2]).
  exists i, m2. split; [split; try done; by apply Hix, Hr|].
  rewrite (slot_u64 m i Hi Hs). unfold lift.
  rewrite (bind_step _ _ _ _ _ (f_equal (λ x, (x, with_lastFree i m)) (mf_GetBlock _ _ _ _ (fi_data _ Hi) Hs))).
  rewrite (bind_step _ _ _ _ _ Hw2), (bind_step get _ m2 m2 m2) by done. pose proof (si_index _ _ S) as HI.
  destruct (refIndex m !! r) as [v|] eqn:Ev; cycle 1.
  { by rewrite (findIndex_None m2 r), decide_False by (try rewrite HI; auto). }
  pose proof (fi_index _ Hi _ _ Ev) as (Hv & _).
  by rewrite (findIndex_Some m2 r v), decide_True by (try rewrite HI; auto; lia).
Qed.

Lemma WriteBuf_closed r m : closed m = true → WriteBuf r m = (Err ErrClosed, m).
Proof. intros Hc. unfold WriteBuf. rewrite (bind_step get _ m m m), Hc by done. done. Qed.

Lemma WriteBlock_closed r d m : closed m = true → WriteBlock r d m = (Err ErrClosed, m).
Proof. intros Hc. unfold WriteBlock. rewrite (bind_step get _ m m m), Hc by done. done. Qed.

(** The outcomes of [WriteBlock] on a full block. *)
Lemma WriteBlock_spec r d m :
  mfile_inv m → nonzero_ref r → Z.of_nat (length d) = blocksize m →
  match WriteBlock r d m with
  | (Ok _, m') =>
      mfile_inv m' ∧ closed m' = closed m ∧ blocksize m' = blocksize m ∧
      mheap m' = mheap m ∧
      (∃ i, refIndex m' = <[r := i]> (refIndex m) ∧ m_deref m' (MMapped i) = d ∧
            (refIndex m !! r = Some i ∨
             refIndex m !! r = None ∧ ∀ r', refIndex m !! r' ≠ Some i)) ∧
      (∀ sl, mlive m sl → m_deref m' sl = m_deref m sl)
  | (Err _, m') =>
      mfile_inv m' ∧ same_index m m' ∧ (∀ sl, mlive m sl → m_deref m' sl = m_deref m sl)
  | (Panic, _) => False
  end.
Proof.
  intros Hi Hr Hd. destruct (closed m) eqn:Hc; [by rewrite WriteBlock_closed|].
  destruct (WriteBlock_run r d m Hi Hr Hd Hc) as [[-> _]|(i & m2 & [] & ->)]; [done|].
  pose proof wr_same0 as []. destruct (refIndex m !! r) as [v|] eqn:Ev.
  - case_decide as He; [|done]. split_and!; try done; [congruence|].
    exists v. split_and!; [|rewrite wr_live0; [done|by exists r]|by left].
    rewrite si_index0, insert_id; done.
  - split_and!; try done; [simpl; congruence|]. exists i.
    split_and!; [simpl; by rewrite si_index0|done|right]. split; [done|].
    intros r'. by apply blank_unused.
Qed.

(** ** Slices: allocation and in-place copy *)

Lemma m_make_spec m d sl m' :
  mfile_inv m → m_make d m = (sl, m') →
  mfile_inv m' ∧ m_deref m' sl = d ∧ mlive m' sl ∧ ¬ mlive m sl ∧
  (∀ sl', mlive m sl' → mlive m' sl' ∧ m_deref m' sl' = m_deref m sl').
Proof.
  intros Hi Hm. unfold m_make in Hm. simplify_eq. pose proof (fi_heap _ Hi (mnext m)) as Hf.
  split_and!.
  - destruct Hi. split; try done. intros l. simpl.
    destruct (decide (l = mnext m)) as [->|]; simplify_map_eq; [lia|]. intros ?%fi_heap0. lia.
  - simpl. by rewrite lookup_insert_eq.
  - simpl. by rewrite lookup_insert_eq.
  - simpl. intros ?%Hf. lia.
  - intros [l|n] Hl; [|done]. simpl in *.
    rewrite lookup_insert_ne; [done|]. intros <-. apply Hf in Hl. lia.
Qed.

Lemma m_copy_mapped m i off d :
  mfile_inv m → 0 ≤ i < nslots m →
  let m' := m_copy (MMapped i) off d m in
  mfile_inv m' ∧ same_index m m' ∧ m_deref m' (MMapped i) = blit off d (m_deref m (MMapped i)) ∧
  ∀ j, 0 ≤ j → j ≠ i → m_deref m' (MMapped j) = m_deref m (MMapped j).
Proof.
  intros Hi Hs m'. pose proof (fi_data _ Hi) as Hd.
  pose proof (length_mapped m i Hi Hs) as Hl.
  assert (Z.of_nat (length (blit off d (m_deref m (MMapped i)))) = blocksize m) as Hlb
    by (by rewrite length_blit).
  assert (mf_ok (dataFile m') (blocksize m) (nslots m)) as Hok.
  { destruct Hd. split; simpl; try done. by rewrite length_blit. }
  assert (nslots m' = nslots m) as Hn by (by eapply mf_NumBlocks).
  split_and!; try done.
  - destruct Hi. split; rewrite ?Hn; try done.
  - simpl. eapply mf_block_eq; done.
  - intros j ??. simpl. eapply mf_block_ne; done.
Qed.

Lemma m_copy_spec m sl off d :
  mfile_inv m → mlive m sl →
  let m' := m_copy sl off d m in
  mfile_inv m' ∧ refIndex m' = refIndex m ∧ closed m' = closed m ∧ blocksize m' = blocksize m ∧
  m_deref m' sl = blit off d (m_deref m sl) ∧
  (∀ sl', mlive m sl' → mlive m' sl' ∧ (sl' ≠ sl → m_deref m' sl' = m_deref m sl')).
Proof.
  intros Hi Hl m'. destruct sl as [l|i].
  - assert (∀ l', is_Some (mheap m' !! l') ↔ is_Some (mheap m !! l')) as Hsome.
    { intros l'. simpl. destruct (decide (l = l')) as [<-|]; simplify_map_eq; naive_solver. }
    split_and!; try done.
    + destruct Hi. split; try done. intros l'. rewrite Hsome. apply fi_heap0.
    + simpl. by rewrite lookup_insert_eq.
    + intros [l'|n] Hl'; [|done]. split; [by apply Hsome|]. intros ?. simpl.
      rewrite lookup_insert_ne by congruence. done.
  - destruct Hl as [r Hr]. pose proof (fi_index _ Hi _ _ Hr) as (Hs & _).
    destruct (m_copy_mapped m i off d Hi Hs) as (? & S & ? & Ho). split_and!; try done.
    intros [l'|n] Hl'; [done|]. split; [done|]. intros ?. destruct Hl' as [r' Hr'].
    apply Ho; [apply (fi_index _ Hi _ _ Hr')|congruence].
Qed.

(** ** DeleteBlock *)

Lemma DeleteBlock_spec r m :
  mfile_inv m →
  match DeleteBlock r m with
  | (Ok _, m') =>
      mfile_inv m' ∧ closed m = false ∧ closed m' = false ∧ blocksize m' = blocksize m ∧
      is_Some (refIndex m !! r) ∧ refIndex m' = delete r (refIndex m) ∧
      dataFile m' = dataFile m ∧ mheap m' = mheap m ∧
      (∀ i, refIndex m !! r = Some i → ref_slot m' i = blankRefBytes) ∧
      (∀ j, 0 ≤ j → refIndex m !! r ≠ Some j → ref_slot m' j = ref_slot m j)
  | (Err e, m') => m' = m ∧ (closed m = true ∧ e = ErrClosed ∨
                             refIndex m !! r = None ∧ e = ErrBlockNotExist)
  | (Panic, _) => False
  end.
Proof.
  intros Hi. unfold DeleteBlock. rewrite (bind_step get _ m m m) by done.
  destruct (closed m) eqn:Hc; [split; [done|by left]|]. cbv zeta.
  destruct (refIndex m !! r) as [i|] eqn:E; cycle 1.
  { rewrite (findIndex_None _ _ E), decide_True by done. split; [done|by right]. }
  pose proof (fi_index _ Hi _ _ E) as (Hs & _ & _).
  rewrite (findIndex_Some _ _ _ E), decide_False by lia.
  destruct (write_ref_spec m i blankRefBytes Hi Hs) as (m' & Hw & S & Hdf & Hlf & Hok & Hsl & Ho);
    [by len|].
  rewrite (bind_step _ _ _ _ _ Hw). unfold modify. pose proof S as []. split_and!; try done.
  - apply (inv_reindex m); try done. intros r' j [Hne Hj]%lookup_delete_Some.
    rewrite si_index0 in Hj. pose proof (fi_index _ Hi _ _ Hj) as (?&?&?).
    rewrite Ho; [done|lia|]. intros ->. apply Hne. by eapply index_inj.
  - simpl. congruence.
  - simpl. by rewrite si_index0.
  - intros ? [= <-]. exact Hsl.
  - intros j Hj Hne. apply Ho; congruence.
Qed.

(** ** The laws of the interface *)

Lemma mbacking_Some m r sl :
  mbacking m r = Some sl ↔ ∃ i, sl = MMapped i ∧ refIndex m !! r = Some i.
Proof. unfold mbacking. destruct (refIndex m !! r); naive_solver. Qed.

Lemma GetBlock_spec r m :
  mfile_inv m →
  GetBlock r m =
    (if closed m then Err ErrClosed
     else match refIndex m !! r with Some i => Ok (MMapped i) | None => Err ErrBlockNotExist end, m).
Proof.
  intros Hi. unfold GetBlock. destruct (closed m); [done|]. cbv zeta.
  destruct (refIndex m !! r) as [i|] eqn:E; cycle 1.
  { by rewrite (findIndex_None _ _ E), decide_True. }
  pose proof (fi_index _ Hi _ _ E) as (Hs & _).
  rewrite (findIndex_Some _ _ _ E), decide_False, (slot_u64 m i Hi Hs) by lia.
  by rewrite (mf_GetBlock _ _ _ _ (fi_data _ Hi) Hs).
Qed.

#[export] Program Instance mfile_BlockStoreLaws : BlockStoreLaws mfileBlock := {|
  Store.inv := mfile_inv;
  Store.is_open := λ m, closed m = false;
  Store.valid := nonzero_ref;
  Store.fits := λ m d, Z.of_nat (length d) = blocksize m;
  Store.live := mlive;
  Store.backing := mbacking;
|}.
Next Obligation. intros m r sl Hi (i & -> & E)%mbacking_Some. by exists r. Qed.
Next Obligation.
  intros m r r' sl Hi (i & -> & E)%mbacking_Some (j & [= <-] & E')%mbacking_Some.
  by eapply index_inj.
Qed.
Next Obligation. intros m Hi. apply (mo_pos _ _ _ (fi_data _ Hi)). Qed.
Next Obligation. done. Qed.
Next Obligation.
  intros m d sl m' Hi Hm. pose proof (m_make_spec _ _ _ _ Hi Hm) as (?&?&?&?&?).
  injection Hm as <- <-. split_and!; done.
Qed.
Next Obligation.
  intros m sl off d Hi Hl _ m'. destruct (m_copy_spec m sl off d Hi Hl) as (?&Hx&Hc&?&?&?).
  split_and!; try done; [intros <-; exact Hc|]. intros r. unfold mbacking. by rewrite <-Hx.
Qed.
Next Obligation.
  intros m r sl m' Hi Hg. simpl in Hg. rewrite (GetBlock_spec r m Hi) in Hg.
  destruct (closed m) eqn:?, (refIndex m !! r) as [i|] eqn:E; simplify_eq.
  assert (mbacking m' r = Some (MMapped i)) as Hb by (apply mbacking_Some; eauto).
  rewrite Hb. split_and!; try done; [by exists r|by left].
Qed.
Next Obligation.
  intros m r e m' Hi Hg. simpl in Hg. rewrite (GetBlock_spec r m Hi) in Hg. by simplify_eq.
Qed.
Next Obligation.
  intros m r m' Hi Hg. simpl in Hg. rewrite (GetBlock_spec r m Hi) in Hg. case_all.
Qed.
Next Obligation.
  intros m r sl Hi Ho (i & -> & E)%mbacking_Some. simpl.
  rewrite (GetBlock_spec r m Hi), Ho, E. eauto.
Qed.
Next Obligation.
  intros m r Hi Ho Hb. simpl. rewrite (GetBlock_spec r m Hi), Ho. unfold mbacking in Hb.
  case_all. eauto.
Qed.
Next Obligation.
  intros m r d m' Hi Hr Hd Hw. pose proof (WriteBlock_spec r d m Hi Hr Hd) as Hs.
  simpl in Hw. rewrite Hw in Hs. destruct Hs as (?&Hc&?&Hh&(i & Hix & Hd' & Hold)&Hlv).
  split_and!; try done; simpl.
  - congruence.
  - exists (MMapped i). split_and!; [|done|].
    + apply mbacking_Some. exists i. by rewrite Hix, lookup_insert_eq.
    + destruct Hold as [?|[_ Hn]]; [left; apply mbacking_Some; eauto|right]. by intros [r' ?%Hn].
  - intros r' Hne. unfold mbacking. by rewrite Hix, lookup_insert_ne.
  - intros sl Hl. split; [|by apply Hlv]. destruct sl as [l|j]; simpl in *; [by rewrite Hh|].
    destruct Hl as [r' Hr']. destruct (decide (r' = r)) as [->|Hne].
    + exists r. rewrite Hix, lookup_insert_eq. destruct Hold as [?|[? _]]; congruence.
    + exists r'. by rewrite Hix, lookup_insert_ne.
Qed.
Next Obligation.
  intros m r d e m' Hi Hr Hd Hw. pose proof (WriteBlock_spec r d m Hi Hr Hd) as Hs.
  simpl in Hw. rewrite Hw in Hs. destruct Hs as (?&[]&Hlv). split_and!; try done; simpl.
  - congruence.
  - intros r'. unfold mbacking. by rewrite si_index0.
  - intros sl Hl. split; [|by apply Hlv]. destruct sl as [l|j]; simpl in *; [by rewrite si_heap0|].
    destruct Hl as [r' ?]. exists r'. by rewrite si_index0.
Qed.
Next Obligation.
  intros m r d m' Hi Hr Hd Hw. pose proof (WriteBlock_spec r d m Hi Hr Hd) as Hs.
  simpl in Hw. by rewrite Hw in Hs.
Qed.
Next Obligation.
  intros m r m' Hi Hw. pose proof (DeleteBlock_spec r m Hi) as Hs.
  simpl in Hw. rewrite Hw in Hs. destruct Hs as (?&?&?&Hbs&?&Hix&Hdf&Hh&_).
  split_and!; try done; simpl; unfold mbacking.
  - by rewrite Hix, lookup_delete_eq.
  - intros r' Hne. by rewrite Hix, lookup_delete_ne.
  - intros [l|i] Hl Hne; simpl in *; rewrite ?Hdf, ?Hbs, ?Hh; [done|]. split; [|done]. destruct Hl as [r' Hr']. exists r'.
    rewrite Hix, lookup_delete_ne; [done|]. intros <-. by rewrite Hr' in Hne.
Qed.
Next Obligation.
  intros m r e m' Hi Hw. pose proof (DeleteBlock_spec r m Hi) as Hs.
  simpl in Hw. rewrite Hw in Hs. by destruct Hs.
Qed.
Next Obligation.
  intros m r m' Hi Hw. pose proof (DeleteBlock_spec r m Hi) as Hs.
  simpl in Hw. by rewrite Hw in Hs.
Qed.
Next Obligation.
  intros m r sl Hi Ho (i & -> & E)%mbacking_Some. pose proof (DeleteBlock_spec r m Hi) as Hs. simpl.
  destruct (DeleteBlock r m) as [[[]|e|] m']; [by eexists| |done].
  destruct Hs as [_ [[? _]|[? _]]]; congruence.
Qed.
Next Obligation.
  intros m o m' Hf. simpl in Hf. unfold Flush, flush, MFile_Flush, of_error in Hf. injection Hf as <- <-.
  by destruct (mmap_FlushAsync _), (mmap_FlushAsync _).
Qed.
Next Obligation.
  intros m r Hi. simpl. unfold HasBlock, mbacking. destruct (refIndex m !! r) as [i|] eqn:E.
  - pose proof (fi_index _ Hi _ _ E) as (Hs & _). rewrite (findIndex_Some _ _ _ E), bool_decide_false by lia. done.
  - by rewrite (findIndex_None _ _ E), bool_decide_true.
Qed.

#[export] Program Instance mfile_IteratorLaws : IteratorLaws mfileBlock := {|
  Store.iter_ok := λ it : mfileIterator, mi_done it = false → -1 ≤ mi_i it < Z.of_nat (length (mi_set it));
  Store.iter_left := λ it : mfileIterator, if mi_done it then [] else drop (Z.to_nat (mi_i it + 1)) (mi_set it);
|}.
Next Obligation. intros m _. cbn. lia. Qed.
Next Obligation.
  intros m r sl (i & _ & E)%mbacking_Some. cbn. apply list_elem_of_fmap. exists (r, i). split; [done|by apply elem_of_map_to_list].
Qed.
Next Obligation.
  intros m [l j []] Hj Hl; cbn in *; [by eexists|]. specialize (Hj eq_refl). eexists. unfold Next; cbn.
  pose proof (length_drop l (Z.to_nat (j + 1))) as Hd. rewrite Hl in Hd. cbn in Hd. by rewrite decide_True by lia.
Qed.
Next Obligation.
  intros m [l j []] r l' Hj Hl; cbn in *; [done|]. specialize (Hj eq_refl). destruct (gindex_drop _ _ _ _ Hl) as [Hg Hd].
  pose proof (proj2 (proj1 (gindex_Some _ _ _) Hg)) as Hlt%lookup_lt_Some. rewrite Z2Nat.id in Hg by lia.
  eexists. unfold Next, iter_BlockRef; cbn. rewrite decide_False by lia. split_and!; [done|cbn; lia| |].
  - cbn. rewrite <-Hd. f_equal. lia.
  - cbn. by rewrite Hg.
Qed.

(** ** Reloading the index from the reference file *)

Definition file_slot (f : MFileT) (i : Z) : bytes :=
  block_at BlockRefByteSize (Z.to_nat i) (mmap f).

(** What a reference index says of the slots below [k]. *)
Record indexes (f : MFileT) (k : Z) (ix : gmap BlockRef Z) : Prop := {
  ix_sound r i : ix !! r = Some i →
    0 ≤ i < k ∧ nonzero_ref r ∧ file_slot f i = BlockRef_ToBytes r;
  ix_complete i : 0 ≤ i < k → file_slot f i ≠ blankRefBytes →
    ∃ r, file_slot f i = BlockRef_ToBytes r ∧ is_Some (ix !! r);
}.

Lemma ZeroBlock_bytes : BlockRef_ToBytes ZeroBlock = blankRefBytes.
Proof. vm_compute. reflexivity. Qed.

Lemma indexes_skip f k ix :
  indexes f k ix → file_slot f k = blankRefBytes → indexes f (k + 1) ix.
Proof.
  intros [Hs Hc] Hb. split.
  - intros r i E. destruct (Hs r i E) as (?&?&?). split_and!; try done; lia.
  - intros i Hi Hn. apply Hc; [|done]. destruct (decide (i = k)); [congruence|lia].
Qed.

Lemma indexes_add f k ix r :
  0 ≤ k → indexes f k ix → file_slot f k ≠ blankRefBytes → wf_blockref r →
  file_slot f k = BlockRef_ToBytes r → indexes f (k + 1) (<[r := k]> ix).
Proof.
  intros Hk [Hs Hc] Hb Hwf Hr. split.
  - intros r' i [[<- <-]|[_ E]]%lookup_insert_Some.
    + split_and!; try done; try lia. split; [done|]. intros ->. by rewrite ZeroBlock_bytes in Hr.
    + destruct (Hs r' i E) as (?&?&?). split_and!; try done; lia.
  - intros i Hi Hn. destruct (decide (i = k)) as [->|].
    + exists r. split; [done|]. by rewrite lookup_insert_eq.
    + destruct (Hc i) as (r' & ? & ?); [lia|done|]. exists r'. split; [done|].
      destruct (decide (r' = r)) as [->|]; simplify_map_eq; done.
Qed.

Lemma loadIndex_loop_spec k f n i out :
  mf_ok f refsz n → 0 ≤ i → i + Z.of_nat k = n → indexes f i out →
  ∃ ix, loadIndex_loop k i f out = Ok ix ∧ indexes f n ix.
Proof.
  intros Hf. revert i out. induction k as [|k IH]; intros i out Hi Hk Hix; simpl.
  { exists out. split; [done|]. by replace n with i by lia. }
  rewrite (mf_GetBlock _ _ _ _ Hf) by lia. cbn [mbind res_mbind res_bind].
  unfold is_blank. rewrite Nat2Z.id. change (default [] (Some _)) with (file_slot f i).
  case_bool_decide as Hb; [apply IH; [lia|lia|by apply indexes_skip]|].
  destruct (BlockRefFromBytes_total (file_slot f i)) as (r & -> & Hwf & Hr).
  { apply length_block_at. pose proof (mf_slot_nat _ _ _ i Hf) as [Hl _]; [lia|].
    by rewrite Nat2Z.id in Hl. }
  cbn [mbind res_mbind res_bind]. apply IH; [lia|lia|]. by apply indexes_add.
Qed.

Lemma loadIndex_spec f n : mf_ok f refsz n → ∃ ix, loadIndex f = Ok ix ∧ indexes f n ix.
Proof.
  intros Hf. unfold loadIndex. rewrite (mf_NumBlocks _ _ _ Hf). pose proof (mo_n _ _ _ Hf).
  eapply (loadIndex_loop_spec _ f n 0 ∅ Hf); [lia|lia|].
  split; [intros r i; by rewrite lookup_empty|lia].
Qed.

(** Every slot in use belongs to the reference it names. *)
Definition tight (m : mfileBlock) : Prop :=
  ∀ i, 0 ≤ i < nslots m → ref_slot m i ≠ blankRefBytes → ∃ r, refIndex m !! r = Some i.

Lemma tight_index_unique m ix :
  mfile_inv m → tight m → indexes (refFile m) (nslots m) ix → ix = refIndex m.
Proof.
  intros Hi Ht [Hs Hc]. apply map_eq. intros r.
  assert (∀ i, ix !! r = Some i → refIndex m !! r = Some i) as H1.
  { intros i E. destruct (Hs r i E) as (Hr & Hn & Hb). destruct (Ht i Hr) as [r' E'].
    { change (ref_slot m i) with (file_slot (refFile m) i). rewrite Hb. by apply nonzero_ref_bytes. }
    pose proof (fi_index _ Hi _ _ E') as (_ & [Hw' _] & Hb'). destruct Hn as [Hw _].
    replace r with r'; [done|]. apply BlockRef_ToBytes_inj; [done|done|].
    rewrite <-Hb', <-Hb. done. }
  destruct (ix !! r) as [i|] eqn:E; [by rewrite (H1 i)|].
  destruct (refIndex m !! r) as [i|] eqn:E'; [|done].
  pose proof (fi_index _ Hi _ _ E') as (Hr & Hn & Hb). destruct (Hc i Hr) as (r' & Hb' & [j Hj]).
  { change (file_slot (refFile m) i) with (ref_slot m i). rewrite Hb. by apply nonzero_ref_bytes. }
  destruct (Hs r' j Hj) as (_ & [Hw' _] & _). destruct Hn as [Hw _].
  replace r' with r in Hj; [congruence|]. apply BlockRef_ToBytes_inj; [done|done|].
  rewrite <-Hb, <-Hb'. done.
Qed.

(** ** Opening and reopening *)

Lemma open_existing file n bs :
  mmap_Map file = Ok file → 0 < bs → 0 ≤ n → Z.of_nat (length file) = n * bs → n * bs < 2 ^ 63 →
  ∃ f, CreateOrOpenMFile (Some file) (n * bs) bs = Ok f ∧ mmap f = file ∧ mf_ok f bs n.
Proof.
  intros Hm Hb Hn Hl Hx. unfold CreateOrOpenMFile, OpenMFile. cbv zeta. rewrite Hl.
  rewrite decide_True, decide_False by lia. rewrite decide_False by (rewrite Z.mod_mul; lia).
  rewrite Hm. eexists. split; [done|]. split; [done|]. by split.
Qed.

(** What is in the files of a store, opened again with the same sizes. *)
Definition reopen (m : mfileBlock) : res mfileBlock :=
  newMFileBlockStore (mname m) (fsize (dataFile m)) (blocksize m)
    (Some (mmap (dataFile m))) (Some (mmap (refFile m))).

Lemma reopen_spec m :
  (∀ file, mmap_Map file = Ok file) → mfile_inv m →
  ∃ m', reopen m = Ok m' ∧ mfile_inv m' ∧ closed m' = false ∧ blocksize m' = blocksize m ∧
    nslots m' = nslots m ∧ mmap (dataFile m') = mmap (dataFile m) ∧
    mmap (refFile m') = mmap (refFile m) ∧
    indexes (refFile m) (nslots m) (refIndex m').
Proof.
  intros Hmap Hi. unfold reopen, newMFileBlockStore.
  pose proof (fi_data _ Hi) as Hd. pose proof (fi_refs _ Hi) as Hr.
  pose proof (mo_pos _ _ _ Hd) as Hbs. pose proof (mo_n _ _ _ Hd) as Hn0.
  rewrite decide_False by lia. cbv zeta. rewrite (mo_size _ _ _ Hd).
  rewrite Z.mod_mul, (decide_False (P := (0 ≠ 0))), Z.div_mul by (auto; lia).
  pose proof (mo_max _ _ _ Hr) as Hmx.
  rewrite (wrap_id 64 (nslots m * _)) by (unfold in_width; lia).
  destruct (open_existing (mmap (dataFile m)) (nslots m) (blocksize m)) as (d & -> & Hdm & Hdo);
    [done|done|done|apply Hd|apply Hd|].
  destruct (open_existing (mmap (refFile m)) (nslots m) refsz) as (f & -> & Hfm & Hfo);
    [done|apply Hr|done|apply Hr|apply Hr|].
  cbn [mbind res_mbind res_bind].
  destruct (loadIndex_spec _ _ Hfo) as (ix & -> & Hix). cbn [mbind res_mbind res_bind].
  rewrite (mf_NumBlocks _ _ _ Hdo), (mf_NumBlocks _ _ _ Hfo), decide_False by auto.
  assert (indexes (refFile m) (nslots m) ix) as Hix'.
  { destruct Hix. split; unfold file_slot in *; rewrite Hfm in *; done. }
  assert (∀ ix' nm h nx, nslots (mkMfile d f ix' false 0 nm (blocksize m) h nx) = nslots m) as Hns.
  { intros. by apply (mf_NumBlocks _ _ _ Hdo). }
  eexists. split; [done|]. split_and!; try done.
  split; try done; rewrite ?Hns; try done.
  - apply (fi_big _ Hi).
  - intros r i E. destruct (ix_sound _ _ _ Hix r i E) as (?&?&?). done.
  - intros l. simpl. rewrite lookup_empty. by intros [].
Qed.

(** A file made by [CreateMFile] is all zeros. *)
Lemma open_created n bs :
  (∀ file, mmap_Map file = Ok file) → 0 < bs → 0 ≤ n → n * bs < 2 ^ 63 →
  ∃ f, CreateOrOpenMFile None (n * bs) bs = Ok f ∧ mmap f = zeros (Z.to_nat (n * bs)) ∧ mf_ok f bs n.
Proof.
  intros Hm Hb Hn Hx. unfold CreateOrOpenMFile, OpenMFile, CreateMFile. cbv zeta.
  rewrite length_zeros, Z2Nat.id by lia.
  rewrite decide_False by lia. rewrite decide_False by (rewrite Z.mod_mul; lia).
  rewrite Hm. eexists. split; [done|]. split; [done|]. split; try done. simpl. len.
Qed.

Lemma block_at_zeros bs i n : ((i + 1) * bs ≤ n)%nat → block_at bs i (zeros n) = zeros bs.
Proof.
  intros Hl. unfold block_at. rewrite drop_zeros, take_zeros. f_equal. lia.
Qed.

Lemma new_store nm bs n :
  (∀ file, mmap_Map file = Ok file) → 10 ≤ bs → 0 ≤ n → n * bs < 2 ^ 63 → n * refsz < 2 ^ 63 →
  ∃ m, newMFileBlockStore nm (n * bs) bs None None = Ok m ∧ mfile_inv m ∧ tight m ∧
    closed m = false ∧ refIndex m = ∅ ∧ nslots m = n ∧ blocksize m = bs.
Proof.
  intros Hmap Hb Hn Hx Hx'. unfold newMFileBlockStore. rewrite decide_False by lia. cbv zeta.
  rewrite Z.mod_mul, (decide_False (P := (0 ≠ 0))), Z.div_mul by (auto; lia).
  rewrite (wrap_id 64 (n * _)) by (unfold in_width; lia).
  destruct (open_created n bs) as (d & -> & Hdm & Hdo); [done|lia|done|done|].
  destruct (open_created n refsz) as (f & -> & Hfm & Hfo); [done|done|done|done|].
  cbn [mbind res_mbind res_bind].
  assert (∀ i, 0 ≤ i < n → file_slot f i = blankRefBytes) as Hbl.
  { intros i Hi. unfold file_slot. rewrite Hfm. apply block_at_zeros.
    unfold BlockRefByteSize in *. simpl in *. lia. }
  destruct (loadIndex_spec _ _ Hfo) as (ix & -> & Hix). cbn [mbind res_mbind res_bind].
  assert (ix = ∅) as ->.
  { apply map_empty. intros r. destruct (ix !! r) as [i|] eqn:E; [|done].
    destruct (ix_sound _ _ _ Hix _ _ E) as (Hi & Hz & Hs). rewrite Hbl in Hs by done.
    by destruct (nonzero_ref_bytes r Hz). }
  rewrite (mf_NumBlocks _ _ _ Hdo), (mf_NumBlocks _ _ _ Hfo), decide_False by auto.
  eexists. split; [done|].
  assert (nslots (mkMfile d f ∅ false 0 nm bs ∅ 1%positive) = n) as Hns by (by eapply mf_NumBlocks).
  split_and!; try done.
  - split; rewrite ?Hns; try done; simpl.
    intros l. rewrite lookup_empty. by intros [].
  - intros i Hi []. apply Hbl. by rewrite Hns in Hi.
Qed.

(** ** Refinement of a finite map

    As long as no reference is written while it is stored, the store behaves
    as a finite map of a fixed capacity. *)

Definition spec_op (cap : Z) (o : op) (m : gmap BlockRef bytes) : res out * gmap BlockRef bytes :=
  match o with
  | OpGet r => (match m !! r with Some d => Ok (OBytes d) | None => Err ErrBlockNotExist end, m)
  | OpHas r => (Ok (OBool (bool_decide (is_Some (m !! r)))), m)
  | OpWrite r d =>
      if decide (cap ≤ Z.of_nat (size m)) then (Err ErrOutOfSpace, m)
      else (Ok OUnit, <[r := d]> m)
  | OpDelete r =>
      match m !! r with
      | Some _ => (Ok OUnit, delete r m)
      | None => (Err ErrBlockNotExist, m)
      end
  | OpUsed => (Ok (ONum (Z.of_nat (size m))), m)
  | OpClose => (Ok OUnit, m)
  end.

(** The operations covered: full blocks under new references, no close. *)
Definition allowed (bs : Z) (o : op) (m : gmap BlockRef bytes) : Prop :=
  match o with
  | OpWrite r d => nonzero_ref r ∧ Z.of_nat (length d) = bs ∧ m !! r = None
  | OpClose => False
  | _ => True
  end.

Fixpoint all_allowed (cap bs : Z) (ops : list op) (m : gmap BlockRef bytes) : Prop :=
  match ops with
  | [] => True
  | o :: ops' => allowed bs o m ∧ all_allowed cap bs ops' (spec_op cap o m).2
  end.

Definition abs (m : mfileBlock) : gmap BlockRef bytes := (λ i, m_deref m (MMapped i)) <$> refIndex m.

Record mfile_good (m : mfileBlock) : Prop := {
  mg_inv : mfile_inv m;
  mg_tight : tight m;
  mg_open : closed m = false;
}.

(** The index is full exactly when no slot is blank. *)
Lemma index_values m :
  mfile_inv m → NoDup (map_to_list (refIndex m)).*2 ∧
  ∀ i, i ∈ (map_to_list (refIndex m)).*2 ↔ ∃ r, refIndex m !! r = Some i.
Proof.
  intros Hi. split.
  - apply NoDup_fmap_2_strong; [|apply NoDup_map_to_list].
    intros [r i] [r' i'] E%elem_of_map_to_list E'%elem_of_map_to_list Heq. simpl in *. subst.
    f_equal. by eapply index_inj.
  - intros i. rewrite list_elem_of_fmap. split.
    + intros ([r j] & -> & E%elem_of_map_to_list). by exists r.
    + intros [r E]. exists (r, i). split; [done|]. by apply elem_of_map_to_list.
Qed.

Lemma room_iff_blank m :
  mfile_inv m → tight m →
  (nslots m ≤ Z.of_nat (size (refIndex m)) ↔ ∀ i, 0 ≤ i < nslots m → ref_slot m i ≠ blankRefBytes).
Proof.
  intros Hi Ht. destruct (index_values m Hi) as [Hnd Hin].
  pose proof (mo_n _ _ _ (fi_refs _ Hi)) as Hn.
  set (vs := (map_to_list (refIndex m)).*2) in *.
  assert (length vs = size (refIndex m)) as Hl by (unfold vs; rewrite length_fmap; apply length_map_to_list).
  set (all := seqZ 0 (nslots m)).
  assert (vs ⊆+ all) as Hsub.
  { apply NoDup_submseteq; [done|]. intros i [r E]%Hin. apply elem_of_seqZ.
    pose proof (fi_index _ Hi _ _ E) as (? & _). lia. }
  assert (length all = Z.to_nat (nslots m)) as Hla by apply length_seqZ.
  split.
  - intros Hge i Hr Hb. assert (i ∈ vs) as [r E]%Hin; [|by apply (blank_unused m i r)].
    rewrite (submseteq_length_Permutation _ _ Hsub) by lia. apply elem_of_seqZ. lia.
  - intros Hall. assert (all ⊆+ vs) as Hs%submseteq_length; [|lia].
    apply NoDup_submseteq; [apply NoDup_seqZ|]. intros i Hr%elem_of_seqZ. apply Hin, Ht; [lia|].
    apply Hall. lia.
Qed.

Lemma abs_lookup m r : abs m !! r = (λ i, m_deref m (MMapped i)) <$> (refIndex m !! r).
Proof. apply lookup_fmap. Qed.

Lemma abs_size m : size (abs m) = size (refIndex m).
Proof. apply map_size_fmap. Qed.

(** One write of a new reference. *)
Lemma write_refines r d m :
  mfile_good m → nonzero_ref r → Z.of_nat (length d) = blocksize m → abs m !! r = None →
  let '(x, m') := WriteBlock r d m in
  mfile_good m' ∧ nslots m' = nslots m ∧ blocksize m' = blocksize m ∧
  (if decide (nslots m ≤ Z.of_nat (size (abs m))) then (Err ErrOutOfSpace, abs m)
   else (Ok tt, <[r := d]> (abs m))) = (x, abs m').
Proof.
  intros [Hi Ht Ho] Hr Hd Hn. rewrite abs_size. rewrite abs_lookup, fmap_None in Hn.
  destruct (WriteBlock_run r d m Hi Hr Hd Ho) as [[-> Hall]|(i & m2 & [] & ->)].
  { rewrite decide_True by (by apply room_iff_blank). done. }
  rewrite Hn. rewrite decide_False.
  2: { rewrite room_iff_blank by done. intros Hall. by apply (Hall i). }
  pose proof wr_same0 as []. split_and!; try done.
  - split; [done| |simpl; congruence]. intros j Hj Hb. simpl in *.
    change (ref_slot m2 j ≠ blankRefBytes) in Hb. change (0 ≤ j < nslots m2) in Hj.
    destruct (decide (j = i)) as [->|Hne]; [exists r; apply lookup_insert_eq|].
    rewrite wr_other0 in Hb by lia. destruct (Ht j) as [r' E]; [lia|done|].
    exists r'. rewrite si_index0, lookup_insert_ne; [done|congruence].
  - f_equal. unfold abs. simpl. rewrite si_index0, fmap_insert. f_equal; [done|].
    apply map_fmap_ext. intros r' j E. symmetry. apply (wr_live0 (MMapped j)). by exists r'.
Qed.

Lemma delete_refines r m :
  mfile_good m →
  let '(x, m') := DeleteBlock r m in
  mfile_good m' ∧ nslots m' = nslots m ∧ blocksize m' = blocksize m ∧
  match abs m !! r with
  | Some _ => (Ok tt, delete r (abs m))
  | None => (Err ErrBlockNotExist, abs m)
  end = (x, abs m').
Proof.
  intros [Hi Ht Ho]. rewrite abs_lookup. pose proof (DeleteBlock_spec r m Hi) as Hs.
  destruct (DeleteBlock r m) as [[[]|e|] m'] eqn:Hdel; [|destruct Hs as [-> [[? _]|[-> ->]]]|done].
  2: { congruence. }
  2: { done. }
  destruct Hs as (? & _ & Hc & Hbs & [i E] & Hix & Hdf & _ & Hsl & Hsl'). rewrite E. simpl.
  assert (nslots m' = nslots m) as Hns by (unfold nslots, numBlocks; by rewrite Hdf).
  split_and!; try done.
  - split; [done| |done]. intros j Hj Hb. destruct (decide (j = i)) as [->|Hne].
    { by destruct Hb; apply Hsl. }
    rewrite Hsl' in Hb by (lia || congruence). destruct (Ht j) as [r' E']; [lia|done|].
    exists r'. rewrite Hix, lookup_delete_ne; [done|congruence].
  - f_equal. unfold abs. rewrite Hix, fmap_delete. f_equal. apply map_fmap_ext. intros r' j _.
    simpl. by rewrite Hdf, Hbs.
Qed.

Lemma mfile_run_op_refines o m :
  mfile_good m → allowed (blocksize m) o (abs m) →
  let '(r, m') := run_op o m in
  mfile_good m' ∧ nslots m' = nslots m ∧ blocksize m' = blocksize m ∧
  spec_op (nslots m) o (abs m) = (r, abs m').
Proof.
  intros Hg Ha. pose proof Hg as [Hi Ht Ho]. destruct o as [r|r|r d|r| |]; simpl in Ha; [..|done];
    cbn [run_op spec_op Store.GetBlock Store.HasBlock Store.WriteBlock Store.DeleteBlock
         Store.UsedBlocks mfile_BlockStore].
  - unfold mbind, M_bind. rewrite (GetBlock_spec r m Hi), Ho, abs_lookup.
    destruct (refIndex m !! r); done.
  - unfold HasBlock, mbind, M_bind, mret, M_ret. split_and!; try done. do 3 f_equal.
    rewrite abs_lookup. destruct (refIndex m !! r) as [i|] eqn:E.
    + pose proof (fi_index _ Hi _ _ E) as (? & _).
      rewrite (findIndex_Some _ _ _ E), (bool_decide_false (i = -1)) by lia.
      by apply bool_decide_true.
    + rewrite (findIndex_None _ _ E). done.
  - destruct Ha as (Hr & Hd & Hn). pose proof (write_refines r d m Hg Hr Hd Hn) as Hw.
    unfold mbind, M_bind. destruct (WriteBlock r d m) as [[[]|e|] m'];
      destruct Hw as (?&?&?&Hw); revert Hw; case_decide; intros Hw; simplify_eq/=; split_and!; congruence.
  - pose proof (delete_refines r m Hg) as Hw. unfold mbind, M_bind.
    destruct (DeleteBlock r m) as [[[]|e|] m']; destruct Hw as (?&?&?&Hw); revert Hw;
      destruct (abs m !! r); intros Hw; simplify_eq/=; split_and!; congruence.
  - unfold gets. split_and!; try done. unfold UsedBlocks. by rewrite abs_size.
Qed.

(** A run of the covered operations, with the state it leaves. *)
Lemma run_refines (ops : list op) (m : mfileBlock) :
  mfile_good m → all_allowed (nslots m) (blocksize m) ops (abs m) →
  let '(outs, m') := run_all run_op ops m in
  mfile_good m' ∧ run_all (spec_op (nslots m)) ops (abs m) = (outs, abs m').
Proof.
  revert m. induction ops as [|o ops IH]; intros m Hg Ha; [done|]. simpl in *.
  destruct Ha as [Ha Hr]. pose proof (mfile_run_op_refines o m Hg Ha) as Ho.
  destruct (run_op o m) as [x m1]. destruct Ho as (Hg1 & Hn & Hb & Hs). rewrite Hs in *. simpl in Hr.
  specialize (IH m1 Hg1 ltac:(by rewrite Hn, Hb)). rewrite Hn in IH. destruct (run_all run_op ops m1) as [outs m2].
  destruct IH as [Hg2 IH]. by rewrite IH.
Qed.

(** C22: the memory-mapped store refines a finite map of fixed capacity.  The store is open
    and well formed ([mfile_good]); covered are reads, membership tests, counts, deletions,
    and writes of exactly one block of bytes under a nonzero reference that is not stored
    at the time; closing is not.  Any sequence of these gives exactly the answers, errors
    included, that the map gives, and leaves the store well formed; a write is refused
    with [ErrOutOfSpace] only when the map has as many blocks as there are slots. *)
Theorem mfile_store_refines_map (ops : list op) (m : mfileBlock) :
  mfile_good m → all_allowed (nslots m) (blocksize m) ops (abs m) →
  (run_all run_op ops m).1 = (run_all (spec_op (nslots m)) ops (abs m)).1 ∧
  mfile_good (run_all run_op ops m).2.
Proof.
  intros Hg Ha. pose proof (run_refines ops m Hg Ha) as Hr. destruct (run_all run_op ops m). destruct Hr as [Hg' ->]. done.
Qed.

(** C24: the blocks of the memory-mapped store survive a restart.  Mapping a file gives its
    bytes; the store is open and well formed; and it has carried out any sequence of the
    covered operations ([all_allowed]: writes are of exactly one block, under nonzero
    references not stored at the time, and there is no [Close]; after a second write of a
    stored reference this fails, see [mfile_duplicate_write_resurrects]).  Then opening its
    two files again succeeds, with a well-formed store, the same index, and exactly the
    blocks the finite map has after these operations. *)
Theorem mfile_reopen_persists (ops : list op) (m : mfileBlock) :
  (∀ file, mmap_Map file = Ok file) → mfile_good m → all_allowed (nslots m) (blocksize m) ops (abs m) →
  let m1 := (run_all run_op ops m).2 in
  ∃ m', reopen m1 = Ok m' ∧ mfile_good m' ∧ refIndex m' = refIndex m1 ∧ abs m' = (run_all (spec_op (nslots m)) ops (abs m)).2.
Proof.
  intros Hmap Hg Ha. pose proof (run_refines ops m Hg Ha) as Hr. destruct (run_all run_op ops m) as [outs m1]. destruct Hr as [[Hi Ht Ho] ->].
  cbn [snd]. destruct (reopen_spec m1 Hmap Hi) as (m' & -> & Hi' & Hc & Hbs & Hns & Hd & Hr & Hix).
  pose proof (tight_index_unique m1 _ Hi Ht Hix) as Heq.
  exists m'. split_and!; try done.
  - split; [done| |done]. intros i Hi1 Hb. rewrite Heq. apply Ht; [lia|].
    unfold ref_slot in *. by rewrite <-Hr.
  - unfold abs. rewrite Heq. apply map_fmap_ext. intros r i _. simpl. by rewrite Hd, Hbs.
Qed.

(** Writing a stored block a second time with the same bytes reports
    success but uses up a slot; deleting the block then also reports success,
    and the block is back after the files are reopened. *)
Theorem mfile_duplicate_write_resurrects (m : mfileBlock) (r : BlockRef) (d : bytes) (i : Z) :
  (∀ file, mmap_Map file = Ok file) → mfile_inv m → closed m = false →
  refIndex m !! r = Some i → m_deref m (MMapped i) = d →
  (∃ j, 0 ≤ j < nslots m ∧ ref_slot m j = blankRefBytes) →
  ∃ m1 m2 m3, WriteBlock r d m = (Ok tt, m1) ∧ DeleteBlock r m1 = (Ok tt, m2) ∧
    refIndex m2 !! r = None ∧ reopen m2 = Ok m3 ∧ is_Some (refIndex m3 !! r).
Proof.
  intros Hmap Hi Ho E Hd (j & Hj & Hb). pose proof (fi_index _ Hi _ _ E) as (Hr & Hz & Hs).
  assert (Z.of_nat (length d) = blocksize m) as Hl by (rewrite <-Hd; by apply length_mapped).
  destruct (WriteBlock_run r d m Hi Hz Hl Ho) as [[_ Hall]|(k & m1 & W & Hw)]; [by destruct (Hall j)|].
  rewrite E, decide_True in Hw by done. destruct W. pose proof wr_same0 as [].
  assert (k ≠ i) as Hki by (intros ->; by apply (blank_unused m i r)).
  pose proof (DeleteBlock_spec r m1 wr_inv0) as Hdel. rewrite si_index0 in Hdel.
  destruct (DeleteBlock r m1) as [[[]|e|] m2] eqn:Hdl; [|destruct Hdel as [_ [[? _]|[? _]]]; congruence|done].
  destruct Hdel as (Hi2 & _ & _ & _ & _ & Hix & Hdf & _ & _ & Hsl).
  destruct (reopen_spec m2 Hmap Hi2) as (m3 & Hre & _ & _ & _ & _ & _ & _ & Hx).
  exists m1, m2, m3. split_and!; [done|done|by rewrite Hix, lookup_delete_eq|done|].
  assert (file_slot (refFile m2) k = BlockRef_ToBytes r) as Hk.
  { change (ref_slot m2 k = BlockRef_ToBytes r). rewrite Hsl; [done|lia|congruence]. }
  destruct (ix_complete _ _ _ Hx k) as (r' & Hr' & [v Hv]).
  { unfold nslots, numBlocks in *. rewrite Hdf. lia. }
  { rewrite Hk. by apply nonzero_ref_bytes. }
  replace r with r'; [by exists v|]. destruct (ix_sound _ _ _ Hx r' v Hv) as (_ & [? _] & _).
  apply BlockRef_ToBytes_inj; [done|apply Hz|]. congruence.
Qed.

End mmap_lib.

(** ** A library whose mapping is the file, for the examples *)

Definition mem_mmap : MMapLib := {|
  mmap_Map := Ok; mmap_FlushAsync := λ _, None; mmap_Flush := λ _, None; mmap_Unmap := λ _, None
|}.

Lemma mem_store :
  ∃ m, newMFileBlockStore (H := mem_mmap) "current" 32 16 None None = Ok m ∧ mfile_good m ∧
       refIndex m = ∅ ∧ nslots m = 2 ∧ blocksize m = 16.
Proof.
  destruct (new_store (H := mem_mmap) "current" 16 2) as (m & Hm & Hi & Ht & Hc & Hx & Hn & Hb);
    try done.
  exists m. split_and!; try done.
Qed.

Lemma sample_nonzero : nonzero_ref sample_ref.
Proof. split; [vm_compute; split_and!; done|done]. Qed.

Definition sample_ops : list op :=
  [OpWrite sample_ref (replicate 16 x01); OpGet sample_ref; OpDelete sample_ref;
   OpGet sample_ref; OpDelete sample_ref; OpUsed].

Lemma mfile_store_refines_map_witness :
  ∃ m, newMFileBlockStore (H := mem_mmap) "current" 32 16 None None = Ok m ∧
  (run_all (run_op (H := mfile_BlockStore (H := mem_mmap))) sample_ops m).1
  = [Ok OUnit; Ok (OBytes (replicate 16 x01)); Ok OUnit; Err ErrBlockNotExist;
     Err ErrBlockNotExist; Ok (ONum 0)].
Proof.
  destruct mem_store as (m & Hm & Hg & Hx & Hn & Hb). exists m. split; [exact Hm|].
  assert (abs m = ∅) as Ha by (unfold abs; rewrite Hx; apply fmap_empty).
  assert (all_allowed (nslots m) (blocksize m) sample_ops (abs m)) as Hall.
  { rewrite Ha, Hn, Hb. simpl. split_and!; try done; apply sample_nonzero. }
  rewrite (proj1 (mfile_store_refines_map (H := mem_mmap) sample_ops m Hg Hall)).
  rewrite Ha, Hn. vm_compute. reflexivity.
Defined.

(** The store of [mem_store] after one write. *)
Lemma mem_store_written :
  ∃ m i, mfile_good m ∧ refIndex m !! sample_ref = Some i ∧
    m_deref m (MMapped i) = replicate 16 x01 ∧
    ∃ j, 0 ≤ j < nslots m ∧ ref_slot m j = blankRefBytes.
Proof.
  destruct mem_store as (m & Hm & Hg & Hx & Hn & Hb).
  pose proof (write_refines sample_ref (replicate 16 x01) m Hg sample_nonzero) as Hw.
  assert (abs m = ∅) as Ha by (unfold abs; rewrite Hx; apply fmap_empty).
  rewrite Hb, Ha, Hn in Hw. specialize (Hw eq_refl eq_refl).
  destruct (WriteBlock sample_ref (replicate 16 x01) m) as [x m'].
  destruct Hw as (Hg' & Hn' & Hb' & Hr). rewrite map_size_empty, decide_False in Hr by lia.
  injection Hr as _ Hr. pose proof (abs_lookup m' sample_ref) as Hl.
  rewrite <-Hr, lookup_insert_eq in Hl. destruct (refIndex m' !! sample_ref) as [i|] eqn:E; [|done].
  injection Hl as Hl. exists m', i. split_and!; [done|done|done|].
  pose proof Hg' as [Hi Ht _]. pose proof (room_iff_blank m' Hi Ht) as Hroom.
  rewrite <-abs_size, <-Hr, Hn', map_size_insert_None, map_size_empty in Hroom by done.
  destruct (decide (ref_slot m' 0 = blankRefBytes)) as [?|H0]; [exists 0; by rewrite Hn'|].
  destruct (decide (ref_slot m' 1 = blankRefBytes)) as [?|H1]; [exists 1; by rewrite Hn'|].
  exfalso. assert (2 ≤ 1); [|done].
  apply Hroom. intros k Hk. assert (k = 0 ∨ k = 1) as [-> | ->] by lia; done.
Qed.

Lemma mfile_reopen_persists_witness :
  ∃ m m', newMFileBlockStore (H := mem_mmap) "current" 32 16 None None = Ok m ∧
    reopen (H := mem_mmap) (run_all (run_op (H := mfile_BlockStore (H := mem_mmap))) [OpWrite sample_ref (replicate 16 x01)] m).2 = Ok m' ∧
    abs m' !! sample_ref = Some (replicate 16 x01).
Proof.
  destruct mem_store as (m & Hm & Hg & Hx & Hn & Hb).
  assert (abs m = ∅) as Ha by (unfold abs; rewrite Hx; apply fmap_empty).
  assert (all_allowed (nslots m) (blocksize m) [OpWrite sample_ref (replicate 16 x01)] (abs m)) as Hall.
  { rewrite Ha, Hn, Hb. simpl. split_and!; try done; apply sample_nonzero. }
  destruct (mfile_reopen_persists (H := mem_mmap) _ m (λ _, eq_refl) Hg Hall) as (m' & Hr & _ & _ & Hs).
  exists m, m'. split; [exact Hm|]. split; [exact Hr|]. rewrite Hs, Ha, Hn. vm_compute. reflexivity.
Defined.

Lemma mfile_duplicate_write_resurrects_witness :
  ∃ m m1 m2 m3, WriteBlock sample_ref (replicate 16 x01) m = (Ok tt, m1) ∧
    DeleteBlock sample_ref m1 = (Ok tt, m2) ∧ reopen (H := mem_mmap) m2 = Ok m3 ∧
    is_Some (refIndex m3 !! sample_ref).
Proof.
  destruct mem_store_written as (m & i & [Hinv _ Ho] & Hi & Hd & Hj).
  destruct (mfile_duplicate_write_resurrects (H := mem_mmap) m sample_ref _ i (λ _, eq_refl)
              Hinv Ho Hi Hd Hj) as (m1 & m2 & m3 & H1 & H2 & _ & H3 & H4).
  exists m, m1, m2, m3. split_and!; done.
Defined.
