(* ===== verification/BlockDevice.v ===== *)
(** * The block store on a block device

    Models [src/storage/block_device.go] and [src/storage/block_device] (headers
    and metadata of the device), and the formatting and checking of a device in
    [src/cmd/mkfs.torus/lib/lib.go] and [src/cmd/fsck.torus/lib/lib.go].

    The device is its bytes.  A read or a write that goes past the end is short
    and fails as it does on a Linux device; the device itself does not fail.  The
    file offset that [Seek] sets is set before every read and write, so the model
    reads and writes at an offset.  [GetBlock] returns a new buffer, kept in
    [dheap]. *)
From S2P Require Import Prelude GoSem Refs Sha256 Store.
From Stdlib Require String.

(** ** Constants *)

Definition bdBlockSize : Z := 4096.
Definition MetadataSize : Z := bdBlockSize.
Definition BlockHeaderSize : nat := 32.
Definition MagicSentence : bytes := Eval vm_compute in String.list_byte_of_string "I am a torus block device!".
Definition MagicLen : nat := length MagicSentence.

(** ** Block headers *)

Record BlockHeader := mkHeader { h_Volume : Z; h_Inode : Z; h_Index : Z; h_Location : Z }.
#[export] Instance BlockHeader_eq_dec : EqDecision BlockHeader.
Proof. solve_decision. Defined.
Definition nil_header : BlockHeader := mkHeader 0 0 0 0.

(** The callers give slices of [BlockHeaderSize] bytes. *)
Definition BlockHeader_Unmarshal (buf : bytes) : BlockHeader :=
  mkHeader (be_get (take 8 buf)) (be_get (take 8 (drop 8 buf)))
    (be_get (take 8 (drop 16 buf))) (be_get (take 8 (drop 24 buf))).
Definition BlockHeader_Marshal (h : BlockHeader) : bytes :=
  be_put 8 (h_Volume h) ++ be_put 8 (h_Inode h) ++ be_put 8 (h_Index h) ++ be_put 8 (h_Location h).

Definition IsNil (h : BlockHeader) : bool :=
  bool_decide (h_Volume h = 0) && bool_decide (h_Inode h = 0) && bool_decide (h_Index h = 0).
Definition BlockHeader_Equal (a b : BlockHeader) : bool :=
  bool_decide (h_Volume a = h_Volume b) && bool_decide (h_Inode a = h_Inode b)
  && bool_decide (h_Index a = h_Index b) && bool_decide (h_Location a = h_Location b).

(** The condition on a header and a reference that [findRealBlockOffset] and
    [Delete] have in common. *)
Definition matches (b : BlockRef) (h : BlockHeader) : bool :=
  bool_decide (h_Volume h = Volume b) && bool_decide (h_Inode h = INode b) && bool_decide (h_Index h = Index b).

Abbreviation BlockHeaders := (list BlockHeader).

Definition NewBlockHeaders : BlockHeaders := replicate (Z.to_nat (bdBlockSize / 32)) nil_header.

(** The loops over the headers go through the buffer in steps of 32 bytes. *)
Fixpoint unmarshal_headers (n : nat) (bs : BlockHeaders) (buf : bytes) : BlockHeaders :=
  match n, bs with
  | Datatypes.S n', _ :: bs' =>
      BlockHeader_Unmarshal (take BlockHeaderSize buf) :: unmarshal_headers n' bs' (drop BlockHeaderSize buf)
  | _, _ => bs
  end.
Definition BlockHeaders_Unmarshal (bs : BlockHeaders) (buf : bytes) : res BlockHeaders :=
  let maxNumHeaders := (length buf / BlockHeaderSize)%nat in
  if decide (length bs < maxNumHeaders)%nat then Err (ErrMsg "BlockHeaders.Unmarshal: buffer too large")
  else Ok (unmarshal_headers maxNumHeaders bs buf).

Fixpoint marshal_headers (bs : BlockHeaders) (buf : bytes) : bytes :=
  match bs with
  | [] => buf
  | h :: bs' => BlockHeader_Marshal h ++ marshal_headers bs' (drop BlockHeaderSize buf)
  end.
Definition BlockHeaders_Marshal (bs : BlockHeaders) (buf : bytes) : res bytes :=
  if decide (length buf < length bs * BlockHeaderSize)%nat then Err (ErrMsg "BlockHeaders.Marshal: buffer too small")
  else Ok (marshal_headers bs buf).

(** A header that says that the block is in this place. *)
Definition owner (h : BlockHeader) : bool := bool_decide (h_Location h = 0) && negb (IsNil h).

Definition IsUsed (bs : BlockHeaders) : bool := existsb owner bs.

Fixpoint Add (h : BlockHeader) (bs : BlockHeaders) : res BlockHeaders :=
  match bs with
  | [] => Err (ErrMsg "block header is full")
  | x :: bs' => if IsNil x then Ok (h :: bs') else (x ::.) <$> Add h bs'
  end.

Definition Delete (br : BlockRef) (bs : BlockHeaders) : BlockHeaders :=
  (λ h, if matches br h then nil_header else h) <$> bs.

(** ** Metadata of the device *)

(** The time stamp is in seconds. *)
Record Metadata := mkMetadata { TorusBlockSize : Z; FormattedTimestamp : Z; md_UsedBlocks : Z }.

Definition Metadata_Marshal (m : Metadata) : bytes :=
  blit 0 (MagicSentence ++ be_put 8 (TorusBlockSize m) ++ be_put 8 (wrap64 (FormattedTimestamp m)) ++
          be_put 8 (md_UsedBlocks m)) (zeros (Z.to_nat MetadataSize)).

(** The caller gives a buffer of a device block. *)
Definition Metadata_Unmarshal (buf : bytes) : res Metadata :=
  if decide (MagicSentence ≠ take MagicLen buf) then Err (ErrMsg "device has not been formatted for torus")
  else
    let field i := be_get (take 8 (drop (MagicLen + i) buf)) in
    Ok (mkMetadata (field 0%nat) (to_signed 64 (field 8%nat)) (field 16%nat)).

(** ** Reading and writing a device *)

Definition ErrNoSpace : error := ErrMsg "no space left on device".
Definition ErrBadOffset : error := ErrMsg "invalid argument".
Definition ErrShortRead : error := ErrMsg "Read an unexpected number of bytes?".

(** [Seek(int64(off))] and [Read] of [n > 0] bytes. *)
Definition raw_read (off : Z) (n : nat) (d : bytes) : res bytes :=
  if decide (to_signed 64 off < 0) then Err ErrBadOffset
  else if decide (Z.of_nat (length d) ≤ off) then Err EOF
  else Ok (take n (drop (Z.to_nat off) d)).

(** [Seek(int64(off))] and [Write]: what fits is written. *)
Definition raw_write (off : Z) (b d : bytes) : res unit * bytes :=
  if decide (to_signed 64 off < 0) then (Err ErrBadOffset, d)
  else if decide (Z.of_nat (length d) < off + Z.of_nat (length b)) then
    (Err ErrNoSpace, if decide (Z.of_nat (length d) ≤ off) then d else blit (Z.to_nat off) b d)
  else (Ok tt, blit (Z.to_nat off) b d).

(** A read that must not be short. *)
Definition read_full (off : Z) (n : nat) (d : bytes) : res bytes :=
  b ← raw_read off n d;
  if decide (length b ≠ n) then Err ErrShortRead else Ok b.

(** ** The store *)

Record deviceBlock := mkDevice {
  device : bytes;
  metadata : Metadata;
  deviceSize : Z;
  dclosed : bool;
  dheap : gmap positive bytes;
  dnext : positive;
}.

Definition set_device (b : bytes) (d : deviceBlock) : deviceBlock :=
  mkDevice b (metadata d) (deviceSize d) (dclosed d) (dheap d) (dnext d).
Definition set_metadata (m : Metadata) (d : deviceBlock) : deviceBlock :=
  mkDevice (device d) m (deviceSize d) (dclosed d) (dheap d) (dnext d).

Definition ErrFileClosed : error := ErrMsg "file already closed".

Definition dev_read (off : Z) (n : nat) : M deviceBlock bytes := λ d,
  (if dclosed d then Err ErrFileClosed else read_full off n (device d), d).
Definition dev_write (off : Z) (b : bytes) : M deviceBlock unit := λ d,
  if dclosed d then (Err ErrFileClosed, d)
  else let '(o, x) := raw_write off b (device d) in (o, set_device x d).

Definition SerializeBlockHeader (hdrs : BlockHeaders) : res bytes :=
  BlockHeaders_Marshal hdrs (zeros (Z.to_nat bdBlockSize)).
Definition DeserializeBlockHeader (buf : bytes) : res BlockHeaders := BlockHeaders_Unmarshal NewBlockHeaders buf.

Definition readBlockHeader (offset : Z) : M deviceBlock BlockHeaders :=
  buf ← dev_read offset (Z.to_nat bdBlockSize);
  lift (DeserializeBlockHeader buf).
Definition writeBlockHeader (hdrs : BlockHeaders) (offset : Z) : M deviceBlock unit :=
  buf ← lift (SerializeBlockHeader hdrs);
  dev_write offset buf.
Definition writeData (offset : Z) (data : bytes) : M deviceBlock unit := dev_write offset data.

Definition readMetadata (d : bytes) : res Metadata :=
  buf ← read_full 0 (Z.to_nat bdBlockSize) d; Metadata_Unmarshal buf.
Definition writeMetadata : M deviceBlock unit :=
  d ← get; dev_write 0 (Metadata_Marshal (metadata d)).
Definition add_used (n : Z) (m : Metadata) : Metadata :=
  mkMetadata (TorusBlockSize m) (FormattedTimestamp m) (wrap64 (md_UsedBlocks m + n)).
Definition incrementUsedBlocks : M deviceBlock unit :=
  _ ← modify (λ d, set_metadata (add_used 1 (metadata d)) d); writeMetadata.
Definition decrementUsedBlocks : M deviceBlock unit :=
  _ ← modify (λ d, set_metadata (add_used (-1) (metadata d)) d); writeMetadata.

(** [jumpSize] *)
Definition jump (d : deviceBlock) : Z := wrap64 (bdBlockSize + TorusBlockSize (metadata d)).

(** Dividing by zero panics. *)
Definition udiv (a b : Z) : res Z := if decide (b = 0) then Panic else Ok (a / b).
Definition umod (a b : Z) : res Z := if decide (b = 0) then Panic else Ok (a `mod` b).

Definition numBlockLocations (d : deviceBlock) : res Z := udiv (wrap64 (deviceSize d - MetadataSize)) (jump d).

(** [h.Sum(buf)] appends the digest to [buf]; the last eight bytes are those of
    the digest. *)
Definition findDefaultBlockOffset (b : BlockRef) (d : deviceBlock) : res Z :=
  numBlockLocations ← numBlockLocations d;
  let hashedBuf := BlockRef_ToBytes b ++ Sum256 (BlockRef_ToBytes b) in
  let hashedNum := be_get (drop (length hashedBuf - 8) hashedBuf) in
  blockNum ← umod hashedNum numBlockLocations;
  mret (wrap64 (blockNum * jump d + MetadataSize)).

(** The recursion of the code has no bound.  A chain of more locations than the
    device has bytes visits one twice and never ends; the stack overflow then ends
    the process. *)
Fixpoint findReal_fuel (fuel : nat) (b : BlockRef) (currentBlockOffset : Z) : M deviceBlock (option Z) :=
  match fuel with
  | O => panic
  | Datatypes.S fuel' =>
      hdrs ← readBlockHeader currentBlockOffset;
      match list_find (λ h, matches b h) hdrs with
      | None => mret None
      | Some (_, h) =>
          if decide (h_Location h = 0) then mret (Some currentBlockOffset)
          else findReal_fuel fuel' b (h_Location h)
      end
  end.
Definition findRealBlockOffset (b : BlockRef) (currentBlockOffset : Z) : M deviceBlock (option Z) :=
  d ← get; findReal_fuel (Datatypes.S (Datatypes.S (length (device d)))) b currentBlockOffset.

Definition findBlockOffset (b : BlockRef) : M deviceBlock (option Z) :=
  d ← get;
  blockOffset ← lift (findDefaultBlockOffset b d);
  findRealBlockOffset b blockOffset.

(** ** Slices *)

Definition d_deref (d : deviceBlock) (l : positive) : bytes := default [] (dheap d !! l).
Definition d_make (b : bytes) (d : deviceBlock) : positive * deviceBlock :=
  (dnext d, mkDevice (device d) (metadata d) (deviceSize d) (dclosed d) (<[dnext d := b]> (dheap d)) (Pos.succ (dnext d))).
Definition d_copy (l : positive) (off : nat) (b : bytes) (d : deviceBlock) : deviceBlock :=
  mkDevice (device d) (metadata d) (deviceSize d) (dclosed d) (<[l := blit off b (d_deref d l)]> (dheap d)) (dnext d).

Definition alloc (b : bytes) : M deviceBlock positive := λ d, let '(l, d') := d_make b d in (Ok l, d').

(** ** Methods *)

Definition HasBlock (b : BlockRef) : M deviceBlock bool :=
  o ← findBlockOffset b; mret (bool_decide (is_Some o)).

Definition GetBlock (b : BlockRef) : M deviceBlock positive :=
  o ← findBlockOffset b;
  match o with
  | None => throw (ErrMsg "block not found")
  | Some offset =>
      d ← get;
      buf ← dev_read (wrap64 (offset + bdBlockSize)) (Z.to_nat (TorusBlockSize (metadata d)));
      alloc buf
  end.

Definition header_of (b : BlockRef) (loc : Z) : BlockHeader := mkHeader (Volume b) (INode b) (Index b) loc.

(** The block goes to the place its hash gives. *)
Definition write_default (b : BlockRef) (data : bytes) (hdrs : BlockHeaders) (offset : Z) : M deviceBlock unit :=
  _ ← writeData (wrap64 (offset + bdBlockSize)) data;
  hdrs' ← lift (Add (header_of b 0) hdrs);
  _ ← writeBlockHeader hdrs' offset;
  incrementUsedBlocks.

(** The block goes elsewhere, and the headers of its place say where. *)
Definition write_elsewhere (b : BlockRef) (data : bytes) (hdrs : BlockHeaders) (offset : Z) (currHdrs : BlockHeaders)
    (currOffset : Z) : M deviceBlock unit :=
  _ ← writeData (wrap64 (currOffset + bdBlockSize)) data;
  hdrs' ← lift (Add (header_of b currOffset) hdrs);
  _ ← writeBlockHeader hdrs' offset;
  currHdrs' ← lift (Add (header_of b 0) currHdrs);
  _ ← writeBlockHeader currHdrs' currOffset;
  incrementUsedBlocks.

(** The loop that looks for an unused place.  It ends when it is back at
    [offset], so it makes at most one round per place. *)
Fixpoint find_unused (fuel : nat) (b : BlockRef) (data : bytes) (hdrs : BlockHeaders) (offset currOffset : Z) :
    M deviceBlock unit :=
  match fuel with
  | O => panic
  | Datatypes.S fuel' =>
      d ← get;
      let currOffset := if decide (wrap64 (deviceSize d - jump d) < currOffset) then MetadataSize else currOffset in
      if decide (currOffset = offset) then throw (ErrMsg "device is full")
      else
        currHdrs ← readBlockHeader currOffset;
        if IsUsed currHdrs then find_unused fuel' b data hdrs offset (wrap64 (currOffset + jump d))
        else write_elsewhere b data hdrs offset currHdrs currOffset
  end.

(** The error of [findBlockOffset] is not looked at; a panic is one all the
    same. *)
Definition WriteBlock (b : BlockRef) (data : bytes) : M deviceBlock unit :=
  d ← get;
  if decide (Z.of_nat (length data) ≠ TorusBlockSize (metadata d)) then
    throw (ErrMsg "data buffer does not match block size")
  else
    o ← try (findBlockOffset b);
    match o with
    | inl (Some offset) => writeData (wrap64 (offset + bdBlockSize)) data
    | _ =>
        offset ← lift (findDefaultBlockOffset b d);
        hdrs ← readBlockHeader offset;
        if IsUsed hdrs then
          n ← lift (numBlockLocations d);
          find_unused (Datatypes.S (Z.to_nat n)) b data hdrs offset (wrap64 (offset + jump d))
        else write_default b data hdrs offset
    end.

Definition WriteBuf (b : BlockRef) : M deviceBlock positive := throw (ErrMsg "not implemented").

Definition DeleteBlock (b : BlockRef) : M deviceBlock unit :=
  o ← try (findBlockOffset b);
  match o with
  | inl (Some offset) =>
      hdrs ← readBlockHeader offset;
      _ ← writeBlockHeader (Delete b hdrs) offset;
      decrementUsedBlocks
  | _ => throw (ErrMsg "block doesn't exist")
  end.

(** The code divides by the size of a block without its header; a size of zero
    would panic. *)
Definition NumBlocks (d : deviceBlock) : Z :=
  wrap64 (deviceSize d - MetadataSize) / TorusBlockSize (metadata d).
Definition UsedBlocks (d : deviceBlock) : Z := md_UsedBlocks (metadata d).
Definition BlockSize (d : deviceBlock) : Z := TorusBlockSize (metadata d).
Definition Flush : M deviceBlock unit := λ d, (if dclosed d then Err ErrFileClosed else Ok tt, d).
Definition Close : M deviceBlock unit := λ d,
  if dclosed d then (Err ErrFileClosed, d)
  else (Ok tt, mkDevice (device d) (metadata d) (deviceSize d) true (dheap d) (dnext d)).

(** [newBlockDeviceBlockStore] for a device of some bytes; the ioctl gives its
    size. *)
Definition newBlockDeviceBlockStore (dev : bytes) (blockSize : Z) : res deviceBlock :=
  mdata ← readMetadata dev;
  if decide (TorusBlockSize mdata ≠ blockSize) then Err (ErrMsg "device has been formatted with another block size")
  else Ok (mkDevice dev mdata (Z.of_nat (length dev)) false ∅ 1).

(** ** The iterator *)

Record deviceBlockIterator := mkDIter {
  i_currOffset : Z;
  i_currBlockRef : BlockRef;
  i_done : bool;
  i_err : option error;
}.

Definition BlockIterator (d : deviceBlock) : deviceBlockIterator := mkDIter 0 (BlockRefFromUint64s 0 0 0) false None.

(** The loop of [nextHelper], with one round per place of the device. *)
Fixpoint search_loop (fuel : nat) (d : deviceBlock) (it : deviceBlockIterator) : res bool * deviceBlockIterator :=
  match fuel with
  | O => (Panic, it)
  | Datatypes.S fuel' =>
      if decide (deviceSize d ≤ i_currOffset it) then
        (Ok false, mkDIter (i_currOffset it) (i_currBlockRef it) true (i_err it))
      else
        match (readBlockHeader (i_currOffset it) d).1 with
        | Err e => (Ok false, mkDIter (i_currOffset it) (i_currBlockRef it) (i_done it) (Some e))
        | Panic => (Panic, it)
        | Ok hdrs =>
            match list_find owner hdrs with
            | Some (_, h) =>
                (Ok true, mkDIter (i_currOffset it) (BlockRefFromUint64s (h_Volume h) (h_Inode h) (h_Index h))
                            (i_done it) (i_err it))
            | None =>
                search_loop fuel' d
                  (mkDIter (wrap64 (i_currOffset it + jump d)) (i_currBlockRef it) (i_done it) (i_err it))
            end
        end
  end.

Definition search_fuel (d : deviceBlock) : nat := Datatypes.S (Datatypes.S (Z.to_nat (deviceSize d / jump d))).

Definition nextHelper (firstRun : bool) (d : deviceBlock) (it : deviceBlockIterator) : res bool * deviceBlockIterator :=
  if i_done it then (Ok false, it)
  else
    search_loop (search_fuel d) d
      (if firstRun then it
       else mkDIter (wrap64 (i_currOffset it + jump d)) (i_currBlockRef it) (i_done it) (i_err it)).

Definition Next (d : deviceBlock) (it : deviceBlockIterator) : res bool * deviceBlockIterator :=
  if decide (i_currOffset it = 0) then
    nextHelper true d (mkDIter MetadataSize (i_currBlockRef it) (i_done it) (i_err it))
  else nextHelper false d it.

(** [for it.Next() { visit(it.BlockRef()) }]: the references visited until [Next]
    says that there are no more, and the iterator then. *)
Fixpoint iterate (fuel : nat) (d : deviceBlock) (it : deviceBlockIterator) : list BlockRef * deviceBlockIterator :=
  match fuel with
  | O => ([], it)
  | Datatypes.S fuel' =>
      match Next d it with
      | (Ok true, it') => let '(l, it2) := iterate fuel' d it' in (i_currBlockRef it' :: l, it2)
      | (_, it') => ([], it')
      end
  end.
Definition visited (d : deviceBlock) : list BlockRef * deviceBlockIterator := iterate (search_fuel d) d (BlockIterator d).

#[export] Instance device_BlockStore : Store.BlockStore deviceBlock := {|
  Store.slice := positive;
  Store.deref := d_deref;
  Store.mk_slice := d_make;
  Store.copy_to := d_copy;
  Store.HasBlock := HasBlock;
  Store.GetBlock := GetBlock;
  Store.WriteBlock := WriteBlock;
  Store.WriteBuf := WriteBuf;
  Store.DeleteBlock := DeleteBlock;
  Store.NumBlocks := NumBlocks;
  Store.UsedBlocks := UsedBlocks;
  Store.BlockSize := BlockSize;
  Store.Flush := Flush;
  Store.Close := Close;
  Store.iterator := deviceBlockIterator;
  Store.BlockIterator := BlockIterator;
  Store.iter_Next := Next;
  Store.iter_BlockRef := λ it, Ok (i_currBlockRef it);
  Store.iter_Err := i_err;
|}.

(** ** Formatting and checking a device *)

(** The loop over the places of a device: the body is run for every offset from
    [currOffset] in steps of [jumpSize] that is before the end. *)
Fixpoint for_places {A} (fuel : nat) (body : Z → A → res A) (deviceSize jumpSize currOffset : Z) (a : A) : res A :=
  match fuel with
  | O => Panic
  | Datatypes.S fuel' =>
      if decide (deviceSize ≤ currOffset) then Ok a
      else a' ← body currOffset a; for_places fuel' body deviceSize jumpSize (wrap64 (currOffset + jumpSize)) a'
  end.

Definition write_or_fail (off : Z) (b d : bytes) : res bytes :=
  match raw_write off b d with (Ok _, d') => Ok d' | (Err e, _) => Err e | (Panic, _) => Panic end.

Definition places_fuel (n jumpSize : Z) : nat := Datatypes.S (Datatypes.S (Z.to_nat (n / jumpSize))).

(** [now] is the time in seconds.  The bytes that a failing run leaves are left
    out of the result. *)
Definition Mkfs (torusBlockSize now : Z) (dev : bytes) : res bytes :=
  let size := Z.of_nat (length dev) in
  let jumpSize := wrap64 (bdBlockSize + torusBlockSize) in
  dev1 ← for_places (places_fuel size jumpSize) (λ off d, write_or_fail off (zeros (Z.to_nat bdBlockSize)) d)
    size jumpSize MetadataSize dev;
  write_or_fail 0 (Metadata_Marshal (mkMetadata torusBlockSize now 0)) dev1.

(** The loop over the headers of a place: the blocks in use so far. *)
Fixpoint check_headers (size : Z) (hdrs : BlockHeaders) (usedBlocks : Z) : res Z :=
  match hdrs with
  | [] => Ok usedBlocks
  | h :: hdrs' =>
      if decide (size ≤ h_Location h) then Err (ErrMsg "This block got corrupted somehow")
      else check_headers size hdrs' (if negb (IsNil h) && bool_decide (h_Location h = 0) then wrap64 (usedBlocks + 1) else usedBlocks)
  end.

(** The metadata is unmarshalled from the buffer whatever number of bytes was
    read into it. *)
Definition Fsck (torusBlockSize : Z) (dev : bytes) : res unit :=
  let size := Z.of_nat (length dev) in
  buf ← raw_read 0 (Z.to_nat bdBlockSize) dev;
  metadata ← Metadata_Unmarshal (blit 0 buf (zeros (Z.to_nat bdBlockSize)));
  if decide (TorusBlockSize metadata ≠ torusBlockSize) then Err (ErrMsg "device has another torus block size")
  else
    let jumpSize := wrap64 (bdBlockSize + torusBlockSize) in
    usedBlocks ← for_places (places_fuel size jumpSize)
      (λ off n, buf ← read_full off (Z.to_nat bdBlockSize) dev; hdrs ← DeserializeBlockHeader buf; check_headers size hdrs n)
      size jumpSize MetadataSize 0;
    if decide (usedBlocks ≠ md_UsedBlocks metadata) then Err (ErrMsg "there were supposed to be other blocks in use")
    else Ok tt.
