(* ===== verification/BlockDeviceSpec.v ===== *)
(** * The block device store is a map of blocks

    Round trips of the headers and the metadata; what the reads and writes of the
    store do to the places of the device; the invariant that ties the headers to
    a finite map of blocks, and that every operation keeps it; the checks of
    [Fsck] and the iterator on any device the store has written; and what happens
    when a deleted block is written again. *)
From S2P Require Import Prelude GoSem Refs Sha256 Store BlockDevice.

(** ** Headers as bytes *)

Definition header_ok (h : BlockHeader) : Prop :=
  u64 (h_Volume h) ∧ u64 (h_Inode h) ∧ u64 (h_Index h) ∧ u64 (h_Location h).

Lemma be_get_u64 b : length b = 8%nat → u64 (be_get b).
Proof. intros H. pose proof (be_get_range b) as R. rewrite H in R. exact R. Qed.
Lemma be_get_put_u64 z : u64 z → be_get (be_put 8 z) = z.
Proof. intros H. rewrite be_get_put. apply wrap_id. exact H. Qed.

Lemma length_BlockHeader_Marshal h : length (BlockHeader_Marshal h) = BlockHeaderSize.
Proof. unfold BlockHeader_Marshal. by rewrite !length_app, !length_be_put. Qed.

Lemma take_skip {A} n (a b : list A) : length a = n → take n (a ++ b) = a.
Proof. intros <-. apply take_app_length. Qed.
Lemma drop_skip {A} n (a b : list A) : length a = n → drop n (a ++ b) = b.
Proof. intros <-. apply drop_app_length. Qed.
Lemma drop_16 {A} (l : list A) : drop 16 l = drop 8 (drop 8 l).
Proof. by rewrite drop_drop. Qed.
Lemma drop_24 {A} (l : list A) : drop 24 l = drop 8 (drop 8 (drop 8 l)).
Proof. by rewrite !drop_drop. Qed.

Lemma header_roundtrip h : header_ok h → BlockHeader_Unmarshal (BlockHeader_Marshal h) = h.
Proof.
  intros (Hv & Hi & Hx & Hl). unfold BlockHeader_Unmarshal, BlockHeader_Marshal. destruct h as [v i x l]. cbn in *.
  rewrite drop_16, drop_24, !(drop_skip 8), !(take_skip 8) by apply length_be_put.
  rewrite (take_ge (be_put 8 l)) by (by rewrite length_be_put).
  by rewrite !be_get_put_u64.
Qed.

Lemma header_Unmarshal_ok b : length b = BlockHeaderSize → header_ok (BlockHeader_Unmarshal b).
Proof.
  intros H. unfold BlockHeader_Unmarshal, header_ok. cbn.
  unfold BlockHeaderSize in H. split_and!; apply be_get_u64; rewrite length_take, ?length_drop, H; done.
Qed.

Lemma length_unmarshal_headers n : ∀ bs b, length (unmarshal_headers n bs b) = length bs.
Proof. induction n as [|n IH]; intros [|x bs] b; cbn; [done..|]. by rewrite IH. Qed.

Lemma length_marshal_headers hs : ∀ b, (length hs * BlockHeaderSize ≤ length b)%nat → length (marshal_headers hs b) = length b.
Proof.
  induction hs as [|h hs IH]; intros b Hb; [done|]. cbn [marshal_headers length] in *.
  rewrite length_app, IH, length_BlockHeader_Marshal, length_drop; rewrite ?length_drop; unfold BlockHeaderSize in *; lia.
Qed.

Lemma headers_back hs : ∀ bs b,
  Forall header_ok hs → length bs = length hs → unmarshal_headers (length hs) bs (marshal_headers hs b) = hs.
Proof.
  induction hs as [|h hs IH]; intros [|x bs] b Hok Hl; try done. apply list.Forall_cons in Hok as [Hh Hok].
  cbn [marshal_headers unmarshal_headers length]. pose proof (length_BlockHeader_Marshal h) as Hlen.
  rewrite (take_skip BlockHeaderSize _ _ Hlen), (drop_skip BlockHeaderSize _ _ Hlen), header_roundtrip by done.
  f_equal. apply IH; [done|]. simpl in Hl. lia.
Qed.

Lemma unmarshal_headers_ok n : ∀ bs b,
  (n * BlockHeaderSize ≤ length b)%nat → Forall header_ok bs → Forall header_ok (unmarshal_headers n bs b).
Proof.
  induction n as [|n IH]; intros [|x bs] b Hb Hok; try done. cbn [unmarshal_headers].
  apply list.Forall_cons in Hok as [_ Hok]. unfold BlockHeaderSize in *. apply list.Forall_cons. split.
  - apply header_Unmarshal_ok. rewrite length_take. unfold BlockHeaderSize. lia.
  - apply IH; [rewrite length_drop; lia|done].
Qed.

Definition nHeaders : nat := 128.
Lemma NewBlockHeaders_eq : NewBlockHeaders = replicate nHeaders nil_header.
Proof. reflexivity. Qed.
Lemma nil_headers_ok n : Forall header_ok (replicate n nil_header).
Proof. apply Forall_replicate. unfold header_ok, nil_header; cbn. split_and!; done. Qed.

(** The headers of a device block, sealed so that no proof unfolds them. *)
Definition headers_sealed : { f : bytes → BlockHeaders | ∀ b, f b = unmarshal_headers nHeaders NewBlockHeaders b }.
Proof. by eexists. Qed.
Definition headers_of (b : bytes) : BlockHeaders := proj1_sig headers_sealed b.
Lemma headers_of_eq b : headers_of b = unmarshal_headers nHeaders NewBlockHeaders b.
Proof. exact (proj2_sig headers_sealed b). Qed.

(** The size of a device block as an opaque number. *)
Definition blk_sealed : { n : nat | n = Z.to_nat bdBlockSize }.
Proof. by exists (Z.to_nat bdBlockSize). Qed.
Definition blk : nat := proj1_sig blk_sealed.
Lemma blk_def : Z.to_nat bdBlockSize = blk.
Proof. symmetry. exact (proj2_sig blk_sealed). Qed.
Lemma blk_eq : blk = (nHeaders * BlockHeaderSize)%nat.
Proof. rewrite <-blk_def. reflexivity. Qed.

Lemma Deserialize_run b : length b = blk → DeserializeBlockHeader b = Ok (headers_of b).
Proof.
  intros Hb. unfold DeserializeBlockHeader, BlockHeaders_Unmarshal. rewrite headers_of_eq, Hb, blk_eq, NewBlockHeaders_eq.
  change (nHeaders * BlockHeaderSize / BlockHeaderSize)%nat with nHeaders. rewrite decide_False by (rewrite length_replicate; lia). done.
Qed.
Lemma length_headers_of b : length (headers_of b) = nHeaders.
Proof. rewrite headers_of_eq, length_unmarshal_headers. apply length_replicate. Qed.
Lemma headers_of_ok b : length b = blk → Forall header_ok (headers_of b).
Proof. intros Hb. rewrite headers_of_eq. apply unmarshal_headers_ok; [by rewrite Hb, blk_eq|]. rewrite NewBlockHeaders_eq. apply nil_headers_ok. Qed.

Lemma Serialize_run hs :
  length hs = nHeaders → Forall header_ok hs →
  ∃ b, SerializeBlockHeader hs = Ok b ∧ length b = blk ∧ headers_of b = hs.
Proof.
  intros Hl Hok. exists (marshal_headers hs (zeros blk)).
  assert (length hs * BlockHeaderSize ≤ length (zeros blk))%nat as Hz by (by rewrite Hl, length_zeros, blk_eq).
  split_and!.
  - unfold SerializeBlockHeader, BlockHeaders_Marshal. rewrite blk_def, decide_False by lia. done.
  - by rewrite length_marshal_headers, length_zeros.
  - rewrite headers_of_eq, <-Hl. apply headers_back; [done|]. rewrite Hl, NewBlockHeaders_eq. apply length_replicate.
Qed.

Lemma headers_of_zeros : headers_of (zeros blk) = NewBlockHeaders.
Proof. rewrite headers_of_eq, <-blk_def. vm_compute. reflexivity. Qed.

(** ** The metadata as bytes *)

Definition metadata_ok (m : Metadata) : Prop :=
  u64 (TorusBlockSize m) ∧ - 2 ^ 63 ≤ FormattedTimestamp m < 2 ^ 63 ∧ u64 (md_UsedBlocks m).

Lemma length_Metadata_Marshal m : length (Metadata_Marshal m) = blk.
Proof. unfold Metadata_Marshal. rewrite length_blit, length_zeros. exact blk_def. Qed.

Lemma signed_wrap z : - 2 ^ 63 ≤ z < 2 ^ 63 → to_signed 64 (wrap64 z) = z.
Proof.
  intros Hz. unfold to_signed, wrap64, wrap. rewrite Zmod_mod. destruct (decide (0 ≤ z)).
  - rewrite (Z.mod_small z) by lia. case_decide; lia.
  - replace (z `mod` 2 ^ 64) with (z + 2 ^ 64); [case_decide; lia|].
    apply Z.mod_unique with (-1); [left; lia|lia].
Qed.

Lemma metadata_roundtrip m : metadata_ok m → Metadata_Unmarshal (Metadata_Marshal m) = Ok m.
Proof.
  intros (Ht & Hf & Hu). unfold Metadata_Marshal.
  set (p := MagicSentence ++ _). set (z := zeros _).
  assert (length p = 50%nat) as Hp by (unfold p; by rewrite !length_app, !length_be_put).
  assert (blit 0 p z = p ++ drop 50 z) as ->.
  { unfold blit. rewrite take_0, take_ge, Hp by (unfold z; rewrite length_zeros, Hp; vm_compute; lia). done. }
  unfold p. rewrite <-!(assoc_L (++)). unfold Metadata_Unmarshal.
  rewrite (take_skip MagicLen), decide_False by (done || by intros []). cbv zeta.
  rewrite <-!drop_drop, !(drop_skip MagicLen), drop_16, drop_0, !(drop_skip 8), !(take_skip 8) by (done || apply length_be_put).
  rewrite !be_get_put_u64 by (try done; apply wrap_range; lia). rewrite signed_wrap by done. by destruct m.
Qed.

(** ** Windows of a byte string *)

Definition window (off n : nat) (d : bytes) : bytes := take n (drop off d).

Lemma length_window off n d : (off + n ≤ length d)%nat → length (window off n d) = n.
Proof. intros H. unfold window. rewrite length_take, length_drop. lia. Qed.

Lemma window_lookup off n d i : (i < n)%nat → window off n d !! i = d !! (off + i)%nat.
Proof. intros H. unfold window. by rewrite lookup_take_lt, lookup_drop. Qed.

Lemma window_ext off n d d' :
  (off + n ≤ length d)%nat → length d' = length d →
  (∀ i, (off ≤ i < off + n)%nat → d' !! i = d !! i) → window off n d' = window off n d.
Proof.
  intros Hl Hl' H. apply list_eq. intros i. destruct (decide (i < n)%nat).
  - rewrite !window_lookup by done. apply H. lia.
  - rewrite !lookup_ge_None_2 by (rewrite length_window; lia). done.
Qed.

Lemma window_blit_eq off b d : (off + length b ≤ length d)%nat → window off (length b) (blit off b d) = b.
Proof.
  intros H. apply list_eq. intros i. destruct (decide (i < length b)%nat).
  - rewrite window_lookup, blit_lookup_in by lia. f_equal. lia.
  - rewrite !lookup_ge_None_2 by (rewrite ?length_window, ?length_blit; rewrite ?length_blit; lia). done.
Qed.

Lemma window_blit_whole off n b d : length b = n → (off + n ≤ length d)%nat → window off n (blit off b d) = b.
Proof. intros <-. apply window_blit_eq. Qed.

Lemma window_blit_ne off n o b d :
  (off + n ≤ length d)%nat → (o + length b ≤ length d)%nat → (off + n ≤ o ∨ o + length b ≤ off)%nat →
  window off n (blit o b d) = window off n d.
Proof.
  intros H Ho Hd. apply window_ext; [done|apply length_blit|]. intros i Hi. apply blit_lookup_out; lia.
Qed.

(** ** The places of a device *)

(** A device of [N] places for blocks of [B] bytes. *)
Section places.
Context (B N : nat).

Definition slot (k : nat) : nat := blk + k * (blk + B).
Definition off (k : nat) : Z := Z.of_nat (slot k).

Record geom (d : deviceBlock) : Prop := {
  g_bs : TorusBlockSize (metadata d) = Z.of_nat B;
  g_pos : (0 < B)%nat;
  g_size : deviceSize d = Z.of_nat (length (device d));
  g_fit : (slot N ≤ length (device d) < slot (Datatypes.S N))%nat;
  g_N : (0 < N)%nat;
  g_max : Z.of_nat (length (device d)) < 2 ^ 62;
  g_open : dclosed d = false;
  g_meta : metadata_ok (metadata d);
}.

Definition hdrs_at (d : deviceBlock) (k : nat) : BlockHeaders := headers_of (window (slot k) blk (device d)).
Definition data_at (d : deviceBlock) (k : nat) : bytes := window (slot k + blk) B (device d).

Lemma slot_lt j k : (j < k)%nat → (slot j + blk + B ≤ slot k)%nat.
Proof. intros H. unfold slot. nia. Qed.

Lemma slot_S k : slot (Datatypes.S k) = (slot k + blk + B)%nat.
Proof. unfold slot. lia. Qed.

Lemma slot_disjoint j k : j ≠ k → (slot j + blk + B ≤ slot k ∨ slot k + blk + B ≤ slot j)%nat.
Proof. intros H. destruct (decide (j < k)%nat); [left|right]; apply slot_lt; lia. Qed.

Lemma slot_end d k : geom d → (k < N)%nat → (slot k + blk + B ≤ length (device d))%nat.
Proof. intros Hg Hk. pose proof (slot_lt k N Hk). pose proof (g_fit _ Hg). lia. Qed.

Lemma slot_first k : (blk ≤ slot k)%nat.
Proof. unfold slot. lia. Qed.

Lemma blk_pos : (0 < blk)%nat.
Proof. rewrite <-blk_def. vm_compute. lia. Qed.

Lemma off_nonzero k : off k ≠ 0.
Proof. unfold off. pose proof (slot_first k). pose proof blk_pos. lia. Qed.
Lemma off_inj j k : off j = off k → j = k.
Proof.
  unfold off. intros H. destruct (decide (j = k)) as [|Hn]; [done|].
  pose proof (slot_disjoint j k Hn). pose proof blk_pos. lia.
Qed.

Lemma blk_Z : Z.of_nat blk = bdBlockSize.
Proof. rewrite <-blk_def. reflexivity. Qed.

#[local] Opaque slot.

Lemma dev_read_run d o n :
  geom d → (o + n ≤ length (device d))%nat → (o < length (device d))%nat →
  dev_read (Z.of_nat o) n d = (Ok (window o n (device d)), d).
Proof.
  intros Hg Hl Hlt. unfold dev_read. rewrite (g_open _ Hg). f_equal. unfold read_full, raw_read. pose proof (g_max _ Hg).
  rewrite to_signed_small, decide_False, decide_False, Nat2Z.id by lia. cbn [mbind res_mbind res_bind].
  change (take n (drop o (device d))) with (window o n (device d)).
  rewrite decide_False; [done|]. rewrite length_window by done. lia.
Qed.

Lemma dev_write_run d o b :
  geom d → (o + length b ≤ length (device d))%nat →
  dev_write (Z.of_nat o) b d = (Ok tt, set_device (blit o b (device d)) d).
Proof.
  intros Hg Hl. unfold dev_write. rewrite (g_open _ Hg). unfold raw_write. pose proof (g_max _ Hg).
  rewrite to_signed_small, decide_False, decide_False, Nat2Z.id by lia. done.
Qed.

Lemma geom_blit d o b : geom d → geom (set_device (blit o b (device d)) d).
Proof. intros []. split; cbn; rewrite ?length_blit; done. Qed.

Lemma off_data d k : geom d → (k < N)%nat → wrap64 (off k + bdBlockSize) = Z.of_nat (slot k + blk).
Proof.
  intros Hg Hk. pose proof (slot_end d k Hg Hk). pose proof (g_max _ Hg). unfold off.
  rewrite <-blk_Z, <-Nat2Z.inj_add. apply wrap_id.
  unfold in_width. lia.
Qed.

(** A header is read. *)
Lemma readBlockHeader_run d k : geom d → (k < N)%nat → readBlockHeader (off k) d = (Ok (hdrs_at d k), d).
Proof.
  intros Hg Hk. pose proof (slot_end d k Hg Hk). pose proof blk_pos. unfold readBlockHeader. rewrite blk_def.
  rewrite (bind_step _ _ _ _ _ (dev_read_run d (slot k) blk Hg ltac:(lia) ltac:(lia))).
  unfold lift. rewrite Deserialize_run by (rewrite length_window; lia). done.
Qed.

Lemma hdrs_at_ok d k : geom d → (k < N)%nat → Forall header_ok (hdrs_at d k).
Proof. intros Hg Hk. pose proof (slot_end d k Hg Hk). apply headers_of_ok. rewrite length_window; lia. Qed.
Lemma length_hdrs_at d k : length (hdrs_at d k) = nHeaders.
Proof. apply length_headers_of. Qed.

(** What a write leaves alone: the headers and the data of the other places, and
    the headers of an incomplete place at the end. *)
Definition meta_at (d : deviceBlock) : bytes := window 0 blk (device d).

Lemma writeBlockHeader_run d k hs :
  geom d → (k < N)%nat → length hs = nHeaders → Forall header_ok hs →
  ∃ d', writeBlockHeader hs (off k) d = (Ok tt, d') ∧ geom d' ∧ metadata d' = metadata d ∧ meta_at d' = meta_at d ∧
    dheap d' = dheap d ∧ dnext d' = dnext d ∧ length (device d') = length (device d) ∧
    hdrs_at d' k = hs ∧
    (∀ j, j ≠ k → (slot j + blk ≤ length (device d))%nat → hdrs_at d' j = hdrs_at d j) ∧
    (∀ j, (j < N)%nat → data_at d' j = data_at d j).
Proof.
  intros Hg Hk Hl Hok. destruct (Serialize_run hs Hl Hok) as (b & Hs & Hb & Hh).
  pose proof (slot_end d k Hg Hk) as He. pose proof (slot_first k) as Hf.
  eexists. split.
  { unfold writeBlockHeader, lift. rewrite Hs. cbn [mbind M_bind]. apply dev_write_run; [done|lia]. }
  split; [by apply geom_blit|]. cbn [metadata device dheap dnext set_device set_metadata].
  split_and!; try done.
  - apply window_blit_ne; lia.
  - apply length_blit.
  - unfold hdrs_at. cbn [device set_device]. by rewrite window_blit_whole by lia.
  - intros j Hj Hlj. pose proof (slot_disjoint j k Hj). unfold hdrs_at. cbn [device set_device].
    by rewrite window_blit_ne by lia.
  - intros j Hj. unfold data_at. cbn [device set_device set_metadata]. pose proof (slot_end d j Hg Hj).
    apply window_blit_ne; [lia..|]. destruct (decide (j = k)) as [->|Hn]; [lia|]. pose proof (slot_disjoint j k Hn). lia.
Qed.

Lemma writeData_run d k data :
  geom d → (k < N)%nat → length data = B →
  ∃ d', writeData (wrap64 (off k + bdBlockSize)) data d = (Ok tt, d') ∧ geom d' ∧ metadata d' = metadata d ∧
    meta_at d' = meta_at d ∧ dheap d' = dheap d ∧ dnext d' = dnext d ∧ length (device d') = length (device d) ∧
    data_at d' k = data ∧
    (∀ j, (slot j + blk ≤ length (device d))%nat → hdrs_at d' j = hdrs_at d j) ∧
    (∀ j, j ≠ k → (j < N)%nat → data_at d' j = data_at d j).
Proof.
  intros Hg Hk Hl. pose proof (slot_end d k Hg Hk) as He. pose proof (slot_first k) as Hf.
  eexists. split.
  { unfold writeData. rewrite (off_data d k Hg Hk). apply dev_write_run; [done|lia]. }
  split; [by apply geom_blit|]. cbn [metadata device dheap dnext set_device set_metadata].
  split_and!; try done.
  - apply window_blit_ne; lia.
  - apply length_blit.
  - apply window_blit_whole; lia.
  - intros j Hj. unfold hdrs_at. cbn [device set_device]. rewrite window_blit_ne; [done|lia..|].
    destruct (decide (j = k)) as [->|Hn]; [lia|]. pose proof (slot_disjoint j k Hn). lia.
  - intros j Hn Hj. unfold data_at. cbn [device set_device set_metadata]. pose proof (slot_end d j Hg Hj).
    apply window_blit_ne; [lia..|]. pose proof (slot_disjoint j k Hn). lia.
Qed.

(** The counter of used blocks. *)
Lemma used_run n d :
  geom d → u64 (md_UsedBlocks (metadata d) + n) →
  ∃ d', (_ ← modify (λ d, set_metadata (add_used n (metadata d)) d); writeMetadata) d = (Ok tt, d') ∧ geom d' ∧
    md_UsedBlocks (metadata d') = md_UsedBlocks (metadata d) + n ∧
    TorusBlockSize (metadata d') = TorusBlockSize (metadata d) ∧
    meta_at d' = Metadata_Marshal (metadata d') ∧ dheap d' = dheap d ∧ dnext d' = dnext d ∧
    length (device d') = length (device d) ∧
    (∀ j, (slot j + blk ≤ length (device d))%nat → hdrs_at d' j = hdrs_at d j) ∧
    (∀ j, (j < N)%nat → data_at d' j = data_at d j).
Proof.
  intros Hg Hu. set (m := add_used n (metadata d)).
  assert (md_UsedBlocks m = md_UsedBlocks (metadata d) + n) as Hm by (by apply wrap_id).
  assert (geom (set_metadata m d)) as Hg1.
  { destruct Hg. split; try done. destruct g_meta0 as (?&?&?). split; [done|]. split; [done|].
    change (u64 (md_UsedBlocks m)). by rewrite Hm. }
  assert (length (Metadata_Marshal m) = blk) as Hl by apply length_Metadata_Marshal. pose proof (slot_end d 0 Hg (g_N _ Hg)) as He. pose proof (slot_first 0).
  eexists. split.
  { unfold modify, writeMetadata, get. cbn [mbind M_bind]. apply (dev_write_run _ 0); [exact Hg1|].
    change (length (Metadata_Marshal m) ≤ length (device d))%nat. lia. }
  split; [by apply geom_blit|]. cbn [metadata device dheap dnext set_device set_metadata].
  fold m. split_and!; try done.
  - apply window_blit_whole; [done|cbn; lia].
  - apply length_blit.
  - intros j Hj. pose proof (slot_first j). unfold hdrs_at. cbn [metadata device set_device set_metadata]. fold m.
    rewrite window_blit_ne; [done|lia| |right]; rewrite Hl; lia.
  - intros j Hj. unfold data_at. cbn [metadata device set_device set_metadata]. fold m. pose proof (slot_end d j Hg Hj). pose proof (slot_first j).
    apply window_blit_ne; [lia| |right]; rewrite Hl; lia.
Qed.

(** ** Places of blocks *)

Lemma jump_run d : geom d → jump d = Z.of_nat (blk + B).
Proof.
  intros Hg. unfold jump. rewrite (g_bs _ Hg), <-blk_Z, <-Nat2Z.inj_add. apply wrap_id.
  pose proof (slot_end d 0 Hg (g_N _ Hg)). pose proof (g_max _ Hg). unfold in_width. lia.
Qed.

(** The place the hash of a reference gives; the hash is opaque too. *)
Definition hash_sealed : { f : BlockRef → Z | ∀ r, f r =
  let b := BlockRef_ToBytes r ++ Sum256 (BlockRef_ToBytes r) in be_get (drop (length b - 8) b) }.
Proof. by eexists. Qed.
Definition hash_num (r : BlockRef) : Z := proj1_sig hash_sealed r.
Definition dflt (r : BlockRef) : nat := Z.to_nat (hash_num r `mod` Z.of_nat N).

Lemma places_run d : geom d → numBlockLocations d = Ok (Z.of_nat N).
Proof.
  intros Hg. unfold numBlockLocations. unfold MetadataSize. rewrite <-blk_Z, (jump_run d Hg), (g_size _ Hg).
  pose proof (g_fit _ Hg) as Hf. rewrite slot_S in Hf. pose proof (g_max _ Hg). pose proof (slot_first N).
  rewrite wrap_id by (unfold in_width; lia). unfold udiv. pose proof blk_pos. rewrite decide_False by lia. f_equal.
  symmetry. apply Z.div_unique with (Z.of_nat (length (device d)) - Z.of_nat (slot N)); [left; lia|].
  assert (slot N = blk + N * (blk + B))%nat as -> by reflexivity. lia.
Qed.

Lemma default_run d r : geom d → findDefaultBlockOffset r d = Ok (off (dflt r)) ∧ (dflt r < N)%nat.
Proof.
  intros Hg. pose proof (g_N _ Hg) as HN.
  assert (0 ≤ hash_num r `mod` Z.of_nat N < Z.of_nat N) as Hm by (apply Z.mod_pos_bound; lia).
  assert (dflt r < N)%nat as Hd by (unfold dflt; lia). split; [|done].
  unfold findDefaultBlockOffset. rewrite (places_run d Hg). cbn [mbind res_mbind res_bind].
  pose proof (proj2_sig hash_sealed r) as Hh. cbv zeta in *. rewrite <-Hh. change (proj1_sig hash_sealed r) with (hash_num r). unfold umod. rewrite decide_False by lia. cbn [mbind res_mbind res_bind]. unfold mret, res_ret. f_equal.
  unfold MetadataSize. rewrite <-blk_Z, (jump_run d Hg).
  replace (hash_num r `mod` Z.of_nat N) with (Z.of_nat (dflt r)) by (unfold dflt; lia).
  rewrite <-Nat2Z.inj_mul, <-Nat2Z.inj_add. unfold off.
  replace (dflt r * (blk + B) + blk)%nat with (slot (dflt r)) by (assert (slot (dflt r) = blk + dflt r * (blk + B))%nat as -> by reflexivity; lia).
  apply wrap_id. pose proof (slot_end d _ Hg Hd). pose proof (g_max _ Hg). unfold in_width. lia.
Qed.

#[local] Opaque hdrs_at data_at meta_at headers_of NewBlockHeaders Metadata_Marshal.

(** ** Lists of headers *)

Lemma Add_spec h hs :
  (∃ l1 x l2, hs = l1 ++ x :: l2 ∧ IsNil x = true ∧ Forall (λ y, IsNil y = false) l1 ∧ Add h hs = Ok (l1 ++ h :: l2)) ∨
  Forall (λ y, IsNil y = false) hs ∧ Add h hs = Err (ErrMsg "block header is full").
Proof.
  induction hs as [|y hs IH]; [by right|]. cbn [Add]. destruct (IsNil y) eqn:E.
  - left. exists [], y, hs. done.
  - destruct IH as [(l1 & x & l2 & -> & Hx & Hl & ->)|[Hl ->]].
    + left. exists (y :: l1), x, l2. split_and!; try done. by constructor.
    + right. split; [by constructor|done].
Qed.

Definition owners (hs : BlockHeaders) : nat := length (filter (λ h, owner h = true) hs).

(** The blocks the headers of a place name. *)
Definition key (h : BlockHeader) : Z * Z * Z := (h_Volume h, h_Inode h, h_Index h).
Definition keys (hs : BlockHeaders) : list (Z * Z * Z) := key <$> filter (λ h, IsNil h = false) hs.

Lemma keys_cons h hs : keys (h :: hs) = (if IsNil h then [] else [key h]) ++ keys hs.
Proof. unfold keys. rewrite list.filter_cons. destruct (IsNil h); [by rewrite decide_False|by rewrite decide_True]. Qed.
Lemma keys_app l1 l2 : keys (l1 ++ l2) = keys l1 ++ keys l2.
Proof. unfold keys. by rewrite list.filter_app, fmap_app. Qed.
Lemma keys_elem x hs : x ∈ keys hs ↔ ∃ h, h ∈ hs ∧ IsNil h = false ∧ x = key h.
Proof.
  unfold keys. rewrite list_elem_of_fmap. split.
  - intros (h & -> & [Hn Hh]%list_elem_of_filter). eauto.
  - intros (h & Hh & Hn & ->). exists h. split; [done|by apply list_elem_of_filter].
Qed.
Lemma keys_full hs : Forall (λ h, IsNil h = false) hs → length (keys hs) = length hs.
Proof. induction 1 as [|h hs Hh _ IH]; [done|]. rewrite keys_cons, Hh. cbn. by rewrite IH. Qed.

Record added (h : BlockHeader) (hs hs' : BlockHeaders) : Prop := {
  ad_len : length hs' = length hs;
  ad_new : h ∈ hs';
  ad_old e : e ∈ hs → IsNil e = false → e ∈ hs';
  ad_only e : e ∈ hs' → e = h ∨ e ∈ hs;
  ad_owners : owners hs' = (owners hs + (if owner h then 1 else 0))%nat;
  ad_ok : header_ok h → Forall header_ok hs → Forall header_ok hs';
  ad_keys : IsNil h = false → keys hs' ≡ₚ key h :: keys hs;
}.

Lemma nil_not_owner h : IsNil h = true → owner h = false.
Proof. intros E. unfold owner. rewrite E. apply andb_false_r. Qed.

Lemma Add_added h hs hs' : Add h hs = Ok hs' → added h hs hs'.
Proof.
  intros E. destruct (Add_spec h hs) as [(l1 & x & l2 & -> & Hx & _ & E')|[_ E']]; rewrite E in E'; [|done].
  injection E' as ->. split.
  - by rewrite !length_app.
  - set_solver.
  - intros e He Hn. rewrite elem_of_app, elem_of_cons in *. destruct He as [?|[->|?]]; [tauto|congruence|tauto].
  - intros e He. rewrite elem_of_app, elem_of_cons in *. tauto.
  - unfold owners. rewrite !list.filter_app, !list.filter_cons, (nil_not_owner x Hx).
    rewrite (decide_False (P := (false = true))) by done.
    destruct (owner h); [rewrite decide_True by done|rewrite decide_False by done]; rewrite !length_app; cbn; lia.
  - intros Hh Ho. rewrite !Forall_app, !list.Forall_cons in *. tauto.
  - intros Hh. rewrite !keys_app, !keys_cons, Hh, Hx. cbn. symmetry. apply Permutation_middle.
Qed.

Lemma IsUsed_false hs : IsUsed hs = false ↔ ∀ e, e ∈ hs → owner e = false.
Proof.
  unfold IsUsed. induction hs as [|h hs IH]; cbn; [set_solver|]. rewrite orb_false_iff, IH.
  split; [intros [? ?] e [->|?]%elem_of_cons; auto|]. intros H. split; [apply H; set_solver|]. intros e He. apply H. set_solver.
Qed.

Lemma owners_0 hs : IsUsed hs = false → owners hs = 0%nat.
Proof.
  rewrite IsUsed_false. intros H. unfold owners. induction hs as [|h hs IH]; [done|]. rewrite list.filter_cons.
  rewrite (H h) by set_solver. rewrite decide_False by done. apply IH. set_solver.
Qed.

Lemma IsUsed_true hs : IsUsed hs = true → ∃ e, e ∈ hs ∧ owner e = true.
Proof. unfold IsUsed. rewrite existsb_exists. intros (e & He & Ho). exists e. by rewrite list_elem_of_In. Qed.

(** ** The invariant *)

(** The headers keep the volume without the block type, so two references that
    differ in the type only are one block for the device.  The references in use,
    [U], are assumed not to do that, and not to be the zero reference. *)
Context (U : BlockRef → Prop).
Hypothesis U_wf : ∀ r, U r → wf_blockref r ∧ IsNil (header_of r 0) = false.
Hypothesis U_inj : ∀ r r', U r → U r' → Volume r = Volume r' → INode r = INode r' → Index r = Index r' → r = r'.

(** What a header in place [s] can say: that the block is here, where it is when
    this is its place by hash, or where it was before it was deleted or a write of
    it failed. *)
Inductive entry_of (pl : gmap BlockRef nat) (X : gset BlockRef) (s : nat) : BlockHeader → Prop :=
  | E_here r : U r → pl !! r = Some s → entry_of pl X s (header_of r 0)
  | E_there r k : U r → pl !! r = Some k → k ≠ s → s = dflt r → entry_of pl X s (header_of r (off k))
  | E_gone r j : U r → r ∈ X → s = dflt r → (j < N)%nat → j ≠ s → entry_of pl X s (header_of r (off j)).

(** [pl] gives the places of the blocks, [X] the references that must not be
    written again. *)
Record placed (d : deviceBlock) (pl : gmap BlockRef nat) (X : gset BlockRef) : Prop := {
  p_geom : geom d;
  p_slot r k : pl !! r = Some k →
    U r ∧ (k < N)%nat ∧ header_of r 0 ∈ hdrs_at d k ∧ (k ≠ dflt r → header_of r (off k) ∈ hdrs_at d (dflt r));
  p_inj r r' k : pl !! r = Some k → pl !! r' = Some k → r = r';
  p_entry s e : (s < N)%nat → e ∈ hdrs_at d s → IsNil e = false → entry_of pl X s e;
  p_nil s e : (s < N)%nat → e ∈ hdrs_at d s → IsNil e = true → h_Location e = 0;
  p_once s : (s < N)%nat → (owners (hdrs_at d s) ≤ 1)%nat;
  p_keys s : (s < N)%nat → NoDup (keys (hdrs_at d s));
  p_gone r : r ∈ X → pl !! r = None;
  p_used : md_UsedBlocks (metadata d) = Z.of_nat (size pl);
  p_disk : meta_at d = Metadata_Marshal (metadata d);
  p_tail : (slot N < length (device d))%nat → (slot N + blk ≤ length (device d))%nat ∧ hdrs_at d N = NewBlockHeaders;
}.

(** The blocks of the store. *)
Definition contents (d : deviceBlock) (pl : gmap BlockRef nat) : gmap BlockRef bytes := data_at d <$> pl.

Lemma matches_header r r' l : U r → U r' → matches r (header_of r' l) = true → r' = r.
Proof.
  intros Hr Hr' E. unfold matches in E. rewrite !andb_true_iff, !bool_decide_eq_true in E. cbn in E.
  destruct E as [[? ?] ?]. by apply U_inj.
Qed.
Lemma matches_self r l : matches r (header_of r l) = true.
Proof. unfold matches. rewrite !bool_decide_true by done. done. Qed.
Lemma header_not_nil r l : U r → IsNil (header_of r l) = false.
Proof. intros Hr. apply (U_wf r Hr). Qed.
Lemma matches_not_nil r h : U r → matches r h = true → IsNil h = false.
Proof.
  intros Hr E. rewrite <-(header_not_nil r 0 Hr). unfold matches in E. rewrite !andb_true_iff, !bool_decide_eq_true in E.
  unfold IsNil. cbn. destruct E as [[-> ->] ->]. done.
Qed.
Lemma owner_here r : U r → owner (header_of r 0) = true.
Proof. intros Hr. unfold owner. by rewrite (header_not_nil r 0 Hr). Qed.
Lemma owner_there r k : owner (header_of r (off k)) = false.
Proof. unfold owner. cbn. rewrite bool_decide_false; [done|apply off_nonzero]. Qed.

Lemma header_of_ok r l : U r → u64 l → header_ok (header_of r l).
Proof.
  intros Hr Hl. destruct (U_wf r Hr) as [[[Hv Hi] Hx] _]. split_and!; try done. cbn. unfold Volume.
  destruct Hv. change VolumeMax with (Z.ones 40). rewrite Z.land_ones by lia.
  pose proof (Z.mod_pos_bound (volume r) (2 ^ 40) ltac:(lia)). split; lia.
Qed.

(** The entries that match a reference. *)
Lemma entry_match d pl X s e r :
  placed d pl X → (s < N)%nat → U r → e ∈ hdrs_at d s → matches r e = true →
  (pl !! r = Some s ∧ h_Location e = 0) ∨
  (∃ j, h_Location e = off j ∧ (j < N)%nat ∧ j ≠ s ∧ s = dflt r ∧ (pl !! r = Some j ∨ pl !! r = None)).
Proof.
  intros Hp Hs Hr He Hm. pose proof (p_entry _ _ _ Hp s e Hs He (matches_not_nil r e Hr Hm)) as Hn.
  destruct Hn as [r' Hr' Hk|r' k Hr' Hk Hne Hd|r' j Hr' Hx Hd Hj Hne];
    apply (matches_header r r' _ Hr Hr') in Hm; subst r'.
  - left. split; [exact Hk|reflexivity].
  - right. exists k. split; [reflexivity|]. split_and!; [apply (p_slot _ _ _ Hp _ _ Hk)|exact Hne|exact Hd|left; exact Hk].
  - right. exists j. split; [reflexivity|]. split_and!; [exact Hj|exact Hne|exact Hd|right; exact (p_gone _ _ _ Hp r Hx)].
Qed.

Lemma list_find_matches r hs :
  match list_find (λ h, matches r h) hs with
  | Some (_, h) => h ∈ hs ∧ matches r h = true
  | None => ∀ h, h ∈ hs → matches r h = false
  end.
Proof.
  destruct (list_find (λ h, matches r h) hs) as [[i h]|] eqn:E.
  - apply list_find_Some in E as (Hi & Hm & _). split; [by eapply list_elem_of_lookup_2|by apply Is_true_true].
  - apply list_find_None in E. rewrite list.Forall_forall in E. intros h Hh. apply E in Hh. by apply Is_true_false.
Qed.

(** In the place of a block its own header is found. *)
Lemma find_here d pl X r k f :
  placed d pl X → pl !! r = Some k → findReal_fuel (Datatypes.S f) r (off k) d = (Ok (Some (off k)), d).
Proof.
  intros Hp Hk. destruct (p_slot _ _ _ Hp _ _ Hk) as (Hr & HkN & Hin & _). cbn [findReal_fuel].
  rewrite (bind_step _ _ _ _ _ (readBlockHeader_run d k (p_geom _ _ _ Hp) HkN)).
  pose proof (list_find_matches r (hdrs_at d k)) as Hf. destruct (list_find _ (hdrs_at d k)) as [[i h]|].
  - destruct Hf as [He Hm]. destruct (entry_match d pl X k h r Hp HkN Hr He Hm) as [[_ ->]|(j & _ & _ & Hj & _ & [?|?])].
    + by rewrite decide_True.
    + congruence.
    + congruence.
  - specialize (Hf _ Hin). by rewrite matches_self in Hf.
Qed.

Lemma find_run d pl X r : placed d pl X → U r → findBlockOffset r d = (Ok (off <$> pl !! r), d).
Proof.
  intros Hp Hr. pose proof (p_geom _ _ _ Hp) as Hg. destruct (default_run d r Hg) as [Hd HdN].
  unfold findBlockOffset. rewrite (bind_step get _ d d d eq_refl). unfold lift.
  rewrite (bind_step _ _ _ _ _ (f_equal (λ x, (x, d)) Hd)).
  unfold findRealBlockOffset. rewrite (bind_step get _ d d d eq_refl).
  destruct (decide (pl !! r = Some (dflt r))) as [E|Hne]; [rewrite E; by apply (find_here d pl X)|].
  cbn [findReal_fuel]. rewrite (bind_step _ _ _ _ _ (readBlockHeader_run d _ Hg HdN)).
  pose proof (list_find_matches r (hdrs_at d (dflt r))) as Hf. destruct (list_find _ (hdrs_at d (dflt r))) as [[i h]|].
  - destruct Hf as [He Hm]. destruct (entry_match d pl X _ h r Hp HdN Hr He Hm) as [[? _]|(j & Hl & Hj & Hjd & _ & Hc)]; [done|].
    rewrite Hl, decide_False by apply off_nonzero. destruct Hc as [Hc|Hc].
    + rewrite Hc. by apply (find_here d pl X).
    + rewrite Hc. cbn [findReal_fuel]. rewrite (bind_step _ _ _ _ _ (readBlockHeader_run d j Hg Hj)).
      pose proof (list_find_matches r (hdrs_at d j)) as Hf. destruct (list_find _ (hdrs_at d j)) as [[i' h']|]; [|done].
      destruct Hf as [He' Hm']. exfalso.
      destruct (entry_match d pl X j h' r Hp Hj Hr He' Hm') as [[? _]|(? & _ & _ & _ & ? & _)]; congruence.
  - destruct (pl !! r) as [k|] eqn:E; [|done]. exfalso. destruct (p_slot _ _ _ Hp _ _ E) as (_ & _ & _ & Hin).
    specialize (Hf _ (Hin ltac:(congruence))). by rewrite matches_self in Hf.
Qed.

(** ** Keeping the invariant *)

(** A write that leaves the headers and the metadata alone. *)
Lemma placed_frame d d' pl X :
  placed d pl X → geom d' → metadata d' = metadata d → meta_at d' = meta_at d → length (device d') = length (device d) →
  (∀ j, (slot j + blk ≤ length (device d))%nat → hdrs_at d' j = hdrs_at d j) → placed d' pl X.
Proof.
  intros Hp Hg Hm Hma Hl Hh. pose proof (p_geom _ _ _ Hp) as Hg0.
  assert (∀ s, (s < N)%nat → hdrs_at d' s = hdrs_at d s) as Hs.
  { intros s Hs. apply Hh. pose proof (slot_end d s Hg0 Hs). lia. }
  destruct Hp. split; try done.
  - intros r k Hk. destruct (p_slot0 r k Hk) as (? & ? & ? & ?). destruct (default_run d r Hg0) as [_ ?]. by rewrite !Hs.
  - intros s e HsN. rewrite Hs by done. by apply p_entry0.
  - intros s e HsN. rewrite Hs by done. by apply p_nil0.
  - intros s HsN. rewrite Hs by done. by apply p_once0.
  - intros s HsN. rewrite Hs by done. by apply p_keys0.
  - by rewrite Hm.
  - by rewrite Hma, Hm.
  - intros Ht. rewrite Hl in *. destruct (p_tail0 Ht) as [Ht1 Ht2]. split; [done|]. by rewrite Hh.
Qed.

Lemma entry_of_mono pl X X' s e : X ⊆ X' → entry_of pl X s e → entry_of pl X' s e.
Proof.
  intros Hx [r ? ?|r k ? ? ? ?|r j ? ? ? ? ?]; [by apply E_here|by apply (E_there pl X' s r k)|].
  apply E_gone; [done|by apply Hx|done..].
Qed.

(** A reference without a block may be given up. *)
Lemma placed_give_up d pl X r : placed d pl X → pl !! r = None → placed d pl ({[r]} ∪ X).
Proof.
  intros [] Hr. split; try done.
  - intros s e Hs He Hn. eapply entry_of_mono; [apply union_subseteq_r|by apply p_entry0].
  - intros r' [->%elem_of_singleton|?]%elem_of_union; [done|by apply p_gone0].
Qed.

(** Every header names a block that is stored or given up. *)
Lemma key_named d pl X s x :
  placed d pl X → (s < N)%nat → x ∈ keys (hdrs_at d s) →
  ∃ r, U r ∧ r ∈ dom pl ∪ X ∧ x = (Volume r, INode r, Index r).
Proof.
  intros Hp Hs (h & Hh & Hn & ->)%keys_elem.
  destruct (p_entry _ _ _ Hp s h Hs Hh Hn) as [r Hr E|r k Hr E|r j Hr Hx]; exists r; (split; [done|]); (split; [|done]).
  - by apply elem_of_union_l, elem_of_dom.
  - by apply elem_of_union_l, elem_of_dom.
  - by apply elem_of_union_r.
Qed.
Lemma key_new d pl X s r l : placed d pl X → (s < N)%nat → U r → pl !! r = None → r ∉ X → key (header_of r l) ∉ keys (hdrs_at d s).
Proof.
  intros Hp Hs Hr Hn HX Hk. destruct (key_named d pl X s _ Hp Hs Hk) as (r' & Hr' & Hin & [= Hv Hi Hx]).
  assert (r' = r) as -> by (by apply U_inj). apply elem_of_union in Hin as [[k E]%elem_of_dom|?]; [congruence|done].
Qed.
Lemma keys_added d pl X s r l hs :
  placed d pl X → (s < N)%nat → U r → pl !! r = None → r ∉ X → added (header_of r l) (hdrs_at d s) hs → NoDup (keys hs).
Proof.
  intros Hp Hs Hr Hn HX A. rewrite (ad_keys _ _ _ A) by apply (U_wf r Hr). apply list.NoDup_cons.
  split; [by eapply key_new|by apply (p_keys _ _ _ Hp)].
Qed.

(** A place whose headers are all taken. *)
Lemma headers_full d pl X s h e :
  placed d pl X → (s < N)%nat → Add h (hdrs_at d s) = Err e → (nHeaders ≤ size (dom pl ∪ X))%nat.
Proof.
  intros Hp Hs Ha. destruct (Add_spec h (hdrs_at d s)) as [(?&?&?&_&_&_&E)|[Hf _]]; [congruence|].
  rewrite <-(length_hdrs_at d s), <-(keys_full _ Hf). unfold size, set_size. cbn.
  rewrite <-(length_fmap (λ r : BlockRef, (Volume r, INode r, Index r)) (elements (dom pl ∪ X))).
  apply submseteq_length, NoDup_submseteq; [by apply (p_keys _ _ _ Hp)|].
  intros x Hx. destruct (key_named d pl X s x Hp Hs Hx) as (r & _ & Hr & ->). apply list_elem_of_fmap. exists r.
  split; [done|by apply elem_of_elements].
Qed.

(** No block is in a place without an owner. *)
Lemma unused_free d pl X k r : placed d pl X → IsUsed (hdrs_at d k) = false → pl !! r ≠ Some k.
Proof.
  intros Hp Hu E. destruct (p_slot _ _ _ Hp _ _ E) as (Hr & _ & Hin & _).
  rewrite IsUsed_false in Hu. apply Hu in Hin. by rewrite (owner_here r Hr) in Hin.
Qed.

(** A new block in the unused place [k]. *)
Record inserted (d d' : deviceBlock) (r : BlockRef) (k : nat) : Prop := {
  in_geom : geom d';
  in_used : md_UsedBlocks (metadata d') = md_UsedBlocks (metadata d) + 1;
  in_disk : meta_at d' = Metadata_Marshal (metadata d');
  in_len : length (device d') = length (device d);
  in_tail : (slot N + blk ≤ length (device d))%nat → hdrs_at d' N = hdrs_at d N;
  in_only s e : (s < N)%nat → e ∈ hdrs_at d' s →
    e ∈ hdrs_at d s ∨ (s = k ∧ e = header_of r 0) ∨ (s = dflt r ∧ k ≠ s ∧ e = header_of r (off k));
  in_old s e : (s < N)%nat → e ∈ hdrs_at d s → IsNil e = false → e ∈ hdrs_at d' s;
  in_here : header_of r 0 ∈ hdrs_at d' k;
  in_there : k ≠ dflt r → header_of r (off k) ∈ hdrs_at d' (dflt r);
  in_keys s : (s < N)%nat → hdrs_at d' s = hdrs_at d s ∨ ∃ l, added (header_of r l) (hdrs_at d s) (hdrs_at d' s);
  in_owners s : (s < N)%nat → owners (hdrs_at d' s) = (owners (hdrs_at d s) + if decide (s = k) then 1 else 0)%nat;
}.

Lemma placed_insert d d' pl X r k :
  placed d pl X → inserted d d' r k → U r → pl !! r = None → r ∉ X → (k < N)%nat → IsUsed (hdrs_at d k) = false →
  placed d' (<[r := k]> pl) X.
Proof.
  intros Hp Hi Hr Hn HX Hk Hu. pose proof (p_geom _ _ _ Hp) as Hg. pose proof (λ r', unused_free d pl X k r' Hp Hu) as Hfree.
  destruct Hi. split.
  - exact in_geom0.
  - intros r' k' [[<- <-]|[Hne E]]%lookup_insert_Some; [exact (conj Hr (conj Hk (conj in_here0 in_there0)))|].
    destruct (p_slot _ _ _ Hp _ _ E) as (Hr' & Hk' & Hh & Ht). destruct (default_run d r' Hg) as [_ Hd].
    split_and!; [done|done|apply in_old0; [done|done|by apply header_not_nil]|].
    intros ?. apply in_old0; [done|by apply Ht|by apply header_not_nil].
  - intros r1 r2 k' [[<- <-]|[? E1]]%lookup_insert_Some [[<- E2]|[? E2]]%lookup_insert_Some.
    + reflexivity.
    + by apply Hfree in E2.
    + subst. by apply Hfree in E1.
    + by eapply (p_inj _ _ _ Hp).
  - intros s e Hs He Hnil. destruct (in_only0 s e Hs He) as [He'|[[-> ->]|(-> & Hne & ->)]].
    + destruct (p_entry _ _ _ Hp s e Hs He' Hnil) as [r' ? E|r' k' ? E|r' j ? Hx].
      * apply E_here; [done|]. rewrite lookup_insert_ne; [done|congruence].
      * apply (E_there _ _ s r' k'); [done| |done..]. rewrite lookup_insert_ne; [done|congruence].
      * by apply E_gone.
    + apply E_here; [done|]. apply lookup_insert_eq.
    + apply (E_there _ _ _ r k); [done|apply lookup_insert_eq|done..].
  - intros s e Hs He Hnil. destruct (in_only0 s e Hs He) as [He'|[[-> ->]|(-> & Hne & ->)]].
    + by apply (p_nil _ _ _ Hp s).
    + by rewrite header_not_nil in Hnil.
    + by rewrite header_not_nil in Hnil.
  - intros s Hs. rewrite in_owners0 by done. case_decide as E; [subst; by rewrite (owners_0 _ Hu)|].
    pose proof (p_once _ _ _ Hp s Hs). lia.
  - intros s Hs. destruct (in_keys0 s Hs) as [->|[l A]]; [by apply (p_keys _ _ _ Hp)|by eapply keys_added].
  - intros r' Hx. rewrite lookup_insert_ne by (by intros ->). by apply (p_gone _ _ _ Hp).
  - rewrite in_used0, (p_used _ _ _ Hp), map_size_insert_None by exact Hn. lia.
  - exact in_disk0.
  - intros Ht. rewrite in_len0 in *. destruct (p_tail _ _ _ Hp Ht) as [Ht1 Ht2]. split; [done|]. by rewrite in_tail0.
Qed.

(** The places in use are different places of the device. *)
Lemma places_used d pl X :
  placed d pl X → NoDup (map_to_list pl).*2 ∧ (map_to_list pl).*2 ⊆ seq 0 N ∧ length (map_to_list pl).*2 = size pl.
Proof.
  intros Hp. split_and!.
  - apply NoDup_fmap_2_strong; [|apply NoDup_map_to_list].
    intros [r i] [r' i'] E%elem_of_map_to_list E'%elem_of_map_to_list Heq. cbn in *. subst.
    f_equal. exact (p_inj _ _ _ Hp _ _ _ E E').
  - intros k ([r j] & -> & E%elem_of_map_to_list)%list_elem_of_fmap. destruct (p_slot _ _ _ Hp _ _ E) as (_ & ? & _).
    apply elem_of_seq. cbn. lia.
  - rewrite length_fmap. apply length_map_to_list.
Qed.

Lemma size_bound d pl X : placed d pl X → (size pl ≤ N)%nat.
Proof.
  intros Hp. destruct (places_used d pl X Hp) as (Hnd & Hs & <-). rewrite <-(length_seq N 0).
  by apply submseteq_length, NoDup_submseteq.
Qed.

(** When every place has an owner there are as many blocks as places. *)
Lemma all_used_full d pl X : placed d pl X → (∀ s, (s < N)%nat → IsUsed (hdrs_at d s) = true) → size pl = N.
Proof.
  intros Hp Hall. pose proof (size_bound d pl X Hp) as Hb. destruct (places_used d pl X Hp) as (Hnd & Hs & Hl).
  enough (N ≤ size pl)%nat by lia. rewrite <-Hl. rewrite <-(length_seq N 0) at 1.
  apply submseteq_length, NoDup_submseteq; [apply NoDup_seq|]. intros s [_ Hlt]%elem_of_seq.
  destruct (IsUsed_true _ (Hall s Hlt)) as (e & He & Ho).
  assert (IsNil e = false) as Hn by (unfold owner in Ho; by destruct (IsNil e); [rewrite andb_false_r in Ho|]).
  destruct (p_entry _ _ _ Hp s e Hlt He Hn) as [r Hr E|r k ? ? ? ?|r j ? ? ? ? ?].
  - apply list_elem_of_fmap. exists (r, s). split; [reflexivity|by apply elem_of_map_to_list].
  - rewrite owner_there in Ho. discriminate Ho.
  - rewrite owner_there in Ho. discriminate Ho.
Qed.

Lemma count_u64 d pl X n : placed d pl X → -1 ≤ n ≤ 1 → 0 ≤ Z.of_nat (size pl) + n → u64 (md_UsedBlocks (metadata d) + n).
Proof.
  intros Hp Hn H0. rewrite (p_used _ _ _ Hp). pose proof (size_bound d pl X Hp). pose proof (g_max _ (p_geom _ _ _ Hp)).
  pose proof (g_fit _ (p_geom _ _ _ Hp)) as [Hf _]. assert (N ≤ slot N)%nat.
  { assert (slot N = blk + N * (blk + B))%nat as -> by reflexivity. pose proof blk_pos. nia. }
  split; lia.
Qed.

Lemma off_u64 d k : geom d → (k < N)%nat → u64 (off k).
Proof. intros Hg Hk. pose proof (slot_end d k Hg Hk). pose proof (g_max _ Hg). unfold off. split; lia. Qed.

(** ** The two ways to write a new block *)

Lemma write_default_run d pl X r data :
  placed d pl X → U r → pl !! r = None → r ∉ X → length data = B → IsUsed (hdrs_at d (dflt r)) = false →
  ∃ o d', write_default r data (hdrs_at d (dflt r)) (off (dflt r)) d = (o, d') ∧
    ((o = Ok tt ∧ placed d' (<[r := dflt r]> pl) X ∧ contents d' (<[r := dflt r]> pl) = <[r := data]> (contents d pl)) ∨
     (o = Err (ErrMsg "block header is full") ∧ (nHeaders ≤ size (dom pl ∪ X))%nat ∧ placed d' pl X ∧ contents d' pl = contents d pl)).
Proof.
  intros Hp Hr Hn HX Hl Hu. pose proof (p_geom _ _ _ Hp) as Hg. destruct (default_run d r Hg) as [_ Hd].
  set (s := dflt r) in *.
  destruct (writeData_run d s data Hg Hd Hl) as (d1 & E1 & Hg1 & Hm1 & Hma1 & _ & _ & Hl1 & Hd1 & Hh1 & Ho1).
  assert (placed d1 pl X) as Hp1 by (by eapply placed_frame).
  assert (contents d1 pl = contents d pl) as Hc1.
  { apply map_fmap_ext. intros r' k Hk. destruct (p_slot _ _ _ Hp _ _ Hk) as (_ & ? & _). apply Ho1; [|done].
    intros ->. by apply (unused_free d pl X s r' Hp Hu). }
  pose proof (slot_end d s Hg Hd) as Hse.
  unfold write_default. rewrite (bind_step _ _ _ _ _ E1). unfold lift.
  destruct (Add (header_of r 0) (hdrs_at d s)) as [hs|e|] eqn:Ea.
  2: { pose proof (headers_full d pl X s _ _ Hp Hd Ea) as Hfull.
       destruct (Add_spec (header_of r 0) (hdrs_at d s)) as [(?&?&?&_&_&_&E)|[_ E]]; [congruence|].
       rewrite E in Ea. injection Ea as <-. do 2 eexists. split; [reflexivity|]. right. split_and!; done. }
  2: { destruct (Add_spec (header_of r 0) (hdrs_at d s)) as [(?&?&?&_&_&_&E)|[_ E]]; congruence. }
  pose proof (Add_added _ _ _ Ea) as A. rewrite (bind_step _ _ d1 hs d1 eq_refl).
  assert (hdrs_at d1 s = hdrs_at d s) as Hs1 by (apply Hh1; lia).
  destruct (writeBlockHeader_run d1 s hs Hg1 Hd) as (d2 & E2 & Hg2 & Hm2 & Hma2 & _ & _ & Hl2 & Hs2 & Hh2 & Hd2).
  { by rewrite (ad_len _ _ _ A), length_hdrs_at. }
  { apply (ad_ok _ _ _ A); [apply header_of_ok; [done|split; lia]|by apply hdrs_at_ok]. }
  rewrite (bind_step _ _ _ _ _ E2). unfold incrementUsedBlocks.
  destruct (used_run 1 d2 Hg2) as (d3 & E3 & Hg3 & Hu3 & _ & Hma3 & _ & _ & Hl3 & Hh3 & Hd3).
  { rewrite Hm2. apply (count_u64 d1 pl X 1 Hp1); lia. }
  assert (∀ j, (slot j + blk ≤ length (device d))%nat → hdrs_at d3 j = if decide (j = s) then hs else hdrs_at d j) as Hh.
  { intros j Hj. rewrite Hh3 by lia. case_decide as E; [by subst|]. rewrite Hh2 by lia. rewrite Hh1 by lia. reflexivity. }
  assert (∀ j, (j < N)%nat → hdrs_at d3 j = if decide (j = s) then hs else hdrs_at d j) as HhN.
  { intros j Hj. apply Hh. pose proof (slot_end d j Hg Hj). lia. }
  do 2 eexists. split; [exact E3|]. left. split; [reflexivity|]. split.
  - apply (placed_insert d d3 pl X r s Hp); [|done..]. split; try done.
    + by rewrite Hu3, Hm2, Hm1.
    + by rewrite Hl3, Hl2, Hl1.
    + intros Ht. rewrite Hh, decide_False by (first [lia | done]). reflexivity.
    + intros j e Hj. rewrite HhN by done. case_decide as E; [|by left]. subst j.
      intros [->|?]%(ad_only _ _ _ A); [by right; left|by left].
    + intros j e Hj He Hne. rewrite HhN by done. case_decide as E; [|done]. subst j. by apply (ad_old _ _ _ A).
    + rewrite HhN, decide_True by done. apply (ad_new _ _ _ A).
    + intros j Hj. rewrite HhN by done. case_decide as E; [|by left]. subst j. right. by exists 0.
    + intros j Hj. rewrite HhN by done. case_decide as E; [|lia]. subst j.
      by rewrite (ad_owners _ _ _ A), (owner_here r Hr).
  - unfold contents. rewrite fmap_insert. f_equal.
    + by rewrite Hd3, Hd2 by done.
    + apply map_fmap_ext. intros r' k Hk. destruct (p_slot _ _ _ Hp _ _ Hk) as (_ & HkN & _).
      rewrite Hd3, Hd2 by done. apply Ho1; [|done]. intros ->. by apply (unused_free d pl X s r' Hp Hu).
Qed.

Lemma Add_fails h hs e : Add h hs = Err e → e = ErrMsg "block header is full".
Proof. intros E. destruct (Add_spec h hs) as [(?&?&?&_&_&_&E')|[_ E']]; congruence. Qed.
Lemma Add_no_panic h hs : Add h hs ≠ Panic.
Proof. destruct (Add_spec h hs) as [(?&?&?&_&_&_&E')|[_ E']]; congruence. Qed.

(** The headers of place [k] after [Add] are written. *)
Lemma add_header_run d k h hs :
  geom d → (k < N)%nat → header_ok h → Add h (hdrs_at d k) = Ok hs →
  ∃ d', writeBlockHeader hs (off k) d = (Ok tt, d') ∧ geom d' ∧ metadata d' = metadata d ∧ meta_at d' = meta_at d ∧
    length (device d') = length (device d) ∧
    (∀ j, (slot j + blk ≤ length (device d))%nat → hdrs_at d' j = if decide (j = k) then hs else hdrs_at d j) ∧
    (∀ j, (j < N)%nat → data_at d' j = data_at d j).
Proof.
  intros Hg Hk Hok Ea. pose proof (Add_added _ _ _ Ea) as A.
  destruct (writeBlockHeader_run d k hs Hg Hk) as (d' & E & Hg' & Hm & Hma & _ & _ & Hl & Hs & Hh & Hd).
  { by rewrite (ad_len _ _ _ A), length_hdrs_at. }
  { apply (ad_ok _ _ _ A); [done|by apply hdrs_at_ok]. }
  exists d'. split_and!; try done. intros j Hj. case_decide as E'; [by subst|by apply Hh].
Qed.

(** A pointer without its block: the reference is given up. *)
Lemma placed_pointer d d' pl X r k hs :
  placed d pl X → U r → pl !! r = None → r ∉ X → (k < N)%nat → k ≠ dflt r →
  geom d' → metadata d' = metadata d → meta_at d' = meta_at d → length (device d') = length (device d) →
  added (header_of r (off k)) (hdrs_at d (dflt r)) hs →
  (∀ j, (slot j + blk ≤ length (device d))%nat → hdrs_at d' j = if decide (j = dflt r) then hs else hdrs_at d j) →
  placed d' pl ({[r]} ∪ X).
Proof.
  intros Hp Hr Hn HX Hk Hkd Hg' Hm Hma Hl A Hh. pose proof (p_geom _ _ _ Hp) as Hg.
  destruct (default_run d r Hg) as [_ Hd].
  assert (∀ s, (s < N)%nat → hdrs_at d' s = if decide (s = dflt r) then hs else hdrs_at d s) as Hs.
  { intros s Hs. apply Hh. pose proof (slot_end d s Hg Hs). lia. }
  assert (∀ s e, (s < N)%nat → e ∈ hdrs_at d s → IsNil e = false → e ∈ hdrs_at d' s) as Hold.
  { intros s e HsN He Hnil. rewrite Hs by done. case_decide as E; [|done]. subst s. by apply (ad_old _ _ _ A). }
  assert (∀ s e, e ∈ hdrs_at d' s → (s < N)%nat → e ∈ hdrs_at d s ∨ s = dflt r ∧ e = header_of r (off k)) as Honly.
  { intros s e He HsN. rewrite Hs in He by done. case_decide as E; [|by left]. subst s.
    apply (ad_only _ _ _ A) in He as [->|?]; [by right|by left]. }
  split.
  - exact Hg'.
  - intros r' k' E. destruct (p_slot _ _ _ Hp _ _ E) as (Hr' & Hk' & Hh' & Ht). destruct (default_run d r' Hg) as [_ Hd'].
    split_and!; [done|done|apply Hold; [done|done|by apply header_not_nil]|].
    intros ?. apply Hold; [done|by apply Ht|by apply header_not_nil].
  - apply (p_inj _ _ _ Hp).
  - intros s e HsN He Hnil. destruct (Honly s e He HsN) as [He'|[-> ->]].
    + eapply entry_of_mono; [apply union_subseteq_r|]. by apply (p_entry _ _ _ Hp).
    + apply E_gone; [done|set_solver|done..].
  - intros s e HsN He Hnil. destruct (Honly s e He HsN) as [He'|[-> ->]]; [by apply (p_nil _ _ _ Hp s)|].
    by rewrite header_not_nil in Hnil.
  - intros s HsN. rewrite Hs by done. case_decide as E; [|by apply (p_once _ _ _ Hp)]. subst s.
    rewrite (ad_owners _ _ _ A), owner_there. pose proof (p_once _ _ _ Hp _ Hd). lia.
  - intros s HsN. rewrite Hs by done. case_decide as E; [subst s; by eapply keys_added|by apply (p_keys _ _ _ Hp)].
  - intros r' [->%elem_of_singleton|?]%elem_of_union; [done|by apply (p_gone _ _ _ Hp)].
  - rewrite Hm. apply (p_used _ _ _ Hp).
  - rewrite Hma, Hm. apply (p_disk _ _ _ Hp).
  - intros Ht. rewrite Hl in *. destruct (p_tail _ _ _ Hp Ht) as [Ht1 Ht2]. split; [done|].
    by rewrite Hh, decide_False by lia.
Qed.

Lemma elsewhere_inserted d d' r k hs hs' :
  geom d → geom d' → U r → (k < N)%nat → k ≠ dflt r →
  md_UsedBlocks (metadata d') = md_UsedBlocks (metadata d) + 1 → meta_at d' = Metadata_Marshal (metadata d') →
  length (device d') = length (device d) →
  added (header_of r (off k)) (hdrs_at d (dflt r)) hs → added (header_of r 0) (hdrs_at d k) hs' →
  (∀ j, (slot j + blk ≤ length (device d))%nat →
    hdrs_at d' j = if decide (j = k) then hs' else if decide (j = dflt r) then hs else hdrs_at d j) →
  inserted d d' r k.
Proof.
  intros Hg Hg' Hr Hk Hkd Hu Hma Hl A A' Hh. destruct (default_run d r Hg) as [_ Hd].
  assert (∀ j, (j < N)%nat →
    hdrs_at d' j = if decide (j = k) then hs' else if decide (j = dflt r) then hs else hdrs_at d j) as HhN.
  { intros j Hj. apply Hh. pose proof (slot_end d j Hg Hj). lia. }
  split; try done.
  - intros Ht. by rewrite Hh, !decide_False by lia.
  - intros j e Hj He. rewrite HhN in He by done. repeat case_decide; subst; [| |by left].
    + apply (ad_only _ _ _ A') in He as [->|?]; [by right; left|by left].
    + apply (ad_only _ _ _ A) in He as [->|?]; [by right; right|by left].
  - intros j e Hj He Hne. rewrite HhN by done.
    repeat case_decide; subst; [by apply (ad_old _ _ _ A')|by apply (ad_old _ _ _ A)|done].
  - rewrite HhN, decide_True by done. apply (ad_new _ _ _ A').
  - intros _. rewrite HhN, decide_False, decide_True by done. apply (ad_new _ _ _ A).
  - intros j Hj. rewrite HhN by done. repeat case_decide; subst; [right; by exists 0|right; by eexists|by left].
  - intros j Hj. rewrite HhN by done. repeat case_decide; subst; [| |lia].
    + by rewrite (ad_owners _ _ _ A'), (owner_here r Hr).
    + rewrite (ad_owners _ _ _ A), owner_there. lia.
Qed.

Lemma write_elsewhere_run d pl X r data k :
  placed d pl X → U r → pl !! r = None → r ∉ X → length data = B → (k < N)%nat → k ≠ dflt r → IsUsed (hdrs_at d k) = false →
  ∃ o d', write_elsewhere r data (hdrs_at d (dflt r)) (off (dflt r)) (hdrs_at d k) (off k) d = (o, d') ∧
    ((o = Ok tt ∧ placed d' (<[r := k]> pl) X ∧ contents d' (<[r := k]> pl) = <[r := data]> (contents d pl)) ∨
     (o = Err (ErrMsg "block header is full") ∧ (nHeaders ≤ size (dom pl ∪ X))%nat ∧ placed d' pl ({[r]} ∪ X) ∧
      contents d' pl = contents d pl)).
Proof.
  intros Hp Hr Hn HX Hl Hk Hkd Hu. pose proof (p_geom _ _ _ Hp) as Hg. destruct (default_run d r Hg) as [_ Hd].
  set (s := dflt r) in *. pose proof (slot_end d s Hg Hd) as Hse. pose proof (slot_end d k Hg Hk) as Hke.
  assert (∀ r', pl !! r' ≠ Some k) as Hfree by (intros r'; by apply (unused_free d pl X)).
  destruct (writeData_run d k data Hg Hk Hl) as (d1 & E1 & Hg1 & Hm1 & Hma1 & _ & _ & Hl1 & Hd1 & Hh1 & Ho1).
  assert (placed d1 pl X) as Hp1 by (by eapply placed_frame).
  unfold write_elsewhere. rewrite (bind_step _ _ _ _ _ E1). unfold lift.
  assert (∀ d', (∀ j, (j < N)%nat → data_at d' j = data_at d1 j) → contents d' pl = contents d pl) as Hc.
  { intros d' Hsame. apply map_fmap_ext. intros r' j Hj. destruct (p_slot _ _ _ Hp _ _ Hj) as (_ & ? & _).
    rewrite Hsame by done. apply Ho1; [|done]. intros ->. by apply (Hfree r'). }
  destruct (Add (header_of r (off k)) (hdrs_at d s)) as [hs|e|] eqn:Ea; [| |by apply Add_no_panic in Ea].
  2: { pose proof (headers_full d pl X s _ _ Hp Hd Ea) as Hfull. apply Add_fails in Ea as ->. do 2 eexists. split; [reflexivity|]. right. split_and!; [done|done|by apply placed_give_up|by apply Hc]. }
  pose proof (Add_added _ _ _ Ea) as A. rewrite (bind_step _ _ d1 hs d1 eq_refl). rewrite <-(Hh1 s) in Ea by lia.
  destruct (add_header_run d1 s _ hs Hg1 Hd (header_of_ok r (off k) Hr (off_u64 d k Hg Hk)) Ea)
    as (d2 & E2 & Hg2 & Hm2 & Hma2 & Hl2 & Hh2 & Hd2).
  rewrite (bind_step _ _ _ _ _ E2). assert (hdrs_at d2 k = hdrs_at d k) as Hk2.
  { rewrite Hh2, decide_False by (first [lia | done]). apply Hh1. lia. }
  destruct (Add (header_of r 0) (hdrs_at d k)) as [hs'|e|] eqn:Ea'; [| |by apply Add_no_panic in Ea'].
  2: { pose proof (headers_full d pl X k _ _ Hp Hk Ea') as Hfull. apply Add_fails in Ea' as ->.
       do 2 eexists. split; [reflexivity|]. right. split_and!; [done|done| |by apply Hc].
       apply (placed_pointer d1 d2 pl X r k hs); [done..| |]; [fold s; rewrite Hh1 by lia; exact A|]. intros j Hj. by apply Hh2. }
  pose proof (Add_added _ _ _ Ea') as A'. rewrite (bind_step _ _ d2 hs' d2 eq_refl). rewrite <-Hk2 in Ea'.
  destruct (add_header_run d2 k _ hs' Hg2 Hk (header_of_ok r 0 Hr ltac:(split; lia)) Ea')
    as (d3 & E3 & Hg3 & Hm3 & Hma3 & Hl3 & Hh3 & Hd3).
  rewrite (bind_step _ _ _ _ _ E3). unfold incrementUsedBlocks.
  destruct (used_run 1 d3 Hg3) as (d4 & E4 & Hg4 & Hu4 & _ & Hma4 & _ & _ & Hl4 & Hh4 & Hd4).
  { rewrite Hm3, Hm2. apply (count_u64 d1 pl X 1 Hp1); lia. }
  assert (∀ j, (slot j + blk ≤ length (device d))%nat →
    hdrs_at d4 j = if decide (j = k) then hs' else if decide (j = s) then hs else hdrs_at d j) as Hh.
  { intros j Hj. rewrite Hh4, Hh3 by lia. case_decide; [done|]. rewrite Hh2 by lia. case_decide; [done|]. apply Hh1. lia. }
  assert (∀ j, (j < N)%nat →
    hdrs_at d4 j = if decide (j = k) then hs' else if decide (j = s) then hs else hdrs_at d j) as HhN.
  { intros j Hj. apply Hh. pose proof (slot_end d j Hg Hj). lia. }
  assert (∀ j, (j < N)%nat → data_at d4 j = data_at d1 j) as HdN by (intros j Hj; by rewrite Hd4, Hd3, Hd2).
  do 2 eexists. split; [exact E4|]. left. split; [reflexivity|]. split.
  - apply (placed_insert d d4 pl X r k Hp); [|done..].
    apply (elsewhere_inserted d d4 r k hs hs'); try done; [by rewrite Hu4, Hm3, Hm2, Hm1|by rewrite Hl4, Hl3, Hl2, Hl1].
  - unfold contents. rewrite fmap_insert. f_equal; [by rewrite HdN|]. by apply Hc.
Qed.

(** ** The search for an unused place *)

Definition next_slot (c : nat) : nat := (Datatypes.S c mod N)%nat.

Lemma wrap_around d c : geom d → (c ≤ N)%nat →
  (if decide (wrap64 (deviceSize d - jump d) < off c) then MetadataSize else off c) = off (c mod N)%nat.
Proof.
  intros Hg Hc. pose proof (g_N _ Hg) as HN. pose proof (g_fit _ Hg) as [Hf _]. pose proof (g_max _ Hg).
  rewrite (jump_run d Hg), (g_size _ Hg). pose proof (slot_lt 0 N HN). pose proof (slot_first 0). pose proof (slot_first c).
  rewrite wrap_id by (unfold in_width; lia). destruct (decide (c = N)) as [->|Hne].
  - rewrite decide_True; [|unfold off; pose proof (g_fit _ Hg) as [_ Hs]; rewrite slot_S in Hs; lia].
    rewrite Nat.Div0.mod_same. unfold MetadataSize, off. rewrite <-blk_Z.
    assert (slot 0 = blk)%nat as -> by (assert (slot 0 = blk + 0 * (blk + B))%nat as -> by reflexivity; lia). reflexivity.
  - pose proof (slot_lt c N ltac:(lia)). rewrite decide_False by (unfold off; lia). by rewrite Nat.mod_small by lia.
Qed.

Lemma off_next d c : geom d → (c < N)%nat → wrap64 (off c + jump d) = off (Datatypes.S c).
Proof.
  intros Hg Hc. rewrite (jump_run d Hg). unfold off. rewrite slot_S. pose proof (slot_end d c Hg Hc). pose proof (g_max _ Hg).
  rewrite wrap_id by (unfold in_width; lia). lia.
Qed.

(** From place [c], [n] places before [s]: the first unused one is taken. *)
Lemma find_unused_run d r data hs s : geom d → (s < N)%nat → ∀ n f c,
  (c ≤ N)%nat → (n < N)%nat → ((c + n) mod N = s)%nat → (n < f)%nat →
  (find_unused f r data hs (off s) (off c) d = (Err (ErrMsg "device is full"), d) ∧
     ∀ i, (i < n)%nat → IsUsed (hdrs_at d ((c + i) mod N)) = true) ∨
  (∃ k, (k < N)%nat ∧ k ≠ s ∧ IsUsed (hdrs_at d k) = false ∧
     find_unused f r data hs (off s) (off c) d = write_elsewhere r data hs (off s) (hdrs_at d k) (off k) d).
Proof.
  intros Hg Hs n. pose proof (g_N _ Hg) as HN. induction n as [|n IH]; intros f c Hc Hn Hcs Hf; (destruct f as [|f]; [lia|]).
  - left. split; [|lia]. cbn [find_unused]. rewrite (bind_step get _ d d d eq_refl). cbv zeta.
    rewrite wrap_around by done. rewrite Nat.add_0_r in Hcs. rewrite Hcs, decide_True by done. reflexivity.
  - set (c' := (c mod N)%nat). assert (c' < N)%nat as Hc' by (by apply Nat.mod_upper_bound; lia).
    assert (c' ≠ s) as Hne.
    { intros E. rewrite <-Hcs in E. unfold c' in E. rewrite Nat.Div0.add_mod in E. fold c' in E.
      rewrite (Nat.mod_small (Datatypes.S n)) in E by lia.
      destruct (decide (c' + Datatypes.S n < N)%nat) as [Hlt|Hge].
      - rewrite Nat.mod_small in E by lia. lia.
      - replace (c' + Datatypes.S n)%nat with ((c' + Datatypes.S n - N) + 1 * N)%nat in E by lia.
        rewrite Nat.Div0.mod_add, Nat.mod_small in E by lia. lia. }
    cbn [find_unused]. rewrite (bind_step get _ d d d eq_refl). cbv zeta. rewrite wrap_around by done. fold c'.
    rewrite decide_False by (intros ?%off_inj; done).
    rewrite (bind_step _ _ _ _ _ (readBlockHeader_run d c' Hg Hc')).
    destruct (IsUsed (hdrs_at d c')) eqn:Hu; [|right; exists c'; done].
    rewrite (off_next d c' Hg Hc').
    assert (∀ i, ((Datatypes.S c' + i) mod N = (c + Datatypes.S i) mod N)%nat) as Hshift.
    { intros i. unfold c'. rewrite <-(Nat.Div0.add_mod_idemp_l c (Datatypes.S i)). f_equal. lia. }
    destruct (IH f (Datatypes.S c')) as [[E Hall]|Hk]; [lia|lia|by rewrite Hshift|lia| |by right].
    left. split; [exact E|]. intros [|i] Hi; [by rewrite Nat.add_0_r|]. rewrite <-Hshift. apply Hall. lia.
Qed.

Lemma find_unused_all d r data hs s : geom d → (s < N)%nat → IsUsed (hdrs_at d s) = true →
  (find_unused (Datatypes.S N) r data hs (off s) (wrap64 (off s + jump d)) d = (Err (ErrMsg "device is full"), d) ∧
     ∀ j, (j < N)%nat → IsUsed (hdrs_at d j) = true) ∨
  (∃ k, (k < N)%nat ∧ k ≠ s ∧ IsUsed (hdrs_at d k) = false ∧
     find_unused (Datatypes.S N) r data hs (off s) (wrap64 (off s + jump d)) d =
       write_elsewhere r data hs (off s) (hdrs_at d k) (off k) d).
Proof.
  intros Hg Hs Hu. pose proof (g_N _ Hg) as HN. rewrite (off_next d s Hg Hs).
  destruct (find_unused_run d r data hs s Hg Hs (N - 1) (Datatypes.S N) (Datatypes.S s)) as [[E Hall]|Hk]; [lia|lia| |lia| |by right].
  { replace (Datatypes.S s + (N - 1))%nat with (s + 1 * N)%nat by lia. rewrite Nat.Div0.mod_add. by apply Nat.mod_small. }
  left. split; [exact E|]. intros j Hj. destruct (decide (j = s)) as [->|Hne]; [exact Hu|].
  destruct (decide (s < j)%nat).
  - specialize (Hall (j - Datatypes.S s)%nat ltac:(lia)).
    replace (Datatypes.S s + (j - Datatypes.S s))%nat with j in Hall by lia. by rewrite Nat.mod_small in Hall.
  - specialize (Hall (j + N - Datatypes.S s)%nat ltac:(lia)).
    replace (Datatypes.S s + (j + N - Datatypes.S s))%nat with (j + 1 * N)%nat in Hall by lia.
    by rewrite Nat.Div0.mod_add, Nat.mod_small in Hall.
Qed.

(** ** The operations *)

Lemma GetBlock_run d pl X r :
  placed d pl X → U r →
  match contents d pl !! r with
  | Some b => ∃ l d', GetBlock r d = (Ok l, d') ∧ d_deref d' l = b ∧ placed d' pl X ∧ contents d' pl = contents d pl
  | None => GetBlock r d = (Err (ErrMsg "block not found"), d)
  end.
Proof.
  intros Hp Hr. pose proof (p_geom _ _ _ Hp) as Hg. unfold contents, GetBlock. rewrite lookup_fmap.
  rewrite (bind_step _ _ _ _ _ (find_run d pl X r Hp Hr)). destruct (pl !! r) as [k|] eqn:E; cbn [fmap option_fmap option_map]; [|done].
  destruct (p_slot _ _ _ Hp _ _ E) as (_ & Hk & _). pose proof (slot_end d k Hg Hk) as He. pose proof (g_pos _ Hg).
  rewrite (bind_step get _ d d d eq_refl), (off_data d k Hg Hk), (g_bs _ Hg), Nat2Z.id.
  rewrite (bind_step _ _ _ _ _ (dev_read_run d (slot k + blk) B Hg ltac:(lia) ltac:(lia))). unfold alloc, d_make.
  do 2 eexists. split; [reflexivity|]. split; [unfold d_deref; cbn [dheap]; by rewrite lookup_insert_eq|].
  split; [|done]. apply (placed_frame d); try done. destruct Hg. by split.
Qed.

Lemma HasBlock_run d pl X r :
  placed d pl X → U r → HasBlock r d = (Ok (bool_decide (is_Some (contents d pl !! r))), d).
Proof.
  intros Hp Hr. unfold HasBlock, contents. rewrite (bind_step _ _ _ _ _ (find_run d pl X r Hp Hr)), lookup_fmap.
  unfold mret, M_ret. do 2 f_equal. apply bool_decide_ext. by rewrite !fmap_is_Some.
Qed.

Lemma try_find d pl X r : placed d pl X → U r → try (findBlockOffset r) d = (Ok (inl (off <$> pl !! r)), d).
Proof. intros Hp Hr. unfold try. by rewrite (find_run d pl X r Hp Hr). Qed.

(** A write stores the block, or fails because the device or the headers of the
    place are full. *)
Lemma device_WriteBlock_run d pl X r data :
  placed d pl X → U r → r ∉ X → length data = B →
  ∃ o d', WriteBlock r data d = (o, d') ∧
    ((o = Ok tt ∧ ∃ pl', placed d' pl' X ∧ contents d' pl' = <[r := data]> (contents d pl)) ∨
     (o = Err (ErrMsg "device is full") ∧ d' = d ∧ contents d pl !! r = None ∧ size (contents d pl) = N) ∨
     (o = Err (ErrMsg "block header is full") ∧ contents d pl !! r = None ∧ (nHeaders ≤ size (dom (contents d pl) ∪ X))%nat ∧
      placed d' pl ({[r]} ∪ X) ∧ contents d' pl = contents d pl)).
Proof.
  intros Hp Hr HX Hl. pose proof (p_geom _ _ _ Hp) as Hg. destruct (default_run d r Hg) as [Hd HdN].
  unfold WriteBlock. rewrite (bind_step get _ d d d eq_refl), (g_bs _ Hg), decide_False by lia.
  rewrite (bind_step _ _ _ _ _ (try_find d pl X r Hp Hr)). unfold contents. rewrite lookup_fmap.
  destruct (pl !! r) as [k|] eqn:E; cbn [fmap option_fmap option_map].
  { destruct (p_slot _ _ _ Hp _ _ E) as (_ & Hk & _).
    destruct (writeData_run d k data Hg Hk Hl) as (d1 & E1 & Hg1 & Hm1 & Hma1 & _ & _ & Hl1 & Hd1 & Hh1 & Ho1).
    exists (Ok tt), d1. split; [exact E1|]. left. split; [done|]. exists pl. split; [by eapply placed_frame|].
    apply map_eq. intros r'. rewrite lookup_insert. rewrite !lookup_fmap. case_decide as Er.
    - subst r'. rewrite E. cbn. by f_equal.
    - destruct (pl !! r') as [k'|] eqn:E'; [|done]. cbn. f_equal. apply Ho1.
      + intros ->. apply Er. exact (p_inj _ _ _ Hp _ _ _ E E').
      + apply (p_slot _ _ _ Hp _ _ E'). }
  unfold lift. rewrite (bind_step _ _ _ _ _ (f_equal (λ x, (x, d)) Hd)).
  rewrite (bind_step _ _ _ _ _ (readBlockHeader_run d _ Hg HdN)).
  destruct (IsUsed (hdrs_at d (dflt r))) eqn:Hu.
  - rewrite (bind_step _ _ _ _ _ (f_equal (λ x, (x, d)) (places_run d Hg))), Nat2Z.id.
    destruct (find_unused_all d r data (hdrs_at d (dflt r)) (dflt r) Hg HdN Hu) as [[Ef Hall]|(k & Hk & Hne & Hku & Ef)].
    + rewrite Ef. do 2 eexists. split; [reflexivity|]. right. left. split_and!; try done.
      rewrite map_size_fmap. exact (all_used_full d pl X Hp Hall).
    + rewrite Ef. destruct (write_elsewhere_run d pl X r data k Hp Hr E HX Hl Hk Hne Hku) as (o & d' & -> & [(-> & Hp' & Hc)|(-> & Hf & Hp' & Hc)]).
      * do 2 eexists. split; [reflexivity|]. left. split; [done|]. eauto.
      * do 2 eexists. split; [reflexivity|]. right. right. by rewrite dom_fmap_L.
  - destruct (write_default_run d pl X r data Hp Hr E HX Hl Hu) as (o & d' & -> & [(-> & Hp' & Hc)|(-> & Hf & Hp' & Hc)]).
    + do 2 eexists. split; [reflexivity|]. left. split; [done|]. eauto.
    + do 2 eexists. split; [reflexivity|]. right. right. rewrite dom_fmap_L. split_and!; [done|done|done|by apply placed_give_up|done].
Qed.

Lemma Delete_elem r hs e :
  IsNil e = false → e ∈ Delete r hs ↔ e ∈ hs ∧ matches r e = false.
Proof.
  intros Hn. unfold Delete. rewrite list_elem_of_fmap. split.
  - intros (h & -> & Hh). destruct (matches r h) eqn:E; [by cbn in Hn|done].
  - intros [He Hm]. exists e. by rewrite Hm.
Qed.
Lemma Delete_ok r hs : Forall header_ok hs → Forall header_ok (Delete r hs).
Proof.
  intros H. unfold Delete. apply Forall_fmap. eapply Forall_impl; [|exact H]. intros h Hh. cbn.
  destruct (matches r h); [|done]. by repeat split.
Qed.
Lemma Delete_owners r hs : (owners (Delete r hs) ≤ owners hs)%nat.
Proof.
  unfold owners, Delete. induction hs as [|h hs IH]; [done|]. rewrite fmap_cons, !list.filter_cons.
  destruct (matches r h); [rewrite decide_False by done; case_decide; cbn; lia|]. case_decide; cbn; lia.
Qed.

Lemma Delete_keys r hs : keys (Delete r hs) `sublist_of` keys hs.
Proof.
  unfold Delete. induction hs as [|h hs IH]; [done|]. rewrite fmap_cons, !keys_cons. destruct (matches r h).
  - cbn. by apply sublist_inserts_l.
  - by apply sublist_app.
Qed.

Lemma placed_delete d d' pl X r k :
  placed d pl X → pl !! r = Some k →
  geom d' → md_UsedBlocks (metadata d') = md_UsedBlocks (metadata d) - 1 → meta_at d' = Metadata_Marshal (metadata d') →
  length (device d') = length (device d) →
  (∀ j, (slot j + blk ≤ length (device d))%nat → hdrs_at d' j = if decide (j = k) then Delete r (hdrs_at d k) else hdrs_at d j) →
  placed d' (delete r pl) ({[r]} ∪ X).
Proof.
  intros Hp Hk Hg' Hu Hma Hl Hh. pose proof (p_geom _ _ _ Hp) as Hg. destruct (p_slot _ _ _ Hp _ _ Hk) as (Hr & HkN & _).
  assert (∀ s, (s < N)%nat → hdrs_at d' s = if decide (s = k) then Delete r (hdrs_at d k) else hdrs_at d s) as Hs.
  { intros s Hs. apply Hh. pose proof (slot_end d s Hg Hs). lia. }
  assert (∀ s r' l, (s < N)%nat → U r' → r' ≠ r → header_of r' l ∈ hdrs_at d s → header_of r' l ∈ hdrs_at d' s) as Hkeep.
  { intros s r' l HsN Hr' Hne He. rewrite Hs by done. case_decide as E; [|done]. subst s.
    apply Delete_elem; [by apply header_not_nil|]. split; [done|]. apply not_true_is_false. intros Hm.
    by apply matches_header in Hm. }
  split.
  - exact Hg'.
  - intros r' k' [Hne E]%lookup_delete_Some. destruct (p_slot _ _ _ Hp _ _ E) as (Hr' & Hk' & Hh' & Ht).
    destruct (default_run d r' Hg) as [_ Hd'].
    split_and!; [done|done|by apply Hkeep|]. intros ?. apply Hkeep; [done|done|done|by apply Ht].
  - intros r1 r2 k' [_ E1]%lookup_delete_Some [_ E2]%lookup_delete_Some. exact (p_inj _ _ _ Hp _ _ _ E1 E2).
  - intros s e HsN He Hnil.
    assert (e ∈ hdrs_at d s ∧ (s = k → matches r e = false)) as [He' Hm].
    { rewrite Hs in He by done. case_decide as E; [|done]. subst s. apply Delete_elem in He as [? ?]; done. }
    destruct (p_entry _ _ _ Hp s e HsN He' Hnil) as [r' Hr' E|r' k' Hr' E Hne Hd|r' j Hr' Hx Hd Hj Hne].
    + apply E_here; [done|]. apply lookup_delete_Some. split; [|done]. intros <-. rewrite E in Hk. injection Hk as <-.
      specialize (Hm eq_refl). by rewrite matches_self in Hm.
    + destruct (decide (r' = r)) as [->|Hrr].
      * apply E_gone; [done|set_solver|done| |done]. by apply (p_slot _ _ _ Hp _ _ E).
      * apply (E_there _ _ s r' k'); [done| |done..]. by apply lookup_delete_Some.
    + apply E_gone; [done|set_solver|done..].
  - intros s e HsN He Hnil. rewrite Hs in He by done. case_decide as E; [subst s|by apply (p_nil _ _ _ Hp s)].
    unfold Delete in He. apply list_elem_of_fmap in He as (h & -> & Hh'). destruct (matches r h); [done|].
    by apply (p_nil _ _ _ Hp k).
  - intros s HsN. rewrite Hs by done. pose proof (p_once _ _ _ Hp s HsN). case_decide as E; [|done]. subst s.
    pose proof (Delete_owners r (hdrs_at d k)). lia.
  - intros s HsN. rewrite Hs by done. case_decide as E; [subst s|by apply (p_keys _ _ _ Hp)].
    eapply sublist_NoDup; [by apply (p_keys _ _ _ Hp)|apply Delete_keys].
  - intros r' [->%elem_of_singleton|Hx]%elem_of_union; [apply lookup_delete_eq|].
    apply (p_gone _ _ _ Hp) in Hx. destruct (decide (r = r')) as [->|]; [apply lookup_delete_eq|by rewrite lookup_delete_ne].
  - rewrite Hu, (p_used _ _ _ Hp), map_size_delete_Some by done.
    assert (size pl ≠ 0)%nat; [|lia]. intros E%map_size_empty_inv. by rewrite E in Hk.
  - exact Hma.
  - intros Ht. rewrite Hl in *. destruct (p_tail _ _ _ Hp Ht) as [Ht1 Ht2]. split; [done|].
    by rewrite Hh, decide_False by lia.
Qed.

(** A deletion removes the block. *)
Lemma DeleteBlock_run d pl X r :
  placed d pl X → U r →
  match contents d pl !! r with
  | Some _ => ∃ d' pl', DeleteBlock r d = (Ok tt, d') ∧ placed d' pl' ({[r]} ∪ X) ∧ contents d' pl' = delete r (contents d pl)
  | None => DeleteBlock r d = (Err (ErrMsg "block doesn't exist"), d)
  end.
Proof.
  intros Hp Hr. pose proof (p_geom _ _ _ Hp) as Hg. unfold DeleteBlock, contents. rewrite lookup_fmap.
  rewrite (bind_step _ _ _ _ _ (try_find d pl X r Hp Hr)). destruct (pl !! r) as [k|] eqn:E; cbn [fmap option_fmap option_map]; [|done].
  destruct (p_slot _ _ _ Hp _ _ E) as (_ & Hk & _).
  rewrite (bind_step _ _ _ _ _ (readBlockHeader_run d k Hg Hk)).
  destruct (writeBlockHeader_run d k (Delete r (hdrs_at d k)) Hg Hk) as (d2 & E2 & Hg2 & Hm2 & Hma2 & _ & _ & Hl2 & Hs2 & Hh2 & Hd2).
  { unfold Delete. by rewrite length_fmap, length_hdrs_at. }
  { by apply Delete_ok, hdrs_at_ok. }
  rewrite (bind_step _ _ _ _ _ E2). unfold decrementUsedBlocks.
  assert (size pl ≠ 0)%nat as Hsz by (intros E'%map_size_empty_inv; by rewrite E' in E).
  destruct (used_run (-1) d2 Hg2) as (d3 & E3 & Hg3 & Hu3 & _ & Hma3 & _ & _ & Hl3 & Hh3 & Hd3).
  { rewrite Hm2. apply (count_u64 d pl X (-1) Hp); lia. }
  exists d3, (delete r pl). split; [exact E3|]. split.
  - apply (placed_delete d d3 pl X r k Hp E Hg3); [rewrite Hu3, Hm2; lia|done|lia|].
    intros j Hj. rewrite Hh3 by lia. case_decide as Ej; [by subst|]. apply Hh2; [done|lia].
  - rewrite <-fmap_delete. apply map_fmap_ext. intros r' k' [_ E']%lookup_delete_Some.
    destruct (p_slot _ _ _ Hp _ _ E') as (_ & ? & _). by rewrite Hd3, Hd2.
Qed.
End places.
