(* ===== verification/BlockDeviceProps.v ===== *)
(** * What the block device store promises

    From a freshly formatted device: the store behaves as a map of blocks as long
    as no reference is written again after it was deleted; a device it has written
    passes [Fsck], is enumerated by the iterator and gives back the same map when it
    is opened again.  A block that is written again after a deletion can be lost. *)
From S2P Require Import Prelude GoSem Refs Sha256 Store BlockDevice BlockDeviceSpec.

(** ** Formatting *)

Lemma ok_bind {A A'} (a : A) (f : A → res A') : Ok a ≫= f = f a.
Proof. reflexivity. Qed.

Section format.
Context (B N : nat) (U : BlockRef → Prop).

Abbreviation slot := (slot B).
Abbreviation off := (off B).

Lemma write_or_fail_ok o b d d' :
  Z.of_nat (length d) < 2 ^ 62 → write_or_fail (Z.of_nat o) b d = Ok d' → (o + length b ≤ length d)%nat ∧ d' = blit o b d.
Proof.
  intros Hl. unfold write_or_fail, raw_write. destruct (decide (to_signed 64 (Z.of_nat o) < 0)) as [|Hs]; [done|].
  destruct (decide (Z.of_nat (length d) < Z.of_nat o + Z.of_nat (length b))) as [|Hf]; [done|].
  intros [= <-]. rewrite Nat2Z.id. split; [lia|done].
Qed.

Lemma off_step L k : Z.of_nat L < 2 ^ 62 → Z.of_nat (blk + B) < 2 ^ 62 → (slot k < L)%nat →
  wrap64 (off k + Z.of_nat (blk + B)) = off (Datatypes.S k).
Proof. intros HL HB Hk. unfold off. rewrite slot_S. rewrite wrap_id by (unfold in_width; lia). lia. Qed.

(** The loop of [Mkfs] from place [k] on has cleared the headers of the places,
    and only those. *)
Lemma format_loop L : Z.of_nat L < 2 ^ 62 → Z.of_nat (blk + B) < 2 ^ 62 → ∀ f k d d1,
  length d = L →
  for_places f (λ o d, write_or_fail o (zeros blk) d) (Z.of_nat L) (Z.of_nat (blk + B)) (off k) d = Ok d1 →
  length d1 = L ∧ (∀ j, (k ≤ j)%nat → (slot j < L)%nat → (slot j + blk ≤ L)%nat ∧ window (slot j) blk d1 = zeros blk) ∧
  (∀ j, (j < k)%nat → (slot j + blk ≤ L)%nat → window (slot j) blk d1 = window (slot j) blk d).
Proof.
  intros HL HB f. induction f as [|f IH]; intros k d d1 Hl E; [done|]. cbn [for_places] in E.
  destruct (decide (Z.of_nat L ≤ off k)) as [Hend|Hin].
  { injection E as <-. split_and!; [done| |done]. intros j Hj Hlt. unfold off in Hend.
    destruct (decide (j = k)) as [->|]; [lia|]. pose proof (slot_lt B k j ltac:(lia)). lia. }
  destruct (write_or_fail (off k) (zeros blk) d) as [d2|e|] eqn:Ew; [|done..].
  apply write_or_fail_ok in Ew as [Hfit ->]; [|lia]. rewrite length_zeros in Hfit.
  cbn [mbind res_mbind res_bind] in E. rewrite (off_step L) in E by (unfold off in *; lia).
  destruct (IH (Datatypes.S k) _ d1 (eq_trans (length_blit _ _ _) Hl) E) as (Hl1 & Hz & Hsame).
  split_and!; [done| |].
  - intros j Hj Hlt. destruct (decide (j = k)) as [->|]; [|apply Hz; [lia|done]].
    split; [lia|]. rewrite Hsame by lia. apply window_blit_whole; [apply length_zeros|lia].
  - intros j Hj Hlt. rewrite Hsame by lia. apply window_blit_ne; rewrite ?length_zeros; [lia..|].
    pose proof (slot_lt B j k Hj). lia.
Qed.

(** A device fit for [N] blocks: what is left at its end, if anything, holds a
    block of headers. *)
Definition fits_device (dev : bytes) : Prop :=
  (0 < B)%nat ∧ (0 < N)%nat ∧ (slot N ≤ length dev < slot (Datatypes.S N))%nat ∧ Z.of_nat (length dev) < 2 ^ 62 ∧
  (length dev = slot N ∨ slot N + blk ≤ length dev)%nat.

Lemma slot_0 : slot 0 = blk.
Proof. unfold slot. lia. Qed.

Lemma write_or_fail_run o b d :
  Z.of_nat (length d) < 2 ^ 62 → (o + length b ≤ length d)%nat → write_or_fail (Z.of_nat o) b d = Ok (blit o b d).
Proof.
  intros Hl Hb. unfold write_or_fail, raw_write. rewrite to_signed_small, !decide_False by lia. by rewrite Nat2Z.id.
Qed.

(** The loop of [Mkfs] comes to its end. *)
Lemma format_loop_ok L : Z.of_nat L < 2 ^ 62 → Z.of_nat (blk + B) < 2 ^ 62 → (L < slot (Datatypes.S N))%nat →
  (∀ j, (slot j < L)%nat → (slot j + blk ≤ L)%nat) → ∀ f k d,
  length d = L → (k ≤ Datatypes.S N)%nat → (Datatypes.S N - k < f)%nat →
  ∃ d1, for_places f (λ o d, write_or_fail o (zeros blk) d) (Z.of_nat L) (Z.of_nat (blk + B)) (off k) d = Ok d1.
Proof.
  intros HL HB HN Hj f. induction f as [|f IH]; intros k d Hl Hk Hf; [lia|]. cbn [for_places].
  destruct (decide (Z.of_nat L ≤ off k)) as [Hend|Hin]; [by eexists|].
  assert (slot k < L)%nat as Hks by (unfold off in Hin; lia). specialize (Hj k Hks) as Hke.
  assert (k ≠ Datatypes.S N) as Hkn by (intros ->; lia).
  assert (write_or_fail (off k) (zeros blk) d = Ok (blit (slot k) (zeros blk) d)) as ->
    by (apply write_or_fail_run; rewrite ?length_zeros; lia).
  rewrite ok_bind, (off_step L) by done. apply IH; [by rewrite length_blit|lia..].
Qed.

(** Formatting a device and opening it. *)
Definition formatted (now : Z) (dev : bytes) : res deviceBlock :=
  dev1 ← Mkfs (Z.of_nat B) now dev; newBlockDeviceBlockStore dev1 (Z.of_nat B).

(** What [Mkfs] leaves: the metadata, and headers that are all nil. *)
Lemma Mkfs_run now dev : fits_device dev → ∃ d1,
  Mkfs (Z.of_nat B) now dev = Ok (blit 0 (Metadata_Marshal (mkMetadata (Z.of_nat B) now 0)) d1) ∧ length d1 = length dev ∧
  (∀ j, (slot j < length dev)%nat → (slot j + blk ≤ length dev)%nat ∧ window (slot j) blk d1 = zeros blk).
Proof.
  intros (HB & HN & Hfit & HL & Htail). pose proof (slot_lt B 0 N HN) as H0. rewrite slot_0 in H0.
  assert (Z.of_nat (blk + B) < 2 ^ 62) as HB62 by lia. pose proof blk_pos as Hpos.
  assert (wrap64 (bdBlockSize + Z.of_nat B) = Z.of_nat (blk + B)) as Hj.
  { rewrite <-blk_Z, <-Nat2Z.inj_add. apply wrap_id. unfold in_width. lia. }
  assert (∀ j, (slot j < length dev)%nat → (slot j + blk ≤ length dev)%nat) as Hends.
  { intros j Hlt. destruct (decide (j < N)%nat) as [Hjn|]; [pose proof (slot_lt B j N Hjn); lia|].
    destruct (decide (j = N)) as [->|]; [lia|]. pose proof (slot_lt B N j ltac:(lia)). rewrite slot_S in Hfit. lia. }
  unfold Mkfs. rewrite Hj, blk_def.
  replace MetadataSize with (off 0) by (unfold off, MetadataSize; rewrite slot_0; apply blk_Z).
  destruct (format_loop_ok (length dev) HL HB62 ltac:(lia) Hends
    (places_fuel (Z.of_nat (length dev)) (Z.of_nat (blk + B))) 0 dev eq_refl ltac:(lia)) as [d1 Ef].
  { unfold places_fuel. assert (Z.of_nat N ≤ Z.of_nat (length dev) / Z.of_nat (blk + B)); [|lia].
    apply Z.div_le_lower_bound; [lia|]. unfold slot, BlockDeviceSpec.slot in Hfit. nia. }
  destruct (format_loop (length dev) HL HB62 _ 0 dev d1 eq_refl Ef) as (Hl1 & Hz & _).
  exists d1. rewrite Ef, ok_bind. split_and!; [|done|intros j; apply Hz; lia].
  apply (write_or_fail_run 0); rewrite ?length_Metadata_Marshal; lia.
Qed.

Lemma Mkfs_placed now dev :
  fits_device dev → - 2 ^ 63 ≤ now < 2 ^ 63 → ∃ d, formatted now dev = Ok d ∧ placed B N U d ∅ ∅.
Proof.
  intros Hfits Hnow. destruct (Mkfs_run now dev Hfits) as (d1 & Em & Hl1 & Hz).
  destruct Hfits as (HB & HN & Hfit & HL & _). pose proof (slot_lt B 0 N HN) as H0. rewrite slot_0 in H0.
  set (md := mkMetadata (Z.of_nat B) now 0) in *. assert (metadata_ok md) as Hmd by (unfold metadata_ok, u64, in_width; cbn [TorusBlockSize FormattedTimestamp md_UsedBlocks md]; lia).
  set (dev1 := blit 0 (Metadata_Marshal md) d1) in *. assert (length dev1 = length dev) as Hl2 by (unfold dev1; by rewrite length_blit).
  assert (window 0 blk dev1 = Metadata_Marshal md) as Hw by (apply window_blit_whole; [apply length_Metadata_Marshal|lia]).
  assert (readMetadata dev1 = Ok md) as Hr.
  { unfold readMetadata, read_full, raw_read. pose proof blk_pos.
    rewrite blk_def, to_signed_small, decide_False, decide_False by lia. cbn [mbind res_mbind res_bind].
    change (take blk (drop (Z.to_nat 0) dev1)) with (window 0 blk dev1).
    rewrite Hw, decide_False by (intros Hne; apply Hne, length_Metadata_Marshal). by apply metadata_roundtrip. }
  unfold formatted. rewrite Em, ok_bind. unfold newBlockDeviceBlockStore. rewrite Hr, ok_bind, decide_False by (intros Hne; by apply Hne).
  eexists. split; [reflexivity|]. assert (∀ j, (slot j < length dev)%nat → headers_of (window (slot j) blk dev1) = NewBlockHeaders) as Hh.
  { intros j Hlt. destruct (Hz j Hlt) as [Hj1 Hj2]. pose proof (slot_first B j).
    unfold dev1. rewrite window_blit_ne; rewrite ?length_Metadata_Marshal; [|lia..]. rewrite Hj2. apply headers_of_zeros. }
  assert (∀ s, (s < N)%nat → headers_of (window (slot s) blk dev1) = replicate nHeaders nil_header) as HhN.
  { intros s Hs. rewrite Hh; [apply NewBlockHeaders_eq|]. pose proof (slot_lt B s N Hs). pose proof blk_pos. lia. }
  split; cbn; try done.
  - split; cbn; try done; lia.
  - intros s e Hs He Hn. unfold hdrs_at in He. cbn in He. rewrite HhN in He by done. by apply elem_of_replicate in He as [-> _].
  - intros s e Hs He Hn. unfold hdrs_at in He. cbn in He. rewrite HhN in He by done. by apply elem_of_replicate in He as [-> _].
  - intros s Hs. unfold hdrs_at. cbn. rewrite HhN by done. vm_compute. lia.
  - intros s Hs. unfold hdrs_at. cbn. rewrite HhN by done. replace (keys _) with (@nil (Z * Z * Z)) by (vm_compute; reflexivity).
    constructor.
  - intros Ht. unfold hdrs_at. cbn. rewrite Hl2 in *. split; [by apply Hz|by apply Hh].
Qed.
End format.

(** ** The abstract store

    A map of blocks, and the references that must not be written again. *)

Abbreviation dstate := (gmap BlockRef bytes * gset BlockRef)%type.

Inductive dstep (B N : nat) : op → res out → dstate → dstate → Prop :=
  | D_get m X r b : m !! r = Some b → dstep B N (OpGet r) (Ok (OBytes b)) (m, X) (m, X)
  | D_get_none m X r : m !! r = None → dstep B N (OpGet r) (Err (ErrMsg "block not found")) (m, X) (m, X)
  | D_has m X r : dstep B N (OpHas r) (Ok (OBool (bool_decide (is_Some (m !! r))))) (m, X) (m, X)
  | D_write m X r b : length b = B → r ∉ X → dstep B N (OpWrite r b) (Ok OUnit) (m, X) (<[r := b]> m, X)
  | D_write_size m X r b : length b ≠ B →
      dstep B N (OpWrite r b) (Err (ErrMsg "data buffer does not match block size")) (m, X) (m, X)
  | D_write_full m X r b : m !! r = None → size m = N →
      dstep B N (OpWrite r b) (Err (ErrMsg "device is full")) (m, X) (m, X)
  | D_write_headers m X r b : m !! r = None → (nHeaders ≤ size (dom m ∪ X))%nat →
      dstep B N (OpWrite r b) (Err (ErrMsg "block header is full")) (m, X) (m, {[r]} ∪ X)
  | D_delete m X r b : m !! r = Some b → dstep B N (OpDelete r) (Ok OUnit) (m, X) (delete r m, {[r]} ∪ X)
  | D_delete_none m X r : m !! r = None →
      dstep B N (OpDelete r) (Err (ErrMsg "block doesn't exist")) (m, X) (m, X)
  | D_used m X : dstep B N OpUsed (Ok (ONum (Z.of_nat (size m)))) (m, X) (m, X).

Inductive dsteps (B N : nat) : list op → list (res out) → dstate → dstate → Prop :=
  | D_nil s : dsteps B N [] [] s s
  | D_cons o ops x outs s s1 s2 : dstep B N o x s s1 → dsteps B N ops outs s1 s2 → dsteps B N (o :: ops) (x :: outs) s s2.

(** No reference is written again after it was deleted or a write of it failed
    for want of a header. *)
Fixpoint no_rewrite (X : gset BlockRef) (ops : list op) (outs : list (res out)) : Prop :=
  match ops, outs with
  | OpWrite r _ :: ops', x :: outs' =>
      (r ∉ X) ∧ no_rewrite (match x with Err (ErrMsg "block header is full") => {[r]} ∪ X | _ => X end) ops' outs'
  | OpDelete r :: ops', x :: outs' =>
      no_rewrite (match x with Ok _ => {[r]} ∪ X | _ => X end) ops' outs'
  | _ :: ops', _ :: outs' => no_rewrite X ops' outs'
  | _, _ => True
  end.

#[global] Instance no_rewrite_dec X ops outs : Decision (no_rewrite X ops outs).
Proof.
  revert X outs. induction ops as [|o ops IH]; intros X outs; [by left|].
  destruct o, outs as [|x outs]; cbn; try (by left); try apply IH; apply and_dec; [apply _|apply IH].
Defined.

(** The operations are on references in use; closing is left out. *)
Definition op_on (U : BlockRef → Prop) (o : op) : Prop :=
  match o with OpGet r | OpHas r | OpWrite r _ | OpDelete r => U r | OpUsed => True | OpClose => False end.

(** The references in use are not zero, and no two differ in the block type only. *)
Record in_use (U : BlockRef → Prop) : Prop := {
  u_wf r : U r → wf_blockref r ∧ IsNil (header_of r 0) = false;
  u_inj r r' : U r → U r' → Volume r = Volume r' → INode r = INode r' → Index r = Index r' → r = r';
}.

Section runs.
Context (B N : nat) (U : BlockRef → Prop) (HU : in_use U).

Lemma run_dstep o d pl X :
  placed B N U d pl X → op_on U o → (∀ r b, o = OpWrite r b → r ∉ X) →
  ∃ x d' pl' X', run_op o d = (x, d') ∧ placed B N U d' pl' X' ∧
    dstep B N o x (contents B d pl, X) (contents B d' pl', X').
Proof.
  intros Hp Ho HX. destruct HU as [Hwf Hinj]. destruct o as [r|r|r b|r| |]; cbn [run_op op_on] in *; [| | | | |done].
  - pose proof (GetBlock_run B N U Hwf Hinj d pl X r Hp Ho) as Hg.
    destruct (contents B d pl !! r) as [b|] eqn:E.
    + destruct Hg as (l & d' & Hg & Hb & Hp' & Hc). exists (Ok (OBytes b)), d', pl, X. split; [|split; [done|]].
      * change (Store.GetBlock r) with (GetBlock r). rewrite (bind_step _ _ _ _ _ Hg). unfold gets. do 3 f_equal. exact Hb.
      * rewrite Hc. by apply D_get.
    + exists (Err (ErrMsg "block not found")), d, pl, X. split; [|split; [done|by apply D_get_none]].
      change (Store.GetBlock r) with (GetBlock r). by rewrite (bind_step_err _ _ _ _ _ Hg).
  - do 4 eexists. split; [|split; [exact Hp|apply D_has]]. change (Store.HasBlock r) with (HasBlock r).
    by rewrite (bind_step _ _ _ _ _ (HasBlock_run B N U Hwf Hinj d pl X r Hp Ho)).
  - change (Store.WriteBlock r b) with (WriteBlock r b). destruct (decide (length b = B)) as [Hl|Hl].
    + destruct (device_WriteBlock_run B N U Hwf Hinj d pl X r b Hp Ho (HX r b eq_refl) Hl) as (o & d' & Hw & Hc).
      destruct Hc as [(-> & pl' & Hp' & Hc)|[(-> & -> & Hn & Hs)|(-> & Hn & Hfull & Hp' & Hc)]].
      * do 4 eexists. rewrite (bind_step _ _ _ _ _ Hw). split; [reflexivity|]. split; [exact Hp'|]. rewrite Hc.
        apply D_write; [done|by eapply HX].
      * do 4 eexists. rewrite (bind_step_err _ _ _ _ _ Hw). split; [reflexivity|]. split; [exact Hp|by apply D_write_full].
      * do 4 eexists. rewrite (bind_step_err _ _ _ _ _ Hw). split; [reflexivity|]. split; [exact Hp'|]. rewrite Hc.
        by apply D_write_headers.
    + do 4 eexists. split; [|split; [exact Hp|by apply D_write_size]]. unfold WriteBlock.
      unfold mbind, M_bind, get. rewrite (g_bs _ _ _ (p_geom _ _ _ _ _ _ Hp)), decide_True by lia. reflexivity.
  - pose proof (DeleteBlock_run B N U Hwf Hinj d pl X r Hp Ho) as Hd. change (Store.DeleteBlock r) with (DeleteBlock r).
    destruct (contents B d pl !! r) as [b|] eqn:E.
    + destruct Hd as (d' & pl' & Hd & Hp' & Hc). do 4 eexists. rewrite (bind_step _ _ _ _ _ Hd). split; [reflexivity|].
      split; [exact Hp'|]. rewrite Hc. by eapply D_delete.
    + do 4 eexists. rewrite (bind_step_err _ _ _ _ _ Hd). split; [reflexivity|]. split; [exact Hp|by apply D_delete_none].
  - exists (Ok (ONum (Z.of_nat (size (contents B d pl))))), d, pl, X. split; [|split; [exact Hp|apply D_used]].
    unfold gets. do 3 f_equal. unfold contents. rewrite map_size_fmap. exact (p_used _ _ _ _ _ _ Hp).
Qed.

(** The set the abstract store keeps is the one of [no_rewrite]. *)
Lemma no_rewrite_step o ops x outs m X m' X' :
  dstep B N o x (m, X) (m', X') → no_rewrite X (o :: ops) (x :: outs) → no_rewrite X' ops outs.
Proof. intros Hs. inversion Hs; subst; cbn; try tauto. Qed.

Lemma run_dsteps ops : ∀ d pl X,
  placed B N U d pl X → Forall (op_on U) ops → no_rewrite X ops (run_all run_op ops d).1 →
  ∃ pl' X', placed B N U (run_all run_op ops d).2 pl' X' ∧
    dsteps B N ops (run_all run_op ops d).1 (contents B d pl, X) (contents B (run_all run_op ops d).2 pl', X').
Proof.
  induction ops as [|o ops IH]; intros d pl X Hp Ho Hn; [exists pl, X; split; [done|apply D_nil]|].
  apply list.Forall_cons in Ho as [Ho Hos]. cbn [run_all] in *.
  assert (∀ r b, o = OpWrite r b → r ∉ X) as HX.
  { intros r b ->. destruct (run_op _ d), (run_all run_op ops _). cbn in Hn. by destruct Hn. }
  destruct (run_dstep o d pl X Hp Ho HX) as (x & d1 & pl1 & X1 & E & Hp1 & Hs). rewrite E in *.
  specialize (IH d1 pl1 X1 Hp1 Hos). destruct (run_all run_op ops d1) as [outs d2]. cbn in *.
  destruct IH as (pl' & X' & Hp' & Hd); [by eapply no_rewrite_step|].
  exists pl', X'. split; [done|]. by eapply D_cons.
Qed.
End runs.

(** ** Opening the device again *)

Section device.
Context (B N : nat) (U : BlockRef → Prop) (HU : in_use U).
Context (d : deviceBlock) (pl : gmap BlockRef nat) (X : gset BlockRef) (Hp : placed B N U d pl X).

Abbreviation slot := (slot B).
Abbreviation off := (off B).
Abbreviation hdrs := (hdrs_at B d).
Abbreviation len := (length (device d)).

Let Hg : geom B N d := p_geom _ _ _ _ _ _ Hp.

Lemma device_bounds : (blk ≤ len)%nat ∧ (0 < blk)%nat ∧ Z.of_nat len < 2 ^ 62.
Proof.
  pose proof (slot_end B N d 0 Hg (g_N _ _ _ Hg)). pose proof (slot_first B 0). pose proof blk_pos.
  pose proof (g_max _ _ _ Hg). lia.
Qed.

Lemma readMetadata_run : readMetadata (device d) = Ok (metadata d).
Proof.
  pose proof device_bounds as (? & ? & ?).
  unfold readMetadata, read_full, raw_read. rewrite blk_def, to_signed_small, decide_False, decide_False by lia.
  cbn [mbind res_mbind res_bind]. change (take blk (drop (Z.to_nat 0) (device d))) with (meta_at d).
  rewrite (p_disk _ _ _ _ _ _ Hp), decide_False by (intros Hne; apply Hne, length_Metadata_Marshal).
  apply metadata_roundtrip, (g_meta _ _ _ Hg).
Qed.

Lemma reopen_placed : ∃ d', newBlockDeviceBlockStore (device d) (Z.of_nat B) = Ok d' ∧ placed B N U d' pl X ∧
  contents B d' pl = contents B d pl.
Proof.
  eexists. unfold newBlockDeviceBlockStore. rewrite readMetadata_run. cbn [mbind res_mbind res_bind].
  rewrite (g_bs _ _ _ Hg), decide_False by (intros Hne; by apply Hne). split; [reflexivity|]. split; [|done].
  apply (placed_frame B N U d); try done. destruct Hg. by split.
Qed.

(** ** Counting the blocks *)

Lemma used_iff s : (s < N)%nat → IsUsed (hdrs s) = true ↔ ∃ r, pl !! r = Some s.
Proof.
  intros Hs. split.
  - intros (e & He & Ho)%IsUsed_true.
    assert (IsNil e = false) as Hn by (unfold owner in Ho; by destruct (IsNil e); [rewrite andb_false_r in Ho|]).
    destruct (p_entry _ _ _ _ _ _ Hp s e Hs He Hn) as [r Hr E|r k ? ? ? ?|r j ? ? ? ? ?]; [by exists r| |];
      rewrite owner_there in Ho; discriminate Ho.
  - intros [r E]. destruct (IsUsed (hdrs s)) eqn:Hu; [done|]. exfalso.
    by apply (unused_free B N U (u_wf _ HU) d pl X s r Hp Hu).
Qed.

Lemma owners_used s : (s < N)%nat → owners (hdrs s) = if IsUsed (hdrs s) then 1%nat else 0%nat.
Proof.
  intros Hs. destruct (IsUsed (hdrs s)) eqn:Hu; [|by apply owners_0]. pose proof (p_once _ _ _ _ _ _ Hp s Hs).
  apply IsUsed_true in Hu as (e & He & Ho). enough (owners (hdrs s) ≠ 0)%nat by lia.
  unfold owners. intros E%length_zero_iff_nil. assert (e ∈ filter (λ h, owner h = true) (hdrs s)) as He' by (by apply list_elem_of_filter).
  rewrite E in He'. by apply elem_of_nil in He'.
Qed.

Lemma used_slots : filter (λ s, IsUsed (hdrs s) = true) (seq 0 N) ≡ₚ (map_to_list pl).*2.
Proof.
  destruct (places_used B N U d pl X Hp) as (Hnd & Hsub & _). apply NoDup_Permutation; [apply list.NoDup_filter, NoDup_seq|done|].
  intros s. rewrite list_elem_of_filter, elem_of_seq, list_elem_of_fmap. split.
  - intros [Hu [_ Hs]]. apply (used_iff s) in Hu as [r E]; [|lia]. exists (r, s). split; [done|by apply elem_of_map_to_list].
  - intros ([r k] & -> & E%elem_of_map_to_list). cbn. destruct (p_slot _ _ _ _ _ _ Hp _ _ E) as (_ & Hk & _).
    split; [apply used_iff; [done|by exists r]|lia].
Qed.

Lemma total_owners : sum_list ((λ s, owners (hdrs s)) <$> seq 0 N) = size pl.
Proof.
  rewrite <-length_map_to_list, <-(length_fmap snd), <-used_slots.
  assert (∀ l, (∀ s, s ∈ l → (s < N)%nat) →
    sum_list ((λ s, owners (hdrs s)) <$> l) = length (filter (λ s, IsUsed (hdrs s) = true) l)) as Hl.
  { induction l as [|s l IH]; intros Hb; [done|]. rewrite list.filter_cons. cbn [fmap list_fmap sum_list foldr].
    change (foldr plus 0%nat ((λ s, owners (hdrs s)) <$> l)) with (sum_list ((λ s, owners (hdrs s)) <$> l)).
    rewrite IH by (intros; apply Hb; by apply elem_of_cons; right). rewrite owners_used by (apply Hb; by apply elem_of_cons; left).
    destruct (IsUsed (hdrs s)); [by rewrite decide_True|by rewrite decide_False]. }
  apply Hl. intros s. rewrite elem_of_seq. lia.
Qed.

(** ** [Fsck] *)

Lemma slot_ends j : (slot j < len)%nat → (slot j + blk ≤ len)%nat ∧ (j ≤ N)%nat.
Proof.
  intros Hj. pose proof (g_fit _ _ _ Hg) as [_ Hf]. assert (j ≤ N)%nat as HjN.
  { destruct (decide (j ≤ N)%nat); [done|]. destruct (decide (j = Datatypes.S N)) as [->|]; [lia|].
    pose proof (slot_lt B (Datatypes.S N) j ltac:(lia)). lia. }
  split; [|done]. destruct (decide (j = N)) as [->|]; [by apply (p_tail _ _ _ _ _ _ Hp)|].
  pose proof (slot_end B N d j Hg ltac:(lia)). lia.
Qed.

Lemma read_slot j : (slot j < len)%nat →
  read_full (off j) blk (device d) = Ok (window (slot j) blk (device d)) ∧
  DeserializeBlockHeader (window (slot j) blk (device d)) = Ok (hdrs j).
Proof.
  intros Hj. destruct (slot_ends j Hj) as [He _]. pose proof device_bounds as (_ & ? & ?).
  pose proof (length_window (slot j) blk (device d) He) as Hl. split; [|by apply Deserialize_run].
  unfold read_full, raw_read, off. rewrite to_signed_small, decide_False, decide_False, Nat2Z.id by lia.
  cbn [mbind res_mbind res_bind]. change (take blk (drop (slot j) (device d))) with (window (slot j) blk (device d)).
  by rewrite decide_False by lia.
Qed.

(** Every location is on the device. *)
Lemma locations_ok s h : (s < N)%nat → h ∈ hdrs s → h_Location h < Z.of_nat len.
Proof.
  intros Hs Hh. pose proof device_bounds as (? & ? & _).
  assert (∀ k, (k < N)%nat → off k < Z.of_nat len) as Hoff.
  { intros k Hk. pose proof (slot_end B N d k Hg Hk). unfold off. lia. }
  destruct (IsNil h) eqn:En; [rewrite (p_nil _ _ _ _ _ _ Hp s h Hs Hh En); lia|].
  destruct (p_entry _ _ _ _ _ _ Hp s h Hs Hh En) as [r Hr E|r k ? E ? ?|r j ? ? ? Hj ?]; cbn; [lia| |by apply Hoff].
  apply Hoff, (p_slot _ _ _ _ _ _ Hp _ _ E).
Qed.

Lemma check_headers_run size hs : ∀ n, 0 ≤ n → n + Z.of_nat (length hs) < 2 ^ 64 → (∀ h, h ∈ hs → h_Location h < size) →
  check_headers size hs n = Ok (n + Z.of_nat (owners hs)).
Proof.
  induction hs as [|h hs IH]; intros n Hn Hw Hl; [by rewrite Z.add_0_r|]. cbn [check_headers length] in *.
  rewrite decide_False by (assert (h_Location h < size); [apply Hl; by apply elem_of_cons; left|lia]). unfold owners. rewrite list.filter_cons.
  replace (negb (IsNil h) && bool_decide (h_Location h = 0)) with (owner h) by apply andb_comm.
  assert (∀ h', h' ∈ hs → h_Location h' < size) as Hl' by (intros; apply Hl; by apply elem_of_cons; right).
  destruct (owner h).
  - rewrite wrap_id by (unfold in_width; lia). rewrite IH, decide_True by (first [lia | done]). cbn [length]. f_equal. unfold owners. lia.
  - rewrite IH, decide_False by (first [lia | done]). done.
Qed.

(** The blocks the loop counts from place [k] on. *)
Lemma fsck_loop k : ∀ f n,
  (k ≤ Datatypes.S N)%nat → (Datatypes.S N - k < f)%nat → 0 ≤ n ≤ Z.of_nat k →
  for_places f (λ o n, buf ← read_full o blk (device d); hs ← DeserializeBlockHeader buf;
                         check_headers (Z.of_nat len) hs n) (Z.of_nat len) (Z.of_nat (blk + B)) (off k) n =
  Ok (n + Z.of_nat (sum_list ((λ s, owners (hdrs s)) <$> seq k (N - k)))).
Proof.
  remember (Datatypes.S N - k)%nat as m eqn:Hm. revert k Hm. induction m as [m IH] using lt_wf_ind.
  intros k -> f n Hk Hf Hn. destruct f as [|f]; [lia|]. cbn [for_places]. pose proof device_bounds as (_ & _ & Hlen).
  destruct (decide (Z.of_nat len ≤ off k)) as [Hend|Hin].
  { replace (N - k)%nat with 0%nat; [cbn; by rewrite Z.add_0_r|]. destruct (decide (k < N)%nat) as [HkN|]; [|lia].
    pose proof (slot_end B N d k Hg HkN). unfold off in Hend. pose proof blk_pos. lia. }
  assert (slot k < len)%nat as Hks by (unfold off in Hin; lia). destruct (slot_ends k Hks) as [Hke HkN].
  destruct (read_slot k Hks) as [Er Ed]. rewrite Er. cbn [mbind res_mbind res_bind]. rewrite Ed. cbn [mbind res_mbind res_bind].
  pose proof (slot_first B k). assert (N ≤ len)%nat as HNl.
  { pose proof (g_fit _ _ _ Hg) as [Hf' _]. unfold slot, BlockDeviceSpec.slot in Hf'. pose proof blk_pos. nia. }
  assert (blk + B ≤ len)%nat as HB.
  { pose proof (slot_end B N d 0 Hg (g_N _ _ _ Hg)) as H0. unfold slot, BlockDeviceSpec.slot in H0. lia. }
  rewrite (off_step B len) by (first [done | lia]).
  destruct (decide (k = N)) as [->|HkN'].
  - destruct (p_tail _ _ _ _ _ _ Hp Hks) as [_ Ht]. rewrite Ht, NewBlockHeaders_eq.
    rewrite check_headers_run; [|lia|rewrite length_replicate; unfold nHeaders; lia|].
    2: { intros h [-> _]%elem_of_replicate. cbn. lia. }
    cbn [mbind res_mbind res_bind].
    assert (owners (replicate nHeaders nil_header) = 0%nat) as -> by (vm_compute; reflexivity). rewrite Z.add_0_r.
    replace (N - N)%nat with 0%nat by lia. destruct f as [|f]; [lia|]. cbn [for_places].
    rewrite decide_True; [cbn; by rewrite Z.add_0_r|]. unfold off. pose proof (g_fit _ _ _ Hg). lia.
  - pose proof (owners_used k ltac:(lia)) as Ho. assert (owners (hdrs k) ≤ 1)%nat by (rewrite Ho; by destruct (IsUsed _); lia).
    rewrite check_headers_run; [|lia|rewrite length_hdrs_at; unfold nHeaders; lia|intros h Hh; apply (locations_ok k); [lia|done]].
    cbn [mbind res_mbind res_bind].
    rewrite (IH (Datatypes.S N - Datatypes.S k)%nat ltac:(lia) (Datatypes.S k) eq_refl) by lia.
    replace (N - k)%nat with (Datatypes.S (N - Datatypes.S k)) by lia. cbn [seq]. rewrite fmap_cons.
    change (sum_list (?a :: ?l)) with (a + sum_list l)%nat. f_equal. lia.
Qed.

Lemma read_meta : raw_read 0 (Z.to_nat bdBlockSize) (device d) = Ok (meta_at d).
Proof.
  pose proof device_bounds as (Hb & Hb0 & Hlen). unfold raw_read. rewrite blk_def, to_signed_small, decide_False, decide_False by lia.
  reflexivity.
Qed.

Lemma unmarshal_meta : Metadata_Unmarshal (blit 0 (meta_at d) (zeros (Z.to_nat bdBlockSize))) = Ok (metadata d).
Proof.
  rewrite blk_def, (p_disk _ _ _ _ _ _ Hp), blit_all by (by rewrite length_Metadata_Marshal, length_zeros).
  apply metadata_roundtrip, (g_meta _ _ _ Hg).
Qed.

Lemma Fsck_run : Fsck (Z.of_nat B) (device d) = Ok tt.
Proof.
  pose proof device_bounds as (Hb & Hb0 & Hlen). pose proof (size_bound B N U d pl X Hp).
  unfold Fsck. rewrite read_meta, ok_bind, unmarshal_meta, ok_bind, (g_bs _ _ _ Hg), decide_False by (intros Hne; by apply Hne).
  pose proof (jump_run B N d Hg) as Hj. unfold jump in Hj. rewrite (g_bs _ _ _ Hg) in Hj. rewrite Hj, blk_def.
  replace MetadataSize with (off 0) by (unfold off, MetadataSize; rewrite slot_0; apply blk_Z).
  rewrite (fsck_loop 0); [|lia| |lia].
  - rewrite ok_bind, Nat.sub_0_r, total_owners, (p_used _ _ _ _ _ _ Hp), decide_False by lia. reflexivity.
  - unfold places_fuel. pose proof (g_fit _ _ _ Hg) as [Hf _].
    assert (Z.of_nat N ≤ Z.of_nat len / Z.of_nat (blk + B)) as Hd; [|lia].
    apply Z.div_le_lower_bound; [lia|]. unfold slot, BlockDeviceSpec.slot in Hf. nia.
Qed.

(** ** The iterator *)

Lemma read_header j : (slot j < len)%nat → readBlockHeader (off j) d = (Ok (hdrs j), d).
Proof.
  intros Hj. destruct (slot_ends j Hj) as [He _]. unfold readBlockHeader. rewrite blk_def.
  rewrite (bind_step _ _ _ _ _ (dev_read_run B N d (slot j) blk Hg He Hj)). unfold lift. by rewrite (proj2 (read_slot j Hj)).
Qed.

(** The reference without the block type. *)
Definition untyped (r : BlockRef) : BlockRef := BlockRefFromUint64s (Volume r) (INode r) (Index r).

(** The reference the iterator gives for place [s]. *)
Definition ref_at (s : nat) : option BlockRef :=
  match list_find owner (hdrs s) with
  | Some (_, h) => Some (BlockRefFromUint64s (h_Volume h) (h_Inode h) (h_Index h))
  | None => None
  end.

Lemma ref_at_Some s x : (s < N)%nat → ref_at s = Some x ↔ ∃ r, pl !! r = Some s ∧ x = untyped r.
Proof.
  intros Hs. unfold ref_at. split.
  - destruct (list_find owner (hdrs s)) as [[i h]|] eqn:E; [|done]. intros [= <-].
    apply list_find_Some in E as (Hi & Ho & _). apply Is_true_true in Ho.
    assert (IsNil h = false) as Hn by (unfold owner in Ho; by destruct (IsNil h); [rewrite andb_false_r in Ho|]).
    destruct (p_entry _ _ _ _ _ _ Hp s h Hs (list_elem_of_lookup_2 _ _ _ Hi) Hn) as [r Hr E|r k ? ? ? ?|r j ? ? ? ? ?];
      [by exists r|rewrite owner_there in Ho; discriminate Ho..].
  - intros (r & E & ->). destruct (p_slot _ _ _ _ _ _ Hp _ _ E) as (Hr & _ & Hin & _).
    destruct (list_find owner (hdrs s)) as [[i h]|] eqn:Ef.
    + apply list_find_Some in Ef as (Hi & Ho & _). apply Is_true_true in Ho.
      assert (IsNil h = false) as Hn by (unfold owner in Ho; by destruct (IsNil h); [rewrite andb_false_r in Ho|]).
      destruct (p_entry _ _ _ _ _ _ Hp s h Hs (list_elem_of_lookup_2 _ _ _ Hi) Hn) as [r' Hr' E'|r' k ? ? ? ?|r' j ? ? ? ? ?];
        [|rewrite owner_there in Ho; discriminate Ho..]. by rewrite (p_inj _ _ _ _ _ _ Hp _ _ _ E' E).
    + apply list_find_None in Ef. rewrite list.Forall_forall in Ef. exfalso. apply (Ef _ Hin).
      by rewrite (owner_here U (u_wf _ HU) r Hr).
Qed.

Lemma search_run k : ∀ f x e, (k ≤ Datatypes.S N)%nat → (Datatypes.S N - k < f)%nat →
  (∃ s r, (k ≤ s < N)%nat ∧ ref_at s = Some r ∧ (∀ j, (k ≤ j < s)%nat → ref_at j = None) ∧
     search_loop f d (mkDIter (off k) x false e) = (Ok true, mkDIter (off s) r false e)) ∨
  ((∀ j, (k ≤ j < N)%nat → ref_at j = None) ∧
     ∃ o, search_loop f d (mkDIter (off k) x false e) = (Ok false, mkDIter o x true e)).
Proof.
  remember (Datatypes.S N - k)%nat as m eqn:Hm. revert k Hm. induction m as [m IH] using lt_wf_ind.
  intros k -> f x e Hk Hf. destruct f as [|f]; [lia|]. cbn [search_loop i_currOffset i_currBlockRef i_done i_err].
  rewrite (g_size _ _ _ Hg). destruct (decide (Z.of_nat len ≤ off k)) as [Hend|Hin].
  { right. split; [|by eexists]. intros j Hj. pose proof (slot_end B N d j Hg ltac:(lia)). unfold off in Hend. pose proof blk_pos.
    destruct (decide (j = k)) as [->|]; [lia|]. pose proof (slot_lt B k j ltac:(lia)). lia. }
  assert (slot k < len)%nat as Hks by (unfold off in Hin; lia). destruct (slot_ends k Hks) as [Hke HkN].
  rewrite (read_header k Hks). cbn [fst]. pose proof device_bounds as (_ & _ & Hlen).
  assert (blk + B ≤ len)%nat as HB.
  { pose proof (slot_end B N d 0 Hg (g_N _ _ _ Hg)) as H0. unfold slot, BlockDeviceSpec.slot in H0. lia. }
  rewrite (jump_run B N d Hg), (off_step B len) by (first [done | lia]).
  assert (k = N → list_find owner (hdrs k) = None) as Htail.
  { intros ->. destruct (p_tail _ _ _ _ _ _ Hp Hks) as [_ Ht]. rewrite Ht. vm_compute. reflexivity. }
  destruct (list_find owner (hdrs k)) as [[i h]|] eqn:E.
  - left. exists k, (BlockRefFromUint64s (h_Volume h) (h_Inode h) (h_Index h)). split_and!; [done| | |lia|done].
    + destruct (decide (k = N)) as [Hkn|]; [by specialize (Htail Hkn)|lia].
    + unfold ref_at. by rewrite E.
  - assert (ref_at k = None) as Hrk by (unfold ref_at; by rewrite E).
    destruct (IH (Datatypes.S N - Datatypes.S k)%nat ltac:(lia) (Datatypes.S k) eq_refl f x e ltac:(lia) ltac:(lia))
      as [(s & r & Hs & Hr & Hn & Es)|(Hn & Es)].
    + left. exists s, r. split_and!; [lia|lia|done| |done]. intros j Hj. destruct (decide (j = k)) as [->|]; [done|]. apply Hn. lia.
    + right. split; [|done]. intros j Hj. destruct (decide (j = k)) as [->|]; [done|]. apply Hn. lia.
Qed.

Lemma fuel_enough : (Datatypes.S N < search_fuel d)%nat.
Proof.
  unfold search_fuel. rewrite (g_size _ _ _ Hg), (jump_run B N d Hg). pose proof (g_fit _ _ _ Hg) as [Hf _]. pose proof blk_pos.
  assert (Z.of_nat N ≤ Z.of_nat len / Z.of_nat (blk + B)) as Hd; [|lia].
  apply Z.div_le_lower_bound; [lia|]. unfold slot, BlockDeviceSpec.slot in Hf. nia.
Qed.

Lemma omap_none l : (∀ j, j ∈ l → ref_at j = None) → omap ref_at l = [].
Proof.
  induction l as [|j l IH]; intros Hn; [done|]. cbn. rewrite (Hn j) by (by apply elem_of_cons; left).
  apply IH. intros i Hi. apply Hn. by apply elem_of_cons; right.
Qed.

Lemma iterate_run m : ∀ k f it x, (N - k < m)%nat → (k ≤ N)%nat → (N - k < f)%nat →
  Next d it = search_loop (search_fuel d) d (mkDIter (off k) x false None) →
  ∃ it', iterate f d it = (omap ref_at (seq k (N - k)), it') ∧ i_done it' = true ∧ i_err it' = None.
Proof.
  induction m as [|m IH]; intros k f it x Hm Hk Hf E; [lia|]. destruct f as [|f]; [lia|]. cbn [iterate]. rewrite E.
  pose proof fuel_enough as Hfuel.
  destruct (search_run k (search_fuel d) x None ltac:(lia) ltac:(lia)) as [(s & r & Hs & Hr & Hn & ->)|(Hn & o & ->)].
  - replace (N - k)%nat with ((s - k) + Datatypes.S (N - Datatypes.S s))%nat by lia. rewrite seq_app, omap_app.
    rewrite omap_none by (intros j ?%elem_of_seq; apply Hn; lia). replace (k + (s - k))%nat with s by lia.
    cbn [seq omap list_omap app]. rewrite Hr. set (it1 := mkDIter (off s) r false None).
    destruct (IH (Datatypes.S s) f it1 r) as (it' & -> & ?); [lia|lia|lia| |by exists it']. unfold it1, Next, nextHelper. cbn [i_currOffset i_done i_currBlockRef i_err].
    rewrite decide_False by apply off_nonzero. by rewrite (off_next B N d s Hg) by lia.
  - rewrite omap_none by (intros j ?%elem_of_seq; apply Hn; lia). by eexists.
Qed.

Lemma iterator_run : ∃ it, visited d = (omap ref_at (seq 0 N), it) ∧ i_done it = true ∧ i_err it = None.
Proof.
  pose proof fuel_enough. destruct (iterate_run (Datatypes.S N) 0 (search_fuel d) (BlockIterator d) (BlockRefFromUint64s 0 0 0)) as (it & E & Hit);
    [lia..| |].
  2: { exists it. rewrite Nat.sub_0_r in E. by split. }
  - unfold Next, nextHelper, BlockIterator. cbn [i_currOffset i_done i_currBlockRef i_err]. rewrite decide_True by done.
    do 2 f_equal. unfold off, MetadataSize. rewrite slot_0. symmetry. apply blk_Z.
Qed.

Lemma iterator_blocks :
  (visited d).1 ≡ₚ untyped <$> (map_to_list pl).*1 ∧ i_done (visited d).2 = true ∧ i_err (visited d).2 = None.
Proof.
  assert (∀ r r' k k', pl !! r = Some k → pl !! r' = Some k' → untyped r = untyped r' → r = r') as Hinj.
  { intros r r' k k' E E' [= ? ? ?]. destruct (p_slot _ _ _ _ _ _ Hp _ _ E) as (Hr & _).
    destruct (p_slot _ _ _ _ _ _ Hp _ _ E') as (Hr' & _). by apply (u_inj _ HU). }
  destruct iterator_run as (it & -> & Hit). split; [|exact Hit]. cbn [fst]. apply NoDup_Permutation.
  - assert (∀ n a, (a + n ≤ N)%nat → NoDup (omap ref_at (seq a n))) as Hnd; [|by apply Hnd].
    induction n as [|n IH]; intros a Ha; [constructor|]. cbn. destruct (ref_at a) as [x|] eqn:E; [|apply IH; lia].
    apply list.NoDup_cons. split; [|apply IH; lia]. intros (b & [Hb1 Hb2]%elem_of_seq & Eb)%list_elem_of_omap.
    apply ref_at_Some in E as (r & E & ->); [|lia]. apply ref_at_Some in Eb as (r' & E' & Hu); [|lia].
    rewrite (Hinj _ _ _ _ E E' Hu), E' in E. injection E. lia.
  - apply NoDup_fmap_2_strong; [|apply NoDup_fst_map_to_list].
    intros r r' ([? k] & -> & E%elem_of_map_to_list)%list_elem_of_fmap ([? k'] & -> & E'%elem_of_map_to_list)%list_elem_of_fmap. by apply (Hinj _ _ k k').
  - intros x. rewrite list_elem_of_omap, list_elem_of_fmap. split.
    + intros (s & [_ Hs]%elem_of_seq & Hx). apply ref_at_Some in Hx as (r & E & ->); [|lia]. exists r. split; [done|].
      apply list_elem_of_fmap. exists (r, s). split; [done|by apply elem_of_map_to_list].
    + intros (r & -> & ([r' s] & -> & E%elem_of_map_to_list)%list_elem_of_fmap). cbn.
      destruct (p_slot _ _ _ _ _ _ Hp _ _ E) as (_ & Hs & _). exists s. split; [apply elem_of_seq; lia|].
      apply ref_at_Some; [done|by exists r'].
Qed.
End device.

(** ** The store from its formatting on *)

Section life.
Context (B N : nat) (U : BlockRef → Prop) (HU : in_use U).

Lemma contents_empty d : contents B d ∅ = ∅.
Proof. apply fmap_empty. Qed.

Lemma contents_dom d pl : (map_to_list pl).*1 ≡ₚ elements (dom (contents B d pl)).
Proof.
  unfold contents. rewrite dom_fmap_L. apply NoDup_Permutation; [apply NoDup_fst_map_to_list|apply NoDup_elements|].
  intros r. rewrite elem_of_elements, elem_of_dom, list_elem_of_fmap. split.
  - intros ([r' k] & -> & E%elem_of_map_to_list). by exists k.
  - intros [k E]. exists (r, k). split; [done|by apply elem_of_map_to_list].
Qed.

(** Any run from the formatting on keeps the blocks placed. *)
Lemma life now dev ops :
  fits_device B N dev → - 2 ^ 63 ≤ now < 2 ^ 63 → Forall (op_on U) ops →
  ∃ d, formatted B now dev = Ok d ∧
    (no_rewrite ∅ ops (run_all run_op ops d).1 → ∃ pl X, placed B N U (run_all run_op ops d).2 pl X ∧
      dsteps B N ops (run_all run_op ops d).1 (∅, ∅) (contents B (run_all run_op ops d).2 pl, X)).
Proof.
  intros Hf Hn Ho. destruct (Mkfs_placed B N U now dev Hf Hn) as (d & E & Hp). exists d. split; [done|]. intros Hr.
  destruct (run_dsteps B N U HU ops d ∅ ∅ Hp Ho Hr) as (pl & X & Hp' & Hd). rewrite contents_empty in Hd. by exists pl, X.
Qed.

(** C13: a device that [Mkfs] formatted and the store opened behaves as a bounded
    map of blocks.  The device has room for [N] blocks, and behind them nothing or at least
    a header.  The operations are any sequence of reads, membership tests, writes,
    deletions and counts, without [Close], on references that are not zero and no two of
    which differ in the block type only, in which no reference is written again after it
    was deleted or after a write of it found the headers full.  Then every answer is the
    one of the map: a read gives the bytes last written, a write replaces the block or
    fails, a deletion removes the block, the used blocks are the size of the map, and the
    map never holds more than the [N] blocks that fit the device.  A write fails only for
    a device with no block left, or for a full header, which takes at least 128 references
    that are stored or were given up. *)
Theorem device_store_refines_map now dev ops :
  fits_device B N dev → - 2 ^ 63 ≤ now < 2 ^ 63 → Forall (op_on U) ops →
  ∃ d, formatted B now dev = Ok d ∧
    (no_rewrite ∅ ops (run_all run_op ops d).1 →
     ∃ m X, dsteps B N ops (run_all run_op ops d).1 (∅, ∅) (m, X) ∧ (size m ≤ N)%nat).
Proof.
  intros Hf Hn Ho. destruct (life now dev ops Hf Hn Ho) as (d & E & Hl). exists d. split; [done|]. intros Hr.
  destruct (Hl Hr) as (pl & X & Hp & Hd). exists (contents B (run_all run_op ops d).2 pl), X. split; [done|].
  unfold contents. rewrite map_size_fmap. by apply (size_bound B N U (run_all run_op ops d).2 pl X).
Qed.

(** C14: what the store leaves on the device is consistent after any run of the same kind
    (references not zero and not differing in the block type only, no rewriting after a
    deletion or a full header, no [Close]).  [Fsck] accepts the device; the iterator gives
    the reference of each block of the map exactly once, without its block type, and ends
    without an error; and the device opened again holds the same map, from which the next
    operations of that kind go on, the references that may not be written again being the
    same. *)
Theorem device_store_durable now dev ops :
  fits_device B N dev → - 2 ^ 63 ≤ now < 2 ^ 63 → Forall (op_on U) ops →
  ∃ d, formatted B now dev = Ok d ∧
    (no_rewrite ∅ ops (run_all run_op ops d).1 →
     let d1 := (run_all run_op ops d).2 in
     ∃ m X, dsteps B N ops (run_all run_op ops d).1 (∅, ∅) (m, X) ∧
       Fsck (Z.of_nat B) (device d1) = Ok tt ∧
       (visited d1).1 ≡ₚ untyped <$> elements (dom m) ∧ i_done (visited d1).2 = true ∧ i_err (visited d1).2 = None ∧
       ∃ d2, newBlockDeviceBlockStore (device d1) (Z.of_nat B) = Ok d2 ∧
         ∀ ops2, Forall (op_on U) ops2 → no_rewrite X ops2 (run_all run_op ops2 d2).1 →
           ∃ s, dsteps B N ops2 (run_all run_op ops2 d2).1 (m, X) s).
Proof.
  intros Hf Hn Ho. destruct (life now dev ops Hf Hn Ho) as (d & E & Hl). exists d. split; [done|]. intros Hr d1.
  destruct (Hl Hr) as (pl & X & Hp & Hd). fold d1 in Hp, Hd. exists (contents B d1 pl), X. split_and!; [done|..].
  - by eapply Fsck_run.
  - by rewrite (proj1 (iterator_blocks B N U HU d1 pl X Hp)), (contents_dom d1).
  - apply (iterator_blocks B N U HU d1 pl X Hp).
  - apply (iterator_blocks B N U HU d1 pl X Hp).
  - destruct (reopen_placed B N U d1 pl X Hp) as (d2 & Eo & Hp2 & Hc). exists d2. split; [done|]. intros ops2 Ho2 Hn2.
    destruct (run_dsteps B N U HU ops2 d2 pl X Hp2 Ho2 Hn2) as (pl' & X' & _ & Hd2). rewrite Hc in Hd2. by eexists.
Qed.
End life.

(** ** A small device

    Four blocks of 512 bytes. *)

Definition tiny_device : bytes := zeros (Z.to_nat 22528).
Definition tiny_ref (i : Z) : BlockRef := mkBlockRef (mkINodeRef 1 2) i.
Definition tiny_block (x : byte) : bytes := replicate 512 x.

Definition tiny_used (r : BlockRef) : Prop := ∃ i, 1 ≤ i < 12 ∧ r = tiny_ref i.

Lemma tiny_in_use : in_use tiny_used.
Proof.
  split.
  - intros r (i & Hi & ->). split.
    + unfold wf_blockref, wf_inoderef, u64, in_width; cbn. lia.
    + unfold IsNil, header_of. cbn. reflexivity.
  - intros r r' (i & Hi & ->) (j & Hj & ->) _ _ [= ->]. done.
Qed.

Lemma tiny_fits : fits_device 512 4 tiny_device.
Proof.
  unfold fits_device, tiny_device. rewrite length_zeros. unfold slot. pose proof blk_Z as Hb. unfold bdBlockSize in Hb. lia.
Qed.

(** Blocks 5 and 6 share a place; 10 takes another; block 5 is deleted. *)
Definition tiny_ops : list op :=
  [OpWrite (tiny_ref 5) (tiny_block x01); OpWrite (tiny_ref 6) (tiny_block x02); OpWrite (tiny_ref 10) (tiny_block x03);
   OpDelete (tiny_ref 5); OpGet (tiny_ref 6); OpGet (tiny_ref 5); OpWrite (tiny_ref 6) (tiny_block x04); OpUsed].

Lemma tiny_ops_on : Forall (op_on tiny_used) tiny_ops.
Proof. repeat constructor; eexists; (split; [|reflexivity]; lia). Qed.

Lemma tiny_no_rewrite :
  (if formatted 512 0 tiny_device is Ok d then bool_decide (no_rewrite ∅ tiny_ops (run_all run_op tiny_ops d).1) else false) = true.
Proof. vm_compute. reflexivity. Qed.

Lemma device_store_refines_map_witness :
  ∃ d, formatted 512 0 tiny_device = Ok d ∧
    ∃ m X, dsteps 512 4 tiny_ops (run_all run_op tiny_ops d).1 (∅, ∅) (m, X) ∧ (size m ≤ 4)%nat.
Proof.
  destruct (device_store_refines_map 512 4 tiny_used tiny_in_use 0 tiny_device tiny_ops tiny_fits ltac:(lia) tiny_ops_on)
    as (d & E & H). exists d. split; [exact E|]. apply H. pose proof tiny_no_rewrite as Hn. rewrite E in Hn. exact (bool_decide_eq_true_1 _ Hn).
Defined.

Lemma device_store_durable_witness :
  ∃ d, formatted 512 0 tiny_device = Ok d ∧ Fsck 512 (device (run_all run_op tiny_ops d).2) = Ok tt ∧
    ∃ m X, dsteps 512 4 tiny_ops (run_all run_op tiny_ops d).1 (∅, ∅) (m, X) ∧
      (visited (run_all run_op tiny_ops d).2).1 ≡ₚ untyped <$> elements (dom m).
Proof.
  destruct (device_store_durable 512 4 tiny_used tiny_in_use 0 tiny_device tiny_ops tiny_fits ltac:(lia) tiny_ops_on)
    as (d & E & H). exists d. split; [exact E|]. pose proof tiny_no_rewrite as Hn. rewrite E in Hn.
  destruct (H (bool_decide_eq_true_1 _ Hn)) as (m & X & Hd & Hf & Hi & _). split; [exact Hf|]. exists m, X. split; [exact Hd|exact Hi].
Defined.

(** ** Where the store does not keep its blocks *)

(** The answers of a run on the small device. *)
Definition tiny_answers (ops : list op) : res (list (res out)) :=
  d ← formatted 512 0 tiny_device; Ok (run_all run_op ops d).1.

(** Block 6 goes to another place than its own, is deleted, its place is taken
    by block 10, and it is written again. *)
Definition rewrite_ops : list op :=
  [OpWrite (tiny_ref 5) (tiny_block x01); OpWrite (tiny_ref 6) (tiny_block x02); OpDelete (tiny_ref 6);
   OpWrite (tiny_ref 10) (tiny_block x03); OpWrite (tiny_ref 6) (tiny_block x04); OpGet (tiny_ref 6)].

(** A block that is written again after a deletion can be lost.  A deletion
    leaves the pointer to the deleted block in the headers of its default place;
    when the place it points to has gone to another block and the block is written
    again, the write succeeds and adds a second pointer, but the lookup follows the
    stale one: the block that was just written is not found. *)
Theorem rewritten_block_lost :
  tiny_answers rewrite_ops = Ok [Ok OUnit; Ok OUnit; Ok OUnit; Ok OUnit; Ok OUnit; Err (ErrMsg "block not found")].
Proof. vm_compute. reflexivity. Qed.

(** The block [i] of the inodes of the same volume and inode. *)
Definition tiny_inode_ref (i : Z) : BlockRef := mkBlockRef (mkINodeRef (1 + 2 ^ 40) 2) i.

(** Two references that differ in the block type only are one block for the
    headers: where their default places coincide, writing one replaces the other. *)
Lemma block_types_collide :
  tiny_answers [OpWrite (tiny_ref 4) (tiny_block x01); OpWrite (tiny_inode_ref 4) (tiny_block x02); OpGet (tiny_ref 4); OpUsed] =
  Ok [Ok OUnit; Ok OUnit; Ok (OBytes (tiny_block x02)); Ok (ONum 1)].
Proof. vm_compute. reflexivity. Qed.
