(* ===== verification/Crc32.v ===== *)
(** * CRC-32 (IEEE), as [hash/crc32.ChecksumIEEE] computes it

    The checksum [src/blockset/crc.go] keeps of every block.  The definition is
    the bit-serial form of the reflected polynomial 0xEDB88320; the table-driven
    forms of the Go library compute the same function.  The main fact is that a
    corruption confined to four consecutive bytes always changes the checksum. *)
From S2P Require Import Prelude.

Definition crc_poly : Z := 0xEDB88320.

(** One bit of input shifted out. *)
Definition crc_bit (c : Z) : Z :=
  if Z.testbit c 0 then Z.lxor (Z.shiftr c 1) crc_poly else Z.shiftr c 1.

Fixpoint crc_bits (n : nat) (c : Z) : Z :=
  match n with O => c | S n' => crc_bits n' (crc_bit c) end.

Definition crc_byte (c : Z) (b : byte) : Z := crc_bits 8 (Z.lxor c (byte_to_Z b)).

Definition crc_ones : Z := 2 ^ 32 - 1.

Definition ChecksumIEEE (data : bytes) : Z :=
  Z.lxor (foldl crc_byte crc_ones data) crc_ones.

(** The check value of the standard, for the ASCII digits 1 to 9. *)
Example crc32_check : ChecksumIEEE [x31; x32; x33; x34; x35; x36; x37; x38; x39] = 0xCBF43926.
Proof. vm_compute. reflexivity. Qed.

(** ** The register stays within 32 bits *)

Lemma in_width_bits w z : 0 ≤ w → in_width w z ↔ 0 ≤ z ∧ ∀ k, w ≤ k → Z.testbit z k = false.
Proof.
  intros Hw. unfold in_width. split.
  - intros [Hz Hlt]. split; [done|]. by apply Z.bounded_iff_bits_nonneg.
  - intros [Hz Hb]. split; [done|]. by apply Z.bounded_iff_bits_nonneg.
Qed.

Lemma lxor_width w a b : 0 ≤ w → in_width w a → in_width w b → in_width w (Z.lxor a b).
Proof.
  intros Hw [Ha Hab]%in_width_bits [Hb Hbb]%in_width_bits; try done.
  apply in_width_bits; [done|]. split; [by apply Z.lxor_nonneg|].
  intros k Hk. by rewrite Z.lxor_spec, Hab, Hbb.
Qed.

Lemma crc_bit_eq c : crc_bit c = Z.lxor (Z.shiftr c 1) (if Z.testbit c 0 then crc_poly else 0).
Proof. unfold crc_bit. destruct (Z.testbit c 0); [done|]. by rewrite Z.lxor_0_r. Qed.

Lemma crc_poly_width : u32 crc_poly.
Proof. unfold in_width, crc_poly. lia. Qed.

Lemma shiftr1_bound c : u32 c → 0 ≤ Z.shiftr c 1 < 2 ^ 31.
Proof.
  unfold in_width. rewrite Z.shiftr_div_pow2 by lia. change (2 ^ 1) with 2. intros ?.
  split; [apply Z.div_pos; lia|apply Z.div_lt_upper_bound; lia].
Qed.

Lemma crc_bit_width c : u32 c → u32 (crc_bit c).
Proof.
  intros Hc. rewrite crc_bit_eq. pose proof (shiftr1_bound c Hc).
  apply lxor_width; [lia|unfold in_width; lia|].
  destruct (Z.testbit c 0); [apply crc_poly_width|unfold in_width; lia].
Qed.

Lemma crc_bits_width n c : u32 c → u32 (crc_bits n c).
Proof. revert c. induction n as [|n IH]; intros c Hc; simpl; [done|]. by apply IH, crc_bit_width. Qed.

Lemma byte_width b : u32 (byte_to_Z b).
Proof. pose proof (byte_to_Z_range b). unfold in_width. lia. Qed.

Lemma crc_byte_width c b : u32 c → u32 (crc_byte c b).
Proof. intros Hc. apply crc_bits_width, lxor_width; [lia|done|apply byte_width]. Qed.

Lemma crc_fold_width c l : u32 c → u32 (foldl crc_byte c l).
Proof.
  revert c. induction l as [|b l IH]; intros c Hc; simpl; [done|]. by apply IH, crc_byte_width.
Qed.

Lemma crc_ones_width : u32 crc_ones.
Proof. unfold in_width, crc_ones. lia. Qed.

Lemma ChecksumIEEE_width d : u32 (ChecksumIEEE d).
Proof. apply lxor_width; [lia|apply crc_fold_width, crc_ones_width|apply crc_ones_width]. Qed.

(** ** Linearity and injectivity *)

Lemma crc_bit_lxor a b : crc_bit (Z.lxor a b) = Z.lxor (crc_bit a) (crc_bit b).
Proof.
  rewrite !crc_bit_eq, Z.shiftr_lxor, Z.lxor_spec.
  set (p := if xorb _ _ then _ else _).
  assert (p = Z.lxor (if Z.testbit a 0 then crc_poly else 0) (if Z.testbit b 0 then crc_poly else 0)) as ->
    by (unfold p; by destruct (Z.testbit a 0), (Z.testbit b 0)).
  apply Z.bits_inj'. intros k _. rewrite !Z.lxor_spec. by repeat destruct (Z.testbit _ k).
Qed.

Lemma crc_bits_lxor n a b : crc_bits n (Z.lxor a b) = Z.lxor (crc_bits n a) (crc_bits n b).
Proof. revert a b. induction n as [|n IH]; intros a b; simpl; [done|]. by rewrite crc_bit_lxor, IH. Qed.

Lemma crc_bit_zero z : u32 z → crc_bit z = 0 → z = 0.
Proof.
  intros Hz. pose proof (shiftr1_bound z Hz) as Hs. unfold crc_bit.
  destruct (Z.testbit z 0) eqn:Hb.
  - intros He%Z.lxor_eq. unfold crc_poly in He. lia.
  - intros He. rewrite Z.bit0_odd in Hb. rewrite Z.shiftr_div_pow2 in He by lia.
    change (2 ^ 1) with 2 in He. pose proof (Z.div_mod z 2 ltac:(lia)) as Hd.
    rewrite Zmod_odd, Hb in Hd. lia.
Qed.

Lemma crc_bits_inj n a b : u32 a → u32 b → crc_bits n a = crc_bits n b → a = b.
Proof.
  intros Ha Hb He. apply Z.lxor_eq. assert (u32 (Z.lxor a b)) as Hx by (by apply lxor_width).
  assert (crc_bits n (Z.lxor a b) = 0) as H0.
  { rewrite crc_bits_lxor, He. apply Z.lxor_nilpotent. }
  clear He. revert Hx H0. generalize (Z.lxor a b). clear. induction n as [|n IH]; intros z Hz H0; [done|].
  apply crc_bit_zero; [done|]. apply IH; [by apply crc_bit_width|done].
Qed.

Lemma crc_fold_inj l a b : u32 a → u32 b → foldl crc_byte a l = foldl crc_byte b l → a = b.
Proof.
  revert a b. induction l as [|x l IH]; intros a b Ha Hb He; simpl in *; [done|].
  apply IH in He; [|by apply crc_byte_width..]. unfold crc_byte in He.
  apply crc_bits_inj in He; [|by apply lxor_width; [lia|done|apply byte_width]..].
  apply (f_equal (λ z, Z.lxor z (byte_to_Z x))) in He.
  by rewrite !Z.lxor_assoc, !Z.lxor_nilpotent, !Z.lxor_0_r in He.
Qed.

(** ** A window of bytes as one number *)

Lemma crc_bit_double z : crc_bit (2 * z) = z.
Proof.
  unfold crc_bit. rewrite Z.testbit_even_0, Z.shiftr_div_pow2 by lia. change (2 ^ 1) with 2.
  rewrite Z.mul_comm. by apply Z.div_mul.
Qed.

Lemma crc_bits_shift n z : crc_bits n (2 ^ Z.of_nat n * z) = z.
Proof.
  revert z. induction n as [|n IH]; intros z; [simpl; lia|].
  cbn [crc_bits]. rewrite Nat2Z.inj_succ, Z.pow_succ_r, <-Z.mul_assoc, crc_bit_double by lia. apply IH.
Qed.

Lemma byte_lxor_shift b z : 0 ≤ z → byte_to_Z b + 256 * z = Z.lxor (byte_to_Z b) (256 * z).
Proof.
  intros Hz. pose proof (byte_to_Z_range b) as Hb. apply Z.add_nocarry_lxor.
  apply Z.bits_inj'. intros k Hk. rewrite Z.land_spec, Z.bits_0. destruct (decide (8 ≤ k)).
  - assert (Z.testbit (byte_to_Z b) k = false) as ->; [|done].
    apply (Z.bounded_iff_bits_nonneg 8); simpl; lia.
  - replace (256 * z) with (z * 2 ^ 8) by lia. rewrite Z.mul_pow2_bits_low by lia. apply andb_false_r.
Qed.

Lemma crc_bits_add n k c : crc_bits (n + k) c = crc_bits k (crc_bits n c).
Proof. revert c. induction n as [|n IH]; intros c; simpl; [done|]. apply IH. Qed.

Lemma crc_fold_word w c :
  foldl crc_byte c w = crc_bits (8 * length w) (Z.lxor c (le_get w)).
Proof.
  revert c. induction w as [|b w IH]; intros c.
  { rewrite le_get_nil. cbn. by rewrite Z.lxor_0_r. }
  cbn [foldl length]. rewrite IH. replace (8 * S (length w))%nat with (8 + 8 * length w)%nat by lia.
  rewrite crc_bits_add. f_equal. unfold crc_byte. rewrite le_get_cons.
  pose proof (le_get_range w) as [Hg _]. rewrite byte_lxor_shift, <-Z.lxor_assoc by done.
  rewrite (crc_bits_lxor 8 _ (256 * _)). f_equal. symmetry. apply (crc_bits_shift 8).
Qed.

(** Messages of the same length that differ only inside a window of at most
    four bytes have different checksums. *)
Lemma ChecksumIEEE_burst pre w w' post :
  length w = length w' → (length w ≤ 4)%nat → w ≠ w' →
  ChecksumIEEE (pre ++ w ++ post) ≠ ChecksumIEEE (pre ++ w' ++ post).
Proof.
  intros Hl H4 Hne He. unfold ChecksumIEEE in He.
  apply (f_equal (λ z, Z.lxor z crc_ones)) in He.
  rewrite !Z.lxor_assoc, !Z.lxor_nilpotent, !Z.lxor_0_r, !foldl_app in He.
  assert (u32 (foldl crc_byte crc_ones pre)) as Hc by apply crc_fold_width, crc_ones_width.
  apply crc_fold_inj in He; [|by apply crc_fold_width..].
  rewrite (crc_fold_word w), (crc_fold_word w'), <-Hl in He.
  assert (∀ v, length v = length w → u32 (le_get v)) as Hw.
  { intros v Hv. pose proof (le_get_range v) as Hr. rewrite Hv in Hr. unfold in_width.
    assert (2 ^ (8 * Z.of_nat (length w)) ≤ 2 ^ 32); [|lia]. apply Z.pow_le_mono_r; lia. }
  apply crc_bits_inj in He; [|apply lxor_width; [lia|done|by apply Hw]..].
  apply Hne. apply (f_equal (Z.lxor (foldl crc_byte crc_ones pre))) in He.
  rewrite <-!Z.lxor_assoc, !Z.lxor_nilpotent, !Z.lxor_0_l in He.
  rewrite <-(le_put_get w), <-(le_put_get w'), <-Hl, He. done.
Qed.
