(* ===== verification/Blockset.v ===== *)
(** * Blocksets: the layers between a file and the block store

    Models [src/blockset.go] and [src/blockset/*.go].  A blockset is a stack of
    layers over one block store: the base layer holds the references, the crc
    layer a checksum per block, the replication layer further references to
    copies.  Methods that change the blockset take it and return the new one
    together with the store, so that what was done before an error is kept.
    Whether the store field of a layer is nil is the flag [store]/[bs]; the
    context argument, log lines and metrics are left out (the ["isEmpty"] value
    the crc layer puts in the context is read nowhere), except the slice
    expression [data[:10]] of a log call, which can panic.  A slice is taken to
    have no spare capacity. *)
From S2P Require Import Prelude GoSem GoStrings Refs Store Crc32.
From Stdlib Require Import Ascii.

(** The three implementations of the interface, and the nil interface. *)
Inductive blockset : Type :=
  | NilBlockset
  | baseBlockset (ids : Z) (blocks : list BlockRef) (store : bool) (blocksize : Z)
  | crcBlockset (sub : blockset) (crcs : list Z) (emptyCrc : Z)
  | replicationBlockset (rep : Z) (sub : blockset) (repBlocks : list (list BlockRef)) (bs : bool).

Definition BlockLayerKind : Type := Z.
Record BlockLayer := mkBlockLayer { LKind : BlockLayerKind; Options : string }.
Definition BlockLayerSpec : Type := list BlockLayer.

(** [models.BlockLayer] *)
Record PBlockLayer := mkPBlockLayer { PType : Z; PContent : bytes }.

Definition Base : BlockLayerKind := 0.
Definition CRC : BlockLayerKind := 1.
Definition Replication : BlockLayerKind := 2.

(** ** Methods without effects *)

Definition Kind (b : blockset) : res Z :=
  match b with
  | NilBlockset => Panic
  | baseBlockset _ _ _ _ => Ok Base
  | crcBlockset _ _ _ => Ok CRC
  | replicationBlockset _ _ _ _ => Ok Replication
  end.

Fixpoint Length (b : blockset) : res Z :=
  match b with
  | NilBlockset => Panic
  | baseBlockset _ blocks _ _ => Ok (Z.of_nat (length blocks))
  | crcBlockset sub crcs _ =>
      n ← Length sub;
      if decide (n ≠ Z.of_nat (length crcs)) then Panic else Ok (Z.of_nat (length crcs))
  | replicationBlockset _ sub _ _ => Length sub
  end.

Definition GetSubBlockset (b : blockset) : blockset :=
  match b with
  | crcBlockset sub _ _ | replicationBlockset _ sub _ _ => sub
  | _ => NilBlockset
  end.

(** Whether [getStore] gives a store; [None] when the call panics. *)
Fixpoint getStore (b : blockset) : res bool :=
  match b with
  | NilBlockset => Panic
  | baseBlockset _ _ st _ => Ok st
  | crcBlockset sub _ _ => getStore sub
  | replicationBlockset _ _ _ st => Ok st
  end.

(** The set of inodes; the bitmap holds 32-bit values. *)
Fixpoint GetLiveINodes (b : blockset) : res (gset Z) :=
  match b with
  | NilBlockset => Panic
  | baseBlockset _ blocks _ _ =>
      Ok (list_to_set ((λ r : BlockRef, wrap32 (INode r)) <$> filter (λ r : BlockRef, IsZero r = false) blocks))
  | crcBlockset sub _ _ => GetLiveINodes sub
  | replicationBlockset _ sub _ _ => GetLiveINodes sub
  end.

(** [copy(out[i*nblocks:], list)] for each replica list in turn. *)
Fixpoint copy_lists (i : nat) (n : nat) (ls : list (list BlockRef)) (out : list BlockRef) :
    list BlockRef :=
  match ls with
  | [] => out
  | l :: ls' => copy_lists (S i) n ls' (blit (i * n) l out)
  end.

Fixpoint GetAllBlockRefs (b : blockset) : res (list BlockRef) :=
  match b with
  | NilBlockset => Panic
  | baseBlockset _ blocks _ _ => Ok blocks
  | crcBlockset sub _ _ => GetAllBlockRefs sub
  | replicationBlockset _ sub repBlocks _ =>
      subs ← GetAllBlockRefs sub;
      l0 ← or_panic (repBlocks !! 0%nat);
      let n := length l0 in
      mret (subs ++ copy_lists 0 n repBlocks (replicate (n * length repBlocks) ZeroBlock))
  end.

(** [makeID]: the counter of the base layer. *)
Fixpoint makeID (i : INodeRef) (b : blockset) : res (BlockRef * blockset) :=
  match b with
  | NilBlockset => Panic
  | baseBlockset ids blocks st bsz =>
      let id := wrap64 (ids + 1) in
      Ok (mkBlockRef i id, baseBlockset id blocks st bsz)
  | crcBlockset sub crcs e =>
      '(r, sub') ← makeID i sub; mret (r, crcBlockset sub' crcs e)
  | replicationBlockset rep sub rb st =>
      '(r, sub') ← makeID i sub; mret (r, replicationBlockset rep sub' rb st)
  end.

Fixpoint setStore (blockSize : Z) (b : blockset) : res blockset :=
  match b with
  | NilBlockset => Panic
  | baseBlockset ids blocks _ _ => Ok (baseBlockset ids blocks true blockSize)
  | crcBlockset sub crcs _ =>
      sub' ← setStore blockSize sub;
      mret (crcBlockset sub' crcs (ChecksumIEEE (zeros (Z.to_nat blockSize))))
  | replicationBlockset rep sub rb _ =>
      sub' ← setStore blockSize sub; mret (replicationBlockset rep sub' rb true)
  end.

(** ** Marshalling *)

(** [binary.Write(buf, LittleEndian, int32(x))] *)
Definition put_int32 (x : Z) : bytes := le_put 4 x.

Fixpoint marshal_lists (k : nat) (ls : list (list BlockRef)) : res bytes :=
  match k with
  | O => Ok []
  | S k' =>
      match ls with
      | [] => Panic
      | l :: ls' =>
          rest ← marshal_lists k' ls';
          mret (put_int32 (Z.of_nat (length l)) ++ concat (BlockRef_ToBytes <$> l) ++ rest)
      end
  end.

Definition base_Marshal (blocks : list BlockRef) : res bytes :=
  Ok (concat (BlockRef_ToBytes <$> blocks)).
Definition crc_Marshal (crcs : list Z) : res bytes := Ok (concat (le_put 4 <$> crcs)).
Definition rep_Marshal (rep : Z) (repBlocks : list (list BlockRef)) : res bytes :=
  rest ← marshal_lists (Z.to_nat (rep - 1)) repBlocks;
  mret (put_int32 rep ++ rest).

Definition Marshal (b : blockset) : res bytes :=
  match b with
  | NilBlockset => Panic
  | baseBlockset _ blocks _ _ => base_Marshal blocks
  | crcBlockset _ crcs _ => crc_Marshal crcs
  | replicationBlockset rep _ repBlocks _ => rep_Marshal rep repBlocks
  end.

(** [binary.Read] of an [int32] from the bytes that are left. *)
Definition read_int32 (r : bytes) : res (Z * bytes) :=
  if decide (length r = 0%nat) then Err EOF
  else if decide (length r < 4)%nat then Err (ErrMsg "unexpected EOF")
  else Ok (to_signed 32 (le_get (take 4 r)), drop 4 r).

(** [r.Read(buf)] into a zeroed buffer of a reference's size: what is left may
    be shorter. *)
Definition read_ref (r : bytes) : res (BlockRef * bytes) :=
  if decide (length r = 0%nat) then Err EOF
  else
    let n := Nat.min (length r) BlockRefByteSize in
    x ← BlockRefFromBytes (take n r ++ zeros (BlockRefByteSize - n));
    mret (x, drop n r).

Fixpoint read_refs (k : nat) (r : bytes) : res (list BlockRef * bytes) :=
  match k with
  | O => Ok ([], r)
  | S k' =>
      '(x, r1) ← read_ref r;
      '(xs, r2) ← read_refs k' r1;
      mret (x :: xs, r2)
  end.

(** The loop of [replicationBlockset.Unmarshal] from list [i] on; the lists
    read before an error stay. *)
Fixpoint read_lists (k i : nat) (r : bytes) (out : list (list BlockRef)) :
    res unit * list (list BlockRef) :=
  match k with
  | O => (Ok tt, out)
  | S k' =>
      match read_int32 r with
      | Err e => (Err e, out)
      | Panic => (Panic, out)
      | Ok (l, r1) =>
          if decide (l < 0) then (Panic, out)
          else
            match read_refs (Z.to_nat l) r1 with
            | Err e => (Err e, out)
            | Panic => (Panic, out)
            | Ok (xs, r2) => read_lists k' (S i) r2 (<[i := xs]> out)
            end
      end
  end.

(** Consecutive pieces of [n] bytes; a shorter rest is dropped. *)
Fixpoint chunks (fuel n : nat) (d : bytes) : list bytes :=
  match fuel with
  | O => []
  | S fuel' => take n d :: chunks fuel' n (drop n d)
  end.
Definition pieces (n : nat) (d : bytes) : list bytes := chunks (length d / n) n d.

Fixpoint refs_of (ps : list bytes) : res (list BlockRef) :=
  match ps with
  | [] => Ok []
  | p :: ps' => x ← BlockRefFromBytes p; xs ← refs_of ps'; mret (x :: xs)
  end.

Definition base_Unmarshal (data : bytes) (b : blockset) (ids : Z) (st : bool) (bsz : Z) :
    res unit * blockset :=
  match refs_of (pieces BlockRefByteSize data) with
  | Ok out => (Ok tt, baseBlockset ids out st bsz)
  | Err e => (Err e, b)
  | Panic => (Panic, b)
  end.

Definition crc_Unmarshal (data : bytes) (sub : blockset) (e : Z) : res unit * blockset :=
  (Ok tt, crcBlockset sub (le_get <$> pieces 4 data) e).

Definition rep_Unmarshal (data : bytes) (b sub : blockset) (rb : list (list BlockRef)) (st : bool) :
    res unit * blockset :=
  match read_int32 data with
  | Err e => (Err e, b)
  | Panic => (Panic, b)
  | Ok (rep', r) =>
      if decide (rep' < 0) then (Panic, replicationBlockset rep' sub rb st)
      else
        let '(o, out) :=
          read_lists (Z.to_nat (rep' - 1)) 0 r (replicate (Z.to_nat rep') []) in
        (o, replicationBlockset rep' sub out st)
  end.

Definition Unmarshal (data : bytes) (b : blockset) : res unit * blockset :=
  match b with
  | NilBlockset => (Panic, b)
  | baseBlockset ids _ st bsz => base_Unmarshal data b ids st bsz
  | crcBlockset sub _ e => crc_Unmarshal data sub e
  | replicationBlockset rep sub rb st => rep_Unmarshal data b sub rb st
  end.

Fixpoint MarshalBlocksetToProto (bs : blockset) : res (list PBlockLayer) :=
  match bs with
  | NilBlockset => Ok []
  | _ =>
      m ← Marshal bs;
      k ← Kind bs;
      rest ← (match bs with
              | crcBlockset sub _ _ | replicationBlockset _ sub _ _ => MarshalBlocksetToProto sub
              | _ => Ok []
              end);
      mret (mkPBlockLayer k m :: rest)
  end.

(** ** Creation *)

Definition defaultReplication : Z := 2.

(** [store] is the block size of the store, [None] for a nil store. *)
Definition newBaseBlockset (store : option Z) : blockset :=
  baseBlockset 0 [] (bool_decide (is_Some store)) (default 0 store).
Definition newCRCBlockset (sub : blockset) : blockset := crcBlockset sub [] 0.
Definition newReplicationBlockset (sub : blockset) (store : option Z) (r : Z) : res blockset :=
  if decide (r - 1 < 0) then Panic
  else Ok (replicationBlockset r sub (replicate (Z.to_nat (r - 1)) []) (bool_decide (is_Some store))).

(** The registry has the three kinds; calling the nil constructor of another
    kind panics. *)
Definition createBlockset (b : BlockLayer) (store : option Z) (subLayer : blockset) : res blockset :=
  if decide (LKind b = Base) then Ok (newBaseBlockset store)
  else if decide (LKind b = CRC) then Ok (newCRCBlockset subLayer)
  else if decide (LKind b = Replication) then
    if decide (Options b = EmptyString) then newReplicationBlockset subLayer store defaultReplication
    else match Atoi (Options b) with
         | None => Err (ErrMsg ("unknown replication amount: " ++ Options b))
         | Some r => newReplicationBlockset subLayer store r
         end
  else Panic.

(** The layers are created from the last to the first. *)
Fixpoint createLayers (spec : BlockLayerSpec) (store : option Z) : res blockset :=
  match spec with
  | [] => Ok NilBlockset
  | m :: spec' => layer ← createLayers spec' store; createBlockset m store layer
  end.
Definition CreateBlocksetFromSpec (spec : BlockLayerSpec) (store : option Z) : res blockset :=
  if decide (length spec = 0%nat) then Err (ErrMsg "Empty spec") else createLayers spec store.

Fixpoint unmarshalLayers (layers : list PBlockLayer) (store : option Z) : res blockset :=
  match layers with
  | [] => Ok NilBlockset
  | m :: layers' =>
      layer ← unmarshalLayers layers' store;
      newl ← createBlockset (mkBlockLayer (PType m) EmptyString) store layer;
      match Unmarshal (PContent m) newl with
      | (Ok _, newl') => Ok newl'
      | (Err e, _) => Err e
      | (Panic, _) => Panic
      end
  end.
Definition UnmarshalFromProto (layers : list PBlockLayer) (store : option Z) : res blockset :=
  if decide (length layers = 0%nat) then Err (ErrMsg "No layers to unmarshal")
  else unmarshalLayers layers store.

Definition ParseBlockLayerKind (s : string) : res BlockLayerKind :=
  let smalls := to_lower s in
  if decide (smalls = "base"%string) then Ok Base
  else if decide (smalls = "crc"%string) then Ok CRC
  else if decide (smalls = "rep"%string ∨ smalls = "r"%string) then Ok Replication
  else Err (ErrMsg ("no such block layer type: " ++ s)).

Fixpoint parse_layers (ss : list string) : res BlockLayerSpec :=
  match ss with
  | [] => Ok []
  | x :: ss' =>
      let opts := split "="%char x in
      k ← ParseBlockLayerKind (default EmptyString (opts !! 0%nat));
      rest ← parse_layers ss';
      mret (mkBlockLayer k (default EmptyString (opts !! 1%nat)) :: rest)
  end.
Definition ParseBlockLayerSpec (s : string) : res BlockLayerSpec := parse_layers (split ","%char s).

Definition MustParseBlockLayerSpec (s : string) : res BlockLayerSpec :=
  match ParseBlockLayerSpec s with Err _ => Panic | r => r end.

(** ** Truncate and Trim *)

(** [l[:n]], or [n - len(l)] copies of [x] appended. *)
Definition resize {A} (n : Z) (x : A) (l : list A) : option (list A) :=
  if decide (n ≤ Z.of_nat (length l)) then gslice 0 n l
  else Some (l ++ replicate (Z.to_nat (n - Z.of_nat (length l))) x).

(** [for i := range b.repBlocks { b.repBlocks[i] = b.repBlocks[i][:n] }] *)
Fixpoint shrink_lists (n : Z) (ls : list (list BlockRef)) : option (list (list BlockRef)) :=
  match ls with
  | [] => Some []
  | l :: ls' => l' ← gslice 0 n l; rest ← shrink_lists n ls'; Some (l' :: rest)
  end.

(** The growing loop, at list [i]: the number of blocks to add is read off the
    first list each time. *)
Fixpoint grow_lists (k i : nat) (n : Z) (ls : list (list BlockRef)) : list (list BlockRef) :=
  match k with
  | O => ls
  | S k' =>
      let toadd := n - Z.of_nat (length (default [] (ls !! 0%nat))) in
      let l := default [] (ls !! i) in
      grow_lists k' (S i) n (<[i := l ++ replicate (Z.to_nat toadd) ZeroBlock]> ls)
  end.

(** Each layer's part of the method; [sub] is what the call to the layer below
    gave. *)
Definition base_Truncate (lastIndex : Z) (b : blockset) (ids : Z) (blocks : list BlockRef)
    (st : bool) (z : Z) : res unit * blockset :=
  match resize lastIndex ZeroBlock blocks with
  | Some blocks' => (Ok tt, baseBlockset ids blocks' st z)
  | None => (Panic, b)
  end.

Definition crc_Truncate (lastIndex bsz : Z) (crcs : list Z) (e : Z) (sub : res unit * blockset) :
    res unit * blockset :=
  match sub with
  | (Ok _, sub') =>
      match resize lastIndex (ChecksumIEEE (zeros (Z.to_nat bsz))) crcs with
      | Some crcs' => (Ok tt, crcBlockset sub' crcs' e)
      | None => (Panic, crcBlockset sub' crcs e)
      end
  | (o, sub') => (o, crcBlockset sub' crcs e)
  end.

Definition rep_Truncate (lastIndex rep : Z) (rb : list (list BlockRef)) (st : bool)
    (sub : res unit * blockset) : res unit * blockset :=
  match sub with
  | (Ok _, sub') =>
      match rb !! 0%nat with
      | None => (Panic, replicationBlockset rep sub' rb st)
      | Some l0 =>
          if decide (lastIndex ≤ Z.of_nat (length l0)) then
            match shrink_lists lastIndex rb with
            | Some rb' => (Ok tt, replicationBlockset rep sub' rb' st)
            | None => (Panic, replicationBlockset rep sub' rb st)
            end
          else (Ok tt, replicationBlockset rep sub' (grow_lists (length rb) 0 lastIndex rb) st)
      end
  | (o, sub') => (o, replicationBlockset rep sub' rb st)
  end.

Fixpoint Truncate (lastIndex bsz : Z) (b : blockset) : res unit * blockset :=
  match b with
  | NilBlockset => (Panic, b)
  | baseBlockset ids blocks st z => base_Truncate lastIndex b ids blocks st z
  | crcBlockset sub crcs e => crc_Truncate lastIndex bsz crcs e (Truncate lastIndex bsz sub)
  | replicationBlockset rep sub rb st =>
      rep_Truncate lastIndex rep rb st (Truncate lastIndex bsz sub)
  end.

(** [for i := from; i < to; i++ { l[i] = x }], [k] steps from [i] on. *)
Fixpoint assign_loop {A} (k : nat) (i : Z) (x : A) (l : list A) : option (list A) :=
  match k with
  | O => Some l
  | S k' => l' ← gassign i x l; assign_loop k' (i + 1) x l'
  end.
Definition assign_range {A} (from to : Z) (x : A) (l : list A) : option (list A) :=
  assign_loop (Z.to_nat (to - from)) from x l.

(** The base layer clips the range to the length of its list. *)
Definition trim_list {A} (from to : Z) (x : A) (l : list A) : option (list A) :=
  let n := Z.of_nat (length l) in
  if decide (n ≤ from) then Some l
  else assign_range from (if decide (n < to) then n else to) x l.

(** One block of every replica list; empty lists are skipped. *)
Fixpoint trim_copies (i : Z) (ls : list (list BlockRef)) : option (list (list BlockRef)) :=
  match ls with
  | [] => Some []
  | l :: ls' =>
      l' ← (if decide (length l = 0%nat) then Some l else gassign i ZeroBlock l);
      rest ← trim_copies i ls';
      Some (l' :: rest)
  end.
Fixpoint trim_loop (k : nat) (i : Z) (ls : list (list BlockRef)) : option (list (list BlockRef)) :=
  match k with
  | O => Some ls
  | S k' => ls' ← trim_copies i ls; trim_loop k' (i + 1) ls'
  end.

Definition base_Trim (from to : Z) (b : blockset) (ids : Z) (blocks : list BlockRef) (st : bool)
    (z : Z) : res unit * blockset :=
  match trim_list from to ZeroBlock blocks with
  | Some blocks' => (Ok tt, baseBlockset ids blocks' st z)
  | None => (Panic, b)
  end.

Definition crc_Trim (bsz from to : Z) (crcs : list Z) (e : Z) (sub : res unit * blockset) :
    res unit * blockset :=
  match sub with
  | (Ok _, sub') =>
      let n := Z.of_nat (length crcs) in
      if decide (n ≤ from) then (Ok tt, crcBlockset sub' crcs e)
      else
        match getStore sub' with
        | Ok true =>
            let e' := ChecksumIEEE (zeros (Z.to_nat bsz)) in
            match assign_range from (if decide (n < to) then n else to) e' crcs with
            | Some crcs' => (Ok tt, crcBlockset sub' crcs' e')
            | None => (Panic, crcBlockset sub' crcs e')
            end
        | _ => (Panic, crcBlockset sub' crcs e)
        end
  | (o, sub') => (o, crcBlockset sub' crcs e)
  end.

Definition rep_Trim (from to rep : Z) (rb : list (list BlockRef)) (st : bool)
    (sub : res unit * blockset) : res unit * blockset :=
  match sub with
  | (Ok _, sub') =>
      match rb !! 0%nat with
      | None => (Panic, replicationBlockset rep sub' rb st)
      | Some l0 =>
          let n := Z.of_nat (length l0) in
          if decide (n ≤ from) then (Ok tt, replicationBlockset rep sub' rb st)
          else
            let to' := if decide (n < to) then n else to in
            match trim_loop (Z.to_nat (to' - from)) from rb with
            | Some rb' => (Ok tt, replicationBlockset rep sub' rb' st)
            | None => (Panic, replicationBlockset rep sub' rb st)
            end
      end
  | (o, sub') => (o, replicationBlockset rep sub' rb st)
  end.

(** [bsz] is the block size of the store. *)
Fixpoint Trim (bsz from to : Z) (b : blockset) : res unit * blockset :=
  match b with
  | NilBlockset => (Panic, b)
  | baseBlockset ids blocks st z => base_Trim from to b ids blocks st z
  | crcBlockset sub crcs e => crc_Trim bsz from to crcs e (Trim bsz from to sub)
  | replicationBlockset rep sub rb st => rep_Trim from to rep rb st (Trim bsz from to sub)
  end.

(** ** Reading and writing *)

(** [if i == len(l) { l = append(l, x) } else { l[i] = x }] *)
Definition set_at {A} (i : Z) (x : A) (l : list A) : option (list A) :=
  if decide (i = Z.of_nat (length l)) then Some (l ++ [x]) else gassign i x l.

Section store.
Context {S : Type} `{B : BlockStore S}.

(** A call to a store field that may be nil. *)
Definition on_store {A} (st : bool) (m : M S A) : M S A := if st then m else panic.

(** [make([]byte, b.store.BlockSize())] *)
Definition make_block : M S slice := λ s,
  let '(sl, s') := mk_slice (zeros (Z.to_nat (BlockSize s))) s in (Ok sl, s').

(** The copies in turn, until one can be read. *)
Fixpoint get_copy (k : nat) (i : Z) (ls : list (list BlockRef)) (st : bool) : M S slice :=
  match k with
  | O => throw ErrBlockUnavailable
  | Datatypes.S k' =>
      match ls with
      | [] => panic
      | l :: ls' =>
          ref ← lift (or_panic (gindex l i));
          x ← try (on_store st (Store.GetBlock ref));
          match x with
          | inl sl => mret sl
          | inr _ => get_copy k' i ls' st
          end
      end
  end.

Definition base_GetBlock (blocks : list BlockRef) (st : bool) (i : Z) : M S slice :=
  if decide (Z.of_nat (length blocks) ≤ i) then throw ErrBlockNotExist
  else
    ref ← lift (or_panic (gindex blocks i));
    if IsZero ref then on_store st make_block
    else on_store st (Store.GetBlock ref).

Definition crc_GetBlock (crcs : list Z) (i : Z) (sub : M S slice) : M S slice :=
  if decide (Z.of_nat (length crcs) ≤ i) then throw ErrBlockNotExist
  else
    sl ← sub;
    data ← gets (λ s, deref s sl);
    c ← lift (or_panic (gindex crcs i));
    if decide (ChecksumIEEE data ≠ c) then
      _ ← lift (or_panic (gslice 0 10 data));
      throw ErrBlockUnavailable
    else mret sl.

Definition rep_GetBlock (rep : Z) (rb : list (list BlockRef)) (st : bool) (i : Z) (sub : M S slice) :
    M S slice :=
  if decide (rep = 0) then throw ErrBlockUnavailable
  else
    x ← try sub;
    match x with
    | inl sl => mret sl
    | inr ErrBlockNotExist => throw ErrBlockNotExist
    | inr _ => get_copy (Z.to_nat (rep - 1)) i rb st
    end.

Fixpoint GetBlock (b : blockset) (i : Z) : M S slice :=
  match b with
  | NilBlockset => panic
  | baseBlockset _ blocks st _ => base_GetBlock blocks st i
  | crcBlockset sub crcs _ => crc_GetBlock crcs i (GetBlock sub i)
  | replicationBlockset rep sub rb st => rep_GetBlock rep rb st i (GetBlock sub i)
  end.

(** The copies [rep] = [idx], [idx + 1], ... of a block. *)
Fixpoint put_copies (k idx : nat) (inode : INodeRef) (i : Z) (data : bytes) (st : bool)
    (sub : blockset) (rb : list (list BlockRef)) (s : S) :
    res unit * blockset * list (list BlockRef) * S :=
  match k with
  | O => (Ok tt, sub, rb, s)
  | Datatypes.S k' =>
      match makeID inode sub with
      | Ok (r, sub') =>
          match on_store st (WriteBlock r data) s with
          | (Ok _, s') =>
              match (l ← rb !! idx; set_at i r l) with
              | Some l' => put_copies k' (Datatypes.S idx) inode i data st sub' (<[idx := l']> rb) s'
              | None => (Panic, sub', rb, s')
              end
          | (o, s') => (o, sub', rb, s')
          end
      | _ => (Panic, sub, rb, s)
      end
  end.

Definition base_PutBlock (inode : INodeRef) (i : Z) (data : bytes) (b : blockset)
    (ids : Z) (blocks : list BlockRef) (st : bool) (z : Z) (s : S) : res unit * blockset * S :=
  if decide (Z.of_nat (length blocks) < i) then (Err ErrBlockNotExist, b, s)
  else
    let id := wrap64 (ids + 1) in
    let r := mkBlockRef inode id in
    match on_store st (WriteBlock r data) s with
    | (Ok _, s') =>
        match set_at i r blocks with
        | Some blocks' => (Ok tt, baseBlockset id blocks' st z, s')
        | None => (Panic, baseBlockset id blocks st z, s')
        end
    | (o, s') => (o, baseBlockset id blocks st z, s')
    end.

Definition crc_PutBlock (i : Z) (data : bytes) (b : blockset) (crcs : list Z) (e : Z)
    (sub : S → res unit * blockset * S) (s : S) : res unit * blockset * S :=
  if decide (Z.of_nat (length crcs) < i) then (Err ErrBlockNotExist, b, s)
  else
    match sub s with
    | (Ok _, sub', s') =>
        match set_at i (ChecksumIEEE data) crcs with
        | Some crcs' => (Ok tt, crcBlockset sub' crcs' e, s')
        | None => (Panic, crcBlockset sub' crcs e, s')
        end
    | (o, sub', s') => (o, crcBlockset sub' crcs e, s')
    end.

Definition rep_PutBlock (inode : INodeRef) (i : Z) (data : bytes) (b : blockset) (rep : Z)
    (rb : list (list BlockRef)) (st : bool) (sub : S → res unit * blockset * S) (s : S) :
    res unit * blockset * S :=
  if decide (rep = 0) then (Err ErrBlockUnavailable, b, s)
  else
    match sub s with
    | (Ok _, sub', s') =>
        let '(o, sub'', rb', s'') :=
          put_copies (Z.to_nat (rep - 1)) 0 inode i data st sub' rb s' in
        (o, replicationBlockset rep sub'' rb' st, s'')
    | (o, sub', s') => (o, replicationBlockset rep sub' rb st, s')
    end.

Fixpoint PutBlock (inode : INodeRef) (i : Z) (data : bytes) (b : blockset) (s : S) :
    res unit * blockset * S :=
  match b with
  | NilBlockset => (Panic, b, s)
  | baseBlockset ids blocks st z => base_PutBlock inode i data b ids blocks st z s
  | crcBlockset sub crcs e => crc_PutBlock i data b crcs e (PutBlock inode i data sub) s
  | replicationBlockset rep sub rb st =>
      rep_PutBlock inode i data b rep rb st (PutBlock inode i data sub) s
  end.
End store.

(** Unfolds the methods down to their layers. *)
Ltac layers :=
  cbn [GetBlock PutBlock Truncate Trim Marshal Unmarshal];
  unfold base_GetBlock, crc_GetBlock, rep_GetBlock, base_PutBlock, crc_PutBlock, rep_PutBlock,
    base_Truncate, crc_Truncate, rep_Truncate, base_Trim, crc_Trim, rep_Trim,
    base_Marshal, crc_Marshal, rep_Marshal, base_Unmarshal, crc_Unmarshal, rep_Unmarshal.

(** ** Lists updated at an index *)

Lemma set_at_Some {A} i (x : A) l :
  0 ≤ i ≤ Z.of_nat (length l) → ∃ l', set_at i x l = Some l'.
Proof.
  intros Hi. unfold set_at, gassign. case_decide; [eauto|]. rewrite decide_True by lia. eauto.
Qed.

(** What the list holds afterwards. *)
Lemma set_at_lookup {A} i (x : A) l l' j :
  set_at i x l = Some l' → l' !! j = if decide (j = Z.to_nat i) then Some x else l !! j.
Proof.
  unfold set_at, gassign. intros Hs. case_decide as Hi.
  - simplify_eq. rewrite Nat2Z.id. case_decide as Hj; [subst; by rewrite lookup_app_r, Nat.sub_diag by lia|].
    destruct (decide (j < length l)%nat); [by rewrite lookup_app_l|].
    rewrite !lookup_ge_None_2; [done|lia|len].
  - case_decide as Hr; [|done]. simplify_eq. case_decide as Hj; [subst; apply list_lookup_insert_eq; lia|].
    by apply list_lookup_insert_ne.
Qed.

Lemma set_at_length {A} i (x : A) l l' :
  set_at i x l = Some l' →
  Z.of_nat (length l') = Z.max (Z.of_nat (length l)) (i + 1) ∧ 0 ≤ i ≤ Z.of_nat (length l).
Proof.
  unfold set_at, gassign. intros Hs. case_decide; simplify_eq; [len|].
  case_decide; simplify_eq. len.
Qed.

Lemma set_at_Forall {A} (P : A → Prop) i x l l' :
  P x → Forall P l → set_at i x l = Some l' → Forall P l'.
Proof.
  intros Hx Hl Hs. apply Forall_lookup. intros j y. rewrite (set_at_lookup _ _ _ _ _ Hs).
  case_decide; [naive_solver|]. by apply Forall_lookup_1.
Qed.

Lemma set_at_Forall2 {A B} (P : A → B → Prop) i x y l k l' k' :
  P x y → Forall2 P l k → set_at i x l = Some l' → set_at i y k = Some k' → Forall2 P l' k'.
Proof.
  intros Hx Hl Hs Ht. pose proof (Forall2_length Hl) as Hlen.
  apply Forall2_same_length_lookup. split.
  - pose proof (set_at_length _ _ _ _ Hs). pose proof (set_at_length _ _ _ _ Ht). lia.
  - intros j a b. rewrite (set_at_lookup _ _ _ _ _ Hs), (set_at_lookup _ _ _ _ _ Ht).
    case_decide; [naive_solver|]. intros. by eapply Forall2_lookup_lr.
Qed.

Lemma set_at_fmap {A B} (f : A → B) i x l l' :
  set_at i x l = Some l' → set_at i (f x) (f <$> l) = Some (f <$> l').
Proof.
  unfold set_at, gassign. rewrite length_fmap. intros Hs.
  case_decide; simplify_eq; [by rewrite fmap_app|].
  case_decide; simplify_eq. by rewrite list_fmap_insert.
Qed.

(** The two list operations of [Truncate] and [Trim], without panics. *)
Definition truncated {A} (n : Z) (x : A) (l : list A) : list A :=
  take (Z.to_nat n) l ++ replicate (Z.to_nat n - length l) x.
Definition trimmed {A} (from to : Z) (x : A) (l : list A) : list A :=
  imap (λ j y, if decide (from ≤ Z.of_nat j < to) then x else y) l.

Lemma resize_truncated {A} n (x : A) l : 0 ≤ n → resize n x l = Some (truncated n x l).
Proof.
  intros Hn. unfold resize, truncated. case_decide.
  - unfold gslice. rewrite decide_True, Z.sub_0_r, drop_0 by lia.
    replace (Z.to_nat n - length l)%nat with 0%nat by lia. simpl. by rewrite app_nil_r.
  - rewrite take_ge by lia. do 3 f_equal. lia.
Qed.

Lemma trimmed_none {A} i j (x : A) l : j ≤ i → trimmed i j x l = l.
Proof.
  intros Hi. apply list_eq. intros k. unfold trimmed. rewrite list_lookup_imap.
  destruct (l !! k); simpl; [|done]. by rewrite decide_False by lia.
Qed.

Lemma trimmed_step {A} i j (x : A) l :
  0 ≤ i < Z.of_nat (length l) → i < j →
  trimmed (i + 1) j x (<[Z.to_nat i := x]> l) = trimmed i j x l.
Proof.
  intros Hi Hj. apply list_eq. intros k. unfold trimmed.
  rewrite !list_lookup_imap. destruct (decide (k = Z.to_nat i)) as [->|Hk].
  - destruct (lookup_lt_is_Some_2 l (Z.to_nat i)) as [y Hy]; [lia|].
    rewrite list_lookup_insert_eq, Hy by lia. simpl. by rewrite decide_False, decide_True by lia.
  - rewrite list_lookup_insert_ne by done. destruct (l !! k); simpl; [|done]. f_equal.
    apply decide_ext. lia.
Qed.

Lemma assign_loop_spec {A} k i (x : A) l :
  0 ≤ i → i + Z.of_nat k ≤ Z.of_nat (length l) →
  assign_loop k i x l = Some (trimmed i (i + Z.of_nat k) x l).
Proof.
  revert i l. induction k as [|k IH]; intros i l Hi Hk; cbn [assign_loop].
  { by rewrite trimmed_none by lia. }
  unfold gassign. rewrite decide_True by lia. cbn [mbind option_bind].
  rewrite IH by (rewrite ?length_insert; lia). f_equal.
  rewrite <-(trimmed_step i) by lia. f_equal. lia.
Qed.

Lemma trimmed_clip {A} from to to' (x : A) l :
  (∀ j, 0 ≤ j < Z.of_nat (length l) → (from ≤ j < to ↔ from ≤ j < to')) →
  trimmed from to x l = trimmed from to' x l.
Proof.
  intros Hc. apply list_eq. intros j. unfold trimmed. rewrite !list_lookup_imap.
  destruct (l !! j) eqn:E; simpl; [|done]. apply lookup_lt_Some in E. f_equal.
  apply decide_ext. apply Hc. lia.
Qed.

Lemma assign_range_spec {A} from to (x : A) l (n := Z.of_nat (length l)) :
  0 ≤ from → from < n →
  assign_range from (if decide (n < to) then n else to) x l = Some (trimmed from to x l).
Proof.
  intros H0 Hn. unfold assign_range. rewrite assign_loop_spec by (try case_decide; lia). f_equal.
  apply trimmed_clip. intros j Hj. fold n in Hj. case_decide; lia.
Qed.

Lemma trim_list_spec {A} from to (x : A) l :
  0 ≤ from → trim_list from to x l = Some (trimmed from to x l).
Proof.
  intros H0. unfold trim_list. case_decide as Hn; [|apply assign_range_spec; lia].
  f_equal. apply list_eq. intros j. unfold trimmed. rewrite list_lookup_imap.
  destruct (l !! j) eqn:E; simpl; [|done]. apply lookup_lt_Some in E. by rewrite decide_False by lia.
Qed.

Lemma truncated_Forall2 {A B} (P : A → B → Prop) n x y l k :
  P x y → Forall2 P l k → Forall2 P (truncated n x l) (truncated n y k).
Proof.
  intros Hp Hl. unfold truncated. rewrite (Forall2_length Hl).
  apply Forall2_app; [by apply Forall2_take|]. by apply Forall2_replicate.
Qed.

Lemma trimmed_Forall2 {A B} (P : A → B → Prop) from to x y l k :
  P x y → Forall2 P l k → Forall2 P (trimmed from to x l) (trimmed from to y k).
Proof.
  intros Hp Hl. pose proof (Forall2_length Hl) as Hlen. apply Forall2_same_length_lookup. split.
  - unfold trimmed. by rewrite !length_imap.
  - intros j a b. unfold trimmed. rewrite !list_lookup_imap.
    destruct (l !! j) as [a'|] eqn:Ea, (k !! j) as [b'|] eqn:Eb; simpl; try done.
    intros [= <-] [= <-]. case_decide; [done|]. by eapply Forall2_lookup_lr.
Qed.

Lemma truncated_Forall {A} (P : A → Prop) n x l : P x → Forall P l → Forall P (truncated n x l).
Proof.
  intros Hx Hl. unfold truncated. apply Forall_app. split; [by apply Forall_take|].
  by apply Forall_replicate.
Qed.

Lemma trimmed_Forall {A} (P : A → Prop) from to x l :
  P x → Forall P l → Forall P (trimmed from to x l).
Proof.
  intros Hx Hl. apply Forall_lookup. intros j y. unfold trimmed. rewrite list_lookup_imap.
  destruct (l !! j) eqn:E; simpl; [|done]. intros [= <-]. case_decide; [done|].
  by eapply Forall_lookup_1.
Qed.

Lemma truncated_fmap {A B} (f : A → B) n x l :
  f <$> truncated n x l = truncated n (f x) (f <$> l).
Proof. unfold truncated. by rewrite fmap_app, fmap_take, fmap_replicate, length_fmap. Qed.

Lemma trimmed_fmap {A B} (f : A → B) from to x l :
  f <$> trimmed from to x l = trimmed from to (f x) (f <$> l).
Proof.
  apply list_eq. intros j. unfold trimmed. rewrite list_lookup_fmap, !list_lookup_imap, list_lookup_fmap.
  destruct (l !! j); simpl; [|done]. f_equal. by case_decide.
Qed.

Lemma shrink_lists_spec n ls :
  0 ≤ n → Forall (λ l, n ≤ Z.of_nat (length l)) ls →
  shrink_lists n ls = Some (truncated n ZeroBlock <$> ls).
Proof.
  intros Hn Hl. induction Hl as [|l ls Hl Hls IH]; [done|]. cbn [shrink_lists].
  pose proof (resize_truncated n ZeroBlock l Hn) as Hr. unfold resize in Hr.
  rewrite decide_True in Hr by done. rewrite Hr. cbn [mbind option_bind]. by rewrite IH.
Qed.

Lemma trim_copies_spec i ls :
  0 ≤ i → Forall (λ l, i < Z.of_nat (length l)) ls →
  trim_copies i ls = Some (<[Z.to_nat i := ZeroBlock]> <$> ls).
Proof.
  intros Hi Hl. induction Hl as [|l ls Hl Hls IH]; [done|]. cbn [trim_copies].
  rewrite decide_False by lia. unfold gassign. rewrite decide_True by lia.
  cbn [mbind option_bind]. by rewrite IH.
Qed.

Lemma trim_loop_spec k i ls :
  0 ≤ i → Forall (λ l, i + Z.of_nat k ≤ Z.of_nat (length l)) ls →
  trim_loop k i ls = Some (trimmed i (i + Z.of_nat k) ZeroBlock <$> ls).
Proof.
  revert i ls. induction k as [|k IH]; intros i ls Hi Hl; cbn [trim_loop].
  { f_equal. symmetry. rewrite <-(list_fmap_id ls) at 2. apply list_fmap_ext. intros j l _.
    apply trimmed_none. lia. }
  rewrite trim_copies_spec; [|done|eapply Forall_impl; [|exact Hl]; simpl; lia].
  cbn [mbind option_bind]. rewrite IH; [|lia|].
  - f_equal. rewrite <-list_fmap_compose. apply Forall_fmap_ext_1.
    eapply Forall_impl; [|exact Hl]. intros l Hln. simpl in *.
    rewrite <-(trimmed_step i) by lia. f_equal. lia.
  - apply Forall_fmap. eapply Forall_impl; [|exact Hl]. intros l Hln. simpl in *.
    rewrite length_insert. lia.
Qed.

(** ** What a blockset represents *)

(** A property of every reference the blockset reads or writes. *)
Fixpoint each_ref (P : BlockRef → Prop) (b : blockset) : Prop :=
  match b with
  | NilBlockset => True
  | baseBlockset _ blocks _ _ => Forall P blocks
  | crcBlockset sub _ _ => each_ref P sub
  | replicationBlockset rep sub rb _ =>
      each_ref P sub ∧
      ∀ j l, (j < Z.to_nat (rep - 1))%nat → rb !! j = Some l → Forall P l
  end.

Lemma each_ref_impl (P Q : BlockRef → Prop) b : (∀ r, P r → Q r) → each_ref P b → each_ref Q b.
Proof.
  intros Hpq. induction b as [|ids bl st z|sub IH crcs e|rep sub IH rb st]; simpl; [done| |done|].
  - by apply Forall_impl.
  - intros [Hs Hr]. split; [by apply IH|]. intros j l Hj Hl. eapply Forall_impl; [exact Hpq|by eapply Hr].
Qed.

(** The counter of the base layer and the number of writes one put makes. *)
Fixpoint counter (b : blockset) : Z :=
  match b with
  | NilBlockset => 0
  | baseBlockset ids _ _ _ => ids
  | crcBlockset sub _ _ => counter sub
  | replicationBlockset _ sub _ _ => counter sub
  end.
Fixpoint copies (b : blockset) : Z :=
  match b with
  | NilBlockset => 0
  | baseBlockset _ _ _ _ => 1
  | crcBlockset sub _ _ => copies sub
  | replicationBlockset rep sub _ _ => copies sub + (rep - 1)
  end.

(** References of [inode] numbered up to [n], and those of other inodes. *)
Definition old (inode : INodeRef) (n : Z) (r : BlockRef) : Prop :=
  br_inode r = inode → Index r ≤ n.

Section refine.
Context {S : Type} `{L : BlockStoreLaws S}.
Implicit Types (s : S) (b : blockset) (d : bytes) (vs : list bytes).

Definition holds s (r : BlockRef) d : Prop :=
  if IsZero r then d = zeros (Z.to_nat (BlockSize s)) else stored s r = Some d.

(** The blockset, over the store, is the list [vs] of blocks. *)
Fixpoint repr b s vs : Prop :=
  match b with
  | NilBlockset => False
  | baseBlockset _ blocks st _ => st = true ∧ Forall2 (holds s) blocks vs
  | crcBlockset sub crcs _ => repr sub s vs ∧ crcs = ChecksumIEEE <$> vs
  | replicationBlockset rep sub rb st =>
      repr sub s vs ∧ st = true ∧ 1 ≤ rep ∧ (Z.to_nat (rep - 1) ≤ length rb)%nat ∧
      ∀ j l, (j < Z.to_nat (rep - 1))%nat → rb !! j = Some l → Forall2 (holds s) l vs
  end.

Lemma holds_frame s s' r d :
  BlockSize s' = BlockSize s → stored s' r = stored s r → holds s r d → holds s' r d.
Proof. intros Hb Hs. unfold holds. by rewrite Hb, Hs. Qed.

Lemma holds_all_frame s s' l vs :
  BlockSize s' = BlockSize s → Forall (λ r, stored s' r = stored s r) l →
  Forall2 (holds s) l vs → Forall2 (holds s') l vs.
Proof.
  intros Hb Hl Hh. induction Hh; inversion Hl; simplify_eq; constructor; [|by auto].
  by eapply holds_frame.
Qed.

(** The representation only depends on the blocks referred to. *)
Lemma repr_frame s s' b vs :
  BlockSize s' = BlockSize s → each_ref (λ r, stored s' r = stored s r) b →
  repr b s vs → repr b s' vs.
Proof.
  intros Hb. induction b as [|ids bl st z|sub IH crcs e|rep sub IH rb st]; simpl; [done| | |].
  - intros Hr [? Hh]. split; [done|]. by eapply holds_all_frame.
  - intros Hr [? ?]. split; [by apply IH|done].
  - intros [Hr Hl] (?&?&?&?&Hh). split_and!; try done; [by apply IH|].
    intros j l Hj Hlk. eapply holds_all_frame; [done|by eapply Hl|by eapply Hh].
Qed.

Lemma repr_same_stored s s' b vs :
  BlockSize s' = BlockSize s → (∀ r, stored s' r = stored s r) → repr b s vs → repr b s' vs.
Proof.
  intros Hb Hs. apply repr_frame; [done|].
  induction b as [|ids bl st z|sub IH crcs e|rep sub IH rb st]; simpl; [done| |done|].
  - by apply Forall_true.
  - split; [done|]. intros. by apply Forall_true.
Qed.

Lemma repr_Length b s vs : repr b s vs → Length b = Ok (Z.of_nat (length vs)).
Proof.
  induction b as [|ids bl st z|sub IH crcs e|rep sub IH rb st]; simpl; [done| | |].
  - intros [_ Hh]. by rewrite (Forall2_length Hh).
  - intros [Hr ->]. rewrite (IH Hr), length_fmap. simpl. by rewrite decide_False by auto.
  - intros [Hr _]. by apply IH.
Qed.

(** ** Reading *)

Lemma make_block_run s :
  inv s → ∃ sl s', make_block s = (Ok sl, s') ∧ deref s' sl = zeros (Z.to_nat (BlockSize s)) ∧
    store_ext s s' ∧ ∀ r, stored s' r = stored s r.
Proof.
  intros Hi. unfold make_block. destruct (mk_slice _ s) as [sl s'] eqn:Hm.
  destruct (mk_slice_stored _ _ _ _ Hi Hm) as (?&?&?). eauto 10.
Qed.

Lemma get_repr b i s vs d :
  inv s → is_open s → repr b s vs → 0 ≤ i → vs !! Z.to_nat i = Some d →
  ∃ sl s', GetBlock b i s = (Ok sl, s') ∧ deref s' sl = d ∧
    store_ext s s' ∧ ∀ r, stored s' r = stored s r.
Proof.
  intros Hi Ho Hr H0 Hd. pose proof (lookup_lt_Some _ _ _ Hd) as Hlt.
  revert Hr. induction b as [|ids bl st z|sub IH crcs e|rep sub IH rb st]; layers; simpl; [done| | |].
  - intros [-> Hh]. pose proof (Forall2_length Hh) as Hlen. rewrite decide_False by lia.
    destruct (Forall2_lookup_r _ _ _ _ _ Hh Hd) as (r & Hl & Hr).
    assert (gindex bl i = Some r) as -> by (by apply gindex_Some).
    unfold holds in Hr. unfold mbind, M_bind, lift, or_panic. destruct (IsZero r).
    + subst d. by apply make_block_run.
    + by apply store_get_run.
  - intros [Hr ->]. rewrite length_fmap, decide_False by lia.
    destruct (IH Hr) as (sl & s' & Hg & Hds & Hext & Hst). exists sl, s'. split; [|done].
    run_step Hg. unfold mbind, M_bind, lift, gets. rewrite Hds.
    assert (gindex (ChecksumIEEE <$> vs) i = Some (ChecksumIEEE d)) as ->.
    { apply gindex_Some. by rewrite list_lookup_fmap, Hd. }
    simpl. rewrite decide_False by auto. done.
  - intros (Hr&_&?&_). rewrite decide_False by lia.
    destruct (IH Hr) as (sl & s' & Hg & ?). exists sl, s'. split; [|done].
    unfold mbind, M_bind, try. by rewrite Hg.
Qed.

Lemma get_past b i s vs :
  repr b s vs → Z.of_nat (length vs) ≤ i → GetBlock b i s = (Err ErrBlockNotExist, s).
Proof.
  intros Hr Hi. revert Hr. induction b as [|ids bl st z|sub IH crcs e|rep sub IH rb st]; layers; simpl; [done| | |].
  - intros [_ Hh]. rewrite decide_True; [done|]. by rewrite (Forall2_length Hh).
  - intros [_ ->]. rewrite length_fmap, decide_True; done.
  - intros (Hr&_&?&_). rewrite decide_False by lia. unfold mbind, M_bind, try. by rewrite (IH Hr).
Qed.

(** ** Writing *)

(** The store after writes of [inode]'s blocks numbered above [n]. *)
Record keeps (inode : INodeRef) (n : Z) s s' : Prop := {
  kp_ext : store_ext s s';
  kp_stored r : old inode n r → stored s' r = stored s r;
}.

Lemma keeps_trans inode n m s1 s2 s3 :
  n ≤ m → keeps inode n s1 s2 → keeps inode m s2 s3 → keeps inode n s1 s3.
Proof.
  intros Hnm [E1 K1] [E2 K2]. split; [by eapply store_ext_trans|].
  intros r Hr. rewrite K2, K1; [done|done|]. intros ?. specialize (Hr ltac:(done)). lia.
Qed.

Lemma keeps_repr inode n s s' b vs :
  keeps inode n s s' → each_ref (old inode n) b → repr b s vs → repr b s' vs.
Proof.
  intros [E K] He. apply repr_frame; [apply (ext_size _ _ E)|]. by eapply each_ref_impl.
Qed.

Lemma keeps_list inode n s s' l vs :
  keeps inode n s s' → Forall (old inode n) l → Forall2 (holds s) l vs → Forall2 (holds s') l vs.
Proof.
  intros [E K] He. apply holds_all_frame; [apply (ext_size _ _ E)|]. by eapply Forall_impl.
Qed.

(** An error some write of the inode's blocks got from the store. *)
Definition refused (inode : INodeRef) d (e : error) : Prop :=
  ∃ n s s', WriteBlock (mkBlockRef inode n) d s = (Err e, s').

(** The next reference of an inode. *)
Definition next_ref (inode : INodeRef) (n : Z) : BlockRef := mkBlockRef inode (n + 1).

Lemma next_ref_nonzero inode n : 0 ≤ n → IsZero (next_ref inode n) = false.
Proof.
  intros Hn. apply andb_false_intro2, bool_decide_eq_false. simpl. lia.
Qed.

Lemma write_next inode n d s :
  inv s → valid (next_ref inode n) → Z.of_nat (length d) = BlockSize s → 0 ≤ n →
  match WriteBlock (next_ref inode n) d s with
  | (Ok _, s') => keeps inode n s s' ∧ holds s' (next_ref inode n) d
  | (Err _, s') => keeps inode n s s'
  | (Panic, _) => False
  end.
Proof.
  intros Hi Hv Hd Hn. assert (fits s d) as Hf by (by apply fits_size).
  destruct (WriteBlock (next_ref inode n) d s) as [[[]|e|] s'] eqn:Hw.
  - destruct (WriteBlock_stored _ _ _ _ Hi Hv Hf Hw) as (He & Hs & Ho). split.
    + split; [done|]. intros r Hr. apply Ho. intros ->. specialize (Hr eq_refl). simpl in Hr. lia.
    + unfold holds. by rewrite next_ref_nonzero.
  - destruct (WriteBlock_err_stored _ _ _ _ _ Hi Hv Hf Hw) as (He & Ho). by split.
  - by eapply WriteBlock_no_panic.
Qed.

Lemma makeID_spec inode b :
  b ≠ NilBlockset → (∃ s vs, repr b s vs) → 0 ≤ counter b → counter b + 1 < 2 ^ 64 →
  ∃ b', makeID inode b = Ok (next_ref inode (counter b), b') ∧ counter b' = counter b + 1 ∧
    copies b' = copies b ∧ (∀ P, each_ref P b → each_ref P b') ∧
    (∀ s vs, repr b s vs → repr b' s vs).
Proof.
  intros _ (s & vs & Hr) H0 H1. revert Hr.
  induction b as [|ids bl st z|sub IH crcs e|rep sub IH rb st]; simpl in *; [done| | |].
  - intros _. rewrite wrap_id by (unfold in_width; lia). eexists. split; [done|]. done.
  - intros [Hr _]. destruct (IH H0 H1 Hr) as (sub' & -> & ? & ? & Hp & Hrep).
    eexists. split; [done|]. simpl. split_and!; try done. intros s' vs' [??]. auto.
  - intros [Hr _]. destruct (IH H0 H1 Hr) as (sub' & -> & ? & ? & Hp & Hrep).
    eexists. split; [done|]. simpl. split_and!; try done; [lia|naive_solver|].
    intros s' vs' (?&?&?). auto.
Qed.

(** References a put may use. *)
Definition usable (inode : INodeRef) (lo hi : Z) : Prop :=
  0 ≤ lo ∧ hi < 2 ^ 64 ∧ ∀ n, lo ≤ n < hi → valid (next_ref inode n).

Lemma old_mono inode n m r : n ≤ m → old inode n r → old inode m r.
Proof. intros ? H ?. specialize (H ltac:(done)). lia. Qed.

Lemma next_ref_old inode n : old inode (n + 1) (next_ref inode n).
Proof. intros _. simpl. lia. Qed.

(** The loop that writes copies [idx], ..., [idx + k - 1]. *)
Lemma put_copies_spec k idx inode i d sub rb s vs vs' :
  inv s → repr sub s vs' → each_ref (old inode (counter sub)) sub →
  usable inode (counter sub) (counter sub + Z.of_nat k) →
  Z.of_nat (length d) = BlockSize s → set_at i d vs = Some vs' → (idx + k ≤ length rb)%nat →
  (∀ j l, (j < idx + k)%nat → rb !! j = Some l → Forall (old inode (counter sub)) l ∧
     Forall2 (holds s) l (if decide (j < idx)%nat then vs' else vs)) →
  match put_copies k idx inode i d true sub rb s with
  | (Ok _, sub', rb', s') =>
      keeps inode (counter sub) s s' ∧ repr sub' s' vs' ∧
      counter sub' = counter sub + Z.of_nat k ∧ copies sub' = copies sub ∧
      each_ref (old inode (counter sub')) sub' ∧ length rb' = length rb ∧
      ∀ j l, (j < idx + k)%nat → rb' !! j = Some l →
        Forall (old inode (counter sub')) l ∧ Forall2 (holds s') l vs'
  | (Err e, sub', _, s') =>
      keeps inode (counter sub) s s' ∧ refused inode d e ∧ copies sub' = copies sub ∧
      counter sub ≤ counter sub' ≤ counter sub + Z.of_nat k
  | (Panic, _, _, _) => False
  end.
Proof.
  revert idx sub rb s.
  induction k as [|k IH]; intros idx sub rb s Hi Hr He Hu Hd Hs Hlen Hrb; cbn [put_copies].
  { split_and!; try done; [lia|].
    intros j l Hj Hl. destruct (Hrb j l Hj Hl) as [? Hh]. by rewrite decide_True in Hh by lia. }
  destruct Hu as (H0 & H1 & Hv).
  destruct (makeID_spec inode sub) as (sub1 & -> & Hc1 & Hcp1 & He1 & Hr1);
    [by destruct sub|eauto|done|lia|].
  set (r := next_ref inode (counter sub)) in *. unfold on_store.
  pose proof (write_next inode (counter sub) d s Hi (Hv (counter sub) ltac:(lia)) Hd H0) as Hw.
  fold r in Hw. destruct (WriteBlock r d s) as [[[]|e|] s1] eqn:Hwr; [| |done].
  2: { split_and!; try done; [by exists (counter sub + 1), s, s1|lia|lia]. }
  destruct Hw as [Hk Hh]. pose proof (kp_ext _ _ _ _ Hk) as Hext.
  destruct (lookup_lt_is_Some_2 rb idx) as [l Hl]; [lia|]. rewrite Hl. cbn [mbind option_bind].
  destruct (Hrb idx l ltac:(lia) Hl) as [Hol Hhl]. rewrite decide_False in Hhl by lia.
  pose proof (set_at_length _ _ _ _ Hs) as [_ Hrange]. pose proof (Forall2_length Hhl) as Hll.
  destruct (set_at_Some i r l) as [l' Hl']; [lia|]. rewrite Hl'.
  assert (∀ x, old inode (counter sub) x → old inode (counter sub + 1) x) as Hup
    by (intros x; apply old_mono; lia).
  specialize (IH (Datatypes.S idx) sub1 (<[idx := l']> rb) s1). rewrite Hc1 in IH.
  ospecialize (IH _ _ _ _ _ Hs _ _).
  - apply (ext_inv _ _ Hext).
  - apply Hr1. by eapply keeps_repr.
  - apply He1. eapply each_ref_impl; [exact Hup|done].
  - split; [lia|]. split; [lia|]. intros m Hm. apply Hv. lia.
  - by rewrite (ext_size _ _ Hext).
  - rewrite length_insert. lia.
  - intros j x Hj Hx. destruct (decide (j = idx)) as [->|Hne].
    + rewrite list_lookup_insert_eq in Hx by lia. simplify_eq. rewrite decide_True by lia. split.
      * eapply set_at_Forall; [apply next_ref_old| |exact Hl'].
        by eapply Forall_impl.
      * eapply set_at_Forall2; [exact Hh| |exact Hl'|exact Hs]. by eapply keeps_list.
    + rewrite list_lookup_insert_ne in Hx by done. destruct (Hrb j x ltac:(lia) Hx) as [Ho Hx2].
      split; [by eapply Forall_impl|]. eapply keeps_list in Hx2; [|done|done].
      case_decide; [rewrite decide_True by lia; done|]. by rewrite decide_False by lia.
  - destruct (put_copies k _ _ _ _ _ _ _ _) as [[[[[]|e|] sub'] rb'] s'].
    + destruct IH as (Hk'&?&?&?&?&Hl2&Hf). rewrite length_insert in Hl2.
      split_and!; try done; [eapply keeps_trans; [|done|done]; lia|lia|congruence|].
      intros j x Hj. apply Hf. lia.
    + destruct IH as (?&?&?&?). split_and!; [eapply keeps_trans; [|done|done]; lia|done|congruence|lia|lia].
    + done.
Qed.

Lemma repr_copies b s vs : repr b s vs → 1 ≤ copies b.
Proof.
  induction b as [|ids bl st z|sub IH crcs e|rep sub IH rb st]; simpl; [done|lia|by intros [? _]; auto|].
  intros (Hr&_&?&_). specialize (IH Hr). lia.
Qed.

Lemma usable_sub inode lo hi lo' hi' :
  usable inode lo hi → lo ≤ lo' → hi' ≤ hi → usable inode lo' hi'.
Proof. intros (?&?&Hv) ??. split_and!; [lia|lia|]. intros n Hn. apply Hv. lia. Qed.

Fixpoint no_replication b : Prop :=
  match b with
  | NilBlockset | baseBlockset _ _ _ _ => True
  | crcBlockset sub _ _ => no_replication sub
  | replicationBlockset _ _ _ _ => False
  end.

Definition put_spec inode d b s vs vs' (o : res unit * blockset * S) : Prop :=
  match o with
  | (Ok _, b', s') =>
      keeps inode (counter b) s s' ∧ repr b' s' vs' ∧
      counter b' = counter b + copies b ∧ copies b' = copies b ∧
      each_ref (old inode (counter b')) b'
  | (Err e, b', s') =>
      keeps inode (counter b) s s' ∧ refused inode d e ∧ (no_replication b → repr b' s' vs) ∧
      counter b ≤ counter b' ≤ counter b + copies b ∧ copies b' = copies b ∧
      (no_replication b → no_replication b' ∧ each_ref (old inode (counter b')) b')
  | (Panic, _, _) => False
  end.

Lemma put_base inode i d ids bl z s vs vs' (b := baseBlockset ids bl true z) :
  inv s → repr b s vs → each_ref (old inode ids) b → usable inode ids (ids + 1) →
  Z.of_nat (length d) = BlockSize s → set_at i d vs = Some vs' →
  put_spec inode d b s vs vs' (PutBlock inode i d b s).
Proof.
  intros Hi [_ Hh] He (H0 & H1 & Hv) Hd Hs. simpl in He.
  pose proof (set_at_length _ _ _ _ Hs) as [_ Hrange]. pose proof (Forall2_length Hh) as Hlen.
  unfold b. layers. rewrite decide_False by lia. rewrite wrap_id by (unfold in_width; lia).
  pose proof (write_next inode ids d s Hi (Hv ids ltac:(lia)) Hd H0) as Hw.
  unfold on_store. fold (next_ref inode ids).
  destruct (WriteBlock (next_ref inode ids) d s) as [[[]|e|] s1] eqn:Hwr; [| |done].
  - destruct Hw as [Hk Hh1]. destruct (set_at_Some i (next_ref inode ids) bl) as [bl' Hbl]; [lia|].
    rewrite Hbl. simpl. split_and!; try done.
    + eapply set_at_Forall2; [exact Hh1| |done|done]. by eapply keeps_list.
    + eapply set_at_Forall; [apply next_ref_old| |done].
      eapply Forall_impl; [|done]. intros x. apply old_mono. lia.
  - simpl. split_and!; try done; try lia; [by exists (ids + 1), s, s1| |].
    + intros _. split; [done|]. by eapply keeps_list.
    + intros _. split; [done|]. eapply Forall_impl; [|done]. intros x. apply old_mono. lia.
Qed.

Lemma put_repr inode i d b s vs vs' :
  inv s → repr b s vs → each_ref (old inode (counter b)) b →
  usable inode (counter b) (counter b + copies b) →
  Z.of_nat (length d) = BlockSize s → set_at i d vs = Some vs' →
  put_spec inode d b s vs vs' (PutBlock inode i d b s).
Proof.
  intros Hi Hr He Hu Hd Hs. pose proof (set_at_length _ _ _ _ Hs) as [_ Hrange].
  induction b as [|ids bl st z|sub IH crcs e|rep sub IH rb st]; [done| | |].
  - destruct Hr as [-> Hh]. by apply put_base.
  - destruct Hr as [Hr ->]. specialize (IH Hr He Hu). layers.
    rewrite length_fmap, decide_False by lia.
    destruct (PutBlock inode i d sub s) as [[[[]|er|] sub'] s1]; [| |done].
    + destruct IH as (?&?&?&?&?). rewrite (set_at_fmap ChecksumIEEE _ _ _ _ Hs). done.
    + destruct IH as (?&?&Hn&?&?&?). simpl. split_and!; try done; try lia.
      intros Hno. split; [by apply Hn|done].
  - destruct Hr as (Hr & -> & Hrep & Hlen & Hh). destruct He as [He Hel].
    pose proof (repr_copies _ _ _ Hr) as Hcp. cbn [copies counter] in Hu.
    specialize (IH Hr He ltac:(eapply usable_sub; [done|lia|lia])). layers.
    rewrite decide_False by lia.
    destruct (PutBlock inode i d sub s) as [[[[]|er|] sub'] s1];
      [|destruct IH as (?&?&?&?&?&?); simpl; split_and!; try done; lia|done].
    destruct IH as (Hk & Hr1 & Hc1 & Hcp1 & He1). pose proof (kp_ext _ _ _ _ Hk) as Hext.
    pose proof (put_copies_spec (Z.to_nat (rep - 1)) 0 inode i d sub' rb s1 vs vs') as Hp.
    ospecialize (Hp (ext_inv _ _ Hext) Hr1 He1 _ _ Hs Hlen _).
    + rewrite Hc1. eapply usable_sub; [done|lia|lia].
    + by rewrite (ext_size _ _ Hext).
    + intros j l Hj Hl. rewrite decide_False by lia. specialize (Hel j l Hj Hl). split.
      * eapply Forall_impl; [|done]. intros x. apply old_mono. simpl. lia.
      * eapply keeps_list; [done|done|by eapply Hh].
    + destruct (put_copies _ _ _ _ _ _ _ _ _) as [[[[[]|er|] sub''] rb'] s2].
      * destruct Hp as (?&?&Hc2&Hcp2&?&Hl2&Hf). simpl. split_and!; try done; try lia.
        -- eapply keeps_trans; [|done|done]; lia.
        -- intros j l Hj Hl. by apply (Hf j l).
        -- intros j l Hj Hl. by apply (Hf j l).
      * destruct Hp as (?&?&?&?). simpl. split_and!; try done; try lia.
        eapply keeps_trans; [|done|done]; lia.
      * done.
Qed.

(** ** Truncate and Trim *)

(** The replication layers have their own number of copies, at least two. *)
Fixpoint exact b : Prop :=
  match b with
  | NilBlockset | baseBlockset _ _ _ _ => True
  | crcBlockset sub _ _ => exact sub
  | replicationBlockset rep sub rb _ => exact sub ∧ 2 ≤ rep ∧ length rb = Z.to_nat (rep - 1)
  end.

(** At most one copy besides the primary. *)
Fixpoint narrow b : Prop :=
  match b with
  | NilBlockset | baseBlockset _ _ _ _ => True
  | crcBlockset sub _ _ => narrow sub
  | replicationBlockset rep sub _ _ => narrow sub ∧ rep ≤ 2
  end.

(** What the list operations keep. *)
Record same_shape b b' : Prop := {
  ss_counter : counter b' = counter b;
  ss_copies : copies b' = copies b;
  ss_exact : exact b → exact b';
  ss_narrow : narrow b → narrow b';
  ss_norep : no_replication b → no_replication b';
  ss_refs (P : BlockRef → Prop) : P ZeroBlock → each_ref P b → each_ref P b';
}.

Lemma same_shape_base ids bl bl' st z :
  (∀ P : BlockRef → Prop, P ZeroBlock → Forall P bl → Forall P bl') →
  same_shape (baseBlockset ids bl st z) (baseBlockset ids bl' st z).
Proof. by split. Qed.

Lemma same_shape_rep rep sub sub' rb st (f : list BlockRef → list BlockRef) :
  same_shape sub sub' →
  (∀ (P : BlockRef → Prop) l, P ZeroBlock → Forall P l → Forall P (f l)) →
  same_shape (replicationBlockset rep sub rb st) (replicationBlockset rep sub' (f <$> rb) st).
Proof.
  intros [] Hf. split; simpl; rewrite ?length_fmap; [done|lia|by intros (?&?&?); auto| |done|].
  { intros (?&?); auto. }
  intros P HP [Hs Hl]. split; [auto|]. intros j l Hj Hlk.
  apply list_lookup_fmap_Some in Hlk as (l0 & -> & Hl0). apply Hf; [done|]. by eapply Hl.
Qed.

Lemma rep_lists rep sub rb st s vs :
  repr (replicationBlockset rep sub rb st) s vs → exact (replicationBlockset rep sub rb st) →
  Forall (λ l, Forall2 (holds s) l vs) rb ∧ ∃ l0, rb !! 0%nat = Some l0 ∧ length l0 = length vs.
Proof.
  intros (_&_&_&_&Hh) (_&Hrep&Hlen). assert (Forall (λ l, Forall2 (holds s) l vs) rb) as Hall.
  { apply Forall_lookup. intros j l Hl. apply (Hh j); [|done]. apply lookup_lt_Some in Hl. lia. }
  split; [done|]. destruct (lookup_lt_is_Some_2 rb 0) as [l0 Hl0]; [lia|].
  exists l0. split; [done|]. exact (Forall2_length (Forall_lookup_1 _ _ _ _ Hall Hl0)).
Qed.

Lemma holds_zero s : holds s ZeroBlock (zeros (Z.to_nat (BlockSize s))).
Proof. done. Qed.

Lemma fmap_lists_repr s (f : list BlockRef → list BlockRef) vs vs' rb :
  (∀ l, Forall2 (holds s) l vs → Forall2 (holds s) (f l) vs') →
  Forall (λ l, Forall2 (holds s) l vs) rb →
  ∀ j l, (f <$> rb) !! j = Some l → Forall2 (holds s) l vs'.
Proof.
  intros Hf Hall j l Hl. apply list_lookup_fmap_Some in Hl as (l0 & -> & Hl0).
  apply Hf. exact (Forall_lookup_1 _ _ _ _ Hall Hl0).
Qed.

Lemma truncate_repr b s vs n :
  0 ≤ n → repr b s vs → exact b → n ≤ Z.of_nat (length vs) ∨ narrow b →
  ∃ b', Truncate n (BlockSize s) b = (Ok tt, b') ∧ same_shape b b' ∧
    repr b' s (truncated n (zeros (Z.to_nat (BlockSize s))) vs).
Proof.
  intros Hn Hr He Hw. induction b as [|ids bl st z|sub IH crcs e|rep sub IH rb st]; [done| | |].
  - destruct Hr as [-> Hh]. layers. rewrite resize_truncated by done. eexists. split; [done|].
    split; [apply same_shape_base; intros; by apply truncated_Forall|]. split; [done|]. by apply truncated_Forall2.
  - destruct Hr as [Hr ->]. destruct (IH Hr He Hw) as (sub' & Ht & [] & Hr'). layers.
    rewrite Ht, resize_truncated by done. eexists. split; [done|]. split; [by split|].
    split; [done|]. by rewrite truncated_fmap.
  - destruct (rep_lists _ _ _ _ _ _ Hr He) as [Hall (l0 & Hl0 & Hlen0)].
    destruct Hr as (Hr & -> & Hrep & Hlen & Hh). destruct He as (He & H2 & Hx).
    destruct (IH Hr He ltac:(destruct Hw as [?|[??]]; auto)) as (sub' & Ht & Hss & Hr').
    layers. rewrite Ht, Hl0, Hlen0.
    assert (∀ rb', rb' = truncated n ZeroBlock <$> rb →
      same_shape (replicationBlockset rep sub rb true) (replicationBlockset rep sub' rb' true) ∧
      repr (replicationBlockset rep sub' rb' true) s (truncated n (zeros (Z.to_nat (BlockSize s))) vs)) as Hend.
    { intros rb' ->. split.
      - apply same_shape_rep; [done|]. intros. by apply truncated_Forall.
      - simpl. rewrite length_fmap. split_and!; try done. intros j l _.
        apply (fmap_lists_repr s _ vs); [|done]. intros l'. by apply truncated_Forall2. }
    case_decide as Hd.
    + rewrite shrink_lists_spec; [eexists; split; [done|]; by apply Hend|done|].
      eapply Forall_impl; [|exact Hall]. intros l Hl%Forall2_length. lia.
    + destruct Hw as [?|[_ ?]]; [lia|]. destruct rb as [|l0' [|l1 rb]]; [done| |simpl in Hx; lia].
      injection Hl0 as ->. eexists. split; [done|]. apply Hend. cbn. f_equal.
      pose proof (resize_truncated n ZeroBlock l0 Hn) as Hz. unfold resize in Hz.
      rewrite decide_False in Hz by lia. by simplify_eq.
Qed.

Lemma getStore_repr b s vs : repr b s vs → getStore b = Ok true.
Proof.
  induction b as [|ids bl st z|sub IH crcs e|rep sub IH rb st]; simpl; [done| | |]; naive_solver.
Qed.

Lemma trim_repr b s vs from to :
  0 ≤ from → repr b s vs → exact b →
  ∃ b', Trim (BlockSize s) from to b = (Ok tt, b') ∧ same_shape b b' ∧
    repr b' s (trimmed from to (zeros (Z.to_nat (BlockSize s))) vs).
Proof.
  intros Hf Hr He. induction b as [|ids bl st z|sub IH crcs e|rep sub IH rb st]; [done| | |].
  - destruct Hr as [-> Hh]. layers. rewrite trim_list_spec by done. eexists. split; [done|].
    split; [apply same_shape_base; intros; by apply trimmed_Forall|]. split; [done|]. by apply trimmed_Forall2.
  - destruct Hr as [Hr ->]. destruct (IH Hr He) as (sub' & Ht & [] & Hr'). layers.
    rewrite Ht, length_fmap, (getStore_repr _ _ _ Hr'). cbv zeta.
    pose proof (trimmed_fmap ChecksumIEEE from to (zeros (Z.to_nat (BlockSize s))) vs) as Hfm.
    case_decide as Hn.
    + eexists. split; [done|]. split; [by split|]. split; [done|]. rewrite Hfm.
      pose proof (trim_list_spec from to (ChecksumIEEE (zeros (Z.to_nat (BlockSize s)))) (ChecksumIEEE <$> vs) Hf) as Hx.
      unfold trim_list in Hx. rewrite length_fmap, decide_True in Hx by done. by simplify_eq.
    + pose proof (assign_range_spec from to (ChecksumIEEE (zeros (Z.to_nat (BlockSize s)))) (ChecksumIEEE <$> vs) Hf) as Hx.
      rewrite length_fmap in Hx. rewrite Hx by lia. eexists. split; [done|]. split; [by split|]. done.
  - destruct (rep_lists _ _ _ _ _ _ Hr He) as [Hall (l0 & Hl0 & Hlen0)].
    destruct Hr as (Hr & -> & Hrep & Hlen & Hh). destruct He as (He & H2 & Hx).
    destruct (IH Hr He) as (sub' & Ht & Hss & Hr'). layers. rewrite Ht, Hl0, Hlen0. cbv zeta.
    assert (∀ to' rb', rb' = trimmed from to' ZeroBlock <$> rb →
      (∀ j, 0 ≤ j < Z.of_nat (length vs) → (from ≤ j < to ↔ from ≤ j < to')) →
      same_shape (replicationBlockset rep sub rb true) (replicationBlockset rep sub' rb' true) ∧
      repr (replicationBlockset rep sub' rb' true) s (trimmed from to (zeros (Z.to_nat (BlockSize s))) vs)) as Hend.
    { intros to' rb' -> Hc. split.
      - apply same_shape_rep; [done|]. intros. by apply trimmed_Forall.
      - simpl. rewrite length_fmap. split_and!; try done. intros j l _.
        apply (fmap_lists_repr s _ vs); [|done]. intros l' Hl'.
        rewrite (trimmed_clip from to to' _ vs Hc). by apply trimmed_Forall2. }
    case_decide as Hn.
    + eexists. split; [done|]. apply (Hend from); [|lia].
      symmetry. rewrite <-(list_fmap_id rb) at 2. apply list_fmap_ext. intros. by apply trimmed_none.
    + assert (0 ≤ (if decide (Z.of_nat (length vs) < to) then Z.of_nat (length vs) else to)- from ∨ to < from) as Hc
        by (case_decide; lia).
      rewrite trim_loop_spec; [|done|].
      * eexists. split; [done|]. eapply Hend; [done|]. intros j Hj. case_decide; lia.
      * eapply Forall_impl; [|exact Hall]. intros l Hl%Forall2_length. rewrite Hl. case_decide; lia.
Qed.

Lemma put_no_replication inode i d b s :
  no_replication b → no_replication (PutBlock inode i d b s).1.2.
Proof.
  induction b as [|ids bl st z|sub IH crcs e|rep sub IH rb st]; layers; simpl; [done| | |done]; intros Hn.
  - repeat case_match; done.
  - specialize (IH Hn). case_decide; [done|].
    destruct (PutBlock inode i d sub s) as [[[[]|er|] sub'] s1]; try done. by case_match.
Qed.
End refine.
