(* ===== verification/BlocksetSpec.v ===== *)
(** * Correctness of the blocksets

    The theorems about [Blockset]: a stack of layers over a block store
    satisfying the laws behaves as a list of blocks, corruption of a stored
    block is detected by the checksum layer and repaired from a copy by the
    replication layer, and the serialized form restores the blockset. *)
From S2P Require Import Prelude GoSem GoStrings Refs TempStore Store Crc32 Blockset.
From Stdlib Require Import Ascii.

(** ** Sequences of operations *)

Inductive bop : Type :=
  | BGet (i : Z)
  | BPut (i : Z) (d : bytes)
  | BTruncate (n : Z)
  | BTrim (from to : Z)
  | BLength.

Inductive bout : Type := BBytes (d : bytes) | BUnit | BLen (n : Z).

Section run.
Context {S : Type} `{B : BlockStore S}.

Definition run_bop (inode : INodeRef) (o : bop) (x : blockset * S) : res bout * (blockset * S) :=
  let '(b, s) := x in
  match o with
  | BGet i =>
      match GetBlock b i s with
      | (Ok sl, s') => (Ok (BBytes (deref s' sl)), (b, s'))
      | (Err e, s') => (Err e, (b, s'))
      | (Panic, s') => (Panic, (b, s'))
      end
  | BPut i d => let '(o, b', s') := PutBlock inode i d b s in ((λ _, BUnit) <$> o, (b', s'))
  | BTruncate n => let '(o, b') := Truncate n (BlockSize s) b in ((λ _, BUnit) <$> o, (b', s))
  | BTrim from to => let '(o, b') := Trim (BlockSize s) from to b in ((λ _, BUnit) <$> o, (b', s))
  | BLength => (BLen <$> Length b, (b, s))
  end.

Fixpoint run_bops (inode : INodeRef) (ops : list bop) (x : blockset * S) :
    list (res bout) * (blockset * S) :=
  match ops with
  | [] => ([], x)
  | o :: ops' =>
      let '(r, x1) := run_bop inode o x in
      let '(rs, x2) := run_bops inode ops' x1 in (r :: rs, x2)
  end.
End run.

(** The same operations on a list of blocks.  [z] is the zero block; [refuses]
    says which errors a store may answer a write of some bytes with. *)
Inductive bspec (z : bytes) (refuses : bytes → error → Prop) :
    bop → list bytes → res bout → list bytes → Prop :=
  | sp_get i vs d :
      vs !! Z.to_nat i = Some d → bspec z refuses (BGet i) vs (Ok (BBytes d)) vs
  | sp_get_past i vs :
      Z.of_nat (length vs) ≤ i → bspec z refuses (BGet i) vs (Err ErrBlockNotExist) vs
  | sp_put i d vs vs' :
      set_at i d vs = Some vs' → bspec z refuses (BPut i d) vs (Ok BUnit) vs'
  | sp_put_past i d vs :
      Z.of_nat (length vs) < i → bspec z refuses (BPut i d) vs (Err ErrBlockNotExist) vs
  | sp_put_refused i d vs e :
      refuses d e → bspec z refuses (BPut i d) vs (Err e) vs
  | sp_truncate n vs : bspec z refuses (BTruncate n) vs (Ok BUnit) (truncated n z vs)
  | sp_trim from to vs : bspec z refuses (BTrim from to) vs (Ok BUnit) (trimmed from to z vs)
  | sp_length vs : bspec z refuses BLength vs (Ok (BLen (Z.of_nat (length vs)))) vs.

Inductive bspecs (z : bytes) (refuses : bytes → error → Prop) :
    list bop → list bytes → list (res bout) → list bytes → Prop :=
  | sps_nil vs : bspecs z refuses [] vs [] vs
  | sps_cons o ops vs r vs1 rs vs2 :
      bspec z refuses o vs r vs1 → bspecs z refuses ops vs1 rs vs2 →
      bspecs z refuses (o :: ops) vs (r :: rs) vs2.

(** Full blocks at non-negative indices. *)
Definition bop_ok (bsz : Z) (o : bop) : Prop :=
  match o with
  | BGet i => 0 ≤ i
  | BPut i d => 0 ≤ i ∧ Z.of_nat (length d) = bsz
  | BTruncate n => 0 ≤ n
  | BTrim from _ => 0 ≤ from
  | BLength => True
  end.

Section refinement.
Context {S : Type} `{L : BlockStoreLaws S}.
Implicit Types (s : S) (b : blockset) (vs : list bytes).

Lemma no_replication_simple b : no_replication b → copies b ≤ 1 ∧ exact b ∧ narrow b.
Proof. induction b; simpl; try done; auto with lia. Qed.

Lemma put_past inode i d b s vs :
  repr b s vs → Z.of_nat (length vs) < i → no_replication b →
  PutBlock inode i d b s = (Err ErrBlockNotExist, b, s).
Proof.
  intros Hr Hi Hn. destruct b as [|ids bl st z|sub crcs e|rep sub rb st]; [done| | |done].
  - destruct Hr as [_ Hh]. layers. rewrite decide_True; [done|]. by rewrite (Forall2_length Hh).
  - destruct Hr as [_ ->]. layers. rewrite length_fmap, decide_True; done.
Qed.

(** What is kept between the operations of a sequence. *)
Record stack_ok (inode : INodeRef) b s vs : Prop := {
  so_inv : inv s;
  so_open : is_open s;
  so_repr : repr b s vs;
  so_norep : no_replication b;
  so_refs : each_ref (old inode (counter b)) b;
  so_pos : 0 ≤ counter b;
}.

Lemma old_zero inode n : 0 ≤ n → old inode n ZeroBlock.
Proof. intros ? _. done. Qed.

Lemma stack_same_shape inode b b' s vs vs' :
  stack_ok inode b s vs → same_shape b b' → repr b' s vs' → stack_ok inode b' s vs'.
Proof.
  intros [] [] Hr. split; try done; [by auto| |lia].
  rewrite ss_counter. apply ss_refs; [by apply old_zero|done].
Qed.

Lemma stack_put inode i d b s vs :
  stack_ok inode b s vs → usable inode (counter b) (counter b + 1) → bop_ok (BlockSize s) (BPut i d) →
  let '(r, (b', s')) := run_bop inode (BPut i d) (b, s) in
  ∃ vs', bspec (zeros (Z.to_nat (BlockSize s))) (refused (S := S) inode) (BPut i d) vs r vs' ∧
    stack_ok inode b' s' vs' ∧ BlockSize s' = BlockSize s ∧ counter b ≤ counter b' ≤ counter b + 1.
Proof.
  intros [] Hu [Hi Hd]. cbn [run_bop]. destruct (no_replication_simple _ so_norep0) as [Hc _].
  pose proof (repr_copies _ _ _ so_repr0) as Hc1. assert (copies b = 1) as Hc2 by lia.
  destruct (decide (i ≤ Z.of_nat (length vs))) as [Hle|Hgt].
  - destruct (set_at_Some i d vs) as [vs' Hs]; [lia|].
    pose proof (put_repr inode i d b s vs vs') as Hp. rewrite Hc2 in Hp.
    specialize (Hp so_inv0 so_repr0 so_refs0 Hu Hd Hs).
    pose proof (put_no_replication inode i d b s so_norep0) as Hnr.
    destruct (PutBlock inode i d b s) as [[[[]|e|] b'] s']; [| |done]; simpl in Hnr.
    + destruct Hp as ([[] ?] & Hr & Hct & Hcp & He). exists vs'. split_and!; [by constructor| |done|lia..].
      split; auto. lia.
    + destruct Hp as ([[] ?] & Hrf & Hr & Hct & Hcp & He). destruct (He so_norep0).
      exists vs. split_and!; [by constructor| |done|lia..]. split; auto. lia.
  - rewrite (put_past _ _ _ _ _ vs) by (done || lia). exists vs.
    split_and!; [constructor; lia|done|done|lia..].
Qed.

Lemma stack_step inode o b s vs :
  stack_ok inode b s vs → usable inode (counter b) (counter b + 1) → bop_ok (BlockSize s) o →
  let '(r, (b', s')) := run_bop inode o (b, s) in
  ∃ vs', bspec (zeros (Z.to_nat (BlockSize s))) (refused (S := S) inode) o vs r vs' ∧
    stack_ok inode b' s' vs' ∧ BlockSize s' = BlockSize s ∧ counter b ≤ counter b' ≤ counter b + 1.
Proof.
  intros Hso Hu Hok. pose proof Hso as []. pose proof (no_replication_simple _ so_norep0) as (_ & He & Hn).
  destruct o as [i|i d|n|from to|].
  - cbn [run_bop]. destruct (vs !! Z.to_nat i) as [d|] eqn:Hd.
    + destruct (get_repr b i s vs d) as (sl & s' & -> & Hds & [] & Hst); [done..|].
      rewrite Hds. exists vs. split_and!; [by constructor| |done|lia..].
      split; auto. by eapply repr_same_stored.
    + apply lookup_ge_None in Hd. simpl in Hok. rewrite (get_past b i s vs) by (done || lia).
      exists vs. split_and!; [constructor; lia|done|done|lia..].
  - by apply stack_put.
  - destruct (truncate_repr b s vs n) as (b' & Ht & Hss & Hr); [done|done|done|by right|].
    cbn [run_bop]. rewrite Ht. eexists. split_and!; [by constructor|by eapply stack_same_shape|done|..].
    all: rewrite (ss_counter _ _ Hss); lia.
  - destruct (trim_repr b s vs from to) as (b' & Ht & Hss & Hr); [done|done|done|].
    cbn [run_bop]. rewrite Ht. eexists. split_and!; [by constructor|by eapply stack_same_shape|done|..].
    all: rewrite (ss_counter _ _ Hss); lia.
  - cbn [run_bop]. rewrite (repr_Length _ _ _ so_repr0). exists vs.
    split_and!; [by constructor|done|done|lia..].
Qed.

(** C3: a blockset made of checksum layers over a base layer refines a list of
    blocks: over any block store satisfying the laws, every sequence of reads,
    writes, truncations, trims and length queries gives outcomes the list
    allows.  A read returns the last bytes put at that index, a write past the
    end is refused, a write fails otherwise only with an error of the store and
    then changes nothing, and no operation panics. *)
Theorem blockset_refines_list (inode : INodeRef) (ops : list bop) (b : blockset) (s : S)
    (vs : list bytes) :
  stack_ok inode b s vs → usable inode (counter b) (counter b + Z.of_nat (length ops)) →
  Forall (bop_ok (BlockSize s)) ops →
  ∃ outs b' s' vs', run_bops inode ops (b, s) = (outs, (b', s')) ∧
    bspecs (zeros (Z.to_nat (BlockSize s))) (refused (S := S) inode) ops vs outs vs' ∧
    stack_ok inode b' s' vs'.
Proof.
  intros Hso Hu Hok. revert b s vs Hso Hu Hok. induction ops as [|o ops IH]; intros b s vs Hso Hu Hok.
  { exists [], b, s, vs. split; [done|]. split; [constructor|done]. }
  inversion_clear Hok as [|? ? Ho Hok']. cbn [length] in Hu.
  pose proof (stack_step inode o b s vs Hso ltac:(eapply usable_sub; [done|lia|lia]) Ho) as Hst.
  cbn [run_bops]. destruct (run_bop inode o (b, s)) as [r [b1 s1]].
  destruct Hst as (vs1 & Hsp & Hso1 & Hbs & Hct). pose proof Hso1 as [].
  destruct (IH b1 s1 vs1 Hso1) as (outs & b' & s' & vs' & -> & Hsps & Hso').
  - eapply usable_sub; [done|lia|lia].
  - by rewrite Hbs.
  - exists (r :: outs), b', s', vs'. split; [done|]. split; [|done].
    econstructor; [done|]. by rewrite <-Hbs.
Qed.

(** A put through any stack of layers, replication included, either stores
    the block under the index in every layer (a read of any index then returns
    what the list with that block put in place holds) or fails with an error of
    the store; blocks of other inodes and the inode's earlier blocks are left
    alone in both cases, and the put does not panic. *)
Theorem blockset_put_get (inode : INodeRef) (i : Z) (d : bytes) (b : blockset) (s : S)
    (vs : list bytes) :
  inv s → is_open s → repr b s vs → each_ref (old inode (counter b)) b →
  usable inode (counter b) (counter b + copies b) →
  Z.of_nat (length d) = BlockSize s → 0 ≤ i ≤ Z.of_nat (length vs) →
  match PutBlock inode i d b s with
  | (Ok _, b', s') =>
      (∀ j x, 0 ≤ j → (if decide (j = i) then Some d else vs !! Z.to_nat j) = Some x →
         ∃ sl s2, GetBlock b' j s' = (Ok sl, s2) ∧ deref s2 sl = x) ∧
      (∀ r, old inode (counter b) r → stored s' r = stored s r)
  | (Err e, _, s') => refused (S := S) inode d e ∧ ∀ r, old inode (counter b) r → stored s' r = stored s r
  | (Panic, _, _) => False
  end.
Proof.
  intros Hi Ho Hr He Hu Hd Hrange. destruct (set_at_Some i d vs) as [vs' Hs]; [lia|].
  pose proof (put_repr inode i d b s vs vs' Hi Hr He Hu Hd Hs) as Hp.
  destruct (PutBlock inode i d b s) as [[[[]|e|] b'] s']; [| |done].
  - destruct Hp as ([[] Hk] & Hr' & _). split; [|done]. intros j x Hj Hx.
    assert (vs' !! Z.to_nat j = Some x) as Hx'.
    { rewrite (set_at_lookup _ _ _ _ _ Hs). revert Hx. repeat case_decide; done || lia. }
    destruct (get_repr b' j s' vs' x) as (sl & s2 & ? & ? & _); auto. eauto.
  - destruct Hp as ([_ Hk] & Hrf & _). done.
Qed.

(** ** Corruption *)

(** A block that does not match its checksum is not returned. *)
Lemma crc_mismatch sub crcs e i s sl s' c :
  GetBlock sub i s = (Ok sl, s') → gindex crcs i = Some c → ChecksumIEEE (deref s' sl) ≠ c →
  (10 ≤ length (deref s' sl))%nat →
  GetBlock (crcBlockset sub crcs e) i s = (Err ErrBlockUnavailable, s').
Proof.
  intros Hg Hc Hne Hl. layers. pose proof Hc as [H0 Hlt%lookup_lt_Some]%gindex_Some.
  rewrite decide_False by lia. run_step Hg. unfold mbind, M_bind, gets, lift. rewrite Hc. simpl.
  rewrite decide_True by done. unfold gslice. by rewrite decide_True by lia.
Qed.

(** The primary copy of block [i] of a stack with a base layer at the bottom. *)
Fixpoint primary b (i : Z) : option BlockRef :=
  match b with
  | NilBlockset => None
  | baseBlockset _ blocks _ _ => gindex blocks i
  | crcBlockset sub _ _ => primary sub i
  | replicationBlockset _ sub _ _ => primary sub i
  end.

(** A block stored for [r], with up to four bytes overwritten in place. *)
Record corrupted b s vs i r (sl : slice) d (off : nat) (w : bytes) : Prop := {
  co_inv : inv s;
  co_open : is_open s;
  co_repr : repr b s vs;
  co_size : 10 ≤ BlockSize s;
  co_ref : primary b i = Some r;
  co_nonzero : IsZero r = false;
  co_backing : backing s r = Some sl;
  co_data : deref s sl = d;
  co_full : Z.of_nat (length d) = BlockSize s;
  co_range : (off + length w ≤ length d)%nat;
  co_short : (length w ≤ 4)%nat;
  co_differs : w ≠ take (length w) (drop off d);
}.

Lemma corrupted_stored s r sl off w :
  inv s → is_open s → backing s r = Some sl → (off + length w ≤ length (deref s sl))%nat →
  let s1 := copy_to sl off w s in
  inv s1 ∧ is_open s1 ∧ stored s1 r = Some (blit off w (deref s sl)) ∧
  ∀ r', r' ≠ r → stored s1 r' = stored s r'.
Proof.
  intros Hi Ho Hb Hoff s1. pose proof (backing_live _ _ _ Hi Hb) as Hlv.
  destruct (copy_to_spec s sl off w Hi Hlv Hoff) as (Hi1 & Ho1 & _ & Hd1 & Hb1 & Hl1).
  split_and!; [done|by apply Ho1| |].
  - unfold stored, s1. rewrite Hb1, Hb. simpl. by rewrite Hd1.
  - intros r' Hne. unfold stored, s1. rewrite Hb1. destruct (backing s r') as [sl'|] eqn:E; [|done].
    simpl. f_equal. destruct (Hl1 sl') as [_ Hx]; [by eapply backing_live|]. apply Hx.
    intros ->. apply Hne. exact (backing_inj s r' r _ Hi E Hb).
Qed.

Lemma burst_checksum off w (d : bytes) :
  (off + length w ≤ length d)%nat → (length w ≤ 4)%nat → w ≠ take (length w) (drop off d) →
  ChecksumIEEE (blit off w d) ≠ ChecksumIEEE d.
Proof.
  intros Hoff Hw Hne. unfold blit. rewrite (take_ge w) by lia.
  assert (d = take off d ++ take (length w) (drop off d) ++ drop (off + length w) d) as Hsp
    by (by rewrite <-drop_drop, !take_drop).
  intros Heq. rewrite Hsp in Heq at 3. revert Heq. apply ChecksumIEEE_burst; [len|done|done].
Qed.

(** The checksum layer notices. *)
Lemma corrupt_read ids bl z crcs e s vs i r sl d off w
    (b := crcBlockset (baseBlockset ids bl true z) crcs e) :
  corrupted b s vs i r sl d off w →
  ∃ s', GetBlock b i (copy_to sl off w s) = (Err ErrBlockUnavailable, s') ∧
    inv s' ∧ is_open s' ∧ ∀ r', r' ≠ r → stored s' r' = stored s r'.
Proof.
  intros [Hi Ho [[_ Hh] ->] Hbs Hp Hz Hb <- Hlen Hoff Hw Hne].
  simpl in Hp. pose proof Hp as [Hi0 Hbl]%gindex_Some.
  destruct (Forall2_lookup_l _ _ _ _ _ Hh Hbl) as (d' & Hv & Hhd).
  unfold holds, stored in Hhd. rewrite Hz, Hb in Hhd. simpl in Hhd. injection Hhd as <-.
  destruct (corrupted_stored s r sl off w Hi Ho Hb Hoff) as (Hi1 & Ho1 & Hs1 & Hk1).
  destruct (store_get_run _ r _ Hi1 Ho1 Hs1) as (sl1 & s2 & Hg & Hds & [] & Hst).
  exists s2. split; [|split_and!; auto; intros r' ?; by rewrite Hst, Hk1].
  eapply crc_mismatch with (sl := sl1) (c := ChecksumIEEE (deref s sl)).
  - layers. pose proof (lookup_lt_Some _ _ _ Hbl). rewrite decide_False by lia.
    rewrite Hp. unfold mbind, M_bind, lift. simpl. by rewrite Hz.
  - apply gindex_Some. split; [done|]. by rewrite list_lookup_fmap, Hv.
  - rewrite Hds. by apply burst_checksum.
  - rewrite Hds, length_blit. lia.
Qed.

(** C26: four consecutive bytes of a stored block may be overwritten with
    anything else: a checksum layer over the base layer then reports the block
    as unavailable instead of returning wrong data. *)
Theorem crc_detects_corruption (ids : Z) (bl : list BlockRef) (z : Z) (crcs : list Z) (e : Z)
    (s : S) (vs : list bytes) (i : Z) (r : BlockRef) (sl : slice) (d : bytes)
    (off : nat) (w : bytes) :
  corrupted (crcBlockset (baseBlockset ids bl true z) crcs e) s vs i r sl d off w →
  ∃ s', GetBlock (crcBlockset (baseBlockset ids bl true z) crcs e) i (copy_to sl off w s)
        = (Err ErrBlockUnavailable, s').
Proof. intros Hc. destruct (corrupt_read _ _ _ _ _ _ _ _ _ _ _ _ _ Hc) as (s' & ? & _). eauto. Qed.

(** The copies all have block [i], and one of them can be read. *)
Lemma get_copy_found k i ls s d :
  inv s → is_open s → (k ≤ length ls)%nat → (0 < k)%nat →
  (∀ j l, (j < k)%nat → ls !! j = Some l → ∃ r, gindex l i = Some r ∧ stored s r = Some d) →
  ∃ sl s', get_copy k i ls true s = (Ok sl, s') ∧ deref s' sl = d.
Proof.
  intros Hi Ho Hk H0 Hall. destruct k as [|k]; [lia|]. destruct ls as [|l ls]; [simpl in Hk; lia|].
  destruct (Hall 0%nat l) as (r & Hr & Hs); [lia|done|].
  destruct (store_get_run s r d Hi Ho Hs) as (sl & s' & Hg & Hd & _). exists sl, s'. split; [|done].
  cbn [get_copy]. rewrite Hr. unfold mbind, M_bind, lift, try, on_store. simpl. by rewrite Hg.
Qed.

Lemma replication_falls_back rep sub rb i s e s1 :
  GetBlock sub i s = (Err e, s1) → rep ≠ 0 →
  GetBlock (replicationBlockset rep sub rb true) i s =
    match e with
    | ErrBlockNotExist => (Err ErrBlockNotExist, s1)
    | _ => get_copy (Z.to_nat (rep - 1)) i rb true s1
    end.
Proof.
  intros Hg Hrep. layers. rewrite decide_False by done. unfold mbind, M_bind, try.
  rewrite Hg. by destruct e.
Qed.

(** C27: a replication layer of at least two copies over a checksum layer and a base layer
    repairs a corrupted block.  The primary copy of a stored block has up to four
    consecutive bytes overwritten, anything else in the store is as it was, and the other
    copies are stored under references that are not zero and not the primary one.  A read
    then returns the original block, taken from another copy. *)
Theorem replication_repairs_corruption (rep ids : Z) (bl : list BlockRef) (z : Z)
    (crcs : list Z) (e : Z) (rb : list (list BlockRef))
    (b := replicationBlockset rep (crcBlockset (baseBlockset ids bl true z) crcs e) rb true)
    (s : S) (vs : list bytes) (i : Z) (r : BlockRef) (sl : slice) (d : bytes)
    (off : nat) (w : bytes) :
  corrupted b s vs i r sl d off w → 2 ≤ rep →
  (∀ j l r', (j < Z.to_nat (rep - 1))%nat → rb !! j = Some l → gindex l i = Some r' →
     r' ≠ r ∧ IsZero r' = false) →
  ∃ sl' s', GetBlock b i (copy_to sl off w s) = (Ok sl', s') ∧ deref s' sl' = d.
Proof.
  intros [Hi Ho Hr Hbs Hp Hz Hb Hd Hlen Hoff Hw Hne] Hrep Hother.
  destruct Hr as (Hr & _ & _ & Hrl & Hcopies).
  destruct (corrupt_read ids bl z crcs e s vs i r sl d off w) as (s1 & Hg & Hi1 & Ho1 & Hst);
    [by split|].
  unfold b. rewrite (replication_falls_back _ _ _ _ _ _ _ Hg) by lia.
  apply get_copy_found; [done|done|done|lia|]. intros j l Hj Hl.
  pose proof Hr as [[_ Hh] _]. pose proof Hp as [Hi0 Hbl]%gindex_Some.
  destruct (Forall2_lookup_l _ _ _ _ _ Hh Hbl) as (d' & Hv & Hhd).
  unfold holds, stored in Hhd. rewrite Hz, Hb in Hhd. simpl in Hhd. simplify_eq.
  destruct (Forall2_lookup_r _ _ _ _ _ (Hcopies j l Hj Hl) Hv) as (r' & Hr' & Hhr).
  assert (gindex l i = Some r') as Hgr by (by apply gindex_Some).
  destruct (Hother j l r' Hj Hl Hgr) as [Hnr Hzr]. unfold holds in Hhr. rewrite Hzr in Hhr.
  exists r'. split; [done|]. by rewrite Hst.
Qed.

(** When the store no longer has the primary copy at all and says
    [ErrBlockNotExist], as the temp and mfile stores do, the replication layer
    passes the error on and the other copies are not tried. *)
Theorem lost_primary_not_recovered (rep ids : Z) (bl : list BlockRef) (z : Z)
    (rb : list (list BlockRef)) (s s1 : S) (i : Z) (r : BlockRef) :
  rep ≠ 0 → gindex bl i = Some r → IsZero r = false →
  Store.GetBlock r s = (Err ErrBlockNotExist, s1) →
  GetBlock (replicationBlockset rep (baseBlockset ids bl true z) rb true) i s
  = (Err ErrBlockNotExist, s1).
Proof.
  intros Hrep Hg Hz Hs. rewrite (replication_falls_back _ _ _ _ _ ErrBlockNotExist s1); [done| |done].
  pose proof Hg as [H0 Hlt%lookup_lt_Some]%gindex_Some. layers. rewrite decide_False by lia.
  rewrite Hg. unfold mbind, M_bind, lift. simpl. by rewrite Hz.
Qed.
End refinement.

(** ** Serialization *)

(** What marshalling keeps: the number of the next block starts again at zero,
    the checksum of the empty block is forgotten, and the replication layer has
    one list more than it has copies. *)
Fixpoint reload (store : option Z) (b : blockset) : blockset :=
  match b with
  | NilBlockset => NilBlockset
  | baseBlockset _ blocks _ _ =>
      baseBlockset 0 blocks (bool_decide (is_Some store)) (default 0 store)
  | crcBlockset sub crcs _ => crcBlockset (reload store sub) crcs 0
  | replicationBlockset rep sub rb _ =>
      replicationBlockset rep (reload store sub) (take (Z.to_nat (rep - 1)) rb ++ [[]])
        (bool_decide (is_Some store))
  end.

(** Values that fit their encodings. *)
Fixpoint encodable (b : blockset) : Prop :=
  match b with
  | NilBlockset => True
  | baseBlockset _ blocks _ _ => Forall wf_blockref blocks
  | crcBlockset sub crcs _ => encodable sub ∧ Forall u32 crcs
  | replicationBlockset rep sub rb _ =>
      encodable sub ∧ 1 ≤ rep < 2 ^ 31 ∧ (Z.to_nat (rep - 1) ≤ length rb)%nat ∧
      Forall (λ l, Forall wf_blockref l ∧ Z.of_nat (length l) < 2 ^ 31) rb
  end.

Lemma length_concat_fixed {A} (f : A → bytes) n l :
  (∀ x, length (f x) = n) → length (concat (f <$> l)) = (length l * n)%nat.
Proof. intros Hf. induction l as [|x l IH]; [done|]. rewrite fmap_cons. cbn [concat length]. rewrite length_app, Hf, IH. simpl. lia. Qed.

Lemma pieces_concat {A} (f : A → bytes) n l :
  (0 < n)%nat → (∀ x, length (f x) = n) → pieces n (concat (f <$> l)) = f <$> l.
Proof.
  intros Hn Hf. unfold pieces. rewrite (length_concat_fixed f n), Nat.div_mul by (done || lia).
  induction l as [|x l IH]; [done|]. rewrite fmap_cons. cbn [concat length chunks].
  rewrite take_app_length', drop_app_length' by done. by rewrite IH.
Qed.

Lemma refs_of_bytes l : Forall wf_blockref l → refs_of (BlockRef_ToBytes <$> l) = Ok l.
Proof.
  induction 1 as [|r l Hr Hl IH]; [done|]. rewrite fmap_cons. cbn [refs_of].
  rewrite BlockRef_bytes_roundtrip_aux by done. cbn [mbind res_mbind res_bind].
  by rewrite IH.
Qed.

Lemma crcs_of_bytes l : Forall u32 l → le_get <$> (le_put 4 <$> l) = l.
Proof.
  induction 1 as [|c l Hc Hl IH]; [done|]. rewrite !fmap_cons.
  rewrite IH, le_get_put. f_equal. by apply wrap_id.
Qed.

Lemma read_put_int32 x rest : 0 ≤ x < 2 ^ 31 → read_int32 (put_int32 x ++ rest) = Ok (x, rest).
Proof.
  intros Hx. unfold read_int32, put_int32. rewrite !decide_False by len.
  rewrite take_app_length', drop_app_length' by len. rewrite le_get_put.
  rewrite wrap_id by (unfold in_width; simpl; lia). by rewrite to_signed_small by lia.
Qed.

Lemma read_ref_bytes r rest : wf_blockref r → read_ref (BlockRef_ToBytes r ++ rest) = Ok (r, rest).
Proof.
  intros Hr. unfold read_ref. rewrite decide_False by len.
  replace (Nat.min _ _) with BlockRefByteSize by len. rewrite Nat.sub_diag.
  rewrite take_app_length', drop_app_length' by len. change (zeros 0) with (@nil byte). rewrite app_nil_r.
  by rewrite BlockRef_bytes_roundtrip_aux.
Qed.

Lemma read_refs_bytes l rest :
  Forall wf_blockref l →
  read_refs (length l) (concat (BlockRef_ToBytes <$> l) ++ rest) = Ok (l, rest).
Proof.
  induction 1 as [|r l Hr Hl IH]; [done|]. rewrite fmap_cons. cbn [concat length read_refs].
  rewrite <-app_assoc, read_ref_bytes by done. cbn [mbind res_mbind res_bind].
  by rewrite IH.
Qed.

Lemma read_lists_marshal k i ls bs out :
  marshal_lists k ls = Ok bs → (k ≤ length ls)%nat → (i + k ≤ length out)%nat →
  Forall (λ l, Forall wf_blockref l ∧ Z.of_nat (length l) < 2 ^ 31) ls →
  read_lists k i bs out = (Ok tt, take i out ++ take k ls ++ drop (i + k) out).
Proof.
  revert i ls bs out. induction k as [|k IH]; intros i ls bs out Hm Hk Hi Hall; cbn [read_lists].
  { rewrite Nat.add_0_r. simpl. by rewrite take_drop. }
  destruct ls as [|l ls]; [simpl in Hk; lia|]. inversion_clear Hall as [|? ? [Hwf Hlen] Hall'].
  cbn [marshal_lists] in Hm. destruct (marshal_lists k ls) as [rest| |] eqn:Hrest; try done.
  cbn in Hm. injection Hm as <-. rewrite read_put_int32 by lia. rewrite decide_False by lia.
  rewrite Nat2Z.id, read_refs_bytes by done. simpl in Hk.
  rewrite (IH _ _ _ _ Hrest) by (rewrite ?length_insert; done || lia). f_equal.
  rewrite (take_S_r _ _ l) by (apply list_lookup_insert_eq; lia).
  rewrite take_insert_ge, drop_insert_lt, <-app_assoc by lia.
  by replace (S i + k)%nat with (i + S k)%nat by lia.
Qed.

Lemma marshal_lists_ok k ls : (k ≤ length ls)%nat → ∃ bs, marshal_lists k ls = Ok bs.
Proof.
  revert ls. induction k as [|k IH]; intros ls Hk; [by eexists|].
  destruct ls as [|l ls]; simpl in Hk; [lia|]. cbn [marshal_lists].
  destruct (IH ls) as [bs ->]; [lia|]. by eexists.
Qed.

(** One layer: a blockset of the same kind, given the marshalled bytes. *)
Lemma unmarshal_marshal b store :
  b ≠ NilBlockset → encodable b →
  ∃ m k newl, Marshal b = Ok m ∧ Kind b = Ok k ∧
    createBlockset (mkBlockLayer k EmptyString) store (reload store (GetSubBlockset b)) = Ok newl ∧
    Unmarshal m newl = (Ok tt, reload store b).
Proof.
  intros Hb He. destruct b as [|ids bl st z|sub crcs e|rep sub rb st]; [done| | |]; simpl in He.
  - do 3 eexists. split; [done|]. split; [done|]. split; [done|].
    unfold newBaseBlockset. layers. rewrite pieces_concat by (apply length_BlockRef_ToBytes || (unfold BlockRefByteSize; simpl; lia)).
    by rewrite refs_of_bytes.
  - destruct He as [_ Hc]. do 3 eexists. split; [done|]. split; [done|]. split; [done|].
    unfold newCRCBlockset. layers. rewrite pieces_concat by (apply length_le_put || lia).
    by rewrite crcs_of_bytes.
  - destruct He as (_ & Hrep & Hlen & Hall).
    destruct (marshal_lists_ok (Z.to_nat (rep - 1)) rb Hlen) as [bs Hbs].
    do 3 eexists. layers. rewrite Hbs. split; [done|]. split; [done|]. split; [done|].
    layers. rewrite read_put_int32 by lia. rewrite decide_False by lia.
    rewrite (read_lists_marshal _ _ _ _ _ Hbs) by (rewrite ?length_replicate; done || lia).
    rewrite take_0, drop_replicate.
    by replace (Z.to_nat rep - (0 + Z.to_nat (rep - 1)))%nat with 1%nat by lia.
Qed.

Lemma layers_cons b rest sub store :
  b ≠ NilBlockset → encodable b → GetSubBlockset b = sub →
  MarshalBlocksetToProto sub = Ok rest → unmarshalLayers rest store = Ok (reload store sub) →
  ∃ layers, MarshalBlocksetToProto b = Ok layers ∧
    unmarshalLayers layers store = Ok (reload store b) ∧ length layers ≠ 0%nat.
Proof.
  intros Hb He <- Hrest Hu. destruct (unmarshal_marshal _ store Hb He) as (m & k & newl & Hm & Hk & Hc & Hx).
  exists (mkPBlockLayer k m :: rest). split_and!; [| |done].
  - destruct b; [done| | |]; cbn [MarshalBlocksetToProto GetSubBlockset] in *; rewrite Hm, Hk;
      cbn [mbind res_mbind res_bind]; [by simplify_eq|by rewrite Hrest|by rewrite Hrest].
  - cbn [unmarshalLayers]. rewrite Hu. cbn [mbind res_mbind res_bind PType PContent]. rewrite Hc.
    cbn [mbind res_mbind res_bind]. by rewrite Hx.
Qed.

Lemma layers_roundtrip b store :
  encodable b → ∃ layers, MarshalBlocksetToProto b = Ok layers ∧
    unmarshalLayers layers store = Ok (reload store b) ∧ (b ≠ NilBlockset → length layers ≠ 0%nat).
Proof.
  intros He. induction b as [|ids bl st z|sub IH crcs e|rep sub IH rb st].
  - by exists [].
  - destruct (layers_cons (baseBlockset ids bl st z) [] NilBlockset store) as (layers & ? & ? & ?); eauto.
  - pose proof He as [Hs _]. destruct (IH Hs) as (rest & Hm & Hu & _).
    destruct (layers_cons (crcBlockset sub crcs e) rest sub store) as (layers & ? & ? & ?); eauto.
  - pose proof He as [Hs _]. destruct (IH Hs) as (rest & Hm & Hu & _).
    destruct (layers_cons (replicationBlockset rep sub rb st) rest sub store) as (layers & ? & ? & ?); eauto.
Qed.

(** C33: a blockset written with [MarshalBlocksetToProto] and read back with
    [UnmarshalFromProto] over any store is the same stack with the same block
    references, checksums and copies. *)
Theorem marshal_unmarshal (b : blockset) (store : option Z) :
  b ≠ NilBlockset → encodable b →
  ∃ layers, MarshalBlocksetToProto b = Ok layers ∧ UnmarshalFromProto layers store = Ok (reload store b).
Proof.
  intros Hb He. destruct (layers_roundtrip b store He) as (layers & Hm & Hu & Hl).
  exists layers. split; [done|]. unfold UnmarshalFromProto. by rewrite decide_False by auto.
Qed.

(** ** Truncating replicated blocksets *)

Lemma shrink_lists_short n ls l :
  0 < n → l ∈ ls → Z.of_nat (length l) < n → shrink_lists n ls = None.
Proof.
  intros Hn Hin Hl. induction ls as [|x ls IH]; [by apply not_elem_of_nil in Hin|].
  cbn [shrink_lists]. apply elem_of_cons in Hin as [<-|Hin].
  - unfold gslice. by rewrite decide_False by lia.
  - destruct (gslice 0 n x); [|done]. cbn [mbind option_bind]. by rewrite IH.
Qed.

(** A replicated blockset that was read back from its serialized form
    cannot be shortened to a non-zero length: the list [Unmarshal] makes in
    excess is empty, and slicing it panics. *)
Theorem reloaded_replication_truncate_panics (rep : Z) (sub : blockset) (rb : list (list BlockRef))
    (st : bool) (store : option Z) (n bsz : Z) (l0 : list BlockRef) (sub' : blockset) :
  2 ≤ rep → rb !! 0%nat = Some l0 → 0 < n ≤ Z.of_nat (length l0) →
  Truncate n bsz (reload store sub) = (Ok tt, sub') →
  (Truncate n bsz (reload store (replicationBlockset rep sub rb st))).1 = Panic.
Proof.
  intros Hrep Hl0 Hn Ht. cbn [reload]. layers. rewrite Ht.
  assert ((take (Z.to_nat (rep - 1)) rb ++ [[]]) !! 0%nat = Some l0) as ->.
  { rewrite lookup_app_l; [rewrite lookup_take_lt by lia; done|].
    apply lookup_lt_Some in Hl0. rewrite length_take. lia. }
  rewrite decide_True by lia. rewrite (shrink_lists_short n _ []); [done|lia|set_solver|simpl; lia].
Qed.

Lemma grow_lists_done k i n ls :
  n = Z.of_nat (length (default [] (ls !! 0%nat))) → grow_lists k (S i) n ls = ls.
Proof.
  intros Hn. revert i. induction k as [|k IH]; intros i; cbn [grow_lists]; [done|].
  rewrite <-Hn, Z.sub_diag. simpl (Z.to_nat 0). cbn [replicate]. rewrite app_nil_r.
  destruct (ls !! S i) as [l|] eqn:E; cbn [default from_option id].
  - rewrite list_insert_id by done. apply IH.
  - rewrite list_insert_ge by (by apply lookup_ge_None). apply IH.
Qed.

(** Lengthening a replicated blockset extends the primary and the first
    list of copies only: the other lists keep their old length, so a later put
    or read at a new index runs off their end. *)
Theorem replication_grow_extends_first_copy_only (rep : Z) (sub sub' : blockset)
    (rb : list (list BlockRef)) (st : bool) (n bsz : Z) (l0 : list BlockRef) :
  rb !! 0%nat = Some l0 → Z.of_nat (length l0) < n → Truncate n bsz sub = (Ok tt, sub') →
  ∃ rb', Truncate n bsz (replicationBlockset rep sub rb st)
         = (Ok tt, replicationBlockset rep sub' rb' st) ∧
    rb' !! 0%nat = Some (l0 ++ replicate (Z.to_nat (n - Z.of_nat (length l0))) ZeroBlock) ∧
    ∀ j l, rb !! S j = Some l → rb' !! S j = Some l ∧
      ∀ (r : BlockRef) i, Z.of_nat (length l) < i → set_at i r l = None.
Proof.
  intros Hl0 Hn Ht. layers. rewrite Ht, Hl0, decide_False by lia.
  destruct rb as [|x rb]; [done|]. injection Hl0 as ->. cbn [length grow_lists lookup list_lookup].
  set (l0' := l0 ++ _). rewrite grow_lists_done.
  - eexists. split; [done|]. split; [done|]. intros j l Hj. split; [done|]. intros r i Hi.
    unfold set_at, gassign. by rewrite !decide_False by lia.
  - simpl. unfold l0'. rewrite length_app, length_replicate. simpl. lia.
Qed.

(** ** Specifications of layers *)

(** [name=options], or the name alone. *)
Definition layer_text (x : string * string) : string :=
  if decide (x.2 = EmptyString) then x.1 else (x.1 ++ String "="%char x.2)%string.

Definition plain (w : string) : Prop := mem ","%char w = false ∧ mem "="%char w = false.

Lemma mem_app c u v : mem c (u ++ v)%string = mem c u || mem c v.
Proof. induction u as [|x u IH]; simpl; [done|]. by rewrite IH, orb_assoc. Qed.

(** A layer specification written as names with optional options, separated
    by commas, parses to exactly those layers in that order; names are accepted
    in any case. *)
Theorem parse_block_layer_spec (xs : list (string * string)) (ks : list BlockLayerKind) :
  xs ≠ [] → Forall (λ x, plain x.1 ∧ plain x.2) xs →
  Forall2 (λ x k, ParseBlockLayerKind x.1 = Ok k) xs ks →
  ParseBlockLayerSpec (join ","%string (layer_text <$> xs))
  = Ok (zip_with (λ x k, mkBlockLayer k x.2) xs ks).
Proof.
  intros Hne Hp Hk. unfold ParseBlockLayerSpec. rewrite split_join.
  - clear Hne. induction Hk as [|[n o] k xs ks Hk Hks IH]; [done|].
    inversion_clear Hp as [|? ? [[Hn Hn'] [Ho Ho']] Hp']. cbn [fst snd] in *.
    rewrite fmap_cons. cbn [parse_layers]. rewrite (IH Hp').
    assert (∃ o', split "="%char (layer_text (n, o)) = n :: o' ∧ default EmptyString (o' !! 0%nat) = o)
      as (o' & -> & Hd).
    { unfold layer_text. simpl. case_decide as He.
      - exists []. split; [by apply split_none|by subst].
      - exists (split "="%char o). split; [by apply split_app|]. by rewrite (split_none _ _ Ho'). }
    simpl. rewrite Hk. simpl. by rewrite Hd.
  - by destruct xs.
  - apply Forall_fmap. eapply Forall_impl; [|exact Hp]. intros [n o] [[Hn _] [Ho _]]. simpl in *.
    unfold layer_text. simpl. case_decide; [done|]. by rewrite mem_app, Hn.
Qed.

Lemma parse_block_layer_spec_witness :
  ParseBlockLayerSpec "Rep=3,CRC,base"
  = Ok [mkBlockLayer Replication "3"; mkBlockLayer CRC ""; mkBlockLayer Base ""].
Proof.
  apply (parse_block_layer_spec [("Rep", "3"); ("CRC", ""); ("base", "")]%string
           [Replication; CRC; Base]); [done| |].
  - repeat constructor.
  - repeat constructor.
Defined.

(** ** Examples over the in-memory store *)

Definition ex_inode : INodeRef := mkINodeRef 3 4.
Definition ex_block (x : byte) : bytes := replicate 16 x.
Definition ex_store : tempBlockStore := mkTemp ∅ 1%positive (Some ∅) 8 "current" 16.
Definition ex_stack : blockset := crcBlockset (baseBlockset 0 [] true 16) [] 0.

Lemma ex_store_inv : temp_inv ex_store.
Proof. apply (open_inv "current" 128 16); [lia|reflexivity]. Qed.

Lemma ex_usable lo hi : 0 ≤ lo → hi < 2 ^ 64 → usable (S := tempBlockStore) ex_inode lo hi.
Proof. intros. split_and!; done. Qed.

Lemma ex_stack_ok : stack_ok (S := tempBlockStore) ex_inode ex_stack ex_store [].
Proof. split; try done; [apply ex_store_inv|by eexists|]. by repeat constructor. Qed.

Lemma blockset_refines_list_witness :
  ∃ outs b' s' vs',
    run_bops (S := tempBlockStore) ex_inode
      [BPut 0 (ex_block x07); BPut 1 (ex_block x08); BGet 0; BTruncate 1; BGet 1] (ex_stack, ex_store)
    = (outs, (b', s')) ∧
    outs = [Ok BUnit; Ok BUnit; Ok (BBytes (ex_block x07)); Ok BUnit; Err ErrBlockNotExist] ∧
    bspecs (ex_block x00) (refused (S := tempBlockStore) ex_inode)
      [BPut 0 (ex_block x07); BPut 1 (ex_block x08); BGet 0; BTruncate 1; BGet 1] [] outs vs'.
Proof.
  destruct (blockset_refines_list (S := tempBlockStore) ex_inode
      [BPut 0 (ex_block x07); BPut 1 (ex_block x08); BGet 0; BTruncate 1; BGet 1]
      ex_stack ex_store [] ex_stack_ok (ex_usable 0 5 ltac:(lia) ltac:(lia)))
    as (outs & b' & s' & vs' & Hrun & Hsp & _).
  { repeat constructor; simpl; lia. }
  exists outs, b', s', vs'. split; [exact Hrun|]. split; [|exact Hsp].
  apply (f_equal fst) in Hrun. simpl fst in Hrun. rewrite <-Hrun. vm_compute. reflexivity.
Defined.

Definition ex_rep : blockset := replicationBlockset 2 ex_stack [[]] true.

Lemma ex_rep_repr : repr (S := tempBlockStore) ex_rep ex_store [].
Proof.
  split; [split; [by split|done]|]. split_and!; try done; try (simpl; lia).
  intros [|j] l Hj Hl; simpl in *; [by simplify_eq/=|lia].
Qed.

Lemma ex_rep_refs n : each_ref (old ex_inode n) ex_rep.
Proof. split; [constructor|]. intros [|j] l Hj Hl; simpl in *; [by simplify_eq/=; constructor|lia]. Qed.

(** The state after one put. *)
Definition ex_after (b : blockset) : res unit * blockset * tempBlockStore :=
  PutBlock (S := tempBlockStore) ex_inode 0 (ex_block x07) b ex_store.

Lemma blockset_put_get_witness :
  ∃ b' s' sl s2, ex_after ex_rep = (Ok tt, b', s') ∧
    GetBlock (S := tempBlockStore) b' 0 s' = (Ok sl, s2) ∧ deref s2 sl = ex_block x07.
Proof.
  pose proof (blockset_put_get (S := tempBlockStore) ex_inode 0 (ex_block x07) ex_rep ex_store []
    ex_store_inv ltac:(by eexists) ex_rep_repr (ex_rep_refs 0) (ex_usable 0 2 ltac:(lia) ltac:(lia))
    eq_refl ltac:(simpl; lia)) as Hp. unfold ex_after.
  destruct (PutBlock ex_inode 0 (ex_block x07) ex_rep ex_store) as [[[[]|e|] b'] s'] eqn:E.
  - destruct Hp as [Hp _]. destruct (Hp 0 (ex_block x07) ltac:(lia) eq_refl) as (sl & s2 & Hg & Hd).
    exists b', s', sl, s2. split; [reflexivity|]. split; [exact Hg|exact Hd].
  - exfalso. vm_compute in E. discriminate.
  - exfalso. exact Hp.
Defined.

(** Properties of the state after the put, from the lemma about puts. *)
Lemma ex_after_ok b :
  repr (S := tempBlockStore) b ex_store [] → each_ref (old ex_inode (counter b)) b →
  usable (S := tempBlockStore) ex_inode (counter b) (counter b + copies b) →
  is_ok (ex_after b).1.1 = true →
  Store.inv (ex_after b).2 ∧ repr (S := tempBlockStore) (ex_after b).1.2 (ex_after b).2 [ex_block x07].
Proof.
  intros Hr He Hu Hok.
  pose proof (put_repr (S := tempBlockStore) ex_inode 0 (ex_block x07) b ex_store [] [ex_block x07]
    ex_store_inv Hr He Hu eq_refl eq_refl) as Hp. unfold ex_after in *.
  destruct (PutBlock ex_inode 0 (ex_block x07) b ex_store) as [[[[]|e|] b'] s']; [|done|done].
  destruct Hp as ([[] _] & Hr' & _). done.
Qed.

Lemma ex_crc_corrupted :
  corrupted (S := tempBlockStore) (ex_after ex_stack).1.2 (ex_after ex_stack).2 [ex_block x07]
    0 (mkBlockRef ex_inode 1) 1%positive (ex_block x07) 3 [x01; x02].
Proof.
  destruct (ex_after_ok ex_stack) as [Hi Hr].
  - apply ex_stack_ok.
  - apply ex_stack_ok.
  - by apply ex_usable.
  - vm_compute. reflexivity.
  - split; [exact Hi|vm_compute; by eexists|exact Hr|..]; try (vm_compute; reflexivity).
    + vm_compute. discriminate.
    + simpl. lia.
    + simpl. lia.
    + vm_compute. discriminate.
Qed.

Lemma crc_detects_corruption_witness :
  ∃ s', GetBlock (S := tempBlockStore) (ex_after ex_stack).1.2 0
          (t_copy 1 3 [x01; x02] (ex_after ex_stack).2) = (Err ErrBlockUnavailable, s').
Proof.
  pose proof (crc_detects_corruption (S := tempBlockStore) 1 [mkBlockRef ex_inode 1] 16
    [ChecksumIEEE (ex_block x07)] 0 (ex_after ex_stack).2 [ex_block x07] 0 (mkBlockRef ex_inode 1)
    1%positive (ex_block x07) 3 [x01; x02]) as Hc.
  exact (Hc ex_crc_corrupted).
Defined.

Definition ex_crcs : list Z := [ChecksumIEEE (ex_block x07)].

Definition ex_rep1 : blockset :=
  replicationBlockset 2 (crcBlockset (baseBlockset 2 [mkBlockRef ex_inode 1] true 16) ex_crcs 0)
    [[mkBlockRef ex_inode 2]] true.

Lemma ex_after_rep : (ex_after ex_rep).1.2 = ex_rep1.
Proof. vm_compute. reflexivity. Qed.

Lemma ex_rep_corrupted :
  corrupted (S := tempBlockStore) ex_rep1
    (ex_after ex_rep).2 [ex_block x07]
    0 (mkBlockRef ex_inode 1) 1%positive (ex_block x07) 3 [x01; x02].
Proof.
  destruct (ex_after_ok ex_rep) as [Hi Hr].
  - apply ex_rep_repr.
  - apply ex_rep_refs.
  - by apply ex_usable.
  - vm_compute. reflexivity.
  - rewrite ex_after_rep in Hr.
    split; [exact Hi|vm_compute; by eexists|exact Hr|..]; try (vm_compute; reflexivity).
    + vm_compute. discriminate.
    + simpl. lia.
    + simpl. lia.
    + vm_compute. discriminate.
Qed.

Lemma replication_repairs_corruption_witness :
  ∃ sl s', GetBlock (S := tempBlockStore) ex_rep1 0
          (t_copy 1 3 [x01; x02] (ex_after ex_rep).2) = (Ok sl, s') ∧ t_deref s' sl = ex_block x07.
Proof.
  pose proof (replication_repairs_corruption (S := tempBlockStore) 2 2 [mkBlockRef ex_inode 1] 16
    ex_crcs 0 [[mkBlockRef ex_inode 2]] (ex_after ex_rep).2 [ex_block x07] 0
    (mkBlockRef ex_inode 1) 1%positive (ex_block x07) 3 [x01; x02] ex_rep_corrupted) as Hc.
  apply Hc; [lia|]. intros [|j] l r' Hj Hl Hr; [|simpl in Hj; lia].
  simplify_eq/=. unfold gindex in Hr. simpl in Hr. simplify_eq. split; [discriminate|reflexivity].
Defined.

Lemma lost_primary_not_recovered_witness :
  GetBlock (S := tempBlockStore)
    (replicationBlockset 2 (baseBlockset 2 [mkBlockRef ex_inode 1] true 16)
       [[mkBlockRef ex_inode 2]] true) 0 ex_store = (Err ErrBlockNotExist, ex_store).
Proof.
  apply (lost_primary_not_recovered (S := tempBlockStore) 2 2 [mkBlockRef ex_inode 1] 16
           [[mkBlockRef ex_inode 2]] ex_store ex_store 0 (mkBlockRef ex_inode 1));
    [lia|reflexivity|reflexivity|vm_compute; reflexivity].
Defined.

Lemma marshal_unmarshal_witness :
  ∃ layers, MarshalBlocksetToProto ex_rep1 = Ok layers ∧
    UnmarshalFromProto layers (Some 16) = Ok (reload (Some 16) ex_rep1).
Proof.
  apply (marshal_unmarshal ex_rep1 (Some 16)); [discriminate|].
  assert (∀ n, 0 ≤ n < 100 → wf_blockref (mkBlockRef ex_inode n)) as Hw.
  { intros n Hn. unfold wf_blockref, wf_inoderef, in_width. simpl. lia. }
  simpl. split_and!; try lia.
  - constructor; [apply Hw; lia|constructor].
  - constructor; [apply ChecksumIEEE_width|constructor].
  - constructor; [|constructor]. split; [constructor; [apply Hw; lia|constructor]|simpl; lia].
Defined.

Lemma reloaded_replication_truncate_panics_witness :
  (Truncate 1 16 (reload (Some 16)
    (replicationBlockset 2 (baseBlockset 4 [mkBlockRef ex_inode 1; mkBlockRef ex_inode 3] true 16)
       [[mkBlockRef ex_inode 2; mkBlockRef ex_inode 4]] true))).1 = Panic.
Proof.
  eapply (reloaded_replication_truncate_panics 2 _ _ _ _ 1 16); [lia|reflexivity|simpl; lia|reflexivity].
Defined.

Lemma replication_grow_extends_first_copy_only_witness :
  ∃ rb', Truncate 5 16 (replicationBlockset 3 (baseBlockset 0 [] true 16) [[]; []] true)
    = (Ok tt, replicationBlockset 3 (baseBlockset 0 (replicate 5 ZeroBlock) true 16) rb' true) ∧
    rb' !! 1%nat = Some [].
Proof.
  destruct (replication_grow_extends_first_copy_only 3 (baseBlockset 0 [] true 16)
    (baseBlockset 0 (replicate 5 ZeroBlock) true 16) [[]; []] true 5 16 []) as (rb' & Ht & _ & Hj);
    [reflexivity|simpl; lia|reflexivity|].
  exists rb'. split; [exact Ht|]. apply (Hj 0%nat []). reflexivity.
Defined.
