(* ===== verification/Proto.v ===== *)
(** * The protobuf wire format

    The building blocks the generated code of [src/models/torus.pb.go] and
    [src/models/rpc.pb.go] is made of: variable-length integers, the loops that
    marshal fields into a preallocated buffer, and the loop that unmarshals
    fields off one.  A marshaller is a computation on the buffer [dAtA] and the
    index [i]; an unmarshaller reads the buffer [d] at the index [iNdEx], kept
    as a signed 64-bit integer so that the overflow of an index is visible.
    The texts of errors leave out the numbers the code formats into them. *)
From S2P Require Import Prelude GoSem.

(** ** Errors *)

Definition ErrInvalidLength : error := ErrMsg "proto: negative length found during unmarshaling".
Definition ErrIntOverflow : error := ErrMsg "proto: integer overflow".
Definition ErrUnexpectedEOF : error := ErrMsg "unexpected EOF".

(** ** Writing *)

Definition W : Type → Type := M (bytes * Z).

(** [dAtA[i] = x; i++] *)
Definition put_byte (x : Z) : W unit := λ '(buf, i),
  match gassign i (byte_of_Z x) buf with
  | Some buf' => (Ok tt, (buf', i + 1))
  | None => (Panic, (buf, i))
  end.

(** [encodeVarint]: at most ten bytes for a 64-bit value. *)
Fixpoint encodeVarint_loop (fuel : nat) (v : Z) : W unit :=
  match fuel with
  | O => panic
  | S fuel' =>
      if decide (128 ≤ v) then
        _ ← put_byte (Z.lor (Z.land v 0x7f) 0x80);
        encodeVarint_loop fuel' (Z.shiftr v 7)
      else put_byte v
  end.
Definition encodeVarint (v : Z) : W unit := encodeVarint_loop 10 v.

(** [sov]: the number of bytes of a varint. *)
Fixpoint sov_loop (fuel : nat) (x : Z) : Z :=
  match fuel with
  | O => 0
  | S fuel' => let x' := Z.shiftr x 7 in 1 + (if decide (x' = 0) then 0 else sov_loop fuel' x')
  end.
Definition sov (x : Z) : Z := sov_loop 10 x.

(** [i += copy(dAtA[i:], x)] *)
Definition put_bytes (x : bytes) : W unit := λ '(buf, i),
  if decide (0 ≤ i ≤ Z.of_nat (length buf)) then
    (Ok tt, (blit (Z.to_nat i) x buf, i + Z.of_nat (copied (Z.to_nat i) x buf)))
  else (Panic, (buf, i)).

(** [n, err := msg.MarshalTo(dAtA[i:]); i += n] *)
Definition put_msg (marshalTo : W unit) : W unit := λ '(buf, i),
  if decide (0 ≤ i ≤ Z.of_nat (length buf)) then
    let k := Z.to_nat i in
    match marshalTo (drop k buf, 0) with
    | (Ok _, (sub, n)) => (Ok tt, (take k buf ++ sub, i + n))
    | (Err e, (sub, n)) => (Err e, (take k buf ++ sub, i))
    | (Panic, _) => (Panic, (buf, i))
    end
  else (Panic, (buf, i)).

(** [Marshal]: a buffer of the computed size, filled, and cut at the index. *)
Definition marshal (size : Z) (marshalTo : W unit) : res bytes :=
  if decide (size < 0) then Panic
  else
    match marshalTo (zeros (Z.to_nat size), 0) with
    | (Ok _, (buf, n)) => or_panic (gslice 0 n buf)
    | (Err e, _) => Err e
    | (Panic, _) => Panic
    end.

(** The field forms of a marshaller; [tag] is the byte the generator computed. *)
Definition put_varint_field (tag v : Z) : W unit :=
  if decide (v = 0) then mret tt else (_ ← put_byte tag; encodeVarint v).
Definition put_bytes_field (tag : Z) (x : bytes) : W unit :=
  if decide (length x = 0%nat) then mret tt
  else (_ ← put_byte tag; _ ← encodeVarint (Z.of_nat (length x)); put_bytes x).
Definition put_bool_field (tag : Z) (b : bool) : W unit :=
  if b then (_ ← put_byte tag; put_byte 1) else mret tt.
Definition put_msg_field (tag size : Z) (marshalTo : W unit) : W unit :=
  _ ← put_byte tag; _ ← encodeVarint size; put_msg marshalTo.
(** One entry of a map field; an empty value is written only if [always]. *)
Definition entry_size (always : bool) (k v : bytes) : Z :=
  let byteSize :=
    if decide (always = true ∨ (0 < length v)%nat)
    then 1 + Z.of_nat (length v) + sov (Z.of_nat (length v)) else 0 in
  1 + Z.of_nat (length k) + sov (Z.of_nat (length k)) + byteSize.
Definition put_map_entry (tag : Z) (always : bool) (e : bytes * bytes) : W unit :=
  let '(k, v) := e in
  _ ← put_byte tag;
  _ ← encodeVarint (entry_size always k v);
  _ ← put_byte 0x0a;
  _ ← encodeVarint (Z.of_nat (length k));
  _ ← put_bytes k;
  if decide (always = true ∨ (0 < length v)%nat) then
    _ ← put_byte 0x12;
    _ ← encodeVarint (Z.of_nat (length v));
    put_bytes v
  else mret tt.
Fixpoint put_all {A} (f : A → W unit) (l : list A) : W unit :=
  match l with
  | [] => mret tt
  | x :: l' => _ ← f x; put_all f l'
  end.

(** Their sizes. *)
Definition size_varint_field (v : Z) : Z := if decide (v = 0) then 0 else 1 + sov v.
Definition size_bytes_field (x : bytes) : Z :=
  let l := Z.of_nat (length x) in if decide (0 < l) then 1 + l + sov l else 0.
Definition size_bool_field (b : bool) : Z := if b then 2 else 0.
Definition size_msg_field (l : Z) : Z := 1 + l + sov l.
Definition size_map_entry (always : bool) (e : bytes * bytes) : Z :=
  let mapEntrySize := entry_size always e.1 e.2 in mapEntrySize + 1 + sov mapEntrySize.
Definition size_all {A} (f : A → Z) (l : list A) : Z := foldr (λ x n, f x + n) 0 l.

(** ** Reading *)

Section reading.
Variable d : bytes.
Let l := Z.of_nat (length d).

(** The loop that reads a varint into a variable of [w] bits. *)
Fixpoint varint_loop (n : nat) (w shift acc : Z) : M Z Z :=
  match n with
  | O => throw ErrIntOverflow
  | S n' =>
      i ← get;
      if decide (l ≤ i) then throw ErrUnexpectedEOF
      else
        b ← lift (or_panic (gindex d i));
        _ ← put (i + 1);
        let acc' := Z.lor acc (wrap w (Z.shiftl (Z.land (byte_to_Z b) 0x7f) shift)) in
        if decide (byte_to_Z b < 128) then mret acc'
        else varint_loop n' w (shift + 7) acc'
  end.
Definition varint (w : Z) : M Z Z := varint_loop 10 w 0 0.

(** A length, checked, and the index it leads to. *)
Definition read_end : M Z Z :=
  v ← varint 64;
  let msglen := to_signed 64 v in
  if decide (msglen < 0) then throw ErrInvalidLength
  else
    i ← get;
    let postIndex := to_signed 64 (i + msglen) in
    if decide (l < postIndex) then throw ErrUnexpectedEOF else mret postIndex.

(** [x = dAtA[iNdEx:postIndex]; iNdEx = postIndex] *)
Definition read_bytes : M Z bytes :=
  postIndex ← read_end;
  i ← get;
  x ← lift (or_panic (gslice i postIndex d));
  _ ← put postIndex;
  mret x.

(** [skip]: the length of the field at the start of [x]. *)
Fixpoint skip_varint (n : nat) (x : bytes) (i : Z) : res Z :=
  match n with
  | O => Err ErrIntOverflow
  | S n' =>
      if decide (Z.of_nat (length x) ≤ i) then Err ErrUnexpectedEOF
      else
        b ← or_panic (gindex x i);
        if decide (byte_to_Z b < 128) then Ok (i + 1) else skip_varint n' x (i + 1)
  end.
End reading.

Fixpoint skip (fuel : nat) (x : bytes) : res Z :=
  match fuel with
  | O => Panic
  | S fuel' =>
      if decide (length x = 0%nat) then Panic
      else
      match varint x 64 0 with
      | (Err e, _) => Err e
      | (Panic, _) => Panic
      | (Ok wire, i) =>
          let wireType := Z.land wire 7 in
          if decide (wireType = 0) then skip_varint 10 x i
          else if decide (wireType = 1) then Ok (i + 8)
          else if decide (wireType = 2) then
            match varint x 64 i with
            | (Err e, _) => Err e
            | (Panic, _) => Panic
            | (Ok v, i') =>
                let length := to_signed 64 v in
                if decide (length < 0) then Err ErrInvalidLength
                else Ok (to_signed 64 (i' + length))
            end
          else if decide (wireType = 3) then
            (fix group (g : nat) (start : Z) : res Z :=
               match g with
               | O => Panic
               | S g' =>
                   match varint x 64 start with
                   | (Err e, _) => Err e
                   | (Panic, _) => Panic
                   | (Ok innerWire, i') =>
                       if decide (Z.land innerWire 7 = 4) then Ok i'
                       else
                         next ← skip fuel' (drop (Z.to_nat start) x);
                         group g' (to_signed 64 (start + next))
                   end
               end) (S (length x)) i
          else if decide (wireType = 4) then Ok i
          else if decide (wireType = 5) then Ok (i + 4)
          else Err (ErrMsg "proto: illegal wireType")
      end
  end.

(** The loop of every [Unmarshal] method: [h] is the [switch] on the field
    number, [None] its default case.  Every round moves the index forward, so
    the length of the buffer bounds the number of rounds. *)
Section unmarshal.
Context {A : Type} (h : Z → Z → A → option (M Z A)) (d : bytes).
Let l := Z.of_nat (length d).

Fixpoint unmarshal_loop (fuel : nat) (m : A) : M Z A :=
  preIndex ← get;
  if decide (l ≤ preIndex) then
    if decide (l < preIndex) then throw ErrUnexpectedEOF else mret m
  else
    match fuel with
    | O => panic
    | S fuel' =>
        wire ← varint d 64;
        let fieldNum := to_signed 32 (Z.shiftr wire 3) in
        let wireType := Z.land wire 7 in
        if decide (wireType = 4) then throw (ErrMsg "proto: wiretype end group for non-group")
        else if decide (fieldNum ≤ 0) then throw (ErrMsg "proto: illegal tag")
        else
          match h fieldNum wireType m with
          | Some p => m' ← p; unmarshal_loop fuel' m'
          | None =>
              skippy ← lift (skip (S (length d)) (drop (Z.to_nat preIndex) d));
              if decide (skippy < 0) then throw ErrInvalidLength
              else
                let i := to_signed 64 (preIndex + skippy) in
                if decide (l < i) then throw ErrUnexpectedEOF
                else _ ← put i; unmarshal_loop fuel' m
          end
    end.
End unmarshal.

(** [m.Unmarshal(dAtA)] on top of what [m] holds. *)
Definition unmarshal {A} (h : bytes → Z → Z → A → option (M Z A)) (d : bytes) (m : A) : res A :=
  (unmarshal_loop (h d) d (S (length d)) m 0).1.

(** The field forms of an unmarshaller. *)
Definition wrong_type (field : string) : error := ErrMsg ("proto: wrong wireType for field " ++ field).

Definition get_varint_field {A} (d : bytes) (w : Z) (field : string) (wireType : Z) (f : Z → A) : M Z A :=
  if decide (wireType ≠ 0) then throw (wrong_type field)
  else v ← varint d w; mret (f v).
Definition get_bytes_field {A} (d : bytes) (field : string) (wireType : Z) (f : bytes → A) : M Z A :=
  if decide (wireType ≠ 2) then throw (wrong_type field)
  else x ← read_bytes d; mret (f x).
Definition get_msg_field {A B} (d : bytes) (field : string) (wireType : Z)
    (un : bytes → res B) (f : B → A) : M Z A :=
  if decide (wireType ≠ 2) then throw (wrong_type field)
  else x ← read_bytes d; y ← lift (un x); mret (f y).

(** A string of a map entry, after a tag that is read and ignored. *)
Definition read_tagged (d : bytes) : M Z bytes := _ ← varint d 64; read_bytes d.

(** An entry of a map field: a key, and a value unless the entry ends there. *)
Definition get_map_field {A} (d : bytes) (field : string) (wireType : Z) (f : bytes → bytes → A) : M Z A :=
  if decide (wireType ≠ 2) then throw (wrong_type field)
  else
    postIndex ← read_end d;
    mapkey ← read_tagged d;
    i ← get;
    mapvalue ← (if decide (i < postIndex) then read_tagged d else mret []);
    _ ← put postIndex;
    mret (f mapkey mapvalue).

(** A packed field of booleans: varints up to the end of the field. *)
Fixpoint packed_loop (d : bytes) (fuel : nat) (postIndex : Z) (acc : list bool) : M Z (list bool) :=
  i ← get;
  if decide (i < postIndex) then
    match fuel with
    | O => panic
    | S fuel' =>
        v ← varint d 64;
        packed_loop d fuel' postIndex (acc ++ [bool_decide (v ≠ 0)])
    end
  else mret acc.
Definition get_packed_field {A} (d : bytes) (field : string) (wireType : Z) (l : list bool)
    (f : list bool → A) : M Z A :=
  if decide (wireType = 0) then v ← varint d 64; mret (f (l ++ [bool_decide (v ≠ 0)]))
  else if decide (wireType = 2) then
    postIndex ← read_end d;
    l' ← packed_loop d (S (length d)) postIndex l;
    mret (f l')
  else throw (wrong_type field).

(** ** What is written *)

(** The bytes of a varint. *)
Fixpoint venc_loop (fuel : nat) (v : Z) : bytes :=
  match fuel with
  | O => []
  | S fuel' =>
      if decide (128 ≤ v) then byte_of_Z (Z.lor (Z.land v 0x7f) 0x80) :: venc_loop fuel' (Z.shiftr v 7)
      else [byte_of_Z v]
  end.
Definition venc (v : Z) : bytes := venc_loop 10 v.

(** A marshaller appends [out] whatever the buffer, if there is room. *)
Definition writes (w : W unit) (out : bytes) : Prop :=
  ∀ pre rest, (length out ≤ length rest)%nat →
    w (pre ++ rest, Z.of_nat (length pre))
    = (Ok tt, (pre ++ out ++ drop (length out) rest, Z.of_nat (length pre) + Z.of_nat (length out))).

Lemma writes_ret : writes (mret tt) [].
Proof. intros pre rest _. simpl. by rewrite drop_0, Z.add_0_r. Qed.

Lemma writes_bind (w1 w2 : W unit) o1 o2 :
  writes w1 o1 → writes w2 o2 → writes (_ ← w1; w2) (o1 ++ o2).
Proof.
  intros H1 H2 pre rest Hr. rewrite length_app in Hr.
  rewrite (bind_step _ _ _ _ _ (H1 pre rest ltac:(lia))).
  pose proof (H2 (pre ++ o1) (drop (length o1) rest)) as H. rewrite length_app, Nat2Z.inj_add in H.
  rewrite <-!app_assoc in H. rewrite H by (rewrite length_drop; lia).
  rewrite drop_drop, length_app, Nat2Z.inj_add, <-!app_assoc. f_equal. f_equal. lia.
Qed.

Lemma writes_byte x : writes (put_byte x) [byte_of_Z x].
Proof.
  intros pre rest Hr. simpl in Hr. unfold put_byte, gassign. destruct rest as [|y rest]; [simpl in Hr; lia|].
  rewrite decide_True by (rewrite length_app; simpl; lia). rewrite Nat2Z.id.
  rewrite insert_app_r_alt, Nat.sub_diag by lia. done.
Qed.

Lemma writes_bytes x : writes (put_bytes x) x.
Proof.
  intros pre rest Hr. unfold put_bytes. rewrite decide_True by (rewrite length_app; lia).
  rewrite Nat2Z.id. unfold blit, copied. rewrite length_app.
  rewrite take_app_length, drop_app_ge, (take_ge x) by lia.
  replace (length pre + length x - length pre)%nat with (length x) by lia.
  by rewrite Nat.min_l by lia.
Qed.

Lemma shiftr7_lt n v : 0 ≤ v < 2 ^ (7 * Z.of_nat (S n)) → 0 ≤ Z.shiftr v 7 < 2 ^ (7 * Z.of_nat n).
Proof.
  intros Hv. rewrite Z.shiftr_div_pow2 by lia. split; [apply Z.div_pos; lia|].
  apply Z.div_lt_upper_bound; [lia|]. rewrite <-Z.pow_add_r by lia.
  replace (7 + 7 * Z.of_nat n) with (7 * Z.of_nat (S n)) by lia. lia.
Qed.

Lemma writes_varint_loop n v :
  0 ≤ v < 2 ^ (7 * Z.of_nat n) → (0 < n)%nat → writes (encodeVarint_loop n v) (venc_loop n v).
Proof.
  revert v. induction n as [|n IH]; intros v Hv Hn; [lia|]. cbn [encodeVarint_loop venc_loop].
  case_decide as Hd; [|apply writes_byte].
  apply (writes_bind _ _ [_]); [apply writes_byte|]. apply IH; [by apply shiftr7_lt|].
  destruct n; [simpl in Hv; lia|lia].
Qed.

Lemma writes_varint v : u64 v → writes (encodeVarint v) (venc v).
Proof. intros Hv. apply writes_varint_loop; [|lia]. unfold in_width in Hv. simpl. lia. Qed.

Lemma length_venc_loop n v :
  0 ≤ v < 2 ^ (7 * Z.of_nat n) → (0 < n)%nat → Z.of_nat (length (venc_loop n v)) = sov_loop n v.
Proof.
  revert v. induction n as [|n IH]; intros v Hv Hn; [lia|]. cbn [venc_loop sov_loop].
  pose proof (shiftr7_lt n v Hv) as Hs. case_decide as Hd.
  - destruct n as [|n]; [simpl in Hv; lia|]. cbn [length]. rewrite Nat2Z.inj_succ, IH by (done || lia).
    rewrite decide_False; [lia|]. rewrite Z.shiftr_div_pow2 by lia. intros H0%Z.div_small_iff; lia.
  - rewrite decide_True; [done|]. rewrite Z.shiftr_div_pow2 by lia. apply Z.div_small. lia.
Qed.

Lemma length_venc v : u64 v → Z.of_nat (length (venc v)) = sov v.
Proof. intros Hv. apply length_venc_loop; [|lia]. unfold in_width in Hv. simpl. lia. Qed.

Lemma writes_msg w out : writes w out → writes (put_msg w) out.
Proof.
  intros Hw pre rest Hr. unfold put_msg. rewrite decide_True by (rewrite length_app; lia).
  rewrite Nat2Z.id, drop_app_length, take_app_length. pose proof (Hw [] rest Hr) as H.
  cbn [length app] in H. change (Z.of_nat 0) with 0 in H. by rewrite H.
Qed.

(** A marshaller whose size is right gives exactly its bytes. *)
Lemma marshal_writes size w out :
  writes w out → size = Z.of_nat (length out) → marshal size w = Ok out.
Proof.
  intros Hw ->. unfold marshal. rewrite decide_False, Nat2Z.id by lia.
  pose proof (Hw [] (zeros (length out)) ltac:(len)) as H.
  cbn [length app] in H. change (Z.of_nat 0) with 0 in H. rewrite H.
  rewrite drop_ge, app_nil_r, Z.add_0_l by len. by rewrite gslice_all.
Qed.

(** ** The bytes of the field forms *)

Definition venc_field (tag v : Z) : bytes := if decide (v = 0) then [] else byte_of_Z tag :: venc v.
Definition benc (x : bytes) : bytes := venc (Z.of_nat (length x)) ++ x.
Definition benc_field (tag : Z) (x : bytes) : bytes :=
  if decide (length x = 0%nat) then [] else byte_of_Z tag :: benc x.
Definition boolenc_field (tag : Z) (b : bool) : bytes := if b then [byte_of_Z tag; x01] else [].

Lemma writes_varint_field tag v : u64 v → writes (put_varint_field tag v) (venc_field tag v).
Proof.
  intros Hv. unfold put_varint_field, venc_field. case_decide; [apply writes_ret|].
  apply (writes_bind _ _ [_]); [apply writes_byte|by apply writes_varint].
Qed.

Lemma writes_benc x : u64 (Z.of_nat (length x)) →
  writes (_ ← encodeVarint (Z.of_nat (length x)); put_bytes x) (benc x).
Proof. intros Hx. apply writes_bind; [by apply writes_varint|apply writes_bytes]. Qed.

Lemma writes_bytes_field tag x :
  u64 (Z.of_nat (length x)) → writes (put_bytes_field tag x) (benc_field tag x).
Proof.
  intros Hx. unfold put_bytes_field, benc_field. case_decide; [apply writes_ret|].
  apply (writes_bind _ _ [_]); [apply writes_byte|by apply writes_benc].
Qed.

Lemma writes_bool_field tag b : writes (put_bool_field tag b) (boolenc_field tag b).
Proof.
  destruct b; [|apply writes_ret]. apply (writes_bind _ _ [_] [_]); apply writes_byte.
Qed.

Lemma writes_msg_field tag size w out :
  writes w out → size = Z.of_nat (length out) → u64 size →
  writes (put_msg_field tag size w) (byte_of_Z tag :: benc out).
Proof.
  intros Hw -> Hu. apply (writes_bind _ _ [_]); [apply writes_byte|].
  apply writes_bind; [by apply writes_varint|by apply writes_msg].
Qed.

Lemma writes_all {A} (f : A → W unit) (e : A → bytes) l :
  Forall (λ x, writes (f x) (e x)) l → writes (put_all f l) (concat (e <$> l)).
Proof.
  induction 1 as [|x l Hx Hl IH]; [apply writes_ret|]. rewrite fmap_cons. cbn [put_all concat].
  by apply writes_bind.
Qed.

Lemma length_venc_field tag v : u64 v → Z.of_nat (length (venc_field tag v)) = size_varint_field v.
Proof.
  intros Hv. unfold venc_field, size_varint_field. case_decide; [done|].
  cbn [length]. rewrite Nat2Z.inj_succ, length_venc by done. lia.
Qed.

Lemma length_benc x : u64 (Z.of_nat (length x)) →
  Z.of_nat (length (benc x)) = Z.of_nat (length x) + sov (Z.of_nat (length x)).
Proof. intros Hx. unfold benc. rewrite length_app, Nat2Z.inj_add, length_venc by done. lia. Qed.

Lemma length_benc_field tag x :
  u64 (Z.of_nat (length x)) → Z.of_nat (length (benc_field tag x)) = size_bytes_field x.
Proof.
  intros Hx. unfold benc_field, size_bytes_field. case_decide as Hl.
  - by rewrite Hl.
  - rewrite decide_True by lia. cbn [length]. rewrite Nat2Z.inj_succ, length_benc by done. lia.
Qed.

Lemma length_boolenc_field tag b : Z.of_nat (length (boolenc_field tag b)) = size_bool_field b.
Proof. by destruct b. Qed.

Lemma length_concat_size {A} (e : A → bytes) (f : A → Z) l :
  Forall (λ x, Z.of_nat (length (e x)) = f x) l → Z.of_nat (length (concat (e <$> l))) = size_all f l.
Proof.
  induction 1 as [|x l Hx Hl IH]; [done|]. rewrite fmap_cons. cbn [concat size_all foldr].
  rewrite length_app, Nat2Z.inj_add, IH, Hx. done.
Qed.

(** ** What is read back *)

(** An unmarshaller consumes [inp] wherever it stands in the buffer. *)
Definition reads {A} (p : bytes → M Z A) (inp : bytes) (a : A) : Prop :=
  ∀ pre post, Z.of_nat (length (pre ++ inp ++ post)) < 2 ^ 63 →
    p (pre ++ inp ++ post) (Z.of_nat (length pre))
    = (Ok a, Z.of_nat (length pre) + Z.of_nat (length inp)).

Lemma reads_ret {A} (a : A) : reads (λ _, mret a) [] a.
Proof. intros pre post _. simpl. by rewrite Z.add_0_r. Qed.

Lemma reads_bind {A B} (p : bytes → M Z A) (k : bytes → A → M Z B) i1 i2 a b :
  reads p i1 a → reads (λ d, k d a) i2 b → reads (λ d, p d ≫= k d) (i1 ++ i2) b.
Proof.
  intros H1 H2 pre post Hl. rewrite <-app_assoc in *.
  rewrite (bind_step _ _ _ _ _ (H1 pre (i2 ++ post) Hl)).
  pose proof (H2 (pre ++ i1) post) as H. rewrite <-!app_assoc in H. specialize (H Hl).
  rewrite length_app, Nat2Z.inj_add in H. rewrite H. f_equal. rewrite length_app. lia.
Qed.

Lemma reads_map {A B} (p : bytes → M Z A) (f : A → B) inp a :
  reads p inp a → reads (λ d, x ← p d; mret (f x)) inp (f a).
Proof.
  intros H. rewrite <-(app_nil_r inp).
  by apply (reads_bind p (λ d x, mret (f x)) inp [] a); [|apply reads_ret].
Qed.

Lemma wrap_lor w a b : 0 ≤ w → wrap w (Z.lor a b) = Z.lor (wrap w a) (wrap w b).
Proof. intros Hw. unfold wrap. rewrite <-!Z.land_ones by done. apply Z.land_lor_distr_l. Qed.

(** A value in its low seven bits and the rest. *)
Lemma split7 v shift : 0 ≤ shift →
  Z.shiftl v shift
  = Z.lor (Z.shiftl (Z.land v 0x7f) shift) (Z.shiftl (Z.shiftr v 7) (shift + 7)).
Proof.
  intros Hs. replace (shift + 7) with (7 + shift) by lia.
  rewrite <-Z.shiftl_shiftl by lia. rewrite <-Z.shiftl_lor. f_equal.
  change 0x7f with (Z.ones 7). apply Z.bits_inj'. intros n Hn. rewrite Z.lor_spec.
  destruct (decide (n < 7)).
  - rewrite Z.land_ones, Z.mod_pow2_bits_low, Z.shiftl_spec_low by lia. by rewrite orb_false_r.
  - rewrite Z.land_ones, Z.mod_pow2_bits_high, Z.shiftl_spec, Z.shiftr_spec by lia. simpl. f_equal. lia.
Qed.

(** A byte with the continuation bit set keeps its seven bits. *)
Lemma varint_low_byte v :
  Z.land (byte_to_Z (byte_of_Z (Z.lor (Z.land v 0x7f) 0x80))) 0x7f = Z.land v 0x7f
  ∧ 128 ≤ byte_to_Z (byte_of_Z (Z.lor (Z.land v 0x7f) 0x80)).
Proof.
  set (x := Z.land v 0x7f). assert (0 ≤ x < 128) as Hx.
  { unfold x. change 0x7f with (Z.ones 7). rewrite Z.land_ones by lia. apply Z.mod_pos_bound. lia. }
  pose (ok := λ x : Z, let b := byte_to_Z (byte_of_Z (Z.lor x 0x80)) in
    bool_decide (Z.land b 0x7f = x) && bool_decide (128 ≤ b)).
  assert (Forall (λ n, ok (Z.of_nat n) = true) (seq 0 128)) as Hall.
  { apply Forall_forall, List.forallb_forall. vm_compute. reflexivity. }
  eapply (Forall_lookup_1 _ _ (Z.to_nat x)) in Hall; [|by apply lookup_seq_lt; lia].
  cbv beta in Hall. rewrite Nat.add_0_l, Z2Nat.id in Hall by lia.
  apply andb_true_iff in Hall as [?%bool_decide_eq_true ?%bool_decide_eq_true]. done.
Qed.

Lemma gindex_mid {A} (pre : list A) x post : gindex (pre ++ x :: post) (Z.of_nat (length pre)) = Some x.
Proof. rewrite gindex_nat. by apply list_lookup_middle. Qed.

Lemma reads_varint_loop w n v shift acc :
  0 ≤ w → 0 ≤ shift → 0 ≤ v < 2 ^ (7 * Z.of_nat n) → (0 < n)%nat →
  reads (λ d, varint_loop d n w shift acc) (venc_loop n v) (Z.lor acc (wrap w (Z.shiftl v shift))).
Proof.
  intros Hw. revert v shift acc. induction n as [|n IH]; intros v shift acc Hs Hv Hn pre post Hl; [lia|].
  cbn [varint_loop venc_loop] in *. unfold get at 1, mbind, M_bind at 1.
  destruct (decide (128 ≤ v)) as [Hd|Hd]; cbn [app] in *.
  - destruct (varint_low_byte v) as [Hlow Hbig].
    set (b := byte_of_Z _) in *. rewrite decide_False by len.
    rewrite gindex_mid. unfold lift, or_panic, mbind, M_bind, put at 1.
    rewrite Hlow, decide_False by lia.
    destruct n as [|n]; [simpl in Hv; lia|].
    pose proof (IH (Z.shiftr v 7) (shift + 7) (Z.lor acc (wrap w (Z.shiftl (Z.land v 0x7f) shift)))
      ltac:(lia) (shiftr7_lt _ _ Hv) ltac:(lia) (pre ++ [b]) post) as H.
    rewrite <-app_assoc, (length_app pre [b]), Nat2Z.inj_add in H. cbn [app] in H. change (Z.of_nat (length [b])) with 1 in H.
    rewrite H by done. rewrite <-Z.lor_assoc, <-wrap_lor, <-split7 by done. f_equal. cbn [length]. lia.
  - rewrite decide_False by len. rewrite gindex_mid. unfold lift, or_panic, mbind, M_bind, put at 1.
    rewrite byte_to_of_Z, Z.mod_small, decide_True by lia.
    replace (Z.land v 0x7f) with v; [done|]. change 0x7f with (Z.ones 7). rewrite Z.land_ones, Z.mod_small by lia. done.
Qed.

Lemma reads_varint w v : 0 ≤ w → u64 v → reads (λ d, varint d w) (venc v) (wrap w v).
Proof.
  intros Hw Hv. unfold varint, venc. replace (wrap w v) with (Z.lor 0 (wrap w (Z.shiftl v 0)))
    by (by rewrite Z.shiftl_0_r, Z.lor_0_l).
  apply reads_varint_loop; [done|done| |lia]. unfold in_width in Hv. simpl. lia.
Qed.

(** A length leads to the end of what follows it. *)
Lemma read_end_run n pre rest :
  0 ≤ n ≤ Z.of_nat (length rest) → Z.of_nat (length (pre ++ venc n ++ rest)) < 2 ^ 63 →
  read_end (pre ++ venc n ++ rest) (Z.of_nat (length pre))
  = (Ok (Z.of_nat (length pre) + Z.of_nat (length (venc n)) + n),
     Z.of_nat (length pre) + Z.of_nat (length (venc n))).
Proof.
  intros Hn Hl. unfold read_end.
  assert (n < 2 ^ 63) as Hx by len.
  assert (u64 n) as Hu by (unfold in_width; lia).
  rewrite (bind_step _ _ _ _ _ (reads_varint 64 _ ltac:(lia) Hu pre rest Hl)).
  rewrite wrap_id, to_signed_small by (done || lia). rewrite decide_False by lia.
  unfold get, mbind, M_bind. rewrite to_signed_small by len.
  rewrite decide_False by len. done.
Qed.

(** A length-delimited field reads as its contents. *)
Lemma reads_bytes x : reads read_bytes (benc x) x.
Proof.
  intros pre post Hl. unfold read_bytes, benc in *. rewrite <-app_assoc in *.
  assert (0 ≤ Z.of_nat (length x) ≤ Z.of_nat (length (x ++ post))) as Hx by len.
  rewrite (bind_step _ _ _ _ _ (read_end_run _ pre (x ++ post) Hx Hl)).
  rewrite (bind_step get _ _ _ _ (eq_refl _)).
  unfold gslice. rewrite decide_True by len.
  rewrite app_assoc, drop_app_length' by len. rewrite take_app_length' by lia.
  unfold lift, put, mbind, M_bind. cbn. f_equal. len.
Qed.

(** The bytes of a map entry, after its tag. *)
Definition entry (always : bool) (k v : bytes) : bytes :=
  byte_of_Z 0x0a :: benc k ++
  (if decide (always = true ∨ (0 < length v)%nat) then byte_of_Z 0x12 :: benc v else []).

Lemma length_entry always k v :
  u64 (Z.of_nat (length k)) → u64 (Z.of_nat (length v)) →
  Z.of_nat (length (entry always k v)) = entry_size always k v.
Proof.
  intros Hk Hv. unfold entry, entry_size. cbn [length].
  rewrite Nat2Z.inj_succ, length_app, Nat2Z.inj_add, length_benc by done. case_decide; cbn [length].
  - rewrite Nat2Z.inj_succ, length_benc by done. lia.
  - change (Z.of_nat 0) with 0. lia.
Qed.

Lemma writes_map_entry tag always k v :
  u64 (Z.of_nat (length k)) → u64 (Z.of_nat (length v)) → u64 (entry_size always k v) →
  writes (put_map_entry tag always (k, v)) (byte_of_Z tag :: benc (entry always k v)).
Proof.
  intros Hk Hv He. unfold put_map_entry. apply (writes_bind _ _ [_]); [apply writes_byte|].
  unfold benc at 1. rewrite length_entry by done. apply writes_bind; [by apply writes_varint|].
  unfold entry. apply (writes_bind _ _ [_]); [apply writes_byte|].
  unfold benc at 1. rewrite <-app_assoc. apply writes_bind; [by apply writes_varint|].
  apply writes_bind; [apply writes_bytes|]. case_decide; [|apply writes_ret].
  apply (writes_bind _ _ [_]); [apply writes_byte|]. by apply writes_benc.
Qed.

Lemma reads_tag tag : 0 ≤ tag < 128 → reads (λ d, varint d 64) [byte_of_Z tag] tag.
Proof.
  intros Ht. replace [byte_of_Z tag] with (venc tag)
    by (unfold venc; cbn [venc_loop]; by rewrite decide_False by lia).
  assert (u64 tag) as Hu by (unfold in_width; lia).
  rewrite <-(wrap_id 64 tag Hu) at 2. by apply reads_varint.
Qed.

Lemma reads_tagged tag x : 0 ≤ tag < 128 → reads read_tagged (byte_of_Z tag :: benc x) x.
Proof.
  intros Ht. apply (reads_bind (λ d, varint d 64) (λ d _, read_bytes d) [_] _ tag); [by apply reads_tag|].
  apply reads_bytes.
Qed.

Lemma length_venc_pos v : (0 < length (venc v))%nat.
Proof. unfold venc. cbn [venc_loop]. case_decide; cbn [length]; lia. Qed.

Lemma reads_entry {A} always k v field (f : bytes → bytes → A) :
  reads (λ d, get_map_field d field 2 f) (benc (entry always k v)) (f k v).
Proof.
  intros pre post Hl. unfold get_map_field. rewrite decide_False by tauto.
  set (e := entry always k v) in *.
  change (benc e) with (venc (Z.of_nat (length e)) ++ e) in *. rewrite <-app_assoc in *.
  assert (0 ≤ Z.of_nat (length e) ≤ Z.of_nat (length (e ++ post))) as He by len.
  rewrite (bind_step _ _ _ _ _ (read_end_run _ pre (e ++ post) He Hl)).
  set (n := venc (Z.of_nat (length e))) in *.
  set (rest := if decide (always = true ∨ (0 < length v)%nat) then byte_of_Z 0x12 :: benc v else []).
  assert (e = (byte_of_Z 0x0a :: benc k) ++ rest) as He' by done. clearbody e n. subst e.
  pose proof (reads_tagged 0x0a k ltac:(lia) (pre ++ n) (rest ++ post)) as Hk.
  repeat (rewrite <-app_assoc in Hk || rewrite <-app_assoc in Hl || rewrite <-app_assoc).
  cbn [app] in *. repeat (rewrite <-app_assoc in Hl || rewrite <-app_assoc).
  specialize (Hk Hl).
  rewrite (length_app pre n), Nat2Z.inj_add in Hk. rewrite (bind_step _ _ _ _ _ Hk).
  rewrite (bind_step get _ _ _ _ (eq_refl _)). unfold rest in *. clear Hk rest.
  destruct (decide (always = true ∨ (0 < length v)%nat)) as [Hv|Hv].
  - rewrite decide_True by len.
    pose proof (reads_tagged 0x12 v ltac:(lia) ((pre ++ n) ++ byte_of_Z 0x0a :: benc k) post) as Hval.
    rewrite <-!app_assoc in Hval. cbn [app] in *. specialize (Hval Hl).
    rewrite (length_app pre (n ++ _)), (length_app n (_ :: _)), !Nat2Z.inj_add, Z.add_assoc in Hval.
    rewrite (bind_step _ _ _ _ _ Hval). unfold put, mbind, M_bind. cbn. f_equal. len.
  - rewrite decide_False by len. assert (v = []) as -> by (apply nil_length_inv; lia).
    unfold put, mbind, M_bind. cbn. f_equal. len.
Qed.

(** Packed booleans. *)
Definition pack (l : list bool) : bytes := (λ b : bool, if b then x01 else x00) <$> l.

Lemma reads_bool (b : bool) : reads (λ d, varint d 64) [if b then x01 else x00] (if b then 1 else 0).
Proof. destruct b; [apply (reads_tag 1)|apply (reads_tag 0)]; lia. Qed.

Lemma packed_loop_run l fuel acc pre post :
  Z.of_nat (length (pre ++ pack l ++ post)) < 2 ^ 63 → (length l < fuel)%nat →
  packed_loop (pre ++ pack l ++ post) fuel (Z.of_nat (length pre) + Z.of_nat (length l)) acc (Z.of_nat (length pre))
  = (Ok (acc ++ l), Z.of_nat (length pre) + Z.of_nat (length l)).
Proof.
  revert fuel acc pre. induction l as [|b l IH]; intros fuel acc pre Hl Hf.
  { destruct fuel; cbn [packed_loop]; rewrite (bind_step get _ _ _ _ (eq_refl _)), decide_False by len;
      rewrite app_nil_r; cbn [length]; by rewrite Z.add_0_r. }
  destruct fuel as [|fuel]; [lia|]. cbn [packed_loop].
  rewrite (bind_step get _ _ _ _ (eq_refl _)), decide_True by len.
  pose proof (reads_bool b pre (pack l ++ post) Hl) as Hb. cbn [app] in Hb.
  change (pack (b :: l)) with ((if b then x01 else x00) :: pack l) in *. cbn [app] in *.
  rewrite (bind_step _ _ _ _ _ Hb).
  replace (bool_decide ((if b then 1 else 0) ≠ 0)) with b by (by destruct b).
  pose proof (IH fuel (acc ++ [b]) (pre ++ [if b then x01 else x00])) as H.
  rewrite <-!app_assoc in H. cbn [app] in H.
  rewrite (length_app pre [_]), Nat2Z.inj_add in H. cbn [length] in *.
  replace (Z.of_nat (length pre) + Z.of_nat (S (length l)))
    with (Z.of_nat (length pre) + Z.of_nat 1 + Z.of_nat (length l)) by lia.
  apply H; [done|lia].
Qed.

Lemma reads_packed {A} l0 l field (f : list bool → A) :
  reads (λ d, get_packed_field d field 2 l0 f) (benc (pack l)) (f (l0 ++ l)).
Proof.
  intros pre post Hl. unfold get_packed_field, benc in *. rewrite decide_False, decide_True by lia.
  rewrite <-app_assoc in *.
  assert (length (pack l) = length l) as Hp by apply length_fmap.
  assert (0 ≤ Z.of_nat (length (pack l)) ≤ Z.of_nat (length (pack l ++ post))) as He by len.
  rewrite (bind_step _ _ _ _ _ (read_end_run _ pre (pack l ++ post) He Hl)). rewrite Hp in *.
  pose proof (packed_loop_run l (S (length (pre ++ venc (Z.of_nat (length l)) ++ pack l ++ post))) l0
    (pre ++ venc (Z.of_nat (length l))) post) as H.
  rewrite <-app_assoc, (length_app pre (venc _)), Nat2Z.inj_add in H.
  rewrite (bind_step _ _ _ _ _ (H Hl ltac:(len))). cbn. f_equal. len.
Qed.

(** A field as it is written: its tag byte and its body, which the [switch] of
    the unmarshaller reads and takes from [m] to [m']. *)
Definition field {A} (h : bytes → Z → Z → A → option (M Z A)) (tag : Z) (body : bytes) (m m' : A) : Prop :=
  8 ≤ tag < 128 ∧ Z.land tag 7 ≠ 4 ∧
  ∃ p, (∀ d, h d (Z.shiftr tag 3) (Z.land tag 7) m = Some (p d)) ∧ reads p body m'.

(** A field no [switch] knows, by its wire type: a varint, eight bytes, a
    length-delimited string, four bytes. *)
Inductive unknown_body : Z → bytes → Prop :=
  | unknown_varint v : u64 v → unknown_body 0 (venc v)
  | unknown_fixed64 x : length x = 8%nat → unknown_body 1 x
  | unknown_bytes x : unknown_body 2 (benc x)
  | unknown_fixed32 x : length x = 4%nat → unknown_body 5 x.

Lemma skip_varint_loop n v pre post :
  0 ≤ v < 2 ^ (7 * Z.of_nat n) → (0 < n)%nat →
  skip_varint n (pre ++ venc_loop n v ++ post) (Z.of_nat (length pre))
  = Ok (Z.of_nat (length pre) + Z.of_nat (length (venc_loop n v))).
Proof.
  revert v pre. induction n as [|n IH]; intros v pre Hv Hn; [lia|]. cbn [skip_varint venc_loop].
  destruct (decide (128 ≤ v)) as [Hd|Hd]; cbn [app]; rewrite decide_False, gindex_mid by len; cbn [or_panic mbind res_mbind res_bind].
  - destruct (varint_low_byte v) as [_ Hbig]. set (b := byte_of_Z _) in *. rewrite decide_False by lia.
    destruct n as [|n]; [simpl in Hv; lia|].
    pose proof (IH (Z.shiftr v 7) (pre ++ [b]) (shiftr7_lt _ _ Hv) ltac:(lia)) as H.
    rewrite <-app_assoc, (length_app pre [b]), Nat2Z.inj_add in H. cbn [app] in H. change (Z.of_nat (length [b])) with 1 in H.
    rewrite H. f_equal. cbn [length]. lia.
  - rewrite byte_to_of_Z, Z.mod_small, decide_True by lia. done.
Qed.

Lemma skip_unknown fuel tag body post :
  0 ≤ tag < 128 → unknown_body (Z.land tag 7) body →
  Z.of_nat (length ([byte_of_Z tag] ++ body ++ post)) < 2 ^ 63 →
  skip (S fuel) ([byte_of_Z tag] ++ body ++ post) = Ok (1 + Z.of_nat (length body)).
Proof.
  intros Ht Hu Hl. cbn [skip]. rewrite decide_False by done.
  pose proof (reads_tag tag Ht [] (body ++ post) Hl) as H. cbn [app length] in H |- *.
  change (Z.of_nat 0) with 0 in H. change (Z.of_nat 1) with 1 in H. rewrite H. cbv zeta. rewrite Z.add_0_l.
  inversion Hu as [v Hv Hw|x Hx Hw|x Hw|x Hx Hw]; cbn [Z.eq_dec].
  - rewrite decide_True by done. pose proof (skip_varint_loop 10 v [byte_of_Z tag] post) as Hs.
    cbn [app length] in Hs. apply Hs; [unfold in_width in Hv; simpl; lia|lia].
  - rewrite decide_False, decide_True by lia. f_equal. lia.
  - rewrite !decide_False, decide_True by lia. subst body. unfold benc in Hl |- *. rewrite <-app_assoc in *.
    assert (Z.of_nat (length x) < 2 ^ 63) as Hb by len.
    assert (u64 (Z.of_nat (length x))) as Hv by (unfold in_width; lia).
    pose proof (reads_varint 64 _ ltac:(lia) Hv [byte_of_Z tag] (x ++ post) Hl) as Hr. cbn [app length] in Hr.
    change (Z.of_nat 1) with 1 in Hr. rewrite Hr, wrap_id, to_signed_small by (done || lia).
    rewrite decide_False by lia. f_equal. rewrite to_signed_small by len. len.
  - rewrite !decide_False, decide_True by lia. f_equal. lia.
Qed.

(** A sequence of fields that takes the message from [m] to [m']. *)
Inductive fields {A} (h : bytes → Z → Z → A → option (M Z A)) : bytes → A → A → Prop :=
  | fields_nil m : fields h [] m m
  | fields_cons tag body rest m m' m'' :
      field h tag body m m' → fields h rest m' m'' →
      fields h ((byte_of_Z tag :: body) ++ rest) m m''
  | fields_skip tag body rest m m' :
      8 ≤ tag < 128 → unknown_body (Z.land tag 7) body →
      (∀ d, h d (Z.shiftr tag 3) (Z.land tag 7) m = None) → fields h rest m m' →
      fields h ((byte_of_Z tag :: body) ++ rest) m m'.

Section fields.
Context {A : Type} (h : bytes → Z → Z → A → option (M Z A)).

Lemma fields_app i1 i2 m1 m2 m3 :
  fields h i1 m1 m2 → fields h i2 m2 m3 → fields h (i1 ++ i2) m1 m3.
Proof.
  induction 1 as [|tag body rest m m' m'' Hf Hr IH|tag body rest m m' Ht Hu Hn Hr IH]; intros H2; [done| |];
    rewrite <-app_assoc.
  - by eapply fields_cons; [|apply IH].
  - by apply fields_skip; [..|apply IH].
Qed.

Lemma fields_one tag body m m' : field h tag body m m' → fields h (byte_of_Z tag :: body) m m'.
Proof. intros H. rewrite <-(app_nil_r (_ :: _)). eapply fields_cons; [done|constructor]. Qed.

(** One round of the loop up to the [switch]. *)
Lemma unmarshal_loop_tag tag body rest pre fuel m :
  8 ≤ tag < 128 → Z.land tag 7 ≠ 4 →
  Z.of_nat (length (pre ++ (byte_of_Z tag :: body) ++ rest)) < 2 ^ 63 →
  let d := pre ++ (byte_of_Z tag :: body) ++ rest in
  unmarshal_loop (h d) d (S fuel) m (Z.of_nat (length pre))
  = match h d (Z.shiftr tag 3) (Z.land tag 7) m with
    | Some p => m' ← p; unmarshal_loop (h d) d fuel m'
    | None =>
        skippy ← lift (skip (S (length d)) (drop (length pre) d));
        if decide (skippy < 0) then throw ErrInvalidLength
        else
          let i := to_signed 64 (Z.of_nat (length pre) + skippy) in
          if decide (Z.of_nat (length d) < i) then throw ErrUnexpectedEOF
          else _ ← put i; unmarshal_loop (h d) d fuel m
    end (Z.of_nat (length pre) + 1).
Proof.
  intros Ht Hw Hl d. unfold d. clear d. cbn [unmarshal_loop].
  rewrite (bind_step get _ _ _ _ (eq_refl _)). rewrite decide_False by len. cbn [app] in *.
  pose proof (reads_tag tag ltac:(lia) pre (body ++ rest) Hl) as Htag. cbn [app] in Htag.
  rewrite (bind_step _ _ _ _ _ Htag). cbv zeta. cbn [length]. change (Z.of_nat 1) with 1.
  assert (1 ≤ Z.shiftr tag 3 < 16) as Hn.
  { rewrite Z.shiftr_div_pow2 by lia. split; [apply Z.div_le_lower_bound|apply Z.div_lt_upper_bound]; lia. }
  rewrite to_signed_small by lia. rewrite decide_False, decide_False, Nat2Z.id by (done || lia). done.
Qed.

(** The loop reads a sequence of fields to the end of the buffer. *)
Lemma unmarshal_loop_fields inp m m' : fields h inp m m' → ∀ pre fuel,
  Z.of_nat (length (pre ++ inp)) < 2 ^ 63 → (length inp < fuel)%nat →
  unmarshal_loop (h (pre ++ inp)) (pre ++ inp) fuel m (Z.of_nat (length pre))
  = (Ok m', Z.of_nat (length (pre ++ inp))).
Proof.
  induction 1 as [m|tag body rest m m' m'' (Ht & Hw & p & Hp & Hr) Hrest IH|tag body rest m m' Ht Hu Hn Hrest IH];
    intros pre fuel Hl Hf.
  { rewrite app_nil_r in *. destruct fuel; cbn [unmarshal_loop]; unfold get, mbind, M_bind;
      rewrite decide_True, decide_False by lia; done. }
  all: destruct fuel as [|fuel]; [lia|].
  all: pose proof (IH (pre ++ byte_of_Z tag :: body) fuel) as Hloop;
    rewrite <-app_assoc in Hloop; cbn [app] in Hloop.
  - rewrite (unmarshal_loop_tag tag body rest pre fuel m Ht Hw Hl), Hp. cbn [app] in *.
    pose proof (Hr (pre ++ [byte_of_Z tag]) rest) as Hbody.
    rewrite <-app_assoc, (length_app pre [_]), Nat2Z.inj_add in Hbody. specialize (Hbody Hl).
    rewrite (bind_step _ _ _ _ _ Hbody). rewrite <-Hloop; [|done|len]. f_equal. len.
  - assert (Z.land tag 7 ≠ 4) as Hw by (inversion Hu; lia).
    rewrite (unmarshal_loop_tag tag body rest pre fuel m Ht Hw Hl), Hn. rewrite drop_app_length. cbn [app] in *.
    assert (Z.of_nat (length ([byte_of_Z tag] ++ body ++ rest)) < 2 ^ 63) as Hl' by len.
    pose proof (skip_unknown (length (pre ++ byte_of_Z tag :: body ++ rest)) tag body rest ltac:(lia) Hu Hl') as Hs.
    cbn [app] in Hs. rewrite Hs. unfold lift at 1, mbind at 1, M_bind at 1. rewrite decide_False by lia. cbv zeta.
    rewrite to_signed_small by len. rewrite decide_False by len.
    rewrite (bind_step (put _) _ _ _ _ (eq_refl _)). rewrite <-Hloop; [|done|len]. f_equal. len.
Qed.

Lemma unmarshal_fields inp m m' :
  fields h inp m m' → Z.of_nat (length inp) < 2 ^ 63 → unmarshal h inp m = Ok m'.
Proof.
  intros H Hl. unfold unmarshal. by rewrite (unmarshal_loop_fields _ _ _ H [] _ Hl) by lia.
Qed.
End fields.

(** The field forms, read.  A field that is left out when it holds the zero
    value must find the zero value already there. *)
Section field_forms.
Context {A : Type} (h : bytes → Z → Z → A → option (M Z A)).

Lemma fields_varint tag w field v (f : Z → A) m m' :
  8 ≤ tag < 128 → Z.land tag 7 = 0 →
  (∀ d, h d (Z.shiftr tag 3) 0 m = Some (get_varint_field d w field 0 f)) →
  0 ≤ w → u64 v → f (wrap w v) = m' → (v = 0 → m' = m) →
  fields h (venc_field tag v) m m'.
Proof.
  intros Ht H0 Hh Hw Hv <- Hz. unfold venc_field. destruct (decide (v = 0)) as [Hv0|Hv0].
  { rewrite Hz by done. constructor. }
  apply fields_one. split; [done|]. rewrite H0. split; [done|].
  exists (λ d, get_varint_field d w field 0 f). split; [done|].
  apply (reads_map (λ d, varint d w) f). by apply reads_varint.
Qed.

Lemma fields_bytes1 tag field x (f : bytes → A) m m' :
  8 ≤ tag < 128 → Z.land tag 7 = 2 →
  (∀ d, h d (Z.shiftr tag 3) 2 m = Some (get_bytes_field d field 2 f)) →
  f x = m' →
  fields h (byte_of_Z tag :: benc x) m m'.
Proof.
  intros Ht H2 Hh <-. apply fields_one. split; [done|]. rewrite H2. split; [done|].
  exists (λ d, get_bytes_field d field 2 f). split; [done|].
  apply (reads_map read_bytes f). apply reads_bytes.
Qed.

Lemma fields_bytes tag field x (f : bytes → A) m m' :
  8 ≤ tag < 128 → Z.land tag 7 = 2 →
  (∀ d, h d (Z.shiftr tag 3) 2 m = Some (get_bytes_field d field 2 f)) →
  f x = m' → (x = [] → m' = m) →
  fields h (benc_field tag x) m m'.
Proof.
  intros Ht H2 Hh Hf Hz. unfold benc_field. case_decide as Hl.
  - apply nil_length_inv in Hl. rewrite Hz by done. constructor.
  - by eapply fields_bytes1.
Qed.

Lemma fields_msg {B} tag field x y (un : bytes → res B) (f : B → A) m m' :
  8 ≤ tag < 128 → Z.land tag 7 = 2 →
  (∀ d, h d (Z.shiftr tag 3) 2 m = Some (get_msg_field d field 2 un f)) →
  un x = Ok y → f y = m' →
  fields h (byte_of_Z tag :: benc x) m m'.
Proof.
  intros Ht H2 Hh Hu <-. apply fields_one. split; [done|]. rewrite H2. split; [done|].
  exists (λ d, get_msg_field d field 2 un f). split; [done|].
  rewrite <-(app_nil_r (benc x)).
  apply (reads_bind read_bytes (λ d x, y ← lift (un x); mret (f y)) (benc x) [] x (f y)); [apply reads_bytes|].
  intros pre post _. unfold lift, mbind, M_bind. rewrite Hu. simpl. by rewrite Z.add_0_r.
Qed.

Lemma fields_bool tag field (b : bool) (f : Z → A) m m' :
  8 ≤ tag < 128 → Z.land tag 7 = 0 →
  (∀ d, h d (Z.shiftr tag 3) 0 m = Some (get_varint_field d 64 field 0 f)) →
  f (Z.b2z b) = m' → (b = false → m' = m) →
  fields h (boolenc_field tag b) m m'.
Proof.
  intros Ht H0 Hh <- Hz. destruct b; cbn [Z.b2z] in *; [|rewrite Hz by done; constructor].
  apply fields_one. split; [done|]. rewrite H0. split; [done|].
  exists (λ d, get_varint_field d 64 field 0 f). split; [done|].
  apply (reads_map (λ d, varint d 64) f). apply (reads_tag 1). lia.
Qed.

Lemma fields_entry tag field always k v (f : bytes → bytes → A) m m' :
  8 ≤ tag < 128 → Z.land tag 7 = 2 →
  (∀ d, h d (Z.shiftr tag 3) 2 m = Some (get_map_field d field 2 f)) →
  f k v = m' →
  fields h (byte_of_Z tag :: benc (entry always k v)) m m'.
Proof.
  intros Ht H2 Hh <-. apply fields_one. split; [done|]. rewrite H2. split; [done|].
  exists (λ d, get_map_field d field 2 f). split; [done|]. apply reads_entry.
Qed.

Lemma fields_packed tag field l0 l (f : list bool → A) m m' :
  8 ≤ tag < 128 → Z.land tag 7 = 2 →
  (∀ d, h d (Z.shiftr tag 3) 2 m = Some (get_packed_field d field 2 l0 f)) →
  f (l0 ++ l) = m' →
  fields h (byte_of_Z tag :: benc (pack l)) m m'.
Proof.
  intros Ht H2 Hh <-. apply fields_one. split; [done|]. rewrite H2. split; [done|].
  exists (λ d, get_packed_field d field 2 l0 f). split; [done|]. apply reads_packed.
Qed.

(** A repeated field appends its elements one by one. *)
Lemma fields_all {B} (e : B → bytes) (set : list B → A) l0 l :
  (∀ l1 x, x ∈ l → fields h (e x) (set l1) (set (l1 ++ [x]))) →
  fields h (concat (e <$> l)) (set l0) (set (l0 ++ l)).
Proof.
  revert l0. induction l as [|x l IH]; intros l0 Hx.
  { rewrite app_nil_r. constructor. }
  rewrite fmap_cons. cbn [concat]. eapply fields_app; [apply Hx; left|].
  replace (l0 ++ x :: l) with ((l0 ++ [x]) ++ l) by (by rewrite <-app_assoc).
  apply IH. intros l1 y Hy. apply Hx. by right.
Qed.

(** A map field inserts its entries one by one. *)
Lemma fields_map (e : bytes * bytes → bytes) (set : gmap bytes bytes → A) l g :
  (∀ g k v, (k, v) ∈ l → fields h (e (k, v)) (set g) (set (<[k := v]> g))) →
  fields h (concat (e <$> l)) (set g) (set (foldl (λ g p, <[p.1 := p.2]> g) g l)).
Proof.
  revert g. induction l as [|[k v] l IH]; intros g Hx; [constructor|].
  rewrite fmap_cons. cbn [concat foldl]. eapply fields_app; [apply Hx; left|].
  apply IH. intros g' k' v' Hk. apply Hx. by right.
Qed.
End field_forms.

(** ** Messages

    What the generator emits for every message, and the law that makes a
    message type usable: [msg_enc] is what [MarshalTo] writes and [Size]
    measures, and the fields [Unmarshal] rebuilds the message from. *)
Class Message (A : Type) := {
  msg_zero : A;
  msg_Size : A → Z;
  msg_MarshalTo : A → W unit;
  msg_switch : bytes → Z → Z → A → option (M Z A);
}.

Class MessageLaws (A : Type) `{Message A} := {
  msg_valid : A → Prop;
  msg_enc : A → bytes;
  msg_writes m : msg_valid m → writes (msg_MarshalTo m) (msg_enc m);
  msg_length m : msg_valid m → Z.of_nat (length (msg_enc m)) = msg_Size m;
  msg_bound m : msg_valid m → msg_Size m < 2 ^ 63;
  msg_fields m : msg_valid m → fields msg_switch (msg_enc m) msg_zero m;
}.

Definition Marshal `{Message A} (m : A) : res bytes := marshal (msg_Size m) (msg_MarshalTo m).
Definition Unmarshal `{Message A} (d : bytes) (m : A) : res A := unmarshal msg_switch d m.

Section messages.
Context `{MessageLaws A}.

Lemma Marshal_enc m : msg_valid m → Marshal m = Ok (msg_enc m).
Proof. intros Hm. apply marshal_writes; [by apply msg_writes|]. by rewrite msg_length. Qed.

Lemma Unmarshal_enc m : msg_valid m → Unmarshal (msg_enc m) msg_zero = Ok m.
Proof.
  intros Hm. apply unmarshal_fields; [by apply msg_fields|]. rewrite msg_length by done. by apply msg_bound.
Qed.

Lemma message_roundtrip m : msg_valid m →
  ∃ d, Marshal m = Ok d ∧ Z.of_nat (length d) = msg_Size m ∧ Unmarshal d msg_zero = Ok m.
Proof.
  intros Hm. exists (msg_enc m). split_and!; [by apply Marshal_enc|by apply msg_length|by apply Unmarshal_enc].
Qed.

(** A message as a field of another one. *)
Lemma writes_message tag m : msg_valid m →
  writes (put_msg_field tag (msg_Size m) (msg_MarshalTo m)) (byte_of_Z tag :: benc (msg_enc m)).
Proof.
  intros Hm. pose proof (msg_length m Hm). pose proof (msg_bound m Hm).
  apply writes_msg_field; [by apply msg_writes|done|unfold in_width; lia].
Qed.

Lemma length_message tag m : msg_valid m →
  Z.of_nat (length (byte_of_Z tag :: benc (msg_enc m))) = size_msg_field (msg_Size m).
Proof.
  intros Hm. pose proof (msg_length m Hm) as Hl. pose proof (msg_bound m Hm). cbn [length].
  rewrite Nat2Z.inj_succ, length_benc, Hl; [unfold size_msg_field; lia|unfold in_width; lia].
Qed.
End messages.

(** ** Automation for the messages *)

Lemma u32_u64 v : u32 v → u64 v.
Proof. unfold in_width. lia. Qed.

Create HintDb wire discriminated.
#[export] Hint Resolve u32_u64 : wire.
#[export] Hint Resolve writes_ret writes_varint_field writes_bytes_field writes_bool_field
  writes_message : wire.
Create Rewrite HintDb wire.
#[export] Hint Rewrite length_app Nat2Z.inj_add length_boolenc_field : wire.

(** A marshaller field by field. *)
Ltac writes := repeat first [solve [eauto with wire] | apply writes_bind].

(** The size of a message field by field. *)
Ltac sizes :=
  rewrite ?length_app, ?Nat2Z.inj_add, ?length_boolenc_field;
  repeat first
    [ rewrite length_venc_field by eauto with wire
    | rewrite length_benc_field by eauto with wire ].

(** The fields of a message: [fields_at m'] reads the first and leaves [m'],
    [fields_last] the last one. *)
Ltac fields_zero := let E := fresh in intros E; rewrite ?E; first [reflexivity | congruence].
Ltac fields_value := cbv beta; rewrite ?wrap_id by eauto with wire; reflexivity.
Ltac fields_form :=
  first
    [ eapply fields_varint; [lia|reflexivity|intros ?; reflexivity|lia|eauto with wire|fields_value|fields_zero]
    | eapply fields_bytes; [lia|reflexivity|intros ?; reflexivity|reflexivity|fields_zero]
    | eapply fields_bool; [lia|reflexivity|intros ?; reflexivity|fields_value|fields_zero] ].
Ltac fields_at m' := eapply (fields_app _ _ _ _ m'); [try solve [fields_form]|].
Ltac fields_last := try solve [fields_form].
