(* ===== verification/Models.v ===== *)
(** * The messages of package models

    Models [src/models/torus.pb.go] and [src/models/rpc.pb.go]: the messages,
    their [Size], [MarshalTo] and [Unmarshal] methods, as instances of the
    interface [Message], and the laws that make every message come back from
    the wire as it was sent.  A Go string is the list of its bytes.  A pointer
    to a message is the message itself where the code never leaves it nil (the
    elements of repeated fields) and an option elsewhere.  [MarshalTo] ranges
    over a Go map in any order: the order is the argument [range] below. *)
From S2P Require Import Prelude GoSem Refs Blockset Proto.

Abbreviation gostring := bytes (only parsing).

(** The order in which a [range] loop visits a map. *)
Class Range := {
  range : gmap bytes bytes → list (bytes * bytes);
  range_perm m : range m ≡ₚ map_to_list m;
}.

(** One such order. *)
Definition map_range : Range := Build_Range map_to_list (λ m, reflexivity (map_to_list m)).

(** A length that fits Go's [int]. *)
Definition short (x : bytes) : Prop := Z.of_nat (length x) < 2 ^ 63.

Lemma short_u64 x : short x → u64 (Z.of_nat (length x)).
Proof. unfold short, in_width. lia. Qed.

#[export] Hint Resolve short_u64 : wire.

(** The values of an [int64] and of an [int32]. *)
Definition int_range (w z : Z) : Prop := - 2 ^ (w - 1) ≤ z < 2 ^ (w - 1).

Lemma to_signed_wrap w z : 0 < w → int_range w z → to_signed w (wrap w z) = z.
Proof.
  intros Hw Hz. unfold int_range in Hz. unfold to_signed.
  rewrite (wrap_id w (wrap w z)) by (apply wrap_range; lia).
  assert (2 ^ w = 2 * 2 ^ (w - 1)) as Hp by (rewrite <-Z.pow_succ_r by lia; f_equal; lia).
  destruct (decide (0 ≤ z)) as [H0|H0].
  - rewrite wrap_id by (unfold in_width; lia). rewrite decide_True by lia. done.
  - assert (wrap w z = z + 2 ^ w) as ->.
    { unfold wrap. rewrite <-(Z.mod_small (z + 2 ^ w) (2 ^ w)) by lia.
      rewrite <-(Z.mod_add z 1 (2 ^ w)) by lia. f_equal. lia. }
    rewrite decide_False by lia. lia.
Qed.

Lemma wrap_wrap w w' z : 0 ≤ w ≤ w' → wrap w (wrap w' z) = wrap w z.
Proof.
  intros Hw. unfold wrap. replace w' with (w + (w' - w)) by lia. rewrite Z.pow_add_r by lia.
  apply Z.bits_inj'. intros n Hn. destruct (decide (n < w)).
  - rewrite !Z.mod_pow2_bits_low by lia. rewrite <-Z.pow_add_r by lia. by rewrite Z.mod_pow2_bits_low by lia.
  - by rewrite !Z.mod_pow2_bits_high by lia.
Qed.

(** ** BlockLayer, BlockRef, INodeRef *)

Definition BlockLayer_zero : PBlockLayer := mkPBlockLayer 0 [].
Definition BlockLayer_Size (m : PBlockLayer) : Z :=
  size_varint_field (PType m) + size_bytes_field (PContent m).
Definition BlockLayer_MarshalTo (m : PBlockLayer) : W unit :=
  _ ← put_varint_field 0x8 (PType m);
  put_bytes_field 0x12 (PContent m).
Definition BlockLayer_switch (d : bytes) (fieldNum wireType : Z) (m : PBlockLayer) : option (M Z PBlockLayer) :=
  match fieldNum with
  | 1 => Some (get_varint_field d 32 "Type" wireType (λ v, mkPBlockLayer v (PContent m)))
  | 2 => Some (get_bytes_field d "Content" wireType (λ x, mkPBlockLayer (PType m) x))
  | _ => None
  end.
#[global] Instance BlockLayer_Message : Message PBlockLayer :=
  Build_Message _ BlockLayer_zero BlockLayer_Size BlockLayer_MarshalTo BlockLayer_switch.

Definition BlockLayer_enc (m : PBlockLayer) : bytes :=
  venc_field 0x8 (PType m) ++ benc_field 0x12 (PContent m).
Definition BlockLayer_valid (m : PBlockLayer) : Prop :=
  u32 (PType m) ∧ short (PContent m) ∧ BlockLayer_Size m < 2 ^ 63.

#[global] Program Instance BlockLayer_Laws : MessageLaws PBlockLayer :=
  { msg_valid := BlockLayer_valid; msg_enc := BlockLayer_enc }.
Next Obligation. intros [t c] (Ht & Hc & Hs). simpl in *. writes. Qed.
Next Obligation. intros [t c] (Ht & Hc & Hs). unfold BlockLayer_enc. simpl in *. by sizes. Qed.
Next Obligation. intros m (_ & _ & Hs). exact Hs. Qed.
Next Obligation.
  intros [t c] (Ht & Hc & Hs). unfold BlockLayer_enc. simpl in *.
  fields_at (mkPBlockLayer t []). fields_last.
Qed.

Definition BlockRef_zero : pbBlockRef := Build_pbBlockRef 0 0 0.
Definition BlockRef_Size (m : pbBlockRef) : Z :=
  size_varint_field (pb_Volume m) + size_varint_field (pb_INode m) + size_varint_field (pb_Block m).
Definition BlockRef_MarshalTo (m : pbBlockRef) : W unit :=
  _ ← put_varint_field 0x8 (pb_Volume m);
  _ ← put_varint_field 0x10 (pb_INode m);
  put_varint_field 0x18 (pb_Block m).
Definition BlockRef_switch (d : bytes) (fieldNum wireType : Z) (m : pbBlockRef) : option (M Z pbBlockRef) :=
  match fieldNum with
  | 1 => Some (get_varint_field d 64 "Volume" wireType (λ v, Build_pbBlockRef v (pb_INode m) (pb_Block m)))
  | 2 => Some (get_varint_field d 64 "INode" wireType (λ v, Build_pbBlockRef (pb_Volume m) v (pb_Block m)))
  | 3 => Some (get_varint_field d 64 "Block" wireType (λ v, Build_pbBlockRef (pb_Volume m) (pb_INode m) v))
  | _ => None
  end.
#[global] Instance BlockRef_Message : Message pbBlockRef :=
  Build_Message _ BlockRef_zero BlockRef_Size BlockRef_MarshalTo BlockRef_switch.

Definition BlockRef_enc (m : pbBlockRef) : bytes :=
  venc_field 0x8 (pb_Volume m) ++ venc_field 0x10 (pb_INode m) ++ venc_field 0x18 (pb_Block m).
Definition BlockRef_valid (m : pbBlockRef) : Prop :=
  u64 (pb_Volume m) ∧ u64 (pb_INode m) ∧ u64 (pb_Block m).

(** A message made of numbers is short. *)
Lemma sov_loop_bound n v : 0 ≤ sov_loop n v ≤ Z.of_nat n.
Proof.
  revert v. induction n as [|n IH]; intros v; [simpl; lia|]. cbn [sov_loop].
  specialize (IH (Z.shiftr v 7)). case_decide; lia.
Qed.

Lemma size_varint_field_bound v : 0 ≤ size_varint_field v ≤ 11.
Proof. unfold size_varint_field, sov. pose proof (sov_loop_bound 10 v). case_decide; lia. Qed.

#[global] Program Instance BlockRef_Laws : MessageLaws pbBlockRef :=
  { msg_valid := BlockRef_valid; msg_enc := BlockRef_enc }.
Next Obligation. intros [v i b] (Hv & Hi & Hb). simpl in *. writes. Qed.
Next Obligation.
  intros [v i b] (Hv & Hi & Hb). unfold BlockRef_enc, msg_Size, BlockRef_Message, BlockRef_Size. simpl in *.
  sizes. lia.
Qed.
Next Obligation.
  intros m _. unfold msg_Size, BlockRef_Message, BlockRef_Size.
  pose proof (size_varint_field_bound (pb_Volume m)). pose proof (size_varint_field_bound (pb_INode m)).
  pose proof (size_varint_field_bound (pb_Block m)). lia.
Qed.
Next Obligation.
  intros [v i b] (Hv & Hi & Hb). unfold BlockRef_enc. simpl in *.
  fields_at (Build_pbBlockRef v 0 0). fields_at (Build_pbBlockRef v i 0). fields_last.
Qed.

Definition INodeRef_zero : pbINodeRef := Build_pbINodeRef 0 0.
Definition INodeRef_Size (m : pbINodeRef) : Z :=
  size_varint_field (pbi_Volume m) + size_varint_field (pbi_INode m).
Definition INodeRef_MarshalTo (m : pbINodeRef) : W unit :=
  _ ← put_varint_field 0x8 (pbi_Volume m);
  put_varint_field 0x10 (pbi_INode m).
Definition INodeRef_switch (d : bytes) (fieldNum wireType : Z) (m : pbINodeRef) : option (M Z pbINodeRef) :=
  match fieldNum with
  | 1 => Some (get_varint_field d 64 "Volume" wireType (λ v, Build_pbINodeRef v (pbi_INode m)))
  | 2 => Some (get_varint_field d 64 "INode" wireType (λ v, Build_pbINodeRef (pbi_Volume m) v))
  | _ => None
  end.
#[global] Instance INodeRef_Message : Message pbINodeRef :=
  Build_Message _ INodeRef_zero INodeRef_Size INodeRef_MarshalTo INodeRef_switch.

Definition INodeRef_enc (m : pbINodeRef) : bytes :=
  venc_field 0x8 (pbi_Volume m) ++ venc_field 0x10 (pbi_INode m).
Definition INodeRef_valid (m : pbINodeRef) : Prop := u64 (pbi_Volume m) ∧ u64 (pbi_INode m).

#[global] Program Instance INodeRef_Laws : MessageLaws pbINodeRef :=
  { msg_valid := INodeRef_valid; msg_enc := INodeRef_enc }.
Next Obligation. intros [v i] (Hv & Hi). simpl in *. writes. Qed.
Next Obligation. intros [v i] (Hv & Hi). unfold INodeRef_enc. simpl in *. by sizes. Qed.
Next Obligation.
  intros m _. unfold msg_Size, INodeRef_Message, INodeRef_Size.
  pose proof (size_varint_field_bound (pbi_Volume m)). pose proof (size_varint_field_bound (pbi_INode m)). lia.
Qed.
Next Obligation.
  intros [v i] (Hv & Hi). unfold INodeRef_enc. simpl in *. fields_at (Build_pbINodeRef v 0). fields_last.
Qed.

(** ** Volume *)

Record Volume := mkVolume { VName : gostring; VId : Z; VType : gostring; VMaxBytes : Z }.

Definition Volume_zero : Volume := mkVolume [] 0 [] 0.
Definition Volume_Size (m : Volume) : Z :=
  size_bytes_field (VName m) + size_varint_field (VId m) + size_bytes_field (VType m) + size_varint_field (VMaxBytes m).
Definition Volume_MarshalTo (m : Volume) : W unit :=
  _ ← put_bytes_field 0xa (VName m);
  _ ← put_varint_field 0x10 (VId m);
  _ ← put_bytes_field 0x1a (VType m);
  put_varint_field 0x20 (VMaxBytes m).
Definition Volume_switch (d : bytes) (fieldNum wireType : Z) (m : Volume) : option (M Z Volume) :=
  match fieldNum with
  | 1 => Some (get_bytes_field d "Name" wireType (λ x, mkVolume x (VId m) (VType m) (VMaxBytes m)))
  | 2 => Some (get_varint_field d 64 "Id" wireType (λ v, mkVolume (VName m) v (VType m) (VMaxBytes m)))
  | 3 => Some (get_bytes_field d "Type" wireType (λ x, mkVolume (VName m) (VId m) x (VMaxBytes m)))
  | 4 => Some (get_varint_field d 64 "MaxBytes" wireType (λ v, mkVolume (VName m) (VId m) (VType m) v))
  | _ => None
  end.
#[global] Instance Volume_Message : Message Volume :=
  Build_Message _ Volume_zero Volume_Size Volume_MarshalTo Volume_switch.

Definition Volume_enc (m : Volume) : bytes :=
  benc_field 0xa (VName m) ++ venc_field 0x10 (VId m) ++ benc_field 0x1a (VType m) ++ venc_field 0x20 (VMaxBytes m).
Definition Volume_valid (m : Volume) : Prop :=
  short (VName m) ∧ u64 (VId m) ∧ short (VType m) ∧ u64 (VMaxBytes m) ∧ Volume_Size m < 2 ^ 63.

#[global] Program Instance Volume_Laws : MessageLaws Volume :=
  { msg_valid := Volume_valid; msg_enc := Volume_enc }.
Next Obligation. intros [n i t b] (? & ? & ? & ? & _). simpl in *. writes. Qed.
Next Obligation.
  intros [n i t b] (? & ? & ? & ? & _). unfold Volume_enc, msg_Size, Volume_Message, Volume_Size. simpl in *.
  sizes. lia.
Qed.
Next Obligation. intros m Hm. apply Hm. Qed.
Next Obligation.
  intros [n i t b] (? & ? & ? & ? & _). unfold Volume_enc. simpl in *.
  fields_at (mkVolume n 0 [] 0). fields_at (mkVolume n i [] 0). fields_at (mkVolume n i t 0). fields_last.
Qed.

(** ** RebalanceInfo and PeerInfo *)

Record RebalanceInfo := mkRebalanceInfo {
  LastRebalanceFinish : Z;
  LastRebalanceBlocks : Z;
  Rebalancing : bool;
}.

Definition RebalanceInfo_zero : RebalanceInfo := mkRebalanceInfo 0 0 false.
Definition RebalanceInfo_Size (m : RebalanceInfo) : Z :=
  size_varint_field (wrap64 (LastRebalanceFinish m)) + size_varint_field (LastRebalanceBlocks m)
  + size_bool_field (Rebalancing m).
Definition RebalanceInfo_MarshalTo (m : RebalanceInfo) : W unit :=
  _ ← put_varint_field 0x8 (wrap64 (LastRebalanceFinish m));
  _ ← put_varint_field 0x10 (LastRebalanceBlocks m);
  put_bool_field 0x18 (Rebalancing m).
Definition RebalanceInfo_switch (d : bytes) (fieldNum wireType : Z) (m : RebalanceInfo)
    : option (M Z RebalanceInfo) :=
  match fieldNum with
  | 1 => Some (get_varint_field d 64 "LastRebalanceFinish" wireType
           (λ v, mkRebalanceInfo (to_signed 64 v) (LastRebalanceBlocks m) (Rebalancing m)))
  | 2 => Some (get_varint_field d 64 "LastRebalanceBlocks" wireType
           (λ v, mkRebalanceInfo (LastRebalanceFinish m) v (Rebalancing m)))
  | 3 => Some (get_varint_field d 64 "Rebalancing" wireType
           (λ v, mkRebalanceInfo (LastRebalanceFinish m) (LastRebalanceBlocks m) (bool_decide (v ≠ 0))))
  | _ => None
  end.
#[global] Instance RebalanceInfo_Message : Message RebalanceInfo :=
  Build_Message _ RebalanceInfo_zero RebalanceInfo_Size RebalanceInfo_MarshalTo RebalanceInfo_switch.

Definition RebalanceInfo_enc (m : RebalanceInfo) : bytes :=
  venc_field 0x8 (wrap64 (LastRebalanceFinish m)) ++ venc_field 0x10 (LastRebalanceBlocks m)
  ++ boolenc_field 0x18 (Rebalancing m).
Definition RebalanceInfo_valid (m : RebalanceInfo) : Prop :=
  int_range 64 (LastRebalanceFinish m) ∧ u64 (LastRebalanceBlocks m).

Lemma wrap64_u64 z : u64 (wrap64 z).
Proof. apply wrap_range. lia. Qed.
#[export] Hint Resolve wrap64_u64 : wire.

(** The signed form of a varint field. *)
Lemma fields_int {A} (h : bytes → Z → Z → A → option (M Z A)) tag field z (f : Z → A) m m' :
  8 ≤ tag < 128 → Z.land tag 7 = 0 →
  (∀ d, h d (Z.shiftr tag 3) 0 m = Some (get_varint_field d 64 field 0 (λ v, f (to_signed 64 v)))) →
  int_range 64 z → f z = m' → (z = 0 → m' = m) →
  fields h (venc_field tag (wrap64 z)) m m'.
Proof.
  intros Ht H0 Hh Hz Hf Hzero. apply (fields_varint h tag 64 field _ (λ v, f (to_signed 64 v)));
    [done|done|done|lia|apply wrap64_u64| |].
  - by rewrite wrap_wrap, to_signed_wrap by (done || lia).
  - intros H. apply Hzero. rewrite <-(to_signed_wrap 64 z), H by (done || lia). done.
Qed.

Lemma size_bool_field_bound b : 0 ≤ size_bool_field b ≤ 2.
Proof. destruct b; simpl; lia. Qed.

#[global] Program Instance RebalanceInfo_Laws : MessageLaws RebalanceInfo :=
  { msg_valid := RebalanceInfo_valid; msg_enc := RebalanceInfo_enc }.
Next Obligation. intros [f b r] (? & ?). simpl in *. writes. Qed.
Next Obligation.
  intros [f b r] (? & ?). unfold RebalanceInfo_enc, msg_Size, RebalanceInfo_Message, RebalanceInfo_Size.
  simpl in *. sizes. lia.
Qed.
Next Obligation.
  intros m _. unfold msg_Size, RebalanceInfo_Message, RebalanceInfo_Size.
  pose proof (size_varint_field_bound (wrap64 (LastRebalanceFinish m))).
  pose proof (size_varint_field_bound (LastRebalanceBlocks m)).
  pose proof (size_bool_field_bound (Rebalancing m)). lia.
Qed.
Next Obligation.
  intros [f b r] (? & ?). unfold RebalanceInfo_enc. cbn [LastRebalanceFinish LastRebalanceBlocks Rebalancing] in *.
  fields_at (mkRebalanceInfo f 0 false).
  { apply (fields_int _ _ "LastRebalanceFinish" f (λ v, mkRebalanceInfo v 0 false));
      [lia|reflexivity|intros ?; reflexivity|done|reflexivity|fields_zero]. }
  fields_at (mkRebalanceInfo f b false). eapply fields_bool; [lia|reflexivity|intros ?; reflexivity| |fields_zero].
  by destruct r.
Qed.

Record PeerInfo := mkPeerInfo {
  UUID : gostring;
  Address : gostring;
  LastSeen : Z;
  TotalBlocks : Z;
  UsedBlocks : Z;
  TimedOut : bool;
  PRebalanceInfo : option RebalanceInfo;
  ProtocolVersion : Z;
}.

Definition size_opt_field {A} `{Message A} (o : option A) : Z :=
  match o with Some r => size_msg_field (msg_Size r) | None => 0 end.
Definition put_opt_field {A} `{Message A} (tag : Z) (o : option A) : W unit :=
  match o with Some r => put_msg_field tag (msg_Size r) (msg_MarshalTo r) | None => mret tt end.

Definition PeerInfo_zero : PeerInfo := mkPeerInfo [] [] 0 0 0 false None 0.
Definition PeerInfo_Size (m : PeerInfo) : Z :=
  size_bytes_field (UUID m) + size_bytes_field (Address m) + size_varint_field (wrap64 (LastSeen m))
  + size_varint_field (TotalBlocks m) + size_varint_field (UsedBlocks m) + size_bool_field (TimedOut m)
  + size_opt_field (PRebalanceInfo m) + size_varint_field (ProtocolVersion m).
Definition PeerInfo_MarshalTo (m : PeerInfo) : W unit :=
  _ ← put_bytes_field 0xa (UUID m);
  _ ← put_bytes_field 0x12 (Address m);
  _ ← put_varint_field 0x18 (wrap64 (LastSeen m));
  _ ← put_varint_field 0x20 (TotalBlocks m);
  _ ← put_varint_field 0x28 (UsedBlocks m);
  _ ← put_bool_field 0x30 (TimedOut m);
  _ ← put_opt_field 0x3a (PRebalanceInfo m);
  put_varint_field 0x40 (ProtocolVersion m).

(** The cases 1 to 5 of the switch, and 6 to 8. *)
Definition PeerInfo_switch_low (d : bytes) (fieldNum wireType : Z) (m : PeerInfo) : option (M Z PeerInfo) :=
  let '(mkPeerInfo u a s t b o r p) := m in
  match fieldNum with
  | 1 => Some (get_bytes_field d "UUID" wireType (λ x, mkPeerInfo x a s t b o r p))
  | 2 => Some (get_bytes_field d "Address" wireType (λ x, mkPeerInfo u x s t b o r p))
  | 3 => Some (get_varint_field d 64 "LastSeen" wireType (λ v, mkPeerInfo u a (to_signed 64 v) t b o r p))
  | 4 => Some (get_varint_field d 64 "TotalBlocks" wireType (λ v, mkPeerInfo u a s v b o r p))
  | 5 => Some (get_varint_field d 64 "UsedBlocks" wireType (λ v, mkPeerInfo u a s t v o r p))
  | _ => None
  end.
Definition PeerInfo_switch_high (d : bytes) (fieldNum wireType : Z) (m : PeerInfo) : option (M Z PeerInfo) :=
  let '(mkPeerInfo u a s t b o r p) := m in
  match fieldNum with
  | 6 => Some (get_varint_field d 64 "TimedOut" wireType (λ v, mkPeerInfo u a s t b (bool_decide (v ≠ 0)) r p))
  | 7 => Some (get_msg_field d "RebalanceInfo" wireType
           (λ x, Unmarshal x (default RebalanceInfo_zero r)) (λ y, mkPeerInfo u a s t b o (Some y) p))
  | 8 => Some (get_varint_field d 64 "ProtocolVersion" wireType (λ v, mkPeerInfo u a s t b o r v))
  | _ => None
  end.
Definition PeerInfo_switch (d : bytes) (fieldNum wireType : Z) (m : PeerInfo) : option (M Z PeerInfo) :=
  if decide (fieldNum ≤ 5) then PeerInfo_switch_low d fieldNum wireType m
  else PeerInfo_switch_high d fieldNum wireType m.
#[global] Instance PeerInfo_Message : Message PeerInfo :=
  Build_Message _ PeerInfo_zero PeerInfo_Size PeerInfo_MarshalTo PeerInfo_switch.

Definition opt_enc {A} `{MessageLaws A} (tag : Z) (o : option A) : bytes :=
  match o with Some r => byte_of_Z tag :: benc (msg_enc r) | None => [] end.
Definition opt_valid {A} `{MessageLaws A} (o : option A) : Prop :=
  match o with Some r => msg_valid r | None => True end.

Lemma writes_opt {A} `{MessageLaws A} tag (o : option A) :
  opt_valid o → writes (put_opt_field tag o) (opt_enc tag o).
Proof. destruct o; simpl; eauto with wire. Qed.
Lemma length_opt {A} `{MessageLaws A} tag (o : option A) :
  opt_valid o → Z.of_nat (length (opt_enc tag o)) = size_opt_field o.
Proof. destruct o; [|done]. apply length_message. Qed.
#[export] Hint Resolve writes_opt : wire.

Definition PeerInfo_enc (m : PeerInfo) : bytes :=
  benc_field 0xa (UUID m) ++ benc_field 0x12 (Address m) ++ venc_field 0x18 (wrap64 (LastSeen m))
  ++ venc_field 0x20 (TotalBlocks m) ++ venc_field 0x28 (UsedBlocks m) ++ boolenc_field 0x30 (TimedOut m)
  ++ opt_enc 0x3a (PRebalanceInfo m) ++ venc_field 0x40 (ProtocolVersion m).
Definition PeerInfo_valid (m : PeerInfo) : Prop :=
  short (UUID m) ∧ short (Address m) ∧ int_range 64 (LastSeen m) ∧ u64 (TotalBlocks m) ∧ u64 (UsedBlocks m)
  ∧ opt_valid (PRebalanceInfo m) ∧ u64 (ProtocolVersion m) ∧ PeerInfo_Size m < 2 ^ 63.

Ltac peer_cbn := cbn [UUID Address LastSeen TotalBlocks UsedBlocks TimedOut PRebalanceInfo ProtocolVersion] in *.

#[global] Program Instance PeerInfo_Laws : MessageLaws PeerInfo :=
  { msg_valid := PeerInfo_valid; msg_enc := PeerInfo_enc }.
Next Obligation.
  intros [u a s t b o r p] (? & ? & ? & ? & ? & ? & ? & _). unfold PeerInfo_enc, msg_MarshalTo, PeerInfo_Message, PeerInfo_MarshalTo.
  peer_cbn. writes.
Qed.
Next Obligation.
  intros [u a s t b o r p] (? & ? & ? & ? & ? & ? & ? & _). unfold PeerInfo_enc, msg_Size, PeerInfo_Message, PeerInfo_Size.
  peer_cbn. sizes. rewrite length_opt by done. lia.
Qed.
Next Obligation. intros m Hm. apply Hm. Qed.
Next Obligation.
  intros [u a s t b o r p] (? & ? & ? & ? & ? & Hr & ? & _). unfold PeerInfo_enc. peer_cbn.
  change msg_zero with PeerInfo_zero. unfold PeerInfo_zero.
  fields_at (mkPeerInfo u [] 0 0 0 false None 0). fields_at (mkPeerInfo u a 0 0 0 false None 0).
  fields_at (mkPeerInfo u a s 0 0 false None 0).
  { apply (fields_int _ _ "LastSeen" s (λ v, mkPeerInfo u a v 0 0 false None 0));
      [lia|reflexivity|intros ?; reflexivity|done|reflexivity|fields_zero]. }
  fields_at (mkPeerInfo u a s t 0 false None 0). fields_at (mkPeerInfo u a s t b false None 0).
  fields_at (mkPeerInfo u a s t b o None 0).
  { eapply fields_bool; [lia|reflexivity|intros ?; reflexivity| |fields_zero]. by destruct o. }
  fields_at (mkPeerInfo u a s t b o r 0).
  { destruct r as [r|]; [|constructor].
    eapply fields_msg; [lia|reflexivity|intros ?; reflexivity| |reflexivity].
    exact (Unmarshal_enc r Hr). }
  fields_last.
Qed.

(** ** Repeated and map fields *)

Definition size_rep_field {A} `{Message A} (l : list A) : Z := size_all (λ x, size_msg_field (msg_Size x)) l.
Definition put_rep_field {A} `{Message A} (tag : Z) (l : list A) : W unit :=
  put_all (λ x, put_msg_field tag (msg_Size x) (msg_MarshalTo x)) l.
Definition rep_enc {A} `{MessageLaws A} (tag : Z) (l : list A) : bytes :=
  concat ((λ x, byte_of_Z tag :: benc (msg_enc x)) <$> l).

Lemma writes_rep {A} `{MessageLaws A} tag (l : list A) :
  Forall msg_valid l → writes (put_rep_field tag l) (rep_enc tag l).
Proof. intros Hl. apply writes_all. eapply Forall_impl; [|exact Hl]. intros x. apply writes_message. Qed.

Lemma length_rep {A} `{MessageLaws A} tag (l : list A) :
  Forall msg_valid l → Z.of_nat (length (rep_enc tag l)) = size_rep_field l.
Proof.
  intros Hl. apply length_concat_size. eapply Forall_impl; [|exact Hl]. intros x. apply length_message.
Qed.

Lemma fields_rep {A B} `{MessageLaws B} (h : bytes → Z → Z → A → option (M Z A)) tag field (set : list B → A) l :
  8 ≤ tag < 128 → Z.land tag 7 = 2 → Forall msg_valid l →
  (∀ l0 d, h d (Z.shiftr tag 3) 2 (set l0)
    = Some (get_msg_field d field 2 (λ x, Unmarshal x msg_zero) (λ y, set (l0 ++ [y])))) →
  fields h (rep_enc tag l) (set []) (set l).
Proof.
  intros Ht H2 Hl Hh. apply (fields_all h _ set [] l). intros l1 x Hx.
  apply (fields_msg h tag field _ x (λ x, Unmarshal x msg_zero) (λ y, set (l1 ++ [y])));
    [done|done|apply Hh| |done].
  apply Unmarshal_enc. rewrite Forall_forall in Hl. by apply Hl, list_elem_of_In.
Qed.

Definition map_enc (tag : Z) (always : bool) (l : list (bytes * bytes)) : bytes :=
  concat ((λ p, byte_of_Z tag :: benc (entry always p.1 p.2)) <$> l).

(** A map whose entries have lengths that fit an [int]. *)
Definition short_entries (always : bool) (l : list (bytes * bytes)) : Prop :=
  Forall (λ p, short p.1 ∧ short p.2 ∧ entry_size always p.1 p.2 < 2 ^ 63) l.

#[global] Instance short_entries_perm always : Proper ((≡ₚ) ==> iff) (short_entries always).
Proof. intros l1 l2 Hl. unfold short_entries. by rewrite Hl. Qed.

#[global] Instance size_all_perm {A} (f : A → Z) : Proper ((≡ₚ) ==> (=)) (size_all f).
Proof. intros l1 l2. induction 1; simpl in *; lia. Qed.

Lemma entry_size_pos always k v : 0 ≤ entry_size always k v.
Proof.
  unfold entry_size, sov. pose proof (sov_loop_bound 10 (Z.of_nat (length k))).
  pose proof (sov_loop_bound 10 (Z.of_nat (length v))). case_decide; lia.
Qed.

Lemma writes_map tag always l :
  short_entries always l → writes (put_all (put_map_entry tag always) l) (map_enc tag always l).
Proof.
  intros Hl. apply (writes_all _ (λ p, byte_of_Z tag :: benc (entry always p.1 p.2))).
  eapply Forall_impl; [|exact Hl]. intros [k v] (Hk & Hv & He). cbn [fst snd] in *.
  apply writes_map_entry; [by apply short_u64..|]. pose proof (entry_size_pos always k v). unfold in_width. lia.
Qed.

Lemma length_map tag always l :
  short_entries always l → Z.of_nat (length (map_enc tag always l)) = size_all (size_map_entry always) l.
Proof.
  intros Hl. apply length_concat_size. eapply Forall_impl; [|exact Hl]. intros [k v] (Hk & Hv & He). cbn [fst snd] in *.
  pose proof (length_entry always k v ltac:(by apply short_u64) ltac:(by apply short_u64)) as Hlen.
  unfold size_map_entry. cbn [length fst snd]. rewrite Nat2Z.inj_succ, length_benc, Hlen; [lia|].
  pose proof (entry_size_pos always k v). unfold in_width. lia.
Qed.

(** Inserting the entries of a map in any order rebuilds it. *)
Lemma foldl_insert (l : list (bytes * bytes)) (g : gmap bytes bytes) :
  NoDup l.*1 → foldl (λ g p, <[p.1 := p.2]> g) g l = list_to_map l ∪ g.
Proof.
  revert g. induction l as [|[k v] l IH]; intros g Hl.
  { cbn. symmetry. apply map_empty_union. }
  rewrite fmap_cons in Hl. inversion_clear Hl as [|?? Hk Hl']. cbn [foldl fst snd]. rewrite IH by done.
  cbn [list_to_map foldr fst snd]. rewrite <-insert_union_l, insert_union_r; [done|].
  by apply not_elem_of_list_to_map_1.
Qed.

Lemma foldl_range (l : list (bytes * bytes)) (g : gmap bytes bytes) :
  l ≡ₚ map_to_list g → foldl (λ g p, <[p.1 := p.2]> g) ∅ l = g.
Proof.
  intros Hl. assert (NoDup l.*1) as Hn by (rewrite Hl; apply NoDup_fst_map_to_list).
  rewrite foldl_insert, map_union_empty by done. rewrite (list_to_map_proper _ _ Hn Hl). apply list_to_map_to_list.
Qed.

Lemma fields_range {A} (h : bytes → Z → Z → A → option (M Z A)) (tag : Z) (field : string) (always : bool)
    (set : gmap bytes bytes → A) (l : list (bytes * bytes)) (g : gmap bytes bytes) :
  8 ≤ tag < 128 → Z.land tag 7 = 2 → l ≡ₚ map_to_list g →
  (∀ g0 d, h d (Z.shiftr tag 3) 2 (set g0) = Some (get_map_field d field 2 (λ k v, set (<[k := v]> g0)))) →
  fields h (map_enc tag always l) (set ∅) (set g).
Proof.
  intros Ht H2 Hl Hh. rewrite <-(foldl_range l g Hl).
  apply (fields_map h (λ p, byte_of_Z tag :: benc (entry always p.1 p.2))). intros g0 k v _.
  apply (fields_entry h tag field always k v (λ k v, set (<[k := v]> g0))); [done|done|apply Hh|done].
Qed.

(** ** INode *)

Record MINode := mkMINode {
  IN_Volume : Z;
  IN_INode : Z;
  IN_Filesize : Z;
  IN_Attrs : gmap gostring gostring;
  IN_Blocks : list PBlockLayer;
}.

Section inode.
Context `{Range}.

Definition INode_zero : MINode := mkMINode 0 0 0 ∅ [].
Definition INode_Size (m : MINode) : Z :=
  size_varint_field (IN_Volume m) + size_varint_field (IN_INode m) + size_varint_field (IN_Filesize m)
  + size_all (size_map_entry true) (map_to_list (IN_Attrs m)) + size_rep_field (IN_Blocks m).
Definition INode_MarshalTo (m : MINode) : W unit :=
  _ ← put_varint_field 0x8 (IN_Volume m);
  _ ← put_varint_field 0x10 (IN_INode m);
  _ ← put_varint_field 0x20 (IN_Filesize m);
  _ ← put_all (put_map_entry 0x3a true) (range (IN_Attrs m));
  put_rep_field 0x42 (IN_Blocks m).
Definition INode_case_Attrs (d : bytes) (wireType : Z) (m : MINode) : M Z MINode :=
  get_map_field d "Attrs" wireType (λ k x,
    mkMINode (IN_Volume m) (IN_INode m) (IN_Filesize m) (<[k := x]> (IN_Attrs m)) (IN_Blocks m)).
Definition INode_case_Blocks (d : bytes) (wireType : Z) (m : MINode) : M Z MINode :=
  get_msg_field d "Blocks" wireType (λ x, Unmarshal x BlockLayer_zero) (λ y,
    mkMINode (IN_Volume m) (IN_INode m) (IN_Filesize m) (IN_Attrs m) (IN_Blocks m ++ [y])).
Definition INode_switch (d : bytes) (fieldNum wireType : Z) (m : MINode) : option (M Z MINode) :=
  let '(mkMINode v i f a b) := m in
  match fieldNum with
  | 1 => Some (get_varint_field d 64 "Volume" wireType (λ x, mkMINode x i f a b))
  | 2 => Some (get_varint_field d 64 "INode" wireType (λ x, mkMINode v x f a b))
  | 4 => Some (get_varint_field d 64 "Filesize" wireType (λ x, mkMINode v i x a b))
  | 7 => Some (INode_case_Attrs d wireType m)
  | 8 => Some (INode_case_Blocks d wireType m)
  | _ => None
  end.
#[global] Instance INode_Message : Message MINode :=
  Build_Message _ INode_zero INode_Size INode_MarshalTo INode_switch.

Definition INode_enc (m : MINode) : bytes :=
  venc_field 0x8 (IN_Volume m) ++ venc_field 0x10 (IN_INode m) ++ venc_field 0x20 (IN_Filesize m)
  ++ map_enc 0x3a true (range (IN_Attrs m)) ++ rep_enc 0x42 (IN_Blocks m).
Definition INode_valid (m : MINode) : Prop :=
  u64 (IN_Volume m) ∧ u64 (IN_INode m) ∧ u64 (IN_Filesize m)
  ∧ short_entries true (map_to_list (IN_Attrs m)) ∧ Forall BlockLayer_valid (IN_Blocks m)
  ∧ INode_Size m < 2 ^ 63.

Lemma short_entries_range always g : short_entries always (map_to_list g) → short_entries always (range g).
Proof. by rewrite (range_perm g). Qed.

Ltac inode_cbn := cbn [IN_Volume IN_INode IN_Filesize IN_Attrs IN_Blocks] in *.

#[global] Program Instance INode_Laws : MessageLaws MINode :=
  { msg_valid := INode_valid; msg_enc := INode_enc }.
Next Obligation.
  intros [v i f a b] (? & ? & ? & Ha & Hb & _). unfold INode_enc, msg_MarshalTo, INode_Message, INode_MarshalTo.
  inode_cbn. do 3 (apply writes_bind; [eauto with wire|]). apply writes_bind.
  - by apply writes_map, short_entries_range.
  - by apply writes_rep.
Qed.
Next Obligation.
  intros [v i f a b] (? & ? & ? & Ha & Hb & _). unfold INode_enc, msg_Size, INode_Message, INode_Size.
  inode_cbn. sizes. rewrite length_map by (by apply short_entries_range). rewrite length_rep by done.
  rewrite (range_perm a). lia.
Qed.
Next Obligation. intros m Hm. apply Hm. Qed.
Next Obligation.
  intros [v i f a b] (? & ? & ? & Ha & Hb & _). unfold INode_enc. inode_cbn.
  change msg_zero with INode_zero. unfold INode_zero.
  fields_at (mkMINode v 0 0 ∅ []). fields_at (mkMINode v i 0 ∅ []). fields_at (mkMINode v i f ∅ []).
  fields_at (mkMINode v i f a []).
  - apply (fields_range _ _ "Attrs" true (λ g, mkMINode v i f g [])); [lia|done|apply range_perm|done].
  - by apply (fields_rep _ _ "Blocks" (mkMINode v i f a)); [lia| | |].
Qed.
End inode.

(** ** Ring *)

Record MRing := mkMRing {
  RG_Type : Z;
  RG_Version : Z;
  RG_ReplicationFactor : Z;
  RG_Peers : list PeerInfo;
  RG_Attrs : gmap gostring bytes;
}.

Section ring.
Context `{Range}.

Definition Ring_zero : MRing := mkMRing 0 0 0 [] ∅.
Definition Ring_Size (m : MRing) : Z :=
  size_varint_field (RG_Type m) + size_varint_field (RG_Version m) + size_varint_field (RG_ReplicationFactor m)
  + size_rep_field (RG_Peers m) + size_all (size_map_entry false) (map_to_list (RG_Attrs m)).
Definition Ring_MarshalTo (m : MRing) : W unit :=
  _ ← put_varint_field 0x8 (RG_Type m);
  _ ← put_varint_field 0x10 (RG_Version m);
  _ ← put_varint_field 0x18 (RG_ReplicationFactor m);
  _ ← put_rep_field 0x22 (RG_Peers m);
  put_all (put_map_entry 0x2a false) (range (RG_Attrs m)).
Definition Ring_case_Peers (d : bytes) (wireType : Z) (m : MRing) : M Z MRing :=
  get_msg_field d "Peers" wireType (λ x, Unmarshal x PeerInfo_zero) (λ y,
    mkMRing (RG_Type m) (RG_Version m) (RG_ReplicationFactor m) (RG_Peers m ++ [y]) (RG_Attrs m)).
Definition Ring_case_Attrs (d : bytes) (wireType : Z) (m : MRing) : M Z MRing :=
  get_map_field d "Attrs" wireType (λ k x,
    mkMRing (RG_Type m) (RG_Version m) (RG_ReplicationFactor m) (RG_Peers m) (<[k := x]> (RG_Attrs m))).
Definition Ring_switch (d : bytes) (fieldNum wireType : Z) (m : MRing) : option (M Z MRing) :=
  let '(mkMRing t v r p a) := m in
  match fieldNum with
  | 1 => Some (get_varint_field d 32 "Type" wireType (λ x, mkMRing x v r p a))
  | 2 => Some (get_varint_field d 32 "Version" wireType (λ x, mkMRing t x r p a))
  | 3 => Some (get_varint_field d 32 "ReplicationFactor" wireType (λ x, mkMRing t v x p a))
  | 4 => Some (Ring_case_Peers d wireType m)
  | 5 => Some (Ring_case_Attrs d wireType m)
  | _ => None
  end.
#[global] Instance Ring_Message : Message MRing :=
  Build_Message _ Ring_zero Ring_Size Ring_MarshalTo Ring_switch.

Definition Ring_enc (m : MRing) : bytes :=
  venc_field 0x8 (RG_Type m) ++ venc_field 0x10 (RG_Version m) ++ venc_field 0x18 (RG_ReplicationFactor m)
  ++ rep_enc 0x22 (RG_Peers m) ++ map_enc 0x2a false (range (RG_Attrs m)).
Definition Ring_valid (m : MRing) : Prop :=
  u32 (RG_Type m) ∧ u32 (RG_Version m) ∧ u32 (RG_ReplicationFactor m) ∧ Forall PeerInfo_valid (RG_Peers m)
  ∧ short_entries false (map_to_list (RG_Attrs m)) ∧ Ring_Size m < 2 ^ 63.

Ltac ring_cbn := cbn [RG_Type RG_Version RG_ReplicationFactor RG_Peers RG_Attrs] in *.

#[global] Program Instance Ring_Laws : MessageLaws MRing :=
  { msg_valid := Ring_valid; msg_enc := Ring_enc }.
Next Obligation.
  intros [t v r p a] (? & ? & ? & Hp & Ha & _). unfold Ring_enc, msg_MarshalTo, Ring_Message, Ring_MarshalTo.
  ring_cbn. do 3 (apply writes_bind; [eauto with wire|]). apply writes_bind.
  - by apply writes_rep.
  - by apply writes_map, short_entries_range.
Qed.
Next Obligation.
  intros [t v r p a] (? & ? & ? & Hp & Ha & _). unfold Ring_enc, msg_Size, Ring_Message, Ring_Size.
  ring_cbn. sizes. rewrite length_map by (by apply short_entries_range). rewrite length_rep by done.
  rewrite (range_perm a). lia.
Qed.
Next Obligation. intros m Hm. apply Hm. Qed.
Next Obligation.
  intros [t v r p a] (? & ? & ? & Hp & Ha & _). unfold Ring_enc. ring_cbn.
  change msg_zero with Ring_zero. unfold Ring_zero.
  fields_at (mkMRing t 0 0 [] ∅). fields_at (mkMRing t v 0 [] ∅). fields_at (mkMRing t v r [] ∅).
  fields_at (mkMRing t v r p ∅).
  - by apply (fields_rep _ _ "Peers" (λ p, mkMRing t v r p ∅)); [lia| | |].
  - apply (fields_range _ _ "Attrs" false (mkMRing t v r p)); [lia|done|apply range_perm|done].
Qed.
End ring.

(** ** The messages of the storage service ([rpc.pb.go]) *)

Record BlockRequest := mkBlockRequest { BQ_BlockRef : option pbBlockRef }.

Definition BlockRequest_Size (m : BlockRequest) : Z := size_opt_field (BQ_BlockRef m).
Definition BlockRequest_MarshalTo (m : BlockRequest) : W unit := put_opt_field 0xa (BQ_BlockRef m).
Definition BlockRequest_switch (d : bytes) (fieldNum wireType : Z) (m : BlockRequest) : option (M Z BlockRequest) :=
  match fieldNum with
  | 1 => Some (get_msg_field d "BlockRef" wireType
           (λ x, Unmarshal x (default BlockRef_zero (BQ_BlockRef m))) (λ y, mkBlockRequest (Some y)))
  | _ => None
  end.
#[global] Instance BlockRequest_Message : Message BlockRequest :=
  Build_Message _ (mkBlockRequest None) BlockRequest_Size BlockRequest_MarshalTo BlockRequest_switch.

Lemma size_msg_field_bound n : 0 ≤ n → n ≤ size_msg_field n ≤ n + 11.
Proof. intros Hn. unfold size_msg_field, sov. pose proof (sov_loop_bound 10 n). lia. Qed.

#[global] Program Instance BlockRequest_Laws : MessageLaws BlockRequest :=
  { msg_valid m := opt_valid (BQ_BlockRef m); msg_enc m := opt_enc 0xa (BQ_BlockRef m) }.
Next Obligation. intros [o]. apply writes_opt. Qed.
Next Obligation. intros [o]. apply length_opt. Qed.
Next Obligation.
  intros [[r|]] Hr; [|done]. change (size_msg_field (msg_Size r) < 2 ^ 63).
  unfold msg_Size, BlockRef_Message, BlockRef_Size.
  pose proof (size_varint_field_bound (pb_Volume r)). pose proof (size_varint_field_bound (pb_INode r)).
  pose proof (size_varint_field_bound (pb_Block r)).
  match goal with |- size_msg_field ?n < _ => pose proof (size_msg_field_bound n ltac:(lia)) end. lia.
Qed.
Next Obligation.
  intros [[r|]] Hr; [|constructor]. eapply fields_msg; [lia|reflexivity|intros ?; reflexivity| |reflexivity].
  exact (Unmarshal_enc r Hr).
Qed.

(** [BlockResponse] and [PutResponse]: a flag and a string of bytes. *)
Record BlockResponse := mkBlockResponse { BS_Ok : bool; BS_Data : bytes }.

Definition BlockResponse_Size (m : BlockResponse) : Z := size_bool_field (BS_Ok m) + size_bytes_field (BS_Data m).
Definition BlockResponse_MarshalTo (m : BlockResponse) : W unit :=
  _ ← put_bool_field 0x8 (BS_Ok m);
  put_bytes_field 0x12 (BS_Data m).
Definition BlockResponse_switch (d : bytes) (fieldNum wireType : Z) (m : BlockResponse) : option (M Z BlockResponse) :=
  match fieldNum with
  | 1 => Some (get_varint_field d 64 "Ok" wireType (λ v, mkBlockResponse (bool_decide (v ≠ 0)) (BS_Data m)))
  | 2 => Some (get_bytes_field d "Data" wireType (λ x, mkBlockResponse (BS_Ok m) x))
  | _ => None
  end.
#[global] Instance BlockResponse_Message : Message BlockResponse :=
  Build_Message _ (mkBlockResponse false []) BlockResponse_Size BlockResponse_MarshalTo BlockResponse_switch.

#[global] Program Instance BlockResponse_Laws : MessageLaws BlockResponse :=
  { msg_valid m := short (BS_Data m) ∧ BlockResponse_Size m < 2 ^ 63;
    msg_enc m := boolenc_field 0x8 (BS_Ok m) ++ benc_field 0x12 (BS_Data m) }.
Next Obligation. intros [o x] [Hx _]. simpl in *. writes. Qed.
Next Obligation. intros [o x] [Hx _]. simpl in *. by sizes. Qed.
Next Obligation. intros m Hm. apply Hm. Qed.
Next Obligation.
  intros [o x] [Hx _]. simpl in *. fields_at (mkBlockResponse o []); [|fields_last].
  eapply fields_bool; [lia|reflexivity|intros ?; reflexivity| |fields_zero]. by destruct o.
Qed.

Record PutResponse := mkPutResponse { PS_Ok : bool; PS_Err : gostring }.

Definition PutResponse_Size (m : PutResponse) : Z := size_bool_field (PS_Ok m) + size_bytes_field (PS_Err m).
Definition PutResponse_MarshalTo (m : PutResponse) : W unit :=
  _ ← put_bool_field 0x8 (PS_Ok m);
  put_bytes_field 0x12 (PS_Err m).
Definition PutResponse_switch (d : bytes) (fieldNum wireType : Z) (m : PutResponse) : option (M Z PutResponse) :=
  match fieldNum with
  | 1 => Some (get_varint_field d 64 "Ok" wireType (λ v, mkPutResponse (bool_decide (v ≠ 0)) (PS_Err m)))
  | 2 => Some (get_bytes_field d "Err" wireType (λ x, mkPutResponse (PS_Ok m) x))
  | _ => None
  end.
#[global] Instance PutResponse_Message : Message PutResponse :=
  Build_Message _ (mkPutResponse false []) PutResponse_Size PutResponse_MarshalTo PutResponse_switch.

#[global] Program Instance PutResponse_Laws : MessageLaws PutResponse :=
  { msg_valid m := short (PS_Err m) ∧ PutResponse_Size m < 2 ^ 63;
    msg_enc m := boolenc_field 0x8 (PS_Ok m) ++ benc_field 0x12 (PS_Err m) }.
Next Obligation. intros [o x] [Hx _]. simpl in *. writes. Qed.
Next Obligation. intros [o x] [Hx _]. simpl in *. by sizes. Qed.
Next Obligation. intros m Hm. apply Hm. Qed.
Next Obligation.
  intros [o x] [Hx _]. simpl in *. fields_at (mkPutResponse o []); [|fields_last].
  eapply fields_bool; [lia|reflexivity|intros ?; reflexivity| |fields_zero]. by destruct o.
Qed.

Record PutBlockRequest := mkPutBlockRequest { PQ_Refs : list pbBlockRef; PQ_Blocks : list bytes }.

Definition PutBlockRequest_Size (m : PutBlockRequest) : Z :=
  size_rep_field (PQ_Refs m) + size_all (λ b, size_msg_field (Z.of_nat (length b))) (PQ_Blocks m).
Definition PutBlockRequest_MarshalTo (m : PutBlockRequest) : W unit :=
  _ ← put_rep_field 0xa (PQ_Refs m);
  put_all (λ b, _ ← put_byte 0x12; _ ← encodeVarint (Z.of_nat (length b)); put_bytes b) (PQ_Blocks m).
Definition PutBlockRequest_switch (d : bytes) (fieldNum wireType : Z) (m : PutBlockRequest)
    : option (M Z PutBlockRequest) :=
  match fieldNum with
  | 1 => Some (get_msg_field d "Refs" wireType (λ x, Unmarshal x BlockRef_zero)
           (λ y, mkPutBlockRequest (PQ_Refs m ++ [y]) (PQ_Blocks m)))
  | 2 => Some (get_bytes_field d "Blocks" wireType (λ x, mkPutBlockRequest (PQ_Refs m) (PQ_Blocks m ++ [x])))
  | _ => None
  end.
#[global] Instance PutBlockRequest_Message : Message PutBlockRequest :=
  Build_Message _ (mkPutBlockRequest [] []) PutBlockRequest_Size PutBlockRequest_MarshalTo PutBlockRequest_switch.

#[global] Program Instance PutBlockRequest_Laws : MessageLaws PutBlockRequest :=
  { msg_valid m := Forall BlockRef_valid (PQ_Refs m) ∧ Forall short (PQ_Blocks m) ∧ PutBlockRequest_Size m < 2 ^ 63;
    msg_enc m := rep_enc 0xa (PQ_Refs m) ++ concat ((λ b, byte_of_Z 0x12 :: benc b) <$> PQ_Blocks m) }.
Next Obligation.
  intros [r b] (Hr & Hb & _). cbn [PQ_Refs PQ_Blocks] in *. apply writes_bind; [by apply writes_rep|].
  apply writes_all. eapply Forall_impl; [|exact Hb]. intros x Hx.
  apply (writes_bind _ _ [_]); [apply writes_byte|]. by apply writes_benc, short_u64.
Qed.
Next Obligation.
  intros [r b] (Hr & Hb & _). cbn [PQ_Refs PQ_Blocks] in *. rewrite length_app, Nat2Z.inj_add, length_rep by done.
  unfold msg_Size, PutBlockRequest_Message, PutBlockRequest_Size. cbn [PQ_Refs PQ_Blocks]. f_equal.
  apply length_concat_size. eapply Forall_impl; [|exact Hb]. intros x Hx. cbn [length].
  rewrite Nat2Z.inj_succ, length_benc by (by apply short_u64). unfold size_msg_field. lia.
Qed.
Next Obligation. intros m Hm. apply Hm. Qed.
Next Obligation.
  intros [r b] (Hr & Hb & _). cbn [PQ_Refs PQ_Blocks] in *.
  apply (fields_app _ _ _ _ (mkPutBlockRequest r [])).
  - by apply (fields_rep _ _ "Refs" (λ r, mkPutBlockRequest r [])); [lia| | |].
  - apply (fields_all _ _ (mkPutBlockRequest r) []). intros l1 x _.
    eapply fields_bytes1; [lia|reflexivity|intros ?; reflexivity|reflexivity].
Qed.

Record RebalanceCheckRequest := mkRebalanceCheckRequest { RQ_BlockRefs : list pbBlockRef }.

Definition RebalanceCheckRequest_Size (m : RebalanceCheckRequest) : Z := size_rep_field (RQ_BlockRefs m).
Definition RebalanceCheckRequest_MarshalTo (m : RebalanceCheckRequest) : W unit := put_rep_field 0xa (RQ_BlockRefs m).
Definition RebalanceCheckRequest_switch (d : bytes) (fieldNum wireType : Z) (m : RebalanceCheckRequest)
    : option (M Z RebalanceCheckRequest) :=
  match fieldNum with
  | 1 => Some (get_msg_field d "BlockRefs" wireType (λ x, Unmarshal x BlockRef_zero)
           (λ y, mkRebalanceCheckRequest (RQ_BlockRefs m ++ [y])))
  | _ => None
  end.
#[global] Instance RebalanceCheckRequest_Message : Message RebalanceCheckRequest :=
  Build_Message _ (mkRebalanceCheckRequest []) RebalanceCheckRequest_Size RebalanceCheckRequest_MarshalTo
    RebalanceCheckRequest_switch.

#[global] Program Instance RebalanceCheckRequest_Laws : MessageLaws RebalanceCheckRequest :=
  { msg_valid m := Forall BlockRef_valid (RQ_BlockRefs m) ∧ RebalanceCheckRequest_Size m < 2 ^ 63;
    msg_enc m := rep_enc 0xa (RQ_BlockRefs m) }.
Next Obligation. intros [r] [Hr _]. by apply writes_rep. Qed.
Next Obligation. intros [r] [Hr _]. by apply length_rep. Qed.
Next Obligation. intros m Hm. apply Hm. Qed.
Next Obligation.
  intros [r] [Hr _]. by apply (fields_rep _ _ "BlockRefs" mkRebalanceCheckRequest); [lia| | |].
Qed.

Record RebalanceCheckResponse := mkRebalanceCheckResponse { RS_Valid : list bool; RS_Status : Z }.

(** A packed field of booleans: one byte each. *)
Definition put_packed_field (tag : Z) (l : list bool) : W unit :=
  if decide (length l = 0%nat) then mret tt
  else
    _ ← put_byte tag;
    _ ← encodeVarint (Z.of_nat (length l));
    put_all (λ b : bool, put_byte (if b then 1 else 0)) l.
Definition size_packed_field (l : list bool) : Z :=
  let n := Z.of_nat (length l) in if decide (0 < n) then 1 + sov n + n * 1 else 0.

Definition RebalanceCheckResponse_Size (m : RebalanceCheckResponse) : Z :=
  size_packed_field (RS_Valid m) + size_varint_field (wrap64 (RS_Status m)).
Definition RebalanceCheckResponse_MarshalTo (m : RebalanceCheckResponse) : W unit :=
  _ ← put_packed_field 0xa (RS_Valid m);
  put_varint_field 0x10 (wrap64 (RS_Status m)).
Definition RebalanceCheckResponse_switch (d : bytes) (fieldNum wireType : Z) (m : RebalanceCheckResponse)
    : option (M Z RebalanceCheckResponse) :=
  match fieldNum with
  | 1 => Some (get_packed_field d "Valid" wireType (RS_Valid m) (λ l, mkRebalanceCheckResponse l (RS_Status m)))
  | 2 => Some (get_varint_field d 32 "Status" wireType
           (λ v, mkRebalanceCheckResponse (RS_Valid m) (to_signed 32 v)))
  | _ => None
  end.
#[global] Instance RebalanceCheckResponse_Message : Message RebalanceCheckResponse :=
  Build_Message _ (mkRebalanceCheckResponse [] 0) RebalanceCheckResponse_Size RebalanceCheckResponse_MarshalTo
    RebalanceCheckResponse_switch.

Definition packed_enc (tag : Z) (l : list bool) : bytes :=
  if decide (length l = 0%nat) then [] else byte_of_Z tag :: benc (pack l).

Lemma length_pack l : length (pack l) = length l.
Proof. apply length_fmap. Qed.

Lemma writes_packed tag l : Z.of_nat (length l) < 2 ^ 63 → writes (put_packed_field tag l) (packed_enc tag l).
Proof.
  intros Hl. unfold put_packed_field, packed_enc. case_decide; [apply writes_ret|].
  apply (writes_bind _ _ [_]); [apply writes_byte|]. unfold benc. rewrite length_pack.
  apply writes_bind; [apply writes_varint; unfold in_width; lia|].
  replace (pack l) with (concat ((λ b : bool, [byte_of_Z (if b then 1 else 0)]) <$> l)).
  - apply writes_all, Forall_true. intros b. apply writes_byte.
  - clear. induction l as [|b l IH]; [done|]. rewrite fmap_cons. cbn [concat app]. rewrite IH. by destruct b.
Qed.

Lemma length_packed_enc tag l :
  Z.of_nat (length l) < 2 ^ 63 → Z.of_nat (length (packed_enc tag l)) = size_packed_field l.
Proof.
  intros Hl. unfold packed_enc, size_packed_field. case_decide as H0; [by rewrite H0|].
  rewrite decide_True by lia. cbn [length]. rewrite Nat2Z.inj_succ, length_benc, length_pack; [lia|].
  rewrite length_pack. unfold in_width. lia.
Qed.

#[global] Program Instance RebalanceCheckResponse_Laws : MessageLaws RebalanceCheckResponse :=
  { msg_valid m := Z.of_nat (length (RS_Valid m)) < 2 ^ 63 ∧ int_range 32 (RS_Status m)
      ∧ RebalanceCheckResponse_Size m < 2 ^ 63;
    msg_enc m := packed_enc 0xa (RS_Valid m) ++ venc_field 0x10 (wrap64 (RS_Status m)) }.
Next Obligation.
  intros [l s] (Hl & Hs & _). cbn [RS_Valid RS_Status] in *. apply writes_bind; [by apply writes_packed|eauto with wire].
Qed.
Next Obligation.
  intros [l s] (Hl & Hs & _). cbn [RS_Valid RS_Status] in *.
  rewrite length_app, Nat2Z.inj_add, length_packed_enc, length_venc_field by eauto with wire. done.
Qed.
Next Obligation. intros m Hm. apply Hm. Qed.
Next Obligation.
  intros [l s] (Hl & Hs & _). cbn [RS_Valid RS_Status] in *. apply (fields_app _ _ _ _ (mkRebalanceCheckResponse l 0)).
  - unfold packed_enc. case_decide as H0; [apply nil_length_inv in H0 as ->; constructor|].
    by apply (fields_packed _ _ "Valid" [] l (λ l, mkRebalanceCheckResponse l 0)).
  - apply (fields_varint _ _ 32 "Status" _ (λ v, mkRebalanceCheckResponse l (to_signed 32 v)));
      [lia|done|done|lia|apply wrap64_u64| |].
    + by rewrite wrap_wrap, to_signed_wrap by (done || lia).
    + intros H0. f_equal. rewrite <-(to_signed_wrap 32 s), <-(wrap_wrap 32 64 s), H0 by (done || lia). done.
Qed.
