(* ===== verification/ModelsSpec.v ===== *)
(** * What the messages of package models guarantee

    The [Equal] methods of the messages, and the theorems about the wire: every
    message comes back as it was sent, unknown fields are skipped, and what a
    crafted length does.  [VerboseEqual], which tests use for its error texts,
    is not modelled. *)
From S2P Require Import Prelude GoSem Refs Blockset Proto Models.

(** ** Equal

    [this.Equal(that)]: a nil message equals nil only.  [eq] is the comparison
    of the fields.  The argument [that] is a pointer to a message of the type
    of [this], or the message itself. *)
Definition ptr_Equal {A} (eq : A → A → bool) (this that : option A) : bool :=
  match that, this with
  | None, None => true
  | None, Some _ | Some _, None => false
  | Some b, Some a => eq a b
  end.

(** Slices: the lengths, then element by element. *)
Definition slice_Equal {A} (eq : A → A → bool) (l l' : list A) : bool :=
  bool_decide (length l = length l') && forallb (λ p, eq p.1 p.2) (zip l l').

(** Maps: the lengths, then the values at the keys of the first one; a key the
    second one does not have reads as the zero value. *)
Definition map_Equal (g g' : gmap bytes bytes) : bool :=
  bool_decide (size g = size g') && forallb (λ p, bool_decide (p.2 = default [] (g' !! p.1))) (map_to_list g).

Definition BlockLayer_Equal (m m' : PBlockLayer) : bool :=
  bool_decide (PType m = PType m') && bool_decide (PContent m = PContent m').
Definition BlockRef_Equal (m m' : pbBlockRef) : bool :=
  bool_decide (pb_Volume m = pb_Volume m') && bool_decide (pb_INode m = pb_INode m')
  && bool_decide (pb_Block m = pb_Block m').
Definition INodeRef_Equal (m m' : pbINodeRef) : bool :=
  bool_decide (pbi_Volume m = pbi_Volume m') && bool_decide (pbi_INode m = pbi_INode m').
Definition Volume_Equal (m m' : Volume) : bool :=
  bool_decide (VName m = VName m') && bool_decide (VId m = VId m') && bool_decide (VType m = VType m')
  && bool_decide (VMaxBytes m = VMaxBytes m').
Definition RebalanceInfo_Equal (m m' : RebalanceInfo) : bool :=
  bool_decide (LastRebalanceFinish m = LastRebalanceFinish m')
  && bool_decide (LastRebalanceBlocks m = LastRebalanceBlocks m')
  && bool_decide (Rebalancing m = Rebalancing m').
Definition PeerInfo_Equal (m m' : PeerInfo) : bool :=
  bool_decide (UUID m = UUID m') && bool_decide (Address m = Address m') && bool_decide (LastSeen m = LastSeen m')
  && bool_decide (TotalBlocks m = TotalBlocks m') && bool_decide (UsedBlocks m = UsedBlocks m')
  && bool_decide (TimedOut m = TimedOut m')
  && ptr_Equal RebalanceInfo_Equal (PRebalanceInfo m) (PRebalanceInfo m')
  && bool_decide (ProtocolVersion m = ProtocolVersion m').
Definition INode_Equal (m m' : MINode) : bool :=
  bool_decide (IN_Volume m = IN_Volume m') && bool_decide (IN_INode m = IN_INode m')
  && bool_decide (IN_Filesize m = IN_Filesize m') && map_Equal (IN_Attrs m) (IN_Attrs m')
  && slice_Equal BlockLayer_Equal (IN_Blocks m) (IN_Blocks m').
Definition Ring_Equal (m m' : MRing) : bool :=
  bool_decide (RG_Type m = RG_Type m') && bool_decide (RG_Version m = RG_Version m')
  && bool_decide (RG_ReplicationFactor m = RG_ReplicationFactor m')
  && slice_Equal PeerInfo_Equal (RG_Peers m) (RG_Peers m') && map_Equal (RG_Attrs m) (RG_Attrs m').
Definition BlockRequest_Equal (m m' : BlockRequest) : bool :=
  ptr_Equal BlockRef_Equal (BQ_BlockRef m) (BQ_BlockRef m').
Definition BlockResponse_Equal (m m' : BlockResponse) : bool :=
  bool_decide (BS_Ok m = BS_Ok m') && bool_decide (BS_Data m = BS_Data m').
Definition PutBlockRequest_Equal (m m' : PutBlockRequest) : bool :=
  slice_Equal BlockRef_Equal (PQ_Refs m) (PQ_Refs m')
  && slice_Equal (λ b b', bool_decide (b = b')) (PQ_Blocks m) (PQ_Blocks m').
Definition PutResponse_Equal (m m' : PutResponse) : bool :=
  bool_decide (PS_Ok m = PS_Ok m') && bool_decide (PS_Err m = PS_Err m').
Definition RebalanceCheckRequest_Equal (m m' : RebalanceCheckRequest) : bool :=
  slice_Equal BlockRef_Equal (RQ_BlockRefs m) (RQ_BlockRefs m').
Definition RebalanceCheckResponse_Equal (m m' : RebalanceCheckResponse) : bool :=
  slice_Equal (λ b b', bool_decide (b = b')) (RS_Valid m) (RS_Valid m')
  && bool_decide (RS_Status m = RS_Status m').

(** A comparison that decides equality. *)
Class Exact {A} (eq : A → A → bool) : Prop := exact_eq x y : eq x y = true ↔ x = y.

#[global] Instance decide_Exact {A} `{EqDecision A} : Exact (λ x y : A, bool_decide (x = y)).
Proof. intros x y. apply bool_decide_eq_true. Qed.

#[global] Instance ptr_Exact {A} (eq : A → A → bool) `{!Exact eq} : Exact (ptr_Equal eq).
Proof. intros [x|] [y|]; simpl; [rewrite exact_eq; split; congruence| | |]; done. Qed.

#[global] Instance slice_Exact {A} (eq : A → A → bool) `{!Exact eq} : Exact (slice_Equal eq).
Proof.
  intros l. unfold slice_Equal. induction l as [|x l IH]; intros [|y l']; simpl; try done.
  specialize (IH l'). rewrite andb_true_iff in IH. rewrite andb_true_iff, andb_true_iff, (exact_eq x y).
  rewrite bool_decide_eq_true in IH |- *. split.
  - intros (Hl & -> & Hz). f_equal. apply IH. split; [lia|done].
  - intros [= -> <-]. split; [done|]. split; [done|]. by apply IH.
Qed.

(** Fields compared one by one. *)
Ltac exact_fields :=
  intros x y; rewrite ?andb_true_iff, ?bool_decide_eq_true, ?exact_eq; destruct x, y; cbn;
  split; [intros; destruct_and?; by subst|by intros [= ]; subst].

#[global] Instance BlockLayer_Exact : Exact BlockLayer_Equal.
Proof. unfold BlockLayer_Equal. exact_fields. Qed.
#[global] Instance BlockRef_Exact : Exact BlockRef_Equal.
Proof. unfold BlockRef_Equal. exact_fields. Qed.
#[global] Instance INodeRef_Exact : Exact INodeRef_Equal.
Proof. unfold INodeRef_Equal. exact_fields. Qed.
#[global] Instance Volume_Exact : Exact Volume_Equal.
Proof. unfold Volume_Equal. exact_fields. Qed.
#[global] Instance RebalanceInfo_Exact : Exact RebalanceInfo_Equal.
Proof. unfold RebalanceInfo_Equal. exact_fields. Qed.
#[global] Instance PeerInfo_Exact : Exact PeerInfo_Equal.
Proof. unfold PeerInfo_Equal. exact_fields. Qed.
#[global] Instance BlockRequest_Exact : Exact BlockRequest_Equal.
Proof. unfold BlockRequest_Equal. exact_fields. Qed.
#[global] Instance BlockResponse_Exact : Exact BlockResponse_Equal.
Proof. unfold BlockResponse_Equal. exact_fields. Qed.
#[global] Instance PutBlockRequest_Exact : Exact PutBlockRequest_Equal.
Proof. unfold PutBlockRequest_Equal. exact_fields. Qed.
#[global] Instance PutResponse_Exact : Exact PutResponse_Equal.
Proof. unfold PutResponse_Equal. exact_fields. Qed.
#[global] Instance RebalanceCheckRequest_Exact : Exact RebalanceCheckRequest_Equal.
Proof. unfold RebalanceCheckRequest_Equal. exact_fields. Qed.
#[global] Instance RebalanceCheckResponse_Exact : Exact RebalanceCheckResponse_Equal.
Proof. unfold RebalanceCheckResponse_Equal. exact_fields. Qed.

(** Maps are compared exactly when the first one has no empty value. *)
Lemma map_Equal_exact g g' : map_Forall (λ _ v, v ≠ []) g → map_Equal g g' = true ↔ g = g'.
Proof.
  intros Hne. unfold map_Equal. rewrite andb_true_iff, bool_decide_eq_true, List.forallb_forall. split.
  - intros [Hs Hk]. assert (g ⊆ g') as Hsub.
    { apply map_subseteq_spec. intros k v Hkv. specialize (Hk (k, v)).
      rewrite <-list_elem_of_In, elem_of_map_to_list in Hk. pose proof (Hk Hkv) as Hd%bool_decide_eq_true. cbn in Hd.
      specialize (Hne k v Hkv). destruct (g' !! k); simpl in Hd; congruence. }
    destruct (decide (g = g')) as [|Hneq]; [done|].
    assert (g ⊂ g') as Hlt%map_subset_size by (split; [done|]; intros H; by apply Hneq, (anti_symm (⊆))). lia.
  - intros <-. split; [done|]. intros [k v] Hkv%list_elem_of_In%elem_of_map_to_list. cbn.
    rewrite Hkv. by apply bool_decide_eq_true.
Qed.

(** [Equal] decides equality for the messages without maps, and for inodes
    and rings as long as no attribute of the receiver has the empty value. *)
Theorem message_equal_exact :
  (∀ m m' : option PBlockLayer, ptr_Equal BlockLayer_Equal m m' = true ↔ m = m') ∧
  (∀ m m' : option pbBlockRef, ptr_Equal BlockRef_Equal m m' = true ↔ m = m') ∧
  (∀ m m' : option pbINodeRef, ptr_Equal INodeRef_Equal m m' = true ↔ m = m') ∧
  (∀ m m' : option Volume, ptr_Equal Volume_Equal m m' = true ↔ m = m') ∧
  (∀ m m' : option PeerInfo, ptr_Equal PeerInfo_Equal m m' = true ↔ m = m') ∧
  (∀ m m' : option BlockRequest, ptr_Equal BlockRequest_Equal m m' = true ↔ m = m') ∧
  (∀ m m' : option BlockResponse, ptr_Equal BlockResponse_Equal m m' = true ↔ m = m') ∧
  (∀ m m' : option PutBlockRequest, ptr_Equal PutBlockRequest_Equal m m' = true ↔ m = m') ∧
  (∀ m m' : option PutResponse, ptr_Equal PutResponse_Equal m m' = true ↔ m = m') ∧
  (∀ m m' : option RebalanceCheckRequest, ptr_Equal RebalanceCheckRequest_Equal m m' = true ↔ m = m') ∧
  (∀ m m' : option RebalanceCheckResponse, ptr_Equal RebalanceCheckResponse_Equal m m' = true ↔ m = m') ∧
  (∀ m m' : MINode, map_Forall (λ _ v, v ≠ []) (IN_Attrs m) → INode_Equal m m' = true ↔ m = m') ∧
  (∀ m m' : MRing, map_Forall (λ _ v, v ≠ []) (RG_Attrs m) → Ring_Equal m m' = true ↔ m = m').
Proof.
  split_and!; try (intros m m'; apply exact_eq).
  - intros m m' Hm. unfold INode_Equal.
    rewrite !andb_true_iff, !bool_decide_eq_true, (map_Equal_exact _ _ Hm), exact_eq.
    destruct m, m'; cbn. split; [intros; destruct_and?; by subst|by intros [= ]; subst].
  - intros m m' Hm. unfold Ring_Equal.
    rewrite !andb_true_iff, !bool_decide_eq_true, (map_Equal_exact _ _ Hm), exact_eq.
    destruct m, m'; cbn. split; [intros; destruct_and?; by subst|by intros [= ]; subst].
Qed.

(** Two inodes (or rings) whose attributes differ compare equal when an
    attribute with the empty value takes the place of another one: the loop
    reads a missing key as the zero value. *)
Theorem equal_confuses_empty_attrs (v i f : Z) (b : list PBlockLayer) (k k' : gostring) :
  k ≠ k' →
  let m := mkMINode v i f {[ k := [] ]} b in
  let m' := mkMINode v i f {[ k' := [] ]} b in
  INode_Equal m m' = true ∧ m ≠ m'.
Proof.
  intros Hk m m'. split.
  - unfold INode_Equal, m, m'. cbn [IN_Volume IN_INode IN_Filesize IN_Attrs IN_Blocks].
    rewrite !andb_true_iff, !bool_decide_eq_true, exact_eq. split_and!; try done.
    unfold map_Equal. rewrite !map_size_singleton, map_to_list_singleton. cbn.
    by rewrite lookup_singleton_ne by done.
  - intros Hm. apply (f_equal (λ m, IN_Attrs m !! k)) in Hm. cbn [m m' IN_Attrs] in Hm. by rewrite lookup_singleton_eq, lookup_singleton_ne in Hm by done.
Qed.

Lemma equal_confuses_empty_attrs_witness :
  INode_Equal (mkMINode 1 2 3 {[ [x61] := [] ]} []) (mkMINode 1 2 3 {[ [x62] := [] ]} []) = true.
Proof. apply (equal_confuses_empty_attrs 1 2 3 [] [x61] [x62]). discriminate. Defined.

(** ** The wire *)

(** A message that is marshalled to as many bytes as [Size] announces, which
    [Unmarshal] turns back into it. *)
Definition roundtrips {A} `{Message A} (m : A) : Prop :=
  ∃ d, Marshal m = Ok d ∧ Z.of_nat (length d) = msg_Size m ∧ Unmarshal d msg_zero = Ok m.

(** C25: every message of the package that fits the machine, whatever the order
    its maps are ranged over, is marshalled without error or panic to exactly
    [Size] bytes, and unmarshalling these gives it back. *)
Theorem messages_roundtrip `{Range} :
  (∀ m : PBlockLayer, BlockLayer_valid m → roundtrips m) ∧
  (∀ m : pbBlockRef, BlockRef_valid m → roundtrips m) ∧
  (∀ m : pbINodeRef, INodeRef_valid m → roundtrips m) ∧
  (∀ m : Volume, Volume_valid m → roundtrips m) ∧
  (∀ m : RebalanceInfo, RebalanceInfo_valid m → roundtrips m) ∧
  (∀ m : PeerInfo, PeerInfo_valid m → roundtrips m) ∧
  (∀ m : MINode, INode_valid m → roundtrips m) ∧
  (∀ m : MRing, Ring_valid m → roundtrips m) ∧
  (∀ m : BlockRequest, opt_valid (BQ_BlockRef m) → roundtrips m) ∧
  (∀ m : BlockResponse, short (BS_Data m) → BlockResponse_Size m < 2 ^ 63 → roundtrips m) ∧
  (∀ m : PutBlockRequest, Forall BlockRef_valid (PQ_Refs m) → Forall short (PQ_Blocks m) →
     PutBlockRequest_Size m < 2 ^ 63 → roundtrips m) ∧
  (∀ m : PutResponse, short (PS_Err m) → PutResponse_Size m < 2 ^ 63 → roundtrips m) ∧
  (∀ m : RebalanceCheckRequest, Forall BlockRef_valid (RQ_BlockRefs m) →
     RebalanceCheckRequest_Size m < 2 ^ 63 → roundtrips m) ∧
  (∀ m : RebalanceCheckResponse, Z.of_nat (length (RS_Valid m)) < 2 ^ 63 → int_range 32 (RS_Status m) →
     RebalanceCheckResponse_Size m < 2 ^ 63 → roundtrips m).
Proof. split_and!; intros m **; apply message_roundtrip; repeat (assumption || split). Qed.

(** A field of a number the message type does not have. *)
Definition unknown_field {A} `{Message A} (u : bytes) : Prop :=
  ∃ tag body, u = byte_of_Z tag :: body ∧ 8 ≤ tag < 128 ∧ unknown_body (Z.land tag 7) body ∧
    ∀ d (m : A), msg_switch d (Z.shiftr tag 3) (Z.land tag 7) m = None.

Lemma fields_unknown {A} `{Message A} us (m : A) : Forall (unknown_field (A := A)) us → fields msg_switch (concat us) m m.
Proof.
  induction 1 as [|u us (tag & body & -> & Ht & Hb & Hn) Hus IH]; [constructor|].
  cbn [concat]. by apply fields_skip.
Qed.

(** Unmarshalling passes over fields of unknown numbers, of any wire type
    but groups, before and after the fields of a message. *)
Theorem unknown_fields_ignored {A} `{MessageLaws A} (m : A) (us us' : list bytes) :
  msg_valid m → Forall (unknown_field (A := A)) us → Forall (unknown_field (A := A)) us' →
  Z.of_nat (length (concat us ++ msg_enc m ++ concat us')) < 2 ^ 63 →
  Unmarshal (concat us ++ msg_enc m ++ concat us') msg_zero = Ok m.
Proof.
  intros Hm Hus Hus' Hl. apply unmarshal_fields; [|done].
  eapply fields_app; [by apply fields_unknown|].
  eapply fields_app; [by apply msg_fields|by apply fields_unknown].
Qed.

Lemma unknown_fields_ignored_witness :
  Unmarshal [x18; x07; x08; x01; x12; x01; x61; x22; x02; x00; x00] BlockLayer_zero = Ok (mkPBlockLayer 1 [x61]).
Proof.
  replace [x18; x07; x08; x01; x12; x01; x61; x22; x02; x00; x00]
    with (concat [[x18; x07]] ++ msg_enc (mkPBlockLayer 1 [x61]) ++ concat [[x22; x02; x00; x00]])
    by (vm_compute; reflexivity).
  change BlockLayer_zero with (msg_zero (A := PBlockLayer)).
  apply (unknown_fields_ignored (mkPBlockLayer 1 [x61]) [[x18; x07]] [[x22; x02; x00; x00]]).
  - change (BlockLayer_valid (mkPBlockLayer 1 [x61])). split; [unfold in_width; cbn; lia|]. by split.
  - constructor; [|constructor]. exists 0x18, [x07]. split; [done|]. split; [lia|].
    split; [apply (unknown_varint 7); unfold in_width; lia|done].
  - constructor; [|constructor]. exists 0x22, (benc [x00; x00]). split; [done|]. split; [lia|].
    split; [apply unknown_bytes|done].
  - vm_compute. done.
Defined.

(** A length near the end of the range makes the index wrap around. *)
Lemma read_bytes_wraps n pre :
  2 ^ 63 - 2 ≤ n < 2 ^ 63 → (0 < length pre)%nat → Z.of_nat (length (pre ++ venc n ++ [])) < 2 ^ 63 →
  ∃ i, read_bytes (pre ++ venc n ++ []) (Z.of_nat (length pre)) = (Panic, i).
Proof.
  intros Hn Hp Hl. assert (u64 n) as Hu by (unfold in_width; lia).
  pose proof (length_venc_pos n) as Hpos. unfold read_bytes, read_end.
  rewrite bind_assoc, (bind_step _ _ _ _ _ (reads_varint 64 n ltac:(lia) Hu pre [] Hl)).
  rewrite wrap_id, to_signed_small by (done || lia). rewrite decide_False by lia.
  set (i := Z.of_nat (length pre) + _). rewrite app_nil_r, length_app in Hl.
  assert (to_signed 64 (i + n) = i + n - 2 ^ 64) as Hs.
  { unfold to_signed. rewrite wrap_id by (unfold in_width, i; lia). rewrite decide_False by (unfold i; lia). done. }
  unfold get, mbind, M_bind. rewrite Hs, decide_False by (unfold i; lia). unfold mret, M_ret, gslice.
  rewrite decide_False by (unfold i; lia). by eexists.
Qed.

(** A panic while the first field is read is a panic of [Unmarshal]. *)
Lemma unmarshal_panic {A} (h : bytes → Z → Z → A → option (M Z A)) tag body m p i :
  8 ≤ tag < 128 → Z.land tag 7 ≠ 4 → Z.of_nat (length ([byte_of_Z tag] ++ body ++ [])) < 2 ^ 63 →
  h ([byte_of_Z tag] ++ body ++ []) (Z.shiftr tag 3) (Z.land tag 7) m = Some p → p 1 = (Panic, i) →
  unmarshal h (byte_of_Z tag :: body) m = Panic.
Proof.
  intros Ht Hw Hl Hh Hp. unfold unmarshal. rewrite <-(app_nil_r (_ :: _)).
  pose proof (unmarshal_loop_tag h tag body [] [] (length ((byte_of_Z tag :: body) ++ [])) m Ht Hw Hl) as H.
  cbv zeta in H. cbn [app length] in *. change (Z.of_nat 0) with 0 in H.
  rewrite H, Hh. unfold mbind, M_bind. rewrite Z.add_0_l, Hp. done.
Qed.

(** A crafted length of 2^63-2 or 2^63-1 makes the sum [iNdEx + byteLen]
    overflow; the bound check lets the negative index through and the slice
    expression panics, for a stored block layer and for a request that arrives
    over the network. *)
Theorem crafted_length_panics (n : Z) :
  2 ^ 63 - 2 ≤ n < 2 ^ 63 →
  Unmarshal (byte_of_Z 0x12 :: venc n) BlockLayer_zero = Panic ∧
  Unmarshal (byte_of_Z 0x0a :: venc n) (mkBlockRequest None) = Panic.
Proof.
  intros Hn. assert (Z.of_nat (length (venc n)) ≤ 10) as Hlen.
  { rewrite length_venc by (unfold in_width; lia). apply sov_loop_bound. }
  assert (∀ tag, Z.of_nat (length ([byte_of_Z tag] ++ venc n ++ [])) < 2 ^ 63) as Hl.
  { intros tag. rewrite app_nil_r. cbn [app length]. lia. }
  assert (∀ tag, ∃ i, read_bytes ([byte_of_Z tag] ++ venc n ++ []) 1 = (Panic, i)) as Hr.
  { intros tag. apply (read_bytes_wraps n [byte_of_Z tag] Hn); [cbn [length]; lia|apply Hl]. }
  split; [destruct (Hr 0x12) as [i Hi]|destruct (Hr 0x0a) as [i Hi]];
    (eapply (unmarshal_panic _ _ _ _ _ i); [lia|done|apply Hl|reflexivity|]).
  - unfold get_bytes_field. rewrite decide_False by tauto. unfold mbind, M_bind. by rewrite Hi.
  - unfold get_msg_field. rewrite decide_False by tauto. unfold mbind, M_bind. by rewrite Hi.
Qed.

Lemma crafted_length_panics_witness :
  Unmarshal [x12; xff; xff; xff; xff; xff; xff; xff; xff; x7f] BlockLayer_zero = Panic.
Proof. apply (crafted_length_panics (2 ^ 63 - 1)). lia. Defined.

Lemma messages_roundtrip_witness :
  roundtrips (H := INode_Message (H := map_range))
    (mkMINode 1 2 4096 {[ [x6b] := [x76] ]} [mkPBlockLayer 1 [x01; x02]]).
Proof.
  destruct (messages_roundtrip (H := map_range)) as (_ & _ & _ & _ & _ & _ & Hm & _). apply Hm. unfold INode_valid. cbn [IN_Volume IN_INode IN_Filesize IN_Attrs IN_Blocks].
  split_and!; [unfold in_width; lia..| | |].
  - unfold short_entries. rewrite map_to_list_singleton. constructor; [|constructor].
    split_and!; vm_compute; reflexivity.
  - constructor; [|constructor]. split; [unfold in_width; cbn; lia|]. by split.
  - vm_compute. reflexivity.
Defined.
