(* ===== verification/INodeStore.v ===== *)
(** * The inode store

    Models [src/inode.go].  An inode is its protobuf encoding, preceded by its
    length in four bytes and cut into blocks of type [TypeINode] numbered from 1.
    Log lines and metrics are left out. *)
From S2P Require Import Prelude GoSem Refs TempStore Store Proto Models.

(** The reference of the [index]th block of an inode. *)
Definition inode_ref (i : INodeRef) (index : Z) : BlockRef :=
  SetBlockType (BlockType_num TypeINode) (mkBlockRef i index).

Section store.
Context {S : Type} `{B : BlockStore S} `{RG : Range}.

Definition Flush : M S unit := Store.Flush.
Definition Close : M S unit := Store.Close.

(** The loop of [WriteINode]; [bs] is the block size. *)
Fixpoint write_loop (fuel : nat) (i : INodeRef) (data : bytes) (bs : nat)
    (buf : bytes) (bufoffset inodeoffset : nat) (index : Z) : M S unit :=
  if decide (inodeoffset = length data) then mret tt
  else
    match fuel with
    | O => panic
    | Datatypes.S fuel' =>
        let buf1 := if decide (bufoffset = 0%nat) then zeros bs else buf in
        let rest := drop inodeoffset data in
        let written := copied bufoffset rest buf1 in
        let buf2 := blit bufoffset rest buf1 in
        _ ← WriteBlock (inode_ref i index) buf2;
        write_loop fuel' i data bs buf2 0 (inodeoffset + written) (index + 1)
    end.

(** The blocks of the marshalled inode; every round but the first copies at
    least one byte when a block has any. *)
Definition write_data (i : INodeRef) (data : bytes) : M S unit :=
  bs ← gets (λ s, Z.to_nat (BlockSize s));
  let buf := zeros bs in
  _ ← lift (or_panic (gslice 0 4 buf));
  let buf1 := blit 0 (le_put 4 (wrap32 (Z.of_nat (length data)))) buf in
  write_loop (Datatypes.S (length data)) i data bs buf1 4 0 1.

Definition WriteINode (i : INodeRef) (inode : MINode) : M S unit :=
  if decide (INode i = 0) then panic
  else
    data ← lift (Marshal inode);
    write_data i data.

(** The loop of [GetINode]: [data] is the block read last. *)
Fixpoint get_loop (fuel : nat) (i : INodeRef) (dlen : nat)
    (buf data : bytes) (bufoffset dataoffset : nat) (index : Z) : M S bytes :=
  if decide (bufoffset = dlen) then mret buf
  else
    match fuel with
    | O => panic
    | Datatypes.S fuel' =>
        '(data', index') ←
          (if decide (dataoffset = 0%nat) then
             sl ← GetBlock (inode_ref i (index + 1));
             d ← gets (λ s, deref s sl);
             mret (d, index + 1)
           else mret (data, index));
        let rest := drop dataoffset data' in
        let written := copied bufoffset rest buf in
        get_loop fuel' i dlen (blit bufoffset rest buf) data' (bufoffset + written) 0 index'
    end.

Definition get_data (i : INodeRef) : M S bytes :=
  sl ← GetBlock (inode_ref i 1);
  data ← gets (λ s, deref s sl);
  hdr ← lift (or_panic (gslice 0 4 data));
  let dlen := Z.to_nat (le_get hdr) in
  get_loop (Datatypes.S dlen) i dlen (zeros dlen) data 0 4 1.

Definition GetINode (i : INodeRef) : M S MINode :=
  if decide (INode i = 0) then panic
  else
    buf ← get_data i;
    lift (Unmarshal buf INode_zero).

(** [for j := 1; j <= nblocks; j++]: the blocks from [j] on, [k] of them. *)
Fixpoint delete_loop (k : nat) (i : INodeRef) (j : Z) : M S unit :=
  match k with
  | O => mret tt
  | Datatypes.S k' => _ ← DeleteBlock (inode_ref i j); delete_loop k' i (j + 1)
  end.

Definition DeleteINode (i : INodeRef) : M S unit :=
  if decide (INode i = 0) then panic
  else
    sl ← GetBlock (inode_ref i 1);
    data ← gets (λ s, deref s sl);
    hdr ← lift (or_panic (gslice 0 4 data));
    bs ← gets BlockSize;
    if decide (bs = 0) then panic
    else delete_loop (Z.to_nat (le_get hdr / bs + 1)) i 1.

(** [INodeIterator.Next] moves the block iterator to the next first block of an
    inode; the fuel bounds the blocks it passes. *)
Fixpoint Next (fuel : nat) (s : S) (it : iterator) : res bool * iterator :=
  match fuel with
  | O => (Panic, it)
  | Datatypes.S fuel' =>
      match iter_Next s it with
      | (Ok true, it') =>
          match iter_BlockRef it' with
          | Ok ref => if decide (BlockType ref = BlockType_num TypeINode ∧ Index ref = 1) then (Ok true, it') else Next fuel' s it'
          | Err e => (Err e, it')
          | Panic => (Panic, it')
          end
      | (o, it') => (o, it')
      end
  end.
Definition iter_INodeRef (it : iterator) : res INodeRef := br_inode <$> iter_BlockRef it.
Definition INodeIterator (s : S) : iterator := BlockIterator s.

(** [for it.Next() { visit(it.INodeRef()) }] *)
Fixpoint visit (fuel : nat) (s : S) (it : iterator) : res (list INodeRef) :=
  match fuel with
  | O => Panic
  | Datatypes.S fuel' =>
      match Next fuel s it with
      | (Ok true, it') => i ← iter_INodeRef it'; l ← visit fuel' s it'; Ok (i :: l)
      | (Ok false, _) => Ok []
      | (Err e, _) => Err e
      | (Panic, _) => Panic
      end
  end.
End store.

(** ** Layout *)

(** Block [k] of a payload, padded with zeros. *)
Definition chunk (bs k : nat) (p : bytes) : bytes :=
  let c := take bs (drop (k * bs) p) in c ++ zeros (bs - length c).

Definition payload (data : bytes) : bytes := le_put 4 (Z.of_nat (length data)) ++ data.

(** How much of the data is in the blocks before block [k]. *)
Definition offset (bs k len : nat) : nat := Nat.min len (k * bs - 4).

Lemma length_payload data : length (payload data) = (4 + length data)%nat.
Proof. unfold payload. len. Qed.

(** Filling the zeroed rest of a buffer. *)
Lemma blit_zeros (h x : bytes) n :
  (length h ≤ n)%nat →
  blit (length h) x (h ++ zeros (n - length h))
  = take n (h ++ x) ++ zeros (n - length (take n (h ++ x))).
Proof.
  intros Hn. unfold blit. rewrite length_app, length_zeros.
  rewrite take_app_length, drop_app_ge, drop_zeros by lia. rewrite take_app_ge by lia.
  rewrite <-app_assoc. f_equal.
  replace (length h + (n - length h) - length h)%nat with (n - length h)%nat by lia.
  f_equal. f_equal. len.
Qed.

Lemma drop_payload data bs k :
  (0 < k)%nat → (4 ≤ bs)%nat → drop (k * bs) (payload data) = drop (k * bs - 4) data.
Proof.
  intros Hk Hb. unfold payload. rewrite drop_app_ge by (len; nia). len.
Qed.

(** What the two loops put together, for the first and for the later blocks. *)
Lemma chunk_first data bs :
  (4 ≤ bs)%nat →
  blit 4 data (le_put 4 (Z.of_nat (length data)) ++ zeros (bs - 4)) = chunk bs 0 (payload data).
Proof.
  intros Hb. pose proof (blit_zeros (le_put 4 (Z.of_nat (length data))) data bs) as H.
  rewrite length_le_put in H. by apply H.
Qed.

Lemma chunk_later data bs k :
  (0 < k)%nat → (4 ≤ bs)%nat → blit 0 (drop (k * bs - 4) data) (zeros bs) = chunk bs k (payload data).
Proof.
  intros Hk Hb. unfold chunk. rewrite drop_payload by done.
  pose proof (blit_zeros [] (drop (k * bs - 4) data) bs ltac:(simpl; lia)) as H. simpl in H.
  by rewrite Nat.sub_0_r in H.
Qed.

(** Copying a window of the data, possibly padded, into its place. *)
Lemma blit_window o m (data : bytes) :
  (o ≤ length data)%nat →
  let w := take m (drop o data) in
  let rest := w ++ zeros (m - length w) in
  let buf := take o data ++ zeros (length data - o) in
  blit o rest buf = take (o + m) data ++ zeros (length data - (o + m)) ∧
  copied o rest buf = Nat.min m (length data - o).
Proof.
  intros Ho w rest buf.
  assert (length w = Nat.min m (length data - o)) as Hw by (unfold w; len).
  assert (length buf = length data) as Hbuf by (unfold buf; len).
  split; [|unfold copied; rewrite Hbuf; unfold rest; rewrite length_app, length_zeros; lia].
  unfold blit. rewrite Hbuf. unfold buf at 1. rewrite take_app_le, take_take, Nat.min_id by len.
  unfold rest. rewrite take_app, length_app, length_zeros, take_zeros.
  rewrite (take_ge w) by lia. unfold buf.
  rewrite drop_app_ge by len. rewrite drop_zeros, length_take.
  rewrite <-take_take_drop, <-!app_assoc. fold w. do 2 f_equal.
  rewrite zeros_app. f_equal. lia.
Qed.

(** ** The two loops *)

Lemma inode_ref_Index i j : Index (inode_ref i j) = j.
Proof. done. Qed.

Lemma inode_ref_inj i j j' : inode_ref i j = inode_ref i j' → j = j'.
Proof. intros H%(f_equal Index). done. Qed.

Section proofs.
Context {S : Type} `{L : BlockStoreLaws S}.
Implicit Types (s : S) (d data : bytes).

(** References other than the inode's blocks numbered above [k]. *)
Definition outside (i : INodeRef) (k : nat) (r : BlockRef) : Prop :=
  ∀ j, Z.of_nat k < j → r ≠ inode_ref i j.

Lemma outside_mono i k k' r : (k ≤ k')%nat → outside i k r → outside i k' r.
Proof. intros Hk Ho j Hj. apply Ho. lia. Qed.

(** Block [k] is stored as the layout says. *)
Definition chunk_stored s (i : INodeRef) (bs k : nat) data : Prop :=
  stored s (inode_ref i (Z.of_nat k + 1)) = Some (chunk bs k (payload data)).

Lemma length_chunk bs k p : length (chunk bs k p) = bs.
Proof. unfold chunk. len. Qed.

(** The block written in round [k]. *)
Lemma write_chunk data bs k buf :
  (4 ≤ bs)%nat → offset bs k (length data) ≠ length data →
  (k = 0%nat → buf = le_put 4 (Z.of_nat (length data)) ++ zeros (bs - 4)) →
  let bufoffset := if decide (k = 0%nat) then 4%nat else 0%nat in
  let o := offset bs k (length data) in
  let buf1 := if decide (bufoffset = 0%nat) then zeros bs else buf in
  blit bufoffset (drop o data) buf1 = chunk bs k (payload data) ∧
  (o + copied bufoffset (drop o data) buf1)%nat = offset bs (Datatypes.S k) (length data).
Proof.
  intros Hb Ho Hbuf bufoffset o buf1. unfold offset in *. subst bufoffset buf1.
  destruct (decide (k = 0%nat)) as [->|Hk].
  - rewrite (decide_False (P := (4%nat = 0%nat))) by lia. rewrite Hbuf by done.
    assert (o = 0%nat) as -> by (unfold o; lia). rewrite drop_0. split; [by apply chunk_first|].
    unfold copied. rewrite length_app, length_le_put, length_zeros. lia.
  - rewrite (decide_True (P := (0%nat = 0%nat))) by done.
    assert (o = (k * bs - 4)%nat) as -> by (unfold o; lia). split; [apply chunk_later; lia|].
    unfold copied. rewrite length_drop, length_zeros. nia.
Qed.

Lemma write_loop_spec fuel i data bs k buf s :
  inv s → (4 ≤ bs)%nat → Z.of_nat bs = BlockSize s →
  (∀ j, Z.of_nat k < j → j ≤ Z.of_nat (k + fuel) → valid (inode_ref i j)) →
  (k = 0%nat → buf = le_put 4 (Z.of_nat (length data)) ++ zeros (bs - 4)) →
  (length data - offset bs k (length data) + (if decide (k = 0%nat) then 1 else 0) ≤ fuel)%nat →
  match write_loop fuel i data bs buf (if decide (k = 0%nat) then 4 else 0)%nat
          (offset bs k (length data)) (Z.of_nat k + 1) s with
  | (Ok _, s') =>
      store_ext s s' ∧ (∀ r, outside i k r → stored s' r = stored s r) ∧
      (∀ j, (k ≤ j)%nat → offset bs j (length data) ≠ length data → chunk_stored s' i bs j data)
  | (Err _, s') => store_ext s s' ∧ (∀ r, outside i k r → stored s' r = stored s r)
  | (Panic, _) => False
  end.
Proof.
  revert k buf s. induction fuel as [|fuel IH]; intros k buf s Hi Hb Hbs Hv Hbuf Hf; cbn [write_loop].
  { assert (offset bs k (length data) = length data) as Ho by (unfold offset in *; lia).
    rewrite decide_True by done. split; [by apply store_ext_refl|]. split; [done|].
    intros j Hj Hn. destruct Hn. unfold offset in *. nia. }
  destruct (decide (offset bs k (length data) = length data)) as [Ho|Ho].
  { split; [by apply store_ext_refl|]. split; [done|].
    intros j Hj Hn. destruct Hn. unfold offset in *. nia. }
  destruct (write_chunk data bs k buf Hb Ho Hbuf) as [Hchunk Hnext]. cbv zeta in Hchunk, Hnext.
  rewrite Hchunk, Hnext. set (r := inode_ref i (Z.of_nat k + 1)).
  assert (valid r) as Hvr by (apply Hv; lia).
  assert (fits s (chunk bs k (payload data))) as Hfits by (apply fits_size; [done|by rewrite length_chunk]).
  destruct (WriteBlock r (chunk bs k (payload data)) s) as [[[]|e|] s1] eqn:Hw.
  - run_step Hw. destruct (WriteBlock_stored _ _ _ _ Hi Hvr Hfits Hw) as (He & Hs & Hk).
    specialize (IH (Datatypes.S k) (chunk bs k (payload data)) s1 (ext_inv _ _ He) Hb).
    rewrite (ext_size _ _ He) in IH. ospecialize (IH Hbs _ _ _).
    { intros j ??. apply Hv; lia. }
    { lia. }
    { rewrite (decide_False (P := (Datatypes.S k = 0%nat))) by lia. unfold offset in *.
      destruct (decide (k = 0%nat)); nia. }
    rewrite (decide_False (P := (Datatypes.S k = 0%nat))) in IH by lia.
    replace (Z.of_nat (Datatypes.S k) + 1) with (Z.of_nat k + 1 + 1) in IH by lia.
    assert (∀ x, outside i k x → stored s1 x = stored s x) as Hk'.
    { intros x Hx. apply Hk. apply Hx. lia. }
    destruct (write_loop fuel _ _ _ _ _ _ _ s1) as [[[]|e|] s2]; [| |done].
    + destruct IH as (He2 & Hk2 & Hc). split_and!; [by eapply store_ext_trans| |].
      * intros x Hx. rewrite Hk2 by (eapply outside_mono; [|done]; lia). auto.
      * intros j Hj Hoj. destruct (decide (j = k)) as [->|Hne]; [|apply Hc; [lia|done]].
        unfold chunk_stored. rewrite Hk2; [done|]. intros j' Hj' E%inode_ref_inj. lia.
    + destruct IH as (He2 & Hk2). split; [by eapply store_ext_trans|].
      intros x Hx. rewrite Hk2 by (eapply outside_mono; [|done]; lia). auto.
  - rewrite (bind_step_err _ _ _ _ _ Hw).
    destruct (WriteBlock_err_stored _ _ _ _ _ Hi Hvr Hfits Hw) as (He & Hk). auto.
  - by apply (WriteBlock_no_panic _ _ _ _ Hi Hvr Hfits) in Hw.
Qed.

(** The bytes of block [k] that belong to the data. *)
Lemma get_chunk data bs k :
  (4 ≤ bs)%nat → offset bs k (length data) ≠ length data →
  let dataoffset := if decide (k = 0%nat) then 4%nat else 0%nat in
  let o := offset bs k (length data) in
  let w := take (bs - dataoffset) (drop o data) in
  drop dataoffset (chunk bs k (payload data)) = w ++ zeros (bs - dataoffset - length w) ∧
  Nat.min (length data) (o + (bs - dataoffset)) = offset bs (Datatypes.S k) (length data).
Proof.
  intros Hb Ho dataoffset o w. unfold offset in *. subst dataoffset.
  destruct (decide (k = 0%nat)) as [->|Hk].
  - assert (o = 0%nat) as Ho0 by (unfold o; lia). split; [|lia]. unfold chunk. simpl (0 * bs)%nat.
    rewrite drop_0. unfold payload at 1 2. rewrite !take_app, length_le_put.
    rewrite take_ge by len. rewrite <-app_assoc. rewrite drop_app_length' by len.
    unfold w. rewrite Ho0, drop_0. f_equal. f_equal. len.
  - assert (o = (k * bs - 4)%nat) as Ho0 by (unfold o; lia). split; [|nia]. unfold chunk.
    rewrite drop_payload by lia. unfold w. by rewrite Ho0, drop_0, Nat.sub_0_r.
Qed.

(** The block of round [k]: the first is read already. *)
Lemma next_block i data bs k cur s :
  inv s → is_open s → (k = 0%nat → cur = chunk bs 0 (payload data)) →
  (k ≠ 0%nat → chunk_stored s i bs k data) →
  ∃ s1, (if decide ((if decide (k = 0%nat) then 4 else 0) = 0)%nat then
           sl ← GetBlock (inode_ref i (Z.max 1 (Z.of_nat k) + 1));
           d ← gets (λ s, deref s sl);
           mret (d, Z.max 1 (Z.of_nat k) + 1)
         else mret (cur, Z.max 1 (Z.of_nat k))) s
        = (Ok (chunk bs k (payload data), Z.max 1 (Z.of_nat (Datatypes.S k))), s1) ∧
    store_ext s s1 ∧ ∀ r, stored s1 r = stored s r.
Proof.
  intros Hi Hop Hcur Hst. destruct (decide (k = 0%nat)) as [->|Hk].
  - rewrite decide_False by lia. rewrite Hcur by done.
    exists s. split; [done|]. split; [by apply store_ext_refl|done].
  - rewrite decide_True by lia. replace (Z.max 1 (Z.of_nat k)) with (Z.of_nat k) by lia.
    destruct (store_get_run s _ _ Hi Hop (Hst Hk)) as (sl & s1 & Hg & Hd & ? & ?).
    exists s1. split; [|done]. run_step Hg. unfold mbind, M_bind, gets, mret, M_ret. rewrite Hd.
    do 3 f_equal. lia.
Qed.

Lemma take_clip x (data : bytes) :
  take (Nat.min (length data) x) data ++ zeros (length data - Nat.min (length data) x)
  = take x data ++ zeros (length data - x).
Proof.
  destruct (decide (x ≤ length data)%nat); [by rewrite Nat.min_r by lia|].
  rewrite Nat.min_l, !take_ge by lia. f_equal. f_equal. lia.
Qed.

Lemma take_all_zeros (data : bytes) o :
  o = length data → take o data ++ zeros (length data - o) = data.
Proof. intros ->. rewrite take_ge, Nat.sub_diag by done. apply app_nil_r. Qed.

Lemma get_loop_spec fuel i data bs k cur s (o := offset bs k (length data)) :
  inv s → is_open s → (4 ≤ bs)%nat →
  (∀ j, offset bs j (length data) ≠ length data → chunk_stored s i bs j data) →
  (k = 0%nat → cur = chunk bs 0 (payload data)) →
  (length data - o + (if decide (k = 0%nat) then 1 else 0) ≤ fuel)%nat →
  ∃ s', get_loop fuel i (length data) (take o data ++ zeros (length data - o)) cur o
          (if decide (k = 0%nat) then 4 else 0)%nat (Z.max 1 (Z.of_nat k)) s = (Ok data, s') ∧
    store_ext s s' ∧ ∀ r, stored s' r = stored s r.
Proof.
  subst o. revert k cur s.
  induction fuel as [|fuel IH]; intros k cur s Hi Hop Hb Hst Hcur Hf; cbn [get_loop].
  { assert (offset bs k (length data) = length data) as Ho by (unfold offset in *; lia).
    rewrite take_all_zeros, decide_True by done.
    exists s. split; [done|]. split; [by apply store_ext_refl|done]. }
  destruct (decide (offset bs k (length data) = length data)) as [Ho|Ho].
  { rewrite take_all_zeros by done. exists s. split; [done|]. split; [by apply store_ext_refl|done]. }
  destruct (next_block i data bs k cur s Hi Hop Hcur (λ _, Hst k Ho)) as (s1 & Hrd & He1 & Hs1).
  rewrite (bind_step _ _ _ _ _ Hrd). cbn beta iota.
  destruct (get_chunk data bs k Hb Ho) as [Hdrop Hnext]. cbv zeta in Hdrop, Hnext. rewrite Hdrop.
  destruct (blit_window (offset bs k (length data)) (bs - (if decide (k = 0%nat) then 4 else 0)) data)
    as [-> ->]; [unfold offset; lia|].
  replace (offset bs k (length data) + Nat.min _ _)%nat with (offset bs (Datatypes.S k) (length data))
    by (rewrite <-Hnext; unfold offset; lia).
  rewrite <-take_clip, Hnext.
  destruct (IH (Datatypes.S k) (chunk bs k (payload data)) s1) as (s' & Hg & He & Hs).
  { apply (ext_inv _ _ He1). }
  { by apply (ext_open _ _ He1). }
  { done. }
  { intros j Hj. unfold chunk_stored. rewrite Hs1. by apply Hst. }
  { lia. }
  { rewrite (decide_False (P := (Datatypes.S k = 0%nat))) by lia. unfold offset in *.
    destruct (decide (k = 0%nat)); nia. }
  exists s'. rewrite (decide_False (P := (Datatypes.S k = 0%nat))) in Hg by lia.
  split; [exact Hg|]. split; [by eapply store_ext_trans|]. intros r. by rewrite Hs, Hs1.
Qed.

(** The marshalled bytes of an inode, stored. *)
Definition inode_stored s (i : INodeRef) (bs : nat) data : Prop :=
  ∀ j, offset bs j (length data) ≠ length data → chunk_stored s i bs j data.

Lemma inode_write_data_spec i data s :
  inv s → 4 ≤ BlockSize s → Z.of_nat (length data) < 2 ^ 32 →
  (∀ j, 1 ≤ j ≤ Z.of_nat (length data) + 1 → valid (inode_ref i j)) →
  match write_data i data s with
  | (Ok _, s') =>
      store_ext s s' ∧ (∀ r, outside i 0 r → stored s' r = stored s r) ∧
      inode_stored s' i (Z.to_nat (BlockSize s)) data
  | (Err _, s') => store_ext s s' ∧ (∀ r, outside i 0 r → stored s' r = stored s r)
  | (Panic, _) => False
  end.
Proof.
  intros Hi Hb Hl Hv. unfold write_data. set (bs := Z.to_nat (BlockSize s)).
  rewrite (bind_step (gets _) _ s bs s) by done. cbv zeta.
  unfold gslice. rewrite decide_True by (rewrite length_zeros; lia).
  rewrite (bind_step (lift _) _ s _ s) by done.
  rewrite (wrap_id 32) by (unfold in_width; lia).
  assert (blit 0 (le_put 4 (Z.of_nat (length data))) (zeros bs)
          = le_put 4 (Z.of_nat (length data)) ++ zeros (bs - 4)) as ->.
  { pose proof (blit_zeros [] (le_put 4 (Z.of_nat (length data))) bs ltac:(simpl; lia)) as H.
    simpl in H. rewrite Nat.sub_0_r in H. rewrite H, take_ge by len. by len. }
  pose proof (write_loop_spec (Datatypes.S (length data)) i data bs 0
    (le_put 4 (Z.of_nat (length data)) ++ zeros (bs - 4)) s Hi) as Hw.
  ospecialize (Hw _ _ _ _ _); [lia|lia|intros; apply Hv; lia|done|simpl; lia|].
  replace (offset bs 0 (length data)) with 0%nat in Hw by (unfold offset; lia).
  destruct (write_loop _ _ _ _ _ _ _ _ s) as [[[]|e|] s']; [|done|done].
  destruct Hw as (?&?&Hc). split_and!; try done. intros j. apply Hc. lia.
Qed.

Lemma header_read bs data :
  (4 ≤ bs)%nat → Z.of_nat (length data) < 2 ^ 32 →
  ∃ h, gslice 0 4 (chunk bs 0 (payload data)) = Some h ∧ le_get h = Z.of_nat (length data).
Proof.
  intros Hb Hl. unfold gslice. rewrite length_chunk, decide_True by lia. eexists. split; [done|].
  unfold chunk. simpl (0 * bs)%nat. rewrite !drop_0.
  change (Z.to_nat (4 - 0)) with 4%nat. rewrite take_app_le by (unfold payload; len).
  rewrite take_take, Nat.min_l by lia. unfold payload. rewrite take_app_length' by len.
  rewrite le_get_put. apply wrap_id. unfold in_width. simpl. lia.
Qed.

Lemma offset_0 bs len : offset bs 0 len = 0%nat.
Proof. unfold offset. lia. Qed.

Lemma first_block s i bs data :
  inode_stored s i bs data → (0 < length data)%nat →
  stored s (inode_ref i 1) = Some (chunk bs 0 (payload data)).
Proof. intros Hst Hl. apply (Hst 0%nat). rewrite offset_0. lia. Qed.

Lemma get_data_spec i data bs s :
  inv s → is_open s → (4 ≤ bs)%nat → (0 < length data)%nat → Z.of_nat (length data) < 2 ^ 32 →
  inode_stored s i bs data →
  ∃ s', get_data i s = (Ok data, s') ∧ store_ext s s' ∧ ∀ r, stored s' r = stored s r.
Proof.
  intros Hi Hop Hb H0 Hl Hst. unfold get_data.
  destruct (store_get_run s _ _ Hi Hop (first_block _ _ _ _ Hst H0)) as (sl & s1 & Hg & Hd & He & Hs).
  run_step Hg. rewrite (bind_step (gets _) _ s1 (deref s1 sl) s1), Hd by done.
  destruct (header_read bs data Hb Hl) as (h & Hh & Hlen). rewrite Hh.
  rewrite (bind_step (lift _) _ s1 h s1) by done. cbv zeta. rewrite Hlen, Nat2Z.id.
  destruct (get_loop_spec (Datatypes.S (length data)) i data bs 0 (chunk bs 0 (payload data)) s1)
    as (s' & Hr & He' & Hs'); [apply He|by apply (ext_open _ _ He)|done| |done| |].
  { intros j Hj. unfold chunk_stored. rewrite Hs. by apply Hst. }
  { rewrite offset_0. simpl. lia. }
  rewrite offset_0 in Hr. simpl in Hr. rewrite Nat.sub_0_r in Hr.
  exists s'. split; [exact Hr|]. split; [by eapply store_ext_trans|]. intros r. by rewrite Hs', Hs.
Qed.
End proofs.

Section deletion.
Context {S : Type} `{L : BlockStoreLaws S}.

Lemma delete_loop_spec k i j (s : S) :
  inv s → is_open s → (∀ j', j ≤ j' < j + Z.of_nat k → is_Some (stored s (inode_ref i j'))) →
  ∃ s', delete_loop k i j s = (Ok tt, s') ∧ inv s' ∧
    (∀ j', j ≤ j' < j + Z.of_nat k → stored s' (inode_ref i j') = None) ∧
    (∀ r, (∀ j', j ≤ j' < j + Z.of_nat k → r ≠ inode_ref i j') → stored s' r = stored s r).
Proof.
  revert j s. induction k as [|k IH]; intros j s Hi Hop Hst; cbn [delete_loop].
  { exists s. split_and!; try done. lia. }
  destruct (Hst j) as [d Hd]; [lia|].
  destruct (store_delete_run s _ d Hi Hop Hd) as (s1 & Hdel & Hi1 & Ho1 & _ & Hn & Hk).
  run_step Hdel. destruct (IH (j + 1) s1 Hi1 Ho1) as (s' & Hr & Hi' & Hgone & Hkept).
  { intros j' Hj'. rewrite Hk; [apply Hst; lia|]. intros E%inode_ref_inj. lia. }
  exists s'. split_and!; [done|done| |].
  - intros j' Hj'. destruct (decide (j' = j)) as [->|]; [|apply Hgone; lia].
    rewrite Hkept; [done|]. intros j' Hj2 E%inode_ref_inj. lia.
  - intros r Hr'. rewrite Hkept by (intros; apply Hr'; lia). apply Hk, Hr'. lia.
Qed.

(** The number of blocks [DeleteINode] computes against the number there are. *)
Lemma delete_count bs len k :
  (4 ≤ bs)%nat → (0 < len)%nat → Z.of_nat k < Z.of_nat len / Z.of_nat bs + 1 → offset bs k len ≠ len.
Proof.
  intros Hb Hl Hk. pose proof (div_mod_split (Z.of_nat len) (Z.of_nat bs) ltac:(lia)) as [Hd Hm].
  unfold offset. nia.
Qed.

Lemma delete_count_exact bs len k :
  (4 ≤ bs)%nat → (0 < len)%nat → (len `mod` bs + 4 ≤ bs)%nat → offset bs k len ≠ len →
  Z.of_nat k < Z.of_nat len / Z.of_nat bs + 1.
Proof.
  intros Hb Hl Hm Ho. pose proof (Nat.div_mod_eq len bs). rewrite <-Nat2Z.inj_div.
  unfold offset in Ho. assert (k < len / bs + 1)%nat; [|lia]. nia.
Qed.

Lemma delete_count_short bs len :
  (4 ≤ bs)%nat → (bs < len `mod` bs + 4)%nat →
  offset bs (len / bs + 1) len ≠ len.
Proof. intros Hb Hm. pose proof (Nat.div_mod_eq len bs). unfold offset. nia. Qed.

Lemma DeleteINode_run (i : INodeRef) (data : bytes) (s : S) (bs := Z.to_nat (BlockSize s)) :
  inv s → is_open s → INode i ≠ 0 → 4 ≤ BlockSize s → (0 < length data)%nat →
  Z.of_nat (length data) < 2 ^ 32 → inode_stored s i bs data →
  let n := Z.of_nat (length data) / BlockSize s + 1 in
  ∃ s', DeleteINode i s = (Ok tt, s') ∧ inv s' ∧
    (∀ j, 1 ≤ j ≤ n → stored s' (inode_ref i j) = None) ∧
    (∀ r, (∀ j, 1 ≤ j ≤ n → r ≠ inode_ref i j) → stored s' r = stored s r).
Proof.
  intros Hi Hop Hnz Hb H0 Hl Hst n. unfold DeleteINode. rewrite decide_False by done.
  destruct (store_get_run s _ _ Hi Hop (first_block _ _ _ _ Hst H0)) as (sl & s1 & Hg & Hd & He & Hs).
  run_step Hg. rewrite (bind_step (gets _) _ s1 (deref s1 sl) s1), Hd by done.
  destruct (header_read bs data ltac:(lia) Hl) as (h & Hh & Hlen). rewrite Hh.
  rewrite (bind_step (lift _) _ s1 h s1) by done.
  rewrite (bind_step (gets _) _ s1 (BlockSize s1) s1), (ext_size _ _ He) by done.
  rewrite decide_False by lia. rewrite Hlen. fold n.
  assert (0 ≤ Z.of_nat (length data) / BlockSize s) as Hn0 by (apply Z.div_pos; lia).
  destruct (delete_loop_spec (Z.to_nat n) i 1 s1) as (s' & Hr & Hi' & Hgone & Hkept);
    [apply He|by apply (ext_open _ _ He)| |].
  - intros j Hj. rewrite Hs. replace j with (Z.of_nat (Z.to_nat (j - 1)) + 1) by lia.
    eexists. apply Hst. apply delete_count; [lia|done|].
    replace (Z.of_nat bs) with (BlockSize s) by lia. unfold n in *. lia.
  - exists s'. split; [exact Hr|]. split; [done|]. split.
    + intros j Hj. apply Hgone. unfold n in *. lia.
    + intros r Hr'. rewrite Hkept, Hs; [done|]. intros j Hj. apply Hr'. unfold n in *. lia.
Qed.
End deletion.

Section theorems.
Context {S : Type} `{L : BlockStoreLaws S} `{RG : Range}.

(** What [WriteINode] does to the store. *)
Lemma inode_write_spec (i : INodeRef) (x : MINode) (s : S) :
  inv s → is_open s → INode i ≠ 0 → 4 ≤ BlockSize s →
  INode_valid x → 0 < INode_Size x < 2 ^ 32 →
  (∀ j, 1 ≤ j ≤ INode_Size x + 1 → valid (inode_ref i j)) →
  match WriteINode i x s with
  | (Ok _, s') =>
      store_ext s s' ∧ (∀ r, outside i 0 r → stored s' r = stored s r) ∧
      ∃ s2, GetINode i s' = (Ok x, s2) ∧ store_ext s' s2 ∧ ∀ r, stored s2 r = stored s' r
  | (Err _, s') => store_ext s s' ∧ ∀ r, outside i 0 r → stored s' r = stored s r
  | (Panic, _) => False
  end.
Proof.
  intros Hi Hop Hnz Hb Hx' Hl Hv. assert (msg_valid x) as Hx by exact Hx'.
  unfold WriteINode. rewrite decide_False by done.
  pose proof (msg_length x Hx) as Hlen. change (msg_Size x) with (INode_Size x) in Hlen.
  rewrite (Marshal_enc x Hx), (bind_step (lift _) _ s (msg_enc x) s) by done.
  pose proof (Unmarshal_enc x Hx) as Hun. change msg_zero with INode_zero in Hun.
  rewrite <-Hlen in Hl, Hv. set (d := msg_enc x) in *. clearbody d.
  pose proof (inode_write_data_spec i d s Hi Hb ltac:(lia) Hv) as Hw.
  destruct (write_data i d s) as [[[]|e|] s']; [|done|done].
  destruct Hw as (He & Hk & Hst). split; [done|]. split; [done|].
  destruct (get_data_spec i d (Z.to_nat (BlockSize s)) s') as (s2 & Hg & He2 & Hs2);
    [apply He|by apply (ext_open _ _ He)|lia|lia|lia|done|].
  exists s2. split; [|done]. unfold GetINode. rewrite decide_False by done. rewrite (bind_step _ _ _ _ _ Hg).
  unfold lift. by rewrite Hun.
Qed.

(** C9: over any block store satisfying the laws, writing an inode either fails
    with an error or makes [GetINode] return that inode, whatever its attributes
    and its block layers, the order its attributes are written in, and the
    number of blocks its encoding takes; no block but the inode's own is
    changed, and the loops terminate without panicking. *)
Theorem inode_write_read (i : INodeRef) (x : MINode) (s : S) :
  inv s → is_open s → INode i ≠ 0 → 4 ≤ BlockSize s →
  INode_valid x → 0 < INode_Size x < 2 ^ 32 →
  (∀ j, 1 ≤ j ≤ INode_Size x + 1 → valid (inode_ref i j)) →
  match WriteINode i x s with
  | (Ok _, s') =>
      (∃ s2, GetINode i s' = (Ok x, s2)) ∧ ∀ r, outside i 0 r → stored s' r = stored s r
  | (Err _, s') => ∀ r, outside i 0 r → stored s' r = stored s r
  | (Panic, _) => False
  end.
Proof.
  intros Hi Hop Hnz Hb Hx Hl Hv. pose proof (inode_write_spec i x s Hi Hop Hnz Hb Hx Hl Hv) as Hw.
  destruct (WriteINode i x s) as [[[]|e|] s']; [|by destruct Hw|done].
  destruct Hw as (_ & Hk & s2 & Hg & _). split; [by exists s2|done].
Qed.

(** The inode whose fields are all zero encodes to nothing and is never
    written: [WriteINode] reports success without storing a block. *)
Theorem empty_inode_not_written (i : INodeRef) (s : S) :
  INode i ≠ 0 → 4 ≤ BlockSize s → WriteINode i INode_zero s = (Ok tt, s).
Proof.
  intros Hnz Hb. assert (range ∅ = []) as Hr by (apply Permutation_nil; symmetry; apply range_perm).
  assert (Marshal INode_zero = Ok []) as Hm.
  { unfold Marshal, msg_MarshalTo, INode_Message, INode_MarshalTo. cbn [INode_zero IN_Attrs]. rewrite Hr. reflexivity. }
  unfold WriteINode. rewrite decide_False by done. unfold lift.
  rewrite Hm, (bind_step (λ s, (Ok [], s)) _ s [] s) by done. unfold write_data.
  rewrite (bind_step (gets _) _ s (Z.to_nat (BlockSize s)) s) by done. cbv zeta. unfold gslice.
  rewrite decide_True by (rewrite length_zeros; lia). reflexivity.
Qed.

(** Deleting a stored inode removes the blocks numbered 1 to
    [len / blocksize + 1] and nothing else.  These are all blocks of the inode
    when the length header fits in the last block's slack, and otherwise the
    last block stays in the store. *)
Theorem inode_delete (i : INodeRef) (data : bytes) (s : S) (bs := Z.to_nat (BlockSize s)) :
  inv s → is_open s → INode i ≠ 0 → 4 ≤ BlockSize s → (0 < length data)%nat →
  Z.of_nat (length data) < 2 ^ 32 → inode_stored s i bs data →
  ∃ s', DeleteINode i s = (Ok tt, s') ∧
    (∀ r, outside i 0 r → stored s' r = stored s r) ∧
    ((length data `mod` bs + 4 ≤ bs)%nat →
     ∀ k, offset bs k (length data) ≠ length data → stored s' (inode_ref i (Z.of_nat k + 1)) = None) ∧
    ((bs < length data `mod` bs + 4)%nat →
     let last := (length data / bs + 1)%nat in
     stored s' (inode_ref i (Z.of_nat last + 1)) = Some (chunk bs last (payload data))).
Proof.
  intros Hi Hop Hnz Hb H0 Hl Hst.
  destruct (DeleteINode_run i data s Hi Hop Hnz Hb H0 Hl Hst) as (s' & Hd & _ & Hgone & Hkept).
  assert (Z.of_nat bs = BlockSize s) as Hbs by (unfold bs; lia). rewrite <-Hbs in Hgone, Hkept.
  exists s'. split_and!; [done| | |].
  - intros r Hr. apply Hkept. intros j Hj. apply Hr. lia.
  - intros Hm k Hk. apply Hgone.
    pose proof (delete_count_exact bs (length data) k ltac:(lia) H0 Hm Hk). lia.
  - intros Hm last. rewrite Hkept.
    + apply Hst, delete_count_short; [lia|done].
    + intros j Hj E%inode_ref_inj. rewrite <-Nat2Z.inj_div in Hj. unfold last in E. lia.
Qed.
End theorems.

(** ** Iteration *)

Definition first_inode_block (r : BlockRef) : Prop :=
  BlockType r = BlockType_num TypeINode ∧ Index r = 1.

Section iteration.
Context {S : Type} `{IL : IteratorLaws S}.
Implicit Types (it : iterator (S := S)).

Lemma Next_filter n (s : S) it :
  iter_ok it → (length (iter_left it) < n)%nat →
  ∃ it', iter_ok it' ∧ (length (iter_left it') ≤ length (iter_left it))%nat ∧
    match filter first_inode_block (iter_left it) with
    | [] => Next n s it = (Ok false, it')
    | r :: l => Next n s it = (Ok true, it') ∧ iter_BlockRef it' = Ok r ∧ filter first_inode_block (iter_left it') = l ∧
        (length (iter_left it') < length (iter_left it))%nat
    end.
Proof.
  revert it. induction n as [|n IH]; intros it Hok Hn; [lia|]. cbn [Next]. destruct (iter_left it) as [|r l] eqn:E.
  { destruct (iter_end s it Hok E) as (it' & -> & Hok' & Hl & _). exists it'. rewrite Hl. by split_and!. }
  destruct (iter_step s it r l Hok E) as (it1 & -> & Hok1 & Hl1 & Hb1). rewrite Hb1. cbn [length] in Hn.
  rewrite list.filter_cons. destruct (decide (first_inode_block r)) as [Hr|Hr].
  - exists it1. rewrite !decide_True by done. rewrite Hl1. cbn [length]. split_and!; (done || lia).
  - rewrite !decide_False by done. destruct (IH it1 Hok1) as (it' & Hok' & Hle & Hm); [rewrite Hl1; lia|]. rewrite Hl1 in Hle, Hm.
    exists it'. cbn [length]. split; [done|]. split; [lia|]. destruct (filter first_inode_block l); [done|].
    destruct Hm as (? & ? & ? & ?). split_and!; (done || lia).
Qed.

Lemma visit_filter n (s : S) it :
  iter_ok it → (length (iter_left it) < n)%nat → visit n s it = Ok (br_inode <$> filter first_inode_block (iter_left it)).
Proof.
  revert it. induction n as [|n IH]; intros it Hok Hn; [lia|]. cbn [visit].
  destruct (Next_filter (Datatypes.S n) s it Hok Hn) as (it' & Hok' & Hle & Hm).
  destruct (filter first_inode_block (iter_left it)) as [|r l]; [by rewrite Hm|].
  destruct Hm as (-> & Hr & Hl & Hlt). unfold iter_INodeRef. rewrite Hr. cbn. by rewrite IH, Hl by (done || lia).
Qed.

(** Iterating over the inodes of a store visits the inode of every first
    inode block the block iterator gives, once for each and in its order. *)
Theorem inode_iterator_visits (s : S) (fuel : nat) :
  (length (iter_left (BlockIterator s)) < fuel)%nat →
  visit fuel s (INodeIterator s) = Ok (br_inode <$> filter first_inode_block (iter_left (BlockIterator s))).
Proof. apply visit_filter, iter_new. Qed.
End iteration.

(** ** Examples over the in-memory store *)

#[local] Existing Instance map_range.

Definition ex_inode : MINode := mkMINode 1 2 5 ∅ [].
Definition ex_data : bytes := [x08; x01; x10; x02; x20; x05].
Definition ex_temp : tempBlockStore := mkTemp ∅ 1%positive (Some ∅) 8 "current" 8.
Definition ex_ref : INodeRef := mkINodeRef 1 2.

Lemma ex_temp_inv : temp_inv ex_temp.
Proof. apply (open_inv "current" 64 8); [lia|reflexivity]. Qed.

Lemma ex_inode_valid : INode_valid ex_inode.
Proof.
  unfold INode_valid. split_and!; try (unfold in_width; cbn; lia); [|constructor|reflexivity].
  constructor.
Qed.

Lemma inode_write_read_witness :
  ∃ s' s2, WriteINode (S := tempBlockStore) ex_ref ex_inode ex_temp = (Ok tt, s') ∧
           GetINode (S := tempBlockStore) ex_ref s' = (Ok ex_inode, s2).
Proof.
  pose proof (inode_write_read (S := tempBlockStore) ex_ref ex_inode ex_temp ex_temp_inv
    ltac:(by eexists) ltac:(done) ltac:(done) ex_inode_valid ltac:(vm_compute; done)
    ltac:(done)) as Hw.
  destruct (WriteINode ex_ref ex_inode ex_temp) as [[[]|e|] s'] eqn:E.
  - destruct Hw as [[s2 Hg] _]. exists s', s2. split; [reflexivity|exact Hg].
  - exfalso. vm_compute in E. discriminate.
  - exfalso. exact Hw.
Defined.

Lemma empty_inode_not_written_witness :
  WriteINode (S := tempBlockStore) ex_ref INode_zero ex_temp = (Ok tt, ex_temp).
Proof. apply (empty_inode_not_written (S := tempBlockStore) ex_ref ex_temp); done. Defined.

Lemma ex_written :
  ∃ s, WriteINode (S := tempBlockStore) ex_ref ex_inode ex_temp = (Ok tt, s) ∧ Store.inv s ∧
       Store.is_open s ∧ BlockSize s = 8 ∧ inode_stored s ex_ref 8 ex_data.
Proof.
  pose proof (inode_write_data_spec (S := tempBlockStore) ex_ref ex_data ex_temp ex_temp_inv) as Hw.
  ospecialize (Hw _ _ _); [done|simpl; lia|done|].
  assert (WriteINode ex_ref ex_inode ex_temp = write_data (S := tempBlockStore) ex_ref ex_data ex_temp) as ->.
  { vm_compute. reflexivity. }
  destruct (write_data ex_ref ex_data ex_temp) as [[[]|e|] s'] eqn:E.
  - destruct Hw as ([] & _ & Hst). exists s'. split; [reflexivity|]. split; [exact ext_inv|].
    split; [apply ext_open; by eexists|]. split; [exact ext_size|exact Hst].
  - exfalso. vm_compute in E. discriminate.
  - exfalso. exact Hw.
Qed.

Lemma inode_delete_witness :
  ∃ s s', WriteINode (S := tempBlockStore) ex_ref ex_inode ex_temp = (Ok tt, s) ∧
    DeleteINode (S := tempBlockStore) ex_ref s = (Ok tt, s') ∧
    stored s' (inode_ref ex_ref 2) = Some [x20; x05; x00; x00; x00; x00; x00; x00].
Proof.
  destruct ex_written as (s & Hw & Hi & Ho & Hb & Hst).
  destruct (inode_delete (S := tempBlockStore) ex_ref ex_data s Hi Ho ltac:(done) ltac:(lia)
    ltac:(simpl; lia) ltac:(simpl; lia) ltac:(rewrite Hb; exact Hst)) as (s' & Hd & _ & _ & Hlast).
  exists s, s'. split; [exact Hw|]. split; [exact Hd|]. rewrite Hb in Hlast.
  apply Hlast. vm_compute. lia.
Defined.
