(* ===== verification/File.v ===== *)
(** * Files

    Models [src/file_cache.go] and [src/file.go]: a file is an inode, a
    blockset and a cache of one block being written and one block being read.
    The cache holds slices, so a block read from the store and then written to
    is changed in the memory the store gave out.  The state of an operation is
    the file, the block store of the server and its metadata service; the mutex
    of a file makes its reads and writes atomic.  Metrics, log lines and the
    context argument are left out, and so is the field [changed], which is
    never used. *)
From S2P Require Import Prelude GoSem Refs Store Crc32 Blockset Proto Models INodeStore.

(** The method of the metadata service a file uses. *)
Class MDS (D : Type) := { CommitINodeIndex : Z → M D Z }.

Section file.
Context {S : Type} `{B : BlockStore S} {D : Type} `{MDS D} `{Range} `{Godbc}.

Record singleBlockCache := mkCache {
  openIdx : Z;
  openData : option slice;  (** [None] is the nil slice *)
  openWrote : bool;
  cref : INodeRef;
  readIdx : Z;
  readData : option slice;
  cblkSize : Z;
}.

(** [blocks] is the blockset of the file and of its cache, one object. *)
Record File := mkFile {
  blkSize : Z;
  offset : Z;
  ReadOnly : bool;
  volume : Models.Volume;
  inode : MINode;
  blocks : blockset;
  replaces : Z;
  cache : singleBlockCache;
  writeINodeRef : INodeRef;
  writeOpen : bool;
}.

Record state := mkState { file : File; store : S; mds : D }.

Definition set_file (f : File) : M state unit := modify (λ e, mkState f (store e) (mds e)).
Definition set_cache (c : singleBlockCache) : M state unit :=
  f ← gets file;
  set_file (mkFile (blkSize f) (offset f) (ReadOnly f) (volume f) (inode f) (blocks f) (replaces f) c
    (writeINodeRef f) (writeOpen f)).
Definition set_inode (i : MINode) : M state unit :=
  f ← gets file;
  set_file (mkFile (blkSize f) (offset f) (ReadOnly f) (volume f) i (blocks f) (replaces f) (cache f)
    (writeINodeRef f) (writeOpen f)).
Definition set_offset (o : Z) : M state unit :=
  f ← gets file;
  set_file (mkFile (blkSize f) o (ReadOnly f) (volume f) (inode f) (blocks f) (replaces f) (cache f)
    (writeINodeRef f) (writeOpen f)).

(** A call on the block store, on the metadata service, on the blockset. *)
Definition on_store {A} (m : M S A) : M state A := λ e,
  let '(r, s) := m (store e) in (r, mkState (file e) s (mds e)).
Definition on_mds {A} (m : M D A) : M state A := λ e,
  let '(r, d) := m (mds e) in (r, mkState (file e) (store e) d).
Definition set_blocks (b : blockset) (f : File) : File :=
  mkFile (blkSize f) (offset f) (ReadOnly f) (volume f) (inode f) b (replaces f) (cache f)
    (writeINodeRef f) (writeOpen f).
Definition on_blocks {A} (m : blockset → S → res A * blockset * S) : M state A := λ e,
  let '(r, b, s) := m (blocks (file e)) (store e) in (r, mkState (set_blocks b (file e)) s (mds e)).

(** The bytes a slice shows; the nil slice is empty. *)
Definition contents (o : option slice) : M state bytes :=
  gets (λ e, match o with Some sl => deref (store e) sl | None => [] end).

(** ** The cache *)

Definition newSingleBlockCache (bsz : Z) : singleBlockCache :=
  mkCache (-1) None false (mkINodeRef 0 0) (-1) None bsz.

Definition newINode (ref : INodeRef) : M state unit :=
  c ← gets (λ e, cache (file e));
  set_cache (mkCache (openIdx c) (openData c) (openWrote c) ref (readIdx c) (readData c) (cblkSize c)).

Definition set_open (i : Z) (d : option slice) : M state unit :=
  c ← gets (λ e, cache (file e));
  set_cache (mkCache i d (openWrote c) (cref c) (readIdx c) (readData c) (cblkSize c)).
Definition set_read (i : Z) (d : option slice) : M state unit :=
  c ← gets (λ e, cache (file e));
  set_cache (mkCache (openIdx c) (openData c) (openWrote c) (cref c) i d (cblkSize c)).
Definition set_wrote (w : bool) : M state unit :=
  c ← gets (λ e, cache (file e));
  set_cache (mkCache (openIdx c) (openData c) w (cref c) (readIdx c) (readData c) (cblkSize c)).

(** The flag is cleared whether or not the block could be put. *)
Definition sync : M state unit :=
  c ← gets (λ e, cache (file e));
  if openWrote c then
    d ← contents (openData c);
    r ← try (on_blocks (PutBlock (cref c) (openIdx c) d));
    _ ← set_wrote false;
    match r with inl _ => mret tt | inr e => throw e end
  else mret tt.

Definition get_block (i : Z) : M state slice :=
  b ← gets (λ e, blocks (file e));
  on_store (Blockset.GetBlock b i).

Definition openBlock (i : Z) : M state unit :=
  c ← gets (λ e, cache (file e));
  if decide (openIdx c = i ∧ openData c ≠ None) then mret tt
  else
    _ ← (if openWrote c then sync else mret tt);
    n ← (b ← gets (λ e, blocks (file e)); lift (Length b));
    if decide (i = n) then
      sl ← on_store (λ s, let '(sl, s') := mk_slice (zeros (Z.to_nat (cblkSize c))) s in (Ok sl, s'));
      set_open i (Some sl)
    else if decide (n < i) then panic
    else
      c1 ← gets (λ e, cache (file e));
      if decide (readIdx c1 = i) then
        _ ← set_open i (readData c1);
        set_read (-1) None
      else
        sl ← get_block i;
        set_open i (Some sl).

Definition cache_writeToBlock (i from to : Z) (data : bytes) : M state Z :=
  c ← gets (λ e, cache (file e));
  _ ← (if decide (openIdx c ≠ i) then openBlock i else mret tt);
  _ ← set_wrote true;
  if decide (to - from ≠ Z.of_nat (length data)) then panic
  else
    o ← gets (λ e, openData (cache (file e)));
    d ← contents o;
    _ ← lift (or_panic (gslice from to d));
    _ ← match o with
        | Some sl => on_store (λ s, (Ok tt, copy_to sl (Z.to_nat from) data s))
        | None => mret tt
        end;
    mret (Z.of_nat (length data)).

Definition openRead (i : Z) : M state unit :=
  sl ← get_block i;
  set_read i (Some sl).

Definition getBlock (i : Z) : M state (option slice) :=
  c ← gets (λ e, cache (file e));
  if decide (openIdx c = i) then mret (openData c)
  else
    _ ← (if decide (readIdx c ≠ i) then openRead i else mret tt);
    gets (λ e, readData (cache (file e))).

(** ** The file *)

Definition CreateFile (bsz : Z) (v : Models.Volume) (i : MINode) (b : blockset) : File :=
  mkFile bsz 0 false v i b 0 (newSingleBlockCache bsz) (mkINodeRef 0 0) false.

Definition openWrite : M state unit :=
  f ← gets file;
  if ReadOnly f then throw ErrLocked
  else if writeOpen f then mret tt
  else
    let vid := VId (volume f) in
    newINodeIdx ← on_mds (CommitINodeIndex vid);
    ref ← lift (NewINodeRef vid newINodeIdx);
    let i := inode f in
    _ ← set_file (mkFile (blkSize f) (offset f) (ReadOnly f) (volume f)
          (mkMINode (IN_Volume i) newINodeIdx (IN_Filesize i) (IN_Attrs i) (IN_Blocks i))
          (blocks f) (IN_INode i) (cache f) ref true);
    newINode ref.

Definition set_Filesize (n : Z) : M state unit :=
  i ← gets (λ e, inode (file e));
  set_inode (mkMINode (IN_Volume i) (IN_INode i) n (IN_Attrs i) (IN_Blocks i)).

(** Go's [/] and [%] on integers; a zero divisor panics. *)
Definition div_int (a b : Z) : res Z := if decide (b = 0) then Panic else Ok (Z.quot a b).
Definition rem_int (a b : Z) : res Z := if decide (b = 0) then Panic else Ok (Z.rem a b).

(** The result of [Blockset.Truncate] is ignored. *)
Definition Truncate (size : Z) : M state unit :=
  _ ← openWrite;
  f ← gets file;
  q ← lift (div_int size (blkSize f));
  r ← lift (rem_int size (blkSize f));
  let nBlocks := if decide (r ≠ 0) then q + 1 else q in
  _ ← try (on_blocks (λ b s, (Blockset.Truncate nBlocks (blkSize f) b, s)));
  set_Filesize (wrap64 size).

Definition Trim (off len : Z) : M state unit :=
  _ ← openWrite;
  f ← gets file;
  q ← lift (div_int off (blkSize f));
  r ← lift (rem_int off (blkSize f));
  let blkFrom := if decide (r ≠ 0) then q + 1 else q in
  blkTo ← lift (div_int (off + len) (blkSize f));
  on_blocks (λ b s, (Blockset.Trim (BlockSize s) blkFrom blkTo b, s)).

(** ** Writing

    A call gives the number of bytes written and the error, as in Go; the
    loops carry what is left to write, the count and the offset. *)
Definition ErrFirstBlock : error := ErrMsg "Couldn't write all of the first block at the offset".
Definition ErrLastBlock : error := ErrMsg "Couldn't write all of the last block".

(** Whole blocks go straight to the blockset. *)
Fixpoint write_bulk (fuel : nat) (b : bytes) (n off : Z) : M state (bytes * Z * Z * option error) :=
  f ← gets file;
  if decide (Z.of_nat (length b) < blkSize f) then mret (b, n, off, None)
  else
    match fuel with
    | O => panic
    | Datatypes.S fuel' =>
        blkIndex ← lift (div_int off (blkSize f));
        chunk ← lift (or_panic (gslice 0 (blkSize f) b));
        r ← try (on_blocks (PutBlock (writeINodeRef f) blkIndex chunk));
        match r with
        | inr e => mret (b, n, off, Some e)
        | inl _ => write_bulk fuel' (drop (Z.to_nat (blkSize f)) b) (n + blkSize f) (off + blkSize f)
        end
    end.

Definition write_tail (b : bytes) (n off : Z) : M state (Z * Z * option error) :=
  f ← gets file;
  r ← lift (rem_int off (blkSize f));
  if decide (r ≠ 0) then panic
  else
    blkIndex ← lift (div_int off (blkSize f));
    let toWrite := Z.of_nat (length b) in
    w ← try (cache_writeToBlock blkIndex 0 toWrite b);
    match w with
    | inr e => mret (n, off, Some e)
    | inl wrote =>
        if decide (wrote ≠ toWrite) then mret (n, off, Some ErrLastBlock)
        else mret (n + wrote, off + wrote, None)
    end.

(** From the first block boundary on. *)
Definition write_aligned (b : bytes) (n off : Z) : M state (Z * Z * option error) :=
  if decide (length b = 0%nat) then mret (n, off, None)
  else
    f ← gets file;
    r ← lift (rem_int off (blkSize f));
    if decide (r ≠ 0) then panic
    else
      '(b', n', off', err) ← write_bulk (Datatypes.S (length b)) b n off;
      match err with
      | Some e => mret (n', off', Some e)
      | None => if decide (length b' = 0%nat) then mret (n', off', None) else write_tail b' n' off'
      end.

(** The bytes up to the first block boundary, then the rest. *)
Definition write_front (b : bytes) (off blkIndex : Z) : M state (Z * Z * option error) :=
  f ← gets file;
  let blkOff := off - blkSize f * blkIndex in
  if decide (blkOff = 0) then write_aligned b 0 off
  else
    let toWrite := Z.of_nat (length b) in
    let frontlen := if decide (toWrite < blkSize f - blkOff) then toWrite else blkSize f - blkOff in
    chunk ← lift (or_panic (gslice 0 frontlen b));
    w ← try (cache_writeToBlock blkIndex blkOff (blkOff + frontlen) chunk);
    match w with
    | inr e => mret (0, off, Some e)
    | inl wrote =>
        if decide (wrote ≠ frontlen) then mret (0, off, Some ErrFirstBlock)
        else write_aligned (drop (Z.to_nat frontlen) b) wrote (off + wrote)
    end.

Definition write_body (b : bytes) (off : Z) : M state (Z * Z * option error) :=
  f ← gets file;
  blkIndex ← lift (div_int off (blkSize f));
  len ← lift (Length (blocks f));
  r ← (if decide (len + 1 < blkIndex) then try (Truncate off) else mret (inl tt));
  match r with
  | inr e => mret (0, off, Some e)
  | inl _ => write_front b off blkIndex
  end.

(** The deferred function sees the last value of the offset. *)
Definition WriteAt (b : bytes) (off : Z) : M state (Z * option error) :=
  o ← try openWrite;
  match o with
  | inr e => mret (0, Some e)
  | inl _ =>
      '(n, off', err) ← write_body b off;
      i ← gets (λ e, inode (file e));
      _ ← (if decide (to_signed 64 (IN_Filesize i) < off') then set_Filesize (wrap64 off') else mret tt);
      mret (n, err)
  end.

Definition Write (b : bytes) : M state (Z * option error) :=
  off ← gets (λ e, offset (file e));
  '(n, err) ← WriteAt b off;
  f ← gets file;
  _ ← set_offset (offset f + n);
  mret (n, err).

(** ** Reading

    The buffer [b] is returned with what was copied into it. *)
Fixpoint read_loop (fuel : nat) (b : bytes) (toRead n off : Z) : M state (bytes * Z * option error) :=
  if decide (toRead ≤ n) then mret (b, n, None)
  else
    match fuel with
    | O => panic
    | Datatypes.S fuel' =>
        f ← gets file;
        blkIndex ← lift (div_int off (blkSize f));
        let blkOff := off - blkSize f * blkIndex in
        r ← try (getBlock blkIndex);
        match r with
        | inr e => mret (b, n, Some e)
        | inl o =>
            blk ← contents o;
            let thisRead := if decide (toRead - n < blkSize f - blkOff) then toRead - n else blkSize f - blkOff in
            src ← lift (or_panic (gslice blkOff (blkOff + thisRead) blk));
            let count := Z.of_nat (copied (Z.to_nat n) src b) in
            read_loop fuel' (blit (Z.to_nat n) src b) toRead (n + count) (off + count)
        end
    end.

Definition ReadAt (b : bytes) (off : Z) : M state (bytes * Z * option error) :=
  i ← gets (λ e, inode (file e));
  let size := to_signed 64 (IN_Filesize i) in
  let long := bool_decide (size < to_signed 64 (Z.of_nat (length b) + off)) in
  let toRead := if long then size - off else Z.of_nat (length b) in
  '(b', n, err) ← read_loop (Datatypes.S (length b)) b toRead 0 off;
  match err with
  | Some e => mret (b', n, Some e)
  | None => mret (b', n, if long then Some EOF else None)
  end.

Definition Read (b : bytes) : M state (bytes * Z * option error) :=
  off ← gets (λ e, offset (file e));
  '(b', n, err) ← ReadAt b off;
  f ← gets file;
  _ ← set_offset (offset f + n);
  mret (b', n, err).

Inductive whence := SEEK_SET | SEEK_CUR | SEEK_END.

Definition Seek (o : Z) (w : whence) : M state Z :=
  f ← gets file;
  match w with
  | SEEK_SET => _ ← set_offset o; mret o
  | SEEK_CUR => _ ← set_offset (offset f + o); mret o
  | SEEK_END => throw (ErrMsg "invalid whence")
  end.

Definition Size : M state Z := gets (λ e, IN_Filesize (inode (file e))).

(** ** Syncing *)

Definition SyncBlocks : M state unit :=
  _ ← sync;
  on_store Store.Flush.

Definition SyncINode : M state INodeRef :=
  f ← gets file;
  let ref := writeINodeRef f in
  blkdata ← lift (MarshalBlocksetToProto (blocks f));
  let i := inode f in
  let i' := mkMINode (IN_Volume i) (IN_INode i) (IN_Filesize i) (IN_Attrs i) blkdata in
  _ ← set_inode i';
  if decide (IN_Volume i' ≠ VId (volume f)) then panic
  else
    _ ← on_store (WriteINode ref i');
    f' ← gets file;
    _ ← set_file (mkFile (blkSize f') (offset f') (ReadOnly f') (volume f') (inode f') (blocks f')
          (replaces f') (cache f') (writeINodeRef f') false);
    mret ref.

Definition SyncAllWrites : M state INodeRef :=
  _ ← SyncBlocks;
  SyncINode.
End file.
