(* ===== verification/FileSpec.v ===== *)
(** * Correctness of files

    The theorems about [File]: a file over a stack of checksum layers behaves
    as an array of bytes as long as no whole-block write hits a block held in
    the cache, and what goes wrong where that condition, or the store, fails. *)
From S2P Require Import Prelude GoSem Refs TempStore Store Crc32 Blockset BlocksetSpec Proto Models INodeStore File.

(** ** Blocksets with one block left out *)

Fixpoint base_refs (b : blockset) : list BlockRef :=
  match b with
  | baseBlockset _ bl _ _ => bl
  | crcBlockset sub _ _ => base_refs sub
  | _ => []
  end.

(** Block [i] reset to zeros in every layer; [z] is the zero block. *)
Fixpoint hole (z : bytes) (i : nat) (b : blockset) : blockset :=
  match b with
  | baseBlockset ids bl st bsz => baseBlockset ids (<[i := ZeroBlock]> bl) st bsz
  | crcBlockset sub crcs e => crcBlockset (hole z i sub) (<[i := ChecksumIEEE z]> crcs) e
  | _ => b
  end.

Lemma base_refs_hole z i b : base_refs (hole z i b) = <[i := ZeroBlock]> (base_refs b).
Proof. induction b; simpl; auto. Qed.

Lemma counter_hole z i b : counter (hole z i b) = counter b.
Proof. induction b; simpl; auto. Qed.

Lemma no_replication_hole z i b : no_replication b → no_replication (hole z i b).
Proof. induction b; simpl; auto. Qed.

Lemma each_ref_base P b : no_replication b → each_ref P b ↔ Forall P (base_refs b).
Proof. induction b; simpl; [done|done|done|done]. Qed.

(** Block [i] replaced by [r] holding [d], and the counter moved on. *)
Fixpoint filled (r : BlockRef) (d : bytes) (i : nat) (b : blockset) : blockset :=
  match b with
  | baseBlockset ids bl st bsz => baseBlockset (wrap64 (ids + 1)) (<[i := r]> bl) st bsz
  | crcBlockset sub crcs e => crcBlockset (filled r d i sub) (<[i := ChecksumIEEE d]> crcs) e
  | _ => b
  end.
Fixpoint bumped (b : blockset) : blockset :=
  match b with
  | baseBlockset ids bl st bsz => baseBlockset (wrap64 (ids + 1)) bl st bsz
  | crcBlockset sub crcs e => crcBlockset (bumped sub) crcs e
  | _ => b
  end.

Lemma filled_hole r d z i b : filled r d i (hole z i b) = filled r d i b.
Proof. induction b; simpl; f_equal; auto using list_insert_insert_eq. Qed.
Lemma hole_filled r d z i j b : i ≠ j → hole z i (filled r d j b) = filled r d j (hole z i b).
Proof. intros Hne. induction b; simpl; f_equal; auto using list_insert_insert_ne. Qed.
Lemma base_refs_filled r d i b : base_refs (filled r d i b) = <[i := r]> (base_refs b).
Proof. induction b; simpl; auto. Qed.
Lemma base_refs_bumped b : base_refs (bumped b) = base_refs b.
Proof. induction b; simpl; auto. Qed.
Lemma no_replication_filled r d i b : no_replication b → no_replication (filled r d i b).
Proof. induction b; simpl; auto. Qed.

(** A stack over a store with lists of [n] entries in every layer. *)
Fixpoint sized (b : blockset) (n : nat) : Prop :=
  match b with
  | baseBlockset _ bl st _ => st = true ∧ length bl = n
  | crcBlockset sub crcs _ => sized sub n ∧ length crcs = n
  | _ => False
  end.

Lemma sized_hole z i b n : sized (hole z i b) n ↔ sized b n.
Proof.
  induction b as [|ids bl st bz|sub IH crcs e|]; simpl; [done| | |done]; rewrite length_insert; [done|].
  by rewrite IH.
Qed.
Lemma sized_refs b n : sized b n → length (base_refs b) = n.
Proof. induction b; simpl; naive_solver. Qed.
Lemma sized_Length b n : sized b n → Length b = Ok (Z.of_nat n).
Proof.
  induction b as [|ids bl st bz|sub IH crcs e|]; simpl; [done|by intros [_ ->]| |done].
  intros [Hs ->]. rewrite (IH Hs). cbn. by rewrite decide_False by auto.
Qed.
Lemma counter_filled r d i b n :
  sized b n → 0 ≤ counter b → counter b + 1 < 2 ^ 64 → counter (filled r d i b) = counter b + 1.
Proof.
  intros Hs H0 H1. induction b as [|ids bl st z|sub IH crcs e|]; [done| | |done]; cbn [counter filled] in *.
  - apply wrap_id. unfold in_width. lia.
  - destruct Hs as [Hs _]. by apply IH.
Qed.

Section blocks.
Context {S : Type} `{L : BlockStoreLaws S}.
Implicit Types (s : S) (b : blockset) (vs : list bytes).

Lemma repr_sized b s vs : no_replication b → repr b s vs → sized b (length vs).
Proof.
  induction b as [|ids bl st z|sub IH crcs e|]; simpl; [done| | |done].
  - intros _ [-> Hh]. split; [done|]. exact (Forall2_length Hh).
  - intros Hn [Hr ->]. split; [by apply IH|]. apply length_fmap.
Qed.

Lemma hole_repr i b s vs :
  no_replication b → repr b s vs →
  repr (hole (zeros (Z.to_nat (BlockSize s))) i b) s (<[i := zeros (Z.to_nat (BlockSize s))]> vs).
Proof.
  induction b as [|ids bl st z|sub IH crcs e|]; simpl; [done| | |done].
  - intros _ [-> Hh]. split; [done|]. apply Forall2_insert; [done|apply holds_zero].
  - intros Hn [Hr ->]. split; [by apply IH|]. by rewrite list_fmap_insert.
Qed.

Lemma filled_repr r d i b s vs :
  no_replication b → repr b s vs → holds s r d → repr (filled r d i b) s (<[i := d]> vs).
Proof.
  induction b as [|ids bl st z|sub IH crcs e|]; simpl; [done| | |done].
  - intros _ [-> Hh] Hr. split; [done|]. by apply Forall2_insert.
  - intros Hn [Hr ->] Hd. split; [by apply IH|]. by rewrite list_fmap_insert.
Qed.

(** A put into a stack without replication is one write to the store. *)
Lemma put_write inode (i n : nat) d b s (r := mkBlockRef inode (wrap64 (counter b + 1))) :
  sized b n → (i < n)%nat →
  PutBlock inode (Z.of_nat i) d b s =
  match WriteBlock r d s with
  | (Ok _, s') => (Ok tt, filled r d i b, s')
  | (Err e, s') => (Err e, bumped b, s')
  | (Panic, s') => (Panic, bumped b, s')
  end.
Proof.
  assert (∀ {A} (x : A) l, (i < length l)%nat → set_at (Z.of_nat i) x l = Some (<[i := x]> l)) as Hset.
  { intros A x l Hl. unfold set_at, gassign. rewrite decide_False, decide_True, Nat2Z.id by lia. done. }
  intros Hr Hi. unfold r. clear r. induction b as [|ids bl st z|sub IH crcs e|]; [done| | |done]; layers.
  - destruct Hr as [-> Hl]. rewrite decide_False by lia. cbn [counter].
    unfold Blockset.on_store. destruct (WriteBlock _ d s) as [[[]|e|] s']; [|done|done].
    rewrite Hset by lia. done.
  - destruct Hr as [Hr Hl]. rewrite decide_False by lia. rewrite (IH Hr). cbn [counter].
    destruct (WriteBlock _ d s) as [[[]|er|] s']; [|done|done]. rewrite Hset by lia. done.
Qed.

(** The memory a read block is in: that of the stored block, or new memory. *)
Record read_from b s s' (i : nat) (sl : slice) : Prop := {
  rf_ext : store_ext s s';
  rf_live : live s' sl;
  rf_backing r : backing s' r = backing s r;
  rf_origin :
    (∃ r, base_refs b !! i = Some r ∧ IsZero r = false ∧ backing s' r = Some sl) ∨
    (¬ live s sl ∧ ∀ r, backing s' r ≠ Some sl);
}.

Lemma make_block_from b i s :
  inv s → ∃ sl s', make_block s = (Ok sl, s') ∧ deref s' sl = zeros (Z.to_nat (BlockSize s)) ∧ read_from b s s' i sl.
Proof.
  intros Hi. unfold make_block. destruct (mk_slice _ s) as [sl s'] eqn:Hm. exists sl, s'. split; [done|].
  destruct (mk_slice_spec _ _ _ _ Hi Hm) as (?&?&?&?&?&Hnl&Hb&Hs). split; [done|].
  split; [apply (mk_slice_stored _ _ _ _ Hi Hm)|done|done|].
  right. split; [done|]. intros r. rewrite Hb. intros Hr. by apply Hnl, (backing_live s r).
Qed.

Lemma get_from b (i : nat) s vs d :
  inv s → is_open s → no_replication b → repr b s vs → vs !! i = Some d →
  ∃ sl s', GetBlock b (Z.of_nat i) s = (Ok sl, s') ∧ deref s' sl = d ∧ read_from b s s' i sl.
Proof.
  intros Hi Ho Hn Hr Hd. pose proof (lookup_lt_Some _ _ _ Hd) as Hlt. revert Hn Hr.
  induction b as [|ids bl st z|sub IH crcs e|rep sub IH rb st]; layers; simpl; [done| | |done].
  - intros _ [-> Hh]. pose proof (Forall2_length Hh) as Hlen. rewrite decide_False by lia.
    destruct (Forall2_lookup_r _ _ _ _ _ Hh Hd) as (r & Hl & Hr).
    rewrite gindex_nat, Hl. unfold holds in Hr. unfold mbind, M_bind, lift, or_panic.
    destruct (IsZero r) eqn:Hz; [subst d; by apply make_block_from|].
    unfold stored in Hr. destruct (backing s r) as [sl0|] eqn:Hb; [|done].
    destruct (GetBlock_found _ _ _ Hi Ho Hb) as (sl & s' & Hg). exists sl, s'. split; [exact Hg|].
    destruct (GetBlock_ok _ _ _ _ Hi Hg) as (?&?&?&?&He&Horg&Hbk&Hs). rewrite Hb in He. simplify_eq/=.
    split; [congruence|]. split; [apply (GetBlock_stored _ _ _ _ Hi Hg)|done|done|].
    destruct Horg as [Horg|[??]]; [left; by exists r|by right].
  - intros Hn [Hr ->]. rewrite length_fmap, decide_False by lia.
    destruct (IH Hn Hr) as (sl & s' & Hg & Hds & [???]). exists sl, s'. split; [|by split; [|split]].
    run_step Hg. unfold mbind, M_bind, lift, gets. rewrite Hds, gindex_nat, list_lookup_fmap, Hd.
    simpl. rewrite decide_False by auto. done.
Qed.

(** A copy into memory that no reference of the blockset lives in. *)
Lemma copy_repr b s vs sl off d :
  inv s → live s sl → (off + length d ≤ length (deref s sl))%nat → no_replication b →
  Forall (λ r, backing s r ≠ Some sl) (base_refs b) →
  repr b s vs → repr b (copy_to sl off d s) vs.
Proof.
  intros Hi Hl Hb Hn Hr. destruct (copy_to_spec s sl off d Hi Hl Hb) as (?&?&Hbs&_&Hbk&Hs).
  apply repr_frame; [done|]. apply each_ref_base; [done|]. eapply Forall_impl; [|exact Hr].
  intros r Hne. unfold stored. rewrite Hbk. destruct (backing s r) as [sl'|] eqn:E; [|done]. simpl. f_equal.
  apply Hs; [by eapply backing_live|congruence].
Qed.

End blocks.

(** ** The invariant of a file *)

Section inv.
Context {S : Type} `{L : BlockStoreLaws S}.
Implicit Types (s : S) (b : blockset) (vs : list bytes) (c : singleBlockCache).

(** A slice the cache holds for block [i]: nothing else the blockset refers to
    lives in its memory, and no future block of the inode does. *)
Record cached (ino : INodeRef) b s (i : Z) (sl : slice) : Prop := {
  ca_live : live s sl;
  ca_old r : backing s r = Some sl → old ino (counter b) r ∧ IsZero r = false;
  ca_own j r : base_refs b !! j = Some r → backing s r = Some sl → Z.of_nat j = i;
}.

(** The blockset and its blocks without the block that was written to in the
    cache and not yet put back: its stored form may have changed in place. *)
Definition clean c b s : blockset :=
  if openWrote c then hole (zeros (Z.to_nat (BlockSize s))) (Z.to_nat (openIdx c)) b else b.
Definition clean_vs c s vs : list bytes :=
  if openWrote c then <[Z.to_nat (openIdx c) := zeros (Z.to_nat (BlockSize s))]> vs else vs.

(** [vs] are the blocks of the file as its reader sees them. *)
Record cache_ok (ino : INodeRef) c b s vs : Prop := {
  ck_stack : stack_ok ino (clean c b s) s (clean_vs c s vs);
  ck_ref : cref c = ino;
  ck_full : Forall (λ v, Z.of_nat (length v) = BlockSize s) vs;
  ck_distinct j k r :
    base_refs b !! j = Some r → base_refs b !! k = Some r → IsZero r = false → j = k;
  ck_old : Forall (old ino (counter b)) (base_refs b);
  ck_open :
    match openData c with
    | None => openIdx c = -1 ∧ openWrote c = false
    | Some sl =>
        0 ≤ openIdx c ∧ vs !! Z.to_nat (openIdx c) = Some (deref s sl) ∧ cached ino b s (openIdx c) sl
    end;
  ck_read :
    match readData c with
    | None => readIdx c = -1
    | Some sl =>
        0 ≤ readIdx c ∧ vs !! Z.to_nat (readIdx c) = Some (deref s sl) ∧ cached ino b s (readIdx c) sl
        ∧ readIdx c ≠ openIdx c ∧ openData c ≠ Some sl
    end;
}.

Lemma base_refs_clean c b s :
  base_refs (clean c b s) = base_refs b ∨
  base_refs (clean c b s) = <[Z.to_nat (openIdx c) := ZeroBlock]> (base_refs b).
Proof. unfold clean. destruct (openWrote c); [right; apply base_refs_hole|by left]. Qed.

Lemma counter_clean c b s : counter (clean c b s) = counter b.
Proof. unfold clean. case_match; [apply counter_hole|done]. Qed.

Lemma length_clean_vs c s vs : length (clean_vs c s vs) = length vs.
Proof. unfold clean_vs. case_match; by rewrite ?length_insert. Qed.

(** The memory of a slice after a write of the inode's next block elsewhere. *)
Lemma cached_write ino b b' s s' i (k : nat) sl d (r := next_ref ino (counter b)) :
  cached ino b s i sl → inv s → valid r → fits s d → WriteBlock r d s = (Ok tt, s') →
  counter b ≤ counter b' → base_refs b' = <[k := r]> (base_refs b) →
  cached ino b' s' i sl ∧ deref s' sl = deref s sl.
Proof.
  intros [Hl Ho Hw] Hi Hv Hf Hwr Hc Hb. destruct (WriteBlock_ok _ _ _ _ Hi Hv Hf Hwr) as (_&_&_&(sl'&Hn&_&Hfresh)&Hk&Hs).
  destruct (Hs sl Hl) as [Hl' Hd]. split; [|done].
  assert (backing s' r ≠ Some sl) as Hne.
  { rewrite Hn. intros [= ->]. destruct Hfresh as [Hr|Hr]; [|done].
    destruct (Ho r Hr) as [Hold _]. specialize (Hold eq_refl). unfold r in Hold. simpl in Hold. lia. }
  split; [done| |].
  - intros r' Hr'. assert (r' ≠ r) as Hrr by congruence. rewrite Hk in Hr' by done.
    destruct (Ho r' Hr') as [Hold Hz]. split; [|done]. by eapply old_mono.
  - intros j r' Hj Hr'. assert (r' ≠ r) as Hrr by congruence. rewrite Hk in Hr' by done.
    rewrite Hb in Hj. apply list_lookup_insert_Some in Hj as [(_ & <- & _)|[_ Hj]]; [done|]. by apply (Hw j r').
Qed.

(** The stack after a write of the next block. *)
Lemma stack_write ino n b s s' vs (k : nat) d (r := next_ref ino n) :
  stack_ok ino b s vs → counter b = n → usable ino n (n + 1) → Z.of_nat (length d) = BlockSize s →
  WriteBlock r d s = (Ok tt, s') →
  stack_ok ino (filled r d k b) s' (<[k := d]> vs) ∧ store_ext s s'.
Proof.
  intros [Hi Ho Hr Hn He H0] Hcn (_ & H1 & Hv) Hd Hw. rewrite Hcn in *.
  pose proof (write_next ino n d s Hi (Hv n ltac:(lia)) Hd H0) as Hwn. fold r in Hwn. rewrite Hw in Hwn.
  destruct Hwn as [Hk Hh]. pose proof (kp_ext _ _ _ _ Hk) as Hext.
  pose proof (counter_filled r d k b _ (repr_sized _ _ _ Hn Hr) ltac:(lia) ltac:(lia)) as Hc. rewrite Hcn in Hc.
  split; [|done]. split.
  - apply Hext.
  - by apply Hext.
  - apply filled_repr; [done| |done]. by eapply keeps_repr.
  - by apply no_replication_filled.
  - apply each_ref_base; [by apply no_replication_filled|]. rewrite Hc, base_refs_filled.
    apply Forall_insert; [|apply next_ref_old]. apply each_ref_base in He; [|done].
    eapply Forall_impl; [|exact He]. intros x. apply old_mono. lia.
  - lia.
Qed.

Lemma distinct_insert ino (l : list BlockRef) n (k : nat) :
  Forall (old ino n) l →
  (∀ i j r, l !! i = Some r → l !! j = Some r → IsZero r = false → i = j) →
  ∀ i j r, <[k := next_ref ino n]> l !! i = Some r → <[k := next_ref ino n]> l !! j = Some r →
    IsZero r = false → i = j.
Proof.
  intros Ho Hl i j r Hi Hj Hz.
  assert (∀ m, l !! m ≠ Some (next_ref ino n)) as Hnew.
  { intros m Hm. pose proof (Forall_lookup_1 _ _ _ _ Ho Hm eq_refl) as H. simpl in H. lia. }
  apply list_lookup_insert_Some in Hi as [(-> & <- & _)|[_ Hi]];
    apply list_lookup_insert_Some in Hj as [(-> & ? & _)|[_ Hj]]; subst; try done.
  - by destruct (Hnew j).
  - by destruct (Hnew i).
  - by eapply Hl.
Qed.

(** The cache after a put of block [k]; [c'] is the cache afterwards. *)
Definition put_result ino c' vs' d b s (o : res unit * blockset * S) : Prop :=
  match o with
  | (Ok _, b', s') => cache_ok ino c' b' s' vs' ∧ store_ext s s' ∧ counter b' = counter b + 1
  | (Err e, _, _) => refused (S := S) ino d e
  | (Panic, _, _) => False
  end.

(** What the cache and the blockset show after the put, in the two ways a put
    happens: of a block that is not cached, and of the block being written. *)
Definition put_case c c' (k : nat) d vs : Prop :=
  (c' = c ∧ Z.of_nat k ≠ openIdx c ∧ Z.of_nat k ≠ readIdx c) ∨
  (Z.of_nat k = openIdx c ∧ openWrote c = true ∧ vs !! k = Some d ∧
   c' = mkCache (openIdx c) (openData c) false (cref c) (readIdx c) (readData c) (cblkSize c)).

Lemma clean_filled c c' k d vs r b s s' :
  put_case c c' k d vs → BlockSize s' = BlockSize s → (openWrote c = true → 0 ≤ openIdx c) →
  clean c' (filled r d k b) s' = filled r d k (clean c b s) ∧
  clean_vs c' s' (<[k := d]> vs) = <[k := d]> (clean_vs c s vs).
Proof.
  unfold clean, clean_vs. intros [(-> & Ho & _)|(Ho & Hw & _ & ->)] Hb H0; rewrite Hb.
  - destruct (openWrote c); [|done]. specialize (H0 eq_refl).
    rewrite hole_filled, list_insert_insert_ne by lia. done.
  - rewrite Hw. cbn [openWrote]. replace (Z.to_nat (openIdx c)) with k by lia.
    by rewrite filled_hole, list_insert_insert_eq.
Qed.

Lemma stack_sized ino c b s vs : stack_ok ino (clean c b s) s (clean_vs c s vs) → sized b (length vs).
Proof.
  intros [_ _ Hr Hn _ _]. apply (repr_sized _ _ _ Hn) in Hr. rewrite length_clean_vs in Hr. revert Hr. unfold clean.
  destruct (openWrote c); [by rewrite sized_hole|done].
Qed.

Lemma put_step ino c c' b s vs (k : nat) d :
  cache_ok ino c b s vs → usable ino (counter b) (counter b + 1) → Z.of_nat (length d) = BlockSize s →
  (k < length vs)%nat → put_case c c' k d vs →
  put_result ino c' (<[k := d]> vs) d b s (PutBlock ino (Z.of_nat k) d b s).
Proof.
  intros [Hso Href Hfull Hdist Hold Hopen Hread] Hu Hd Hk Hcase. pose proof Hso as [Hi _ Hr Hn _ H0].
  pose proof (counter_clean c b s) as Hcc. rewrite Hcc in H0.
  assert (sized b (length vs)) as Hsz by (by eapply stack_sized).
  rewrite (put_write _ _ _ _ _ _ Hsz Hk). pose proof Hu as (_ & H1 & Hv). specialize (Hv (counter b) ltac:(lia)).
  rewrite wrap_id by (unfold in_width; lia). fold (next_ref ino (counter b)).
  assert (fits s d) as Hfit by (by apply fits_size).
  destruct (WriteBlock (next_ref ino (counter b)) d s) as [[[]|e|] s'] eqn:Hw;
    [|by exists (counter b + 1), s, s'|by apply (WriteBlock_no_panic _ _ _ _ Hi Hv Hfit) in Hw].
  destruct (stack_write ino (counter b) (clean c b s) s s' (clean_vs c s vs) k d Hso Hcc Hu Hd Hw) as (Hso' & Hext).
  pose proof (ext_size _ _ Hext) as Hbs.
  set (r := next_ref ino (counter b)) in *.
  pose proof (counter_filled r d k b _ Hsz H0 ltac:(lia)) as Hcf.
  assert (∀ i sl, cached ino b s i sl → cached ino (filled r d k b) s' i sl ∧ deref s' sl = deref s sl) as Hca.
  { intros i sl Hc. eapply (cached_write ino b (filled r d k b) s s' i k sl d); [done..|lia|apply base_refs_filled]. }
  assert (openWrote c = true → 0 ≤ openIdx c) as Hdirty.
  { intros Hw'. destruct (openData c); [tauto|]. destruct Hopen; congruence. }
  destruct (clean_filled c c' k d vs r b s s' Hcase Hbs Hdirty) as [Hcl Hclv].
  split; [|done]. split.
  - by rewrite Hcl, Hclv.
  - destruct Hcase as [(-> & _)|(_ & _ & _ & ->)]; done.
  - rewrite Hbs. by apply Forall_insert.
  - rewrite base_refs_filled. by apply distinct_insert.
  - rewrite base_refs_filled, Hcf. apply Forall_insert; [|apply next_ref_old].
    eapply Forall_impl; [|exact Hold]. intros x. apply old_mono. lia.
  - destruct Hcase as [(-> & Hko & _)|(Hko & _ & Hkd & ->)]; cbn [openData openIdx openWrote].
    + destruct (openData c) as [sl|]; [|done]. destruct Hopen as (? & Hlk & Hc). destruct (Hca _ _ Hc) as [? ->].
      split; [done|]. split; [|done]. by rewrite list_lookup_insert_ne by lia.
    + destruct (openData c) as [sl|]; [|tauto]. destruct Hopen as (? & Hlk & Hc). destruct (Hca _ _ Hc) as [? ->].
      split; [done|]. split; [|done]. by rewrite list_insert_id.
  - destruct Hcase as [(-> & _ & Hkr)|(Hko & _ & Hkd & ->)]; cbn [openData readData openIdx readIdx].
    + destruct (readData c) as [sl|]; [|done]. destruct Hread as (? & Hlk & Hc & ?). destruct (Hca _ _ Hc) as [? ->].
      split; [done|]. split; [|done]. by rewrite list_lookup_insert_ne by lia.
    + destruct (readData c) as [sl|]; [|done]. destruct Hread as (? & Hlk & Hc & ?). destruct (Hca _ _ Hc) as [? ->].
      split; [done|]. split; [|done]. by rewrite list_insert_id.
Qed.

Lemma get_hole z (o i : nat) b s :
  o ≠ i → GetBlock (hole z o b) (Z.of_nat i) s = GetBlock b (Z.of_nat i) s.
Proof.
  intros Hne. induction b as [|ids bl st bz|sub IH crcs e|]; cbn [hole]; [done| | |done]; layers.
  - rewrite length_insert, !gindex_nat, list_lookup_insert_ne by done. done.
  - rewrite length_insert, !gindex_nat, list_lookup_insert_ne by done. case_decide; [done|].
    unfold mbind, M_bind. rewrite IH. done.
Qed.

(** Reading block [i] off the blockset, if it is not the one being written. *)
Lemma get_clean ino c b s vs (i : nat) d :
  cache_ok ino c b s vs → Z.of_nat i ≠ openIdx c ∨ openWrote c = false → vs !! i = Some d →
  ∃ sl s', GetBlock b (Z.of_nat i) s = (Ok sl, s') ∧ deref s' sl = d ∧ read_from b s s' i sl.
Proof.
  intros [[Hi Ho Hr Hn _ _] _ _ _ _ Hopen _] Hne Hd. unfold clean, clean_vs in *.
  destruct (openWrote c); [|by eapply get_from].
  destruct Hne as [Hne|]; [|done].
  assert (0 ≤ openIdx c) as H0 by (destruct (openData c); [tauto|by destruct Hopen]).
  destruct (get_from _ i s _ d Hi Ho Hn Hr) as (sl & s' & Hg & Hds & [Hext Hl Hb Hor]).
  { by rewrite list_lookup_insert_ne by lia. }
  rewrite get_hole in Hg by lia. exists sl, s'. split; [done|]. split; [done|]. split; [done..|].
  destruct Hor as [(r & Hrl & ?)|?]; [|by right]. left. exists r. split; [|done].
  by rewrite base_refs_hole, list_lookup_insert_ne in Hrl by lia.
Qed.

(** States between which only memory was allocated. *)
Lemma cache_ok_frame ino c b s s' vs :
  cache_ok ino c b s vs → store_ext s s' → (∀ r, backing s' r = backing s r) → cache_ok ino c b s' vs.
Proof.
  intros [[Hi Ho Hr Hn He H0] Href Hfull Hdist Hold Hopen Hread] Hext Hb. pose proof (ext_size _ _ Hext) as Hbs.
  assert (∀ r, stored s' r = stored s r) as Hst.
  { intros r. unfold stored. rewrite Hb. destruct (backing s r) eqn:E; [|done]. simpl. f_equal.
    apply Hext. by eapply backing_live. }
  assert (∀ i sl, cached ino b s i sl → cached ino b s' i sl ∧ deref s' sl = deref s sl) as Hca.
  { intros i sl [Hl Hco Hcw]. destruct (ext_slice _ _ Hext sl Hl) as [? Hd]. split; [|done].
    split; [done| |]; intros *; rewrite Hb; [apply Hco|apply Hcw]. }
  split; try done.
  - unfold clean, clean_vs in *. rewrite Hbs. split; [apply Hext|by apply Hext| |done|done|done].
    by eapply repr_same_stored.
  - by rewrite Hbs.
  - destruct (openData c) as [sl|]; [|done]. destruct Hopen as (? & ? & Hc). destruct (Hca _ _ Hc) as [? ->]. done.
  - destruct (readData c) as [sl|]; [|done]. destruct Hread as (? & ? & Hc & ?). destruct (Hca _ _ Hc) as [? ->]. done.
Qed.

(** A slice just read off the blockset may be cached. *)
Lemma read_cached ino c b s s' vs (i : nat) sl :
  cache_ok ino c b s vs → read_from b s s' i sl →
  cached ino b s' (Z.of_nat i) sl ∧
  (∀ k sl', cached ino b s k sl' → k ≠ Z.of_nat i → sl' ≠ sl).
Proof.
  intros [_ _ _ Hdist Hold _ _] [Hext Hl Hb Hor]. pose proof (ext_inv _ _ Hext) as Hi'. split.
  - split; [done| |].
    + intros r Hr. destruct Hor as [(r0 & Hr0 & Hz & Hb0)|[_ Hn]]; [|by destruct (Hn r)].
      rewrite (backing_inj _ _ _ _ Hi' Hr Hb0). split; [|done]. by apply (Forall_lookup_1 _ _ _ _ Hold Hr0).
    + intros j r Hj Hr. destruct Hor as [(r0 & Hr0 & Hz & Hb0)|[_ Hn]]; [|by destruct (Hn r)].
      rewrite (backing_inj _ _ _ _ Hi' Hr Hb0) in Hj. by rewrite (Hdist j i r0 Hj Hr0 Hz).
  - intros k sl' [Hl' Hco Hcw] Hne ->. destruct Hor as [(r0 & Hr0 & Hz & Hb0)|[Hn _]]; [|done].
    rewrite Hb in Hb0. apply Hne. symmetry. exact (Hcw i r0 Hr0 Hb0).
Qed.

(** Opening block [i] for writing with what the blockset holds. *)
Lemma open_get ino c b s vs (i : nat) :
  cache_ok ino c b s vs → openWrote c = false → (i < length vs)%nat → readIdx c ≠ Z.of_nat i →
  ∃ sl s', GetBlock b (Z.of_nat i) s = (Ok sl, s') ∧ store_ext s s' ∧
    cache_ok ino (mkCache (Z.of_nat i) (Some sl) false (cref c) (readIdx c) (readData c) (cblkSize c)) b s' vs.
Proof.
  intros Hok Hw Hlt Hne. destruct (lookup_lt_is_Some_2 vs i Hlt) as [d Hd].
  destruct (get_clean _ _ _ _ _ i d Hok (or_intror Hw) Hd) as (sl & s' & Hg & Hds & Hrf).
  exists sl, s'. split; [done|]. split; [apply Hrf|].
  destruct (read_cached _ _ _ _ _ _ i sl Hok Hrf) as [Hca Hdis].
  pose proof (cache_ok_frame _ _ _ _ _ _ Hok (rf_ext _ _ _ _ _ Hrf) (rf_backing _ _ _ _ _ Hrf)) as Hok'.
  destruct Hok as [_ _ _ _ _ _ Hread0]. destruct Hok' as [Hso ? ? ? ? _ Hread].
  unfold clean, clean_vs in Hso. rewrite Hw in Hso.
  split; cbn [openData openIdx openWrote readData readIdx cref]; try done.
  - split; [lia|]. split; [rewrite Nat2Z.id; congruence|done].
  - destruct (readData c) as [sl'|]; [|done]. destruct Hread as (? & ? & ? & _).
    destruct Hread0 as (_ & _ & Hc0 & _). split_and!; try done. intros [= ->]. by apply (Hdis _ _ Hc0).
Qed.

(** Opening the block held for reading. *)
Lemma open_move ino c b s vs sl :
  cache_ok ino c b s vs → openWrote c = false → readData c = Some sl →
  cache_ok ino (mkCache (readIdx c) (Some sl) false (cref c) (-1) None (cblkSize c)) b s vs.
Proof.
  intros [Hso ? ? ? ? _ Hread] Hw Hr. rewrite Hr in Hread. unfold clean, clean_vs in Hso. rewrite Hw in Hso.
  split; cbn [openData openIdx openWrote readData readIdx cref]; try done. tauto.
Qed.

(** Holding block [i] for reading. *)
Lemma read_get ino c b s vs (i : nat) :
  cache_ok ino c b s vs → (i < length vs)%nat → openIdx c ≠ Z.of_nat i →
  ∃ sl s', GetBlock b (Z.of_nat i) s = (Ok sl, s') ∧ store_ext s s' ∧ vs !! i = Some (deref s' sl) ∧
    cache_ok ino (mkCache (openIdx c) (openData c) (openWrote c) (cref c) (Z.of_nat i) (Some sl) (cblkSize c)) b s' vs.
Proof.
  intros Hok Hlt Hne. destruct (lookup_lt_is_Some_2 vs i Hlt) as [d Hd].
  destruct (get_clean _ _ _ _ _ i d Hok (or_introl (not_eq_sym Hne)) Hd) as (sl & s' & Hg & Hds & Hrf).
  exists sl, s'. split; [done|]. split; [apply Hrf|]. split; [congruence|].
  destruct (read_cached _ _ _ _ _ _ i sl Hok Hrf) as [Hca Hdis].
  pose proof (cache_ok_frame _ _ _ _ _ _ Hok (rf_ext _ _ _ _ _ Hrf) (rf_backing _ _ _ _ _ Hrf)) as Hok'.
  destruct Hok as [_ _ _ _ _ Hopen0 _]. destruct Hok' as [Hso ? ? ? ? Hopen _].
  split; cbn [openData openIdx openWrote readData readIdx cref]; try done.
  split; [lia|]. split; [rewrite Nat2Z.id; congruence|]. split; [done|]. split; [done|].
  destruct (openData c) as [sl'|]; [|done]. destruct Hopen0 as (_ & _ & Hc0). intros [= ->].
  by apply (Hdis _ _ Hc0).
Qed.

(** Writing into the open block. *)
Lemma write_open ino c b s vs sl d off x :
  cache_ok ino c b s vs → openData c = Some sl → deref s sl = d → (off + length x ≤ length d)%nat →
  let s' := copy_to sl off x s in
  cache_ok ino (mkCache (openIdx c) (openData c) true (cref c) (readIdx c) (readData c) (cblkSize c)) b s'
    (<[Z.to_nat (openIdx c) := blit off x d]> vs) ∧ BlockSize s' = BlockSize s.
Proof.
  intros [[Hi Ho Hr Hn He H0] Href Hfull Hdist Hold Hopen Hread] Hd Hx Hlen s'. rewrite Hd in Hopen.
  destruct Hopen as (Hidx & Hlk & [Hl Hco Hcw]). subst d.
  destruct (copy_to_spec s sl off x Hi Hl Hlen) as (Hi' & Ho' & Hbs & Hds & Hbk & Hs). fold s' in Hi', Ho', Hbs, Hds, Hbk, Hs.
  assert (∀ i sl', cached ino b s i sl' → cached ino b s' i sl') as Hca.
  { intros i sl' [Hl' Hco' Hcw']. destruct (Hs sl' Hl'). split; [done| |]; intros *; rewrite Hbk; eauto. }
  assert (stack_ok ino (hole (zeros (Z.to_nat (BlockSize s))) (Z.to_nat (openIdx c)) b) s
    (<[Z.to_nat (openIdx c) := zeros (Z.to_nat (BlockSize s))]> vs)) as [_ _ Hr1 Hn1 He1 H1].
  { unfold clean, clean_vs in *. destruct (openWrote c); [by split|]. split; [done|done| |by apply no_replication_hole| |].
    - by apply hole_repr.
    - apply each_ref_base; [by apply no_replication_hole|]. rewrite base_refs_hole, counter_hole.
      apply Forall_insert; [done|by apply old_zero].
    - by rewrite counter_hole. }
  split; [|done]. split; cbn [openData openIdx openWrote readData readIdx cref]; try done.
  - unfold clean, clean_vs. cbn [openWrote openIdx]. rewrite Hbs, list_insert_insert_eq.
    split; [done|by apply Ho'| |done|done|done]. apply copy_repr; [done|done|done|done| |done].
    rewrite base_refs_hole. apply Forall_lookup. intros j r Hj Hbr.
    apply list_lookup_insert_Some in Hj as [(_ & <- & _)|[Hne Hj]].
    + by destruct (Hco _ Hbr).
    + apply Hne. specialize (Hcw j r Hj Hbr). lia.
  - rewrite Hbs. apply Forall_insert; [done|]. rewrite length_blit. by apply (Forall_lookup_1 _ _ _ _ Hfull Hlk).
  - rewrite Hd. split; [done|]. rewrite list_lookup_insert_eq by (by eapply lookup_lt_Some). rewrite Hds. split; [done|].
    apply Hca. by split.
  - destruct (readData c) as [sl'|]; [|done]. destruct Hread as (? & ? & Hc & Hne & Hns).
    assert (sl' ≠ sl) as Hsl by congruence. destruct (Hs sl' (ca_live _ _ _ _ _ Hc)) as [_ Hdd].
    split; [done|]. rewrite list_lookup_insert_ne by lia. rewrite Hdd by done. split_and!; try done. by apply Hca.
Qed.
End inv.

(** ** Blocks and bytes *)

Lemma blit_middle {A} off (x d a c : list A) :
  (off + length x ≤ length d)%nat → blit (length a + off) x (a ++ d ++ c) = a ++ blit off x d ++ c.
Proof.
  intros H. unfold blit. rewrite take_app_add, <-Nat.add_assoc, drop_app_add.
  rewrite (take_app_le d c off), (drop_app_le d c) by lia. rewrite !(take_ge x) by (rewrite ?length_app; lia).
  by rewrite <-!app_assoc.
Qed.

Section arrays.
Context (B : nat).
Implicit Types (vs : list bytes) (d x : bytes).

Lemma length_concat_blocks vs : Forall (λ v, length v = B) vs → length (concat vs) = (length vs * B)%nat.
Proof. induction 1 as [|v vs Hv _ IH]; [done|]. cbn [concat length]. rewrite length_app, IH, Hv. lia. Qed.

(** Block [i] inside the array. *)
Lemma concat_split vs i d :
  Forall (λ v, length v = B) vs → vs !! i = Some d →
  concat vs = concat (take i vs) ++ d ++ concat (drop (S i) vs) ∧ length (concat (take i vs)) = (i * B)%nat.
Proof.
  intros Hf Hd. split.
  - rewrite <-(take_drop_middle vs i d Hd) at 1. by rewrite concat_app.
  - rewrite length_concat_blocks by (by apply Forall_take). rewrite length_take_le; [done|].
    apply lookup_lt_Some in Hd. lia.
Qed.

Lemma concat_blit vs i d off x :
  Forall (λ v, length v = B) vs → vs !! i = Some d → (off + length x ≤ B)%nat →
  concat (<[i := blit off x d]> vs) = blit (i * B + off) x (concat vs).
Proof.
  intros Hf Hd Hx. destruct (concat_split vs i d Hf Hd) as [-> <-].
  pose proof (Forall_lookup_1 _ _ _ _ Hf Hd) as Hl. simpl in Hl.
  rewrite blit_middle by lia.
  rewrite insert_take_drop by (by eapply lookup_lt_Some). by rewrite concat_app.
Qed.

Lemma concat_slice vs i d off n :
  Forall (λ v, length v = B) vs → vs !! i = Some d → (off + n ≤ B)%nat →
  take n (drop (i * B + off) (concat vs)) = take n (drop off d).
Proof.
  intros Hf Hd Hx. destruct (concat_split vs i d Hf Hd) as [-> <-].
  pose proof (Forall_lookup_1 _ _ _ _ Hf Hd) as Hl. simpl in Hl.
  rewrite drop_app_add, drop_app_le, take_app_le by len. done.
Qed.
End arrays.

(** ** The operations of a file *)

Section file_wp.
Context {S : Type} `{L : BlockStoreLaws S} {D : Type} `{HD : MDS D} `{HR : Range} `{HG : Godbc}.
Implicit Types (e : state (S := S) (D := D)) (vs : list bytes).

(** An error the store answered a write of one of the inode's blocks, or a
    flush, with. *)
Definition refusal (ino : INodeRef) (err : error) : Prop :=
  (∃ d, refused (S := S) ino d err) ∨ ∃ s s' : S, Flush s = (Err err, s').

(** [m] does not panic, fails with a refusal only, and otherwise makes [Q] true. *)
Definition wp {A} (ino : INodeRef) (m : M state A) (Q : A → state → Prop) e : Prop :=
  match m e with
  | (Ok a, e') => Q a e'
  | (Err err, _) => refusal ino err
  | (Panic, _) => False
  end.

Lemma wp_bind {A A'} ino (m : M state A) (k : A → M state A') Q e :
  wp ino m (λ a e', wp ino (k a) Q e') e → wp ino (m ≫= k) Q e.
Proof. unfold wp, mbind, M_bind. by destruct (m e) as [[a|err|] e']. Qed.

Lemma wp_mono {A} ino (m : M state A) (P Q : A → state → Prop) e :
  wp ino m P e → (∀ a e', P a e' → Q a e') → wp ino m Q e.
Proof. unfold wp. destruct (m e) as [[a|err|] e']; auto. Qed.

Lemma wp_try {A} ino (m : M state A) Q e :
  wp ino m (λ a e', Q (inl a) e') e → (∀ err e', refusal ino err → Q (inr err) e') → wp ino (try m) Q e.
Proof. unfold wp, try. destruct (m e) as [[a|err|] e']; auto. Qed.

Lemma wp_gets {A} ino (f : state → A) (Q : A → state → Prop) e : Q (f e) e → wp ino (gets f) Q e.
Proof. done. Qed.
Lemma wp_ret {A} ino (a : A) (Q : A → state → Prop) e : Q a e → wp ino (mret a) Q e.
Proof. done. Qed.
Lemma wp_lift {A} ino (a : A) (Q : A → state → Prop) e : Q a e → wp ino (lift (Ok a)) Q e.
Proof. done. Qed.

End file_wp.

(** Running the assignments of the model. *)
Ltac exec :=
  unfold wp, set_wrote, set_open, set_read, set_cache, set_Filesize, set_inode, set_file, contents, modify, gets,
    mbind, M_bind, mret, M_ret, throw;
  cbn [file store mds cache blkSize offset ReadOnly volume inode blocks replaces writeINodeRef writeOpen
    openIdx openData openWrote cref readIdx readData cblkSize IN_Filesize].

Section file.
Context {S : Type} `{L : BlockStoreLaws S} {D : Type} `{HD : MDS D} `{HR : Range} `{HG : Godbc}.
Implicit Types (e : state (S := S) (D := D)) (vs : list bytes).

(** What no operation on blocks changes. *)
Record frame e e' : Prop := {
  fr_blkSize : blkSize (file e') = blkSize (file e);
  fr_offset : offset (file e') = offset (file e);
  fr_volume : volume (file e') = volume (file e);
  fr_inode : inode (file e') = inode (file e);
  fr_ref : writeINodeRef (file e') = writeINodeRef (file e);
  fr_readonly : ReadOnly (file e') = ReadOnly (file e);
  fr_writeOpen : writeOpen (file e') = writeOpen (file e);
  fr_replaces : replaces (file e') = replaces (file e);
  fr_mds : mds e' = mds e;
}.

Lemma frame_refl e : frame e e.
Proof. done. Qed.
Lemma frame_trans e1 e2 e3 : frame e1 e2 → frame e2 e3 → frame e1 e3.
Proof. intros [] []. split; congruence. Qed.

Abbreviation fcache e := (cache (file e)).
Abbreviation fino e := (writeINodeRef (file e)).

(** A file whose blocks are [vs], with at least [n] block numbers left. *)
Record file_ok e vs (n : Z) : Prop := {
  fo_cache : cache_ok (fino e) (fcache e) (blocks (file e)) (store e) vs;
  fo_size : blkSize (file e) = BlockSize (store e);
  fo_room : 0 ≤ n ∧ usable (fino e) (counter (blocks (file e))) (counter (blocks (file e)) + n);
}.

Lemma file_sized e vs n : file_ok e vs n → sized (blocks (file e)) (length vs).
Proof. intros [[Hs _ _ _ _ _ _] _ _]. by eapply stack_sized. Qed.

Lemma file_ok_less e vs n m : file_ok e vs n → 0 ≤ m ≤ n → file_ok e vs m.
Proof. intros [? ? [? Hu]] Hm. split; try done. split; [lia|]. eapply usable_sub; [done|lia|lia]. Qed.

(** A put seen from the file. *)
Lemma wp_put e vs n (k : nat) d c' :
  file_ok e vs (n + 1) → 0 ≤ n → Z.of_nat (length d) = blkSize (file e) → (k < length vs)%nat →
  put_case (fcache e) c' k d vs →
  wp (fino e) (on_blocks (PutBlock (fino e) (Z.of_nat k) d)) (λ _ e1,
    frame e e1 ∧ cache (file e1) = fcache e ∧
    ∀ e', e' = mkState (mkFile (blkSize (file e1)) (offset (file e1)) (ReadOnly (file e1)) (volume (file e1))
                 (inode (file e1)) (blocks (file e1)) (replaces (file e1)) c' (writeINodeRef (file e1))
                 (writeOpen (file e1))) (store e1) (mds e1) → file_ok e' (<[k := d]> vs) n) e.
Proof.
  intros [Hc Hsz [Hn Hu]] H0 Hd Hk Hcase. unfold wp, on_blocks.
  pose proof (put_step (fino e) (fcache e) c' (blocks (file e)) (store e) vs k d Hc) as Hp.
  ospecialize (Hp _ _ Hk Hcase); [eapply usable_sub; [done|lia|lia]|congruence|].
  destruct (PutBlock _ _ _ _ _) as [[[[]|err|] b'] s']; [|by left; exists d|done].
  destruct Hp as (Hc' & Hext & Hcnt). split; [done|]. split; [done|]. intros e' ->. split; cbn; try done.
  - rewrite (ext_size _ _ Hext). done.
  - split; [done|]. rewrite Hcnt. eapply usable_sub; [done|lia|lia].
Qed.

(** Flushing the block being written. *)
Definition unwrote (c : singleBlockCache) : singleBlockCache :=
  mkCache (openIdx c) (openData c) false (cref c) (readIdx c) (readData c) (cblkSize c).

Lemma wp_sync e vs n :
  file_ok e vs (n + 1) → 0 ≤ n →
  wp (fino e) sync (λ _ e', file_ok e' vs n ∧ frame e e' ∧ fcache e' = unwrote (fcache e)) e.
Proof.
  intros Hok H0. pose proof Hok as [Hc Hsz _]. pose proof Hc as [_ Href Hfull _ _ Hopen _].
  unfold sync. apply wp_bind, wp_gets.
  destruct (openWrote (fcache e)) eqn:Hw.
  - destruct (openData (fcache e)) as [sl|] eqn:Hd; [|by destruct Hopen]. destruct Hopen as (Hidx & Hlk & _).
    apply wp_bind, wp_gets, wp_bind. rewrite Href. replace (openIdx (fcache e)) with (Z.of_nat (Z.to_nat (openIdx (fcache e)))) at 1 by lia.
    apply wp_try; [|by intros; exec].
    eapply wp_mono; [apply (wp_put e vs n _ _ (unwrote (fcache e))); [done|done| |by eapply lookup_lt_Some|]|].
    + rewrite Hsz. by apply (Forall_lookup_1 _ _ _ _ Hfull Hlk).
    + right. split; [lia|]. done.
    + intros [] e1 (Hfr & Hce & Hok'). exec. rewrite Hce.
      specialize (Hok' _ eq_refl). rewrite list_insert_id in Hok' by done. split; [exact Hok'|].
      split; [by destruct Hfr|done].
  - exec. split; [by eapply file_ok_less; [done|lia]|]. split; [done|].
    destruct (fcache e). cbn in Hw. by subst.
Qed.

(** A read off the blockset. *)
Lemma wp_get_block e vs n (i : nat) :
  file_ok e vs n → (i < length vs)%nat → openWrote (fcache e) = false → readIdx (fcache e) ≠ Z.of_nat i →
  wp (fino e) (sl ← get_block (Z.of_nat i); set_open (Z.of_nat i) (Some sl)) (λ _ e',
    file_ok e' vs n ∧ frame e e' ∧ openIdx (fcache e') = Z.of_nat i ∧ readIdx (fcache e') = readIdx (fcache e)) e.
Proof.
  intros [Hc Hsz Hr] Hi Hw Hne.
  destruct (open_get _ _ _ _ _ i Hc Hw Hi Hne) as (sl & s' & Hg & Hext & Hc').
  unfold get_block, on_store. exec. rewrite Hg. exec. rewrite Hw. split; [|done].
  split; cbn; try done. by rewrite (ext_size _ _ Hext).
Qed.

Lemma wp_openBlock e vs n (i : nat) :
  file_ok e vs (n + 1) → 0 ≤ n → (i < length vs)%nat →
  wp (fino e) (openBlock (Z.of_nat i)) (λ _ e',
    file_ok e' vs n ∧ frame e e' ∧ openIdx (fcache e') = Z.of_nat i ∧
    (readIdx (fcache e') = readIdx (fcache e) ∨ readIdx (fcache e') = -1)) e.
Proof.
  intros Hok H0 Hi. unfold openBlock. apply wp_bind, wp_gets.
  case_decide as Hd.
  { apply wp_ret. split; [by eapply file_ok_less; [done|lia]|]. split; [done|]. split; [apply Hd|by left]. }
  apply wp_bind. eapply (wp_mono _ _ (λ _ e', file_ok e' vs n ∧ frame e e' ∧ fcache e' = unwrote (fcache e))).
  { destruct (openWrote (fcache e)) eqn:Hw; [by apply wp_sync|]. apply wp_ret.
    split; [by eapply file_ok_less; [done|lia]|]. split; [done|]. destruct (fcache e). cbn in Hw. by subst. }
  intros [] e1 (Hok1 & Hfr & Hce). pose proof Hok1 as [Hc1 _ _].
  assert (openWrote (fcache e1) = false) as Hw1 by (by rewrite Hce).
  apply wp_bind, wp_bind, wp_gets. pose proof Hc1 as [[_ _ Hrep _ _ _] _ _ _ _ _ Hread].
  unfold clean, clean_vs in Hrep. rewrite Hw1 in Hrep. rewrite (repr_Length _ _ _ Hrep). apply wp_lift.
  rewrite decide_False, decide_False by lia. apply wp_bind, wp_gets.
  rewrite <-(fr_ref _ _ Hfr). case_decide as Hri.
  - destruct (readData (fcache e1)) as [sl|] eqn:Hrd; [|lia].
    pose proof (open_move _ _ _ _ _ sl Hc1 Hw1 Hrd) as Hc2. destruct Hok1. exec. rewrite Hri, Hw1 in *.
    split; [by split|]. split; [by destruct Hfr|]. split; [done|]. by right.
  - eapply wp_mono; [by apply (wp_get_block e1 vs n)|]. intros [] e2 (Hok2 & Hfr2 & Ho & Hr2).
    split; [done|]. split; [by eapply frame_trans|]. split; [done|]. left. rewrite Hr2, Hce. done.
Qed.

Lemma wp_writeToBlock e vs n (i off : nat) d x :
  file_ok e vs (n + 1) → 0 ≤ n → vs !! i = Some d → (off + length x ≤ length d)%nat →
  wp (fino e) (cache_writeToBlock (Z.of_nat i) (Z.of_nat off) (Z.of_nat off + Z.of_nat (length x)) x) (λ m e',
    m = Z.of_nat (length x) ∧ file_ok e' (<[i := blit off x d]> vs) n ∧ frame e e' ∧
    openIdx (fcache e') = Z.of_nat i ∧
    (readIdx (fcache e') = readIdx (fcache e) ∨ readIdx (fcache e') = -1)) e.
Proof.
  intros Hok H0 Hd Hlen. pose proof (lookup_lt_Some _ _ _ Hd) as Hi. unfold cache_writeToBlock.
  apply wp_bind, wp_gets, wp_bind.
  eapply (wp_mono _ _ (λ _ e', file_ok e' vs n ∧ frame e e' ∧ openIdx (fcache e') = Z.of_nat i ∧
    (readIdx (fcache e') = readIdx (fcache e) ∨ readIdx (fcache e') = -1))).
  { case_decide as Hne; [by apply wp_openBlock|]. apply wp_ret.
    split; [by eapply file_ok_less; [done|lia]|]. split; [done|]. split; [lia|]. by left. }
  intros [] e1 ([Hc Hsz Hr] & Hfr & Hidx & Hrd). pose proof Hc as [_ _ _ _ _ Hopen _].
  destruct (openData (fcache e1)) as [sl|] eqn:Ho; [|lia]. destruct Hopen as (_ & Hlk & _).
  rewrite Hidx, Nat2Z.id, Hd in Hlk. injection Hlk as Hds.
  destruct (write_open _ _ _ _ _ sl d off x Hc Ho (eq_sym Hds) Hlen) as [Hc' Hbs].
  rewrite Hidx, Nat2Z.id in Hc'. unfold on_store, lift. exec. rewrite decide_False by lia. exec. rewrite Ho, <-Hds.
  unfold gslice. rewrite decide_True by lia. cbn [or_panic]. rewrite Nat2Z.id. exec. rewrite Ho in Hc'. rewrite Hidx.
  split; [done|]. split.
  - split; cbn; try done. by rewrite Hbs.
  - split; [by destruct Hfr|]. done.
Qed.

(** *** Writing bytes *)

Abbreviation fB e := (Z.to_nat (blkSize (file e))).

(** A file whose blocks, one after the other, are the array [m]. *)
Definition bytes_ok e (m : bytes) (n : Z) : Prop := ∃ vs, file_ok e vs n ∧ concat vs = m.

Lemma file_full e vs n : file_ok e vs n → Forall (λ v, length v = fB e) vs.
Proof.
  intros [[_ _ Hf _ _ _ _] Hs _]. eapply Forall_impl; [|exact Hf]. intros v Hv. cbn in *. lia.
Qed.

Lemma file_pos e vs n : file_ok e vs n → 0 < blkSize (file e).
Proof. intros [[[Hi _ _ _ _ _] _ _ _ _ _ _] Hs _]. rewrite Hs. by apply BlockSize_pos. Qed.

Lemma bytes_ok_less e m n n' : bytes_ok e m n → 0 ≤ n' ≤ n → bytes_ok e m n'.
Proof. intros (vs & Hok & Hm) Hn. exists vs. split; [by eapply file_ok_less|done]. Qed.

(** Block [i] exists if the array reaches into it. *)
Lemma block_lookup e vs n (i off : nat) :
  file_ok e vs n → (i * fB e + off < length (concat vs))%nat → ∃ d, vs !! i = Some d ∧ length d = fB e.
Proof.
  intros Hok Hlt. pose proof (file_full _ _ _ Hok) as Hf. rewrite (length_concat_blocks (fB e)) in Hlt by done.
  destruct (lookup_lt_is_Some_2 vs i) as [d Hd]; [nia|]. exists d. split; [done|].
  by apply (Forall_lookup_1 _ _ _ _ Hf Hd).
Qed.

(** Blocks the cache does not hold. *)
Definition not_cached (c : singleBlockCache (S := S)) (k : nat) : Prop :=
  Z.of_nat k ≠ openIdx c ∧ Z.of_nat k ≠ readIdx c.

Lemma quot_block e vs n (k : nat) :
  file_ok e vs n → div_int (Z.of_nat (k * fB e)) (blkSize (file e)) = Ok (Z.of_nat k) ∧
    rem_int (Z.of_nat (k * fB e)) (blkSize (file e)) = Ok 0.
Proof.
  intros Hok. pose proof (file_pos _ _ _ Hok) as Hp. unfold div_int, rem_int. rewrite !decide_False by lia.
  replace (Z.of_nat (k * fB e)) with (Z.of_nat k * blkSize (file e)) by nia.
  rewrite Z.quot_mul, Z.rem_mul by lia. done.
Qed.

Lemma wp_bulk fuel e m n b cnt (k : nat) :
  (length b < fuel)%nat → bytes_ok e m (n + Z.of_nat (length b)) → 0 ≤ n → (k * fB e + length b ≤ length m)%nat →
  (∀ j, (k ≤ j < k + length b / fB e)%nat → not_cached (fcache e) j) →
  wp (fino e) (write_bulk fuel b cnt (Z.of_nat (k * fB e))) (λ r e',
    let '(b', cnt', off', err) := r in
    match err with
    | Some er => refusal (fino e) er
    | None => ∃ q, b' = drop (q * fB e) b ∧ (length b' < fB e)%nat ∧ (q * fB e ≤ length b)%nat ∧
        cnt' = cnt + Z.of_nat (q * fB e) ∧ off' = Z.of_nat ((k + q) * fB e) ∧
        bytes_ok e' (blit (k * fB e) (take (q * fB e) b) m) n ∧ frame e e' ∧ fcache e' = fcache e
    end) e.
Proof.
  revert e m b cnt k. induction fuel as [|fuel IH]; intros e m b cnt k Hfuel Hok H0 Hlen Hclear; [lia|].
  pose proof Hok as (vs & Hf & Hm). pose proof (file_pos _ _ _ Hf) as Hpos. pose proof (file_full _ _ _ Hf) as Hfull.
  cbn [write_bulk]. apply wp_bind, wp_gets. case_decide as Hd.
  { apply wp_ret. exists 0%nat. rewrite Nat.mul_0_l, drop_0, take_0, blit_nil, Nat.add_0_r. split_and!; try done; try lia.
    by eapply bytes_ok_less; [done|lia]. }
  destruct (quot_block _ _ _ k Hf) as [-> _]. apply wp_bind, wp_lift. unfold gslice. rewrite decide_True by lia.
  rewrite Z.sub_0_r, drop_0. apply wp_bind, wp_lift.
  assert (length (take (fB e) b) = fB e) as Hch by len.
  destruct (block_lookup _ _ _ k 0 Hf) as (d & Hdk & Hdl); [rewrite Hm; lia|].
  pose proof (lookup_lt_Some _ _ _ Hdk) as Hk.
  assert (k < k + length b / fB e)%nat as Hq.
  { assert (1 ≤ length b / fB e)%nat; [|lia]. apply Nat.div_le_lower_bound; lia. }
  apply wp_bind, wp_try; [|done].
  eapply wp_mono; [apply (wp_put e vs (n + Z.of_nat (length b) - 1) k (take (fB e) b) (fcache e));
    [by rewrite Z.sub_add|lia|lia|done|left; split; [done|]; by apply Hclear]|].
  intros [] e1 (Hfr & Hce & Hok1). cbv beta iota.
  assert (file_ok e1 (<[k := take (fB e) b]> vs) (n + Z.of_nat (length b) - 1)) as Hf1.
  { apply Hok1. destruct e1 as [[] ? ?]. cbn in *. by subst. }
  rewrite <-(fr_ref _ _ Hfr).
  replace (Z.of_nat (k * fB e) + blkSize (file e)) with (Z.of_nat (Datatypes.S k * fB e)) by lia.
  rewrite <-(fr_blkSize _ _ Hfr) in *.
  assert (concat (<[k := take (fB e1) b]> vs) = blit (k * fB e1) (take (fB e1) b) m) as Hcat.
  { pose proof (concat_blit (fB e1) vs k d 0 (take (fB e1) b) Hfull Hdk ltac:(lia)) as Hcb.
    by rewrite blit_all, Nat.add_0_r, Hm in Hcb by lia. }
  eapply wp_mono; [apply (IH e1 (blit (k * fB e1) (take (fB e1) b) m))|].
  - len.
  - exists (<[k := take (fB e1) b]> vs). split; [|done]. eapply file_ok_less; [done|]. len.
  - done.
  - len.
  - intros j Hj. rewrite Hce. apply Hclear. rewrite length_drop in Hj.
    assert ((length b - fB e1) / fB e1 = length b / fB e1 - 1)%nat as Hdv.
    { replace (length b) with ((length b - fB e1) + 1 * fB e1)%nat at 2 by lia. rewrite Nat.div_add by lia. lia. }
    lia.
  - intros [[[b' cnt'] off'] [er|]] e2; [done|].
    intros (q & -> & Hb' & Hq' & -> & -> & Hok2 & Hfr2 & Hce2). exists (Datatypes.S q).
    rewrite length_drop in Hq'. rewrite drop_drop in *. replace (Datatypes.S q * fB e1)%nat with (fB e1 + q * fB e1)%nat by lia.
    replace (Datatypes.S k * fB e1)%nat with (k * fB e1 + length (take (fB e1) b))%nat in Hok2 by len.
    rewrite blit_app, take_take_drop in Hok2 by len.
    split_and!; try done; try lia; [by eapply frame_trans|congruence].
Qed.

(** The outcome of writing [b] at [off] when the count stood at [cnt]. *)
Definition written e (m b : bytes) (cnt : Z) (off : nat) (n : Z) (r : Z * Z * option error) e' : Prop :=
  match r with
  | (_, _, Some er) => refusal (fino e) er
  | (cnt', off', None) =>
      cnt' = cnt + Z.of_nat (length b) ∧ off' = Z.of_nat (off + length b) ∧
      bytes_ok e' (blit off b m) n ∧ frame e e'
  end.

(** A write inside block [i]. *)
Lemma wp_block e m n (i off : nat) x :
  bytes_ok e m (n + 1) → 0 ≤ n → (i * fB e + off < length m)%nat → (off + length x ≤ fB e)%nat →
  wp (fino e) (cache_writeToBlock (Z.of_nat i) (Z.of_nat off) (Z.of_nat off + Z.of_nat (length x)) x) (λ c e',
    c = Z.of_nat (length x) ∧ bytes_ok e' (blit (i * fB e + off) x m) n ∧ frame e e' ∧
    openIdx (fcache e') = Z.of_nat i ∧
    (readIdx (fcache e') = readIdx (fcache e) ∨ readIdx (fcache e') = -1)) e.
Proof.
  intros (vs & Hf & <-) H0 Hm Hb. destruct (block_lookup _ _ _ i off Hf Hm) as (d & Hd & Hdl).
  eapply wp_mono; [apply (wp_writeToBlock e vs n i off d x Hf H0 Hd); lia|].
  intros c e' (-> & Hok & Hfr & Ho & Hr). split; [done|]. split; [|done].
  exists (<[i := blit off x d]> vs). split; [done|]. apply concat_blit; [by eapply file_full|done|lia].
Qed.

Lemma wp_tail e m n b cnt (k : nat) :
  bytes_ok e m (n + 1) → 0 ≤ n → (0 < length b < fB e)%nat → (k * fB e + length b ≤ length m)%nat →
  wp (fino e) (write_tail b cnt (Z.of_nat (k * fB e))) (written e m b cnt (k * fB e) n) e.
Proof.
  intros Hok H0 Hb Hm. pose proof Hok as (vs & Hf & _). destruct (quot_block _ _ _ k Hf) as [Hq Hr].
  unfold write_tail. apply wp_bind, wp_gets. rewrite Hr. apply wp_bind, wp_lift. rewrite decide_False by lia.
  rewrite Hq. apply wp_bind, wp_lift, wp_bind, wp_try; [|done].
  eapply wp_mono; [apply (wp_block e m n k 0 b Hok H0); lia|].
  intros c e' (-> & Hok' & Hfr & _ & _). rewrite decide_False by lia. apply wp_ret.
  rewrite Nat.add_0_r in Hok'. split; [done|]. split; [lia|]. done.
Qed.

Lemma frame_wp {A} e e1 (m : M state A) Q : frame e e1 → wp (fino e1) m Q e1 → wp (fino e) m Q e1.
Proof. intros Hfr. by rewrite (fr_ref _ _ Hfr). Qed.

Lemma wp_aligned e m n b cnt (k : nat) :
  bytes_ok e m (n + Z.of_nat (length b) + 1) → 0 ≤ n → (k * fB e + length b ≤ length m)%nat →
  (∀ j, (k ≤ j < k + length b / fB e)%nat → not_cached (fcache e) j) →
  wp (fino e) (write_aligned b cnt (Z.of_nat (k * fB e))) (written e m b cnt (k * fB e) n) e.
Proof.
  intros Hok H0 Hm Hclear. pose proof Hok as (vs & Hf & _). pose proof (file_pos _ _ _ Hf) as Hpos.
  unfold write_aligned. case_decide as Hl.
  { apply wp_ret. apply nil_length_inv in Hl as ->. unfold written. rewrite blit_nil. cbn [length] in *.
    split; [lia|]. split; [lia|]. split; [|done]. by eapply bytes_ok_less; [done|lia]. }
  apply wp_bind, wp_gets. destruct (quot_block _ _ _ k Hf) as [_ ->]. apply wp_bind, wp_lift.
  rewrite decide_False by lia. apply wp_bind.
  eapply wp_mono; [apply (wp_bulk _ e m (n + 1)); [lia| |lia|done|done]|].
  { replace (n + 1 + Z.of_nat (length b)) with (n + Z.of_nat (length b) + 1) by lia. done. }
  intros [[[b' cnt'] off'] [er|]] e1; [done|].
  intros (q & -> & Hb' & Hq & -> & -> & Hok1 & Hfr & _). case_decide as Hl'.
  - apply wp_ret. rewrite length_drop in Hl'. assert (q * fB e = length b)%nat as Hqb by lia.
    rewrite take_ge in Hok1 by lia. split; [lia|]. split; [lia|]. split; [|done]. by eapply bytes_ok_less; [done|lia].
  - rewrite <-(fr_blkSize _ _ Hfr) in *. apply (frame_wp _ _ _ _ Hfr).
    eapply wp_mono; [apply (wp_tail e1 _ n _ _ (k + q) Hok1 H0); [lia|len]|].
    intros [[c' o'] [er|]] e2 Hw; cbn [written] in *; [by rewrite <-(fr_ref _ _ Hfr)|].
    destruct Hw as (-> & -> & Hok2 & Hfr2). rewrite length_drop in *. split; [lia|]. split; [lia|].
    split; [|by eapply frame_trans]. replace ((k + q) * fB e1)%nat with (k * fB e1 + length (take (q * fB e1) b))%nat in Hok2 by len.
    rewrite blit_app, take_drop in Hok2 by len. done.
Qed.

(** Block [j] lies entirely inside the write. *)
Definition whole (bsz off len j : nat) : Prop := (off ≤ j * bsz ∧ (j + 1) * bsz ≤ off + len)%nat.

Lemma bulk_whole (bsz k len j : nat) : (0 < bsz)%nat → (k ≤ j < k + len / bsz)%nat → whole bsz (k * bsz) len j.
Proof. intros HB Hj. pose proof (Nat.Div0.mul_div_le len bsz). unfold whole. nia. Qed.

Lemma wp_front e m n b (i o : nat) :
  bytes_ok e m (n + Z.of_nat (length b) + 2) → 0 ≤ n → (o < fB e)%nat → (i * fB e + o + length b ≤ length m)%nat →
  (∀ j, whole (fB e) (i * fB e + o) (length b) j → not_cached (fcache e) j) →
  wp (fino e) (write_front b (Z.of_nat (i * fB e + o)) (Z.of_nat i)) (written e m b 0 (i * fB e + o) n) e.
Proof.
  intros Hok H0 Ho Hm Hclear. pose proof Hok as (vs & Hf & Hvs). pose proof (file_pos _ _ _ Hf) as Hpos.
  unfold write_front. apply wp_bind, wp_gets.
  replace (Z.of_nat (i * fB e + o) - blkSize (file e) * Z.of_nat i) with (Z.of_nat o) by nia. case_decide as Ho0.
  { assert (o = 0)%nat as -> by lia. rewrite Nat.add_0_r in *. apply wp_aligned; [|done|done|].
    - eapply bytes_ok_less; [done|]. lia.
    - intros j Hj. apply Hclear, bulk_whole; [lia|done]. }
  remember (Nat.min (length b) (fB e - o)) as fl eqn:Efl.
  assert ((if decide (Z.of_nat (length b) < blkSize (file e) - Z.of_nat o) then Z.of_nat (length b)
           else blkSize (file e) - Z.of_nat o) = Z.of_nat fl) as -> by (case_decide; lia).
  unfold gslice. rewrite decide_True by lia. rewrite Z.sub_0_r, Nat2Z.id, drop_0. apply wp_bind, wp_lift.
  assert (length (take fl b) = fl) as Hfl by len.
  assert (i * fB e + o < length m)%nat as Hlt.
  { pose proof (length_concat_blocks (fB e) vs (file_full _ _ _ Hf)) as Hlv. rewrite Hvs in Hlv.
    assert (i < length vs)%nat as Hiv by nia. nia. }
  assert (bytes_ok e m (n + Z.of_nat (length b) + 1 + 1)) as Hok'
    by (replace (n + Z.of_nat (length b) + 1 + 1) with (n + Z.of_nat (length b) + 2) by lia; done).
  assert (o + length (take fl b) ≤ fB e)%nat as Hof by lia.
  pose proof (wp_block e m _ i o (take fl b) Hok' ltac:(lia) Hlt Hof) as Hwb. rewrite Hfl in Hwb.
  apply wp_bind, wp_try; [|done]. eapply wp_mono; [exact Hwb|]. clear Hwb.
  intros c e1 (-> & Hok1 & Hfr & Hidx & Hrd). rewrite decide_False by lia.
  rewrite <-(fr_blkSize _ _ Hfr) in *.
  apply (frame_wp _ _ _ _ Hfr).
  assert (∀ r e2, written e1 (blit (i * fB e1 + o) (take fl b) m) (drop fl b) (Z.of_nat fl) (i * fB e1 + o + fl) n r e2 →
    written e m b 0 (i * fB e1 + o) n r e2) as Hend.
  { intros [[c' o'] [er|]] e2; cbn [written]; [by rewrite <-(fr_ref _ _ Hfr)|].
    intros (-> & -> & Hok2 & Hfr2). rewrite length_drop. split; [lia|]. split; [lia|].
    split; [|by eapply frame_trans]. rewrite <-Hfl in Hok2 at 1. rewrite blit_app, take_drop in Hok2 by len. done. }
  rewrite <-Nat2Z.inj_add. eapply wp_mono; [|exact Hend].
  destruct (decide (fl = length b)) as [Hall|Hall].
  - rewrite drop_ge by lia. unfold write_aligned. cbn [length]. rewrite decide_True by done. apply wp_ret.
    unfold written. cbn [length]. rewrite blit_nil. split; [lia|]. split; [lia|]. split; [|done].
    eapply bytes_ok_less; [done|lia].
  - replace (i * fB e1 + o + fl)%nat with (Datatypes.S i * fB e1)%nat by lia.
    apply wp_aligned; [|done| |].
    + eapply bytes_ok_less; [done|]. len.
    + len.
    + intros j Hj. apply bulk_whole in Hj as [Hj1 Hj2]; [|lia]. rewrite length_drop in Hj2.
      destruct (Hclear j) as [_ Hcr]; [unfold whole; lia|].
      split; [rewrite Hidx; nia|]. destruct Hrd as [->| ->]; [done|lia].
Qed.

Lemma div_split e vs n (off : nat) :
  file_ok e vs n →
  div_int (Z.of_nat off) (blkSize (file e)) = Ok (Z.of_nat (off / fB e)) ∧
  off = (off / fB e * fB e + off mod fB e)%nat ∧ (off mod fB e < fB e)%nat.
Proof.
  intros Hok. pose proof (file_pos _ _ _ Hok) as Hp. unfold div_int. rewrite decide_False by lia. split.
  - rewrite Z.quot_div_nonneg by lia. by rewrite Nat2Z.inj_div, Z2Nat.id by lia.
  - split; [rewrite Nat.mul_comm; apply Nat.div_mod; lia|apply Nat.mod_upper_bound; lia].
Qed.

(** The size of a file as the code reads it. *)
Definition small_size e : Prop := 0 ≤ IN_Filesize (inode (file e)) < 2 ^ 63.

Lemma wp_body e m n b (off : nat) :
  bytes_ok e m (n + Z.of_nat (length b) + 2) → 0 ≤ n → (off + length b ≤ length m)%nat →
  (∀ j, whole (fB e) off (length b) j → not_cached (fcache e) j) →
  wp (fino e) (write_body b (Z.of_nat off)) (written e m b 0 off n) e.
Proof.
  intros Hok H0 Hm Hclear. pose proof Hok as (vs & Hf & Hvs). pose proof (file_pos _ _ _ Hf) as Hpos.
  unfold write_body. apply wp_bind, wp_gets. destruct (div_split _ _ _ off Hf) as (-> & Hoff & Hmod).
  apply wp_bind, wp_lift. rewrite (sized_Length _ _ (file_sized _ _ _ Hf)).
  apply wp_bind, wp_lift. pose proof (length_concat_blocks (fB e) vs (file_full _ _ _ Hf)) as Hlv. rewrite Hvs in Hlv.
  rewrite decide_False by nia. apply wp_bind, wp_ret.
  pose proof (wp_front e m n b (off / fB e) (off mod fB e)) as Hw. rewrite <-Hoff in Hw. by apply Hw.
Qed.

(** The file may be written to, and has its inode. *)
Definition writable e : Prop := ReadOnly (file e) = false ∧ writeOpen (file e) = true.

Lemma frame_writable e e' : frame e e' → writable e → writable e'.
Proof. intros Hfr [? ?]. split; [rewrite (fr_readonly _ _ Hfr)|rewrite (fr_writeOpen _ _ Hfr)]; done. Qed.

(** The outcome of [WriteAt]. *)
Lemma wp_WriteAt e m n b (off : nat) :
  writable e → bytes_ok e m (n + Z.of_nat (length b) + 2) → 0 ≤ n → (off + length b ≤ length m)%nat →
  (∀ j, whole (fB e) off (length b) j → not_cached (fcache e) j) →
  small_size e → Z.of_nat (length m) < 2 ^ 63 →
  wp (fino e) (WriteAt b (Z.of_nat off)) (λ r e',
    match r with
    | (_, Some er) => refusal (fino e) er
    | (cnt, None) =>
        cnt = Z.of_nat (length b) ∧ bytes_ok e' (blit off b m) n ∧
        IN_Filesize (inode (file e')) = Z.max (IN_Filesize (inode (file e))) (Z.of_nat (off + length b)) ∧
        fino e' = fino e ∧ blkSize (file e') = blkSize (file e) ∧ writable e'
    end) e.
Proof.
  intros [Hro Hwo] Hok H0 Hm Hclear Hsm Hlm. unfold small_size in Hsm.
  unfold WriteAt. apply wp_bind, wp_try; [|done].
  unfold openWrite. apply wp_bind, wp_gets. rewrite Hro, Hwo. apply wp_ret, wp_bind.
  eapply wp_mono; [by apply wp_body|]. intros [[cnt off'] err] e1 Hw. apply wp_bind, wp_gets.
  destruct err as [er|]; cbn [written] in Hw.
  { case_decide; exec; done. }
  destruct Hw as (-> & -> & (vs1 & Hf1 & Hm1) & Hfr). rewrite (fr_inode _ _ Hfr), to_signed_small by lia.
  case_decide as Hd; exec.
  - split; [lia|]. rewrite wrap_id by (unfold in_width; lia). split; [|split; [lia|split; [apply Hfr|split; [apply Hfr|]]]].
    2: by apply (frame_writable _ _ Hfr).
    exists vs1. split; [|done]. destruct Hf1. by split.
  - split; [lia|]. split; [by exists vs1|]. rewrite (fr_inode _ _ Hfr). split; [lia|]. split; [apply Hfr|]. split; [apply Hfr|].
    by apply (frame_writable _ _ Hfr).
Qed.

(** *** Reading bytes *)

Lemma getBlock_run e vs n (i : nat) d :
  file_ok e vs n → vs !! i = Some d →
  ∃ sl e', getBlock (Z.of_nat i) e = (Ok (Some sl), e') ∧ deref (store e') sl = d ∧ file_ok e' vs n ∧ frame e e'.
Proof.
  intros Hok Hd. pose proof Hok as [Hc Hsz Hr]. pose proof (lookup_lt_Some _ _ _ Hd) as Hi.
  pose proof Hc as [_ _ _ _ _ Hopen Hread]. unfold getBlock. rewrite (bind_step (gets _) _ _ (fcache e) e) by done.
  case_decide as Ho.
  { destruct (openData (fcache e)) as [sl|]; [|lia]. destruct Hopen as (_ & Hlk & _).
    rewrite Ho, Nat2Z.id in Hlk. exists sl, e. split_and!; [done|congruence|done|done]. }
  case_decide as Hri.
  - destruct (read_get _ _ _ _ _ i Hc Hi Ho) as (sl & s' & Hg & Hext & Hlk & Hc').
    unfold openRead, get_block, on_store. exec. rewrite Hg. exec. eexists sl, _. split; [done|]. split; [cbn; congruence|].
    split; [|done]. split; cbn; try done. by rewrite (ext_size _ _ Hext).
  - exec. destruct (readData (fcache e)) as [sl|]; [|lia]. destruct Hread as (_ & Hlk & _).
    replace (Z.to_nat (readIdx (fcache e))) with i in Hlk by lia. exists sl, e. split_and!; [done|congruence|done|done].
Qed.

Lemma wp_read_loop fuel e m n b (t k o : nat) :
  (t - k < fuel)%nat → bytes_ok e m n → (k ≤ t)%nat → (t ≤ length b)%nat → (o + t ≤ length m)%nat →
  wp (fino e) (read_loop fuel b (Z.of_nat t) (Z.of_nat k) (Z.of_nat (o + k))) (λ r e',
    r = (blit k (take (t - k) (drop (o + k) m)) b, Z.of_nat t, None) ∧ bytes_ok e' m n ∧ frame e e') e.
Proof.
  revert e b k. induction fuel as [|fuel IH]; intros e b k Hfuel Hok Hk Ht Hm; [lia|].
  cbn [read_loop]. case_decide as Hd.
  { apply wp_ret. assert (k = t) as -> by lia. by rewrite Nat.sub_diag, take_0, blit_nil. }
  pose proof Hok as (vs & Hf & Hvs). pose proof (file_pos _ _ _ Hf) as Hpos. pose proof (file_full _ _ _ Hf) as Hfull.
  apply wp_bind, wp_gets. destruct (div_split _ _ _ (o + k) Hf) as (-> & Hoff & Hmod). apply wp_bind, wp_lift.
  set (i := ((o + k) / fB e)%nat) in *. set (r := ((o + k) mod fB e)%nat) in *.
  destruct (block_lookup _ _ _ i r Hf) as (d & Hdi & Hdl); [rewrite Hvs; lia|].
  destruct (getBlock_run e vs n i d Hf Hdi) as (sl & e1 & Hg & Hds & Hok1 & Hfr).
  apply wp_bind. unfold wp at 1, try. rewrite Hg. cbv beta iota. apply wp_bind, wp_gets. rewrite Hds.
  replace (Z.of_nat (o + k) - blkSize (file e) * Z.of_nat i) with (Z.of_nat r) by lia.
  set (tr := Nat.min (t - k) (fB e - r)).
  assert ((if decide (Z.of_nat t - Z.of_nat k < blkSize (file e) - Z.of_nat r) then Z.of_nat t - Z.of_nat k
           else blkSize (file e) - Z.of_nat r) = Z.of_nat tr) as -> by (unfold tr; case_decide; lia).
  assert (0 < tr ≤ t - k)%nat as Htr by (unfold tr; lia). assert (r + tr ≤ fB e)%nat as Hrt by (unfold tr; lia).
  unfold gslice. rewrite decide_True by lia. replace (Z.to_nat (Z.of_nat r + Z.of_nat tr - Z.of_nat r)) with tr by lia.
  rewrite !Nat2Z.id. apply wp_bind, wp_lift.
  assert (take tr (drop r d) = take tr (drop (o + k) m)) as Hsrc.
  { rewrite Hoff, <-Hvs. symmetry. by apply concat_slice. }
  rewrite Hsrc. assert (length (take tr (drop (o + k) m)) = tr) as Hlsrc by len.
  unfold copied. rewrite Hlsrc, Nat.min_l by lia. rewrite <-!Nat2Z.inj_add, <-Nat.add_assoc.
  apply (frame_wp _ _ _ _ Hfr). eapply wp_mono.
  { apply (IH e1); [lia|by exists vs|lia|by rewrite length_blit|done]. }
  intros res e2 (-> & Hok2 & Hfr2). split; [|split; [done|by eapply frame_trans]]. do 2 f_equal.
  rewrite <-Hlsrc at 1. rewrite blit_app by len. f_equal.
  replace (drop (o + (k + tr)) m) with (drop tr (drop (o + k) m)) by (rewrite drop_drop; f_equal; lia).
  replace (t - k)%nat with (tr + (t - (k + tr)))%nat by lia.
  apply take_take_drop.
Qed.

Lemma wp_ReadAt e m n b (off : nat) :
  bytes_ok e m n → small_size e → IN_Filesize (inode (file e)) ≤ Z.of_nat (length m) →
  Z.of_nat (length b) + Z.of_nat off < 2 ^ 63 →
  let z := Z.to_nat (IN_Filesize (inode (file e))) in
  let cnt := Nat.min (length b) (z - off) in
  wp (fino e) (ReadAt b (Z.of_nat off)) (λ r e',
    r = (blit 0 (take cnt (drop off m)) b, Z.of_nat cnt, if decide (z < off + length b)%nat then Some EOF else None) ∧
    bytes_ok e' m n ∧ frame e e') e.
Proof.
  intros Hok Hsm Hfs Hlen z cnt. unfold small_size in Hsm. unfold ReadAt. apply wp_bind, wp_gets.
  rewrite !to_signed_small by lia.
  set (long := bool_decide (IN_Filesize (inode (file e)) < Z.of_nat (length b) + Z.of_nat off)).
  assert (long = bool_decide (z < off + length b)%nat) as Hlong by (apply bool_decide_ext; lia).
  assert (wp (fino e) (read_loop (Datatypes.S (length b)) b
    (if long then IN_Filesize (inode (file e)) - Z.of_nat off else Z.of_nat (length b)) 0 (Z.of_nat off)) (λ r e',
    r = (blit 0 (take cnt (drop off m)) b, Z.of_nat cnt, None) ∧ bytes_ok e' m n ∧ frame e e') e) as Hloop.
  { destruct (decide (z < off)%nat) as [Hz|Hz].
    - rewrite Hlong, bool_decide_true by lia. replace cnt with 0%nat by lia. cbn [read_loop].
      rewrite decide_True by lia. apply wp_ret. by rewrite take_0, blit_nil.
    - replace (if long then _ else _) with (Z.of_nat cnt) by (rewrite Hlong; case_bool_decide; lia).
      pose proof (wp_read_loop (Datatypes.S (length b)) e m n b cnt 0 off) as Hl.
      rewrite Nat.sub_0_r, Nat.add_0_r in Hl. apply Hl; [lia|done|lia|lia|lia]. }
  apply wp_bind. eapply wp_mono; [exact Hloop|]. intros r e' (-> & Hok' & Hfr). apply wp_ret.
  split; [|done]. f_equal. rewrite Hlong. by case_bool_decide; case_decide.
Qed.
End file.
