(* ===== verification/FileProps.v ===== *)
(** * What a file promises

    Theorems about [File]: a file open for writing behaves as an array of
    bytes under reads, writes inside a block and syncs; what is synced is what
    a later open of the inode reads; and the cases the code gets wrong. *)
From S2P Require Import Prelude GoSem Refs TempStore Store Crc32 Blockset BlocksetSpec Proto Models INodeStore File FileSpec.

(** ** The array of bytes *)

(** The calls a client makes and what it sees of them. *)
Inductive fop : Type :=
  | FWrite (b : bytes) (off : nat)
  | FRead (len off : nat)
  | FSync.
Inductive fout : Type := FWrote (n : Z) | FGot (d : bytes) (eof : bool) | FDone.

(** The array and the size of the file. *)
Definition array : Type := bytes * nat.

Definition array_step (o : fop) (a : array) : fout * array :=
  let '(m, z) := a in
  match o with
  | FWrite b off => (FWrote (Z.of_nat (length b)), (blit off b m, Nat.max z (off + length b)))
  | FRead len off =>
      (FGot (take (Nat.min len (z - off)) (drop off m)) (bool_decide (z < off + len)%nat), a)
  | FSync => (FDone, a)
  end.


(** Writes stay inside the array and cover no whole block. *)
Definition fop_ok (bsz n : nat) (o : fop) : Prop :=
  match o with
  | FWrite b off => (off + length b ≤ n)%nat ∧ ∀ j, ¬ whole bsz off (length b) j
  | FRead len off => Z.of_nat len + Z.of_nat off < 2 ^ 63
  | FSync => True
  end.

(** Block numbers a call may use up. *)
Definition fop_cost (o : fop) : Z :=
  match o with FWrite b _ => Z.of_nat (length b) + 2 | FRead _ _ => 0 | FSync => 1 end.


Section file.
Context {S : Type} `{L : BlockStoreLaws S} {D : Type} `{HD : MDS D} `{HR : Range} `{HG : Godbc}.
Implicit Types (e : state (S := S) (D := D)) (vs : list bytes).

Definition run_fop (o : fop) : M (state (S := S) (D := D)) fout :=
  match o with
  | FWrite b off =>
      '(n, err) ← WriteAt b (Z.of_nat off);
      match err with Some x => throw x | None => mret (FWrote n) end
  | FRead len off =>
      '(b, n, err) ← ReadAt (zeros len) (Z.of_nat off);
      match err with
      | None => mret (FGot (take (Z.to_nat n) b) false)
      | Some EOF => mret (FGot (take (Z.to_nat n) b) true)
      | Some x => throw x
      end
  | FSync => _ ← SyncBlocks; mret FDone
  end.


(** The file is the array [a], with [n] block numbers left. *)
Record is_array e (a : array) (n : Z) : Prop := {
  ia_bytes : bytes_ok e a.1 n;
  ia_size : IN_Filesize (inode (file e)) = Z.of_nat a.2;
  ia_inside : (a.2 ≤ length a.1)%nat;
  ia_bound : Z.of_nat (length a.1) < 2 ^ 63;
}.

Lemma wp_Flush e Q : Q tt e → wp (writeINodeRef (file e)) (on_store Flush) Q e.
Proof.
  intros HQ. unfold wp, on_store. destruct (Flush (store e)) as [o s'] eqn:E.
  destruct (Flush_same _ _ _ E) as [-> Hp]. destruct e. destruct o as [[]|err|]; [done| |done].
  right. by eexists _, _.
Qed.

Lemma wp_SyncBlocks e vs n :
  file_ok e vs (n + 1) → 0 ≤ n →
  wp (writeINodeRef (file e)) SyncBlocks (λ _ e', file_ok e' vs n ∧ frame e e' ∧
    cache (file e') = unwrote (cache (file e))) e.
Proof.
  intros Hok H0. unfold SyncBlocks. apply wp_bind. eapply wp_mono; [by apply wp_sync|].
  intros [] e1 (Hok1 & Hfr & Hc). apply (frame_wp _ _ _ _ Hfr). by apply wp_Flush.
Qed.

(** One call. *)
Lemma wp_fop o e a n :
  writable e → is_array e a (fop_cost o + n) → 0 ≤ n → fop_ok (Z.to_nat (blkSize (file e))) (length a.1) o →
  wp (writeINodeRef (file e)) (run_fop o) (λ x e', ∃ a', array_step o a = (x, a') ∧ is_array e' a' n ∧ writable e' ∧
    writeINodeRef (file e') = writeINodeRef (file e) ∧ blkSize (file e') = blkSize (file e) ∧
    length a'.1 = length a.1) e.
Proof.
  destruct a as [m z]. intros Hwr [Hok Hz Hin Hb] H0 Hop. cbn [fst snd] in *.
  destruct o as [b off|len off|]; cbn [fop_ok fop_cost run_fop] in *.
  - destruct Hop as [Hoff Hw]. apply wp_bind. eapply wp_mono.
    { apply (wp_WriteAt e m n b off); [done|by replace (n + _ + 2) with (Z.of_nat (length b) + 2 + n) by lia|done|done| |unfold small_size; lia|done].
      intros j Hj. by destruct (Hw j). }
    intros [cnt [er|]] e1; [done|]. intros (-> & Hok' & Hfs & Hino & Hbs & Hwr'). apply wp_ret.
    eexists. split; [done|]. split; [|split; [done|]; cbn [fst]; by rewrite length_blit]. split; cbn [fst snd]; rewrite ?length_blit; [done|lia|lia|done].
  - apply wp_bind. eapply wp_mono.
    { apply (wp_ReadAt e m n); [by eapply bytes_ok_less; [done|lia]|unfold small_size; lia|lia|len]. }
    rewrite length_zeros, Hz, Nat2Z.id. set (cnt := Nat.min len (z - off)). intros r e1 (-> & Hok' & Hfr).
    assert (take (Z.to_nat (Z.of_nat cnt)) (blit 0 (take cnt (drop off m)) (zeros len)) = take cnt (drop off m)) as Hd.
    { assert (length (take cnt (drop off m)) = cnt) as Hl by (unfold cnt; len).
      rewrite Nat2Z.id. unfold blit. rewrite length_zeros, take_0, (take_ge _ (len - 0)) by lia.
      cbn [app]. by apply take_app_length'. }
    assert (is_array e1 (m, z) n ∧ writable e1 ∧ writeINodeRef (file e1) = writeINodeRef (file e) ∧
      blkSize (file e1) = blkSize (file e)) as (? & ? & ? & ?).
    { split; [|split; [by apply (frame_writable _ _ Hfr)|by split; apply Hfr]]. split; cbn; rewrite ?(fr_inode _ _ Hfr); done. }
    unfold array_step. fold cnt. case_decide; apply wp_ret; rewrite Hd; eexists; (split; [|done]);
      [by rewrite bool_decide_true|by rewrite bool_decide_false].
  - destruct Hok as (vs & Hf & Hvs). apply wp_bind. eapply wp_mono; [by apply (wp_SyncBlocks e vs n); [rewrite Z.add_comm|]|].
    intros [] e1 (Hf1 & Hfr & _). apply wp_ret. eexists. split; [done|]. split; [|split; [by apply (frame_writable _ _ Hfr)|split; [apply Hfr|split; [apply Hfr|done]]]].
    split; cbn; rewrite ?(fr_inode _ _ Hfr); [by exists vs|done|done|done].
Qed.

(** ** Files just opened *)

(** The blockset of a file that is being opened: its blocks are [vs], no block
    appears twice, and none is newer than the inode [ino]. *)
Record opened (ino : INodeRef) b (s : S) vs : Prop := {
  op_stack : stack_ok ino b s vs;
  op_full : Forall (λ v, Z.of_nat (length v) = BlockSize s) vs;
  op_distinct j k r : base_refs b !! j = Some r → base_refs b !! k = Some r → IsZero r = false → j = k;
}.

Lemma opened_file_ok e ino vs n bsz :
  opened ino (blocks (file e)) (store e) vs → blkSize (file e) = BlockSize (store e) →
  writeINodeRef (file e) = ino →
  cache (file e) = mkCache (-1) None false ino (-1) None bsz →
  0 ≤ n → usable (S := S) ino (counter (blocks (file e))) (counter (blocks (file e)) + n) →
  file_ok e vs n.
Proof.
  intros [Hs Hf Hd] Hb Hi Hc Hn Hu. split; [|done|by rewrite Hi]. rewrite Hc, Hi.
  split; [exact Hs|done|done|done| |done|done]. apply each_ref_base; [apply Hs|]. apply Hs.
Qed.

Lemma Truncate_base_refs n bsz b b' :
  no_replication b → Blockset.Truncate n bsz b = (Ok tt, b') → 0 ≤ n →
  base_refs b' = truncated n ZeroBlock (base_refs b).
Proof.
  intros Hn Ht H0. revert b' Ht. induction b as [|ids bl st z|sub IH crcs x|]; intros b' Ht; [done| | |done].
  - revert Ht. layers. rewrite resize_truncated by done. by intros [= <-].
  - revert Ht. layers. destruct (Blockset.Truncate n bsz sub) as [[[]|err|] sub'] eqn:E; [|done|done].
    rewrite resize_truncated by done. intros [= <-]. cbn [base_refs]. by apply IH.
Qed.

Lemma truncated_lookup_old {A} n (z : A) (l : list A) j x :
  truncated n z l !! j = Some x → x ≠ z → l !! j = Some x.
Proof.
  unfold truncated. intros Hl Hx. apply lookup_app_Some in Hl as [Hl|[_ Hl]].
  - by apply lookup_take_Some in Hl as [? _].
  - by apply lookup_replicate in Hl as [? _].
Qed.

Lemma opened_Truncate ino b s vs n :
  opened ino b s vs → 0 ≤ n →
  ∃ b', Blockset.Truncate n (BlockSize s) b = (Ok tt, b') ∧ counter b' = counter b ∧
    opened ino b' s (truncated n (zeros (Z.to_nat (BlockSize s))) vs).
Proof.
  intros [Hs Hf Hd] Hn. pose proof Hs as [Hi _ Hr Hno _ _]. pose proof (no_replication_simple _ Hno) as (_ & Hx & Hw).
  destruct (truncate_repr b s vs n Hn Hr Hx (or_intror Hw)) as (b' & Ht & Hss & Hr').
  exists b'. split; [done|]. split; [apply Hss|]. split.
  - by eapply stack_same_shape.
  - apply truncated_Forall; [|done]. pose proof (BlockSize_pos _ Hi). rewrite length_zeros. lia.
  - intros j k r. rewrite (Truncate_base_refs _ _ _ _ Hno Ht Hn). intros Hj Hk Hz.
    assert (r ≠ ZeroBlock) as Hne by (by intros ->).
    eapply Hd; [by eapply truncated_lookup_old..|done].
Qed.

Lemma concat_truncated n bsz vs :
  Forall (λ v, length v = bsz) vs →
  concat (truncated (Z.of_nat n) (zeros bsz) vs) = truncated (Z.of_nat (n * bsz)) x00 (concat vs).
Proof.
  intros Hf. unfold truncated. rewrite !Nat2Z.id, concat_app, (length_concat_blocks bsz) by done. f_equal.
  - revert n. induction Hf as [|v vs Hv _ IH]; intros [|n]; simpl; [done|by rewrite take_nil|done|].
    rewrite IH, take_app, Hv. f_equal; [by rewrite take_ge by lia|]. f_equal. lia.
  - rewrite <-Nat.mul_sub_distr_r. induction (n - length vs)%nat as [|k IH]; [done|].
    cbn [replicate concat]. rewrite IH. cbn [Nat.mul]. by rewrite replicate_add.
Qed.


(** The blocks that hold [size] bytes. *)
Definition blocks_for (bsz size : nat) : nat := (size + bsz - 1) / bsz.

Lemma blocks_for_quot (bsz size : nat) :
  (0 < bsz)%nat →
  (if decide (Z.rem (Z.of_nat size) (Z.of_nat bsz) ≠ 0) then Z.quot (Z.of_nat size) (Z.of_nat bsz) + 1
   else Z.quot (Z.of_nat size) (Z.of_nat bsz)) = Z.of_nat (blocks_for bsz size).
Proof.
  intros Hb. rewrite Z.quot_div_nonneg, Z.rem_mod_nonneg by lia. unfold blocks_for.
  rewrite <-Nat2Z.inj_div, <-Nat2Z.inj_mod.
  pose proof (Nat.div_mod size bsz ltac:(lia)) as Hs. set (q := (size / bsz)%nat) in *.
  pose proof (Nat.mod_upper_bound size bsz ltac:(lia)) as Hr. set (r := (size mod bsz)%nat) in *.
  case_decide as Hd.
  - rewrite <-(Nat.div_unique (size + bsz - 1) bsz (q + 1) (r - 1)); lia.
  - rewrite <-(Nat.div_unique (size + bsz - 1) bsz q (bsz - 1)); lia.
Qed.

Lemma blocks_for_bounds (bsz size : nat) :
  (0 < bsz)%nat → (size ≤ blocks_for bsz size * bsz < size + bsz)%nat.
Proof.
  intros Hb. unfold blocks_for. pose proof (Nat.div_mod (size + bsz - 1) bsz ltac:(lia)) as Hs.
  pose proof (Nat.mod_upper_bound (size + bsz - 1) bsz ltac:(lia)). nia.
Qed.

(** The first [Truncate] of a new file. *)
Lemma create_truncate (bsz size : nat) (v : Models.Volume) (i : MINode) (b : blockset) (s : S) (d d' : D)
    (vs : list bytes) (idx n : Z) (ino := mkINodeRef (VId v) idx) :
  CommitINodeIndex (VId v) d = (Ok idx, d') → 0 ≤ VId v < VolumeMax → opened ino b s vs → BlockSize s = Z.of_nat bsz →
  Z.of_nat size + Z.of_nat bsz < 2 ^ 63 → 0 ≤ n → usable (S := S) ino (counter b) (counter b + n) →
  ∃ e', Truncate (Z.of_nat size) (mkState (CreateFile (Z.of_nat bsz) v i b) s d) = (Ok tt, e') ∧
    writable e' ∧ writeINodeRef (file e') = ino ∧
    is_array e' (truncated (Z.of_nat (blocks_for bsz size * bsz)) x00 (concat vs), size) n.
Proof.
  intros Hd Hvid Hop Hb Hsz Hn Hu. pose proof Hop as [[Hi _ _ _ _ _] Hf _]. pose proof (BlockSize_pos _ Hi) as Hpos.
  destruct (opened_Truncate ino b s vs (Z.of_nat (blocks_for bsz size)) Hop ltac:(lia)) as (b' & Ht & Hct & Hop').
  pose proof (blocks_for_bounds bsz size ltac:(lia)) as Hbd.
  unfold Truncate, openWrite, CreateFile, gets, set_file, modify, newINode, set_cache, on_mds, mbind, M_bind, lift.
  cbn [file ReadOnly writeOpen volume mds]. rewrite Hd, NewINodeRef_small by done. cbn. unfold div_int, rem_int. rewrite !decide_False by lia.
  cbn [file blkSize]. rewrite blocks_for_quot by lia. unfold try, on_blocks. cbn [file blocks store]. rewrite <-Hb, Ht.
  cbn. unfold set_Filesize, set_inode, set_file, modify, gets, mbind, M_bind. cbn. eexists. split; [done|].
  split; [done|]. split; [done|]. split; cbn [fst snd].
  - exists (truncated (Z.of_nat (blocks_for bsz size)) (zeros bsz) vs). split.
    + rewrite Hb, Nat2Z.id in Hop'. eapply opened_file_ok; cbn; [done|done|done|done|done|by rewrite Hct].
    + apply concat_truncated. eapply Forall_impl; [|exact Hf]. cbn. lia.
  - cbn. rewrite wrap_id; [done|]. unfold in_width. lia.
  - unfold truncated. len.
  - unfold truncated. len.
Qed.

(** A file made over a blockset of checksum layers and set to a size is
    open for writing under the inode the metadata service committed, and is the
    array of the old bytes cut off, or extended with zeros, to the last block
    the size reaches into. *)
Theorem file_create_truncate (bsz size : nat) (v : Models.Volume) (i : MINode) (b : blockset) (s : S) (d d' : D)
    (vs : list bytes) (idx n : Z) (ino := mkINodeRef (VId v) idx) :
  CommitINodeIndex (VId v) d = (Ok idx, d') → 0 ≤ VId v < VolumeMax → opened ino b s vs → BlockSize s = Z.of_nat bsz →
  Z.of_nat size + Z.of_nat bsz < 2 ^ 63 → 0 ≤ n → usable (S := S) ino (counter b) (counter b + n) →
  ∃ e', Truncate (Z.of_nat size) (mkState (CreateFile (Z.of_nat bsz) v i b) s d) = (Ok tt, e') ∧
    writable e' ∧ writeINodeRef (file e') = ino ∧
    is_array e' (truncated (Z.of_nat (blocks_for bsz size * bsz)) x00 (concat vs), size) n.
Proof. by apply create_truncate. Qed.

(** [WriteAt] inside the array, of any length, either fails with an error
    of the block store or writes all its bytes at the offset, extends the size
    to the end of the write and changes no other byte, provided the whole blocks
    it covers are not held by the cache; it never panics. *)
Theorem file_write_at (e : state (S := S) (D := D)) (a : array) (n : Z) (b : bytes) (off : nat) :
  writable e → is_array e a (n + Z.of_nat (length b) + 2) → 0 ≤ n → (off + length b ≤ length a.1)%nat →
  (∀ j, whole (Z.to_nat (blkSize (file e))) off (length b) j → not_cached (cache (file e)) j) →
  match WriteAt b (Z.of_nat off) e with
  | (Ok (cnt, None), e') =>
      cnt = Z.of_nat (length b) ∧ is_array e' (blit off b a.1, Nat.max a.2 (off + length b)) n ∧ writable e'
  | (Ok (_, Some err), _) | (Err err, _) => refusal (S := S) (writeINodeRef (file e)) err
  | (Panic, _) => False
  end.
Proof.
  destruct a as [m z]. intros Hw [Hok Hz Hin Hb] H0 Hoff Hc. cbn [fst snd] in *.
  pose proof (wp_WriteAt e m n b off Hw Hok H0 Hoff Hc) as Hp. unfold wp in Hp.
  specialize (Hp ltac:(unfold small_size; lia) Hb).
  destruct (WriteAt b (Z.of_nat off) e) as [[[cnt [err|]]|err|] e']; try done.
  destruct Hp as (-> & Hok' & Hfs & _ & _ & Hw'). split; [done|]. split; [|done].
  split; cbn [fst snd]; rewrite ?length_blit; [done|lia|lia|done].
Qed.

(** ** Writing the inode back *)

Lemma encodable_repr b s vs :
  no_replication b → repr b s vs → Forall wf_blockref (base_refs b) → encodable b.
Proof.
  intros Hn Hr Hf. induction b as [|ids bl st z|sub IH crcs x|]; [done|done| |done].
  destruct Hr as [Hr ->]. split; [by apply IH|]. apply Forall_fmap, Forall_true. intros d. apply ChecksumIEEE_width.
Qed.

Lemma reload_repr z b s vs : no_replication b → repr b s vs → repr (reload (Some z) b) s vs.
Proof.
  intros Hn Hr. induction b as [|ids bl st z'|sub IH crcs x|]; [done| | |done].
  - destruct Hr as [_ Hr]. split; [by rewrite bool_decide_true by (by eexists)|done].
  - destruct Hr as [Hr ->]. split; [by apply IH|done].
Qed.

Lemma base_refs_reload st b : base_refs (reload st b) = base_refs b.
Proof. by induction b. Qed.
Lemma counter_reload st b : counter (reload st b) = 0.
Proof. by induction b. Qed.
Lemma no_replication_reload st b : no_replication b → no_replication (reload st b).
Proof. by induction b. Qed.

(** A reference to a data block of some inode, as it is serialized. *)
Definition data_ref (r : BlockRef) : Prop :=
  wf_blockref r ∧ BlockType r = 0 ∧ old (mkINodeRef 0 0) 0 r.

Lemma data_ref_outside i r : data_ref r → outside i 0 r.
Proof.
  intros (_ & Ht & _) j _ ->. unfold inode_ref in Ht.
  rewrite SetBlockType_BlockType in Ht by (simpl; lia). apply Z.lor_eq_0_iff in Ht as [_ Ht]. done.
Qed.

(** A blockset read back from its serialized form, over a store that still
    holds its blocks. *)
Lemma reload_opened b s s' vs :
  inv s' → is_open s' → BlockSize s' = BlockSize s → no_replication b → repr b s vs →
  Forall (λ v, Z.of_nat (length v) = BlockSize s) vs →
  (∀ j k r, base_refs b !! j = Some r → base_refs b !! k = Some r → IsZero r = false → j = k) →
  Forall data_ref (base_refs b) → (∀ r, data_ref r → stored s' r = stored s r) →
  opened (mkINodeRef 0 0) (reload (Some (BlockSize s')) b) s' vs.
Proof.
  intros Hi Ho Hb Hn Hr Hf Hd Hall Hst. split; [|by rewrite Hb|by rewrite base_refs_reload].
  split; [done|done| |by apply no_replication_reload| |by rewrite counter_reload].
  - apply reload_repr; [done|]. apply (repr_frame s); [done| |done].
    apply each_ref_base; [done|]. eapply Forall_impl; [|exact Hall]. intros r. apply Hst.
  - apply each_ref_base; [by apply no_replication_reload|]. rewrite base_refs_reload, counter_reload.
    eapply Forall_impl; [|exact Hall]. by intros r (_ & _ & ?).
Qed.

(** The file whose blocks are synced, with its blockset serialized. *)
Definition with_layers (i : MINode) (layers : list PBlockLayer) : MINode :=
  mkMINode (IN_Volume i) (IN_INode i) (IN_Filesize i) (IN_Attrs i) layers.

(** A file whose inode can be saved: its blocks marshal to [layers], they are data blocks,
    the inode is the volume's and can be encoded, its length fits the header, and the
    store takes the blocks of the inode. *)
Record savable (e : state (S := S) (D := D)) (layers : list PBlockLayer) : Prop := {
  sv_marshal : MarshalBlocksetToProto (blocks (file e)) = Ok layers;
  sv_refs : Forall data_ref (base_refs (blocks (file e)));
  sv_volume : IN_Volume (inode (file e)) = VId (volume (file e));
  sv_valid : INode_valid (with_layers (inode (file e)) layers);
  sv_size : 0 < INode_Size (with_layers (inode (file e)) layers) < 2 ^ 32;
  sv_inode : INode (writeINodeRef (file e)) ≠ 0;
  sv_block : 4 ≤ BlockSize (store e);
  sv_blocks : ∀ j, 1 ≤ j ≤ INode_Size (with_layers (inode (file e)) layers) + 1 → valid (inode_ref (writeINodeRef (file e)) j);
}.

(** What [SyncINode] leaves behind. *)
Lemma sync_reopen (e : state (S := S) (D := D)) (a : array) (n : Z) (layers : list PBlockLayer)
    (ino := writeINodeRef (file e)) (i := with_layers (inode (file e)) layers) :
  is_array e a n → openWrote (cache (file e)) = false → savable e layers →
  match SyncINode e with
  | (Ok ref, e') =>
      ref = ino ∧ writeOpen (file e') = false ∧ mds e' = mds e ∧
      ∃ s2 b, GetINode ref (store e') = (Ok i, s2) ∧
        UnmarshalFromProto (IN_Blocks i) (Some (BlockSize s2)) = Ok b ∧
        ∀ v d, is_array (mkState (CreateFile (blkSize (file e)) v i b) s2 d) a 0
  | (Err _, e') => mds e' = mds e ∧ writeOpen (file e') = writeOpen (file e) ∧ writeINodeRef (file e') = ino
  | (Panic, _) => False
  end.
Proof.
  intros [(vs & [Hc Hbs Hroom] & Hvs) Hz Hin Hb] Hw [Hm Hrefs Hvol Hval Hsz Hnz H4 Hv].
  pose proof Hc as [[Hi Ho Hr Hn _ _] _ Hfull Hdist _ _ _]. unfold clean, clean_vs in Hr, Hn. rewrite Hw in Hr, Hn.
  assert (Forall wf_blockref (base_refs (blocks (file e)))) as Hwf
    by (eapply Forall_impl; [|exact Hrefs]; by intros r []).
  pose proof (inode_write_spec ino i (store e) Hi Ho Hnz H4 Hval Hsz Hv) as Hwi.
  unfold SyncINode, gets, lift, set_inode, set_file, modify, mbind, M_bind. cbn [file inode]. rewrite Hm. cbn.
  fold (with_layers (inode (file e)) layers). fold i. rewrite decide_False by (by intros []).
  unfold on_store. cbn [store file]. fold ino. destruct (WriteINode ino i (store e)) as [[[]|err|] s1]; cbn; [|done|done].
  destruct Hwi as (He1 & Hk & s2 & Hg & He2 & Hs2). split; [done|]. split; [done|]. split; [done|].
  destruct (layers_roundtrip (blocks (file e)) (Some (BlockSize s2))) as (layers' & Hm' & Hu & Hl); [by eapply encodable_repr|].
  rewrite Hm in Hm'. injection Hm' as <-. exists s2, (reload (Some (BlockSize s2)) (blocks (file e))).
  assert (BlockSize s2 = BlockSize (store e)) as Hb2 by (rewrite (ext_size _ _ He2); apply He1).
  split; [done|]. split.
  { unfold UnmarshalFromProto. rewrite decide_False; [done|]. apply Hl. by intros Hb'; rewrite Hb' in Hr. }
  intros v d. split; [|done|done|done]. exists vs. split; [|done].
  eapply (opened_file_ok _ (mkINodeRef 0 0)); cbn; [|by rewrite Hbs, Hb2|done|done|done|].
  - apply (reload_opened _ (store e)); try done; [apply He2|by apply He2, He1|].
    intros r Hd. rewrite Hs2. apply Hk. by apply data_ref_outside.
  - rewrite counter_reload. split_and!; [lia|lia|]. lia.
Qed.

(** [SyncBlocks] changes the blocks, the cache and the store only, also when it fails. *)
Lemma SyncBlocks_frame (e : state (S := S) (D := D)) : frame e (SyncBlocks e).2.
Proof.
  unfold SyncBlocks, sync, set_wrote, set_cache, set_file, modify, gets, contents, on_store, mbind, M_bind, mret, M_ret. destruct (openWrote (cache (file e))); cbn.
  - unfold try, on_blocks. destruct (PutBlock _ _ _ _ _) as [[[[]|err|] b] s'] eqn:Ep; cbn; [|by split|by split]. destruct (Store.Flush s') as [o s2]; by split.
  - destruct (Store.Flush (store e)) as [o s2]; by split.
Qed.

(** [SyncBlocks], then [SyncINode]. *)
Lemma sync_all (e : state (S := S) (D := D)) (a : array) (n : Z) :
  is_array e a (n + 1) → 0 ≤ n → (∀ e1, SyncBlocks e = (Ok tt, e1) → ∃ layers, savable e1 layers) →
  match SyncAllWrites e with
  | (Ok ref, e') =>
      ref = writeINodeRef (file e) ∧ writeOpen (file e') = false ∧ mds e' = mds e ∧
      ∃ i s2 b, GetINode ref (store e') = (Ok i, s2) ∧
        UnmarshalFromProto (IN_Blocks i) (Some (BlockSize s2)) = Ok b ∧
        ∀ v d, is_array (mkState (CreateFile (blkSize (file e)) v i b) s2 d) a 0
  | (Err _, e') => mds e' = mds e ∧ writeOpen (file e') = writeOpen (file e) ∧ writeINodeRef (file e') = writeINodeRef (file e)
  | (Panic, _) => False
  end.
Proof.
  intros [(vs & Hf & Hvs) Hz Hin Hb] Hn Hsv. pose proof (wp_SyncBlocks e vs n Hf Hn) as Hw. pose proof (SyncBlocks_frame e) as Hfr.
  unfold wp in Hw. unfold SyncAllWrites, mbind, M_bind. destruct (SyncBlocks e) as [[[]|err|] e1] eqn:E1; cbn [snd] in Hfr; [| |done].
  - destruct (Hsv e1 eq_refl) as [layers Hs]. destruct Hw as (Hf1 & _ & Hce).
    assert (is_array e1 a n) as Ha1 by (split; rewrite ?(fr_inode _ _ Hfr); [by exists vs|done|done|done]).
    pose proof (sync_reopen e1 a n layers Ha1 ltac:(by rewrite Hce) Hs) as Hr. destruct (SyncINode e1) as [[ref|err|] e2]; [| |done].
    + destruct Hr as (-> & Hwo & Hm & s2 & b & Hg & Hu & Harr). rewrite (fr_ref _ _ Hfr), (fr_mds _ _ Hfr), (fr_blkSize _ _ Hfr) in *.
      split_and!; [done..|]. by eexists _, s2, b.
    + destruct Hr as (Hm & Hwo & Hi). rewrite (fr_ref _ _ Hfr), (fr_mds _ _ Hfr), (fr_writeOpen _ _ Hfr) in *. done.
  - split_and!; apply Hfr.
Qed.

(** C4: saving a file.  The file is open for writing and is an array of bytes over its
    store and its cache, with a block number left for the block in the cache; the inode
    that results from syncing the blocks can be saved ([savable]: data blocks only, an
    encoded length below 2^32, blocks of at least four bytes, a store that takes the
    inode's blocks).  Then [SyncAllWrites], which syncs the blocks and then the inode,
    does not panic.  Either it fails with an error, the file still open under the
    reference it is written to; or it gives that reference, and reading the inode of that
    reference, unmarshalling its blockset and creating a file from them gives a file with
    the same bytes, those of the block in the cache included, and the same size. *)
Theorem file_sync_reopen (e : state (S := S) (D := D)) (a : array) (n : Z) :
  writeOpen (file e) = true → is_array e a (n + 1) → 0 ≤ n → (∀ e1, SyncBlocks e = (Ok tt, e1) → ∃ layers, savable e1 layers) →
  match SyncAllWrites e with
  | (Ok ref, e') =>
      ref = writeINodeRef (file e) ∧ writeOpen (file e') = false ∧
      ∃ i s2 b, GetINode ref (store e') = (Ok i, s2) ∧
        UnmarshalFromProto (IN_Blocks i) (Some (BlockSize s2)) = Ok b ∧
        ∀ v d, is_array (mkState (CreateFile (blkSize (file e)) v i b) s2 d) a 0
  | (Err _, e') => writeOpen (file e') = true ∧ writeINodeRef (file e') = writeINodeRef (file e)
  | (Panic, _) => False
  end.
Proof.
  intros Hwo Ha Hn Hsv. pose proof (sync_all e a n Ha Hn Hsv) as Hs.
  destruct (SyncAllWrites e) as [[ref|err|] e']; [| |done].
  - by destruct Hs as (? & ? & _ & ?).
  - destruct Hs as (_ & Hw & ?). by rewrite Hw.
Qed.

(** ** A whole block written past the cache *)

Definition past_cache e e' : Prop :=
  frame e e' ∧ cache (file e') = cache (file e) ∧ store_ext (store e) (store e').

Lemma wp_put_past e vs n (k : nat) b :
  file_ok e vs (n + 1) → 0 ≤ n → (k < length vs)%nat → Z.of_nat (length b) = blkSize (file e) →
  wp (writeINodeRef (file e)) (on_blocks (PutBlock (writeINodeRef (file e)) (Z.of_nat k) b))
    (λ _ e', past_cache e e') e.
Proof.
  intros Hok Hn Hk Hb. pose proof (file_sized _ _ _ Hok) as Hs.
  pose proof Hok as [[[Hi _ _ _ _ _] _ _ _ _ _ _] Hsz [_ (H0 & Hhi & Hv)]].
  unfold wp, on_blocks. rewrite (put_write _ _ _ _ _ _ Hs Hk), wrap_id by (unfold in_width; lia).
  fold (next_ref (writeINodeRef (file e)) (counter (blocks (file e)))).
  assert (fits (store e) b) as Hf by (apply fits_size; [done|lia]). specialize (Hv (counter (blocks (file e))) ltac:(lia)).
  destruct (WriteBlock _ b (store e)) as [[[]|err|] s'] eqn:Hw.
  - split; [done|]. split; [done|]. by destruct (WriteBlock_stored _ _ _ _ Hi Hv Hf Hw).
  - left. exists b. by eexists _, _, _.
  - by apply (WriteBlock_no_panic _ _ _ _ Hi Hv Hf) in Hw.
Qed.

(** The write of one whole block inside the file. *)
Lemma wp_whole_block e vs n (k : nat) b :
  writable e → file_ok e vs (n + 1) → 0 ≤ n → (k < length vs)%nat → Z.of_nat (length b) = blkSize (file e) →
  wp (writeINodeRef (file e)) (write_body b (Z.of_nat (k * length b))) (λ r e',
    match r with
    | (_, _, Some er) => refusal (S := S) (writeINodeRef (file e)) er
    | (cnt, off', None) => cnt = Z.of_nat (length b) ∧ off' = Z.of_nat ((k + 1) * length b) ∧ past_cache e e'
    end) e.
Proof.
  intros Hwr Hok Hn Hk Hb. pose proof (file_pos _ _ _ Hok) as Hpos. destruct (quot_block e vs _ k Hok) as [Hq Hrem].
  assert (length b = Z.to_nat (blkSize (file e))) as Hb' by lia. rewrite <-Hb' in Hq, Hrem.
  unfold write_body. apply wp_bind, wp_gets. rewrite Hq. apply wp_bind, wp_lift.
  rewrite (sized_Length _ _ (file_sized _ _ _ Hok)).
  apply wp_bind, wp_lift. rewrite decide_False by lia. apply wp_bind, wp_ret.
  unfold write_front. apply wp_bind, wp_gets. rewrite decide_True by nia.
  unfold write_aligned. rewrite decide_False by lia. apply wp_bind, wp_gets. rewrite Hrem. apply wp_bind, wp_lift.
  rewrite decide_False by tauto. apply wp_bind. cbn [write_bulk]. apply wp_bind, wp_gets. rewrite decide_False by lia.
  rewrite Hq. apply wp_bind, wp_lift. unfold gslice. rewrite decide_True by lia.
  rewrite Z.sub_0_r, drop_0, take_ge by lia. apply wp_bind, wp_lift, wp_bind, wp_try; [|done].
  eapply wp_mono; [by apply (wp_put_past e vs n)|]. intros [] e1 (Hfr & Hce & Hext). cbv beta iota.
  rewrite drop_ge by lia. destruct (length b) as [|l] eqn:El; [lia|]. cbn [write_bulk]. apply wp_bind, wp_gets.
  rewrite decide_True by (cbn; rewrite (fr_blkSize _ _ Hfr); lia). apply wp_ret. cbn [length].
  rewrite decide_True by done. apply wp_ret. split; [lia|]. split; [lia|done].
Qed.

Lemma WriteAt_whole e vs n (k : nat) b :
  writable e → file_ok e vs (n + 1) → 0 ≤ n → (k < length vs)%nat → Z.of_nat (length b) = blkSize (file e) →
  small_size e → Z.of_nat ((k + 1) * length b) ≤ IN_Filesize (inode (file e)) →
  wp (writeINodeRef (file e)) (WriteAt b (Z.of_nat (k * length b))) (λ r e',
    match r with
    | (_, Some er) => refusal (S := S) (writeINodeRef (file e)) er
    | (cnt, None) => cnt = Z.of_nat (length b) ∧ past_cache e e'
    end) e.
Proof.
  intros Hwr Hok Hn Hk Hb Hsm Hfs. pose proof Hwr as [Hro Hwo]. unfold small_size in Hsm.
  unfold WriteAt. apply wp_bind, wp_try; [|done].
  unfold openWrite. apply wp_bind, wp_gets. rewrite Hro, Hwo. apply wp_ret, wp_bind.
  eapply wp_mono; [by apply (wp_whole_block e vs n)|]. intros [[cnt off'] [er|]] e1 Hw; apply wp_bind, wp_gets.
  { case_decide; exec; done. }
  destruct Hw as (-> & -> & Hpc). pose proof Hpc as (Hfr & _). rewrite (fr_inode _ _ Hfr), to_signed_small by lia.
  rewrite decide_False by lia. by exec.
Qed.

(** A read of the block the cache holds open is a read of its slice. *)
Lemma ReadAt_open e (k l : nat) sl (d := deref (store e) sl) :
  length d = Datatypes.S l → blkSize (file e) = Z.of_nat (length d) →
  openIdx (cache (file e)) = Z.of_nat k → openData (cache (file e)) = Some sl → small_size e →
  Z.of_nat ((k + 1) * length d) ≤ IN_Filesize (inode (file e)) →
  ReadAt (zeros (length d)) (Z.of_nat (k * length d)) e = (Ok (d, Z.of_nat (length d), None), e).
Proof.
  intros Hl Hb Hidx Hsl Hsm Hfs. unfold small_size in Hsm. unfold ReadAt.
  rewrite (bind_step (gets _) _ e (inode (file e)) e) by done. cbv zeta. rewrite length_zeros.
  rewrite !to_signed_small by lia. rewrite bool_decide_false by lia.
  assert (read_loop (Datatypes.S (length d)) (zeros (length d)) (Z.of_nat (length d)) 0 (Z.of_nat (k * length d)) e
    = (Ok (d, Z.of_nat (length d), None), e)) as Hr; [|by rewrite (bind_step _ _ _ _ _ Hr)].
  cbn [read_loop]. rewrite decide_False by lia. rewrite (bind_step (gets file) _ e (file e) e) by done.
  rewrite (bind_step (lift _) _ e (Z.of_nat k) e).
  2: { unfold lift, div_int. rewrite decide_False by lia. rewrite Hb, Nat2Z.inj_mul, Z.quot_mul by lia. done. }
  cbv zeta. rewrite (bind_step (try _) _ e (inl (Some sl)) e).
  2: { unfold try, getBlock. rewrite (bind_step (gets _) _ e (cache (file e)) e) by done. by rewrite decide_True, Hsl. }
  rewrite (bind_step (contents _) _ e d e) by done. replace (_ - blkSize (file e) * _) with 0 by lia.
  rewrite decide_False by lia. rewrite (bind_step (lift _) _ e d e).
  2: { unfold lift, gslice. rewrite decide_True by lia. cbn [or_panic]. by rewrite drop_0, take_ge by lia. }
  unfold copied. rewrite length_zeros, Nat.sub_0_r, Nat.min_id, blit_all, Hl by len. cbn [read_loop].
  by rewrite decide_True by lia.
Qed.

(** The bulk path of [WriteAt] does not look at the cache.  A successful
    write of one whole block that the cache holds open reports all its bytes
    written, and a read of the block that follows still returns the old bytes. *)
Theorem whole_block_write_hidden (e : state (S := S) (D := D)) (a : array) (n : Z) (k : nat) (b : bytes) (sl : slice) :
  writable e → is_array e a (n + 1) → 0 ≤ n → Z.of_nat (length b) = blkSize (file e) →
  openIdx (cache (file e)) = Z.of_nat k → openData (cache (file e)) = Some sl →
  ((k + 1) * length b ≤ a.2)%nat →
  match WriteAt b (Z.of_nat (k * length b)) e with
  | (Ok (cnt, None), e') =>
      cnt = Z.of_nat (length b) ∧
      ReadAt (zeros (length b)) (Z.of_nat (k * length b)) e'
      = (Ok (take (length b) (drop (k * length b) a.1), Z.of_nat (length b), None), e')
  | (Ok (_, Some err), _) | (Err err, _) => refusal (S := S) (writeINodeRef (file e)) err
  | (Panic, _) => False
  end.
Proof.
  intros Hwr [(vs & Hf & Hvs) Hz Hin Hb] Hn Hl Hidx Hsl Hk. pose proof (file_pos _ _ _ Hf) as Hpos.
  pose proof (file_full _ _ _ Hf) as Hfull. pose proof Hf as [[_ _ _ _ _ Hopen _] Hsz _]. rewrite Hsl in Hopen.
  destruct Hopen as (_ & Hlk & Hca). rewrite Hidx, Nat2Z.id in Hlk.
  pose proof (WriteAt_whole e vs n k b Hwr Hf Hn (lookup_lt_Some _ _ _ Hlk) Hl) as Hw. unfold wp in Hw.
  specialize (Hw ltac:(unfold small_size; lia) ltac:(lia)).
  destruct (WriteAt b _ e) as [[[cnt [err|]]|err|] e']; try done. destruct Hw as (-> & Hfr & Hce & Hext).
  split; [done|]. pose proof (Forall_lookup_1 _ _ _ _ Hfull Hlk) as Hdl.
  destruct (ext_slice _ _ Hext sl (ca_live _ _ _ _ _ Hca)) as [_ Hds]. cbn in Hdl.
  pose proof (concat_slice _ vs k _ 0 (length b) Hfull Hlk ltac:(lia)) as Hold.
  rewrite Hvs, Nat.add_0_r, drop_0, (take_ge (deref _ _)) in Hold by lia.
  replace (Z.to_nat (blkSize (file e))) with (length b) in Hold, Hdl by lia. rewrite Hold, <-Hds.
  pose proof (ReadAt_open e' k (length b - 1) sl) as Hr. cbv zeta in Hr. rewrite Hds, Hdl in Hr.
  rewrite Hds. apply Hr; rewrite ?(fr_blkSize _ _ Hfr), ?Hce; try done; try lia.
  - unfold small_size. rewrite (fr_inode _ _ Hfr). lia.
  - rewrite (fr_inode _ _ Hfr). lia.
Qed.

(** ** The other cases the code gets wrong *)

(** A sync that fails forgets that the block is dirty.  The sync after it
    does not write the block and succeeds as soon as the flush does, although
    the bytes of the block were never stored. *)
Theorem failed_sync_forgets (e e' : state (S := S) (D := D)) (x : error) :
  sync e = (Err x, e') → SyncBlocks e' = on_store Flush e'.
Proof.
  unfold sync. rewrite (bind_step (gets _) _ e (cache (file e)) e) by done.
  destruct (openWrote (cache (file e))); [|done]. intros Hs.
  assert (openWrote (cache (file e')) = false) as Hw.
  { revert Hs. unfold contents, try, gets, set_wrote, set_cache, set_file, modify, mbind, M_bind, mret, M_ret, throw.
    destruct (on_blocks _ e) as [[[]|err|] e1]; by intros [= _ <-] || done. }
  unfold SyncBlocks, sync. unfold gets, mbind, M_bind. by rewrite Hw.
Qed.

Lemma openBlock_past e vs n :
  file_ok e vs n → openWrote (cache (file e)) = false → (openBlock (Z.of_nat (length vs + 1)) e).1 = Panic.
Proof.
  intros Hok Hw. pose proof (sized_Length _ _ (file_sized _ _ _ Hok)) as Hlen. pose proof Hok as [[_ _ _ _ _ Hopen _] _ _].
  unfold openBlock. rewrite (bind_step (gets _) _ e (cache (file e)) e) by done. rewrite decide_False.
  2: { intros [Hi Hne]. destruct (openData (cache (file e))) as [sl|]; [|done].
       destruct Hopen as (_ & Hlk%lookup_lt_Some & _). lia. }
  rewrite Hw, (bind_step (mret tt) _ e tt e), (bind_step (gets _ ≫= _) _ e (Z.of_nat (length vs)) e) by
    (done || by (unfold gets, lift, mbind, M_bind; rewrite Hlen)).
  by rewrite decide_False, decide_True by lia.
Qed.

(** A write that starts inside the block two past the last one panics.  The
    test that extends the file before such a write is off by one: it skips the
    offsets in the block after the one the next append would make. *)
Theorem write_past_end_panics (e : state (S := S) (D := D)) (vs : list bytes) (n : Z) (r : nat) (b : bytes) :
  writable e → file_ok e vs n → openWrote (cache (file e)) = false →
  (0 < r < Z.to_nat (blkSize (file e)))%nat →
  (WriteAt b (Z.of_nat ((length vs + 1) * Z.to_nat (blkSize (file e)) + r)) e).1 = Panic.
Proof.
  intros [Hro Hwo] Hok Hw Hr. pose proof (file_pos _ _ _ Hok) as Hpos.
  pose proof (sized_Length _ _ (file_sized _ _ _ Hok)) as Hlen. pose proof Hok as [[_ _ _ _ _ Hopen _] _ _].
  set (bsz := Z.to_nat (blkSize (file e))) in *. set (off := ((length vs + 1) * bsz + r)%nat).
  assert (div_int (Z.of_nat off) (blkSize (file e)) = Ok (Z.of_nat (length vs + 1))) as Hd.
  { destruct (div_split e vs n off Hok) as (-> & _). fold bsz. do 2 f_equal. unfold off.
    rewrite Nat.div_add_l, Nat.div_small by lia. lia. }
  pose proof (openBlock_past e vs n Hok Hw) as Ho.
  assert ((cache_writeToBlock (Z.of_nat (length vs + 1)) (Z.of_nat r)
    (Z.of_nat r + Z.of_nat (Nat.min (length b) (bsz - r))) (take (Nat.min (length b) (bsz - r)) b) e).1 = Panic) as Hc.
  { unfold cache_writeToBlock. rewrite (bind_step (gets _) _ e (cache (file e)) e) by done.
    assert (openIdx (cache (file e)) ≠ Z.of_nat (length vs + 1)) as Hne.
    { destruct (openData (cache (file e))) as [sl|]; [|lia]. destruct Hopen as (_ & Hlk%lookup_lt_Some & _). lia. }
    destruct (decide (openIdx (cache (file e)) ≠ _)) as [_|]; [|done]. unfold mbind at 1, M_bind at 1. by destruct (openBlock _ e) as [[] ?]. }
  unfold WriteAt. rewrite (bind_step (try openWrite) _ e (inl tt) e).
  2: { unfold try, openWrite. rewrite (bind_step (gets _) _ e (file e) e) by done. by rewrite Hro, Hwo. }
  assert ((write_body b (Z.of_nat off) e).1 = Panic) as Hb.
  { unfold write_body. rewrite (bind_step (gets _) _ e (file e) e), Hd by done.
    rewrite (bind_step (lift _) _ e (Z.of_nat (length vs + 1)) e), Hlen by done.
    rewrite (bind_step (lift _) _ e (Z.of_nat (length vs)) e) by done. rewrite decide_False by lia.
    rewrite (bind_step (mret _) _ e (inl tt) e) by done. unfold write_front.
    rewrite (bind_step (gets _) _ e (file e) e) by done.
    replace (Z.of_nat off - _) with (Z.of_nat r) by (unfold off; lia). cbv zeta. rewrite decide_False by lia.
    replace (if decide _ then _ else _) with (Z.of_nat (Nat.min (length b) (bsz - r))) by (case_decide; lia).
    rewrite (bind_step (lift _) _ e (take (Nat.min (length b) (bsz - r)) b) e).
    2: { unfold lift, gslice. rewrite decide_True by lia. cbn [or_panic]. by rewrite drop_0, Z.sub_0_r, Nat2Z.id. }
    unfold mbind at 1, M_bind at 1, try. by destruct (cache_writeToBlock _ _ _ _ e) as [[] ?]. }
  unfold mbind at 1, M_bind at 1. by destruct (write_body _ _ e) as [[] ?].
Qed.

(** A block read from the store and then written to changes in the store at
    once.  When the slice the cache holds open is the memory of a stored block,
    a write into the cache changes what that block's reference, which earlier
    inodes and snapshots keep, reads as. *)
Theorem cached_write_changes_stored (e : state (S := S) (D := D)) (vs : list bytes) (n : Z) (k off : nat)
    (sl : slice) (r : BlockRef) (b : bytes) :
  file_ok e vs n → openIdx (cache (file e)) = Z.of_nat k → openData (cache (file e)) = Some sl →
  backing (store e) r = Some sl → (off + length b ≤ Z.to_nat (blkSize (file e)))%nat →
  ∃ e' d, stored (store e) r = Some d ∧
    cache_writeToBlock (Z.of_nat k) (Z.of_nat off) (Z.of_nat off + Z.of_nat (length b)) b e
    = (Ok (Z.of_nat (length b)), e') ∧ stored (store e') r = Some (blit off b d).
Proof.
  intros Hok Hidx Hsl Hb Hl. pose proof (file_full _ _ _ Hok) as Hfull.
  pose proof Hok as [[[Hi _ _ _ _ _] _ _ _ _ Hopen _] _ _].
  rewrite Hsl in Hopen. destruct Hopen as (_ & Hlk & Hca). pose proof (Forall_lookup_1 _ _ _ _ Hfull Hlk) as Hdl.
  cbn in Hdl. destruct (copy_to_spec (store e) sl off b Hi) as (_ & _ & _ & Hd & Hb' & _); [apply Hca|lia|].
  unfold cache_writeToBlock, on_store, lift. exec. rewrite Hidx, decide_False by tauto. exec. rewrite decide_False by lia.
  exec. rewrite Hsl. unfold gslice. rewrite decide_True by lia. exec. rewrite Nat2Z.id.
  eexists _, (deref (store e) sl). split; [unfold stored; by rewrite Hb|]. split; [done|].
  unfold stored. cbn [store]. rewrite Hb', Hb. cbn. by rewrite Hd.
Qed.
End file.

(** ** Examples *)

#[local] Existing Instance map_range.

#[local] Instance no_contracts : Godbc := {| Require := λ _, Ok tt; Require_true := eq_refl |}.

(** A metadata service that counts inodes. *)
#[local] Instance counting_MDS : MDS Z := {| CommitINodeIndex := λ _ d, (Ok (d + 1), d + 1) |}.

Abbreviation fstate := (state (S := tempBlockStore) (D := Z)).

Definition fx_vol : Models.Volume := mkVolume [] 3 [x62; x6c; x6f; x63; x6b] 0.
Definition fx_ino : INodeRef := mkINodeRef 3 4.
Definition fx_inode : MINode := mkMINode 3 0 0 ∅ [].
Definition fx_store : tempBlockStore := mkTemp ∅ 1%positive (Some ∅) 32 "current" 16.
Definition fx_new : fstate := mkState (CreateFile 16 fx_vol fx_inode ex_stack) fx_store 3.
Definition fx_open : fstate := (Truncate 40 fx_new).2.

Lemma fx_usable lo hi : 0 ≤ lo → hi < 2 ^ 64 → usable (S := tempBlockStore) fx_ino lo hi.
Proof. intros. split_and!; done. Qed.

Lemma fx_opened : opened (S := tempBlockStore) fx_ino ex_stack fx_store [].
Proof.
  split; [|constructor|done]. split; try done; [apply (open_inv "current" 512 16); [lia|reflexivity]|by eexists|].
  by repeat constructor.
Qed.

Lemma file_create_truncate_witness :
  ∃ e', Truncate 40 fx_new = (Ok tt, e') ∧ writable e' ∧ writeINodeRef (file e') = fx_ino ∧
    is_array e' (zeros 48, 40%nat) 1000.
Proof.
  apply (file_create_truncate (HD := counting_MDS) 16 40 fx_vol fx_inode ex_stack fx_store 3 4 [] 4 1000
    eq_refl ltac:(by_compute) fx_opened eq_refl); [lia|lia|by apply fx_usable].
Defined.

Lemma fx_array n : 0 ≤ n < 2 ^ 64 → writable fx_open ∧ writeINodeRef (file fx_open) = fx_ino ∧
  is_array fx_open (zeros 48, 40%nat) n.
Proof.
  intros Hn. destruct (create_truncate (HD := counting_MDS) 16 40 fx_vol fx_inode ex_stack fx_store 3 4 [] 4 n
    eq_refl ltac:(by_compute) fx_opened eq_refl) as (e' & He & Hr); [lia|lia|apply fx_usable; simpl; lia|].
  change (Truncate 40 fx_new = (Ok tt, e')) in He. unfold fx_open. by rewrite He.
Qed.




(** The state after a call that succeeds. *)
Lemma fx_step o (e : fstate) a n x :
  writable e → is_array e a (fop_cost o + n) → 0 ≤ n → fop_ok (Z.to_nat (blkSize (file e))) (length a.1) o →
  (run_fop o e).1 = Ok x → writable (run_fop o e).2 ∧ is_array (run_fop o e).2 (array_step o a).2 n.
Proof.
  intros Hw Ha Hn Ho Hx. pose proof (wp_fop o e a n Hw Ha Hn Ho) as Hp. unfold wp in Hp.
  destruct (run_fop o e) as [r e']. cbn in *. subst r. destruct Hp as (a' & -> & ? & ? & _). done.
Qed.

(** Two bytes written across the first block boundary, and synced. *)
Definition fx_written : fstate := (run_fop (FWrite [x01; x02] 15) fx_open).2.
Definition fx_synced : fstate := (run_fop FSync fx_written).2.
Definition fx_bytes : bytes := blit 15 [x01; x02] (zeros 48).

Lemma fx_written_array n : 0 ≤ n < 2 ^ 63 → writable fx_written ∧ is_array fx_written (fx_bytes, 40%nat) n.
Proof.
  intros Hn. destruct (fx_array (4 + n)) as (Hw & _ & Ha); [lia|].
  apply (fx_step (FWrite [x01; x02] 15) fx_open (zeros 48, 40%nat) n (FWrote 2) Hw Ha); [lia| |vm_compute; reflexivity].
  split; [cbn [fst]; rewrite length_zeros; cbn; lia|].
  assert (blkSize (file fx_open) = 16) as -> by (vm_compute; reflexivity). intros j [H1 H2]. cbn in *. lia.
Qed.

Lemma fx_synced_array n : 0 ≤ n < 2 ^ 62 → writable fx_synced ∧ is_array fx_synced (fx_bytes, 40%nat) n.
Proof.
  intros Hn. destruct (fx_written_array (1 + n)) as (Hw & Ha); [lia|].
  apply (fx_step FSync fx_written (fx_bytes, 40%nat) n FDone Hw Ha); [lia|done|vm_compute; reflexivity].
Qed.

Lemma file_write_at_witness :
  ∃ e', WriteAt (replicate 17 x07) (Z.of_nat 31) fx_open = (Ok (17, None), e') ∧
    is_array e' (blit 31 (replicate 17 x07) (zeros 48), 48%nat) 1000.
Proof.
  destruct (fx_array 1019) as (Hw & _ & Ha); [lia|].
  assert (∀ j, not_cached (cache (file fx_open)) j) as Hc.
  { assert (openIdx (cache (file fx_open)) = -1) as Ho by (vm_compute; reflexivity).
    assert (readIdx (cache (file fx_open)) = -1) as Hr by (vm_compute; reflexivity).
    intros j. split; [rewrite Ho|rewrite Hr]; lia. }
  pose proof (file_write_at fx_open (zeros 48, 40%nat) 1000 (replicate 17 x07) 31 Hw Ha ltac:(lia)
    ltac:(cbn [fst]; rewrite length_zeros; cbn; lia) (λ j _, Hc j)) as Hp.
  assert ((WriteAt (replicate 17 x07) (Z.of_nat 31) fx_open).1 = Ok (17, None)) as E by (vm_compute; reflexivity).
  destruct (WriteAt (replicate 17 x07) (Z.of_nat 31) fx_open) as [o e']. cbn [fst] in E. subst o.
  exists e'. split; [reflexivity|]. apply Hp.
Defined.

(** Block 0 of [fx_written] is on its way to the store, block 1 open. *)
Lemma whole_block_write_hidden_witness :
  ∃ e', WriteAt (replicate 16 x07) (Z.of_nat 16) fx_written = (Ok (16, None), e') ∧
    ReadAt (zeros 16) (Z.of_nat 16) e' = (Ok (take 16 (drop 16 fx_bytes), 16, None), e').
Proof.
  destruct (fx_written_array 1001) as [Hw Ha]; [lia|].
  destruct (openData (cache (file fx_written))) as [sl|] eqn:Hsl; [|exfalso; by vm_compute in Hsl].
  pose proof (whole_block_write_hidden fx_written (fx_bytes, 40%nat) 1000 1 (replicate 16 x07) sl Hw Ha
    ltac:(lia) ltac:(vm_compute; reflexivity) ltac:(vm_compute; reflexivity) Hsl ltac:(cbn; lia)) as Hp.
  change (length (replicate 16 x07)) with 16%nat in Hp. change (1 * 16)%nat with 16%nat in Hp.
  assert ((WriteAt (replicate 16 x07) (Z.of_nat 16) fx_written).1 = Ok (16, None)) as E by (vm_compute; reflexivity).
  destruct (WriteAt (replicate 16 x07) (Z.of_nat 16) fx_written) as [o e']. cbn [fst] in E. subst o.
  exists e'. split; [reflexivity|]. apply Hp.
Defined.

(** The same file over a store that is full when the block is synced. *)
Definition fx_full : tempBlockStore := mkTemp ∅ 1%positive (Some ∅) 0 "current" 16.
Definition fx_dirty : fstate :=
  (run_fop (FWrite [x01] 2) (Truncate 40 (mkState (CreateFile 16 fx_vol fx_inode ex_stack) fx_full 3)).2).2.

Lemma failed_sync_forgets_witness :
  (sync fx_dirty).1 = Err ErrOutOfSpace ∧ (SyncBlocks (sync fx_dirty).2).1 = Ok tt.
Proof.
  destruct (sync fx_dirty) as [o e'] eqn:E.
  assert (o = Err ErrOutOfSpace) as ->.
  { change o with (o, e').1. rewrite <-E. vm_compute. reflexivity. }
  split; [reflexivity|]. cbn [snd]. rewrite (failed_sync_forgets _ _ _ E). reflexivity.
Defined.

Lemma write_past_end_panics_witness :
  (WriteAt [x01] (Z.of_nat 65) fx_open).1 = Panic.
Proof.
  destruct (fx_array 1000) as (Hw & _ & [(vs & Hf & Hvs) _ _ _]); [lia|].
  assert (blkSize (file fx_open) = 16) as Hb by (vm_compute; reflexivity).
  assert (length vs = 3%nat) as Hl.
  { pose proof (length_concat_blocks _ vs (file_full _ _ _ Hf)) as Hlen. rewrite Hvs, Hb in Hlen.
    cbn [fst] in Hlen. rewrite length_zeros in Hlen. change (Z.to_nat 16) with 16%nat in Hlen. lia. }
  pose proof (write_past_end_panics fx_open vs 1000 1 [x01] Hw Hf ltac:(vm_compute; reflexivity)) as Hp.
  rewrite Hl, Hb in Hp. apply Hp. change (Z.to_nat 16) with 16%nat. lia.
Defined.

(** The synced file, open for reading and then writing of block 0. *)
Definition fx_again : fstate := (openBlock (Z.of_nat 0) fx_synced).2.

Lemma fx_blocks vs n : file_ok fx_synced vs n → concat vs = fx_bytes → length vs = 3%nat.
Proof.
  intros Hf Hvs. assert (blkSize (file fx_synced) = 16) as Hb by (vm_compute; reflexivity).
  pose proof (length_concat_blocks _ vs (file_full _ _ _ Hf)) as Hlen. rewrite Hvs, Hb in Hlen.
  unfold fx_bytes in Hlen. rewrite length_blit, length_zeros in Hlen. lia.
Qed.

Lemma fx_again_ok :
  ∃ vs, file_ok fx_again vs 1000 ∧ openIdx (cache (file fx_again)) = Z.of_nat 0 ∧
    blkSize (file fx_again) = blkSize (file fx_synced).
Proof.
  destruct (fx_synced_array 1001) as [Hw [(vs & Hf & Hvs) _ _ _]]; [lia|].
  assert (0 < length vs)%nat as Hl by (rewrite (fx_blocks vs _ Hf Hvs); lia).
  pose proof (wp_openBlock fx_synced vs 1000 0 Hf ltac:(lia) Hl) as Hp. unfold wp in Hp.
  assert ((openBlock (Z.of_nat 0) fx_synced).1 = Ok tt) as E by (vm_compute; reflexivity).
  unfold fx_again. destruct (openBlock (Z.of_nat 0) fx_synced) as [o e]. cbn [fst snd] in *. subst o.
  destruct Hp as (Hf' & Hfr & Hi & _). exists vs. split; [done|]. split; [done|apply Hfr].
Qed.

Lemma fx_again_open :
  ∃ sl, openData (cache (file fx_again)) = Some sl ∧ backing (store fx_again) (mkBlockRef fx_ino 1) = Some sl.
Proof.
  destruct (openData (cache (file fx_again))) as [sl|] eqn:E; [|by vm_compute in E].
  exists sl. split; [done|]. rewrite <-E. by_compute.
Qed.

Lemma cached_write_changes_stored_witness :
  ∃ e' d, stored (store fx_again) (mkBlockRef fx_ino 1) = Some d ∧
    cache_writeToBlock (Z.of_nat 0) (Z.of_nat 1) (Z.of_nat 1 + Z.of_nat 1) [x05] fx_again = (Ok 1, e') ∧
    stored (store e') (mkBlockRef fx_ino 1) = Some (blit 1 [x05] d).
Proof.
  destruct fx_again_ok as (vs & Hf & Hi & Hb). destruct fx_again_open as (sl & Hsl & Hbk).
  apply (cached_write_changes_stored fx_again vs 1000 0 1 sl (mkBlockRef fx_ino 1) [x05] Hf Hi Hsl Hbk).
  rewrite Hb. assert (blkSize (file fx_synced) = 16) as -> by (vm_compute; reflexivity). cbn. lia.
Defined.

(** The inode of the synced file and its two layers. *)
Definition fx_layers : list PBlockLayer :=
  match MarshalBlocksetToProto (blocks (file fx_synced)) with Ok l => l | _ => [] end.

Lemma fx_refs : Forall data_ref (base_refs (blocks (file fx_synced))).
Proof.
  assert (base_refs (blocks (file fx_synced)) = [mkBlockRef fx_ino 1; mkBlockRef fx_ino 2; ZeroBlock]) as ->
    by (vm_compute; reflexivity).
  repeat constructor; cbn; try lia; try done.
Qed.

Lemma fx_layers_small :
  Forall (λ l, 0 ≤ PType l < 10 ∧ (length (PContent l) ≤ 100)%nat ∧ BlockLayer_Size l ≤ 200) fx_layers.
Proof. by_compute. Qed.

Lemma fx_inode_size : INode_Size (with_layers (inode (file fx_synced)) fx_layers) = 100.
Proof. vm_compute. reflexivity. Qed.

Lemma fx_inode_valid : INode_valid (with_layers (inode (file fx_synced)) fx_layers).
Proof.
  unfold INode_valid. rewrite fx_inode_size.
  assert (IN_Volume (with_layers (inode (file fx_synced)) fx_layers) = 3) as -> by (vm_compute; reflexivity).
  assert (IN_INode (with_layers (inode (file fx_synced)) fx_layers) = 4) as -> by (vm_compute; reflexivity).
  assert (IN_Filesize (with_layers (inode (file fx_synced)) fx_layers) = 40) as -> by (vm_compute; reflexivity).
  assert (map_to_list (IN_Attrs (with_layers (inode (file fx_synced)) fx_layers)) = []) as -> by (vm_compute; reflexivity).
  split_and!; try (unfold in_width; lia); [constructor|]. eapply Forall_impl; [|exact fx_layers_small].
  intros l (Ht & Hc & Hs). unfold BlockLayer_valid, short, in_width. lia.
Qed.

Lemma fx_savable e1 : SyncBlocks fx_written = (Ok tt, e1) → ∃ layers, savable e1 layers.
Proof.
  intros E. assert (e1 = fx_synced) as ->.
  { unfold fx_synced, run_fop. by rewrite (bind_step SyncBlocks _ _ _ _ E). }
  assert (writeINodeRef (file fx_synced) = fx_ino) as Hi by (vm_compute; reflexivity). exists fx_layers.
  split; rewrite ?fx_inode_size, ?Hi; [vm_compute; reflexivity|exact fx_refs|vm_compute; reflexivity|exact fx_inode_valid|lia|done|vm_compute; done|done].
Qed.

Lemma file_sync_reopen_witness :
  ∃ e' i s2 b, SyncAllWrites fx_written = (Ok fx_ino, e') ∧ openWrote (cache (file fx_written)) = true ∧
    GetINode fx_ino (store e') = (Ok i, s2) ∧ UnmarshalFromProto (IN_Blocks i) (Some (BlockSize s2)) = Ok b ∧
    is_array (S := tempBlockStore) (mkState (CreateFile 16 fx_vol i b) s2 9) (fx_bytes, 40%nat) 0.
Proof.
  destruct (fx_written_array (1000 + 1)) as [Hw Ha]; [lia|].
  assert (blkSize (file fx_written) = 16) as Hbs by (vm_compute; reflexivity).
  pose proof (file_sync_reopen fx_written (fx_bytes, 40%nat) 1000 ltac:(vm_compute; reflexivity) Ha ltac:(lia) fx_savable) as Hp.
  assert ((SyncAllWrites fx_written).1 = Ok fx_ino) as E by (vm_compute; reflexivity).
  destruct (SyncAllWrites fx_written) as [o e']. cbn [fst] in E. subst o.
  destruct Hp as (_ & _ & i & s2 & b & Hg & Hu & Hf). exists e', i, s2, b. rewrite Hbs in Hf.
  split; [reflexivity|]. split; [vm_compute; reflexivity|]. split; [exact Hg|]. split; [exact Hu|apply Hf].
Defined.
