(* ===== verification/Ring.v ===== *)
(** * Rings

    Models [src/ring.go] (lists of peers) and [src/ring/*.go] (the rings that
    place blocks on peers).  A Go string is a list of bytes.  The consistent
    hash of the ketama ring is third-party code, the class [HashRing]; the
    interface [torus.Ring] is an inductive type with one constructor per
    implementation.  Log lines and [Describe], which formats a ring for people,
    are left out. *)
From S2P Require Import Prelude GoSem Refs Crc32 Proto Models.
From Stdlib Require String.

(** ** Lists of peers *)

Abbreviation PeerList := (list gostring).
Abbreviation PeerInfoList := (list PeerInfo).

Record PeerPermutation := mkPermutation { Replication : Z; Peers : PeerList }.

Fixpoint index_from (i : Z) (uuid : gostring) (pl : PeerList) : Z :=
  match pl with
  | [] => -1
  | x :: pl' => if decide (x = uuid) then i else index_from (i + 1) uuid pl'
  end.
Definition IndexAt (pl : PeerList) (uuid : gostring) : Z := index_from 0 uuid pl.
Definition Has (pl : PeerList) (uuid : gostring) : bool := bool_decide (IndexAt pl uuid ≠ -1).

Definition AndNot (pl b : PeerList) : PeerList :=
  foldl (λ out x, if Has b x then out else out ++ [x]) [] pl.
Definition Union (pl b : PeerList) : PeerList :=
  foldl (λ out x, if Has pl x then out else out ++ [x]) (foldl (λ out x, out ++ [x]) [] pl) b.
Definition Intersect (pl b : PeerList) : PeerList :=
  foldl (λ out x, if Has b x then out ++ [x] else out) [] pl.

Fixpoint uuid_from (i : Z) (uuid : gostring) (pi : PeerInfoList) : Z :=
  match pi with
  | [] => -1
  | x :: pi' => if decide (UUID x = uuid) then i else uuid_from (i + 1) uuid pi'
  end.
Definition UUIDAt (pi : PeerInfoList) (uuid : gostring) : Z := uuid_from 0 uuid pi.
Definition HasUUID (pi : PeerInfoList) (uuid : gostring) : bool := bool_decide (UUIDAt pi uuid ≠ -1).

Definition info_AndNot (pi : PeerInfoList) (b : PeerList) : PeerInfoList :=
  foldl (λ out x, if Has b (UUID x) then out else out ++ [x]) [] pi.
Definition info_Union (pi b : PeerInfoList) : PeerInfoList :=
  foldl (λ out x, if HasUUID pi (UUID x) then out else out ++ [x]) (foldl (λ out x, out ++ [x]) [] pi) b.
Definition info_Intersect (pi b : PeerInfoList) : PeerInfoList :=
  foldl (λ out x, if HasUUID b (UUID x) then out ++ [x] else out) [] pi.
Definition peer_list (pi : PeerInfoList) : PeerList := UUID <$> pi.

(** [big.Int.GCD] without cofactors: never negative, zero when both are. *)
Definition big_GCD (a b : Z) : Z := Z.gcd a b.

(** The weights; [uint64(gcd.Int64())] keeps the low 64 bits, and dividing by
    zero panics. *)
Definition weigh (gcd : Z) (out : gmap gostring Z) (p : PeerInfo) : res (gmap gostring Z) :=
  if decide (wrap64 gcd = 0) then Panic
  else Ok (<[UUID p := to_signed 64 (TotalBlocks p / wrap64 gcd)]> out).
Definition GetWeights (pi : PeerInfoList) : res (gmap gostring Z) :=
  match pi with
  | [] => Ok ∅
  | p :: rest =>
      let gcd := foldl (λ g q, big_GCD g (to_signed 64 (TotalBlocks q))) (to_signed 64 (TotalBlocks p)) rest in
      foldl (λ out q, o ← out; weigh gcd o q) (Ok ∅) pi
  end.

(** ** The rings *)

(** The package [hashring]: a ring made from weights, and the first [n] distinct
    nodes for a key with a flag that says whether there were enough. *)
Class HashRing := {
  HR : Type;
  NewWithWeights : gmap gostring Z → HR;
  GetNodes : HR → bytes → Z → list gostring * bool;
}.

Definition REmpty : Z := 0.
Definition RSingle : Z := 1.
Definition RMod : Z := 2.
Definition RUnion : Z := 3.
Definition RKetama : Z := 4.

Definition ErrNoNodes : error := ErrMsg "couldn't get any nodes".
Definition ErrFewNodes : error := ErrMsg "couldn't get sufficient nodes".

Definition key_old : gostring := String.list_byte_of_string "old".
Definition key_new : gostring := String.list_byte_of_string "new".

Section ring.
Context `{HashRing} `{Range}.

Inductive Ring : Type :=
  | empty (version : Z)
  | single (version : Z) (peer : PeerInfo) (permutation : PeerPermutation)
  | mod_ (version rep : Z) (peers : PeerInfoList)
  | unionRing (oldRing newRing : Ring)
  | ketama (version rep : Z) (peers : PeerInfoList) (ring : HR).

(** *** Making a ring from its message *)

Definition makeEmpty (r : MRing) : res Ring := Ok (empty (RG_Version r)).

Definition makeSingle (r : MRing) : res Ring :=
  match RG_Peers r with
  | [p] => Ok (single (RG_Version r) p (mkPermutation 1 [UUID p]))
  | _ => Err ErrInvalid
  end.

Definition rep_of (r : MRing) : Z :=
  if decide (RG_ReplicationFactor r = 0) then 1 else RG_ReplicationFactor r.

Definition makeMod (r : MRing) : res Ring := Ok (mod_ (RG_Version r) (rep_of r) (RG_Peers r)).

Definition makeKetama (r : MRing) : res Ring :=
  w ← GetWeights (RG_Peers r);
  mret (ketama (RG_Version r) (rep_of r) (RG_Peers r) (NewWithWeights w)).

Definition NewUnionRing (oldRing newRing : Ring) : Ring := unionRing oldRing newRing.

(** [unmarshal] is [Unmarshal]. *)
Definition makeUnion (unmarshal : bytes → res Ring) (r : MRing) : res Ring :=
  match RG_Attrs r !! key_old with
  | None => Err (ErrMsg "no old ring in union ring data")
  | Some oldb =>
      o ← unmarshal oldb;
      match RG_Attrs r !! key_new with
      | None => Err (ErrMsg "no new ring in union ring data")
      | Some newb => n ← unmarshal newb; mret (unionRing o n)
      end
  end.

(** A type that is not registered gives the nil function, whose call panics. *)
Definition CreateRing (unmarshal : bytes → res Ring) (r : MRing) : res Ring :=
  if decide (RG_Type r = REmpty) then makeEmpty r
  else if decide (RG_Type r = RSingle) then makeSingle r
  else if decide (RG_Type r = RMod) then makeMod r
  else if decide (RG_Type r = RUnion) then makeUnion unmarshal r
  else if decide (RG_Type r = RKetama) then makeKetama r
  else Panic.

(** A union ring holds rings as attributes, so the depth is less than the number
    of bytes. *)
Fixpoint unmarshal_ring (fuel : nat) (b : bytes) : res Ring :=
  match fuel with
  | O => Panic
  | S fuel' => a ← Unmarshal b Ring_zero; CreateRing (unmarshal_ring fuel') a
  end.
Definition ring_Unmarshal (b : bytes) : res Ring := unmarshal_ring (S (length b)) b.

Definition RingTypeFromString (s : string) : option Z :=
  if decide (s = "empty"%string) then Some REmpty
  else if decide (s = "single"%string) then Some RSingle
  else if decide (s = "mod"%string) then Some RMod
  else if decide (s = "union"%string) then Some RUnion
  else if decide (s = "ketama"%string) then Some RKetama
  else None.

(** *** The methods *)

Fixpoint Version (r : Ring) : Z :=
  match r with
  | empty v | single v _ _ | mod_ v _ _ | ketama v _ _ _ => v
  | unionRing _ n => Version n
  end.

Definition RType (r : Ring) : Z :=
  match r with
  | empty _ => REmpty
  | single _ _ _ => RSingle
  | mod_ _ _ _ => RMod
  | unionRing _ _ => RUnion
  | ketama _ _ _ _ => RKetama
  end.

Fixpoint Members (r : Ring) : PeerList :=
  match r with
  | empty _ => []
  | single _ p _ => [UUID p]
  | mod_ _ _ peers | ketama _ _ peers _ => peer_list peers
  | unionRing o n => Union (Members n) (Members o)
  end.

Definition clip (rep : Z) (peers : PeerInfoList) : Z :=
  if decide (Z.of_nat (length peers) < rep) then Z.of_nat (length peers) else rep.

(** [sort.StringSlice] is a conversion: the list is not sorted. *)
Definition mod_GetPeers (rep : Z) (peers : PeerInfoList) (key : BlockRef) : res PeerPermutation :=
  let peerlist := peer_list peers in
  if decide (length peerlist = 0%nat) then Err ErrNoNodes
  else if decide (length peerlist ≠ length peers) then Err ErrFewNodes
  else
    let crc := ChecksumIEEE (BlockRef_ToBytes key) in
    let sum := Z.to_nat (crc `mod` Z.of_nat (length peers)) in
    let permute := blit 0 (drop sum peerlist) (replicate (length peerlist) []) in
    let permute := blit (length peerlist - sum) (take sum peerlist) permute in
    Ok (mkPermutation (clip rep peers) permute).

(** The nodes the hash left out, in the order of the peers. *)
Definition fill (s : PeerList) (peers : PeerInfoList) : PeerList :=
  foldl (λ s x, if bool_decide (UUID x ∈ s) then s else s ++ [UUID x]) s peers.

Definition ketama_GetPeers (rep : Z) (peers : PeerInfoList) (ring : HR) (key : BlockRef) : res PeerPermutation :=
  let '(s, ok) := GetNodes ring (BlockRef_ToBytes key) (Z.of_nat (length peers)) in
  if negb ok && bool_decide (length s = 0%nat) then Err ErrNoNodes
  else
    let s := if ok then s else fill s peers in
    if decide (length s ≠ length peers) then Err ErrFewNodes
    else Ok (mkPermutation (clip rep peers) s).

Definition union_GetPeers (oldPeers newPeers : res PeerPermutation) : res PeerPermutation :=
  n ← newPeers;
  o ← oldPeers;
  Ok (mkPermutation (Replication n) (Union (Peers o) (Peers n))).

Fixpoint GetPeers (r : Ring) (key : BlockRef) : res PeerPermutation :=
  match r with
  | empty _ => Ok (mkPermutation 0 [])
  | single _ _ permutation => Ok permutation
  | mod_ _ rep peers => mod_GetPeers rep peers key
  | unionRing o n => union_GetPeers (GetPeers o key) (GetPeers n key)
  | ketama _ rep peers ring => ketama_GetPeers rep peers ring key
  end.

Definition empty_Marshal (version : Z) : res bytes :=
  Marshal (mkMRing (wrap32 REmpty) (wrap32 version) 0 [] ∅).
Definition single_Marshal (version : Z) (peer : PeerInfo) : res bytes :=
  Marshal (mkMRing (wrap32 RSingle) (wrap32 version) 0 [peer] ∅).
Definition mod_Marshal (version rep : Z) (peers : PeerInfoList) : res bytes :=
  Marshal (mkMRing (wrap32 RMod) (wrap32 version) (wrap32 rep) peers ∅).
Definition ketama_Marshal (version rep : Z) (peers : PeerInfoList) : res bytes :=
  Marshal (mkMRing (wrap32 RKetama) (wrap32 version) (wrap32 rep) peers ∅).
Definition union_Marshal (version : Z) (oldRing newRing : res bytes) : res bytes :=
  ob ← oldRing;
  nb ← newRing;
  Marshal (mkMRing (wrap32 RUnion) (wrap32 version) 0 [] (<[key_new := nb]> (<[key_old := ob]> ∅))).

Fixpoint ring_Marshal (r : Ring) : res bytes :=
  match r with
  | empty v => empty_Marshal v
  | single v p _ => single_Marshal v p
  | mod_ v rep peers => mod_Marshal v rep peers
  | ketama v rep peers _ => ketama_Marshal v rep peers
  | unionRing o n => union_Marshal (Version n) (ring_Marshal o) (ring_Marshal n)
  end.

(** *** Changing a ring *)

Definition mod_AddPeers (ps : PeerInfoList) (v rep : Z) (peers : PeerInfoList) : res Ring :=
  let newPeers := info_Union peers ps in
  if decide (peer_list newPeers = peer_list peers) then Err ErrExists
  else Ok (mod_ (v + 1) rep newPeers).
Definition mod_RemovePeers (pl : PeerList) (v rep : Z) (peers : PeerInfoList) : res Ring :=
  let newPeers := info_AndNot peers pl in
  if decide (length newPeers = length peers) then Err ErrNotExist
  else Ok (mod_ (v + 1) rep newPeers).
Definition mod_ChangeReplication (n v : Z) (peers : PeerInfoList) : res Ring := Ok (mod_ (v + 1) n peers).

Definition ketama_AddPeers (ps : PeerInfoList) (v rep : Z) (peers : PeerInfoList) : res Ring :=
  let newPeers := info_Union peers ps in
  if decide (peer_list newPeers = peer_list peers) then Err ErrExists
  else w ← GetWeights newPeers; mret (ketama (v + 1) rep newPeers (NewWithWeights w)).
Definition ketama_RemovePeers (pl : PeerList) (v rep : Z) (peers : PeerInfoList) : res Ring :=
  let newPeers := info_AndNot peers pl in
  if decide (length newPeers = length (peer_list peers)) then Err ErrNotExist
  else w ← GetWeights newPeers; mret (ketama (v + 1) rep newPeers (NewWithWeights w)).
Definition ketama_ChangeReplication (n v : Z) (peers : PeerInfoList) (ring : HR) : res Ring :=
  Ok (ketama (v + 1) n peers ring).

(** [None] when the ring does not implement the interface. *)
Definition AddPeers (ps : PeerInfoList) (r : Ring) : option (res Ring) :=
  match r with
  | mod_ v rep peers => Some (mod_AddPeers ps v rep peers)
  | ketama v rep peers _ => Some (ketama_AddPeers ps v rep peers)
  | _ => None
  end.
Definition RemovePeers (pl : PeerList) (r : Ring) : option (res Ring) :=
  match r with
  | mod_ v rep peers => Some (mod_RemovePeers pl v rep peers)
  | ketama v rep peers _ => Some (ketama_RemovePeers pl v rep peers)
  | _ => None
  end.
Definition ChangeReplication (n : Z) (r : Ring) : option (res Ring) :=
  match r with
  | mod_ v _ peers => Some (mod_ChangeReplication n v peers)
  | ketama v _ peers ring => Some (ketama_ChangeReplication n v peers ring)
  | _ => None
  end.
End ring.
