(* ===== verification/RingSpec.v ===== *)
(** * What a ring promises

    Theorems about [Ring]: every ring gives each block a permutation of its
    members, the operations that change a ring keep it well formed, and a ring
    read back from its serialized form is the same ring. *)
From S2P Require Import Prelude GoSem Refs Crc32 Proto Models Ring.

(** ** Lists of peers as sets *)

Lemma index_from_spec i u pl : 0 ≤ i → index_from i u pl ≠ -1 ↔ u ∈ pl.
Proof.
  revert i. induction pl as [|x pl IH]; intros i Hi; simpl.
  - split; [done|]. intros []%not_elem_of_nil.
  - rewrite elem_of_cons. case_decide as Hx; [split; [by left|lia]|].
    rewrite (IH (i + 1)) by lia. split; [by right|]. intros [->|?]; done.
Qed.

Lemma Has_spec pl u : Has pl u = bool_decide (u ∈ pl).
Proof. apply bool_decide_ext. by apply index_from_spec. Qed.

Lemma uuid_from_index i u pi : uuid_from i u pi = index_from i u (peer_list pi).
Proof. revert i. induction pi as [|x pi IH]; intros i; simpl; [done|]. by rewrite IH. Qed.

Lemma HasUUID_spec pi u : HasUUID pi u = bool_decide (u ∈ peer_list pi).
Proof. rewrite <-Has_spec. unfold HasUUID, UUIDAt, Has, IndexAt. by rewrite uuid_from_index. Qed.

Section append.
Context {A : Type} (P : A → Prop) `{∀ x, Decision (P x)}.

Lemma foldl_append (acc l : list A) : foldl (λ out x, out ++ [x]) acc l = acc ++ l.
Proof.
  revert acc. induction l as [|x l IH]; intros acc; cbn; [by rewrite app_nil_r|]. by rewrite IH, <-app_assoc.
Qed.

(** The loop that appends what passes a test is [filter]. *)
Lemma foldl_filter (f : A → bool) (acc l : list A) :
  (∀ x, f x = bool_decide (P x)) → foldl (λ out x, if f x then out ++ [x] else out) acc l = acc ++ filter P l.
Proof.
  intros Hf. revert acc. induction l as [|x l IH]; intros acc; cbn [foldl]; [by rewrite app_nil_r|].
  rewrite IH, filter_cons, Hf. case_decide as Hp; [rewrite bool_decide_true by done|by rewrite bool_decide_false].
  by rewrite <-app_assoc.
Qed.
Lemma foldl_filter_not (f : A → bool) (acc l : list A) :
  (∀ x, f x = bool_decide (¬ P x)) → foldl (λ out x, if f x then out else out ++ [x]) acc l = acc ++ filter P l.
Proof.
  intros Hf. revert acc. induction l as [|x l IH]; intros acc; cbn [foldl]; [by rewrite app_nil_r|].
  rewrite IH, filter_cons, Hf. case_decide as Hp; [rewrite bool_decide_false by tauto|rewrite bool_decide_true by done].
  - by rewrite <-app_assoc.
  - done.
Qed.
End append.

Lemma bool_decide_not_notin (u : gostring) (l : PeerList) : bool_decide (u ∈ l) = bool_decide (¬ (u ∉ l)).
Proof. apply bool_decide_ext. destruct (decide (u ∈ l)); tauto. Qed.

Lemma Union_filter pl b : Union pl b = pl ++ filter (λ x, x ∉ pl) b.
Proof.
  unfold Union. rewrite foldl_append. apply (foldl_filter_not (λ x, x ∉ pl)).
  intros x. by rewrite Has_spec, bool_decide_not_notin.
Qed.
Lemma info_Union_filter pi b : info_Union pi b = pi ++ filter (λ x, UUID x ∉ peer_list pi) b.
Proof.
  unfold info_Union. rewrite foldl_append. apply (foldl_filter_not (λ x, UUID x ∉ peer_list pi)).
  intros x. by rewrite HasUUID_spec, bool_decide_not_notin.
Qed.
Lemma info_AndNot_filter pi b : info_AndNot pi b = filter (λ x, UUID x ∉ b) pi.
Proof.
  apply (foldl_filter_not (λ x, UUID x ∉ b) _ []). intros x. by rewrite Has_spec, bool_decide_not_notin.
Qed.

(** [filter] commutes with [peer_list]. *)
Lemma peer_list_filter (P : gostring → Prop) `{∀ x, Decision (P x)} `{∀ x : PeerInfo, Decision (P (UUID x))} pi :
  peer_list (filter (λ x, P (UUID x)) pi) = filter P (peer_list pi).
Proof.
  unfold peer_list. induction pi as [|x pi IH]; [done|]. rewrite fmap_cons, !filter_cons.
  destruct (decide (P (UUID x))) as [HP|HP]; [rewrite decide_True by done|rewrite decide_False by done];
    rewrite ?fmap_cons; by rewrite IH.
Qed.

Lemma NoDup_Union pl b : NoDup pl → NoDup b → NoDup (Union pl b).
Proof.
  intros Hp Hb. rewrite Union_filter. apply list.NoDup_app. split; [done|]. split; [|by apply list.NoDup_filter].
  intros x Hx [? _]%list_elem_of_filter. done.
Qed.
Lemma elem_of_Union x pl b : x ∈ Union pl b ↔ x ∈ pl ∨ x ∈ b.
Proof.
  rewrite Union_filter, elem_of_app, list_elem_of_filter. destruct (decide (x ∈ pl)); tauto.
Qed.

(** The three list operations of peers are the set operations: what is in
    the result is what the sets say, in the order of the first list and then
    the second, and lists without repetitions give lists without repetitions. *)
Theorem peer_list_sets (pl b : PeerList) :
  (∀ x, x ∈ AndNot pl b ↔ x ∈ pl ∧ x ∉ b) ∧ (∀ x, x ∈ Union pl b ↔ x ∈ pl ∨ x ∈ b) ∧
  (∀ x, x ∈ Intersect pl b ↔ x ∈ pl ∧ x ∈ b) ∧
  sublist (AndNot pl b) pl ∧ sublist (Intersect pl b) pl ∧ prefix pl (Union pl b) ∧
  (NoDup pl → NoDup b → NoDup (Union pl b)).
Proof.
  assert (AndNot pl b = filter (λ x, x ∉ b) pl) as Ha.
  { apply (foldl_filter_not (λ x, x ∉ b) _ []). intros x. by rewrite Has_spec, bool_decide_not_notin. }
  assert (Intersect pl b = filter (λ x, x ∈ b) pl) as Hi.
  { apply (foldl_filter (λ x, x ∈ b) _ []). intros x. apply Has_spec. }
  rewrite Ha, Hi. split_and!; try (intros x; rewrite list_elem_of_filter; tauto).
  - intros x. apply elem_of_Union.
  - apply sublist_filter.
  - apply sublist_filter.
  - rewrite Union_filter. by eexists.
  - apply NoDup_Union.
Qed.

(** ** The peers of a block *)

(** What the hash ring is documented to do: the nodes it gives for a key are
    distinct nodes of the ring, as many as were asked for when it says so; and it
    gives some when a node has a weight, of weights that are no machine's limit. *)
Class HashRingLaws `{HashRing} := {
  GetNodes_spec w key n s ok : GetNodes (NewWithWeights w) key n = (s, ok) →
    NoDup s ∧ (∀ x, x ∈ s → x ∈ dom w) ∧ (ok = true → Z.of_nat (length s) = n);
  GetNodes_some w key s ok : GetNodes (NewWithWeights w) key (Z.of_nat (size w)) = (s, ok) →
    Z.of_nat (size w) ≤ 2 ^ 24 → (∀ x k, w !! x = Some k → 0 ≤ k < 2 ^ 32) → (∃ x k, w !! x = Some k ∧ 0 < k) → s ≠ [];
}.

(** [copy(permute, l[k:]); copy(permute[len(l)-k:], l[:k])] is a rotation. *)
Lemma blit_rotate {A} (k : nat) (l z : list A) :
  (k ≤ length l)%nat → length z = length l →
  blit (length l - k) (take k l) (blit 0 (drop k l) z) = drop k l ++ take k l.
Proof.
  intros Hk Hz. unfold blit. rewrite take_0, (take_ge (drop k l)) by len. cbn [app].
  rewrite take_app_length' by len. rewrite (take_ge (take k l)) by len. f_equal.
  rewrite (drop_ge _ (length l - k + length (take k l))) by len. by rewrite app_nil_r.
Qed.

Lemma mod_peers rep peers key :
  peers ≠ [] → ∃ k, (k < length peers)%nat ∧
    mod_GetPeers rep peers key
    = Ok (mkPermutation (clip rep peers) (drop k (peer_list peers) ++ take k (peer_list peers))).
Proof.
  intros Hne. assert (length (peer_list peers) = length peers) as Hl by apply length_fmap.
  assert (0 < length peers)%nat as Hp by (destruct peers; [done|simpl; lia]).
  pose proof (Z.mod_pos_bound (ChecksumIEEE (BlockRef_ToBytes key)) (Z.of_nat (length peers)) ltac:(lia)) as Hm.
  eexists. split; [|unfold mod_GetPeers; rewrite decide_False, decide_False by lia].
  2: { rewrite blit_rotate by (rewrite ?length_replicate; lia). done. }
  lia.
Qed.

Lemma fill_spec s peers :
  NoDup s → NoDup (fill s peers) ∧ ∀ x, x ∈ fill s peers ↔ x ∈ s ∨ x ∈ peer_list peers.
Proof.
  revert s. induction peers as [|p peers IH]; intros s Hs.
  { split; [done|]. intros x. split; [by left|]. by intros [?|[]%not_elem_of_nil]. }
  unfold fill. cbn [foldl]. fold (fill (if bool_decide (UUID p ∈ s) then s else s ++ [UUID p]) peers).
  destruct (IH (if bool_decide (UUID p ∈ s) then s else s ++ [UUID p])) as [Hn He].
  { case_bool_decide; [done|]. apply list.NoDup_app. split; [done|]. split; [|apply NoDup_singleton].
    intros x Hx ->%list_elem_of_singleton. done. }
  split; [done|]. intros x. rewrite He. unfold peer_list. rewrite fmap_cons, elem_of_cons.
  case_bool_decide; [naive_solver|]. rewrite elem_of_app, list_elem_of_singleton. naive_solver.
Qed.

Lemma weigh_all gcd peers out w :
  foldl (λ o q, m ← o; weigh gcd m q) (Ok out) peers = Ok w →
  dom w = dom out ∪ list_to_set (peer_list peers).
Proof.
  revert out. induction peers as [|p peers IH]; intros out; cbn [foldl].
  - intros [= <-]. cbn. set_solver.
  - unfold weigh at 2. cbn [mbind res_mbind res_bind]. case_decide.
    + intros Hf. exfalso. clear IH. induction peers; [done|]. by apply IHpeers.
    + intros ->%IH. rewrite dom_insert_L. cbn. set_solver.
Qed.

Lemma GetWeights_dom peers w : GetWeights peers = Ok w → dom w = list_to_set (peer_list peers).
Proof.
  destruct peers as [|p peers]; [intros [= <-]; done|]. unfold GetWeights. intros ->%weigh_all. set_solver.
Qed.

(** Peers whose weights the hash ring can place: some peer has blocks. *)
Definition weighty (peers : PeerInfoList) : Prop :=
  Z.of_nat (length peers) ≤ 2 ^ 24 ∧ Forall (λ p, 0 ≤ TotalBlocks p < 2 ^ 32) peers ∧ Exists (λ p, TotalBlocks p ≠ 0) peers.

Lemma weigh_lookup g (peers : PeerInfoList) out w :
  NoDup (peer_list peers) → foldl (λ o q, m ← o; weigh g m q) (Ok out) peers = Ok w →
  (∀ p, p ∈ peers → w !! UUID p = Some (to_signed 64 (TotalBlocks p / wrap64 g))) ∧
  (∀ x k, w !! x = Some k → out !! x = Some k ∨ ∃ p, p ∈ peers ∧ k = to_signed 64 (TotalBlocks p / wrap64 g)) ∧
  (∀ x, x ∉ peer_list peers → w !! x = out !! x).
Proof.
  revert out. induction peers as [|p peers IH]; intros out Hnd; cbn [foldl].
  { intros [= ->]. split_and!; [by intros p ?%not_elem_of_nil|auto|done]. }
  cbn in Hnd. apply list.NoDup_cons in Hnd as [Hp Hnd]. unfold weigh at 2. cbn [mbind res_mbind res_bind]. case_decide as Hg.
  { assert (∀ l : PeerInfoList, foldl (λ o q, m ← o; weigh g m q) Panic l = Panic) as Hf by (induction l; done). by rewrite Hf. }
  intros Hf. destruct (IH _ Hnd Hf) as (H1 & H2 & H3). split_and!.
  - intros q [->|Hq]%elem_of_cons; [|by apply H1]. by rewrite H3, lookup_insert_eq.
  - intros x k Hx. destruct (H2 x k Hx) as [[[<- <-]|[_ ?]]%lookup_insert_Some|(q & Hq & ->)]; [|by left|]; right.
    + exists p. split; [by left|done].
    + exists q. split; [by right|done].
  - intros x Hx. cbn in Hx. rewrite not_elem_of_cons in Hx. destruct Hx as [Hne Hx]. rewrite H3, lookup_insert_ne by done. done.
Qed.

Lemma gcd_divides (peers : PeerInfoList) g0 :
  0 ≤ g0 → Forall (λ p, 0 ≤ TotalBlocks p < 2 ^ 32) peers →
  let g := foldl (λ g q, big_GCD g (to_signed 64 (TotalBlocks q))) g0 peers in
  0 ≤ g ∧ (g | g0) ∧ ∀ p, p ∈ peers → (g | TotalBlocks p).
Proof.
  intros H0 Hf. revert g0 H0. induction Hf as [|p peers Hp Hf IH]; intros g0 H0; cbn [foldl].
  { split_and!; [done|reflexivity|by intros p ?%not_elem_of_nil]. }
  rewrite to_signed_small by lia. destruct (IH (big_GCD g0 (TotalBlocks p)) (Z.gcd_nonneg _ _)) as (H1 & H2 & H3). cbv zeta in *.
  set (g := foldl _ _ peers) in *. clearbody g. split_and!; [done|..].
  - etransitivity; [exact H2|apply Z.gcd_divide_l].
  - intros q [->|Hq]%elem_of_cons; [|by apply H3]. etransitivity; [exact H2|apply Z.gcd_divide_r].
Qed.

(** The weights of such peers are positive for the peers that have blocks. *)
Lemma weighty_weights peers w :
  NoDup (peer_list peers) → weighty peers → GetWeights peers = Ok w →
  size w = length peers ∧ (∀ x k, w !! x = Some k → 0 ≤ k < 2 ^ 32) ∧ ∃ x k, w !! x = Some k ∧ 0 < k.
Proof.
  intros Hnd (_ & Hf & He) Hw. split.
  { rewrite <-size_dom, (GetWeights_dom _ _ Hw), size_list_to_set by done. apply length_fmap. }
  destruct peers as [|p0 peers]; [by inversion He|]. unfold GetWeights in Hw. set (g := foldl _ _ peers) in Hw.
  pose proof (Forall_inv Hf) as Hp0. cbn beta in Hp0. destruct (gcd_divides peers (TotalBlocks p0)) as (Hg0 & Hd0 & Hds); [lia|by inversion Hf|].
  assert (g = foldl (λ g q, big_GCD g (to_signed 64 (TotalBlocks q))) (TotalBlocks p0) peers) as Eg
    by (unfold g; by rewrite to_signed_small by lia). rewrite <-Eg in *. clearbody g.
  assert (∀ p, p ∈ p0 :: peers → (g | TotalBlocks p) ∧ 0 ≤ TotalBlocks p < 2 ^ 32) as Hall.
  { intros p Hp. split; [|by eapply list.Forall_forall in Hp; [|exact Hf]]. apply elem_of_cons in Hp as [->|Hp]; [done|by apply Hds]. }
  apply Exists_exists in He as (p & Hp%list_elem_of_In & Hnz). destruct (Hall p Hp) as [Hpd Hpb].
  assert (0 < g < 2 ^ 32) as Hg.
  { apply Z.divide_pos_le in Hpd as Hle; [|lia]. destruct (decide (g = 0)) as [->|]; [|lia]. by apply Z.divide_0_l in Hpd. }
  destruct (weigh_lookup g _ _ _ Hnd Hw) as (H1 & H2 & _). rewrite (wrap_id 64 g) in H1, H2 by (unfold in_width; lia).
  assert (∀ q, q ∈ p0 :: peers → 0 ≤ TotalBlocks q / g < 2 ^ 32) as Hq.
  { intros q Hq. destruct (Hall q Hq) as [_ Hqb]. split; [apply Z.div_pos; lia|]. apply Z.div_lt_upper_bound; nia. }
  split.
  - intros x k Hx. destruct (H2 x k Hx) as [?|(q & Hq1 & ->)]; [done|]. pose proof (Hq q Hq1). rewrite to_signed_small by lia. lia.
  - exists (UUID p). eexists. split; [by apply H1|]. pose proof (Hq p Hp). rewrite to_signed_small by lia.
    apply Z.div_str_pos. apply Z.divide_pos_le in Hpd; lia.
Qed.

Section ring.
Context `{HashRingLaws} `{Range}.

(** Every peer once, and a replication of at least one; a ketama ring is made
    from the weights of its peers. *)
Fixpoint ring_ok (r : Ring) : Prop :=
  match r with
  | empty _ => True
  | single _ p perm => perm = mkPermutation 1 [UUID p]
  | mod_ _ rep peers => NoDup (peer_list peers) ∧ 1 ≤ rep
  | unionRing o n => ring_ok o ∧ ring_ok n
  | ketama _ rep peers ring =>
      NoDup (peer_list peers) ∧ 1 ≤ rep ∧ ∃ w, GetWeights peers = Ok w ∧ ring = NewWithWeights w
  end.

(** The rings that have a node for every block. *)
Fixpoint has_nodes (r : Ring) : Prop :=
  match r with
  | empty _ | single _ _ _ => True
  | mod_ _ _ peers => peers ≠ []
  | unionRing o n => has_nodes o ∧ has_nodes n
  | ketama _ _ peers _ => weighty peers
  end.

(** What [GetPeers] gives: an error only when there are no nodes. *)
Definition peers_of (members : PeerList) (nodes : Prop) (o : res PeerPermutation) : Prop :=
  match o with
  | Ok p => Peers p ≡ₚ members ∧ NoDup (Peers p) ∧ 0 ≤ Replication p ≤ Z.of_nat (length (Peers p))
  | Err e => e = ErrNoNodes ∧ ¬ nodes
  | Panic => False
  end.

Lemma clip_bounds rep peers : 1 ≤ rep → 0 ≤ clip rep peers ≤ Z.of_nat (length peers).
Proof. unfold clip. case_decide; lia. Qed.

Lemma ketama_peers rep peers w key :
  NoDup (peer_list peers) → 1 ≤ rep → GetWeights peers = Ok w →
  peers_of (peer_list peers) (weighty peers) (ketama_GetPeers rep peers (NewWithWeights w) key).
Proof.
  intros Hnd Hrep Hw. unfold ketama_GetPeers.
  destruct (GetNodes _ _ _) as [s ok] eqn:Hg. pose proof Hg as Hg'. apply GetNodes_spec in Hg as (Hs & Hin & Hlen).
  destruct (negb ok && _) eqn:Hno.
  { apply andb_true_iff in Hno as [_ Hno%bool_decide_eq_true_1%nil_length_inv]. split; [done|]. intros Hwt.
    destruct (weighty_weights peers w Hnd Hwt Hw) as (Hsz & Hb & Hpos). rewrite <-Hsz in Hg'.
    apply (GetNodes_some _ _ _ _ Hg'); try done. rewrite Hsz. apply Hwt. }
  assert (length (peer_list peers) = length peers) as Hl by apply length_fmap.
  set (s' := if ok then s else fill s peers). assert (s' ≡ₚ peer_list peers) as Hp.
  { rewrite (GetWeights_dom _ _ Hw) in Hin. setoid_rewrite elem_of_list_to_set in Hin. unfold s'. destruct ok.
    - apply submseteq_length_Permutation; [|specialize (Hlen eq_refl); lia]. by apply NoDup_submseteq.
    - destruct (fill_spec s peers Hs) as [Hf He]. apply list.NoDup_Permutation; [done|done|].
      intros x. rewrite He. naive_solver. }
  rewrite decide_False by (rewrite Hp; lia). cbn. split; [done|]. split; [by rewrite Hp|].
  rewrite Hp, Hl. by apply clip_bounds.
Qed.

Lemma Union_perm o n o' n' : NoDup o → NoDup n → o ≡ₚ o' → n ≡ₚ n' → Union o n ≡ₚ Union n' o'.
Proof.
  intros Ho Hn Hoo Hnn. apply list.NoDup_Permutation.
  - by apply NoDup_Union.
  - apply NoDup_Union; [by rewrite <-Hnn|by rewrite <-Hoo].
  - intros x. rewrite !elem_of_Union, Hoo, Hnn. tauto.
Qed.

Lemma get_peers_spec (r : Ring) (key : BlockRef) : ring_ok r → peers_of (Members r) (has_nodes r) (GetPeers r key).
Proof.
  induction r as [v|v p perm|v rep peers|o IHo n IHn|v rep peers ring]; cbn [ring_ok GetPeers Members has_nodes]; unfold union_GetPeers.
  - intros _. cbn. split; [done|]. split; [constructor|lia].
  - intros ->. cbn. split; [done|]. split; [apply NoDup_singleton|lia].
  - intros [Hnd Hrep]. destruct (decide (peers = [])) as [->|Hne]; [by split; [|intros []]|].
    destruct (mod_peers rep peers key Hne) as (k & _ & ->). cbn.
    assert (drop k (peer_list peers) ++ take k (peer_list peers) ≡ₚ peer_list peers) as Hp
      by (by rewrite Permutation_app_comm, take_drop).
    split; [done|]. split; [by rewrite Hp|]. rewrite Hp. unfold peer_list. rewrite length_fmap. by apply clip_bounds.
  - intros [Ho Hn]. specialize (IHo Ho). specialize (IHn Hn).
    destruct (GetPeers n key) as [pn|en|]; [|cbn in *; tauto|done]. destruct (GetPeers o key) as [po|eo|]; [|cbn in *; tauto|done].
    destruct IHo as (Hop & Hond & _). destruct IHn as (Hnp & Hnnd & Hr). cbn.
    split; [by apply Union_perm|]. split; [by apply NoDup_Union|].
    assert (length (Peers pn) ≤ length (Union (Peers po) (Peers pn)))%nat; [|lia].
    apply submseteq_length, NoDup_submseteq; [done|]. intros x Hx. apply elem_of_Union. by right.
  - intros (Hnd & Hrep & w & Hw & ->). by apply ketama_peers.
Qed.

(** C35: a well-formed ring gives every block a permutation of its members, each
    once, with a replication between zero and their number; it never panics.  The
    only error is that there are no nodes, and it is given only by a mod ring
    without peers, by a ketama ring whose peers have no blocks (or more than the
    hash ring can weigh: 2^24 peers, 2^32 blocks at one of them), and by a union
    with such a ring. *)
Theorem ring_get_peers (r : Ring) (key : BlockRef) : ring_ok r → peers_of (Members r) (has_nodes r) (GetPeers r key).
Proof. apply get_peers_spec. Qed.

(** ** Changing a ring *)

(** Some peer has blocks, so the weights have a divisor. *)
Definition has_blocks (peers : PeerInfoList) : Prop :=
  peers = [] ∨ Exists (λ p, TotalBlocks p ≠ 0) peers.

Lemma to_signed_bound z : -2 ^ 63 ≤ to_signed 64 z < 2 ^ 63.
Proof. unfold to_signed, wrap. pose proof (Z.mod_pos_bound z (2 ^ 64) ltac:(lia)). case_decide; lia. Qed.
Lemma to_signed_zero z : u64 z → to_signed 64 z = 0 → z = 0.
Proof. unfold to_signed. intros Hz. rewrite (wrap_id 64 z) by done. unfold in_width in Hz. case_decide; lia. Qed.
Lemma wrap_nonzero g : g ≠ 0 → -2 ^ 63 ≤ g ≤ 2 ^ 63 → wrap64 g ≠ 0.
Proof.
  intros Hg Hb. unfold wrap. destruct (decide (0 < g)).
  - rewrite Z.mod_small by lia. done.
  - replace g with (g + 2 ^ 64 + -1 * 2 ^ 64) by lia. rewrite Z.mod_add, Z.mod_small by lia. lia.
Qed.

Lemma gcd_bound a b : -2 ^ 63 ≤ a ≤ 2 ^ 63 → -2 ^ 63 ≤ b ≤ 2 ^ 63 → -2 ^ 63 ≤ Z.gcd a b ≤ 2 ^ 63.
Proof.
  intros Ha Hb. pose proof (Z.gcd_nonneg a b). split; [lia|].
  destruct (decide (a = 0)) as [->|Hne]; [rewrite Z.gcd_0_l; lia|].
  pose proof (Z.divide_pos_le (Z.gcd a b) (Z.abs a) ltac:(lia)) as Hd. 
  rewrite Z.divide_abs_r in Hd. specialize (Hd (Z.gcd_divide_l a b)). lia.
Qed.

Lemma gcd_fold (peers : PeerInfoList) g :
  g ≠ 0 ∨ Exists (λ p, TotalBlocks p ≠ 0) peers → Forall (λ p, u64 (TotalBlocks p)) peers →
  -2 ^ 63 ≤ g ≤ 2 ^ 63 →
  wrap64 (foldl (λ g q, big_GCD g (to_signed 64 (TotalBlocks q))) g peers) ≠ 0.
Proof.
  revert g. induction peers as [|p peers IH]; intros g Hg Hu Hb; cbn [foldl].
  { destruct Hg as [?|He]; [by apply wrap_nonzero|]. by inversion He. }
  inversion_clear Hu as [|? ? Hp Hu']. pose proof (to_signed_bound (TotalBlocks p)).
  apply IH; [|done|apply gcd_bound; lia]. unfold big_GCD.
  destruct (decide (g = 0)) as [->|Hne]; [|left; intros [? _]%Z.gcd_eq_0; done].
  destruct Hg as [?|He]; [done|]. inversion_clear He as [? ? Hx|? ? Hx]; [|by right].
  left. intros [_ Hz]%Z.gcd_eq_0. by apply to_signed_zero in Hz.
Qed.

Lemma weigh_ok gcd peers out : wrap64 gcd ≠ 0 →
  ∃ w, foldl (λ o q, m ← o; weigh gcd m q) (Ok out) peers = Ok w.
Proof.
  intros Hg. revert out. induction peers as [|p peers IH]; intros out; cbn [foldl]; [by eexists|].
  unfold weigh at 2. cbn [mbind res_mbind res_bind]. rewrite decide_False by done. apply IH.
Qed.

Lemma GetWeights_ok peers :
  has_blocks peers → Forall (λ p, u64 (TotalBlocks p)) peers → ∃ w, GetWeights peers = Ok w.
Proof.
  intros Hb Hu. destruct peers as [|p peers]; [by eexists|]. destruct Hb as [?|He]; [done|].
  inversion_clear Hu as [|? ? Hp Hu']. unfold GetWeights. apply weigh_ok, gcd_fold; [|done|].
  - inversion_clear He as [? ? Hx|? ? Hx]; [|by right]. left. by intros ?%to_signed_zero.
  - pose proof (to_signed_bound (TotalBlocks p)). lia.
Qed.

(** The calls that change a ring. *)
Inductive change : Type :=
  | Add (ps : PeerInfoList)
  | Remove (pl : PeerList)
  | Replicate (n : Z).
Definition apply_change (c : change) (r : Ring) : option (res Ring) :=
  match c with
  | Add ps => AddPeers ps r
  | Remove pl => RemovePeers pl r
  | Replicate n => ChangeReplication n r
  end.

Definition infos (r : Ring) : PeerInfoList :=
  match r with mod_ _ _ peers | ketama _ _ peers _ => peers | _ => [] end.

(** The peers afterwards. *)
Definition new_infos (c : change) (peers : PeerInfoList) : PeerInfoList :=
  match c with
  | Add ps => info_Union peers ps
  | Remove pl => info_AndNot peers pl
  | Replicate _ => peers
  end.

(** Peers added are distinct, a replication is positive, and the peers left
    have blocks. *)
Definition change_ok (c : change) (r : Ring) : Prop :=
  match c with
  | Add ps => NoDup (peer_list ps)
  | Remove _ => True
  | Replicate n => 1 ≤ n
  end ∧ has_blocks (new_infos c (infos r)) ∧ Forall (λ p, u64 (TotalBlocks p)) (new_infos c (infos r)).

(** Whether the change does anything, and the error when it does not. *)
Definition no_change (c : change) (members : PeerList) (e : error) : Prop :=
  match c with
  | Add ps => e = ErrExists ∧ ∀ x, x ∈ peer_list ps → x ∈ members
  | Remove pl => e = ErrNotExist ∧ ∀ x, x ∈ pl → x ∉ members
  | Replicate _ => False
  end.
Definition new_members (c : change) (members : PeerList) : PeerList :=
  match c with
  | Add ps => Union members (peer_list ps)
  | Remove pl => AndNot members pl
  | Replicate _ => members
  end.

Lemma peer_list_Union pi b : peer_list (info_Union pi b) = Union (peer_list pi) (peer_list b).
Proof.
  rewrite info_Union_filter, Union_filter. unfold peer_list at 1. rewrite fmap_app. f_equal.
  by rewrite <-(peer_list_filter (λ x, x ∉ peer_list pi)).
Qed.
Lemma peer_list_AndNot pi b : peer_list (info_AndNot pi b) = AndNot (peer_list pi) b.
Proof.
  rewrite info_AndNot_filter. rewrite (peer_list_filter (λ x, x ∉ b)). symmetry.
  apply (foldl_filter_not (λ x, x ∉ b) _ []). intros x. by rewrite Has_spec, bool_decide_not_notin.
Qed.

Lemma new_members_infos c pi : peer_list (new_infos c pi) = new_members c (peer_list pi).
Proof. destruct c; [apply peer_list_Union|apply peer_list_AndNot|done]. Qed.

Lemma new_members_NoDup c r :
  NoDup (peer_list (infos r)) → change_ok c r → NoDup (peer_list (new_infos c (infos r))).
Proof.
  intros Hnd [Hc _]. destruct c as [ps|pl|n]; cbn in *; [|rewrite info_AndNot_filter, (peer_list_filter (λ x, x ∉ pl));
    by apply list.NoDup_filter|done].
  rewrite peer_list_Union. by apply NoDup_Union.
Qed.

Lemma Union_same pl b : Union pl b = pl → ∀ x, x ∈ b → x ∈ pl.
Proof. intros He x Hx. rewrite <-He. apply elem_of_Union. by right. Qed.
Lemma AndNot_same pi b :
  length (info_AndNot pi b) = length pi → ∀ x, x ∈ b → x ∉ peer_list pi.
Proof.
  rewrite info_AndNot_filter. intros Hl x Hx (p & -> & Hp)%list_elem_of_fmap.
  pose proof (length_filter_lt (λ x, UUID x ∉ b) pi p Hp (λ h, h Hx)). lia.
Qed.

Ltac change_cbn :=
  cbn [apply_change AddPeers RemovePeers ChangeReplication new_infos new_members no_change
    ring_ok Version RType Members] in *;
  unfold mod_AddPeers, mod_RemovePeers, mod_ChangeReplication, ketama_AddPeers, ketama_RemovePeers,
    ketama_ChangeReplication in *; cbv zeta in *.

Lemma change_spec (c : change) (r : Ring) (o : res Ring) :
  ring_ok r → change_ok c r → apply_change c r = Some o →
  match o with
  | Ok r' => ring_ok r' ∧ Version r' = Version r + 1 ∧ RType r' = RType r ∧
             Members r' = new_members c (Members r)
  | Err e => no_change c (Members r) e
  | Panic => False
  end.
Proof.
  intros Hok Hc Ha. pose proof Hc as (_ & Hb & Hu).
  destruct (GetWeights_ok _ Hb Hu) as [w Hw]. pose proof (new_members_infos c (infos r)) as Hm.
  assert (NoDup (peer_list (infos r))) as Hnd by (destruct r; cbn in *; try constructor; tauto).
  pose proof (new_members_NoDup c r Hnd Hc) as Hnd'.
  destruct r as [|v p perm|v rep peers| |v rep peers ring]; try (by destruct c); cbn [infos ring_ok Members] in *.
  - destruct Hok as [_ Hrep]. destruct c as [ps|pl|n]; change_cbn;
      injection Ha as <-; [case_decide as Hd|case_decide as Hd|]; change_cbn.
    + split; [done|]. rewrite peer_list_Union in Hd. by apply Union_same.
    + by rewrite <-Hm.
    + split; [done|]. by apply AndNot_same.
    + by rewrite <-Hm.
    + split; [|done]. split; [done|apply Hc].
  - destruct Hok as (_ & Hrep & w0 & Hw0 & ->). destruct c as [ps|pl|n]; change_cbn;
      injection Ha as <-; [case_decide as Hd|case_decide as Hd|];
      rewrite ?Hw; cbn [mbind res_mbind res_bind mret res_ret]; change_cbn.
    + split; [done|]. rewrite peer_list_Union in Hd. by apply Union_same.
    + rewrite <-Hm. split; [|done]. split; [done|]. split; [done|]. by exists w.
    + split; [done|]. apply AndNot_same. rewrite Hd. apply length_fmap.
    + rewrite <-Hm. split; [|done]. split; [done|]. split; [done|]. by exists w.
    + split; [|done]. split; [done|]. split; [apply Hc|]. by exists w0.
Qed.

(** C40: adding or removing peers, or changing the replication, of a well-formed mod or
    ketama ring.  The side conditions ([change_ok]): the peers to add are distinct, the new
    replication is positive, the numbers of blocks of the peers the ring then has are of 64
    bits, and not all of them are zero.  The result is a well-formed ring of the same kind
    with the next version and exactly the members the call asks for, or the error that says
    the call changes nothing; it does not panic. *)
Theorem ring_change (c : change) (r : Ring) (o : res Ring) :
  ring_ok r → change_ok c r → apply_change c r = Some o →
  match o with
  | Ok r' => ring_ok r' ∧ Version r' = Version r + 1 ∧ RType r' = RType r ∧
             Members r' = new_members c (Members r)
  | Err e => no_change c (Members r) e
  | Panic => False
  end.
Proof. apply change_spec. Qed.

(** ** Serialization *)

(** The message of a ring, given the bytes of the rings of a union. *)
Definition ring_message (r : Ring) (ob nb : bytes) : MRing :=
  match r with
  | empty v => mkMRing REmpty v 0 [] ∅
  | single v p _ => mkMRing RSingle v 0 [p] ∅
  | mod_ v rep peers => mkMRing RMod v rep peers ∅
  | ketama v rep peers _ => mkMRing RKetama v rep peers ∅
  | unionRing o n => mkMRing RUnion (Version n) 0 [] (<[key_new := nb]> (<[key_old := ob]> ∅))
  end.

(** Every message that is written has values in range. *)
Fixpoint marshallable (r : Ring) : Prop :=
  match r with
  | unionRing o n =>
      marshallable o ∧ marshallable n ∧
      ∀ ob nb, ring_Marshal o = Ok ob → ring_Marshal n = Ok nb → Ring_valid (ring_message r ob nb)
  | _ => Ring_valid (ring_message r [] [])
  end.

Lemma entry_length tag always (l : list (bytes * bytes)) k v :
  (k, v) ∈ l → (length v < length (map_enc tag always l))%nat.
Proof.
  unfold map_enc. induction l as [|[k' v'] l IH]; [by intros []%not_elem_of_nil|].
  rewrite fmap_cons. cbn [concat fst snd]. rewrite length_app. intros [[= <- <-]|Hin]%elem_of_cons.
  - assert (length v ≤ length (entry always k v))%nat as Hl.
    { unfold entry. case_decide as Hd.
      - unfold benc. len.
      - assert (¬ (0 < length v)%nat) by tauto. lia. }
    unfold benc at 1. len.
  - specialize (IH Hin). lia.
Qed.

Lemma attr_shorter m k v : RG_Attrs m !! k = Some v → (length v < length (Ring_enc m))%nat.
Proof.
  intros Hv. unfold Ring_enc. rewrite !length_app.
  assert ((k, v) ∈ range (RG_Attrs m)) as Hin by (rewrite range_perm; by apply elem_of_map_to_list).
  pose proof (entry_length 0x2a false _ _ _ Hin). lia.
Qed.

Lemma ring_bytes r ob nb :
  Ring_valid (ring_message r ob nb) →
  Marshal (ring_message r ob nb) = Ok (Ring_enc (ring_message r ob nb)) ∧
  Unmarshal (Ring_enc (ring_message r ob nb)) Ring_zero = Ok (ring_message r ob nb).
Proof.
  intros Hv. assert (msg_valid (ring_message r ob nb)) as Hm by exact Hv.
  split; [exact (Marshal_enc _ Hm)|exact (Unmarshal_enc _ Hm)].
Qed.

Lemma keys_differ : key_old ≠ key_new.
Proof. done. Qed.

Lemma rep_of_id t v rep peers a : 1 ≤ rep → rep_of (mkMRing t v rep peers a) = rep.
Proof. intros Hr. unfold rep_of. cbn. by rewrite decide_False by lia. Qed.

Lemma wrap_message r ob nb :
  Ring_valid (ring_message r ob nb) → u32 (RG_Version (ring_message r ob nb)) ∧
  u32 (RG_ReplicationFactor (ring_message r ob nb)).
Proof. intros (_ & ? & ? & _). done. Qed.

Lemma ring_roundtrip r :
  ring_ok r → marshallable r →
  ∃ b, ring_Marshal r = Ok b ∧ ∀ fuel, (length b < fuel)%nat → unmarshal_ring fuel b = Ok r.
Proof.
  assert (∀ r fuel', Ring_valid (ring_message r [] []) → (∀ o n, r ≠ unionRing o n) →
    unmarshal_ring (S fuel') (Ring_enc (ring_message r [] []))
    = CreateRing (unmarshal_ring fuel') (ring_message r [] [])) as Hu.
  { intros r0 fuel' Hv _. cbn [unmarshal_ring]. destruct (ring_bytes _ _ _ Hv) as [_ ->]. done. }
  induction r as [v|v p perm|v rep peers|o IHo n IHn|v rep peers ring]; cbn [ring_ok marshallable]; intros Hok Hv.
  all: try (pose proof (ring_bytes _ _ _ Hv) as [Hm _]; destruct (wrap_message _ _ _ Hv) as [Hw1 Hw2];
    cbn [ring_message RG_Version RG_ReplicationFactor] in Hw1, Hw2; cbn [ring_Marshal];
    unfold empty_Marshal, single_Marshal, mod_Marshal, ketama_Marshal; rewrite ?(wrap_id 32 v Hw1), ?(wrap_id 32 rep Hw2);
    eexists; split; [exact Hm|]; intros [|fuel'] Hf; [lia|]; rewrite Hu by done;
    unfold CreateRing, ring_message; cbn [RG_Type]).
  - done.
  - by rewrite Hok.
  - destruct Hok as [_ Hrep]. unfold makeMod. by rewrite rep_of_id.
  - destruct Hok as [Ho Hn]. destruct Hv as (Hvo & Hvn & Hv).
    destruct (IHo Ho Hvo) as (ob & Hob & Hou). destruct (IHn Hn Hvn) as (nb & Hnb & Hnu).
    specialize (Hv ob nb Hob Hnb). pose proof (ring_bytes _ _ _ Hv) as [Hm Hun].
    destruct (wrap_message _ _ _ Hv) as [Hw1 _]. cbn [ring_message RG_Version] in Hw1.
    cbn [ring_Marshal]. unfold union_Marshal. rewrite Hob, Hnb. cbn [mbind res_mbind res_bind]. rewrite (wrap_id 32 _ Hw1).
    eexists. split; [exact Hm|]. intros [|fuel'] Hf; [lia|]. cbn [unmarshal_ring]. rewrite Hun.
    cbn [mbind res_mbind res_bind]. unfold CreateRing. cbn [ring_message RG_Type]. unfold makeUnion. cbn [RG_Attrs].
    pose proof (attr_shorter (ring_message (unionRing o n) ob nb)) as Hs. cbn [ring_message RG_Attrs] in Hs, Hf.
    pose proof keys_differ as Hk.
    assert (∀ A : gmap gostring bytes, <[key_new := nb]> (<[key_old := ob]> A) !! key_old = Some ob) as Hlo.
    { intros A. rewrite lookup_insert_ne by done. by rewrite lookup_insert_eq. }
    assert (∀ A : gmap gostring bytes, <[key_new := nb]> (<[key_old := ob]> A) !! key_new = Some nb) as Hln.
    { intros A. by rewrite lookup_insert_eq. }
    pose proof (Hs _ _ (Hlo _)). pose proof (Hs _ _ (Hln _)).
    rewrite Hlo, (Hou fuel'), Hln by lia. cbn [mbind res_mbind res_bind]. by rewrite (Hnu fuel') by lia.
  - destruct Hok as (_ & Hrep & w & Hw & ->). unfold makeKetama. cbn [RG_Peers]. rewrite Hw, rep_of_id by done. done.
Qed.

(** A well-formed ring, however deep its unions, is marshalled without error,
    and unmarshalling the bytes gives the same ring: kind, version, replication,
    peers in order and hash ring.  The recursion of [Unmarshal] on the rings
    inside a union ends. *)
Theorem ring_marshal_unmarshal (r : Ring) :
  ring_ok r → marshallable r → ∃ b, ring_Marshal r = Ok b ∧ ring_Unmarshal b = Ok r.
Proof.
  intros Hok Hm. destruct (ring_roundtrip r Hok Hm) as (b & Hb & Hu). exists b. split; [done|]. apply Hu. lia.
Qed.

(** A ring message whose type is not registered makes [Unmarshal] call a nil
    function: it panics instead of returning an error. *)
Theorem unknown_ring_panics (m : MRing) :
  Ring_valid m → RKetama < RG_Type m → ring_Unmarshal (Ring_enc m) = Panic.
Proof.
  intros Hv Ht. assert (msg_valid m) as Hm by exact Hv. unfold ring_Unmarshal. cbn [unmarshal_ring].
  pose proof (Unmarshal_enc m Hm) as Hu. change (Unmarshal (Ring_enc m) Ring_zero = Ok m) in Hu. rewrite Hu.
  cbn [mbind res_mbind res_bind]. unfold CreateRing, RKetama, REmpty, RSingle, RMod, RUnion in *.
  by rewrite !decide_False by lia.
Qed.
End ring.

(** ** Examples *)

(** A ring that gives its nodes in a fixed order. *)
#[local] Instance fixed_ring : HashRing := {|
  HR := list gostring;
  NewWithWeights := λ w, (map_to_list w).*1;
  GetNodes := λ r _ n, (take (Z.to_nat n) r, bool_decide (0 ≤ n ≤ Z.of_nat (length r)));
|}.
#[local] Instance fixed_ring_laws : HashRingLaws.
Proof.
  split.
  2: { intros w key s ok [= <- _] _ _ (x & k & Hx & _) He. rewrite Nat2Z.id in He.
       rewrite take_ge in He by (rewrite length_fmap; by rewrite length_map_to_list).
       apply elem_of_map_to_list in Hx. apply fmap_nil_inv in He. rewrite He in Hx. by apply not_elem_of_nil in Hx. }
  intros w key n s ok [= <- <-]. pose proof (NoDup_fst_map_to_list w) as Hnd. split_and!.
  - rewrite <-(take_drop (Z.to_nat n)) in Hnd. by apply list.NoDup_app in Hnd as [? _].
  - intros x Hx. apply elem_of_dom. apply (subseteq_take (Z.to_nat n)) in Hx.
    apply list_elem_of_fmap in Hx as ([k v] & -> & Hin%elem_of_map_to_list). by exists v.
  - intros Hb%bool_decide_eq_true_1. rewrite length_take. lia.
Qed.
#[local] Existing Instance map_range.

Definition rx_peer (x : byte) (n : Z) : PeerInfo := mkPeerInfo [x] [] 0 n 0 false None 0.
Definition rx_mod : Ring := mod_ 1 1 [rx_peer x61 8].
Definition rx_ketama : Ring :=
  ketama 2 2 [rx_peer x61 8; rx_peer x62 4] (NewWithWeights (<[[x62] := 1]> (<[[x61] := 2]> ∅))).
Definition rx_union : Ring := unionRing rx_mod rx_ketama.

Lemma rx_ketama_ok : ring_ok rx_ketama.
Proof.
  split; [repeat constructor; set_solver|]. split; [lia|]. exists (<[[x62] := 1]> (<[[x61] := 2]> ∅)).
  split; [|done]. by_compute.
Qed.
Lemma rx_union_ok : ring_ok rx_union.
Proof. split; [split; [repeat constructor; set_solver|lia]|exact rx_ketama_ok]. Qed.

Lemma ring_get_peers_witness :
  ring_ok rx_union ∧ ∃ p, GetPeers rx_union (mkBlockRef (mkINodeRef 1 2) 3) = Ok p ∧
    Peers p ≡ₚ [[x61]; [x62]] ∧ Replication p = 2.
Proof.
  split; [exact rx_union_ok|].
  pose proof (ring_get_peers rx_union (mkBlockRef (mkINodeRef 1 2) 3) rx_union_ok) as Hp.
  assert (Members rx_union = [[x61]; [x62]]) as Hm by (vm_compute; reflexivity). rewrite Hm in Hp.
  destruct (GetPeers rx_union (mkBlockRef (mkINodeRef 1 2) 3)) as [p| |] eqn:E.
  - exists p. split; [reflexivity|]. split; [apply Hp|]. vm_compute in E. injection E as <-. reflexivity.
  - exfalso. vm_compute in E. discriminate.
  - exfalso. exact Hp.
Defined.

Lemma rx_change_ok : change_ok (Add [rx_peer x63 4; rx_peer x61 1]) rx_ketama.
Proof.
  split; [repeat constructor; set_solver|]. split.
  - right. apply Exists_cons_hd. done.
  - repeat (constructor; [unfold in_width; cbn; lia|]). constructor.
Qed.

(** The kind of outcome. *)
Definition outcome {A} (o : option (res A)) : nat :=
  match o with None => 0 | Some (Ok _) => 1 | Some (Err _) => 2 | Some Panic => 3 end.

Lemma ring_change_witness :
  match apply_change (Add [rx_peer x63 4; rx_peer x61 1]) rx_ketama with
  | Some (Ok r) => ring_ok r ∧ Version r = 3 ∧ Members r = [[x61]; [x62]; [x63]]
  | _ => False
  end.
Proof.
  pose proof (ring_change (Add [rx_peer x63 4; rx_peer x61 1]) rx_ketama) as Hc.
  assert (outcome (apply_change (Add [rx_peer x63 4; rx_peer x61 1]) rx_ketama) = 1%nat) as E by (vm_compute; reflexivity).
  destruct (apply_change (Add [rx_peer x63 4; rx_peer x61 1]) rx_ketama) as [[r|e|]|]; try discriminate E.
  destruct (Hc (Ok r) rx_ketama_ok rx_change_ok eq_refl) as (Hr & Hv & _ & Hm).
  split; [exact Hr|]. split; [exact Hv|]. rewrite Hm. reflexivity.
Defined.

Lemma unknown_ring_panics_witness : ring_Unmarshal [x08; x05] = Panic.
Proof.
  assert (Ring_enc (mkMRing 5 0 0 [] ∅) = [x08; x05]) as <- by (vm_compute; reflexivity).
  apply unknown_ring_panics; [|reflexivity].
  unfold Ring_valid. split_and!; try (unfold in_width; cbn; lia); try constructor.
Defined.

Lemma rx_peer_valid x n : n = 8 ∨ n = 4 → PeerInfo_valid (rx_peer x n).
Proof.
  intros Hn. unfold PeerInfo_valid. split_and!; cbn; unfold short, int_range, in_width; cbn; try lia; try done.
  destruct Hn as [-> | ->]; vm_compute; reflexivity.
Qed.

Definition rx_old : bytes := match ring_Marshal rx_mod with Ok b => b | _ => [] end.
Definition rx_new : bytes := match ring_Marshal rx_ketama with Ok b => b | _ => [] end.

Lemma rx_marshallable : marshallable rx_union.
Proof.
  assert (ring_Marshal rx_mod = Ok rx_old) as Ho by (vm_compute; reflexivity).
  assert (ring_Marshal rx_ketama = Ok rx_new) as Hn by (vm_compute; reflexivity).
  split_and!.
  - unfold marshallable, rx_mod, Ring_valid, short_entries, short. split_and!; try by_compute. by (constructor; [apply rx_peer_valid; left|constructor]).
  - unfold marshallable, rx_ketama, Ring_valid, short_entries, short. split_and!; try by_compute.
    by (constructor; [apply rx_peer_valid; left|constructor; [apply rx_peer_valid; right|constructor]]).
  - intros ob nb Hob Hnb. assert (ob = rx_old) as -> by congruence. assert (nb = rx_new) as -> by congruence.
    unfold Ring_valid, short_entries, short.
    split_and!; try by_compute. constructor.
Qed.

Lemma ring_marshal_unmarshal_witness :
  ∃ b, ring_Marshal rx_union = Ok b ∧ ring_Unmarshal b = Ok rx_union.
Proof. apply (ring_marshal_unmarshal rx_union rx_union_ok rx_marshallable). Defined.
