(* ===== verification/Metadata.v ===== *)
(** * What the metadata services have in common

    Models the data of [src/metadata.go] (the global metadata) and
    [src/block/metadata.go] (snapshots), and the interface [blockMetadata] of the
    latter: a class of the operations the volumes of block devices use, and the laws
    both implementations, in memory and in etcd, are shown to satisfy. *)
From S2P Require Import Prelude GoSem Refs TempStore Store Blockset Proto Models INodeStore File Ring.

Record Snapshot := mkSnapshot { SName : gostring; When : Z; SINodeRef : bytes }.

Record GlobalMetadata := mkGlobal { BlockSize : Z; DefaultBlockSpec : BlockLayerSpec }.

(** ** The interface

    [D] is what all clients share.  The client an operation belongs to is its UUID,
    the volume its number; the lease and the time are arguments. *)
Class BlockMetadata (D : Type) := {
  bm_MDS :: MDS D;
  bm_GlobalMetadata : D → GlobalMetadata;
  bm_NewVolumeID : M D Z;
  bm_GetVolume : gostring → gostring → M D Models.Volume;
  bm_Lock : gostring → Z → Z → M D unit;
  bm_Unlock : gostring → Z → M D unit;
  bm_GetINode : Z → M D INodeRef;
  bm_SyncINode : gostring → Z → INodeRef → M D unit;
  bm_CreateBlockVolume : Models.Volume → M D unit;
  bm_DeleteVolume : gostring → gostring → Z → M D unit;
  bm_SaveSnapshot : Z → Z → gostring → M D unit;
  bm_GetSnapshots : Z → M D (list Snapshot);
  bm_DeleteSnapshot : Z → gostring → M D unit;
}.

(** ** The contract *)

(** What a service keeps of a volume: who has locked it (nobody is the empty
    string), its inode, and the inode each snapshot was taken of. *)
Record vdata := mkVData { v_lock : gostring; v_inode : INodeRef; v_snaps : gmap gostring bytes }.

(** The inodes of a list of snapshots. *)
Definition snap_map (l : list Snapshot) : gmap gostring bytes := list_to_map ((λ s, (SName s, SINodeRef s)) <$> l).

(** The view of the state that the contract is stated in: the invariant of the
    service, the volumes, and which leases, volume numbers and snapshot names are
    good. *)
Class MetadataView (D : Type) := {
  md_inv : D → Prop;
  vol_data : Z → D → option vdata;
  lease_ok : Z → D → Prop;
  vid_ok : Z → Prop;
  snap_ok : gostring → Prop;
}.

Section view.
Context {D : Type} `{BlockMetadata D} `{MetadataView D}.

(** The data of volume [vid] becomes [x], and nothing else changes. *)
Record becomes (vid : Z) (x : vdata) (d d' : D) : Prop := {
  b_inv : md_inv d';
  b_here : vol_data vid d' = Some x;
  b_else v : vid_ok v → v ≠ vid → vol_data v d' = vol_data v d;
  b_global : bm_GlobalMetadata d' = bm_GlobalMetadata d;
  b_lease l : lease_ok l d → lease_ok l d';
}.
End view.

Class BlockMetadataLaws (D : Type) `{BlockMetadata D} `{MetadataView D} := {
  lock_law u lease vid d x :
    md_inv d → vid_ok vid → u ≠ [] → lease_ok lease d → vol_data vid d = Some x →
    ∃ d', if decide (v_lock x = []) then
            bm_Lock u lease vid d = (Ok tt, d') ∧ becomes vid (mkVData u (v_inode x) (v_snaps x)) d d'
          else bm_Lock u lease vid d = (Err ErrLocked, d') ∧ becomes vid x d d';
  unlock_law u vid d x :
    md_inv d → vid_ok vid → u ≠ [] → vol_data vid d = Some x →
    ∃ d', if decide (v_lock x = u) then
            bm_Unlock u vid d = (Ok tt, d') ∧ becomes vid (mkVData [] (v_inode x) (v_snaps x)) d d'
          else bm_Unlock u vid d = (Err ErrLocked, d') ∧ becomes vid x d d';
  inode_law vid d x :
    md_inv d → vid_ok vid → vol_data vid d = Some x →
    ∃ d', bm_GetINode vid d = (Ok (v_inode x), d') ∧ becomes vid x d d';
  sync_law u vid i d x :
    md_inv d → vid_ok vid → u ≠ [] → wf_inoderef i → Refs.Volume i = vid → vol_data vid d = Some x →
    ∃ d', if decide (v_lock x = u) then
            bm_SyncINode u vid i d = (Ok tt, d') ∧ becomes vid (mkVData u i (v_snaps x)) d d'
          else bm_SyncINode u vid i d = (Err ErrLocked, d') ∧ becomes vid x d d';
  save_law now vid name d x :
    md_inv d → vid_ok vid → snap_ok name → vol_data vid d = Some x →
    ∃ d', if decide (v_snaps x !! name = None) then
            bm_SaveSnapshot now vid name d = (Ok tt, d') ∧
            becomes vid (mkVData (v_lock x) (v_inode x) (<[name := INodeRef_ToBytes (v_inode x)]> (v_snaps x))) d d'
          else bm_SaveSnapshot now vid name d = (Err ErrExists, d') ∧ becomes vid x d d';
  snaps_law vid d x :
    md_inv d → vid_ok vid → vol_data vid d = Some x →
    ∃ l d', bm_GetSnapshots vid d = (Ok l, d') ∧ snap_map l = v_snaps x ∧ becomes vid x d d';
  unsnap_law vid name d x :
    md_inv d → vid_ok vid → snap_ok name → vol_data vid d = Some x →
    ∃ d', if decide (v_snaps x !! name = None) then
            (∃ e, bm_DeleteSnapshot vid name d = (Err e, d')) ∧ becomes vid x d d'
          else bm_DeleteSnapshot vid name d = (Ok tt, d') ∧
               becomes vid (mkVData (v_lock x) (v_inode x) (delete name (v_snaps x))) d d';
}.

(** ** Facts on snapshots *)

Lemma snap_map_None name l : snap_map l !! name = None ↔ name ∉ SName <$> l.
Proof.
  unfold snap_map. rewrite <-not_elem_of_list_to_map, <-list_fmap_compose. done.
Qed.

Lemma snap_map_snoc l s : SName s ∉ SName <$> l → snap_map (l ++ [s]) = <[SName s := SINodeRef s]> (snap_map l).
Proof.
  intros Hn. unfold snap_map. rewrite fmap_app, list_to_map_app. cbn [fmap list_fmap list_to_map foldr].
  fold (snap_map l). apply map_eq. intros k. rewrite lookup_union, lookup_insert. destruct (decide (SName s = k)) as [<-|Hk].
  - rewrite (proj2 (snap_map_None _ _) Hn), decide_True by done. by rewrite lookup_insert_eq.
  - rewrite decide_False by done. rewrite lookup_insert_ne, lookup_empty by done. by destruct (snap_map l !! k).
Qed.
