(* ===== verification/MetaTemp.v ===== *)
(** * The in-memory metadata service

    Models [src/metadata/temp/temp.go] (the service) and [src/block/temp.go]
    (the volumes of block devices kept in it).  All clients share one [Server];
    what tells them apart is their UUID, an argument of the operations that use
    it.  The mutex is part of the state: an operation that takes it while the
    same goroutine holds it never comes back, which is the outcome [Panic]
    here.  A send to a ring listener is recorded as a message. *)
From stdpp Require Import pretty.
From S2P Require Import Prelude GoSem GoStrings Refs TempStore Store Crc32 Blockset Proto Models INodeStore File Ring Metadata.
From Stdlib Require String.

(** [fmt.Sprint] of an unsigned integer. *)
Definition sprint (n : Z) : gostring := String.list_byte_of_string (pretty (Z.to_N n)).

Record blockTempVolumeData := mkVolumeData { locked : gostring; id : INodeRef; snaps : list Snapshot }.

Section temp.
Context `{HashRing} `{Range} `{Godbc}.

(** [newRing] is never used. *)
Record Server := mkServer {
  mut : bool;  (** the mutex is held *)
  inode : gmap Z Z;
  vol : Z;
  volIndex : gmap gostring Models.Volume;
  global : GlobalMetadata;
  peers : PeerInfoList;
  ring : Ring;
  keys : gmap gostring blockTempVolumeData;
  ringListeners : list Z;
  sent : list (Z * Ring);  (** the rings sent to the listeners' channels *)
}.

Definition set_mut (b : bool) (s : Server) : Server :=
  mkServer b (inode s) (vol s) (volIndex s) (global s) (peers s) (ring s) (keys s) (ringListeners s) (sent s).
Definition set_inode (m : gmap Z Z) (s : Server) : Server :=
  mkServer (mut s) m (vol s) (volIndex s) (global s) (peers s) (ring s) (keys s) (ringListeners s) (sent s).
Definition set_vol (v : Z) (s : Server) : Server :=
  mkServer (mut s) (inode s) v (volIndex s) (global s) (peers s) (ring s) (keys s) (ringListeners s) (sent s).
Definition set_volIndex (m : gmap gostring Models.Volume) (s : Server) : Server :=
  mkServer (mut s) (inode s) (vol s) m (global s) (peers s) (ring s) (keys s) (ringListeners s) (sent s).
Definition set_peers (l : PeerInfoList) (s : Server) : Server :=
  mkServer (mut s) (inode s) (vol s) (volIndex s) (global s) l (ring s) (keys s) (ringListeners s) (sent s).
Definition set_ring (r : Ring) (s : Server) : Server :=
  mkServer (mut s) (inode s) (vol s) (volIndex s) (global s) (peers s) r (keys s) (ringListeners s) (sent s).
Definition set_keys (m : gmap gostring blockTempVolumeData) (s : Server) : Server :=
  mkServer (mut s) (inode s) (vol s) (volIndex s) (global s) (peers s) (ring s) m (ringListeners s) (sent s).
Definition set_listeners (l : list Z) (s : Server) : Server :=
  mkServer (mut s) (inode s) (vol s) (volIndex s) (global s) (peers s) (ring s) (keys s) l (sent s).
Definition send_ring (c : Z) (r : Ring) (s : Server) : Server :=
  mkServer (mut s) (inode s) (vol s) (volIndex s) (global s) (peers s) (ring s) (keys s) (ringListeners s)
    (sent s ++ [(c, r)]).

(** [mut.Lock(); defer mut.Unlock()] around [m].  A [Panic] is the end of the
    goroutine, so the mutex is left as it is. *)
Definition with_lock {A} (m : M Server A) : M Server A := λ s,
  if mut s then (Panic, s)
  else match m (set_mut true s) with
       | (Panic, s') => (Panic, s')
       | (r, s') => (r, set_mut false s')
       end.

(** ** The service *)

Definition default_spec : res BlockLayerSpec := MustParseBlockLayerSpec "crc,base".

Definition NewServer : res Server :=
  r ← CreateRing ring_Unmarshal (mkMRing REmpty 1 0 [] ∅);
  spec ← default_spec;
  mret (mkServer false ∅ 0 ∅ (mkGlobal 256 spec) [] r ∅ [] []).

Definition GetPeers : M Server PeerInfoList := with_lock (gets peers).

(** A peer replaces the one with its UUID, or is appended. *)
Fixpoint register (pi : PeerInfo) (l : PeerInfoList) : PeerInfoList :=
  match l with
  | [] => [pi]
  | p :: l' => if decide (UUID p = UUID pi) then pi :: l' else p :: register pi l'
  end.
Definition RegisterPeer (pi : PeerInfo) : M Server unit :=
  with_lock (modify (λ s, set_peers (register pi (peers s)) s)).

Definition NewVolumeID : M Server Z :=
  with_lock (_ ← modify (λ s, set_vol (wrap64 (vol s + 1)) s); gets vol).

Definition inode_of (v : Z) (s : Server) : Z := default 0 (inode s !! v).

Definition temp_CommitINodeIndex (v : Z) : M Server Z :=
  with_lock (_ ← modify (λ s, set_inode (<[v := wrap64 (inode_of v s + 1)]> (inode s)) s); gets (inode_of v)).

Definition GetINodeIndex (v : Z) : M Server Z := with_lock (gets (inode_of v)).
Definition GetINodeIndexes : M Server (gmap Z Z) := with_lock (gets inode).

(** [order] is the order the map is iterated over in. *)
Definition GetVolumes (order : gmap gostring Models.Volume → list (gostring * Models.Volume)) :
    M Server (list Models.Volume * Z) :=
  with_lock (gets (λ s, ((order (volIndex s)).*2, vol s))).

(** [CreateVolume] does not take the lock; its caller holds it. *)
Definition CreateVolume (v : Models.Volume) : M Server unit :=
  modify (λ s, set_inode (<[VId v := 1]> (inode s)) (set_volIndex (<[VName v := v]> (volIndex s)) s)).

Definition ErrNoVolume : error := ErrMsg "temp: volume not found".

Definition GetVolume (name : gostring) : M Server Models.Volume :=
  with_lock (s ← get; match volIndex s !! name with Some v => mret v | None => throw ErrNoVolume end).

Definition GetRing : M Server Ring := with_lock (gets ring).

Definition SubscribeNewRings (ch : Z) : M Server unit :=
  with_lock (modify (λ s, set_listeners (ringListeners s ++ [ch]) s)).

(** The first occurrence is removed; there must be one. *)
Fixpoint unsubscribe (ch : Z) (l : list Z) : option (list Z) :=
  match l with
  | [] => None
  | c :: l' => if decide (ch = c) then Some l' else (c ::.) <$> unsubscribe ch l'
  end.
Definition UnsubscribeNewRings (ch : Z) : M Server unit :=
  with_lock (s ← get;
    match unsubscribe ch (ringListeners s) with Some l => put (set_listeners l s) | None => panic end).

Definition SetRing (r : Ring) : M Server unit :=
  with_lock (s ← get;
    if decide (Version r - 1 ≠ Version (ring s)) then throw ErrNonSequentialRing
    else modify (λ s, foldl (λ s c, send_ring c r s) (set_ring r s) (ringListeners s))).

Definition GetData (x : gostring) : M Server (option blockTempVolumeData) := gets (λ s, keys s !! x).
Definition SetData (x : gostring) (v : blockTempVolumeData) : M Server unit :=
  modify (λ s, set_keys (<[x := v]> (keys s)) s).

Definition client_DeleteVolume (name : gostring) : M Server unit :=
  with_lock (modify (λ s, set_volIndex (delete name (volIndex s)) (set_keys (delete name (keys s)) s))).

(** ** Block volumes: [blockTempMetadata] of a client, a name and a volume *)

Definition CreateBlockVolume (v : Models.Volume) : M Server unit :=
  with_lock (
    d ← GetData (sprint (VId v));
    match d with
    | Some _ => throw ErrExists
    | None =>
        _ ← CreateVolume v;
        ref ← lift (NewINodeRef (VId v) 1);
        SetData (sprint (VId v)) (mkVolumeData [] ref [])
    end).

(** The data of the volume, a pointer: [f] gives what it is afterwards. *)
Definition with_data {A} (vid : Z) (f : blockTempVolumeData → res A * blockTempVolumeData) : M Server A :=
  with_lock (
    d ← GetData (sprint vid);
    match d with
    | None => throw ErrNotExist
    | Some d => let '(r, d') := f d in _ ← SetData (sprint vid) d'; lift r
    end).

Definition Lock (uuid : gostring) (vid : Z) : M Server unit :=
  with_data vid (λ d, if decide (locked d ≠ []) then (Err ErrLocked, d)
                      else (Ok tt, mkVolumeData uuid (id d) (snaps d))).

Definition volume_GetINode (vid : Z) : M Server INodeRef := with_data vid (λ d, (Ok (id d), d)).

Definition volume_SyncINode (uuid : gostring) (vid : Z) (i : INodeRef) : M Server unit :=
  with_data vid (λ d, if decide (locked d ≠ uuid) then (Err ErrLocked, d)
                      else (Ok tt, mkVolumeData (locked d) i (snaps d))).

Definition Unlock (uuid : gostring) (vid : Z) : M Server unit :=
  with_data vid (λ d, if decide (locked d ≠ uuid) then (Err ErrLocked, d)
                      else (Ok tt, mkVolumeData [] (id d) (snaps d))).

(** [b.Client.DeleteVolume] takes the lock this method holds. *)
Definition DeleteVolume (uuid name : gostring) (vid : Z) : M Server unit :=
  with_lock (
    d ← GetData (sprint vid);
    match d with
    | None => throw ErrNotExist
    | Some d => if decide (locked d ≠ uuid) then throw ErrLocked else client_DeleteVolume name
    end).

(** The time is an argument. *)
Definition SaveSnapshot (now : Z) (vid : Z) (name : gostring) : M Server unit :=
  with_data vid (λ d,
    if decide (Exists (λ x, SName x = name) (snaps d)) then (Err ErrExists, d)
    else (Ok tt, mkVolumeData (locked d) (id d) (snaps d ++ [mkSnapshot name now (INodeRef_ToBytes (id d))]))).

Definition GetSnapshots (vid : Z) : M Server (list Snapshot) := with_data vid (λ d, (Ok (snaps d), d)).

Fixpoint delete_snap (name : gostring) (l : list Snapshot) : option (list Snapshot) :=
  match l with
  | [] => None
  | x :: l' => if decide (SName x = name) then Some l' else (x ::.) <$> delete_snap name l'
  end.
Definition DeleteSnapshot (vid : Z) (name : gostring) : M Server unit :=
  with_data vid (λ d,
    match delete_snap name (snaps d) with
    | Some l => (Ok tt, mkVolumeData (locked d) (id d) l)
    | None => (Err ErrNotExist, d)
    end).

(** What a file asks of the service. *)
#[global] Instance temp_MDS : MDS Server := {| CommitINodeIndex := temp_CommitINodeIndex |}.

(** What volumes ask of it.  Leases are not used. *)
#[global] Instance temp_BlockMetadata : BlockMetadata Server := {|
  bm_GlobalMetadata := global;
  bm_NewVolumeID := NewVolumeID;
  bm_GetVolume := λ _ name, GetVolume name;
  bm_Lock := λ uuid _ vid, Lock uuid vid;
  bm_Unlock := Unlock;
  bm_GetINode := volume_GetINode;
  bm_SyncINode := volume_SyncINode;
  bm_CreateBlockVolume := CreateBlockVolume;
  bm_DeleteVolume := DeleteVolume;
  bm_SaveSnapshot := SaveSnapshot;
  bm_GetSnapshots := GetSnapshots;
  bm_DeleteSnapshot := DeleteSnapshot;
|}.
End temp.
