(* ===== verification/MetaTempSpec.v ===== *)
(** * What the in-memory metadata service promises

    Every method of a volume works on the data of that volume alone; the service
    satisfies the contract of [Metadata]; and deleting a volume never returns. *)
From stdpp Require Import pretty.
From S2P Require Import Prelude GoSem GoStrings Refs TempStore Store Crc32 Blockset Proto Models INodeStore File Ring Metadata MetaTemp.
From Stdlib Require String.

Lemma list_byte_of_string_inj s t : String.list_byte_of_string s = String.list_byte_of_string t → s = t.
Proof.
  intros E. rewrite <-(String.string_of_list_byte_of_string s), E. apply String.string_of_list_byte_of_string.
Qed.

Lemma sprint_inj a b : 0 ≤ a → 0 ≤ b → sprint a = sprint b → a = b.
Proof. intros Ha Hb E%list_byte_of_string_inj%(inj pretty). lia. Qed.

Section meta.
Context `{HashRing} `{Range} `{Godbc}.
Implicit Types (s : Server) (d : blockTempVolumeData).

(** The data of a volume. *)
Definition volume_data (vid : Z) s : option blockTempVolumeData := keys s !! sprint vid.
Definition set_data (vid : Z) d s : Server := set_keys (<[sprint vid := d]> (keys s)) s.

(** A method that works on the data of its volume. *)
Lemma with_data_run {A} vid (f : blockTempVolumeData → res A * blockTempVolumeData) s :
  mut s = false → (∀ d, (f d).1 ≠ Panic) →
  with_data vid f s = match volume_data vid s with
                      | None => (Err ErrNotExist, s)
                      | Some d => ((f d).1, set_data vid (f d).2 s)
                      end.
Proof.
  intros Hm Hf. unfold with_data, with_lock, volume_data, set_data, GetData, gets, mbind, M_bind. rewrite Hm.
  cbn [set_mut keys]. destruct (keys s !! sprint vid) as [d|] eqn:E; cbn.
  - specialize (Hf d). destruct (f d) as [r d']. cbn in *. unfold lift. by destruct r, s; cbn in *; subst.
  - by destruct s; cbn in *; subst.
Qed.

Lemma set_data_mut vid d s : mut (set_data vid d s) = mut s.
Proof. done. Qed.
Lemma set_data_eq vid d s : volume_data vid (set_data vid d s) = Some d.
Proof. apply lookup_insert_eq. Qed.
Lemma set_data_ne vid vid' d s :
  0 ≤ vid → 0 ≤ vid' → vid ≠ vid' → volume_data vid' (set_data vid d s) = volume_data vid' s.
Proof. intros ? ? Hne. apply lookup_insert_ne. by intros ?%sprint_inj. Qed.

(** A volume of the in-memory service is never deleted.  [DeleteVolume]
    refuses a client that does not hold the volume's lock; for the one that does
    it takes the mutex it already holds, and neither it nor any call on a volume
    after it comes back. *)
Theorem delete_volume_deadlocks (u name : gostring) (vid : Z) (s : Server) :
  (DeleteVolume u name vid s).1 ≠ Ok tt ∧
  ∀ d, mut s = false → volume_data vid s = Some d → locked d = u →
    ∃ s', DeleteVolume u name vid s = (Panic, s') ∧
      ∀ A v (f : blockTempVolumeData → res A * blockTempVolumeData), with_data v f s' = (Panic, s').
Proof.
  split.
  - unfold DeleteVolume, with_lock. destruct (mut s); [done|].
    unfold GetData, gets, mbind, M_bind, throw, client_DeleteVolume, with_lock. cbn.
    destruct (keys s !! sprint vid) as [d|]; [|done]. by destruct (decide (locked d ≠ u)).
  - intros d Hm Hd Hl. exists (set_mut true s). split; [|done].
    unfold DeleteVolume, with_lock. rewrite Hm. unfold GetData, gets, mbind, M_bind, client_DeleteVolume, with_lock.
    cbn. unfold volume_data in Hd. rewrite Hd, decide_False by (intros Hx; by apply Hx). done.
Qed.

(** ** The contract *)

Definition abs d : vdata := mkVData (locked d) (id d) (snap_map (snaps d)).

(** The mutex is free, and no two snapshots of a volume have the same name. *)
#[global] Instance temp_view : MetadataView Server := {|
  md_inv s := mut s = false ∧ ∀ k d, keys s !! k = Some d → NoDup (SName <$> snaps d);
  vol_data vid s := abs <$> volume_data vid s;
  lease_ok _ _ := True;
  vid_ok vid := 0 ≤ vid;
  snap_ok _ := True;
|}.

(** A method that works on the data of its volume changes that volume alone. *)
Lemma with_data_becomes {A} vid (f : blockTempVolumeData → res A * blockTempVolumeData) s x :
  md_inv s → 0 ≤ vid → vol_data vid s = Some x → (∀ d, (f d).1 ≠ Panic) →
  (∀ d, NoDup (SName <$> snaps d) → NoDup (SName <$> snaps (f d).2)) →
  ∃ d s', x = abs d ∧ NoDup (SName <$> snaps d) ∧ with_data vid f s = ((f d).1, s') ∧ becomes vid (abs (f d).2) s s'.
Proof.
  intros [Hm Hn] Hv Hx Hf Hnd. cbn in Hx. destruct (volume_data vid s) as [d|] eqn:Hd; [|done]. injection Hx as <-.
  exists d, (set_data vid (f d).2 s). pose proof (Hn _ _ Hd) as Hnd0. split_and!; [done|done|by rewrite with_data_run, Hd|].
  split; try done.
  - split; [done|]. intros k d'. unfold set_data. cbn [keys set_keys].
    intros [[_ <-]|[_ Hk]]%lookup_insert_Some; [by apply Hnd|by eapply Hn].
  - cbn. by rewrite set_data_eq.
  - intros v Hv' Hne. cbn. by rewrite set_data_ne.
Qed.

Lemma delete_snap_spec name l :
  NoDup (SName <$> l) →
  match delete_snap name l with
  | None => snap_map l !! name = None
  | Some l' => snap_map l !! name ≠ None ∧ snap_map l' = delete name (snap_map l) ∧ NoDup (SName <$> l') ∧
               ∀ n, n ∈ SName <$> l' → n ∈ SName <$> l
  end.
Proof.
  induction l as [|s l IH]; intros Hn; [done|]. apply list.NoDup_cons in Hn as [Hs Hn]. specialize (IH Hn). cbn [delete_snap].
  assert (snap_map (s :: l) = <[SName s := SINodeRef s]> (snap_map l)) as Hc by done. case_decide as Hd.
  - subst name. rewrite Hc, lookup_insert_eq. split_and!; [done| |done|intros n Hx; by apply elem_of_cons; right].
    rewrite delete_insert_id; [done|]. by apply snap_map_None.
  - rewrite Hc, lookup_insert_ne by done. destruct (delete_snap name l) as [l'|]; cbn [fmap option_fmap option_map]; [|done].
    destruct IH as (Ha & Hb & Hc' & Hd'). split_and!; [done| | |].
    + change (snap_map (s :: l')) with (<[SName s := SINodeRef s]> (snap_map l')). rewrite Hb. by rewrite delete_insert_ne.
    + constructor; [|done]. intros Hx. by apply Hs, Hd'.
    + intros n [->|Hx]%elem_of_cons; apply elem_of_cons; [by left|right; by apply Hd'].
Qed.

Lemma names_exists name (l : list Snapshot) : name ∈ SName <$> l ↔ Exists (λ x, SName x = name) l.
Proof.
  rewrite list_elem_of_fmap, list.Exists_exists. split; intros (x & ? & ?); exists x; by split.
Qed.
Lemma snaps_snoc (l : list Snapshot) (y : Snapshot) :
  ¬ Exists (λ x, SName x = SName y) l → NoDup (SName <$> l) → NoDup (SName <$> l ++ [y]).
Proof.
  intros He Hn. rewrite fmap_app. apply list.NoDup_app. split_and!; [done| |apply NoDup_singleton].
  intros n Hx ->%list_elem_of_singleton. by apply He, names_exists.
Qed.

(** The law of a method from its function on the data. *)
Ltac temp_law f Hi Hv Hx :=
  let d0 := fresh "d0" in let s' := fresh "s'" in
  destruct (with_data_becomes _ f _ _ Hi Hv Hx) as (d0 & s' & -> & Hn & E & Hb);
  [by intros; repeat case_decide|by intros; repeat case_decide|];
  exists s'; cbn [v_lock v_inode v_snaps abs] in *.

#[global] Instance temp_laws : BlockMetadataLaws Server.
Proof.
  split; intros *; cbn [bm_Lock bm_Unlock bm_GetINode bm_SyncINode bm_SaveSnapshot bm_GetSnapshots bm_DeleteSnapshot temp_BlockMetadata].
  - intros Hi Hv _ _ Hx. unfold Lock.
    temp_law (λ d, if decide (locked d ≠ []) then (Err ErrLocked, d) else (Ok tt, mkVolumeData u (id d) (snaps d))) Hi Hv Hx.
    rewrite E. repeat case_decide; by tauto.
  - intros Hi Hv _ Hx. unfold Unlock.
    temp_law (λ d, if decide (locked d ≠ u) then (Err ErrLocked, d) else (Ok tt, mkVolumeData [] (id d) (snaps d))) Hi Hv Hx.
    rewrite E. repeat case_decide; by tauto.
  - intros Hi Hv Hx. unfold volume_GetINode. temp_law (λ d, (Ok (id d), d)) Hi Hv Hx. by rewrite E.
  - intros Hi Hv _ _ _ Hx. unfold volume_SyncINode.
    temp_law (λ d, if decide (locked d ≠ u) then (Err ErrLocked, d) else (Ok tt, mkVolumeData (locked d) i (snaps d))) Hi Hv Hx.
    rewrite E. repeat case_decide; try by tauto. subst u. by tauto.
  - intros Hi Hv _ Hx. unfold SaveSnapshot.
    set (f := λ d : blockTempVolumeData, if decide (Exists _ (snaps d)) then _ else _).
    destruct (with_data_becomes vid f _ _ Hi Hv Hx) as (d0 & s' & -> & Hn & E & Hb).
    { intros d1. unfold f. by case_decide. }
    { intros d1 Hn. unfold f. case_decide as He; [done|]. by apply snaps_snoc. }
    exists s'. rewrite E. unfold f in *. cbn [v_lock v_inode v_snaps abs] in *. destruct (decide (Exists _ (snaps d0))) as [He|He].
    + rewrite decide_False; [done|]. rewrite snap_map_None. intros Hx'. apply Hx', names_exists, He.
    + rewrite decide_True by (rewrite snap_map_None; by rewrite names_exists). split; [done|].
      unfold abs in Hb. cbn [locked id snaps snd] in Hb. rewrite snap_map_snoc in Hb; [done|]. by rewrite names_exists.
  - intros Hi Hv Hx. unfold GetSnapshots. 
    destruct (with_data_becomes vid (λ d, (Ok (snaps d), d)) _ _ Hi Hv Hx) as (d0 & s' & -> & Hn & E & Hb); [done..|].
    exists (snaps d0), s'. by rewrite E.
  - intros Hi Hv _ Hx. unfold DeleteSnapshot.
    set (f := λ d : blockTempVolumeData, match delete_snap name (snaps d) with _ => _ end).
    destruct (with_data_becomes vid f _ _ Hi Hv Hx) as (d0 & s' & -> & Hn & E & Hb).
    { intros d1. unfold f. by destruct (delete_snap _ _). }
    { intros d1 Hn. unfold f. pose proof (delete_snap_spec name _ Hn) as Hs. destruct (delete_snap _ _); [apply Hs|done]. }
    exists s'. rewrite E. unfold f in *. cbn [v_lock v_inode v_snaps abs] in *. pose proof (delete_snap_spec name _ Hn) as Hs.
    destruct (delete_snap name (snaps d0)) as [l'|].
    + destruct Hs as (Ha & Hd & _). rewrite decide_False by done. split; [done|]. unfold abs in Hb.
      cbn [locked id snaps snd] in Hb. by rewrite Hd in Hb.
    + rewrite decide_True by done. split; [by eexists|done].
Qed.
End meta.

Ltac by_data := unfold Lock, Unlock, volume_SyncINode, volume_GetINode, GetSnapshots, SaveSnapshot;
  rewrite with_data_run by (done || (intros; repeat case_decide; done)).
