(* ===== verification/EtcdKeys.v ===== *)
(** * Keys and numbers in etcd

    Models [src/metadata/etcd/helpers.go] with what it uses of the Go library:
    [path.Join] and [path.Clean] of a rooted path, the verb [%x] of an unsigned
    integer, and [encoding/binary] for one little-endian integer. *)
From S2P Require Import Prelude GoSem.
From Stdlib Require String.

Definition str : string → bytes := String.list_byte_of_string.
Arguments str _ : simpl never.

(** ** [path] *)

Definition slash : byte := x2f.

(** The pieces of a path between the slashes. *)
Fixpoint elements_of (p : bytes) : list bytes :=
  match p with
  | [] => [[]]
  | c :: p' =>
      if decide (c = slash) then [] :: elements_of p'
      else match elements_of p' with
           | [] => [[c]]
           | w :: ws => (c :: w) :: ws
           end
  end.

(** [Clean] of a rooted path drops empty elements and [.], and for [..] the
    element before it. *)
Definition clean_step (out : list bytes) (e : bytes) : list bytes :=
  if decide (e = [] ∨ e = str ".") then out
  else if decide (e = str "..") then tail out
  else e :: out.
Definition slashed (l : list bytes) : bytes := concat ((λ e, slash :: e) <$> l).
Definition Clean (p : bytes) : bytes :=
  match reverse (foldl clean_step [] (elements_of p)) with
  | [] => [slash]
  | l => slashed l
  end.

(** [strings.Join(l, "/")] *)
Fixpoint join_slash (l : list bytes) : bytes :=
  match l with
  | [] => []
  | [e] => e
  | e :: l' => e ++ slash :: join_slash l'
  end.

(** ** The helpers *)

Definition KeyPrefix : bytes := Eval vm_compute in str "/github.com/alternative-storage/torus/".

Definition MkKey (s : list bytes) : bytes := Clean (join_slash (KeyPrefix :: s)).

Definition Uint64ToBytes (x : Z) : bytes := le_put 8 x.
(** [binary.Read] fails when there are fewer than eight bytes. *)
Definition BytesToUint64 (b : bytes) : res Z := if decide (length b < 8)%nat then Panic else Ok (le_get (take 8 b)).

Definition hex_digit (d : Z) : byte := byte_of_Z (if decide (d < 10) then 48 + d else 87 + d).
Fixpoint hex_digits (n : nat) (x : Z) (acc : bytes) : bytes :=
  match n with
  | O => acc
  | S n' =>
      let acc' := hex_digit (x `mod` 16) :: acc in
      if decide (x / 16 = 0) then acc' else hex_digits n' (x / 16) acc'
  end.
(** Sixteen digits are enough for 64 bits. *)
Definition Uint64ToHex (x : Z) : bytes := hex_digits 16 x [].

(** ** Facts on keys *)

(** An element that [Clean] keeps as it is. *)
Definition plain (e : bytes) : Prop := e ≠ [] ∧ (slash ∉ e) ∧ e ≠ str "." ∧ e ≠ str "..".
#[global] Instance plain_dec e : Decision (plain e).
Proof. apply _. Defined.

Lemma elements_plain e : slash ∉ e → elements_of e = [e].
Proof.
  induction e as [|c e IH]; intros Hn; [done|]. apply not_elem_of_cons in Hn as [Hc He]. cbn.
  by rewrite decide_False, IH by done.
Qed.
Lemma elements_app p q : elements_of (p ++ slash :: q) = elements_of p ++ elements_of q.
Proof.
  induction p as [|c p IH]; [done|]. cbn. rewrite IH. case_decide; [done|].
  destruct (elements_of p) as [|w ws] eqn:E; [|done]. destruct p; cbn in E; [done|]. repeat case_match; done.
Qed.
Lemma elements_join e l : elements_of (join_slash (e :: l)) = concat (elements_of <$> e :: l).
Proof.
  revert e. induction l as [|e' l IH]; intros e; [cbn; by rewrite app_nil_r|].
  change (join_slash (e :: e' :: l)) with (e ++ slash :: join_slash (e' :: l)). rewrite elements_app, IH. done.
Qed.

Lemma clean_plain l : ∀ out, Forall plain l → foldl clean_step out l = reverse l ++ out.
Proof.
  induction l as [|e l IH]; intros out Hl; [done|]. apply list.Forall_cons in Hl as [(H1 & _ & H2 & H3) Hl].
  cbn [foldl]. rewrite IH by done. rewrite reverse_cons, <-app_assoc. unfold clean_step.
  by rewrite decide_False, decide_False by tauto.
Qed.

Definition root_elements : list bytes := Eval vm_compute in [str "github.com"; str "alternative-storage"; str "torus"].

(** A key of plain elements is the elements behind slashes. *)
Lemma MkKey_plain l : Forall plain l → MkKey l = slashed (root_elements ++ l).
Proof.
  intros Hl. unfold MkKey, Clean. rewrite elements_join. cbn [fmap list_fmap concat]. rewrite foldl_app.
  assert (elements_of <$> l = (λ e, [e]) <$> l) as ->.
  { apply list_fmap_ext. intros i e Hi. apply elements_plain.
    pose proof (proj1 (list.Forall_lookup plain l) Hl i e Hi) as Hp. apply Hp. }
  assert (concat ((λ e : bytes, [e]) <$> l) = l) as -> by (clear; induction l as [|e l IH]; cbn; congruence).
  assert (foldl clean_step [] (elements_of KeyPrefix) = reverse root_elements) as -> by (vm_compute; reflexivity).
  rewrite clean_plain by done. rewrite <-reverse_app, reverse_involutive. done.
Qed.

Lemma slashed_cons e l : slashed (e :: l) = slash :: e ++ slashed l.
Proof. done. Qed.
Lemma slashed_app l l' : slashed (l ++ l') = slashed l ++ slashed l'.
Proof. unfold slashed. by rewrite fmap_app, concat_app. Qed.

(** Where an element without slashes ends. *)
Lemma element_split e e' (t t' : bytes) :
  slash ∉ e → slash ∉ e' → (t = [] ∨ head t = Some slash) → (t' = [] ∨ head t' = Some slash) →
  e ++ t = e' ++ t' → e = e' ∧ t = t'.
Proof.
  revert e'. induction e as [|c e IH]; intros e' He He' Ht Ht' E.
  - destruct e' as [|c' e']; [done|]. cbn in E. subst t. destruct Ht as [|[= ->]]; [done|]. set_solver.
  - destruct e' as [|c' e'].
    { cbn in E. subst t'. destruct Ht' as [|[= ->]]; [done|]. set_solver. }
    injection E as -> E. destruct (IH e' ltac:(set_solver) ltac:(set_solver) Ht Ht' E). by subst.
Qed.
Lemma slashed_head l : slashed l = [] ∨ head (slashed l) = Some slash.
Proof. destruct l; [by left|by right]. Qed.

Lemma slashed_inj l l' : Forall plain l → Forall plain l' → slashed l = slashed l' → l = l'.
Proof.
  intros Hl. revert l'. induction Hl as [|e l He Hl IH]; intros l' Hl' E.
  - by destruct Hl'.
  - destruct Hl' as [|e' l' He' Hl']; [done|]. rewrite !slashed_cons in E. injection E as E.
    destruct (element_split e e' _ _ ltac:(apply He) ltac:(apply He') (slashed_head l) (slashed_head l') E) as [-> E'].
    f_equal. by apply IH.
Qed.

Lemma MkKey_inj l l' : Forall plain l → Forall plain l' → MkKey l = MkKey l' → l = l'.
Proof.
  intros Hl Hl'. rewrite !MkKey_plain, !slashed_app by done. intros E%(inj _). by apply slashed_inj.
Qed.

(** A prefix that ends within an element takes in every element that goes on
    from there. *)
Lemma slashed_prefix l e m : Forall plain l → plain e → Forall plain m →
  slashed (l ++ [e]) `prefix_of` slashed m ↔ ∃ e' m', m = l ++ e' :: m' ∧ e `prefix_of` e'.
Proof.
  intros Hl He Hm. split.
  - revert m Hm. induction Hl as [|x l Hx Hl IH]; intros m Hm Hp; destruct Hm as [|y m Hy Hm];
      [by apply prefix_nil_inv in Hp| |by apply prefix_nil_inv in Hp|].
    + exists y, m. split; [done|]. cbn [app] in Hp. rewrite !slashed_cons in Hp. destruct Hp as [t Ht].
      injection Ht as Ht. rewrite app_nil_r in Ht. unfold plain in *.
      clear -Ht He Hy. destruct He as (_ & He & _), Hy as (_ & Hy & _). revert y Hy Ht.
      induction e as [|c e IH]; intros y Hy Ht; [apply prefix_nil|].
      destruct y as [|c' y].
      { cbn in Ht. destruct (slashed_head m) as [E|E]; rewrite Ht in E; [done|]. injection E as ->. set_solver. }
      injection Ht as -> Ht. apply prefix_cons, IH; [set_solver|set_solver|done].
    + cbn [app] in Hp. rewrite !slashed_cons in Hp. destruct Hp as [t Ht]. injection Ht as Ht. rewrite <-app_assoc in Ht.
      assert (slashed (l ++ [e]) ++ t = [] ∨ head (slashed (l ++ [e]) ++ t) = Some slash) as Hh by (right; by destruct l).
      destruct (element_split y x _ _ ltac:(apply Hy) ltac:(apply Hx) (slashed_head m) Hh Ht) as [-> E].
      destruct (IH m Hm) as (e' & m' & -> & Hpre); [by exists t|]. by exists e', m'.
  - intros (e' & m' & -> & [t ->]). rewrite !slashed_app, !slashed_cons. exists (t ++ slashed m').
    by rewrite app_nil_r, <-!app_assoc.
Qed.

Lemma MkKey_prefix l e m : Forall plain l → plain e → Forall plain m →
  MkKey (l ++ [e]) `prefix_of` MkKey m ↔ ∃ e' m', m = l ++ e' :: m' ∧ e `prefix_of` e'.
Proof.
  intros Hl He Hm. rewrite !MkKey_plain by (try apply Forall_app; auto). rewrite <-slashed_prefix by done.
  rewrite !(slashed_app root_elements). split; [apply prefix_app_inv|apply prefix_app].
Qed.

(** ** Facts on numbers *)

Definition hex_value (c : byte) : Z := let n := byte_to_Z c in if decide (n < 58) then n - 48 else n - 87.
Definition unhex (s : bytes) : Z := foldl (λ a c, 16 * a + hex_value c) 0 s.

Lemma hex_digit_range d : 0 ≤ d < 16 → 48 ≤ byte_to_Z (hex_digit d) < 103 ∧ hex_value (hex_digit d) = d.
Proof.
  intros Hd. unfold hex_value, hex_digit. rewrite byte_to_of_Z.
  destruct (decide (d < 10)); rewrite Z.mod_small by lia; split; try lia; case_decide; lia.
Qed.

Lemma unhex_app a b : unhex (a ++ b) = unhex a * 16 ^ Z.of_nat (length b) + unhex b.
Proof.
  unfold unhex. rewrite foldl_app. generalize (foldl (λ a c, 16 * a + hex_value c) 0 a) as z. clear a.
  induction b as [|c b IH] using rev_ind; intros z; [cbn; lia|]. rewrite !foldl_app, length_app. cbn [foldl length].
  rewrite IH, Nat2Z.inj_add, Z.pow_add_r by lia. change (16 ^ Z.of_nat 1) with 16. lia.
Qed.

Lemma hex_digits_value n : ∀ x acc, 0 ≤ x < 16 ^ Z.of_nat n → (0 < n)%nat →
  ∃ ds, hex_digits n x acc = ds ++ acc ∧ unhex ds = x ∧ ds ≠ [] ∧ Forall (λ c, 48 ≤ byte_to_Z c) ds.
Proof.
  induction n as [|n IH]; intros x acc Hx Hn; [lia|]. cbn [hex_digits].
  pose proof (div_mod_split x 16 ltac:(lia)) as [Hdm Hm]. destruct (hex_digit_range _ Hm) as [Hr Hv].
  assert (unhex [hex_digit (x `mod` 16)] = x `mod` 16) as H1 by (unfold unhex; cbn [foldl]; lia).
  case_decide as Hq.
  - exists [hex_digit (x `mod` 16)]. split_and!; [done|lia|done|]. apply list.Forall_singleton. lia.
  - assert (0 ≤ x / 16 < 16 ^ Z.of_nat n) as Hb.
    { rewrite Nat2Z.inj_succ, Z.pow_succ_r in Hx by lia. split; [apply Z.div_pos; lia|apply Z.div_lt_upper_bound; lia]. }
    destruct (decide (n = 0%nat)) as [->|]; [cbn in Hb; lia|].
    destruct (IH (x / 16) (hex_digit (x `mod` 16) :: acc) Hb ltac:(lia)) as (ds & E & Hu & _ & Hf).
    exists (ds ++ [hex_digit (x `mod` 16)]). rewrite E, <-app_assoc. split_and!; [done| |by destruct ds|].
    + rewrite unhex_app, Hu, H1. change (16 ^ Z.of_nat (length [hex_digit (x `mod` 16)])) with 16. lia.
    + apply Forall_app. split; [done|]. apply list.Forall_singleton. lia.
Qed.

Lemma unhex_hex x : u64 x → unhex (Uint64ToHex x) = x.
Proof.
  intros Hx. destruct (hex_digits_value 16 x [] Hx ltac:(lia)) as (ds & E & Hu & _). unfold Uint64ToHex.
  by rewrite E, app_nil_r.
Qed.
Lemma hex_inj x y : u64 x → u64 y → Uint64ToHex x = Uint64ToHex y → x = y.
Proof. intros Hx Hy E. rewrite <-(unhex_hex x Hx), E. by apply unhex_hex. Qed.

Lemma plain_hex x : u64 x → plain (Uint64ToHex x).
Proof.
  intros Hx. destruct (hex_digits_value 16 x [] Hx ltac:(lia)) as (ds & E & _ & Hne & Hf). unfold Uint64ToHex.
  rewrite E, app_nil_r. rewrite list.Forall_forall in Hf.
  split_and!; [done|intros Hs; specialize (Hf _ Hs)|intros ->; specialize (Hf x2e (list_elem_of_here _ _))..];
    (revert Hf; vm_compute; done).
Qed.

Lemma uint64_bytes x : u64 x → BytesToUint64 (Uint64ToBytes x) = Ok x.
Proof.
  intros Hx. unfold BytesToUint64, Uint64ToBytes. rewrite length_le_put, decide_False by lia.
  rewrite take_ge by (rewrite length_le_put; lia). rewrite le_get_put. f_equal. by apply wrap_id.
Qed.
