(* ===== verification/Etcd.v ===== *)
(** * The etcd metadata service

    Models [src/metadata/etcd/etcd.go], [global_funcs.go] and [ring_watch.go], and
    [src/block/etcd.go], the volumes of block devices kept in etcd.

    etcd itself is a parameter, the class [Etcd]: it answers one request at a time.
    The code is a tree of the requests it makes ([prog]), each continued by what
    comes back, so that the requests of several clients can be interleaved and can
    fail; [run] makes them one after the other.  Locks of a client, contexts, traces
    and counters are left out. *)
From S2P Require Import Prelude GoSem GoStrings Refs TempStore Store Crc32 Blockset Proto Models INodeStore File Ring Metadata EtcdKeys.

(** ** etcd *)

Record KeyValue := mkKV { Value : bytes; KVersion : Z; Lease : Z }.

Inductive Cmp : Type :=
  | VersionIs (k : bytes) (n : Z)
  | VersionAbove (k : bytes) (n : Z)
  | ValueIs (k v : bytes).

(** Lease 0 is none. *)
Inductive Op : Type :=
  | OpGet (k : bytes)
  | OpGetPrefix (k : bytes)
  | OpPut (k v : bytes) (lease : Z)
  | OpDelete (k : bytes)
  | OpDeletePrefix (k : bytes).

Record Txn := mkTxn { If : list Cmp; Then : list Op; Else : list Op }.

Inductive OpResponse : Type :=
  | RangeResponse (Kvs : list (bytes * KeyValue))
  | PutResponse
  | DeleteResponse.

Record TxnResponse := mkResponse { Succeeded : bool; Responses : list OpResponse }.

(** A request, with the type of what comes back. *)
Inductive Request : Type → Type :=
  | Do (o : Op) : Request OpResponse
  | Commit (t : Txn) : Request TxnResponse
  | Grant (ttl : Z) : Request Z
  | KeepAliveOnce (lease : Z) : Request unit.

(** etcd's own error for a lease that it does not know. *)
Definition rpcErrLeaseNotFound : error := ErrMsg "etcdserver: requested lease not found".

Class Etcd (K : Type) := { serve {R} : Request R → K → res R * K }.

(** ** Programs *)

Inductive prog (A : Type) : Type :=
  | Done (r : res A)
  | Ask {R : Type} (q : Request R) (k : res R → prog A).
Arguments Done {A} _.
Arguments Ask {A R} _ _.

Fixpoint prog_bind {A B} (f : A → prog B) (p : prog A) : prog B :=
  match p with
  | Done (Ok a) => f a
  | Done (Err e) => Done (Err e)
  | Done Panic => Done Panic
  | Ask q k => Ask q (λ r, prog_bind f (k r))
  end.
#[global] Instance prog_ret : MRet prog := λ A a, Done (Ok a).
#[global] Instance prog_mbind : MBind prog := λ A B f p, prog_bind f p.

Definition ask {R} (q : Request R) : prog R := Ask q (λ r, Done r).

(** The error of a call as a value. *)
Fixpoint prog_try {A} (p : prog A) : prog (A + error) :=
  match p with
  | Done (Ok a) => Done (Ok (inl a))
  | Done (Err e) => Done (Ok (inr e))
  | Done Panic => Done Panic
  | Ask q k => Ask q (λ r, prog_try (k r))
  end.

Section run.
Context {K : Type} `{Etcd K}.

(** The requests one after the other, none of them lost. *)
Fixpoint run {A} (p : prog A) : M K A := λ s,
  match p with
  | Done r => (r, s)
  | Ask q k => let '(r, s') := serve q s in run (k r) s'
  end.
End run.

(** [GetResponseRange] of another response is nil, and its field cannot be read. *)
Definition range_of (r : OpResponse) : res (list (bytes * KeyValue)) :=
  match r with RangeResponse l => Ok l | _ => Panic end.
Definition response_range (i : nat) (r : TxnResponse) : res (list (bytes * KeyValue)) :=
  x ← or_panic (Responses r !! i); range_of x.
(** [resp.Responses[0].GetResponseRange().Kvs[0]] *)
Definition response_kv (i : nat) (r : TxnResponse) : res KeyValue :=
  l ← response_range i r; x ← or_panic (head l); mret x.2.

Definition client_Get (k : bytes) : prog (list (bytes * KeyValue)) := r ← ask (Do (OpGet k)); Done (range_of r).
Definition client_GetPrefix (k : bytes) : prog (list (bytes * KeyValue)) :=
  r ← ask (Do (OpGetPrefix k)); Done (range_of r).
Definition client_Put (k v : bytes) (lease : Z) : prog unit := _ ← ask (Do (OpPut k v lease)); mret tt.

(** [encoding/json] for the values the service keeps that way. *)
Class Json (A : Type) := { json_Marshal : A → res bytes; json_Unmarshal : bytes → res A }.

(** ** Keys *)

Definition key_ring : bytes := MkKey [str "meta"; str "the-one-ring"].
Definition key_minter : bytes := MkKey [str "meta"; str "volumeminter"].
Definition key_global : bytes := MkKey [str "meta"; str "globalmetadata"].
Definition key_volume (name : gostring) : bytes := MkKey [str "volumes"; name].
Definition key_volumeid (vid : Z) : bytes := MkKey [str "volumeid"; Uint64ToHex vid].
Definition key_inode (vid : Z) : bytes := MkKey [str "volumemeta"; Uint64ToHex vid; str "inode"].
Definition key_blockinode (vid : Z) : bytes := MkKey [str "volumemeta"; Uint64ToHex vid; str "blockinode"].
Definition key_lock (vid : Z) : bytes := MkKey [str "volumemeta"; Uint64ToHex vid; str "blocklock"].
Definition key_snapshot (vid : Z) (name : gostring) : bytes :=
  MkKey [str "volumemeta"; Uint64ToHex vid; str "snapshots"; name].

Section etcd.
Context `{HashRing} `{Range} `{Godbc} `{Json GlobalMetadata} `{Json Snapshot}.

(** ** The service *)

Record EtcdClient := mkClient {
  ec_global : GlobalMetadata;
  volumesCache : gmap gostring Models.Volume;
  ec_ringListeners : list Z;
  ec_uuid : gostring;
}.

Definition peerTimeoutMax : Z := 50 * 10 ^ 9.
Definition leaseTTL : Z := 30.

Definition getGlobalMetadata : prog GlobalMetadata :=
  resp ← ask (Commit (mkTxn [VersionAbove key_global 0] [OpGet key_global] []));
  if Succeeded resp then kv ← Done (response_kv 0 resp); Done (json_Unmarshal (Value kv))
  else Done (Err ErrNoGlobalMetadata).

Definition getRing : prog (Ring * Z) :=
  kvs ← client_Get key_ring;
  match kvs with
  | [] => Done (Err ErrNoGlobalMetadata)
  | (_, kv) :: _ => r ← Done (ring_Unmarshal (Value kv)); mret (r, KVersion kv)
  end.
Definition etcd_GetRing : prog Ring := r ← getRing; mret r.1.

(** The ring that [watchRingUpdates] reads is the one [watchRing] starts with. *)
Definition newEtcdMetadata (uuid : gostring) : prog (EtcdClient * Ring) :=
  g ← getGlobalMetadata;
  r ← etcd_GetRing;
  mret (mkClient g ∅ [] uuid, r).

Definition etcd_SubscribeNewRings (ch : Z) (c : EtcdClient) : EtcdClient :=
  mkClient (ec_global c) (volumesCache c) (ec_ringListeners c ++ [ch]) (ec_uuid c).

(** The loop ranges over the slice as it was, whose array the [append] changes;
    [m] is the length of [ringListeners] and [arr] the array. *)
Fixpoint unsubscribe_loop (n i : nat) (ch : Z) (arr : list Z) (m : nat) : res (list Z * nat) :=
  match n with
  | O => Ok (arr, m)
  | S n' =>
      if decide (arr !! i = Some ch) then
        if decide (m < i + 1)%nat then Panic
        else unsubscribe_loop n' (i + 1) ch (blit i (take (m - (i + 1)) (drop (i + 1) arr)) arr) (m - 1)
      else unsubscribe_loop n' (i + 1) ch arr m
  end.
Definition etcd_UnsubscribeNewRings (ch : Z) (c : EtcdClient) : res EtcdClient :=
  let l := ec_ringListeners c in
  '(arr, m) ← unsubscribe_loop (length l) 0 ch l (length l);
  mret (mkClient (ec_global c) (volumesCache c) (take m arr) (ec_uuid c)).

(** The peer with the time it was seen is what the caller has afterwards. *)
Definition etcd_RegisterPeer (now lease : Z) (p : PeerInfo) : prog PeerInfo :=
  if decide (lease = 0) then Done (Err (ErrMsg "no lease"))
  else
    let p := mkPeerInfo (UUID p) (Address p) now (TotalBlocks p) (UsedBlocks p) (TimedOut p) (PRebalanceInfo p) (ProtocolVersion p) in
    data ← Done (Proto.Marshal p);
    _ ← client_Put (MkKey [str "nodes"; UUID p]) data lease;
    mret p.

Fixpoint live_peers (now : Z) (l : list (bytes * KeyValue)) : res PeerInfoList :=
  match l with
  | [] => Ok []
  | (_, x) :: l' =>
      match Proto.Unmarshal (Value x) PeerInfo_zero with
      | Panic => Panic
      | Err _ => live_peers now l'
      | Ok p => if decide (peerTimeoutMax < now - LastSeen p) then live_peers now l' else (p ::.) <$> live_peers now l'
      end
  end.
Definition etcd_GetPeers (now : Z) : prog PeerInfoList :=
  kvs ← client_GetPrefix (MkKey [str "nodes"]); Done (live_peers now kvs).

(** The functions the callers give return the new bytes and a number. *)
Abbreviation AtomicModifyFunc := (bytes → res (bytes * Z)).

(** The loop has no bound; [rounds] bounds the part of it that is looked at. *)
Fixpoint modify_loop (rounds : nat) (key : bytes) (f : AtomicModifyFunc) (version : Z) (value : bytes) : prog Z :=
  match rounds with
  | O => Done (Err ErrForever)
  | S rounds' =>
      '(newBytes, fval) ← Done (f value);
      resp ← ask (Commit (mkTxn [VersionIs key version] [OpPut key newBytes 0] [OpGet key]));
      if Succeeded resp then mret fval
      else kv ← Done (response_kv 0 resp); modify_loop rounds' key f (KVersion kv) (Value kv)
  end.
Definition AtomicModifyKey (rounds : nat) (key : bytes) (f : AtomicModifyFunc) : prog Z :=
  kvs ← client_Get key;
  match kvs with
  | [(_, kv)] => modify_loop rounds key f (KVersion kv) (Value kv)
  | _ => modify_loop rounds key f 0 []
  end.

Definition BytesAddOne (b : bytes) : res (bytes * Z) :=
  x ← BytesToUint64 b; let newval := wrap64 (x + 1) in mret (Uint64ToBytes newval, newval).

Fixpoint unmarshal_volumes (l : list (bytes * KeyValue)) : res (list Models.Volume) :=
  match l with
  | [] => Ok []
  | (_, x) :: l' => v ← Proto.Unmarshal (Value x) Volume_zero; vs ← unmarshal_volumes l'; mret (v :: vs)
  end.
Definition etcd_GetVolumes : prog (list Models.Volume * Z) :=
  resp ← ask (Commit (mkTxn [] [OpGet key_minter; OpGetPrefix (MkKey [str "volumeid"])] []));
  kv ← Done (response_kv 0 resp);
  highwater ← Done (BytesToUint64 (Value kv));
  l ← Done (response_range 1 resp);
  out ← Done (unmarshal_volumes l);
  mret (out, highwater).

(** A volume found once is not looked up again. *)
Definition etcd_GetVolume (volume : gostring) (c : EtcdClient) : prog (Models.Volume * EtcdClient) :=
  match volumesCache c !! volume with
  | Some v => mret (v, c)
  | None =>
      kvs ← client_Get (key_volume volume);
      match kvs with
      | [] => Done (Err (ErrMsg "etcd: volume not found"))
      | (_, kv) :: _ =>
          vid ← Done (BytesToUint64 (Value kv));
          kvs ← client_Get (key_volumeid vid);
          match kvs with
          | [] => Done (Err (ErrMsg "etcd: volume ID not found"))
          | (_, kv) :: _ =>
              v ← Done (Proto.Unmarshal (Value kv) Volume_zero);
              mret (v, mkClient (ec_global c) (<[volume := v]> (volumesCache c)) (ec_ringListeners c) (ec_uuid c))
          end
      end
  end.

Definition GetLockStatus (vid : Z) : prog string :=
  r ← prog_try (client_Get (key_lock vid));
  mret (match r with inr _ => "unknown" | inl [] => "free" | inl _ => "in-use" end)%string.

Definition GetLease : prog Z := ask (Grant leaseTTL).
Definition RenewLease (lease : Z) : prog unit :=
  r ← prog_try (ask (KeepAliveOnce lease));
  match r with
  | inl _ => mret tt
  | inr e => Done (Err (if decide (e = rpcErrLeaseNotFound) then ErrLeaseNotFound else e))
  end.

Definition etcd_SetRing (r : Ring) : prog unit :=
  old ← getRing;
  if decide (Version old.1 ≠ Version r - 1) then Done (Err ErrNonSequentialRing)
  else
    b ← Done (ring_Marshal r);
    resp ← ask (Commit (mkTxn [VersionIs key_ring old.2] [OpPut key_ring b 0] []));
    if Succeeded resp then mret tt else Done (Err ErrAgain).

Definition etcd_CommitINodeIndex (rounds : nat) (vid : Z) : prog Z := AtomicModifyKey rounds (key_inode vid) BytesAddOne.
Definition etcd_NewVolumeID (rounds : nat) : prog Z := AtomicModifyKey rounds key_minter BytesAddOne.
Definition etcd_GetINodeIndex (vid : Z) : prog Z :=
  kvs ← client_Get (key_inode vid);
  match kvs with [(_, kv)] => Done (BytesToUint64 (Value kv)) | _ => Done (Err ErrNotExist) end.

(** An event of the watch: the ring sent to the listeners, and the current one. *)
Definition watchRing (c : EtcdClient) (r : Ring) (value : bytes) : res (list (Z * Ring) * Ring) :=
  match ring_Unmarshal value with
  | Panic => Panic
  | Err _ => Ok ([], r)
  | Ok newRing => Ok ((λ x, (x, newRing)) <$> ec_ringListeners c, newRing)
  end.

(** ** Setting the service up *)

Definition initEtcdMetadata (gmd : GlobalMetadata) (ringType : Z) : prog unit :=
  gmdbytes ← Done (json_Marshal gmd);
  emptyRing ← Done (CreateRing ring_Unmarshal (mkMRing ringType 1 2 [] ∅));
  ringb ← Done (ring_Marshal emptyRing);
  resp ← ask (Commit (mkTxn [VersionIs key_global 0]
    [OpPut key_minter (Uint64ToBytes 1) 0; OpPut key_global gmdbytes 0] []));
  if Succeeded resp then client_Put key_ring ringb 0 else Done (Err ErrExists).

Definition wipeEtcdMetadata : prog unit := _ ← ask (Do (OpDeletePrefix (MkKey []))); mret tt.

Definition setRing (r : Ring) : prog unit :=
  old ← getRing;
  if decide (Version old.1 ≠ Version r - 1) then Done (Err ErrNonSequentialRing)
  else b ← Done (ring_Marshal r); client_Put key_ring b 0.

(** ** Volumes of block devices *)

Definition etcd_CreateBlockVolume (volume : Models.Volume) : prog unit :=
  vbytes ← Done (Proto.Marshal volume);
  inode ← Done (NewINodeRef (VId volume) 1);
  resp ← ask (Commit (mkTxn [VersionIs (key_volume (VName volume)) 0]
    [OpPut (key_volume (VName volume)) (Uint64ToBytes (VId volume)) 0;
     OpPut (key_volumeid (VId volume)) vbytes 0;
     OpPut (key_inode (VId volume)) (Uint64ToBytes 1) 0;
     OpPut (key_blockinode (VId volume)) (INodeRef_ToBytes inode) 0] []));
  if Succeeded resp then mret tt else Done (Err ErrExists).

(** A transaction that is refused means that the lock is not as it must be. *)
Definition or_locked (t : Txn) : prog unit :=
  resp ← ask (Commit t); if Succeeded resp then mret tt else Done (Err ErrLocked).

Definition etcd_DeleteVolume (name : gostring) (vid : Z) : prog unit :=
  or_locked (mkTxn [VersionIs (key_lock vid) 0]
    [OpDelete (key_volume name); OpDelete (key_volumeid vid);
     OpDeletePrefix (MkKey [str "volumemeta"; Uint64ToHex vid])] []).

Definition etcd_Lock (uuid : gostring) (lease vid : Z) : prog unit :=
  if decide (lease = 0) then Done (Err ErrInvalid)
  else or_locked (mkTxn [VersionIs (key_lock vid) 0] [OpPut (key_lock vid) uuid lease] []).

Definition etcd_GetINode (vid : Z) : prog INodeRef :=
  kvs ← client_Get (key_blockinode vid);
  match kvs with
  | [(_, kv)] => Done (INodeRefFromBytes (Value kv))
  | _ => Done (Err (ErrMsg "unexpected metadata for volume"))
  end.

(** The volume is the one of the inode. *)
Definition etcd_SyncINode (uuid : gostring) (inode : INodeRef) : prog unit :=
  let vid := Refs.Volume inode in
  or_locked (mkTxn [VersionAbove (key_lock vid) 0; ValueIs (key_lock vid) uuid]
    [OpPut (key_blockinode vid) (INodeRef_ToBytes inode) 0] []).

Definition etcd_Unlock (uuid : gostring) (vid : Z) : prog unit :=
  or_locked (mkTxn [VersionAbove (key_lock vid) 0; ValueIs (key_lock vid) uuid] [OpDelete (key_lock vid)] []).

(** As in [modify_loop], [rounds] bounds the loop; [now] is the time in a round. *)
Fixpoint etcd_SaveSnapshot (rounds : nat) (now : nat → Z) (vid : Z) (name : gostring) : prog unit :=
  match rounds with
  | O => Done (Err ErrForever)
  | S rounds' =>
      resp ← ask (Commit (mkTxn [VersionIs (key_snapshot vid name) 0] [OpGet (key_blockinode vid)] []));
      if Succeeded resp then
        v ← Done (response_kv 0 resp);
        b ← Done (json_Marshal (mkSnapshot name (now rounds') (Value v)));
        resp ← ask (Commit (mkTxn [VersionIs (key_blockinode vid) (KVersion v)] [OpPut (key_snapshot vid name) b 0] []));
        if Succeeded resp then mret tt else etcd_SaveSnapshot rounds' now vid name
      else Done (Err ErrExists)
  end.

Fixpoint unmarshal_snapshots (l : list (bytes * KeyValue)) : res (list Snapshot) :=
  match l with
  | [] => Ok []
  | (_, x) :: l' => s ← json_Unmarshal (Value x); ss ← unmarshal_snapshots l'; mret (s :: ss)
  end.
Definition etcd_GetSnapshots (vid : Z) : prog (list Snapshot) :=
  kvs ← client_GetPrefix (MkKey [str "volumemeta"; Uint64ToHex vid; str "snapshots"]);
  Done (unmarshal_snapshots kvs).

Definition etcd_DeleteSnapshot (vid : Z) (name : gostring) : prog unit :=
  or_locked (mkTxn [VersionAbove (key_snapshot vid name) 0] [OpDelete (key_snapshot vid name)] []).
(** ** The service the volumes use

    etcd, the global metadata every client has read, and the volumes each client
    has cached.  The requests of one call are made one after the other, so the first
    round of a loop is the last. *)
Record etcd_md (K : Type) := mkEtcdMD {
  em_kv : K;
  em_global : GlobalMetadata;
  em_caches : gmap gostring (gmap gostring Models.Volume);
}.

Definition on_etcd {K A} `{Etcd K} (p : prog A) : M (etcd_md K) A := λ e,
  let '(r, s) := run p (em_kv _ e) in (r, mkEtcdMD K s (em_global _ e) (em_caches _ e)).

(** A client's own state is its cache. *)
Definition with_cache {K} `{Etcd K} (uuid volume : gostring) : M (etcd_md K) Models.Volume := λ e,
  let c := mkClient (em_global _ e) (default ∅ (em_caches _ e !! uuid)) [] uuid in
  match run (etcd_GetVolume volume c) (em_kv _ e) with
  | (Ok (v, c'), s) => (Ok v, mkEtcdMD K s (em_global _ e) (<[uuid := volumesCache c']> (em_caches _ e)))
  | (Err x, s) => (Err x, mkEtcdMD K s (em_global _ e) (em_caches _ e))
  | (Panic, s) => (Panic, mkEtcdMD K s (em_global _ e) (em_caches _ e))
  end.

#[global] Instance etcd_MDS {K} `{Etcd K} : MDS (etcd_md K) := {| CommitINodeIndex vid := on_etcd (etcd_CommitINodeIndex 1 vid) |}.

#[global] Instance etcd_BlockMetadata {K} `{Etcd K} : BlockMetadata (etcd_md K) := {|
  bm_GlobalMetadata := em_global K;
  bm_NewVolumeID := on_etcd (etcd_NewVolumeID 1);
  bm_GetVolume := with_cache;
  bm_Lock uuid lease vid := on_etcd (etcd_Lock uuid lease vid);
  bm_Unlock uuid vid := on_etcd (etcd_Unlock uuid vid);
  bm_GetINode vid := on_etcd (etcd_GetINode vid);
  bm_SyncINode uuid _ inode := on_etcd (etcd_SyncINode uuid inode);
  bm_CreateBlockVolume volume := on_etcd (etcd_CreateBlockVolume volume);
  bm_DeleteVolume _ name vid := on_etcd (etcd_DeleteVolume name vid);
  bm_SaveSnapshot now vid name := on_etcd (etcd_SaveSnapshot 1 (λ _, now) vid name);
  bm_GetSnapshots vid := on_etcd (etcd_GetSnapshots vid);
  bm_DeleteSnapshot vid name := on_etcd (etcd_DeleteSnapshot vid name);
|}.
End etcd.
