(* ===== verification/EtcdSpec.v ===== *)
(** * What etcd promises, and what is kept in it

    The documented behaviour of etcd that the code relies on, as laws over a view of
    its state as a map of keys; the keys the program uses, which never collide; and
    the contract of [Metadata], which the volumes in etcd satisfy. *)
From stdpp Require Import sorting.
From Stdlib Require String.
From S2P Require Import Prelude GoSem GoStrings Refs TempStore Store Crc32 Blockset Proto Models INodeStore File Ring Metadata EtcdKeys Etcd.

(** ** The documented behaviour *)

Record estore := mkEStore { kvs : gmap bytes KeyValue; leases : gset Z }.

(** A key that is not there has version 0. *)
Definition version_of (m : gmap bytes KeyValue) (k : bytes) : Z := from_option KVersion 0 (m !! k).

Definition holds (m : gmap bytes KeyValue) (c : Cmp) : bool :=
  match c with
  | VersionIs k n => bool_decide (version_of m k = n)
  | VersionAbove k n => bool_decide (n < version_of m k)
  | ValueIs k v => bool_decide (Value <$> m !! k = Some v)
  end.

(** Keys in the order of their bytes. *)
Fixpoint bytes_le (a b : bytes) : bool :=
  match a, b with
  | [], _ => true
  | _ :: _, [] => false
  | x :: a', y :: b' =>
      if decide (x = y) then bytes_le a' b' else bool_decide (byte_to_Z x < byte_to_Z y)
  end.
Definition key_le (a b : bytes * KeyValue) : Prop := bytes_le a.1 b.1 = true.
#[global] Instance key_le_dec a b : Decision (key_le a b).
Proof. unfold key_le. apply _. Defined.

Definition with_prefix (p : bytes) (m : gmap bytes KeyValue) : gmap bytes KeyValue :=
  filter (λ '(k, _), p `prefix_of` k) m.

(** A put raises the version of its key, which starts at 1. *)
Definition put_key (k v : bytes) (lease : Z) (m : gmap bytes KeyValue) : gmap bytes KeyValue :=
  <[k := mkKV v (version_of m k + 1) lease]> m.

Definition do_op (o : Op) (m : gmap bytes KeyValue) : OpResponse * gmap bytes KeyValue :=
  match o with
  | OpGet k => (RangeResponse (match m !! k with Some x => [(k, x)] | None => [] end), m)
  | OpGetPrefix p => (RangeResponse (merge_sort key_le (map_to_list (with_prefix p m))), m)
  | OpPut k v lease => (PutResponse, put_key k v lease m)
  | OpDelete k => (DeleteResponse, delete k m)
  | OpDeletePrefix p => (DeleteResponse, m ∖ with_prefix p m)
  end.
Fixpoint do_ops (l : list Op) (m : gmap bytes KeyValue) : list OpResponse * gmap bytes KeyValue :=
  match l with
  | [] => ([], m)
  | o :: l' => let '(r, m1) := do_op o m in let '(rs, m2) := do_ops l' m1 in (r :: rs, m2)
  end.

(** A put needs a lease that exists, or none. *)
Definition op_lease (ls : gset Z) (o : Op) : bool :=
  match o with OpPut _ _ l => bool_decide (l = 0 ∨ l ∈ ls) | _ => true end.

Definition do_request (o : Op) (s : estore) : res OpResponse * estore :=
  if op_lease (leases s) o then let '(r, m) := do_op o (kvs s) in (Ok r, mkEStore m (leases s))
  else (Err rpcErrLeaseNotFound, s).
(** All comparisons are made on the state before; the operations are made at once. *)
Definition do_txn (t : Txn) (s : estore) : res TxnResponse * estore :=
  let ok := forallb (holds (kvs s)) (If t) in
  let ops := if ok then Then t else Else t in
  if forallb (op_lease (leases s)) ops then
    let '(rs, m) := do_ops ops (kvs s) in (Ok (mkResponse ok rs), mkEStore m (leases s))
  else (Err rpcErrLeaseNotFound, s).

(** A lease ends: its keys are gone with it. *)
Definition expire (l : Z) (e : estore) : estore :=
  mkEStore (filter (λ '(_, kv), Lease kv ≠ l) (kvs e)) (leases e ∖ {[l]}).

(** etcd, as its users see it. *)
Class EtcdLaws (K : Type) `{Etcd K} := {
  view : K → estore;
  serve_do o s : ∃ s', serve (Do o) s = ((do_request o (view s)).1, s') ∧ view s' = (do_request o (view s)).2;
  serve_commit t s : ∃ s', serve (Commit t) s = ((do_txn t (view s)).1, s') ∧ view s' = (do_txn t (view s)).2;
  serve_grant ttl s : ∃ l s', serve (Grant ttl) s = (Ok l, s') ∧ l ≠ 0 ∧ (l ∉ leases (view s)) ∧
    view s' = mkEStore (kvs (view s)) ({[l]} ∪ leases (view s));
  serve_keepalive l s : ∃ s', serve (KeepAliveOnce l) s =
    (if decide (l ∈ leases (view s)) then Ok tt else Err rpcErrLeaseNotFound, s') ∧ view s' = view s;
}.

(** The laws can be met: the view itself is an etcd. *)
#[global] Instance estore_Etcd : Etcd estore := {|
  serve R q := match q in Request R return estore → res R * estore with
    | Do o => do_request o
    | Commit t => do_txn t
    | Grant _ => λ s, let l := fresh ({[0]} ∪ leases s) in (Ok l, mkEStore (kvs s) ({[l]} ∪ leases s))
    | KeepAliveOnce l => λ s, (if decide (l ∈ leases s) then Ok tt else Err rpcErrLeaseNotFound, s)
    end;
|}.
#[global] Instance estore_Laws : EtcdLaws estore.
Proof.
  refine {| view := λ s : estore, s |}.
  - intros o s. exists (do_request o s).2. by destruct (do_request o s) eqn:E; cbn; rewrite E.
  - intros t s. exists (do_txn t s).2. by destruct (do_txn t s) eqn:E; cbn; rewrite E.
  - intros ttl s. eexists _, _. split; [reflexivity|]. pose proof (is_fresh ({[0]} ∪ leases s)) as Hf.
    split_and!; [set_solver|set_solver|done].
  - intros l s. by eexists.
Defined.

(** ** The keys of the program *)

Inductive ekey : Type :=
  | KRing
  | KMinter
  | KGlobal
  | KNode (uuid : gostring)
  | KVolume (name : gostring)
  | KVolumeId (vid : Z)
  | KInode (vid : Z)
  | KBlockInode (vid : Z)
  | KLock (vid : Z)
  | KSnap (vid : Z) (name : gostring).

Definition path_of (x : ekey) : list bytes :=
  match x with
  | KRing => [str "meta"; str "the-one-ring"]
  | KMinter => [str "meta"; str "volumeminter"]
  | KGlobal => [str "meta"; str "globalmetadata"]
  | KNode u => [str "nodes"; u]
  | KVolume n => [str "volumes"; n]
  | KVolumeId v => [str "volumeid"; Uint64ToHex v]
  | KInode v => [str "volumemeta"; Uint64ToHex v; str "inode"]
  | KBlockInode v => [str "volumemeta"; Uint64ToHex v; str "blockinode"]
  | KLock v => [str "volumemeta"; Uint64ToHex v; str "blocklock"]
  | KSnap v n => [str "volumemeta"; Uint64ToHex v; str "snapshots"; n]
  end.
Definition key_of (x : ekey) : bytes := MkKey (path_of x).

(** Names that [path.Join] leaves alone, and numbers of 64 bits. *)
Definition ekey_ok (x : ekey) : Prop :=
  match x with
  | KNode n | KVolume n => plain n
  | KVolumeId v | KInode v | KBlockInode v | KLock v => u64 v
  | KSnap v n => u64 v ∧ plain n
  | _ => True
  end.

Lemma path_plain x : ekey_ok x → Forall plain (path_of x).
Proof.
  assert (Forall plain (str <$> ["meta"; "the-one-ring"; "volumeminter"; "globalmetadata"; "nodes"; "volumes"; "volumeid";
    "volumemeta"; "inode"; "blockinode"; "blocklock"; "snapshots"]%string)) as Hs by by_compute.
  rewrite list.Forall_forall in Hs.
  destruct x; cbn [path_of ekey_ok]; intros Hx; repeat (apply list.Forall_cons; split); try apply list.Forall_nil; try done;
    try (by apply plain_hex); try (by apply plain_hex, Hx); try (by apply Hx);
    apply Hs; apply list_elem_of_fmap; eexists; (split; [reflexivity|set_solver]).
Qed.

Lemma str_inj a b : str a = str b → a = b.
Proof.
  intros E. rewrite <-(String.string_of_list_byte_of_string a), <-(String.string_of_list_byte_of_string b).
  by apply (f_equal String.string_of_list_byte) in E.
Qed.

#[local] Opaque str.
Lemma path_of_inj x y : ekey_ok x → ekey_ok y → path_of x = path_of y → x = y.
Proof.
  intros Hx Hy E. destruct x, y; cbn [path_of ekey_ok] in E, Hx, Hy; (discriminate E || (injection E; clear E; intros) || reflexivity);
    repeat match goal with H : str _ = str _ |- _ => apply str_inj in H; discriminate H end; subst; try reflexivity;
    f_equal; apply hex_inj; first [assumption | apply Hx | apply Hy].
Qed.
#[local] Transparent str.

Lemma key_of_inj x y : ekey_ok x → ekey_ok y → key_of x = key_of y → x = y.
Proof. intros Hx Hy E%MkKey_inj; [|by apply path_plain..]. by apply path_of_inj. Qed.

(** The keys of a volume that its data is read from. *)
Definition about (x : ekey) : option Z := match x with KBlockInode v | KLock v | KSnap v _ => Some v | _ => None end.

(** ** What is kept under the keys *)

(** [encoding/json] gives back what was encoded, for the values it can represent. *)
Class JsonLaws (A : Type) `{Json A} := {
  json_valid : A → Prop;
  json_roundtrip a : json_valid a → ∃ b, json_Marshal a = Ok b ∧ json_Unmarshal b = Ok a;
}.

Section volumes.
Context `{HashRing} `{Range} `{Godbc} `{HG : Json GlobalMetadata} `{HS : Json Snapshot} `{!JsonLaws Snapshot}.
Implicit Types (m : gmap bytes KeyValue) (x : ekey).

Definition value_ok (x : ekey) (b : bytes) : Prop :=
  match x with
  | KRing => ∃ r, ring_Marshal r = Ok b
  | KGlobal => ∃ g : GlobalMetadata, json_Marshal g = Ok b
  | KNode n => ∃ p, UUID p = n ∧ Proto.Marshal p = Ok b
  | KMinter | KInode _ | KVolume _ => ∃ z, u64 z ∧ b = Uint64ToBytes z
  | KVolumeId v => ∃ vol, VId vol = v ∧ Proto.Marshal vol = Ok b
  | KLock _ => b ≠ []
  | KBlockInode v => ∃ i, wf_inoderef i ∧ Refs.Volume i = v ∧ b = INodeRef_ToBytes i
  | KSnap _ n => ∃ s, json_Unmarshal b = Ok s ∧ SName s = n
  end.

(** Nothing but the program's keys, with values of their kind. *)
Definition tidy m : Prop :=
  ∀ k kv, m !! k = Some kv → ∃ x, ekey_ok x ∧ k = key_of x ∧ value_ok x (Value kv) ∧ 0 < KVersion kv.

Lemma tidy_at m x kv : tidy m → ekey_ok x → m !! key_of x = Some kv → value_ok x (Value kv) ∧ 0 < KVersion kv.
Proof. intros Ht Hx E. destruct (Ht _ _ E) as (y & Hy & Hk & Hv & Hp). by rewrite (key_of_inj x y). Qed.

Lemma version_pos m x : tidy m → ekey_ok x → version_of m (key_of x) = 0 ↔ m !! key_of x = None.
Proof.
  intros Ht Hx. unfold version_of. destruct (m !! key_of x) as [kv|] eqn:E; [|done]. cbn.
  destruct (tidy_at m x kv Ht Hx E) as [_ Hp]. split; [lia|done].
Qed.
Lemma version_nonneg m x : tidy m → ekey_ok x → 0 ≤ version_of m (key_of x).
Proof.
  intros Ht Hx. unfold version_of. destruct (m !! key_of x) as [kv|] eqn:E; [|done]. cbn.
  destruct (tidy_at m x kv Ht Hx E) as [_ Hp]. lia.
Qed.

Lemma tidy_put m x b l : tidy m → ekey_ok x → value_ok x b → tidy (put_key (key_of x) b l m).
Proof.
  intros Ht Hx Hb k kv. unfold put_key. intros [[<- <-]|[_ E]]%lookup_insert_Some; [|by apply Ht].
  exists x. pose proof (version_nonneg m x Ht Hx). split_and!; [done|done|done|cbn; lia].
Qed.
Lemma tidy_delete m k : tidy m → tidy (delete k m).
Proof. intros Ht k' kv [_ E]%lookup_delete_Some. by apply Ht. Qed.
Lemma tidy_expire l e : tidy (kvs e) → tidy (kvs (expire l e)).
Proof. intros Ht k kv [E _]%map_lookup_filter_Some. by apply Ht. Qed.

(** ** The data of a volume *)

Definition lock_at (v : Z) m : gostring := from_option Value [] (m !! key_lock v).

Definition snapshots_prefix (v : Z) : bytes := MkKey [str "volumemeta"; Uint64ToHex v; str "snapshots"].
Definition snapshot_kvs (v : Z) m : list (bytes * KeyValue) := merge_sort key_le (map_to_list (with_prefix (snapshots_prefix v) m)).

Definition snaps_at (v : Z) m : gmap gostring bytes :=
  match unmarshal_snapshots (snapshot_kvs v m) with Ok l => snap_map l | _ => ∅ end.

Definition vol_at (v : Z) m : option vdata :=
  kv ← m !! key_blockinode v;
  match INodeRefFromBytes (Value kv) with Ok i => Some (mkVData (lock_at v m) i (snaps_at v m)) | _ => None end.

Lemma snapshots_of x v : ekey_ok x → u64 v → snapshots_prefix v `prefix_of` key_of x ↔ ∃ n, x = KSnap v n.
Proof.
  intros Hx Hv. unfold snapshots_prefix, key_of.
  pose proof (path_plain (KSnap v (str "nodes"))) as Hp. cbn [path_of ekey_ok] in Hp.
  assert (plain (str "nodes")) as Hpn by by_compute. specialize (Hp (conj Hv Hpn)).
  apply list.Forall_cons in Hp as [Hp1 Hp]. apply list.Forall_cons in Hp as [Hp2 Hp]. apply list.Forall_cons in Hp as [Hp3 _].
  change [str "volumemeta"; Uint64ToHex v; str "snapshots"] with ([str "volumemeta"; Uint64ToHex v] ++ [str "snapshots"]).
  rewrite MkKey_prefix by (try apply path_plain; try done; repeat (apply list.Forall_cons; split); try done; apply list.Forall_nil; done).
  split.
  - intros (e' & m' & E & Hpre). destruct x; cbn [path_of app] in E; try discriminate E; injection E; intros; subst;
      try (exfalso; revert Hpre; by_compute).
    exists name. f_equal. apply hex_inj; [apply Hx|done|congruence].
  - intros [n ->]. exists (str "snapshots"), [n]. split; [done|apply reflexivity].
Qed.

Lemma elem_snapshot_kvs v m k kv :
  (k, kv) ∈ snapshot_kvs v m ↔ m !! k = Some kv ∧ snapshots_prefix v `prefix_of` k.
Proof.
  unfold snapshot_kvs. rewrite merge_sort_Permutation, elem_of_map_to_list. unfold with_prefix. by rewrite map_lookup_filter_Some.
Qed.
Lemma NoDup_snapshot_kvs v m : NoDup (snapshot_kvs v m).*1.
Proof. unfold snapshot_kvs. rewrite merge_sort_Permutation. apply NoDup_fst_map_to_list. Qed.

(** The snapshots of a volume, under the keys of their names. *)
Lemma snapshots_run v m : tidy m → u64 v → ∃ l, unmarshal_snapshots (snapshot_kvs v m) = Ok l ∧ NoDup (SName <$> l) ∧
  ∀ s, s ∈ l ↔ ∃ kv, plain (SName s) ∧ m !! key_snapshot v (SName s) = Some kv ∧ json_Unmarshal (Value kv) = Ok s.
Proof.
  intros Ht Hv.
  assert (∀ p, p ∈ snapshot_kvs v m → ∃ s, plain (SName s) ∧ p.1 = key_snapshot v (SName s) ∧ json_Unmarshal (Value p.2) = Ok s) as Hall.
  { intros [k kv] [E Hp]%elem_snapshot_kvs. destruct (Ht _ _ E) as (x & Hx & -> & Hval & _).
    apply snapshots_of in Hp as [n ->]; [|done..]. destruct Hval as (s & Hs & <-). exists s. split_and!; [apply Hx|done|done]. }
  assert (∃ l, unmarshal_snapshots (snapshot_kvs v m) = Ok l ∧
    Forall2 (λ p s, plain (SName s) ∧ p.1 = key_snapshot v (SName s) ∧ json_Unmarshal (Value p.2) = Ok s) (snapshot_kvs v m) l) as (l & El & Hl).
  { revert Hall. generalize (snapshot_kvs v m) as ps. induction ps as [|[k kv] ps IH]; intros Hall; [by exists []|].
    destruct (Hall (k, kv)) as (s & Hs); [by apply elem_of_cons; left|]. destruct IH as (l & El & Hl); [intros p Hp; apply Hall; by apply elem_of_cons; right|].
    exists (s :: l). split; [|by constructor]. cbn. destruct Hs as (_ & _ & Hj). cbn in Hj. by rewrite Hj; cbn; rewrite El. }
  exists l. split_and!; [done| |].
  - pose proof (NoDup_snapshot_kvs v m) as Hn. revert Hl Hn. generalize (snapshot_kvs v m) as ps. clear.
    induction 1 as [|p s ps l (Hp1 & Hp2 & _) Hl IH]; intros Hn; [constructor|]. cbn in *. apply list.NoDup_cons in Hn as [Hnin Hn].
    constructor; [|by apply IH]. intros (s' & Es & Hs')%list_elem_of_fmap. apply Hnin.
    apply list_elem_of_lookup in Hs' as [i Hi]. destruct (Forall2_lookup_r _ _ _ _ _ Hl Hi) as (p' & Hp' & _ & E' & _).
    rewrite Hp2, Es, <-E'. apply list_elem_of_fmap. exists p'. split; [done|by eapply list_elem_of_lookup_2].
  - intros s. split.
    + intros [i Hi]%list_elem_of_lookup. destruct (Forall2_lookup_r _ _ _ _ _ Hl Hi) as ([k kv] & Hp & Hps & Ek & Ej).
      cbn in *. exists kv. split_and!; [done| |done]. apply list_elem_of_lookup_2, elem_snapshot_kvs in Hp as [E _]. by rewrite <-Ek.
    + intros (kv & Hps & E & Ej). assert ((key_snapshot v (SName s), kv) ∈ snapshot_kvs v m) as Hin.
      { apply elem_snapshot_kvs. split; [done|]. apply (snapshots_of (KSnap v (SName s))); [done|done|by eexists]. }
      apply list_elem_of_lookup in Hin as [i Hi]. destruct (Forall2_lookup_l _ _ _ _ _ Hl Hi) as (s' & Hs' & _ & _ & Ej').
      cbn in Ej'. rewrite Ej in Ej'. injection Ej' as ->. by eapply list_elem_of_lookup_2.
Qed.

(** The inode a snapshot was taken of, by its name. *)
Definition snap_at (v : Z) (n : gostring) m : option bytes :=
  kv ← m !! key_snapshot v n; match json_Unmarshal (Value kv) with Ok s => Some (SINodeRef s) | _ => None end.

Lemma snaps_at_lookup v m n : tidy m → u64 v → snaps_at v m !! n = if decide (plain n) then snap_at v n m else None.
Proof.
  intros Ht Hv. destruct (snapshots_run v m Ht Hv) as (l & El & Hn & Hl). unfold snaps_at. rewrite El.
  assert (NoDup ((λ s, (SName s, SINodeRef s)) <$> l).*1) as Hnd by (rewrite <-list_fmap_compose; exact Hn).
  apply option_eq. intros b. unfold snap_map. rewrite <-elem_of_list_to_map by done. rewrite list_elem_of_fmap. split.
  - intros (s & [= -> ->] & Hs). apply Hl in Hs as (kv & Hp & E & Ej). rewrite decide_True by done.
    unfold snap_at. rewrite E. cbn. by rewrite Ej.
  - case_decide as Hp; [|done]. unfold snap_at. destruct (m !! key_snapshot v n) as [kv|] eqn:E; [|done]. cbn.
    destruct (tidy_at m (KSnap v n) kv Ht (conj Hv Hp) E) as [(s & Ej & <-) _]. rewrite Ej. intros [= <-].
    exists s. split; [done|]. apply Hl. by exists kv.
Qed.

Lemma snaps_at_same v m m' : tidy m → tidy m' → u64 v →
  (∀ n, plain n → m' !! key_snapshot v n = m !! key_snapshot v n) → snaps_at v m' = snaps_at v m.
Proof.
  intros Ht Ht' Hv Hsame. apply map_eq. intros n. rewrite !snaps_at_lookup by done. case_decide as Hp; [|done].
  unfold snap_at. by rewrite Hsame.
Qed.
Lemma snaps_at_put v n s b l m : tidy m → u64 v → plain n → json_Unmarshal b = Ok s → SName s = n →
  snaps_at v (put_key (key_snapshot v n) b l m) = <[n := SINodeRef s]> (snaps_at v m).
Proof.
  intros Ht Hv Hn Hj Hs. assert (tidy (put_key (key_snapshot v n) b l m)) as Ht' by (apply (tidy_put m (KSnap v n)); [done|done|by exists s]).
  apply map_eq. intros n'. rewrite snaps_at_lookup, lookup_insert by done. unfold snap_at, put_key. destruct (decide (n = n')) as [<-|Hne].
  - rewrite decide_True, lookup_insert_eq by done. cbn. by rewrite Hj.
  - rewrite snaps_at_lookup by done. case_decide as Hp; [|done]. rewrite lookup_insert_ne; [done|].
    intros [= ?]%(key_of_inj (KSnap v n) (KSnap v n')); done.
Qed.
Lemma snaps_at_delete v n m : tidy m → u64 v → plain n →
  snaps_at v (delete (key_snapshot v n) m) = delete n (snaps_at v m).
Proof.
  intros Ht Hv Hn. apply map_eq. intros n'. rewrite snaps_at_lookup, lookup_delete by (try apply tidy_delete; done).
  unfold snap_at. destruct (decide (n = n')) as [<-|Hne].
  - by rewrite decide_True, lookup_delete_eq by done.
  - rewrite snaps_at_lookup by done. case_decide as Hp; [|done]. rewrite lookup_delete_ne; [done|].
    intros [= ?]%(key_of_inj (KSnap v n) (KSnap v n')); done.
Qed.
Lemma snap_at_None v n m : tidy m → u64 v → plain n → snaps_at v m !! n = None ↔ m !! key_snapshot v n = None.
Proof.
  intros Ht Hv Hn. rewrite snaps_at_lookup, decide_True by done. unfold snap_at.
  destruct (m !! key_snapshot v n) as [kv|] eqn:E; [|done].
  destruct (tidy_at m (KSnap v n) kv Ht (conj Hv Hn) E) as [(s & Ej & _) _]. cbn. by rewrite Ej.
Qed.
Lemma vol_at_eq v i kv m : wf_inoderef i → m !! key_blockinode v = Some kv → Value kv = INodeRef_ToBytes i →
  vol_at v m = Some (mkVData (lock_at v m) i (snaps_at v m)).
Proof. intros Hw E Hval. unfold vol_at. rewrite E. cbn. by rewrite Hval, INodeRef_bytes_roundtrip. Qed.

(** The data of a volume depends on its own keys only. *)
Lemma vol_at_local v m m' :
  tidy m → tidy m' → u64 v → (∀ x, ekey_ok x → about x = Some v → m' !! key_of x = m !! key_of x) → vol_at v m' = vol_at v m.
Proof.
  intros Ht Ht' Hv Hsame. unfold vol_at. change (key_blockinode v) with (key_of (KBlockInode v)).
  rewrite (Hsame (KBlockInode v)) by done. destruct (m !! key_of (KBlockInode v)) as [kv|]; [|done]. cbn.
  destruct (INodeRefFromBytes (Value kv)); [|done..]. do 2 f_equal.
  - unfold lock_at. change (key_lock v) with (key_of (KLock v)). by rewrite (Hsame (KLock v)).
  - apply map_eq. intros n. rewrite !snaps_at_lookup by done. case_decide as Hp; [|done].
    unfold snap_at. change (key_snapshot v n) with (key_of (KSnap v n)). by rewrite (Hsame (KSnap v n)).
Qed.

Lemma vol_at_Some v m (x : vdata) : tidy m → u64 v → vol_at v m = Some x →
  wf_inoderef (v_inode x) ∧ Refs.Volume (v_inode x) = v ∧ v_lock x = lock_at v m ∧ v_snaps x = snaps_at v m ∧
  ∃ kv, m !! key_blockinode v = Some kv ∧ Value kv = INodeRef_ToBytes (v_inode x).
Proof.
  intros Ht Hv. unfold vol_at. destruct (m !! key_blockinode v) as [kv|] eqn:E; [|done]. cbn.
  destruct (tidy_at m (KBlockInode v) kv Ht Hv E) as [(i & Hw & Hvol & Hb) _]. rewrite Hb, INodeRef_bytes_roundtrip by done.
  intros [= <-]. cbn. split_and!; [done..|]. by exists kv.
Qed.
End volumes.

(** ** Requests one after the other *)

Section contract.
Context {K : Type} `{EL : EtcdLaws K} `{HashRing} `{Range} `{Godbc} `{HG : Json GlobalMetadata} `{HS : Json Snapshot} `{!JsonLaws Snapshot}.
Implicit Types (s : K) (e : etcd_md K).

Lemma run_bind {A B} (p : prog A) (f : A → prog B) s :
  run (p ≫= f) s = match run p s with (Ok a, s') => run (f a) s' | (Err x, s') => (Err x, s') | (Panic, s') => (Panic, s') end.
Proof.
  revert s. induction p as [r|R q k IH]; intros s; [by destruct r|]. cbn. destruct (serve q s) as [r s']. apply IH.
Qed.

Lemma run_get k s : ∃ s', view s' = view s ∧
  run (client_Get k) s = (Ok (match kvs (view s) !! k with Some x => [(k, x)] | None => [] end), s').
Proof.
  destruct (serve_do (OpGet k) s) as (s' & E & Hv). unfold do_request in *. cbn in E, Hv. exists s'.
  cbn. rewrite E. cbn. split; [by destruct (view s)|done].
Qed.

Lemma serve_txn t s :
  forallb (op_lease (leases (view s))) (Then t) = true → forallb (op_lease (leases (view s))) (Else t) = true →
  let ok := forallb (holds (kvs (view s))) (If t) in
  let rm := do_ops (if ok then Then t else Else t) (kvs (view s)) in
  ∃ s', view s' = mkEStore rm.2 (leases (view s)) ∧ serve (Commit t) s = (Ok (mkResponse ok rm.1), s').
Proof.
  intros Hth Hel ok rm. destruct (serve_commit t s) as (s' & E & Hv). unfold do_txn in *. fold ok in E, Hv.
  assert (forallb (op_lease (leases (view s))) (if ok then Then t else Else t) = true) as Hl by (by destruct ok).
  rewrite Hl in *. fold rm in E, Hv. destruct rm as [rs m]. by exists s'.
Qed.

Lemma run_or_locked t s :
  forallb (op_lease (leases (view s))) (Then t) = true → Else t = [] →
  let ok := forallb (holds (kvs (view s))) (If t) in
  ∃ s', view s' = mkEStore (if ok then (do_ops (Then t) (kvs (view s))).2 else kvs (view s)) (leases (view s)) ∧
    run (or_locked t) s = (if ok then Ok tt else Err ErrLocked, s').
Proof.
  intros Hth Hel. destruct (serve_txn t s Hth ltac:(by rewrite Hel)) as (s' & Hv & E). exists s'. cbn. rewrite E, Hel in *. destruct (forallb (holds (kvs (view s))) (If t)); split; done.
Qed.

(** ** The contract *)

#[global] Instance etcd_view : MetadataView (etcd_md K) := {|
  md_inv e := tidy (kvs (view (em_kv _ e)));
  vol_data v e := vol_at v (kvs (view (em_kv _ e)));
  lease_ok l e := l ≠ 0 ∧ l ∈ leases (view (em_kv _ e));
  vid_ok v := u64 v;
  snap_ok n := plain n ∧ ∀ w b, json_valid (mkSnapshot n w b);
|}.

(** A step that changes keys of volume [v] only. *)
Lemma etcd_becomes v x e s' m' :
  md_inv e → u64 v → view s' = mkEStore m' (leases (view (em_kv _ e))) → tidy m' → vol_at v m' = Some x →
  (∀ y, ekey_ok y → about y ≠ Some v → m' !! key_of y = kvs (view (em_kv _ e)) !! key_of y) →
  becomes v x e (mkEtcdMD K s' (em_global _ e) (em_caches _ e)).
Proof.
  intros Hi Hv Hs' Ht Hx Helse. split; cbn; rewrite ?Hs'; cbn; try done. intros v' Hv' Hne.
  apply vol_at_local; [done..|]. intros y Hy Ha. apply Helse; [done|]. rewrite Ha. congruence.
Qed.

Lemma put_else (v : Z) (x y : ekey) (b : bytes) (l : Z) (m : gmap bytes KeyValue) : ekey_ok x → about x = Some v → ekey_ok y → about y ≠ Some v →
  put_key (key_of x) b l m !! key_of y = m !! key_of y.
Proof. intros Hx Ha Hy Hn. apply lookup_insert_ne. intros ->%key_of_inj; done. Qed.
Lemma delete_else (v : Z) (x y : ekey) (m : gmap bytes KeyValue) : ekey_ok x → about x = Some v → ekey_ok y → about y ≠ Some v →
  delete (key_of x) m !! key_of y = m !! key_of y.
Proof. intros Hx Ha Hy Hn. apply lookup_delete_ne. intros ->%key_of_inj; done. Qed.

(** The volume's other keys are as before. *)
Lemma put_other (y y0 : ekey) (b : bytes) (l : Z) (m : gmap bytes KeyValue) : ekey_ok y → ekey_ok y0 → y ≠ y0 → put_key (key_of y0) b l m !! key_of y = m !! key_of y.
Proof. intros Hy Hy0 Hne. apply lookup_insert_ne. by intros ->%key_of_inj. Qed.
Lemma delete_other (y y0 : ekey) (m : gmap bytes KeyValue) : ekey_ok y → ekey_ok y0 → y ≠ y0 → delete (key_of y0) m !! key_of y = m !! key_of y.
Proof. intros Hy Hy0 Hne. apply lookup_delete_ne. by intros ->%key_of_inj. Qed.

Lemma unlocked v m : tidy m → u64 v → bool_decide (version_of m (key_lock v) = 0) = bool_decide (lock_at v m = []).
Proof.
  intros Ht Hv. apply bool_decide_ext. rewrite (version_pos m (KLock v)) by done. unfold lock_at.
  change (key_lock v) with (key_of (KLock v)). destruct (m !! key_of (KLock v)) as [kv|] eqn:E; [|done].
  destruct (tidy_at m (KLock v) kv Ht Hv E) as [Hval _]. cbn in *. by split.
Qed.
Lemma locked_by u v m : tidy m → u64 v → u ≠ [] →
  forallb (holds m) [VersionAbove (key_lock v) 0; ValueIs (key_lock v) u] = bool_decide (lock_at v m = u).
Proof.
  intros Ht Hv Hu. cbn. rewrite andb_true_r. unfold lock_at, version_of. change (key_lock v) with (key_of (KLock v)).
  destruct (m !! key_of (KLock v)) as [kv|] eqn:E; cbn.
  - destruct (tidy_at m (KLock v) kv Ht Hv E) as [_ Hp]. rewrite (bool_decide_true (0 < KVersion kv)) by done. cbn.
    apply bool_decide_ext. naive_solver.
  - symmetry. by apply bool_decide_false.
Qed.

Lemma decide_bool {A} (P : Prop) `{Decision P} (a b : A) : (if decide P then a else b) = if bool_decide P then a else b.
Proof. by rewrite decide_bool_decide. Qed.

Lemma em_eta e : mkEtcdMD K (em_kv _ e) (em_global _ e) (em_caches _ e) = e.
Proof. by destruct e. Qed.

(** A transaction on the lock of a volume: it is refused, or changes one key. *)
Lemma locked_law v t (P : Prop) `{Decision P} x' e x :
  md_inv e → u64 v → vol_data v e = Some x → forallb (op_lease (leases (view (em_kv _ e)))) (Then t) = true → Else t = [] →
  forallb (holds (kvs (view (em_kv _ e)))) (If t) = bool_decide P →
  (P → let m' := (do_ops (Then t) (kvs (view (em_kv _ e)))).2 in tidy m' ∧ vol_at v m' = Some x' ∧
     ∀ y, ekey_ok y → about y ≠ Some v → m' !! key_of y = kvs (view (em_kv _ e)) !! key_of y) →
  ∃ e', if decide P then on_etcd (or_locked t) e = (Ok tt, e') ∧ becomes v x' e e'
        else on_etcd (or_locked t) e = (Err ErrLocked, e') ∧ becomes v x e e'.
Proof.
  intros Hi Hv Hx Hl Hel Hok Hm. unfold on_etcd. destruct (run_or_locked t (em_kv _ e) Hl Hel) as (s' & Hs' & E).
  rewrite E, Hok in *. eexists. destruct (decide P) as [Hp|Hp].
  - rewrite (bool_decide_true _ Hp) in *. split; [reflexivity|]. destruct (Hm Hp) as (Ht & Hx' & He). by eapply etcd_becomes.
  - rewrite (bool_decide_false _ Hp) in *. split; [reflexivity|]. by eapply etcd_becomes.
Qed.

Lemma etcd_lock_law u lease v e x :
  md_inv e → vid_ok v → u ≠ [] → lease_ok lease e → vol_data v e = Some x →
  ∃ e', if decide (v_lock x = []) then
          bm_Lock u lease v e = (Ok tt, e') ∧ becomes v (mkVData u (v_inode x) (v_snaps x)) e e'
        else bm_Lock u lease v e = (Err ErrLocked, e') ∧ becomes v x e e'.
Proof.
  intros Hi Hv Hu [Hl0 Hl] Hx. destruct (vol_at_Some v _ x Hi Hv Hx) as (Hw & _ & Hlock & Hs & kv & E & Hval).
  cbn [bm_Lock etcd_BlockMetadata]. unfold etcd_Lock. rewrite decide_False by done.
  apply (locked_law v _ (v_lock x = [])); [done..| | | |].
  - cbn. rewrite andb_true_r. apply bool_decide_true. by right.
  - done.
  - cbn. rewrite andb_true_r, (unlocked v _ Hi Hv). by rewrite Hlock.
  - intros _. cbn. assert (tidy (put_key (key_of (KLock v)) u lease (kvs (view (em_kv _ e))))) as Ht by (by apply tidy_put).
    split_and!; [exact Ht| |intros y Hy Ha; by apply (put_else v (KLock v))].
    rewrite (vol_at_eq v (v_inode x) kv); [|done|rewrite <-E; by apply (put_other (KBlockInode v) (KLock v))|done]. do 2 f_equal.
    + unfold lock_at, put_key. by rewrite lookup_insert_eq.
    + rewrite Hs. apply snaps_at_same; [done..|]. intros n Hn. by apply (put_other (KSnap v n) (KLock v)).
Qed.

Lemma etcd_unlock_law u v e x :
  md_inv e → vid_ok v → u ≠ [] → vol_data v e = Some x →
  ∃ e', if decide (v_lock x = u) then
          bm_Unlock u v e = (Ok tt, e') ∧ becomes v (mkVData [] (v_inode x) (v_snaps x)) e e'
        else bm_Unlock u v e = (Err ErrLocked, e') ∧ becomes v x e e'.
Proof.
  intros Hi Hv Hu Hx. destruct (vol_at_Some v _ x Hi Hv Hx) as (Hw & _ & Hlock & Hs & kv & E & Hval).
  cbn [bm_Unlock etcd_BlockMetadata]. unfold etcd_Unlock.
  apply (locked_law v _ (v_lock x = u)); [done..| |].
  - cbn [If]. rewrite (locked_by u v _ Hi Hv Hu). by rewrite Hlock.
  - intros _. cbn. assert (tidy (delete (key_of (KLock v)) (kvs (view (em_kv _ e))))) as Ht by (by apply tidy_delete).
    split_and!; [exact Ht| |intros y Hy Ha; by apply (delete_else v (KLock v))].
    rewrite (vol_at_eq v (v_inode x) kv); [|done|rewrite <-E; by apply (delete_other (KBlockInode v) (KLock v))|done]. do 2 f_equal.
    + unfold lock_at. by rewrite lookup_delete_eq.
    + rewrite Hs. apply snaps_at_same; [done..|]. intros n Hn. by apply (delete_other (KSnap v n) (KLock v)).
Qed.

Lemma etcd_sync_law u v i e x :
  md_inv e → vid_ok v → u ≠ [] → wf_inoderef i → Refs.Volume i = v → vol_data v e = Some x →
  ∃ e', if decide (v_lock x = u) then
          bm_SyncINode u v i e = (Ok tt, e') ∧ becomes v (mkVData u i (v_snaps x)) e e'
        else bm_SyncINode u v i e = (Err ErrLocked, e') ∧ becomes v x e e'.
Proof.
  intros Hi Hv Hu Hwi Hvol Hx. destruct (vol_at_Some v _ x Hi Hv Hx) as (Hw & _ & Hlock & Hs & kv & E & Hval).
  cbn [bm_SyncINode etcd_BlockMetadata]. unfold etcd_SyncINode. rewrite Hvol.
  apply (locked_law v _ (v_lock x = u)); [done..| |].
  - cbn [If]. rewrite (locked_by u v _ Hi Hv Hu). by rewrite Hlock.
  - intros Hlu. cbn. assert (value_ok (KBlockInode v) (INodeRef_ToBytes i)) as Hvo by (by exists i).
    assert (tidy (put_key (key_of (KBlockInode v)) (INodeRef_ToBytes i) 0 (kvs (view (em_kv _ e))))) as Ht by (by apply tidy_put).
    split_and!; [exact Ht| |intros y Hy Ha; by apply (put_else v (KBlockInode v))].
    eapply eq_trans; [eapply (vol_at_eq v i); [exact Hwi|apply lookup_insert_eq|done]|]. do 2 f_equal.
    + rewrite <-Hlu, Hlock. unfold lock_at. f_equal. by apply (put_other (KLock v) (KBlockInode v)).
    + rewrite Hs. apply snaps_at_same; [done..|]. intros n Hn. by apply (put_other (KSnap v n) (KBlockInode v)).
Qed.

Lemma etcd_inode_law v e x :
  md_inv e → vid_ok v → vol_data v e = Some x → ∃ e', bm_GetINode v e = (Ok (v_inode x), e') ∧ becomes v x e e'.
Proof.
  intros Hi Hv Hx. destruct (vol_at_Some v _ x Hi Hv Hx) as (Hw & _ & _ & _ & kv & E & Hval).
  cbn [bm_GetINode etcd_BlockMetadata]. unfold on_etcd, etcd_GetINode. rewrite run_bind.
  destruct (run_get (key_blockinode v) (em_kv _ e)) as (s' & Hs' & ->). rewrite E. cbn. rewrite Hval, INodeRef_bytes_roundtrip by done.
  eexists. split; [reflexivity|]. apply (etcd_becomes v x e s' (kvs (view (em_kv _ e)))); [done|done|rewrite Hs'; by destruct (view (em_kv _ e))|done..].
Qed.

Lemma etcd_snaps_law v e x :
  md_inv e → vid_ok v → vol_data v e = Some x →
  ∃ l e', bm_GetSnapshots v e = (Ok l, e') ∧ snap_map l = v_snaps x ∧ becomes v x e e'.
Proof.
  intros Hi Hv Hx. destruct (vol_at_Some v _ x Hi Hv Hx) as (_ & _ & _ & Hs & _).
  destruct (snapshots_run v _ Hi Hv) as (l & El & _). exists l.
  destruct (serve_do (OpGetPrefix (snapshots_prefix v)) (em_kv _ e)) as (s' & Es & Hs').
  cbn [bm_GetSnapshots etcd_BlockMetadata]. unfold on_etcd, etcd_GetSnapshots, client_GetPrefix. rewrite !run_bind. cbn [run ask].
  fold (snapshots_prefix v). rewrite Es. unfold do_request in *. cbn in *. fold (snapshot_kvs v (kvs (view (em_kv _ e)))). rewrite El.
  eexists. split; [reflexivity|]. split; [rewrite Hs; unfold snaps_at; by rewrite El|]. by eapply etcd_becomes.
Qed.

Lemma etcd_unsnap_law v n e x :
  md_inv e → vid_ok v → snap_ok n → vol_data v e = Some x →
  ∃ e', if decide (v_snaps x !! n = None) then (∃ er, bm_DeleteSnapshot v n e = (Err er, e')) ∧ becomes v x e e'
        else bm_DeleteSnapshot v n e = (Ok tt, e') ∧ becomes v (mkVData (v_lock x) (v_inode x) (delete n (v_snaps x))) e e'.
Proof.
  intros Hi Hv [Hn _] Hx. destruct (vol_at_Some v _ x Hi Hv Hx) as (Hw & _ & Hlock & Hs & kv & E & Hval).
  cbn [bm_DeleteSnapshot etcd_BlockMetadata]. unfold etcd_DeleteSnapshot.
  edestruct (locked_law v (mkTxn [VersionAbove (key_snapshot v n) 0] [OpDelete (key_snapshot v n)] []) (v_snaps x !! n ≠ None)
    (mkVData (v_lock x) (v_inode x) (delete n (v_snaps x))) e x Hi Hv Hx eq_refl eq_refl) as [e' He'].
  - cbn [If forallb holds]. rewrite andb_true_r. apply bool_decide_ext. rewrite Hs, snap_at_None by done.
    pose proof (version_nonneg _ (KSnap v n) Hi (conj Hv Hn)). rewrite <-(version_pos _ (KSnap v n)) by done.
    change (key_of (KSnap v n)) with (key_snapshot v n) in *. lia.
  - intros _. cbn. split_and!; [by apply tidy_delete| |intros y Hy Ha; by apply (delete_else v (KSnap v n))].
    rewrite (vol_at_eq v (v_inode x) kv); [|done|rewrite <-E; by apply (delete_other (KBlockInode v) (KSnap v n))|done]. do 2 f_equal.
    + rewrite Hlock. unfold lock_at. f_equal. by apply (delete_other (KLock v) (KSnap v n)).
    + rewrite Hs. by apply snaps_at_delete.
  - exists e'. destruct (decide (v_snaps x !! n ≠ None)) as [Hd|Hd]; [by rewrite decide_False by done|].
    rewrite decide_True by (by destruct (decide (v_snaps x !! n = None))). destruct He' as [He' Hb]. split; [by eexists|done].
Qed.

Lemma etcd_save_law now v n e x :
  md_inv e → vid_ok v → snap_ok n → vol_data v e = Some x →
  ∃ e', if decide (v_snaps x !! n = None) then
          bm_SaveSnapshot now v n e = (Ok tt, e') ∧
          becomes v (mkVData (v_lock x) (v_inode x) (<[n := INodeRef_ToBytes (v_inode x)]> (v_snaps x))) e e'
        else bm_SaveSnapshot now v n e = (Err ErrExists, e') ∧ becomes v x e e'.
Proof.
  intros Hi Hv [Hn Hj] Hx. destruct (vol_at_Some v _ x Hi Hv Hx) as (Hw & _ & Hlock & Hs & kv & E & Hval).
  cbn [bm_SaveSnapshot etcd_BlockMetadata]. unfold on_etcd. cbn [etcd_SaveSnapshot mbind prog_mbind prog_bind ask run].
  destruct (serve_txn (mkTxn [VersionIs (key_snapshot v n) 0] [OpGet (key_blockinode v)] []) (em_kv _ e) eq_refl eq_refl) as (s1 & Hs1 & ->).
  cbn [If Then Else forallb holds do_ops do_op fst snd] in *. rewrite andb_true_r in *.
  assert (bool_decide (version_of (kvs (view (em_kv _ e))) (key_snapshot v n) = 0) = bool_decide (v_snaps x !! n = None)) as Hok.
  { apply bool_decide_ext. rewrite Hs, snap_at_None by done. by apply (version_pos _ (KSnap v n)). }
  rewrite Hok in *. destruct (decide (v_snaps x !! n = None)) as [Hnone|Hsome].
  - rewrite (bool_decide_true _ Hnone) in *. cbn [do_ops do_op fst snd Succeeded] in *. rewrite E. cbn.
    destruct (json_roundtrip (mkSnapshot n now (Value kv)) (Hj _ _)) as (b & Eb & Hb). rewrite Eb. cbn.
    destruct (serve_txn (mkTxn [VersionIs (key_blockinode v) (KVersion kv)] [OpPut (key_snapshot v n) b 0] []) s1) as (s2 & Hs2 & ->);
      [by rewrite Hs1|done|]. cbn [If Then Else forallb holds do_ops do_op fst snd] in *. rewrite Hs1 in *. cbn [kvs leases] in *.
    assert (version_of (kvs (view (em_kv _ e))) (key_blockinode v) = KVersion kv) as Hkv by (unfold version_of; by rewrite E).
    rewrite Hkv, (bool_decide_true (KVersion kv = KVersion kv)) in * by done. cbn in Hs2 |- *. eexists. split; [reflexivity|].
    assert (value_ok (KSnap v n) b) as Hvo by (by exists (mkSnapshot n now (Value kv))).
    eapply etcd_becomes; [done|done|exact Hs2|by apply (tidy_put _ (KSnap v n))| |].
    + rewrite (vol_at_eq v (v_inode x) kv); [|done|rewrite <-E; by apply (put_other (KBlockInode v) (KSnap v n))|done]. do 2 f_equal.
      * rewrite Hlock. unfold lock_at. f_equal. by apply (put_other (KLock v) (KSnap v n)).
      * rewrite (snaps_at_put v n (mkSnapshot n now (Value kv))) by done. cbn. by rewrite Hval, Hs.
    + intros y Hy Ha. by apply (put_else v (KSnap v n)).
  - rewrite (bool_decide_false _ Hsome) in *. cbn. eexists. split; [reflexivity|]. by eapply etcd_becomes.
Qed.

#[global] Instance etcd_laws : BlockMetadataLaws (etcd_md K).
Proof.
  split; [apply etcd_lock_law|apply etcd_unlock_law|apply etcd_inode_law|apply etcd_sync_law|apply etcd_save_law
    |apply etcd_snaps_law|apply etcd_unsnap_law].
Qed.
End contract.
