(* ===== verification/EtcdProps.v ===== *)
(** * Several clients of one etcd

    The requests of concurrent calls interleaved in any way, each of them lost,
    answered, or carried out with the answer lost: the numbers that are handed out
    are never handed out twice, and rings follow one another.  And where the code
    does not keep what it means to: deleting a volume, snapshots of the same name,
    and the cache of volumes. *)
From stdpp Require Import sorting.
From S2P Require Import Prelude GoSem GoStrings Refs TempStore Store Crc32 Blockset Proto Models INodeStore File Ring RingSpec Metadata EtcdKeys Etcd EtcdSpec.

(** ** Interleavings *)

(** What becomes of a request: it is answered, it is lost, or it is carried out and
    its answer is lost. *)
Inductive fault : Type := Answered | Lost (e : error) | Unanswered (e : error).

Section steps.
Context {K : Type} `{EL : EtcdLaws K}.
Implicit Types (s : K).

Definition deliver {R} (f : fault) (q : Request R) s : res R * K :=
  match f with
  | Answered => serve q s
  | Lost e => (Err e, s)
  | Unanswered e => (Err e, (serve q s).2)
  end.

(** The next request of a call. *)
Definition advance {A} (f : fault) (p : prog A) s : prog A * K :=
  match p with
  | Done r => (Done r, s)
  | Ask q k => let '(r, s') := deliver f q s in (k r, s')
  end.

(** Calls that raise the counter under [key], begun at any time and carried on one
    request at a time, and other clients that leave that key alone. *)
Inductive counter_step (key : bytes) : K * list (prog Z) → K * list (prog Z) → Prop :=
  | C_begin s ts rounds : counter_step key (s, ts) (s, ts ++ [AtomicModifyKey rounds key BytesAddOne])
  | C_request s ts i p f p' s' : ts !! i = Some p → advance f p s = (p', s') → counter_step key (s, ts) (s', <[i := p']> ts)
  | C_other s ts s' : kvs (view s') !! key = kvs (view s) !! key → counter_step key (s, ts) (s', ts).

(** Where a call can be, when the counter has version [ver] and value [n]. *)
Inductive call_state (key : bytes) (n0 ver n : Z) : prog Z → Prop :=
  | S_begun rounds : call_state key n0 ver n (AtomicModifyKey rounds key BytesAddOne)
  | S_loop rounds v m : 0 < v ≤ ver → n0 ≤ m ≤ n → (v = ver → m = n) →
      call_state key n0 ver n (modify_loop rounds key BytesAddOne v (Uint64ToBytes m))
  | S_done a : n0 < a ≤ n → call_state key n0 ver n (Done (Ok a))
  | S_failed e : call_state key n0 ver n (Done (Err e)).

(** After [k] steps the counter has gone up by at most [k], and no number was given
    to two calls. *)
Definition counter_inv (key : bytes) (n0 k : Z) (st : K * list (prog Z)) : Prop :=
  ∃ n kv, kvs (view st.1) !! key = Some kv ∧ Value kv = Uint64ToBytes n ∧ 0 < KVersion kv ∧ n0 ≤ n ≤ n0 + k ∧
    Forall (call_state key n0 (KVersion kv) n) st.2 ∧
    ∀ i j a, st.2 !! i = Some (Done (Ok a)) → st.2 !! j = Some (Done (Ok a)) → i = j.

Lemma call_state_mono key n0 ver n ver' n' p :
  ver ≤ ver' → n ≤ n' → (ver = ver' → n = n') → call_state key n0 ver n p → call_state key n0 ver' n' p.
Proof.
  intros Hv Hn Hvn [rounds|rounds v m Hvv Hm Hvm|a Ha|e]; [constructor|apply S_loop|apply S_done|constructor]; try lia.
Qed.

Lemma add_one m : u64 m → m + 1 < 2 ^ 64 → BytesAddOne (Uint64ToBytes m) = Ok (Uint64ToBytes (m + 1), m + 1).
Proof.
  intros Hm Hm1. unfold BytesAddOne. rewrite uint64_bytes by done. cbn. rewrite wrap_id; [done|]. unfold in_width in *. lia.
Qed.

(** The compare-and-swap of one round. *)
Definition cas (key : bytes) (v : Z) (b : bytes) : Txn := mkTxn [VersionIs key v] [OpPut key b 0] [OpGet key].

Lemma serve_cas key v b kv s :
  kvs (view s) !! key = Some kv →
  (∃ s', serve (Commit (cas key v b)) s =
     (Ok (if decide (v = KVersion kv) then mkResponse true [PutResponse] else mkResponse false [RangeResponse [(key, kv)]]), s') ∧
     kvs (view s') !! key = Some (if decide (v = KVersion kv) then mkKV b (KVersion kv + 1) 0 else kv)).
Proof.
  intros E. destruct (serve_txn (cas key v b) s eq_refl eq_refl) as (s' & Hv & Es). exists s'.
  cbn [cas If Then Else forallb holds] in *. unfold version_of in *. rewrite E in *. cbn [from_option] in *. rewrite andb_true_r in *.
  destruct (decide (v = KVersion kv)) as [->|Hne].
  - rewrite bool_decide_true in * by done. rewrite Es, Hv. cbn. split; [done|]. unfold put_key, version_of. rewrite lookup_insert_eq, E. done.
  - rewrite bool_decide_false in * by congruence. rewrite Es, Hv. cbn. rewrite E. done.
Qed.

Lemma loop_ask rounds key v m : u64 m → m + 1 < 2 ^ 64 →
  modify_loop rounds key BytesAddOne v (Uint64ToBytes m) =
  match rounds with
  | O => Done (Err ErrForever)
  | S r => Ask (Commit (cas key v (Uint64ToBytes (m + 1)))) (λ x,
      match x with
      | Ok resp => if Succeeded resp then Done (Ok (m + 1))
                   else prog_bind (λ kv, modify_loop r key BytesAddOne (KVersion kv) (Value kv)) (Done (response_kv 0 resp))
      | Err e => Done (Err e)
      | Panic => Done Panic
      end)
  end.
Proof. intros Hm Hm1. destruct rounds as [|r]; [done|]. cbn [modify_loop]. by rewrite add_one. Qed.
Lemma loop_not_done rounds key v m a : u64 m → m + 1 < 2 ^ 64 → modify_loop rounds key BytesAddOne v (Uint64ToBytes m) ≠ Done (Ok a).
Proof. intros Hm Hm1. rewrite loop_ask by done. by destruct rounds. Qed.

Lemma done_state key n0 ver n a : 0 ≤ n0 → n + 1 < 2 ^ 64 → call_state key n0 ver n (Done (Ok a)) → n0 < a ≤ n.
Proof.
  intros Hn0 Hn Hc. inversion Hc as [|rounds v m Hv Hm Hvm E| |]; subst; [|lia].
  exfalso. apply (loop_not_done rounds key v m a); [unfold in_width; lia|lia|done].
Qed.

(** What one request does to a call and the counter. *)
Lemma request_step key n0 s kv n p f p' s' :
  kvs (view s) !! key = Some kv → Value kv = Uint64ToBytes n → 0 < KVersion kv → n0 ≤ n → 0 ≤ n0 → n + 1 < 2 ^ 64 →
  call_state key n0 (KVersion kv) n p → advance f p s = (p', s') →
  (kvs (view s') !! key = Some kv ∧ call_state key n0 (KVersion kv) n p' ∧ (∀ a, p' = Done (Ok a) → p = p')) ∨
  (kvs (view s') !! key = Some (mkKV (Uint64ToBytes (n + 1)) (KVersion kv + 1) 0) ∧
   (p' = Done (Ok (n + 1)) ∨ ∃ e, p' = Done (Err e))).
Proof.
  intros E Hval Hver Hn Hn0 Hb Hc Ha. assert (∀ m, n0 ≤ m ≤ n → u64 m ∧ m + 1 < 2 ^ 64) as Hu by (unfold in_width; lia).
  destruct Hc as [rounds|rounds v m Hv Hm Hvm|a Hx|e].
  - destruct (serve_do (OpGet key) s) as (s1 & Es & Hs1). unfold do_request in *. cbn in Es, Hs1. rewrite E in Es.
    left. cbn in Ha. destruct f as [|e|e]; cbn in Ha; rewrite ?Es in Ha; injection Ha as <- <-; cbn; rewrite ?Hs1, ?E.
    + rewrite Hval. split_and!; [done|by apply S_loop; lia|]. intros a ?%loop_not_done; [done|apply Hu; lia..].
    + by split_and!; [|apply S_failed|].
    + by split_and!; [|apply S_failed|].
  - destruct (Hu m Hm) as [Hm1 Hm2]. rewrite (loop_ask rounds key v m Hm1 Hm2) in Ha. destruct rounds as [|r].
    { injection Ha as <- <-. left. by split_and!; [|apply S_failed|]. }
    destruct (serve_cas key v (Uint64ToBytes (m + 1)) kv s E) as (s1 & Es & Hs1).
    destruct f as [|e|e]; cbn [advance deliver] in Ha; rewrite ?Es in Ha; cbn [snd] in Ha; injection Ha as <- <-.
    + destruct (decide (v = KVersion kv)) as [->|Hne]; cbn [Succeeded].
      * right. rewrite Hs1, Hvm by done. split; [done|by left].
      * left. cbn. rewrite Hval. split_and!; [done|by apply S_loop; lia|]. intros a ?%loop_not_done; [done|apply Hu; lia..].
    + left. by split_and!; [|apply S_failed|].
    + destruct (decide (v = KVersion kv)) as [->|Hne].
      * right. rewrite Hs1, Hvm by done. split; [done|right; by eexists].
      * left. by split_and!; [|apply S_failed|].
  - injection Ha as <- <-. left. split_and!; [done|by apply S_done|done].
  - injection Ha as <- <-. left. split_and!; [done|by apply S_failed|done].
Qed.

Lemma counter_keeps key n0 k st st' :
  0 ≤ n0 → 0 ≤ k → n0 + k + 1 < 2 ^ 64 → counter_inv key n0 k st → counter_step key st st' → counter_inv key n0 (k + 1) st'.
Proof.
  intros Hn0 Hk Hb (n & kv & E & Hval & Hver & Hn & Hcs & Hfresh) Hstep.
  destruct Hstep as [s ts rounds|s ts i p f p' s' Hi Ha|s ts s' Hs]; cbn [fst snd] in *.
  - exists n, kv. split_and!; [done..|lia|lia| |]; cbn [fst snd].
    + apply Forall_app. split; [done|]. apply list.Forall_singleton. constructor.
    + intros i j a Hi Hj. apply lookup_snoc_Some in Hi as [[_ Hi]|[_ Hi]]; [|done].
      apply lookup_snoc_Some in Hj as [[_ Hj]|[_ Hj]]; [by eapply Hfresh|done].
  - pose proof (proj1 (list.Forall_lookup _ _) Hcs i p Hi) as Hp.
    destruct (request_step key n0 s kv n p f p' s' E Hval Hver ltac:(lia) Hn0 ltac:(lia) Hp Ha) as [(E' & Hp' & Hsame)|(E' & Hp')].
    + exists n, kv. split_and!; [done..|lia|lia| |]; cbn [fst snd].
      * by apply Forall_insert.
      * assert (∀ j a, <[i := p']> ts !! j = Some (Done (Ok a)) → ts !! j = Some (Done (Ok a))) as Hold.
        { intros j a [(-> & -> & _)|[_ Hj]]%list_lookup_insert_Some; [|done]. by rewrite Hi, (Hsame a). }
        intros j1 j2 a H1 H2. by eapply Hfresh; apply Hold.
    + exists (n + 1), (mkKV (Uint64ToBytes (n + 1)) (KVersion kv + 1) 0). cbn [Value KVersion fst snd]. split_and!; [done|done|lia|lia|lia| |].
      * apply Forall_insert; [|by destruct Hp' as [->|[e ->]]; [apply S_done; lia|apply S_failed]].
        eapply Forall_impl; [|exact Hcs]. intros q Hq. eapply call_state_mono; [..|exact Hq]; lia.
      * assert (∀ j a, j ≠ i → <[i := p']> ts !! j = Some (Done (Ok a)) → ts !! j = Some (Done (Ok a)) ∧ a ≤ n) as Hold.
        { intros j a Hne Hj. rewrite list_lookup_insert_ne in Hj by done. split; [done|].
          pose proof (proj1 (list.Forall_lookup _ _) Hcs j _ Hj) as Hq. apply done_state in Hq; lia. }
        assert (∀ a, <[i := p']> ts !! i = Some (Done (Ok a)) → a = n + 1) as Hnew.
        { intros a Hx. rewrite list_lookup_insert_eq in Hx by (by eapply lookup_lt_Some). destruct Hp' as [->|[e ->]]; congruence. }
        intros j1 j2 a H1 H2. destruct (decide (j1 = i)) as [->|Hj1], (decide (j2 = i)) as [->|Hj2]; [done|..].
        -- apply Hnew in H1. destruct (Hold _ _ Hj2 H2). lia.
        -- apply Hnew in H2. destruct (Hold _ _ Hj1 H1). lia.
        -- destruct (Hold _ _ Hj1 H1), (Hold _ _ Hj2 H2). by eapply Hfresh.
  - exists n, kv. cbn. rewrite Hs. by split_and!; [..|lia|lia| |].
Qed.

Lemma counter_reaches key n0 k : ∀ k0 st st', 0 ≤ n0 → 0 ≤ k0 → n0 + k0 + Z.of_nat k < 2 ^ 64 → counter_inv key n0 k0 st →
  nsteps (counter_step key) k st st' → counter_inv key n0 (k0 + Z.of_nat k) st'.
Proof.
  induction k as [|k IH]; intros k0 st st' Hn0 Hk0 Hb Hi Hs; inversion Hs; subst; [by rewrite Z.add_0_r|].
  replace (k0 + Z.of_nat (S k)) with (k0 + 1 + Z.of_nat k) by lia. eapply IH; [done|lia|lia| |done].
  eapply counter_keeps; [..|done|done]; lia.
Qed.

(** C6: numbers handed out by etcd are never handed out twice.  However many clients
    raise the same counter (the volume minter, or the inode index of a volume) at the
    same time, whatever order their requests reach etcd in, and whichever requests or
    answers are lost: two calls that succeed return different numbers, above the one
    the counter started with, and no call panics.  The other clients change the counter by
    such calls only: none deletes it, as deleting the volume or wiping the metadata would,
    or writes it in another way.  The counter does not come to 2^64 in these steps. *)
Theorem etcd_ids_unique (key : bytes) (n0 : Z) (kv : KeyValue) (s s' : K) (ts : list (prog Z)) (k : nat) :
  kvs (view s) !! key = Some kv → Value kv = Uint64ToBytes n0 → 0 < KVersion kv → 0 ≤ n0 → n0 + Z.of_nat k + 1 < 2 ^ 64 →
  nsteps (counter_step key) k (s, []) (s', ts) →
  ∀ i p, ts !! i = Some p → p ≠ Done Panic ∧
    ∀ a, p = Done (Ok a) → n0 < a ∧ ∀ j b, ts !! j = Some (Done (Ok b)) → i ≠ j → a ≠ b.
Proof.
  intros E Hval Hver Hn0 Hb Hs i p Hi.
  destruct (counter_reaches key n0 k 0 (s, []) (s', ts) Hn0 ltac:(lia) ltac:(lia)) as (n & kv' & _ & _ & _ & Hn & Hcs & Hfresh); [|done|].
  { exists n0, kv. by split_and!; [..|lia|lia|constructor|]. }
  cbn [snd] in *. pose proof (proj1 (list.Forall_lookup _ _) Hcs i p Hi) as Hp. split.
  - inversion Hp; subst; try done. rewrite loop_ask by (unfold in_width; lia). by case_match.
  - intros a ->. split; [apply done_state in Hp; lia|]. intros j b Hj Hne ->. by apply Hne, (Hfresh i j b).
Qed.
End steps.

(** ** The retries end *)

Section progress.
Context {K : Type} `{EL : EtcdLaws K}.
Implicit Types (s : K).

(** A call, with what the other clients do before each of its requests. *)
Fixpoint run_among {A} (others : nat → K → K) (i : nat) (p : prog A) s : res A * K :=
  match p with
  | Done r => (r, s)
  | Ask q k => let '(r, s') := serve q (others i s) in run_among others (S i) (k r) s'
  end.

(** A counter that can be raised. *)
Definition counter_at (key : bytes) s : Prop :=
  ∃ n kv, kvs (view s) !! key = Some kv ∧ Value kv = Uint64ToBytes n ∧ u64 n ∧ n + 1 < 2 ^ 64.

Lemma loop_returns key others rounds : ∀ i c s m kv,
  (∀ j s, counter_at key s → counter_at key (others j s)) →
  (i ≤ c < i + rounds)%nat → (∀ s, kvs (view (others c s)) !! key = kvs (view s) !! key) →
  kvs (view s) !! key = Some kv → Value kv = Uint64ToBytes m → u64 m → m + 1 < 2 ^ 64 →
  ∃ a s', run_among others i (modify_loop rounds key BytesAddOne (KVersion kv) (Uint64ToBytes m)) s = (Ok a, s').
Proof.
  induction rounds as [|r IH]; intros i c s m kv Hok Hc Hcalm E Hval Hm Hm1; [lia|].
  rewrite loop_ask by done. cbn [run_among].
  destruct (Hok i s) as (m' & kv' & E' & Hval' & Hm' & Hm1'); [by exists m, kv|].
  destruct (serve_cas key (KVersion kv) (Uint64ToBytes (m + 1)) kv' (others i s) E') as (s1 & -> & Hs1).
  destruct (decide (KVersion kv = KVersion kv')) as [He|Hne]; cbn [Succeeded]; [by eexists _, _|].
  assert (i ≠ c) as Hic by (intros ->; rewrite Hcalm, E in E'; congruence).
  cbn. rewrite Hval'. by eapply (IH (S i) c); [|lia|..].
Qed.

(** C29: raising a counter ends.  The other clients may do anything to the counter between
    the requests of a call, short of deleting it, writing something else than a number, or
    bringing it to its maximum ([counter_at]); no request is lost.  The call returns a
    number once there is a round, among the rounds it is given, before whose request they
    leave the counter alone. *)
Theorem etcd_modify_returns (key : bytes) (others : nat → K → K) (rounds c : nat) (s : K) :
  counter_at key s → (∀ j s, counter_at key s → counter_at key (others j s)) →
  (1 ≤ c ≤ rounds)%nat → (∀ s, kvs (view (others c s)) !! key = kvs (view s) !! key) →
  ∃ a s', run_among others 0 (AtomicModifyKey rounds key BytesAddOne) s = (Ok a, s').
Proof.
  intros Hs Hok Hc Hcalm. destruct (Hok 0%nat s Hs) as (n & kv & E & Hval & Hn & Hn1). cbn.
  destruct (serve_do (OpGet key) (others 0%nat s)) as (s1 & Es & Hs1). unfold do_request in *. cbn in Es, Hs1.
  rewrite Es, E. cbn. rewrite Hval. eapply (loop_returns key others rounds 1 c); [done|lia|done|by rewrite Hs1|done..].
Qed.
End progress.

(** ** Deleting a volume *)

Section deleting.
Context {K : Type} `{EL : EtcdLaws K} `{HashRing} `{Range} `{Godbc} `{HG : Json GlobalMetadata} `{HS : Json Snapshot} `{!JsonLaws Snapshot}.
Implicit Types (s : K).

(** Deleting a volume deletes the metadata of other volumes.  [DeleteVolume]
    removes every key that begins with the volume's number in hexadecimal, without a
    separator behind it: all of the metadata of a volume whose number goes on from
    there (deleting volume 2 also takes 0x20 to 0x2f) is gone, its inode, its lock
    even while a client holds it, and its counter of inodes, which makes the next
    write to that volume panic. *)
Theorem delete_takes_other_volumes (s : K) (name : gostring) (v v' : Z) (rounds : nat) :
  tidy (kvs (view s)) → plain name → u64 v → u64 v' → Uint64ToHex v `prefix_of` Uint64ToHex v' →
  kvs (view s) !! key_lock v = None → (0 < rounds)%nat →
  ∃ s', run (etcd_DeleteVolume name v) s = (Ok tt, s') ∧
    vol_at v' (kvs (view s')) = None ∧ kvs (view s') !! key_lock v' = None ∧
    (run (etcd_GetINode v') s').1 = Err (ErrMsg "unexpected metadata for volume") ∧
    (run (etcd_CommitINodeIndex rounds v') s').1 = Panic.
Proof.
  intros Ht Hn Hv Hv' Hpre Hl Hr. set (pfx := MkKey [str "volumemeta"; Uint64ToHex v]).
  destruct (run_or_locked (mkTxn [VersionIs (key_lock v) 0] [OpDelete (key_volume name); OpDelete (key_volumeid v); OpDeletePrefix pfx] [])
    s eq_refl eq_refl) as (s' & Hs' & E).
  assert (version_of (kvs (view s)) (key_lock v) = 0) as Hver by (unfold version_of; by rewrite Hl).
  cbn [If forallb holds] in E, Hs'. rewrite Hver in E, Hs'. cbn in E, Hs'. exists s'. split; [exact E|].
  assert (∀ e, plain e → kvs (view s') !! MkKey [str "volumemeta"; Uint64ToHex v'; e] = None) as Hgone.
  { intros e He. rewrite Hs'. cbn. apply lookup_difference_None. destruct (delete _ _ !! _) as [kv|] eqn:Ek; [right|by left].
    exists kv. unfold with_prefix. apply map_lookup_filter_Some. split; [done|].
    assert (plain (str "volumemeta")) as Hvm by by_compute.
    apply (MkKey_prefix [str "volumemeta"] (Uint64ToHex v)); [by apply list.Forall_singleton|by apply plain_hex|..].
    - repeat (apply list.Forall_cons; split); try done. by apply plain_hex.
    - by exists (Uint64ToHex v'), [e]. }
  assert (plain (str "blockinode") ∧ plain (str "blocklock") ∧ plain (str "inode")) as (Hp1 & Hp2 & Hp3) by by_compute.
  specialize (Hgone _ Hp1) as Hg1. specialize (Hgone _ Hp2) as Hg2. specialize (Hgone _ Hp3) as Hg3.
  fold (key_blockinode v') in Hg1. fold (key_lock v') in Hg2. fold (key_inode v') in Hg3.
  split_and!; [unfold vol_at; by rewrite Hg1|done| |].
  - unfold etcd_GetINode. rewrite run_bind. destruct (run_get (key_blockinode v') s') as (s2 & _ & ->). by rewrite Hg1.
  - unfold etcd_CommitINodeIndex, AtomicModifyKey. rewrite run_bind. destruct (run_get (key_inode v') s') as (s2 & _ & ->).
    rewrite Hg3. by destruct rounds; [lia|].
Qed.

Lemma GetVolume_caches name c s v c' s' :
  run (etcd_GetVolume name c) s = (Ok (v, c'), s') → volumesCache c' !! name = Some v.
Proof.
  unfold etcd_GetVolume. destruct (volumesCache c !! name) as [w|] eqn:Ec; [by intros [= <- <- <-]|].
  rewrite run_bind. destruct (run_get (key_volume name) s) as (s2 & _ & ->).
  destruct (kvs (view s) !! key_volume name) as [kv|]; [|done]. rewrite run_bind. cbn [run].
  destruct (BytesToUint64 (Value kv)) as [vid| |]; [|done..]. rewrite run_bind.
  destruct (run_get (key_volumeid vid) s2) as (s3 & _ & ->). destruct (kvs (view s2) !! key_volumeid vid) as [kv2|]; [|done].
  rewrite run_bind. cbn [run]. destruct (Proto.Unmarshal (Value kv2) Volume_zero) as [v2| |]; [|done..].
  intros [= <- <- <-]. cbn. apply lookup_insert_eq.
Qed.

(** A volume that was found once is found for ever, whatever becomes of it. *)
Lemma cached_volume_stays (u name : gostring) (e e1 : etcd_md K) (v : Models.Volume) :
  with_cache u name e = (Ok v, e1) → ∀ s, (with_cache u name (mkEtcdMD K s (em_global _ e1) (em_caches _ e1))).1 = Ok v.
Proof.
  intros Hg s. unfold with_cache in *. set (c := mkClient _ _ _ _) in Hg.
  destruct (run (etcd_GetVolume name c) (em_kv K e)) as [[[v' c']| |] s1] eqn:E; [|done..]. injection Hg as <- <-. cbn.
  apply GetVolume_caches in E. rewrite lookup_insert_eq. cbn. unfold etcd_GetVolume. cbn. by rewrite E.
Qed.
End deleting.

(** ** Rings follow one another *)

Section rings.
Context {K : Type} `{EL : EtcdLaws K} `{HR : HashRingLaws} `{Range}.
Implicit Types (s : K) (r : Ring).

(** The ring in etcd. *)
Definition ring_at s : option Ring :=
  kv ← kvs (view s) !! key_ring; match ring_Unmarshal (Value kv) with Ok r => Some r | _ => None end.

(** Calls of [SetRing] with rings that can be encoded, and clients that leave the
    ring alone. *)
Inductive ring_step : K * list (prog unit) → K * list (prog unit) → Prop :=
  | R_begin s ts r : ring_ok r → marshallable r → ring_step (s, ts) (s, ts ++ [etcd_SetRing r])
  | R_request s ts i p f p' s' : ts !! i = Some p → advance f p s = (p', s') → ring_step (s, ts) (s', <[i := p']> ts)
  | R_other s ts s' : kvs (view s') !! key_ring = kvs (view s) !! key_ring → ring_step (s, ts) (s', ts).

Definition ring_swap (v : Z) (b : bytes) : Txn := mkTxn [VersionIs key_ring v] [OpPut key_ring b 0] [].

(** Where a call can be, when the ring in etcd is [r0] and has version [ver] there. *)
Inductive set_state (ver : Z) (r0 : Ring) : prog unit → Prop :=
  | T_begun r : ring_ok r → marshallable r → set_state ver r0 (etcd_SetRing r)
  | T_swap v r b (k : res TxnResponse → prog unit) :
      v ≤ ver → (v = ver → Version r = Version r0 + 1) → ring_Unmarshal b = Ok r → (∀ x, ∃ y, k x = Done y) →
      set_state ver r0 (Ask (Commit (ring_swap v b)) k)
  | T_done y : set_state ver r0 (Done y).

Definition ring_inv (st : K * list (prog unit)) : Prop :=
  ∃ kv r0, kvs (view st.1) !! key_ring = Some kv ∧ ring_Unmarshal (Value kv) = Ok r0 ∧ Forall (set_state (KVersion kv) r0) st.2.

Lemma set_state_later ver r0 ver' r1 p : ver < ver' → set_state ver r0 p → set_state ver' r1 p.
Proof. intros Hv [r Hok Hm|v r b k Hle Hr Hb Hk|y]; [by constructor|by eapply T_swap; [lia|lia|..]|constructor]. Qed.

Lemma SetRing_ask r b : ring_Marshal r = Ok b → etcd_SetRing r = Ask (Do (OpGet key_ring)) (λ x,
  prog_bind (λ old, if decide (Version old.1 ≠ Version r - 1) then Done (Err ErrNonSequentialRing)
                    else Ask (Commit (ring_swap old.2 b)) (λ y, match y with
                           | Ok resp => if Succeeded resp then Done (Ok tt) else Done (Err ErrAgain)
                           | Err e => Done (Err e)
                           | Panic => Done Panic
                           end))
    (prog_bind (λ kvs, match kvs with [] => Done (Err ErrNoGlobalMetadata)
       | (_, kv) :: _ => prog_bind (λ r, Done (Ok (r, KVersion kv))) (Done (ring_Unmarshal (Value kv))) end)
     (match x with Ok y => Done (range_of y) | Err e => Done (Err e) | Panic => Done Panic end))).
Proof. intros E. unfold etcd_SetRing. cbn. by rewrite E. Qed.

Lemma serve_ring_swap v b kv s : kvs (view s) !! key_ring = Some kv →
  ∃ x s', serve (Commit (ring_swap v b)) s = (Ok x, s') ∧
    kvs (view s') !! key_ring = Some (if decide (v = KVersion kv) then mkKV b (KVersion kv + 1) 0 else kv).
Proof.
  intros E. destruct (serve_txn (ring_swap v b) s eq_refl eq_refl) as (s' & Hv & Es). eexists _, s'. split; [exact Es|].
  cbn [ring_swap If Then Else forallb holds] in Hv. unfold version_of in Hv. rewrite E in Hv. cbn [from_option] in Hv.
  rewrite andb_true_r in Hv. rewrite Hv. destruct (decide (v = KVersion kv)) as [->|Hne].
  - rewrite bool_decide_true by done. cbn. unfold put_key, version_of. by rewrite lookup_insert_eq, E.
  - rewrite bool_decide_false by congruence. done.
Qed.

Lemma set_request kv r0 p f p' s s' :
  kvs (view s) !! key_ring = Some kv → ring_Unmarshal (Value kv) = Ok r0 → set_state (KVersion kv) r0 p →
  advance f p s = (p', s') →
  (kvs (view s') !! key_ring = Some kv ∧ set_state (KVersion kv) r0 p') ∨
  (∃ kv' r1, kvs (view s') !! key_ring = Some kv' ∧ KVersion kv < KVersion kv' ∧ ring_Unmarshal (Value kv') = Ok r1 ∧
     Version r1 = Version r0 + 1 ∧ ∃ y, p' = Done y).
Proof.
  intros E Hr0 Hst Ha. destruct Hst as [r Hok Hm|v r b k Hle Hr Hb Hk|y].
  - left. destruct (ring_roundtrip r Hok Hm) as (b & Hb & Hu). rewrite (SetRing_ask r b Hb) in Ha.
    destruct (serve_do (OpGet key_ring) s) as (s1 & Es & Hs1). unfold do_request in *. cbn in Es, Hs1. rewrite E in Es.
    destruct f as [|e|e]; cbn [advance deliver] in Ha; rewrite ?Es in Ha; cbn [snd] in Ha; injection Ha as <- <-; cbn [prog_bind range_of]; rewrite ?Hs1.
    + split; [done|]. rewrite Hr0. cbn [prog_bind fst snd]. case_decide as Hv; [constructor|]. eapply T_swap; [done|intros _|by apply Hu; lia|].
      * destruct (decide (Version r0 = Version r - 1)); [lia|done].
      * intros [resp| |]; [|by eexists..]. destruct (Succeeded resp); by eexists.
    + split; [done|constructor].
    + split; [done|constructor].
  - destruct (serve_ring_swap v b kv s E) as (x & s1 & Es & Hs1).
    assert (∀ y, (∃ z, y = Done z) → p' = y → s' = s1 →
      (kvs (view s') !! key_ring = Some kv ∧ set_state (KVersion kv) r0 p') ∨
      (∃ kv' r1, kvs (view s') !! key_ring = Some kv' ∧ KVersion kv < KVersion kv' ∧ ring_Unmarshal (Value kv') = Ok r1 ∧
        Version r1 = Version r0 + 1 ∧ ∃ y, p' = Done y)) as Hgo.
    { intros y [z ->] -> ->. rewrite Hs1. destruct (decide (v = KVersion kv)) as [->|Hne].
      - right. eexists _, r. split; [reflexivity|]. cbn. split_and!; [lia|done|by apply Hr|by eexists].
      - left. split; [done|constructor]. }
    destruct f as [|e|e]; cbn [advance deliver] in Ha; rewrite ?Es in Ha; cbn [snd] in Ha; injection Ha as <- <-;
      [by eapply Hgo| |by eapply Hgo]. left. split; [done|]. destruct (Hk (Err e)) as [y ->]. constructor.
  - injection Ha as <- <-. left. split; [done|constructor].
Qed.

(** What a step does to the ring. *)
Definition next_ring (s s' : K) : Prop :=
  kvs (view s') !! key_ring = kvs (view s) !! key_ring ∨
  ∃ r0 r1, ring_at s = Some r0 ∧ ring_at s' = Some r1 ∧ Version r1 = Version r0 + 1.

Lemma ring_keeps st st' : ring_inv st → ring_step st st' → ring_inv st' ∧ next_ring st.1 st'.1.
Proof.
  intros (kv & r0 & E & Hr0 & Hts) Hstep. destruct Hstep as [s ts r Hok Hm|s ts i p f p' s' Hi Ha|s ts s' Hs]; cbn [fst snd] in *.
  - split; [|by left]. exists kv, r0. split_and!; [done..|]. apply Forall_app. split; [done|]. apply list.Forall_singleton. by constructor.
  - pose proof (proj1 (list.Forall_lookup _ _) Hts i p Hi) as Hp.
    destruct (set_request kv r0 p f p' s s' E Hr0 Hp Ha) as [[E' Hp']|(kv' & r1 & E' & Hv & Hr1 & Hver & y & ->)].
    + split; [|left; congruence]. exists kv, r0. split_and!; [done..|]. by apply Forall_insert.
    + split.
      * exists kv', r1. split_and!; [done..|]. apply Forall_insert; [|constructor].
        eapply Forall_impl; [|exact Hts]. intros q Hq. by eapply set_state_later.
      * right. exists r0, r1. unfold ring_at. cbn [fst]. rewrite E, E'. cbn [mbind option_bind]. by rewrite Hr0, Hr1.
  - split; [|by left]. exists kv, r0. cbn. by rewrite Hs.
Qed.

(** C16: the rings that [SetRing] puts into etcd follow one another.  Whatever
    clients set rings at the same time, and whichever requests or answers are lost,
    every step leaves the ring alone or replaces it by one whose version is the next:
    no ring is overwritten by another one of the same version. *)
Theorem etcd_rings_follow (s : K) (r0 : Ring) (st st' : K * list (prog unit)) :
  ring_at s = Some r0 → rtc ring_step (s, []) st → ring_step st st' → next_ring st.1 st'.1.
Proof.
  intros Hr Hst Hstep. assert (ring_inv st) as Hi; [|by eapply ring_keeps].
  assert (ring_inv (s, [])) as Hi0.
  { unfold ring_at in Hr. destruct (kvs (view s) !! key_ring) as [kv|] eqn:E; [|done]. cbn [mbind option_bind] in Hr.
    exists kv, r0. split_and!; [done| |constructor]. by destruct (ring_Unmarshal (Value kv)); simplify_eq. }
  clear -Hst Hi0 HR. revert Hi0. induction Hst as [|st1 st2 st3 H12 H23 IH]; [done|]. intros Hi1. apply IH.
  by eapply ring_keeps.
Qed.
End rings.

(** ** Every key holds a value of its kind *)

Section typed.
Context {K : Type} `{EL : EtcdLaws K} `{HashRing} `{Range} `{Godbc} `{HG : Json GlobalMetadata} `{HS : Json Snapshot} `{!JsonLaws Snapshot}.
Implicit Types (s : K) (m : gmap bytes KeyValue).

(** An operation that puts a value of the right kind. *)
Definition op_typed (o : Op) : Prop :=
  match o with OpPut k v _ => ∃ x, ekey_ok x ∧ k = key_of x ∧ value_ok x v | _ => True end.
Definition request_typed {R} (q : Request R) : Prop :=
  match q with
  | Do o => op_typed o
  | Commit t => Forall op_typed (Then t) ∧ Forall op_typed (Else t)
  | _ => True
  end.

(** All requests of a call are of that kind, whatever comes back. *)
Inductive typed {A} : prog A → Prop :=
  | typed_done r : typed (Done r)
  | typed_ask R (q : Request R) k : request_typed q → (∀ r, typed (k r)) → typed (Ask q k).

Lemma typed_bind {A B} (p : prog A) (f : A → prog B) : typed p → (∀ a, typed (f a)) → typed (p ≫= f).
Proof.
  intros Hp Hf. induction Hp as [[a|e|]|R q k Hq Hk IH]; [apply Hf|constructor|constructor|]. cbn. by constructor.
Qed.
Lemma typed_req {R} (q : Request R) : request_typed q → typed (ask q).
Proof. intros Hq. constructor; [done|constructor]. Qed.
Lemma typed_try {A} (p : prog A) : typed p → typed (prog_try p).
Proof. induction 1 as [[a|e|]|R q k Hq Hk IH]; cbn; by constructor. Qed.

Lemma op_keeps o m : op_typed o → tidy m → tidy (do_op o m).2.
Proof.
  destruct o as [k|k|k v l|k|k]; cbn; intros Ho Ht; [done|done| |by apply tidy_delete|].
  - destruct Ho as (x & Hx & -> & Hv). by apply tidy_put.
  - intros k' kv [E _]%lookup_difference_Some. by apply Ht.
Qed.
Lemma ops_keep l : ∀ m, Forall op_typed l → tidy m → tidy (do_ops l m).2.
Proof.
  induction l as [|o l IH]; intros m Hl Ht; [done|]. apply list.Forall_cons in Hl as [Ho Hl]. cbn.
  pose proof (op_keeps o m Ho Ht) as Ht1. destruct (do_op o m) as [r m1]. specialize (IH m1 Hl Ht1).
  by destruct (do_ops l m1).
Qed.
Lemma request_keeps {R} (q : Request R) s : request_typed q → tidy (kvs (view s)) → tidy (kvs (view (serve q s).2)).
Proof.
  intros Hq Ht. destruct q as [o|t|ttl|l].
  - destruct (serve_do o s) as (s' & -> & Hs'). cbn. rewrite Hs'. unfold do_request. case_match; [|done].
    pose proof (op_keeps o _ Hq Ht). by destruct (do_op o (kvs (view s))).
  - destruct (serve_commit t s) as (s' & -> & Hs'). cbn. rewrite Hs'. unfold do_txn. destruct Hq as [HT HE].
    set (ops := if forallb (holds (kvs (view s))) (If t) then Then t else Else t).
    assert (Forall op_typed ops) as Ho by (unfold ops; by case_match). case_match; [|done].
    pose proof (ops_keep ops _ Ho Ht). by destruct (do_ops ops (kvs (view s))).
  - destruct (serve_grant ttl s) as (l & s' & -> & _ & _ & Hs'). cbn. by rewrite Hs'.
  - destruct (serve_keepalive l s) as (s' & -> & Hs'). cbn. by rewrite Hs'.
Qed.
Lemma typed_value {A B} (r : res A) (f : A → prog B) : (∀ a, r = Ok a → typed (f a)) → typed (Done r ≫= f).
Proof. destruct r; intros Hf; [by apply Hf|constructor..]. Qed.
Lemma typed_locked t : request_typed (Commit t) → typed (or_locked t).
Proof. intros Ht. apply typed_bind; [by apply typed_req|]. intros r. case_match; constructor. Qed.
Lemma typed_get k : typed (client_Get k).
Proof. apply typed_bind; [by apply typed_req|constructor]. Qed.
Lemma typed_getprefix k : typed (client_GetPrefix k).
Proof. apply typed_bind; [by apply typed_req|constructor]. Qed.
Lemma typed_put x v lease : ekey_ok x → value_ok x v → typed (client_Put (key_of x) v lease).
Proof. intros Hx Hv. apply typed_bind; [apply typed_req; by exists x|constructor]. Qed.
Lemma typed_ring : typed getRing.
Proof.
  apply typed_bind; [apply typed_get|]. intros l. destruct l as [|[k kv] l]; [constructor|].
  apply typed_value. intros r _. constructor.
Qed.
Lemma typed_modify rounds x : ekey_ok x → (∀ z, u64 z → value_ok x (Uint64ToBytes z)) → ∀ ver b, typed (modify_loop rounds (key_of x) BytesAddOne ver b).
Proof.
  intros Hx Hz. induction rounds as [|n IH]; intros ver b; [constructor|]. apply typed_value. intros [nb z] E.
  apply typed_bind.
  - apply typed_req. split; [|by repeat constructor]. apply list.Forall_singleton. exists x. split_and!; [done..|].
    unfold BytesAddOne in E. destruct (BytesToUint64 b) as [y| |]; [|done..]. injection E as <- <-. apply Hz, wrap_range; lia.
  - intros resp. case_match; [constructor|]. apply typed_value. intros kv _. apply IH.
Qed.
Lemma typed_counter rounds x : ekey_ok x → (∀ z, u64 z → value_ok x (Uint64ToBytes z)) → typed (AtomicModifyKey rounds (key_of x) BytesAddOne).
Proof.
  intros Hx Hz. apply typed_bind; [apply typed_get|]. intros [|[k kv] [|? ?]]; by apply typed_modify.
Qed.
(** What the clients call: the arguments are what the callers give, names that are
    elements of a path, numbers of 64 bits and inodes of those. *)
Inductive operation : ∀ {A}, prog A → Prop :=
  | O_global : operation getGlobalMetadata
  | O_new uuid : operation (newEtcdMetadata uuid)
  | O_GetRing : operation etcd_GetRing
  | O_RegisterPeer now lease p : plain (UUID p) → operation (etcd_RegisterPeer now lease p)
  | O_GetPeers now : operation (etcd_GetPeers now)
  | O_GetVolumes : operation etcd_GetVolumes
  | O_GetVolume name c : operation (etcd_GetVolume name c)
  | O_GetLockStatus vid : operation (GetLockStatus vid)
  | O_GetLease : operation GetLease
  | O_RenewLease lease : operation (RenewLease lease)
  | O_SetRing r : operation (etcd_SetRing r)
  | O_CommitINodeIndex rounds vid : u64 vid → operation (etcd_CommitINodeIndex rounds vid)
  | O_NewVolumeID rounds : operation (etcd_NewVolumeID rounds)
  | O_GetINodeIndex vid : operation (etcd_GetINodeIndex vid)
  | O_init g ringType : operation (initEtcdMetadata g ringType)
  | O_wipe : operation wipeEtcdMetadata
  | O_setRing r : operation (setRing r)
  | O_CreateBlockVolume v : plain (VName v) → 0 ≤ VId v < VolumeMax → operation (etcd_CreateBlockVolume v)
  | O_DeleteVolume name vid : operation (etcd_DeleteVolume name vid)
  | O_Lock uuid lease vid : uuid ≠ [] → u64 vid → operation (etcd_Lock uuid lease vid)
  | O_GetINode vid : operation (etcd_GetINode vid)
  | O_SyncINode uuid i : wf_inoderef i → operation (etcd_SyncINode uuid i)
  | O_Unlock uuid vid : operation (etcd_Unlock uuid vid)
  | O_SaveSnapshot rounds now vid name : u64 vid → plain name → (∀ w b, json_valid (mkSnapshot name w b)) →
      operation (etcd_SaveSnapshot rounds now vid name)
  | O_GetSnapshots vid : operation (etcd_GetSnapshots vid)
  | O_DeleteSnapshot vid name : operation (etcd_DeleteSnapshot vid name).

(** The rest of a proof that the requests of a call are typed, when those that are
    left only read or delete. *)
Ltac typed_reads := repeat first
  [ apply typed_done | apply typed_get | apply typed_getprefix | apply typed_ring | apply typed_try
  | apply typed_value; intros ? _ | apply typed_bind; [|intros ?] | apply typed_req; done
  | apply typed_req; cbn; split; repeat constructor; done
  | apply typed_locked; cbn; split; repeat constructor; done
  | case_match ].

Lemma ring_typed r b : ring_Marshal r = Ok b → op_typed (OpPut key_ring b 0).
Proof. intros E. exists KRing. split_and!; [done..|by exists r]. Qed.
Lemma typed_SetRing r : typed (etcd_SetRing r).
Proof.
  apply typed_bind; [apply typed_ring|]. intros [r0 ver]. case_decide; [constructor|]. apply typed_value. intros b E.
  apply typed_bind; [|intros; case_match; constructor]. apply typed_req. split; [|done].
  apply list.Forall_singleton. by eapply ring_typed.
Qed.
Lemma typed_setRing r : typed (setRing r).
Proof.
  apply typed_bind; [apply typed_ring|]. intros [r0 ver]. case_decide; [constructor|]. apply typed_value. intros b E.
  apply (typed_put KRing); [done|by exists r].
Qed.
Lemma typed_RegisterPeer now lease p : plain (UUID p) → typed (etcd_RegisterPeer now lease p).
Proof.
  intros Hp. unfold etcd_RegisterPeer. case_decide; [constructor|]. apply typed_value. intros b E.
  apply typed_bind; [|constructor]. apply (typed_put (KNode (UUID p))); [done|]. eexists. split; [|exact E]. done.
Qed.
Lemma typed_init g ringType : typed (initEtcdMetadata g ringType).
Proof.
  apply typed_value. intros gb Hg. apply typed_value. intros r Hr. apply typed_value. intros rb Hrb. apply typed_bind.
  - apply typed_req. split; [|done]. repeat (apply list.Forall_cons; split); [..|done].
    + exists KMinter. split_and!; [done..|]. exists 1. split; [unfold in_width; lia|done].
    + exists KGlobal. split_and!; [done..|by exists g].
  - intros resp. case_match; [|constructor]. apply (typed_put KRing); [done|by exists r].
Qed.
Lemma typed_CreateBlockVolume v : plain (VName v) → 0 ≤ VId v < VolumeMax → typed (etcd_CreateBlockVolume v).
Proof.
  intros Hn Hv. assert (u64 (VId v)) as Hw by (unfold VolumeMax, in_width in *; lia).
  apply typed_value. intros vb Hvb. apply typed_value. rewrite NewINodeRef_small by done. intros i [= <-].
  apply typed_bind; [|intros; case_match; constructor].
  apply typed_req. split; [|done]. repeat (apply list.Forall_cons; split); [..|done].
  - exists (KVolume (VName v)). split_and!; [done..|by exists (VId v)].
  - exists (KVolumeId (VId v)). split_and!; [done..|by exists v].
  - exists (KInode (VId v)). split_and!; [done..|]. exists 1. split; [unfold in_width; lia|done].
  - exists (KBlockInode (VId v)). split_and!; [done..|]. exists (mkINodeRef (VId v) 1).
    split_and!; [unfold wf_inoderef, in_width, VolumeMax in *; cbn; lia| |done]. unfold Refs.Volume. cbn.
    by apply land_VolumeMax.
Qed.
Lemma typed_SaveSnapshot rounds now vid name :
  u64 vid → plain name → (∀ w b, json_valid (mkSnapshot name w b)) → typed (etcd_SaveSnapshot rounds now vid name).
Proof.
  intros Hv Hn Hj. induction rounds as [|n IH]; [constructor|]. apply typed_bind; [apply typed_req; split; repeat constructor|].
  intros resp. case_match; [|constructor]. apply typed_value. intros v _. apply typed_value. intros b E.
  apply typed_bind; [|intros; case_match; [constructor|apply IH]]. apply typed_req. split; [|done].
  apply list.Forall_singleton. exists (KSnap vid name). split_and!; [done..|].
  destruct (json_roundtrip _ (Hj (now n) (Value v))) as (b' & E' & HU). rewrite E in E'. injection E' as <-. by eexists.
Qed.

Lemma typed_writes :
  (∀ uuid lease vid, uuid ≠ [] → u64 vid → typed (etcd_Lock uuid lease vid)) ∧
  (∀ uuid i, wf_inoderef i → typed (etcd_SyncINode uuid i)).
Proof.
  split.
  - intros uuid lease vid Hu Hv. unfold etcd_Lock. case_decide; [constructor|]. apply typed_locked. split; [|done].
    apply list.Forall_singleton. by exists (KLock vid).
  - intros uuid i Hi. apply typed_locked. split; [|done]. apply list.Forall_singleton.
    exists (KBlockInode (Refs.Volume i)). split_and!; [|done|by exists i].
    cbn [ekey_ok]. rewrite Volume_mod. unfold in_width. pose proof (Z.mod_pos_bound (Refs.volume i) (2 ^ 40)). lia.
Qed.

Lemma operation_typed {A} (p : prog A) : operation p → typed p.
Proof.
  destruct 1; try by typed_reads.
  - by apply typed_RegisterPeer.
  - unfold etcd_GetVolume. typed_reads.
  - apply typed_SetRing.
  - apply (typed_counter rounds (KInode vid)); [done|]. intros z Hz. by exists z.
  - apply (typed_counter rounds KMinter); [done|]. intros z Hz. by exists z.
  - apply typed_init.
  - apply typed_setRing.
  - by apply typed_CreateBlockVolume.
  - by apply typed_writes.
  - by apply typed_writes.
  - by apply typed_SaveSnapshot.
Qed.

(** Calls of any kind, begun at any time by any client and carried on one request at
    a time, with requests and answers lost on the way, while leases end; what they
    return is left out. *)
Inductive service_step : K * list (prog unit) → K * list (prog unit) → Prop :=
  | V_begin s ts A (p : prog A) : operation p → service_step (s, ts) (s, ts ++ [_ ← p; mret tt])
  | V_request s ts i p f p' s' : ts !! i = Some p → advance f p s = (p', s') →
      service_step (s, ts) (s', <[i := p']> ts)
  | V_expire s ts l s' : view s' = expire l (view s) → service_step (s, ts) (s', ts).

Lemma advance_typed {A} (p : prog A) f s p' s' :
  typed p → advance f p s = (p', s') → tidy (kvs (view s)) → typed p' ∧ tidy (kvs (view s')).
Proof.
  intros [r|R q k Hq Hk] Ha Ht; cbn [advance] in Ha.
  { injection Ha as <- <-. split; [constructor|done]. }
  pose proof (request_keeps q s Hq Ht) as Hs.
  destruct f as [|e|e]; cbn [deliver] in Ha; [destruct (serve q s) as [r s1]|..]; injection Ha as <- <-; split; done.
Qed.

Definition service_typed (st : K * list (prog unit)) : Prop := tidy (kvs (view st.1)) ∧ Forall typed st.2.
Lemma service_step_typed st st' : service_step st st' → service_typed st → service_typed st'.
Proof.
  intros [s ts A p Hp|s ts i p f p' s' Hi Ha|s ts l s' Hx] [Ht Hts]; cbn [fst snd] in *.
  - split; [done|]. apply Forall_app_2; [done|]. apply list.Forall_singleton.
    apply typed_bind; [by apply operation_typed|constructor].
  - pose proof (proj1 (list.Forall_lookup _ _) Hts i p Hi) as Hp.
    destruct (advance_typed p f s p' s' Hp Ha Ht) as [Hp' Ht']. split; [done|]. by apply Forall_insert.
  - split; [|done]. cbn. rewrite Hx. by apply tidy_expire.
Qed.

(** C8: what is kept in etcd is well typed at all times, when the names that make keys
    are plain.  The calls are those of [operation]: every call of the service, where the
    UUIDs of peers and the names of new volumes and snapshots are plain path elements (not
    empty, no slash, neither . nor ..), the numbers have 64 bits, those of new volumes less
    than the maximum, a lock has a holder, and a snapshot's name survives JSON.  However
    their requests interleave, whichever requests or answers are lost and whenever leases
    end, every key in etcd is one of the program's, and its value is an encoding of what
    belongs under that key: a ring, a peer of that name, a number of 64 bits, a volume of
    that number, an inode of that volume, a snapshot of that name, or the name of a lock's
    holder. *)
Theorem etcd_well_typed (s : K) (st : K * list (prog unit)) :
  tidy (kvs (view s)) → rtc service_step (s, []) st → tidy (kvs (view st.1)).
Proof.
  intros Ht Hst. assert (service_typed (s, [])) as Hs by (split; [done|constructor]).
  revert Hs. induction Hst as [|x y z Hxy _ IH]; intros Hx; [apply Hx|]. apply IH. by eapply service_step_typed.
Qed.
End typed.

(** ** The contract *)

(** C7: the volumes in etcd satisfy the contract of the metadata service.  With etcd
    behaving as documented, each call on a volume that exists (locking, unlocking,
    reading and syncing its inode, and the snapshots) answers as the data of that
    volume says, changes that data alone, and leaves all other volumes as they are;
    so what is proved of block volumes against the contract holds over etcd. *)
Theorem etcd_meets_contract {K : Type} `{EL : EtcdLaws K} `{HashRing} `{Range} `{Godbc} `{HG : Json GlobalMetadata} `{HS : Json Snapshot} `{!JsonLaws Snapshot} :
  BlockMetadataLaws (etcd_md K).
Proof. apply etcd_laws. Qed.

(** ** Examples *)

#[local] Existing Instance map_range.
#[local] Existing Instance fixed_ring.
#[local] Existing Instance fixed_ring_laws.
#[local] Instance no_preconditions : Godbc := {| Require := λ _, Ok tt; Require_true := eq_refl |}.

(** An encoding of snapshots that can be read back. *)
Fixpoint enc_pos (p : positive) : bytes :=
  match p with xH => [x02] | xO p' => x00 :: enc_pos p' | xI p' => x01 :: enc_pos p' end.
Fixpoint dec_pos (b : bytes) : option (positive * bytes) :=
  match b with
  | x00 :: b' => '(p, r) ← dec_pos b'; Some (xO p, r)
  | x01 :: b' => '(p, r) ← dec_pos b'; Some (xI p, r)
  | x02 :: b' => Some (xH, b')
  | _ => None
  end.
Lemma dec_enc_pos p r : dec_pos (enc_pos p ++ r) = Some (p, r).
Proof. induction p as [p IH|p IH|]; cbn; rewrite ?IH; done. Qed.

Definition snap_enc (s : Snapshot) : bytes :=
  enc_pos (encode (When s)) ++ enc_pos (Pos.of_succ_nat (length (SName s))) ++ SName s ++ SINodeRef s.
Definition snap_dec (b : bytes) : res Snapshot :=
  match dec_pos b with
  | Some (w, b1) =>
      match dec_pos b1, decode w with
      | Some (n, b2), Some w =>
          let k := pred (Pos.to_nat n) in Ok (mkSnapshot (take k b2) w (drop k b2))
      | _, _ => Err ErrInvalid
      end
  | None => Err ErrInvalid
  end.
#[local] Instance snap_Json : Json Snapshot := {| json_Marshal s := Ok (snap_enc s); json_Unmarshal := snap_dec |}.
#[local] Instance snap_JsonLaws : JsonLaws Snapshot.
Proof.
  refine {| json_valid := λ _, True |}. intros [n w b] _. eexists. split; [reflexivity|]. cbn. unfold snap_dec, snap_enc. cbn.
  rewrite !dec_enc_pos, decode_encode, SuccNat2Pos.pred_id. by rewrite take_app_length, drop_app_length.
Defined.

(** The global metadata are not read here. *)
#[local] Instance no_global_Json : Json GlobalMetadata := {| json_Marshal _ := Ok []; json_Unmarshal _ := Err ErrInvalid |}.

(** Volume 32, locked by client [a], in an etcd with the lease 7. *)
Definition ex_ino : INodeRef := mkINodeRef 32 4.
Definition ex_keys : gmap bytes KeyValue :=
  put_key (key_of KMinter) (Uint64ToBytes 32) 0 (put_key (key_of (KInode 32)) (Uint64ToBytes 5) 0
    (put_key (key_of (KBlockInode 32)) (INodeRef_ToBytes ex_ino) 0 (put_key (key_of (KLock 32)) [x61] 7 ∅))).
Definition ex_etcd : estore := mkEStore ex_keys {[7]}.
Definition ex_md : etcd_md estore := mkEtcdMD estore ex_etcd (mkGlobal 16 []) ∅.

Lemma ex_tidy : tidy ex_keys.
Proof.
  assert (u64 32) as H32 by (unfold in_width; lia).
  unfold ex_keys. repeat apply tidy_put; try done.
  - exists ex_ino. split_and!; [unfold wf_inoderef, u64, in_width; cbn; lia|done|done].
  - exists 5. split; [unfold in_width; lia|done].
  - exists 32. done.
Qed.

Lemma ex_volume : vol_data 32 ex_md = Some (mkVData [x61] ex_ino ∅).
Proof. vm_compute. reflexivity. Qed.

Lemma etcd_meets_contract_witness :
  ∃ e1 e2, bm_Lock [x62] 7 32 ex_md = (Err ErrLocked, e1) ∧ vol_data 32 e1 = Some (mkVData [x61] ex_ino ∅) ∧
    bm_Unlock [x61] 32 ex_md = (Ok tt, e2) ∧ vol_data 32 e2 = Some (mkVData [] ex_ino ∅).
Proof.
  pose proof (etcd_meets_contract (K := estore)) as L. assert (u64 32) as H32 by (unfold in_width; lia).
  destruct (@lock_law _ _ _ L [x62] 7 32 ex_md _ ex_tidy H32 ltac:(done) ltac:(split; [done|set_solver]) ex_volume) as [e1 [H1 B1]].
  destruct (@unlock_law _ _ _ L [x61] 32 ex_md _ ex_tidy H32 ltac:(done) ex_volume) as [e2 [H2 B2]].
  exists e1, e2. split_and!; [exact H1|apply (b_here _ _ _ _ B1)|exact H2|apply (b_here _ _ _ _ B2)].
Defined.

(** The next request of call [i]. *)
Definition next_request {A} (i : nat) (st : estore * list (prog A)) : estore * list (prog A) :=
  match st.2 !! i with
  | Some p => let '(p', s') := advance Answered p st.1 in (s', <[i := p']> st.2)
  | None => st
  end.
Definition outcome {A} (p : prog A) : option (res A) := match p with Done r => Some r | _ => None end.

Lemma next_counter key i (st : estore * list (prog Z)) :
  is_Some (st.2 !! i) → counter_step key st (next_request i st).
Proof.
  intros [p Hp]. unfold next_request. rewrite Hp. destruct st as [s ts]. cbn in *.
  destruct (advance Answered p s) as [p' s'] eqn:E. by eapply C_request.
Qed.
Lemma next_length {A} i (st : estore * list (prog A)) : length (next_request i st).2 = length st.2.
Proof.
  unfold next_request. destruct (st.2 !! i) as [p|]; [|done]. destruct (advance Answered p st.1). apply length_insert.
Qed.

(** Two clients ask for a volume number at the same time: the slower one tries again. *)
Definition ex_calls : estore * list (prog Z) := (ex_etcd, [etcd_NewVolumeID 3; etcd_NewVolumeID 3]).
Definition ex_after : estore * list (prog Z) := foldl (λ st i, next_request i st) ex_calls [0; 1; 0; 1; 1]%nat.

Lemma ex_after_steps : nsteps (counter_step key_minter) 7 (ex_etcd, []) ex_after.
Proof.
  apply (nsteps_l _ 6 _ (ex_etcd, [etcd_NewVolumeID 3])); [apply (C_begin key_minter ex_etcd [] 3)|].
  apply (nsteps_l _ 5 _ ex_calls); [apply (C_begin key_minter ex_etcd [etcd_NewVolumeID 3] 3)|].
  assert (∀ l st, Forall (λ i, i < length st.2)%nat l → nsteps (counter_step key_minter) (length l) st (foldl (λ st i, next_request i st) st l)) as Hl.
  { induction l as [|i l IH]; intros st Hl; [constructor|]. apply list.Forall_cons in Hl as [Hi Hl]. cbn [length foldl].
    eapply nsteps_l; [apply next_counter; by apply lookup_lt_is_Some|]. apply IH.
    eapply Forall_impl; [|exact Hl]. intros j Hj. by rewrite next_length. }
  apply (Hl [0; 1; 0; 1; 1]%nat). repeat constructor.
Qed.
Lemma ex_after_outcomes : outcome <$> ex_after.2 = [Some (Ok 33); Some (Ok 34)].
Proof. vm_compute. reflexivity. Qed.

Lemma ex_minter : kvs (view ex_etcd) !! key_minter = Some (mkKV (Uint64ToBytes 32) 1 0).
Proof. vm_compute. reflexivity. Qed.

Lemma etcd_ids_unique_witness :
  outcome <$> ex_after.2 = [Some (Ok 33); Some (Ok 34)] ∧ ∀ p, ex_after.2 !! 1%nat = Some p → p ≠ Done Panic.
Proof.
  split; [exact ex_after_outcomes|]. intros p Hp.
  destruct ex_after as [s' ts] eqn:E. pose proof ex_after_steps as Hs. rewrite E in Hs.
  apply (etcd_ids_unique key_minter 32 _ ex_etcd s' ts 7 ex_minter eq_refl ltac:(cbn; lia) ltac:(lia) ltac:(lia) Hs 1%nat p Hp).
Defined.

(** Another client puts a number before the first two requests of the call. *)
Definition ex_others (i : nat) (s : estore) : estore :=
  if decide (i < 2)%nat then mkEStore (put_key key_minter (Uint64ToBytes 40) 0 (kvs s)) (leases s) else s.

Lemma ex_others_ok i s : counter_at key_minter s → counter_at key_minter (ex_others i s).
Proof.
  intros Hc. unfold ex_others. case_decide; [|done]. exists 40. eexists. split; [apply lookup_insert_eq|].
  unfold in_width. cbn. split; [done|lia].
Qed.

Lemma etcd_modify_returns_witness :
  ∃ a s', run_among ex_others 0 (AtomicModifyKey 2 key_minter BytesAddOne) ex_etcd = (Ok a, s').
Proof.
  apply (etcd_modify_returns key_minter ex_others 2 2 ex_etcd); [|apply ex_others_ok|lia|done].
  exists 32. eexists. split; [exact ex_minter|]. unfold in_width. cbn. split; [done|lia].
Defined.

(** Deleting volume 2 takes volume 32, which client [a] has locked. *)
Lemma delete_takes_other_volumes_witness :
  vol_at 32 (kvs ex_etcd) = Some (mkVData [x61] ex_ino ∅) ∧
  ∃ s', run (etcd_DeleteVolume [x78] 2) ex_etcd = (Ok tt, s') ∧ vol_at 32 (kvs s') = None ∧
    (run (etcd_CommitINodeIndex 1 32) s').1 = Panic.
Proof.
  split; [exact ex_volume|].
  destruct (delete_takes_other_volumes (EL := estore_Laws) ex_etcd [x78] 2 32 1 ex_tidy ltac:(by_compute) ltac:(unfold in_width; lia) ltac:(unfold in_width; lia)
    ltac:(by_compute) ltac:(vm_compute; reflexivity) ltac:(lia)) as (s' & H1 & H2 & _ & _ & H3).
  exists s'. split; [exact H1|]. split; [exact H2|exact H3].
Defined.

(** *** Rings *)

Definition ring_store (r : Ring) : estore :=
  mkEStore (put_key key_ring (match ring_Marshal r with Ok b => b | _ => [] end) 0 ∅) ∅.

(** Two clients set the second ring at the same time. *)
Definition ex_rings (set : Ring → prog unit) : estore * list (prog unit) :=
  foldl (λ st i, next_request i st) (ring_store (empty 1), [set (empty 2); set (mod_ 2 1 [])]) [0; 1; 0; 1]%nat.

Lemma SetRing_refuses :
  outcome <$> (ex_rings etcd_SetRing).2 = [Some (Ok tt); Some (Err ErrAgain)] ∧
  ring_at (ex_rings etcd_SetRing).1 = Some (empty 2).
Proof. split; vm_compute; reflexivity. Qed.

(** The function behind the command line does not compare: both calls succeed, and
    the ring set first is gone, replaced by another one of the same version. *)
Lemma setRing_overwrites :
  outcome <$> (ex_rings setRing).2 = [Some (Ok tt); Some (Ok tt)] ∧
  ring_at (ex_rings setRing).1 = Some (mod_ 2 1 []).
Proof. split; vm_compute; reflexivity. Qed.

Lemma next_ring_step (st : estore * list (prog unit)) : is_Some (st.2 !! 0%nat) → ring_step st (next_request 0 st).
Proof.
  intros [p Hp]. unfold next_request. destruct st as [s ts]. cbn in *. rewrite Hp.
  destruct (advance Answered p s) as [p' s'] eqn:E. by eapply R_request.
Qed.

Definition ex_set0 : estore * list (prog unit) := (ring_store (empty 1), [etcd_SetRing (empty 2)]).
Definition ex_set1 : estore * list (prog unit) := next_request 0 ex_set0.
Definition ex_set2 : estore * list (prog unit) := next_request 0 ex_set1.

Lemma ex_set_steps : rtc ring_step (ring_store (empty 1), []) ex_set1 ∧ ring_step ex_set1 ex_set2.
Proof.
  assert (marshallable (empty 2)) as Hm.
  { unfold marshallable, Ring_valid, short_entries, short. split_and!; try by_compute. constructor. }
  split.
  - eapply rtc_l; [apply (R_begin (ring_store (empty 1)) [] (empty 2) I Hm)|]. apply rtc_once, (next_ring_step ex_set0). by eexists.
  - apply (next_ring_step ex_set1), lookup_lt_is_Some. unfold ex_set1. rewrite next_length. cbn. lia.
Qed.
Lemma ex_set_ring : ring_at (ring_store (empty 1)) = Some (empty 1).
Proof. vm_compute. reflexivity. Qed.

Lemma etcd_rings_follow_witness : next_ring ex_set1.1 ex_set2.1.
Proof.
  destruct ex_set_steps as [H1 H2]. exact (etcd_rings_follow (ring_store (empty 1)) (empty 1) ex_set1 ex_set2 ex_set_ring H1 H2).
Defined.

(** A volume is created, and the answer is lost. *)
Definition ex_create : prog unit := _ ← etcd_CreateBlockVolume (mkVolume [x62] 33 [] 4096); mret tt.
Definition ex_created : prog unit * estore := advance (Unanswered ErrInvalid) ex_create ex_etcd.

Lemma ex_created_key : kvs ex_created.2 !! key_volume [x62] = Some (mkKV (Uint64ToBytes 33) 1 0).
Proof. vm_compute. reflexivity. Qed.

Lemma etcd_well_typed_witness :
  tidy (kvs ex_created.2) ∧ kvs ex_created.2 !! key_volume [x62] = Some (mkKV (Uint64ToBytes 33) 1 0).
Proof.
  split; [|exact ex_created_key]. apply (etcd_well_typed (EL := estore_Laws) ex_etcd (ex_created.2, [ex_created.1]) ex_tidy).
  eapply rtc_l; [apply (V_begin ex_etcd [] _ (etcd_CreateBlockVolume (mkVolume [x62] 33 [] 4096)))|].
  - apply O_CreateBlockVolume; [by_compute|cbn; unfold VolumeMax; lia].
  - apply rtc_once. apply (V_request ex_etcd [ex_create] 0 ex_create (Unanswered ErrInvalid)); [done|apply surjective_pairing].
Defined.
