(* ===== verification/Admin.v ===== *)
(** * The commands that change the ring

    Models the actions of [src/cmd/torusctl/peer.go] and [ring.go], without the parsing
    of flags, and what they guarantee when several of them, and other clients, work on
    the same etcd.  A command that dies is an error with its message. *)
From S2P Require Import Prelude GoSem GoStrings Refs TempStore Store Crc32 Blockset Proto Models INodeStore File Ring RingSpec Metadata EtcdKeys Etcd EtcdSpec EtcdProps.

Section admin.
Context `{HashRing} `{Range} `{Godbc} `{Json GlobalMetadata} `{Json Snapshot}.

Definition die {A} (why : string) : prog A := Done (Err (ErrMsg why)).
Definition or_die {A} (why : string) (p : prog A) : prog A :=
  r ← prog_try p; match r with inl a => mret a | inr _ => die why end.

(** ** Adding and removing peers *)

(** The peers of the service that an argument names, by address or by UUID. *)
Fixpoint union_named (arg : gostring) (peers out : PeerInfoList) (found : bool) : PeerInfoList * bool :=
  match peers with
  | [] => (out, found)
  | p :: peers' =>
      if decide (Address p ≠ []) then
        if decide (Address p = arg ∨ UUID p = arg) then union_named arg peers' (info_Union out [p]) true
        else union_named arg peers' out found
      else union_named arg peers' out found
  end.

Fixpoint named_peers (force : bool) (args : list gostring) (peers out : PeerInfoList) : res PeerInfoList :=
  match args with
  | [] => Ok out
  | arg :: args' =>
      let '(out, found) := union_named arg peers out false in
      if found then named_peers force args' peers out
      else if force then named_peers force args' peers (info_Union out [mkPeerInfo arg [] 0 0 0 false None 0])
      else Err (ErrMsg "peer not currently healthy. To remove, use `--force`")
  end.

Fixpoint addressed_peers (peers out : PeerInfoList) : PeerInfoList :=
  match peers with
  | [] => out
  | p :: peers' => addressed_peers peers' (if decide (Address p ≠ []) then info_Union out [p] else out)
  end.

(** [newPeers] is what the action has afterwards. *)
Definition peerChangePreRun (now : Z) (allPeers force : bool) (args : list gostring) : prog PeerInfoList :=
  if allPeers && bool_decide (args ≠ []) then die "can't have both --all-peers and a list of peers"
  else
    peers ← or_die "couldn't get peer list" (etcd_GetPeers now);
    out ← Done (named_peers force args peers []);
    mret (if allPeers then addressed_peers peers out else out).

(** A changed ring is put back; [None] is a ring of a type that cannot change so. *)
Definition put_changed (unsupported failed : string) (newRing : option (res Ring)) : prog unit :=
  match newRing with
  | None => die unsupported
  | Some r => r ← or_die failed (Done r); or_die "couldn't set new ring" (etcd_SetRing r)
  end.

Definition peerAddAction (allPeers : bool) (args : list gostring) (newPeers : PeerInfoList) : prog unit :=
  if negb allPeers && bool_decide (args = []) then die "need to specify one of peer's address, uuid or --all-peers"
  else
    currentRing ← or_die "couldn't get ring" etcd_GetRing;
    put_changed "current ring type cannot support adding" "couldn't add peer to ring" (AddPeers newPeers currentRing).

Definition peerRemoveAction (newPeers : PeerInfoList) : prog unit :=
  currentRing ← or_die "couldn't get ring" etcd_GetRing;
  put_changed "current ring type cannot support removal" "couldn't remove peer from ring"
    (RemovePeers (peer_list newPeers) currentRing).

(** ** Changing the ring *)

Definition ringChangeReplicationAction (amount : string) : prog unit :=
  match Atoi amount with
  | None => die "not an integer number of replicas"
  | Some n =>
      currentRing ← or_die "couldn't get ring" etcd_GetRing;
      put_changed "current ring type cannot support changing the replication amount" "couldn't change replication amount"
        (ChangeReplication n currentRing)
  end.

(** The peers that have an address, once for each time they are named. *)
Definition ring_peers (uuids : list gostring) (currentPeers : PeerInfoList) : PeerInfoList :=
  concat ((λ p, if decide (Address p = []) then [] else (λ _, p) <$> filter (λ x, UUID p = x) uuids) <$> currentPeers).

Definition ringChangePreRun (now : Z) (ringType : string) (allUUIDs : bool) (uuids : list gostring) : prog PeerInfoList :=
  r ← prog_try (etcd_GetPeers now);
  uuids ← (if allUUIDs then
             if decide (uuids ≠ []) then die "use only one of --uuids or --all-peers"
             else match r with inr _ => die "couldn't get peer list" | inl currentPeers => mret (peer_list currentPeers) end
           else mret uuids);
  let peers := match r with inl currentPeers => ring_peers uuids currentPeers | inr _ => [] end in
  if decide (ringType = "empty")%string then mret peers
  else if decide (ringType = "single")%string then
    if decide (length peers ≠ 1%nat) then die "single needs one peer (use --uuids)" else mret peers
  else if decide (ringType = "mod" ∨ ringType = "ketama")%string then mret peers
  else die "invalid ring type".

Definition ringChangeAction (ringType : string) (repFactor : Z) (peers : PeerInfoList) : prog unit :=
  currentRing ← or_die "couldn't get ring" etcd_GetRing;
  let version := wrap 32 (Version currentRing + 1) in
  m ← (if decide (ringType = "empty")%string then mret (mkMRing REmpty version 0 [] ∅)
       else if decide (ringType = "single")%string then mret (mkMRing RSingle version 0 peers ∅)
       else if decide (ringType = "mod")%string then mret (mkMRing RMod version (wrap 32 repFactor) peers ∅)
       else if decide (ringType = "ketama")%string then mret (mkMRing RKetama version (wrap 32 repFactor) peers ∅)
       else Done Panic);
  newRing ← or_die "couldn't create new ring" (Done (CreateRing ring_Unmarshal m));
  or_die "couldn't set new ring" (setRing newRing).

(** ** The peers that are chosen *)

Lemma info_Union_one pi p : info_Union pi [p] = if decide (UUID p ∈ peer_list pi) then pi else pi ++ [p].
Proof.
  rewrite info_Union_filter, filter_cons, filter_nil. repeat case_decide; try done. by rewrite app_nil_r.
Qed.
Lemma union_NoDup pi p : NoDup (peer_list pi) → NoDup (peer_list (info_Union pi [p])).
Proof.
  intros Hn. rewrite info_Union_one. case_decide as Hin; [done|]. unfold peer_list. rewrite fmap_app.
  apply list.NoDup_app. split_and!; [done| |apply NoDup_singleton]. intros x Hx ->%list_elem_of_singleton. by apply Hin.
Qed.
Lemma elem_of_union pi p q : q ∈ info_Union pi [p] → q ∈ pi ∨ q = p.
Proof. rewrite info_Union_one. case_decide; [by left|]. intros [?|?%list_elem_of_singleton]%elem_of_app; [by left|by right]. Qed.
Lemma union_has pi p u : u ∈ peer_list pi ∨ u = UUID p → u ∈ peer_list (info_Union pi [p]).
Proof.
  rewrite info_Union_one. case_decide; intros [?| ->]; try done; unfold peer_list; rewrite fmap_app, elem_of_app; [by left|right; by left].
Qed.

(** An argument that stands for a peer of the service. *)
Definition names (arg : gostring) (p : PeerInfo) : Prop := Address p ≠ [] ∧ (Address p = arg ∨ UUID p = arg).

Lemma union_named_spec arg peers : ∀ out found, NoDup (peer_list out) →
  let '(out', found') := union_named arg peers out found in
  NoDup (peer_list out') ∧ (∀ p, p ∈ out' → p ∈ out ∨ p ∈ peers ∧ names arg p) ∧
  (∀ u, u ∈ peer_list out → u ∈ peer_list out') ∧
  (found' = true → found = true ∨ ∃ p, p ∈ peers ∧ names arg p ∧ UUID p ∈ peer_list out').
Proof.
  induction peers as [|p peers IH]; intros out found Hn; cbn; [split_and!; [done|by left|done|by left]|].
  assert (∀ out2 found2, NoDup (peer_list out2) → (∀ q, q ∈ out2 → q ∈ out ∨ q = p ∧ names arg p) →
    (∀ u, u ∈ peer_list out → u ∈ peer_list out2) → (found2 = true → found = true ∨ names arg p ∧ UUID p ∈ peer_list out2) →
    let '(out', found') := union_named arg peers out2 found2 in
    NoDup (peer_list out') ∧ (∀ q, q ∈ out' → q ∈ out ∨ q ∈ p :: peers ∧ names arg q) ∧
    (∀ u, u ∈ peer_list out → u ∈ peer_list out') ∧
    (found' = true → found = true ∨ ∃ q, q ∈ p :: peers ∧ names arg q ∧ UUID q ∈ peer_list out')) as Hgo.
  { intros out2 found2 Hn2 Hin Hkeep Hfound. specialize (IH out2 found2 Hn2). destruct (union_named arg peers out2 found2) as [out' found'].
    destruct IH as (Hn' & Hin' & Hkeep' & Hf'). split_and!; [done| |by eauto|].
    - intros q [[?|[-> ?]]%Hin|[? ?]]%Hin'; [by left|right; split; [by left|done]|right; split; [by right|done]].
    - intros [[?|[? ?]]%Hfound|(q & ? & ? & ?)]%Hf'; [by left|right; exists p; split_and!; [by left|done|by eauto]|].
      right. exists q. split_and!; [by right|done|done]. }
  case_decide as Ha; [case_decide as Hm|].
  - apply Hgo; [by apply union_NoDup| |by intros u Hu; apply union_has; left|intros _; right; split; [done|apply union_has; by right]].
    intros q [?| ->]%elem_of_union; [by left|by right].
  - apply Hgo; [done|by left|done|by left].
  - apply Hgo; [done|by left|done|by left].
Qed.

(** The peers chosen are distinct, every argument stands for one of them, and without
    [--force] all of them are peers of the service that have an address. *)
Lemma named_peers_spec force args peers : ∀ out out', NoDup (peer_list out) → named_peers force args peers out = Ok out' →
  NoDup (peer_list out') ∧ (∀ u, u ∈ peer_list out → u ∈ peer_list out') ∧
  (∀ arg, arg ∈ args → arg ∈ peer_list out' ∨ ∃ p, p ∈ peers ∧ names arg p ∧ UUID p ∈ peer_list out') ∧
  (force = false → ∀ p, p ∈ out' → p ∈ out ∨ p ∈ peers ∧ Address p ≠ []).
Proof.
  induction args as [|arg args IH]; intros out out' Hn E; cbn in E.
  { injection E as <-. split_and!; [done|done|by intros ? ?%elem_of_nil|by left]. }
  pose proof (union_named_spec arg peers out false Hn) as Hu. destruct (union_named arg peers out false) as [out1 found].
  destruct Hu as (Hn1 & Hin1 & Hk1 & Hf1). destruct found; [|destruct force; [|done]].
  - destruct (IH out1 out' Hn1 E) as (Hn' & Hk' & Ha' & Hin'). split_and!; [done|by eauto| |].
    + intros a [->|?]%elem_of_cons; [|by apply Ha']. destruct Hf1 as [?|(p & ? & ? & ?)]; [done..|]. right. exists p. by eauto.
    + intros Hf p [[?|[? [? _]]]%Hin1|?]%Hin'; [by left|by right|by right|done].
  - destruct (IH (info_Union out1 [mkPeerInfo arg [] 0 0 0 false None 0]) out') as (Hn' & Hk' & Ha' & Hin'); [by apply union_NoDup|done|].
    split_and!; [done| | |done].
    + intros u Hu. apply Hk', union_has. left. by apply Hk1.
    + intros a [->|?]%elem_of_cons; [|by apply Ha']. left. apply Hk', union_has. by right.
Qed.
End admin.

(** ** Commands at the same time *)

Section serial.
Context {K : Type} `{EL : EtcdLaws K} `{HL : HashRingLaws} `{HR : Range} `{Godbc} `{Json GlobalMetadata} `{Json Snapshot}.
Implicit Types (s : K) (c : change).

(** What other clients do to the ring meanwhile: it stays, or a later one of a higher
    version takes its place. *)
Definition moves s s' : Prop :=
  ∀ kv, kvs (view s) !! key_ring = Some kv → ∃ kv', kvs (view s') !! key_ring = Some kv' ∧
    (kv' = kv ∨ KVersion kv < KVersion kv' ∧ ∃ r r', ring_Unmarshal (Value kv) = Ok r ∧ ring_Unmarshal (Value kv') = Ok r' ∧ Version r < Version r').

Lemma moves_trans s1 s2 s3 : moves s1 s2 → moves s2 s3 → moves s1 s3.
Proof.
  intros H12 H23 kv E. destruct (H12 kv E) as (kv2 & E2 & Hc2). destruct (H23 kv2 E2) as (kv3 & E3 & Hc3). exists kv3. split; [done|].
  destruct Hc2 as [->|(Hv & r & r2 & Hr & Hr2 & Hlt)]; [done|]. right.
  destruct Hc3 as [->|(Hv3 & r2' & r3 & Hr2' & Hr3 & Hlt3)]; [split; [done|by exists r, r2]|]. rewrite Hr2 in Hr2'. injection Hr2' as <-.
  split; [lia|]. exists r, r3. split_and!; [done..|lia].
Qed.
Lemma moves_same s s' : kvs (view s') !! key_ring = kvs (view s) !! key_ring → moves s s'.
Proof. intros E kv Ek. exists kv. split; [by rewrite E|by left]. Qed.

(** Clients that set rings with [SetRing] move the ring so. *)
Lemma ring_step_moves st st' : ring_inv st → ring_step st st' → moves st.1 st'.1.
Proof.
  intros (kv & r0 & E & Hr0 & Hts) Hstep. destruct Hstep as [s ts r Hok Hm|s ts i p f p' s' Hi Ha|s ts s' Hs]; cbn [fst snd] in *;
    [by apply moves_same| |by apply moves_same].
  pose proof (proj1 (list.Forall_lookup _ _) Hts i p Hi) as Hp.
  destruct (set_request kv r0 p f p' s s' E Hr0 Hp Ha) as [[E' Hp']|(kv' & r1 & E' & Hv & Hr1 & Hver & _)]; [apply moves_same; congruence|].
  intros kv2 E2. rewrite E in E2. injection E2 as <-. exists kv'. split; [done|]. right. split; [done|]. exists r0, r1. split_and!; [done..|lia].
Qed.

(** A command amid other clients: before each of its requests they do something, and
    requests and answers may be lost; [b] is the state before its last request. *)
Fixpoint amid {A} (p : prog A) s (b : K) (r : res A) s' : Prop :=
  match p with
  | Done _ => False
  | Ask q k => ∃ s1 f x s2, moves s s1 ∧ deliver f q s1 = (x, s2) ∧ (k x = Done r ∧ b = s1 ∧ s' = s2 ∨ amid (k x) s2 b r s')
  end.

Lemma deliver_get f s x s' : deliver f (Do (OpGet key_ring)) s = (x, s') →
  view s' = view s ∧ ((∃ e, x = Err e) ∨ x = Ok (RangeResponse (match kvs (view s) !! key_ring with Some kv => [(key_ring, kv)] | None => [] end))).
Proof.
  destruct (serve_do (OpGet key_ring) s) as (s1 & E & Hv). unfold do_request in *. cbn in E, Hv.
  assert (view s1 = view s) as Hv' by (rewrite Hv; by destruct (view s)).
  destruct f; cbn; [rewrite E; intros [= <- <-]; split; [done|by right]|intros [= <- <-]; split; [done|left; by eexists]|].
  rewrite E. intros [= <- <-]. split; [done|left; by eexists].
Qed.

(** Reading the ring: what follows it goes on with the ring that was read. *)
Lemma amid_read {A} (f : Ring → Z → prog A) (g : error → prog A) s b a s' (k : res OpResponse → prog A) :
  (∀ e, ∃ y, g e = Done (Err y)) → (∀ e, k (Err e) = g e) → k (Ok (RangeResponse [])) = g ErrNoGlobalMetadata →
  (∀ kv, k (Ok (RangeResponse [(key_ring, kv)])) = match ring_Unmarshal (Value kv) with Ok r => f r (KVersion kv) | Err e => g e | Panic => Done Panic end) →
  (∀ r v y, f r v ≠ Done (Ok y)) →
  amid (Ask (Do (OpGet key_ring)) k) s b (Ok a) s' →
  ∃ s1 s2 kv r, moves s s1 ∧ view s2 = view s1 ∧ kvs (view s1) !! key_ring = Some kv ∧ ring_Unmarshal (Value kv) = Ok r ∧
    amid (f r (KVersion kv)) s2 b (Ok a) s'.
Proof.
  intros Hg Herr Hnil Hsome Hf (s1 & fl & x & s2 & Hm & Hd & Hk). apply deliver_get in Hd as [Hv [[e ->]| ->]].
  { rewrite Herr in Hk. destruct (Hg e) as [y Hy]. rewrite Hy in Hk. by destruct Hk as [[? _]|?]. }
  destruct (kvs (view s1) !! key_ring) as [kv|] eqn:E.
  - rewrite Hsome in Hk. destruct (ring_Unmarshal (Value kv)) as [r|e|] eqn:Er.
    + exists s1, s2, kv, r. split_and!; [done..|]. destruct Hk as [[Hk _]|?]; [by apply Hf in Hk|done].
    + destruct (Hg e) as [y Hy]. rewrite Hy in Hk. by destruct Hk as [[? _]|?].
    + by destruct Hk as [[? _]|?].
  - rewrite Hnil in Hk. destruct (Hg ErrNoGlobalMetadata) as [y Hy]. rewrite Hy in Hk. by destruct Hk as [[? _]|?].
Qed.

Lemma serve_ring_swap' f v b kv s x s' : kvs (view s) !! key_ring = Some kv → deliver f (Commit (ring_swap v b)) s = (x, s') →
  (∀ resp, x = Ok resp → Succeeded resp = true → v = KVersion kv) ∧
  ((∃ e, x = Err e) ∨ kvs (view s') !! key_ring = Some (if decide (v = KVersion kv) then mkKV b (KVersion kv + 1) 0 else kv)).
Proof.
  intros E Hd. destruct (serve_txn (ring_swap v b) s eq_refl eq_refl) as (s1 & Hv & Es).
  cbn [ring_swap If Then Else forallb holds] in Hv, Es. unfold version_of in Hv, Es. rewrite E in Hv, Es. cbn [from_option] in Hv, Es.
  rewrite andb_true_r in Hv, Es. destruct f; cbn in Hd; rewrite ?Es in Hd; injection Hd as <- <-; [|split; [by intros ? ?|left; by eexists]..].
  split; [intros resp [= <-] Hs; cbn in Hs; by apply bool_decide_eq_true in Hs|right]. rewrite Hv. destruct (decide (v = KVersion kv)) as [Hc|Hc].
  - rewrite bool_decide_true by done. cbn. unfold put_key, version_of. by rewrite lookup_insert_eq, E.
  - by rewrite bool_decide_false by congruence.
Qed.

(** A ring that was set has taken the place of the one before it. *)
Lemma amid_SetRing why r s b s' : amid (or_die why (etcd_SetRing r)) s b (Ok tt) s' →
  ∃ kv r0 rb, moves s b ∧ kvs (view b) !! key_ring = Some kv ∧ ring_Unmarshal (Value kv) = Ok r0 ∧ Version r0 = Version r - 1 ∧
    ring_Marshal r = Ok rb ∧ kvs (view s') !! key_ring = Some (mkKV rb (KVersion kv + 1) 0).
Proof.
  set (fin := λ y : res TxnResponse, or_die why (match y with
    | Ok resp => if Succeeded resp then mret tt else Done (Err ErrAgain) | Err e => Done (Err e) | Panic => Done Panic end)).
  set (f := λ r0 v, if decide (Version r0 ≠ Version r - 1) then Done (Err (ErrMsg why))
    else match ring_Marshal r with Ok rb => Ask (Commit (ring_swap v rb)) fin | Err _ => Done (Err (ErrMsg why)) | Panic => Done Panic end).
  intros Ha. apply (amid_read f (λ _, Done (Err (ErrMsg why)))) in Ha.
  - destruct Ha as (s1 & s2 & kv & r0 & Hm1 & Hv2 & E1 & Hr0 & Ha). unfold f in Ha. case_decide as Hver; [done|].
    destruct (ring_Marshal r) as [rb| |] eqn:Erb; [|done..]. destruct Ha as (b' & fl & x & s3 & Hm2 & Hd & Hk).
    assert (moves s2 b') as Hm2' by done. destruct (Hm2 kv) as (kvb & Eb & Hcase); [by rewrite Hv2|].
    destruct (serve_ring_swap' fl _ rb kvb b' x s3 Eb Hd) as [Hs Hput]. destruct x as [resp|e|]; unfold fin in Hk; cbn in Hk; [|by destruct Hk as [[? _]|?]..].
    destruct (Succeeded resp) eqn:Esucc; [|by destruct Hk as [[? _]|?]]. destruct Hk as [(_ & -> & ->)|[]].
    pose proof (Hs resp eq_refl Esucc) as Heq. destruct Hput as [[e ?]|Hput]; [done|]. rewrite decide_True in Hput by done.
    destruct Hcase as [->|[? _]]; [|lia]. exists kv, r0, rb. split_and!; [|done|done| |done|done].
    + apply (moves_trans s s1 b' Hm1). apply (moves_trans s1 s2 b'); [|done]. apply moves_same. by rewrite Hv2.
    + destruct (decide (Version r0 = Version r - 1)); [done|by destruct Hver].
  - intros e. by eexists.
  - intros e. done.
  - done.
  - intros kv. cbn -[ring_Unmarshal ring_Marshal]. destruct (ring_Unmarshal (Value kv)) as [r0| |]; [|done..]. unfold f.
    cbn -[ring_Marshal]. case_decide; [done|]. destruct (ring_Marshal r) as [rb| |]; [|done..]. done.
  - intros r0 v y. unfold f. case_decide; [done|]. by destruct (ring_Marshal r).
Qed.

Lemma change_version c r r1 : apply_change c r = Some (Ok r1) → Version r1 = Version r + 1.
Proof.
  destruct c; destruct r; try done; cbn; unfold mod_AddPeers, mod_RemovePeers, ketama_AddPeers, ketama_RemovePeers;
    try (case_decide; [done|]); try (destruct (GetWeights _); cbn; [|done..]); by intros [= <-].
Qed.

(** A change that is read, made and set is made to the ring that is there. *)
Lemma amid_change why unsupported failed c s b s' :
  amid (cur ← or_die why etcd_GetRing; put_changed unsupported failed (apply_change c cur)) s b (Ok tt) s' →
  ∃ kv r0 r1 rb, kvs (view b) !! key_ring = Some kv ∧ ring_Unmarshal (Value kv) = Ok r0 ∧ apply_change c r0 = Some (Ok r1) ∧
    ring_Marshal r1 = Ok rb ∧ kvs (view s') !! key_ring = Some (mkKV rb (KVersion kv + 1) 0).
Proof.
  intros Ha. apply (amid_read (λ r _, put_changed unsupported failed (apply_change c r)) (λ _, Done (Err (ErrMsg why)))) in Ha.
  - destruct Ha as (s1 & s2 & kv1 & r & _ & Hv2 & E1 & Hr & Ha). destruct (apply_change c r) as [[r1| |]|] eqn:Ec; [|done..].
    apply amid_SetRing in Ha as (kv & r0 & rb & Hm & Eb & Hr0 & Hver & Hrb & Es'). pose proof (change_version c r r1 Ec) as Hv1.
    destruct (Hm kv1) as (kv' & Eb' & Hcase); [by rewrite Hv2|]. rewrite Eb in Eb'. injection Eb' as <-.
    destruct Hcase as [->|(_ & r' & r0' & Hr' & Hr0' & Hlt)]; [|rewrite Hr in Hr'; rewrite Hr0 in Hr0'; simplify_eq; lia].
    rewrite Hr in Hr0. injection Hr0 as <-. by exists kv1, r, r1, rb.
  - intros e. by eexists.
  - done.
  - done.
  - intros kv. cbn -[ring_Unmarshal put_changed]. by destruct (ring_Unmarshal (Value kv)).
  - intros r _ y. by destruct (apply_change c r) as [[]|].
Qed.

(** The commands and the changes they make. *)
Inductive ring_command : change → prog unit → Prop :=
  | RC_add allPeers args ps : ring_command (Add ps) (peerAddAction allPeers args ps)
  | RC_remove ps : ring_command (Remove (peer_list ps)) (peerRemoveAction ps)
  | RC_replication amount n : Atoi amount = Some n → ring_command (Replicate n) (ringChangeReplicationAction amount).

(** A command among other clients.  [st] is etcd with the calls of [SetRing] that others
    have begun: before each request of the command they begin more calls, send any of
    their own requests, or do anything that leaves the ring alone; requests and answers of
    everybody may be lost.  [b] is etcd before the last request of the command. *)
Fixpoint among {A} (p : prog A) (st : K * list (prog unit)) (b : K) (r : res A) s' : Prop :=
  match p with
  | Done _ => False
  | Ask q k => ∃ s1 ts1 f x s2, rtc ring_step st (s1, ts1) ∧ deliver f q s1 = (x, s2) ∧
      (k x = Done r ∧ b = s1 ∧ s' = s2 ∨ among (k x) (s2, ts1) b r s')
  end.

(** Programs that read the ring and end with at most one other request. *)
Inductive reads {A} : prog A → Prop :=
  | Re_done r : reads (Done r)
  | Re_get k : (∀ x, reads (k x)) → reads (Ask (Do (OpGet key_ring)) k)
  | Re_last {R} (q : Request R) k : (∀ x, ∃ y, k x = Done y) → reads (Ask q k).

Lemma others_move st st' : ring_inv st → rtc ring_step st st' → ring_inv st' ∧ moves st.1 st'.1.
Proof.
  intros Hi Hst. induction Hst as [st|st1 st2 st3 Hstep _ IH]; [split; [done|by apply moves_same]|].
  destruct (ring_keeps st1 st2 Hi Hstep) as [Hi2 _]. destruct (IH Hi2) as [Hi3 Hm]. split; [done|].
  by eapply moves_trans; [eapply ring_step_moves|].
Qed.

Lemma ring_at_inv s : is_Some (ring_at s) → ring_inv (s, []).
Proof.
  intros [r Hr]. unfold ring_at in Hr. destruct (kvs (view s) !! key_ring) as [kv|] eqn:E; cbn [mbind option_bind] in Hr; [|done].
  destruct (ring_Unmarshal (Value kv)) as [r0| |] eqn:Er; [|done..]. exists kv, r0. by split_and!.
Qed.

Lemma among_amid {A} (p : prog A) st b r s' : reads p → ring_inv st → among p st b r s' → amid p st.1 b r s'.
Proof.
  intros Hp. revert st. induction Hp as [y|k Hk IH|R q k Hk]; intros st Hi; cbn [among amid]; [done|..];
    intros (s1 & ts1 & f & x & s2 & Hst & Hd & Hn); destruct (others_move _ _ Hi Hst) as [Hi1 Hm]; exists s1, f, x, s2; (split_and!; [exact Hm|exact Hd|]).
  - destruct Hn as [Hn|Hn]; [by left|right]. apply (IH x (s2, ts1)); [|done].
    destruct (deliver_get _ _ _ _ Hd) as [Hv _]. unfold ring_inv in *. cbn [fst snd] in *. by rewrite Hv.
  - destruct (Hk x) as [y Hy]. rewrite Hy in *. destruct Hn as [Hn|[]]. by left.
Qed.

Lemma SetRing_reads why r : reads (or_die why (etcd_SetRing r)).
Proof.
  cbn -[ring_Unmarshal ring_Marshal]. apply Re_get. intros [resp|e|]; [|constructor..]. destruct (range_of resp) as [[|[k kv] l]|e|]; [constructor| |constructor..].
  cbn -[ring_Unmarshal ring_Marshal]. destruct (ring_Unmarshal (Value kv)) as [r0|e|]; [|constructor..]. cbn -[ring_Marshal].
  case_decide; [constructor|]. destruct (ring_Marshal r) as [rb|e|]; [|constructor..]. cbn. apply Re_last.
  intros [y|e|]; [|by eexists..]. cbn. destruct (Succeeded y); by eexists.
Qed.

Lemma command_reads c p : ring_command c p → reads p.
Proof.
  assert (∀ why u f (g : Ring → option (res Ring)), reads (cur ← or_die why etcd_GetRing; put_changed u f (g cur))) as Hgen.
  { intros why u f g. cbn -[ring_Unmarshal put_changed]. apply Re_get. intros [resp|e|]; [|constructor..].
    destruct (range_of resp) as [[|[k kv] l]|e|]; [constructor| |constructor..]. cbn -[ring_Unmarshal put_changed].
    destruct (ring_Unmarshal (Value kv)) as [r0|e|]; [|constructor..]. cbn -[put_changed].
    destruct (g r0) as [[r1|e|]|]; [apply SetRing_reads|constructor..]. }
  intros [all args ps|ps|amount n Hn].
  - unfold peerAddAction. destruct (negb all && bool_decide (args = [])); [constructor|]. apply Hgen.
  - apply Hgen.
  - unfold ringChangeReplicationAction. rewrite Hn. apply Hgen.
Qed.

(** C17: the commands that add peers, remove peers and change the replication are
    serialized, when a ring that can be read is in etcd at the start and every other client
    changes the ring with [SetRing] only, with well-formed rings that can be encoded: the
    manual change of a ring, which writes it unconditionally, is not among them.  Other
    clients' calls of [SetRing] may be at any of their requests between any two requests
    of the command, other keys may change at any time, and any request or answer may be
    lost.  A command that then succeeds has made its change to the ring that was there at
    its last request, whose place the next version takes: no change of another client is
    undone, though the command read the ring twice, long before.  When that ring is
    well-formed, the change meets its side conditions ([change_ok]) and the new ring can
    be encoded, the ring in etcd is the changed one and has the members the change means. *)
Theorem ring_commands_serialize (c : change) (p : prog unit) (s b s' : K) :
  ring_command c p → is_Some (ring_at s) → among p (s, []) b (Ok tt) s' →
  ∃ r0 r1, ring_at b = Some r0 ∧ apply_change c r0 = Some (Ok r1) ∧ Version r1 = Version r0 + 1 ∧
    (∃ kv, kvs (view s') !! key_ring = Some kv ∧ ring_Marshal r1 = Ok (Value kv)) ∧
    (ring_ok r0 → change_ok c r0 → marshallable r1 → ring_at s' = Some r1 ∧ Members r1 = new_members c (Members r0)).
Proof.
  intros Hc Hs Ha. apply among_amid in Ha; [|by eapply command_reads|by apply ring_at_inv]. cbn [fst] in Ha.
  assert (∃ kv r0 r1 rb, kvs (view b) !! key_ring = Some kv ∧ ring_Unmarshal (Value kv) = Ok r0 ∧
    apply_change c r0 = Some (Ok r1) ∧ ring_Marshal r1 = Ok rb ∧ kvs (view s') !! key_ring = Some (mkKV rb (KVersion kv + 1) 0))
    as (kv & r0 & r1 & rb & Eb & Hr0 & Ec & Hrb & Es').
  { destruct Hc as [all args ps|ps|amount n Hn].
    - unfold peerAddAction in Ha. destruct (negb all && bool_decide (args = [])); [done|]. by eapply amid_change.
    - eapply (amid_change _ _ _ (Remove _)); exact Ha.
    - unfold ringChangeReplicationAction in Ha. rewrite Hn in Ha. by eapply (amid_change _ _ _ (Replicate n)). }
  exists r0, r1. unfold ring_at. rewrite Eb, Es'. cbn [mbind option_bind Value]. rewrite Hr0.
  split_and!; [done|done|by eapply change_version|by eexists|]. intros Hok Hch Hm.
  pose proof (change_spec c r0 _ Hok Hch Ec) as (Hok1 & _ & _ & Hmem). destruct (ring_roundtrip r1 Hok1 Hm) as (rb' & Hrb' & Hu).
  rewrite Hrb in Hrb'. injection Hrb' as <-. unfold ring_Unmarshal. by rewrite Hu by lia.
Qed.
End serial.

(** ** Examples *)

#[local] Existing Instances map_range fixed_ring fixed_ring_laws no_preconditions snap_Json no_global_Json.

(** A command that is alone, up to its last request. *)
Fixpoint last_state {A} (p : prog A) (s : estore) : estore :=
  match p with
  | Done _ => s
  | Ask q k => let '(x, s') := serve q s in match k x with Done _ => s | _ => last_state (k x) s' end
  end.
Definition asks {A} (p : prog A) : bool := match p with Done _ => false | Ask _ _ => true end.
Lemma alone_among {A} (p : prog A) s r : asks p = true → (run p s).1 = r → among p (s, []) (last_state p s) r (run p s).2.
Proof.
  intros Hp <-. revert s Hp. induction p as [r|R q k IH]; intros s Hp; [done|]. cbn [last_state run among].
  destruct (serve q s) as [x s'] eqn:E. specialize (IH x s').
  exists s, [], Answered, x, s'. split_and!; [apply rtc_refl|exact E|]. destruct (k x) as [r|R' q' k']; [by left|right; exact (IH eq_refl)].
Qed.

Definition ax_add : prog unit := peerAddAction true [] [rx_peer x62 4].
Lemma ax_done : (run ax_add (ring_store rx_mod)).1 = Ok tt.
Proof. vm_compute. reflexivity. Qed.

Lemma ax_ring : is_Some (ring_at (ring_store rx_mod)).
Proof. vm_compute. by eexists. Qed.

Lemma ring_commands_serialize_witness :
  (run ax_add (ring_store rx_mod)).1 = Ok tt ∧
  ∃ r0 r1, ring_at (last_state ax_add (ring_store rx_mod)) = Some r0 ∧ apply_change (Add [rx_peer x62 4]) r0 = Some (Ok r1) ∧
    Version r1 = Version r0 + 1.
Proof.
  split; [exact ax_done|].
  destruct (ring_commands_serialize (Add [rx_peer x62 4]) ax_add (ring_store rx_mod) (last_state ax_add (ring_store rx_mod))
    (run ax_add (ring_store rx_mod)).2 (RC_add true [] _) ax_ring (alone_among ax_add (ring_store rx_mod) (Ok tt) eq_refl ax_done))
    as (r0 & r1 & H0 & H1 & H2 & _).
  exists r0, r1. split_and!; [exact H0|exact H1|exact H2].
Defined.
