(* ===== verification/BlockVolume.v ===== *)
(** * Block volumes and their files

    Models [src/block/volume.go] and [src/block/blockfile.go]: volumes of block
    devices over a metadata service, and the file a volume is opened as.  The block
    store and the metadata service are the state; a client is its UUID, and a
    [BlockVolume] its volume record. *)
From S2P Require Import Prelude GoSem GoStrings Refs TempStore Store Crc32 Blockset Proto Models INodeStore File Ring Metadata.
From Stdlib Require String.

Definition VolumeType : gostring := String.list_byte_of_string "block".

Section volume.
Context {S : Type} `{B : BlockStore S} {D : Type} `{BM : BlockMetadata D} `{Range} `{Godbc}.

(** What the volumes of a server share. *)
Record vstate := mkV { vstore : S; vmds : D }.

Definition v_store {A} (m : M S A) : M vstate A := λ e,
  let '(r, s) := m (vstore e) in (r, mkV s (vmds e)).
Definition v_mds {A} (m : M D A) : M vstate A := λ e,
  let '(r, d) := m (vmds e) in (r, mkV (vstore e) d).

Definition volume_create (name : gostring) (size : Z) : M D unit :=
  vid ← bm_NewVolumeID;
  bm_CreateBlockVolume (mkVolume name vid VolumeType size).

Definition OpenBlockVolume (uuid name : gostring) : M D Models.Volume := bm_GetVolume uuid name.

Definition DeleteBlockVolume (uuid name : gostring) : M D unit :=
  v ← bm_GetVolume uuid name;
  bm_DeleteVolume uuid (VName v) (VId v).

(** The inode of a volume; the first one, number 1, is made up on the spot. *)
Definition first_inode (v : Models.Volume) (g : GlobalMetadata) : res MINode :=
  bs ← CreateBlocksetFromSpec (DefaultBlockSpec g) None;
  if decide (BlockSize g = 0) then Panic
  else
    let q := VMaxBytes v / BlockSize g in
    let nBlocks := if decide (VMaxBytes v `mod` BlockSize g ≠ 0) then q + 1 else q in
    match Blockset.Truncate (to_signed 64 nBlocks) (BlockSize g) bs with
    | (Ok _, bs') =>
        layers ← MarshalBlocksetToProto bs';
        mret (mkMINode (VId v) 1 (VMaxBytes v) ∅ layers)
    | (Err e, _) => Err e
    | (Panic, _) => Panic
    end.

Definition getOrCreateBlockINode (v : Models.Volume) (ref : INodeRef) : M vstate MINode :=
  if decide (Refs.Volume ref ≠ VId v) then panic
  else if decide (INode ref ≠ 1) then v_store (GetINode ref)
  else e ← get; lift (first_inode v (bm_GlobalMetadata (vmds e))).

(** The file over an inode. *)
Definition open_inode (v : Models.Volume) (ref : INodeRef) : M vstate (File (S := S)) :=
  i ← getOrCreateBlockINode v ref;
  e ← get;
  b ← lift (UnmarshalFromProto (IN_Blocks i) (Some (Store.BlockSize (vstore e))));
  mret (CreateFile (BlockSize (bm_GlobalMetadata (vmds e))) v i b).

(** On an error after the lock was taken the lock is released, and the error of
    that ignored. *)
Definition OpenBlockFile (uuid : gostring) (lease : Z) (v : Models.Volume) : M vstate (File (S := S)) :=
  if decide (VType v ≠ VolumeType) then panic
  else
    _ ← v_mds (bm_Lock uuid lease (VId v));
    r ← try (ref ← v_mds (bm_GetINode (VId v)); open_inode v ref);
    match r with
    | inl f => mret f
    | inr x => _ ← try (v_mds (bm_Unlock uuid (VId v))); throw x
    end.

(** The snapshot of that name, or the empty one. *)
Fixpoint find_snap (name : gostring) (l : list Snapshot) : Snapshot :=
  match l with
  | [] => mkSnapshot [] 0 []
  | x :: l' => if decide (SName x = name) then x else find_snap name l'
  end.

Definition set_ReadOnly (f : File (S := S)) : File :=
  mkFile (blkSize f) (offset f) true (volume f) (File.inode f) (blocks f) (replaces f) (cache f)
    (writeINodeRef f) (writeOpen f).

Definition OpenSnapshot (v : Models.Volume) (name : gostring) : M vstate (File (S := S)) :=
  if decide (VType v ≠ VolumeType) then panic
  else
    snaps ← v_mds (bm_GetSnapshots (VId v));
    let found := find_snap name snaps in
    if decide (SName found ≠ name) then throw ErrNotExist
    else
      ref ← lift (INodeRefFromBytes (SINodeRef found));
      f ← open_inode v ref;
      mret (set_ReadOnly f).

(** The deferred [Unlock] runs whatever happens; its error is dropped. *)
Definition RestoreSnapshot (uuid : gostring) (lease : Z) (v : Models.Volume) (name : gostring) : M D unit :=
  if decide (VType v ≠ VolumeType) then panic
  else
    _ ← bm_Lock uuid lease (VId v);
    r ← try (
      snaps ← bm_GetSnapshots (VId v);
      let found := find_snap name snaps in
      if decide (SName found ≠ name) then throw ErrNotExist
      else
        ref ← lift (INodeRefFromBytes (SINodeRef found));
        bm_SyncINode uuid (VId v) ref);
    _ ← try (bm_Unlock uuid (VId v));
    match r with inl _ => mret tt | inr x => throw x end.

(** ** Open files: the state is the one of [File] *)

Abbreviation fstate := (state (S := S) (D := D)).

Definition block_Sync (uuid : gostring) (v : Models.Volume) : M fstate unit :=
  f ← gets file;
  if writeOpen f then
    _ ← SyncBlocks;
    ref ← SyncINode;
    on_mds (bm_SyncINode uuid (VId v) ref)
  else mret tt.

(** The lock is released whatever happens; its error counts only when there is
    no other. *)
Definition block_Close (uuid : gostring) (v : Models.Volume) : M fstate unit :=
  r ← try (block_Sync uuid v);
  u ← try (on_mds (bm_Unlock uuid (VId v)));
  match r with
  | inr x => throw x
  | inl _ => match u with inr x => throw x | inl _ => mret tt end
  end.
End volume.
