(* ===== verification/BlockVolumeSpec.v ===== *)
(** * What block volumes promise

    Proved against the contract of the metadata service, so for both services: the
    lock of a volume keeps the other clients from changing its inode, a file that is
    closed is found with the same bytes when the volume is opened again, and
    snapshots name the inode they were taken of. *)
From stdpp Require Import pretty.
From S2P Require Import Prelude GoSem GoStrings Refs TempStore Store Crc32 Blockset BlocksetSpec Proto Models INodeStore File FileSpec FileProps Ring Metadata MetaTemp MetaTempSpec BlockVolume.
From Stdlib Require String.

Section meta.
Context {D : Type} `{BL : BlockMetadataLaws D}.
Implicit Types (d : D) (x : vdata).

(** ** Sequences of calls of several clients *)

Inductive vop : Type :=
  | VLock (lease : Z)
  | VUnlock
  | VGet
  | VSync (i : INodeRef)
  | VSave (now : Z) (name : gostring)
  | VSnaps
  | VDeleteSnap (name : gostring).

(** What a client sees of a call. *)
Inductive vout : Type := VDone | VINode (i : INodeRef) | VList (l : list Snapshot).

(** A call of one client on one volume. *)
Record vcall := mkCall { vc_uuid : gostring; vc_vid : Z; vc_op : vop }.

Definition run_vcall (c : vcall) : M D vout :=
  match vc_op c with
  | VLock lease => _ ← bm_Lock (vc_uuid c) lease (vc_vid c); mret VDone
  | VUnlock => _ ← bm_Unlock (vc_uuid c) (vc_vid c); mret VDone
  | VGet => i ← bm_GetINode (vc_vid c); mret (VINode i)
  | VSync i => _ ← bm_SyncINode (vc_uuid c) (vc_vid c) i; mret VDone
  | VSave now name => _ ← bm_SaveSnapshot now (vc_vid c) name; mret VDone
  | VSnaps => l ← bm_GetSnapshots (vc_vid c); mret (VList l)
  | VDeleteSnap name => _ ← bm_DeleteSnapshot (vc_vid c) name; mret VDone
  end.

(** A call on a volume that exists, with a good lease, inode or name. *)
Definition call_ok (c : vcall) d : Prop :=
  vc_uuid c ≠ [] ∧ vid_ok (vc_vid c) ∧ is_Some (vol_data (vc_vid c) d) ∧
  match vc_op c with
  | VLock lease => lease_ok lease d
  | VSync i => wf_inoderef i ∧ Refs.Volume i = vc_vid c
  | VSave _ name | VDeleteSnap name => snap_ok name
  | _ => True
  end.

(** What a call does to the data of its volume. *)
Definition vcall_data (c : vcall) x (r : res vout) x' : Prop :=
  match vc_op c with
  | VLock _ => if decide (v_lock x = []) then r = Ok VDone ∧ x' = mkVData (vc_uuid c) (v_inode x) (v_snaps x)
               else r = Err ErrLocked ∧ x' = x
  | VUnlock => if decide (v_lock x = vc_uuid c) then r = Ok VDone ∧ x' = mkVData [] (v_inode x) (v_snaps x)
               else r = Err ErrLocked ∧ x' = x
  | VGet => r = Ok (VINode (v_inode x)) ∧ x' = x
  | VSync i => if decide (v_lock x = vc_uuid c) then r = Ok VDone ∧ x' = mkVData (vc_uuid c) i (v_snaps x)
               else r = Err ErrLocked ∧ x' = x
  | VSave _ name =>
      if decide (v_snaps x !! name = None) then
        r = Ok VDone ∧ x' = mkVData (v_lock x) (v_inode x) (<[name := INodeRef_ToBytes (v_inode x)]> (v_snaps x))
      else r = Err ErrExists ∧ x' = x
  | VSnaps => (∃ l, r = Ok (VList l) ∧ snap_map l = v_snaps x) ∧ x' = x
  | VDeleteSnap name =>
      if decide (v_snaps x !! name = None) then (∃ e, r = Err e) ∧ x' = x
      else r = Ok VDone ∧ x' = mkVData (v_lock x) (v_inode x) (delete name (v_snaps x))
  end.

Ltac by_law H := destruct H as [d' Hl]; repeat case_decide; destruct Hl as [Hl Hb];
  do 3 eexists; (split; [by run_step Hl|split; [by split|exact Hb]]).

Lemma vcall_run c d x :
  md_inv d → call_ok c d → vol_data (vc_vid c) d = Some x →
  ∃ r d' x', run_vcall c d = (r, d') ∧ vcall_data c x r x' ∧ becomes (vc_vid c) x' d d'.
Proof.
  intros Hi (Hu & Hv & _ & Ho) Hx. unfold run_vcall, vcall_data. destruct (vc_op c) as [lease| | |i|now name| |name].
  - by_law (lock_law _ lease _ _ _ Hi Hv Hu Ho Hx).
  - by_law (unlock_law _ _ _ _ Hi Hv Hu Hx).
  - by_law (inode_law _ _ _ Hi Hv Hx).
  - destruct Ho as [Hw Hvol]. by_law (sync_law _ _ _ _ _ Hi Hv Hu Hw Hvol Hx).
  - by_law (save_law now _ _ _ _ Hi Hv Ho Hx).
  - destruct (snaps_law _ _ _ Hi Hv Hx) as (l & d' & Hl & Hs & Hb). do 3 eexists. split; [by run_step Hl|]. split; [|exact Hb].
    split; [by exists l|done].
  - destruct (unsnap_law _ _ _ _ Hi Hv Ho Hx) as [d' Hl]. case_decide; destruct Hl as [Hl Hb].
    + destruct Hl as [e Hl]. do 3 eexists. split; [by run_step Hl|]. split; [|exact Hb]. split; [by exists e|done].
    + do 3 eexists. split; [by run_step Hl|]. by split.
Qed.

Lemma call_ok_becomes vid x c d d' : vid_ok vid → becomes vid x d d' → call_ok c d → call_ok c d'.
Proof.
  intros Hv Hb (Hu & Hvc & Hs & Ho). split_and!; [done|done| |].
  - destruct (decide (vc_vid c = vid)) as [->|Hne]; [rewrite (b_here _ _ _ _ Hb); by eexists|].
    by rewrite (b_else _ _ _ _ Hb).
  - destruct (vc_op c); try done. by eapply b_lease.
Qed.

Fixpoint run_vcalls (cs : list vcall) d : list (res vout) * D :=
  match cs with
  | [] => ([], d)
  | c :: cs' =>
      let '(r, d1) := run_vcall c d in
      let '(rs, d2) := run_vcalls cs' d1 in (r :: rs, d2)
  end.

(** An invariant of the data of one volume holds after any calls if each call on
    that volume keeps it. *)
Lemma vcalls_keep (vid : Z) (P : vdata → Prop) (A : vcall → Prop) (R : vcall → res vout → Prop) cs :
  (∀ c x r x', A c → vc_vid c = vid → P x → vcall_data c x r x' → P x' ∧ R c r) →
  (∀ c x r x', A c → vc_vid c ≠ vid → vcall_data c x r x' → R c r) →
  vid_ok vid → ∀ d x, md_inv d → Forall (λ c, A c ∧ call_ok c d) cs → vol_data vid d = Some x → P x →
  let '(rs, d') := run_vcalls cs d in
  Forall2 R cs rs ∧ md_inv d' ∧ bm_GlobalMetadata d' = bm_GlobalMetadata d ∧ (∀ l, lease_ok l d → lease_ok l d') ∧
  ∃ x', vol_data vid d' = Some x' ∧ P x'.
Proof.
  intros Hhere Helse Hvid. induction cs as [|c cs IH]; intros d x Hi Hcs Hx Hp; [split_and!; eauto|].
  apply list.Forall_cons in Hcs as [[Ha Hc] Hcs]. cbn [run_vcalls]. pose proof Hc as (_ & Hvc & [y Hy] & _).
  destruct (vcall_run c d y Hi Hc Hy) as (r & d1 & y' & -> & Hd & Hb).
  assert (∃ x1, vol_data vid d1 = Some x1 ∧ P x1 ∧ R c r) as (x1 & Hx1 & Hp1 & Hr).
  { destruct (decide (vc_vid c = vid)) as [He|Hne].
    - rewrite He in Hy, Hb. simplify_eq. destruct (Hhere c x r y' Ha eq_refl Hp Hd). exists y'.
      by rewrite (b_here _ _ _ _ Hb).
    - exists x. split_and!; [by rewrite (b_else _ _ _ _ Hb)|done|by eapply Helse]. }
  assert (Forall (λ c, A c ∧ call_ok c d1) cs) as Hcs1.
  { eapply Forall_impl; [|exact Hcs]. intros c' [Ha' Hc']. split; [done|]. by eapply call_ok_becomes. }
  specialize (IH d1 x1 (b_inv _ _ _ _ Hb) Hcs1 Hx1 Hp1). destruct (run_vcalls cs d1) as [rs d2]. destruct IH as (Hf & Hi2 & Hg & Hls & Hrest). split_and!; [by constructor|done| | |done].
  - by rewrite Hg, (b_global _ _ _ _ Hb).
  - intros l Hl. by apply Hls, (b_lease _ _ _ _ Hb).
Qed.

(** What a volume locked by another client answers. *)
Definition answer_ok (vid : Z) (c : vcall) (r : res vout) : Prop :=
  r ≠ Panic ∧
  (vc_vid c = vid → match vc_op c with VLock _ | VUnlock | VSync _ => r = Err ErrLocked | _ => True end).

Lemma vcall_no_panic c x r x' : vcall_data c x r x' → r ≠ Panic.
Proof. unfold vcall_data. destruct (vc_op c); try case_decide; intros [Hr _]; try naive_solver. Qed.

Lemma vcall_locked u i c x r x' :
  u ≠ [] → vc_uuid c ≠ u → v_lock x = u → v_inode x = i → vcall_data c x r x' →
  (v_lock x' = u ∧ v_inode x' = i) ∧ answer_ok (vc_vid c) c r.
Proof.
  intros Hu Hc Hl Hi Hd. pose proof (vcall_no_panic c x r x' Hd) as Hr. unfold vcall_data, answer_ok in *.
  destruct (vc_op c); repeat case_decide; destruct Hd as [Hd ->]; subst; split; try by split.
  all: try congruence.
Qed.

(** C36: while a client holds the lock of a volume, other clients cannot change the volume.
    Their calls are any sequence of Lock, Unlock, GetINode, SyncINode, SaveSnapshot,
    GetSnapshots and DeleteSnapshot, by clients with names of their own, on volumes that
    exist (this one and others), with leases that live and inodes of the volume; names of
    snapshots are plain path elements.  Deleting a volume is not among these calls: it
    removes the lock.  They change neither the lock nor the inode of the volume: their
    attempts to lock, unlock or sync it are answered with ErrLocked, and none panics or
    blocks. *)
Theorem lock_excludes (u : gostring) (vid : Z) (i : INodeRef) (cs : list vcall) (d : D) (x : vdata) :
  md_inv d → u ≠ [] → vid_ok vid → Forall (λ c, vc_uuid c ≠ u ∧ call_ok c d) cs →
  vol_data vid d = Some x → v_lock x = u → v_inode x = i →
  let '(rs, d') := run_vcalls cs d in
  Forall2 (answer_ok vid) cs rs ∧ md_inv d' ∧
  ∃ x', vol_data vid d' = Some x' ∧ v_lock x' = u ∧ v_inode x' = i.
Proof.
  intros Hi Hu Hv Hcs Hx Hl Hn.
  pose proof (vcalls_keep vid (λ x, v_lock x = u ∧ v_inode x = i) (λ c, vc_uuid c ≠ u) (answer_ok vid) cs) as Hk.
  specialize (Hk ltac:(intros c y r y' Hc Hcv [Hyl Hyi] Hd; subst vid; by eapply vcall_locked)).
  specialize (Hk ltac:(intros c y r y' _ Hne Hd; split; [by eapply vcall_no_panic|done]) Hv d x Hi Hcs Hx (conj Hl Hn)).
  destruct (run_vcalls cs d). naive_solver.
Qed.
End meta.

(** ** Snapshots *)

Section snapshots.
Context {D : Type} `{BL : BlockMetadataLaws D}.
Implicit Types (d : D) (x : vdata).

(** The snapshot [RestoreSnapshot] finds in a list. *)
Lemma find_snap_map name b l :
  name ≠ [] → snap_map l !! name = Some b → SName (find_snap name l) = name ∧ SINodeRef (find_snap name l) = b.
Proof.
  intros Hn. induction l as [|s l IH]; [done|]. cbn [find_snap].
  change (snap_map (s :: l)) with (<[SName s := SINodeRef s]> (snap_map l)). case_decide as Hs.
  - rewrite <-Hs, lookup_insert_eq. by intros [= <-].
  - rewrite lookup_insert_ne by done. apply IH.
Qed.

Lemma vcall_snap name b c x r x' :
  vc_op c ≠ VDeleteSnap name → v_snaps x !! name = Some b → vcall_data c x r x' → v_snaps x' !! name = Some b.
Proof.
  intros Hc Hb Hd. unfold vcall_data in Hd. destruct (vc_op c) as [| | | |now n| |n]; repeat case_decide; destruct Hd as [_ ->]; try done; cbn.
  - rewrite lookup_insert_ne; [done|]. by intros ->; simplify_eq.
  - rewrite lookup_delete_ne; [done|]. by intros ->.
Qed.

Lemma restore_run u lease v name r d x :
  md_inv d → vid_ok (VId v) → u ≠ [] → lease_ok lease d → VType v = VolumeType → name ≠ [] →
  vol_data (VId v) d = Some x → v_lock x = [] → wf_inoderef r → Refs.Volume r = VId v →
  v_snaps x !! name = Some (INodeRef_ToBytes r) →
  ∃ d', RestoreSnapshot u lease v name d = (Ok tt, d') ∧ md_inv d' ∧ vol_data (VId v) d' = Some (mkVData [] r (v_snaps x)).
Proof.
  intros Hi Hv Hu Hle Ht Hn Hx Hl Hr Hvol Hs. unfold RestoreSnapshot. rewrite decide_False by tauto.
  destruct (lock_law u lease (VId v) d x Hi Hv Hu Hle Hx) as [d1 R1]. rewrite decide_True in R1 by done.
  destruct R1 as [R1 B1]. run_step R1.
  destruct (snaps_law (VId v) d1 _ (b_inv _ _ _ _ B1) Hv (b_here _ _ _ _ B1)) as (l & d2 & R2 & Hm & B2).
  destruct (find_snap_map name (INodeRef_ToBytes r) l Hn ltac:(by rewrite Hm)) as [Hfn Hfb].
  destruct (sync_law u (VId v) r d2 _ (b_inv _ _ _ _ B2) Hv Hu Hr Hvol (b_here _ _ _ _ B2)) as [d3 R3].
  cbn [v_lock] in R3. rewrite decide_True in R3 by done. destruct R3 as [R3 B3].
  destruct (unlock_law u (VId v) d3 _ (b_inv _ _ _ _ B3) Hv Hu (b_here _ _ _ _ B3)) as [d4 R4].
  cbn [v_lock] in R4. rewrite decide_True in R4 by done. destruct R4 as [R4 B4].
  exists d4. split; [|split; [apply (b_inv _ _ _ _ B4)|apply (b_here _ _ _ _ B4)]].
  erewrite (bind_step (try _)).
  2: { unfold try. run_step R2. cbv zeta. rewrite decide_False by tauto. rewrite Hfb, INodeRef_bytes_roundtrip by done.
       rewrite (bind_step (lift _) _ d2 r d2) by done. by rewrite R3. }
  erewrite (bind_step (try _)) by (unfold try; by rewrite R4). done.
Qed.

(** C37: a snapshot names the inode the volume had when it was taken.  Whatever
    calls follow, as long as none deletes that snapshot, restoring it while the
    volume is not locked makes that inode the volume's again, leaves the volume
    unlocked and keeps the snapshots. *)
Theorem snapshot_restore (u : gostring) (lease : Z) (v : Models.Volume) (name : gostring) (now : Z) (cs : list vcall)
    (d d1 : D) (x : vdata) :
  md_inv d → vid_ok (VId v) → u ≠ [] → lease_ok lease d → VType v = VolumeType → name ≠ [] → snap_ok name →
  wf_inoderef (v_inode x) → Refs.Volume (v_inode x) = VId v →
  vol_data (VId v) d = Some x → bm_SaveSnapshot now (VId v) name d = (Ok tt, d1) →
  Forall (λ c, (vc_vid c = VId v → vc_op c ≠ VDeleteSnap name) ∧ call_ok c d) cs →
  let '(_, d2) := run_vcalls cs d1 in
  ∃ x2, vol_data (VId v) d2 = Some x2 ∧
    (v_lock x2 = [] → ∃ d3, RestoreSnapshot u lease v name d2 = (Ok tt, d3) ∧
       vol_data (VId v) d3 = Some (mkVData [] (v_inode x) (v_snaps x2))).
Proof.
  intros Hi Hv Hu Hle Ht Hn Hok Hwf Hvol Hx Hsave Hcs.
  destruct (save_law now (VId v) name d x Hi Hv Hok Hx) as [d1' Hs]. case_decide; destruct Hs as [Hs Hb]; [|congruence].
  rewrite Hsave in Hs. injection Hs as <-.
  assert (Forall (λ c, (vc_vid c = VId v → vc_op c ≠ VDeleteSnap name) ∧ call_ok c d1) cs) as Hcs1.
  { eapply Forall_impl; [|exact Hcs]. intros c [Hc1 Hc2]. split; [done|]. by eapply call_ok_becomes. }
  pose proof (vcalls_keep (VId v) (λ y, v_snaps y !! name = Some (INodeRef_ToBytes (v_inode x)))
    (λ c, vc_vid c = VId v → vc_op c ≠ VDeleteSnap name) (λ _ _, True) cs
    ltac:(intros c y r y' Hc Hcv Hy Hd; split; [eapply vcall_snap; [by apply Hc|exact Hy|exact Hd]|done]) ltac:(done) Hv d1 _
    (b_inv _ _ _ _ Hb) Hcs1 (b_here _ _ _ _ Hb) (lookup_insert_eq _ _ _)) as Hk.
  destruct (run_vcalls cs d1) as [rs d2]. destruct Hk as (_ & Hi2 & _ & Hls & x2 & Hx2 & Hs2).
  exists x2. split; [done|]. intros Hl.
  destruct (restore_run u lease v name (v_inode x) d2 x2) as (d3 & ? & _ & ?); try done; [|by exists d3].
  by apply Hls, (b_lease _ _ _ _ Hb).
Qed.
End snapshots.

(** ** Closing and opening again *)

Section volume.
Context {S : Type} `{L : BlockStoreLaws S} {D : Type} `{BL : BlockMetadataLaws D} `{HR : Range} `{HG : Godbc}.
Abbreviation fstate := (state (S := S) (D := D)).
Implicit Types (e : fstate) (d : D) (v : Models.Volume).

(** Opening a volume that is not locked, whose inode is in the store. *)
Lemma open_run u lease v (st : vstate (S := S) (D := D)) x i (s2 : S) b :
  VType v = VolumeType → md_inv (vmds st) → vid_ok (VId v) → u ≠ [] → lease_ok lease (vmds st) →
  vol_data (VId v) (vmds st) = Some x → v_lock x = [] →
  Refs.Volume (v_inode x) = VId v → INode (v_inode x) ≠ 1 → GetINode (v_inode x) (vstore st) = (Ok i, s2) →
  UnmarshalFromProto (IN_Blocks i) (Some (Store.BlockSize s2)) = Ok b →
  ∃ md, OpenBlockFile (S := S) u lease v st
        = (Ok (CreateFile (BlockSize (bm_GlobalMetadata (vmds st))) v i b), mkV s2 md).
Proof.
  intros Ht Hi Hv Hu' Hle Hx Hl Hvol Hne Hg Hu. unfold OpenBlockFile. rewrite decide_False by tauto.
  destruct (lock_law u lease _ _ _ Hi Hv Hu' Hle Hx) as [m1 R1]. rewrite decide_True in R1 by done. destruct R1 as [R1 B1].
  rewrite (bind_step (v_mds _) _ st tt (mkV (vstore st) m1)) by (unfold v_mds; by rewrite R1).
  destruct (inode_law _ _ _ (b_inv _ _ _ _ B1) Hv (b_here _ _ _ _ B1)) as (m2 & R2 & B2). cbn [v_inode] in R2.
  exists m2. assert (bm_GlobalMetadata m2 = bm_GlobalMetadata (vmds st)) as Hgl by (by rewrite (b_global _ _ _ _ B2), (b_global _ _ _ _ B1)).
  rewrite (bind_step (try _) _ _ (inl (CreateFile (BlockSize (bm_GlobalMetadata (vmds st))) v i b)) (mkV s2 m2)); [done|].
  unfold try. rewrite (bind_step (v_mds _) _ _ (v_inode x) (mkV (vstore st) m2)) by (unfold v_mds; cbn; by rewrite R2).
  unfold open_inode. rewrite (bind_step (getOrCreateBlockINode _ _) _ _ i (mkV s2 m2)).
  2: { unfold getOrCreateBlockINode. rewrite decide_False, decide_True by tauto. unfold v_store. cbn. by rewrite Hg. }
  rewrite (bind_step get _ _ (mkV s2 m2) (mkV s2 m2)) by done. cbn [vstore vmds].
  rewrite (bind_step (lift _) _ _ b (mkV s2 m2)) by (unfold lift; by rewrite Hu). by rewrite Hgl.
Qed.

(** Syncing an open file: all its writes, then the inode of its volume. *)
Lemma block_Sync_run u v e : writeOpen (file e) = true →
  block_Sync u v e = (ref ← SyncAllWrites; on_mds (bm_SyncINode u (VId v) ref)) e.
Proof.
  intros Hw. unfold block_Sync, SyncAllWrites. rewrite (bind_step (gets file) _ e (file e) e), Hw by done.
  unfold mbind, M_bind. by destruct (SyncBlocks e) as [[[]| |] e1].
Qed.

(** The deferred [Unlock] of a volume that the client holds. *)
Lemma close_run u v e e2 (r : () + error) x2 :
  md_inv (mds e2) → vid_ok (VId v) → u ≠ [] → vol_data (VId v) (mds e2) = Some x2 → v_lock x2 = u →
  try (block_Sync u v) e = (Ok r, e2) →
  ∃ m, block_Close u v e = (match r with inl _ => Ok tt | inr x => Err x end, mkState (file e2) (store e2) m) ∧
    becomes (VId v) (mkVData [] (v_inode x2) (v_snaps x2)) (mds e2) m.
Proof.
  intros Hm Hv Hu Hx Hl Hr. destruct (unlock_law u (VId v) (mds e2) x2 Hm Hv Hu Hx) as [m R]. rewrite decide_True in R by done.
  destruct R as [R Bc]. exists m. split; [|done]. unfold block_Close. run_step Hr.
  rewrite (bind_step (try _) _ _ (inl tt) (mkState (file e2) (store e2) m)) by (unfold try, on_mds; by rewrite R). by destruct r as [[]|].
Qed.

(** C5: closing a block device and opening it again.  Client [u] holds the lock of a
    volume and has its file open for writing; the file is an array of bytes over its store
    and its cache, of the volume's block size, with a block number left; the reference it
    is written to is a proper one of this volume; and if its blocks can be synced, the
    inode that results can be saved ([savable]: data blocks only, an encoded length below
    2^32, blocks of at least four bytes, a store that takes the inode's blocks).  Then
    [Close] does not panic and releases the lock whether it succeeds or not: also when
    syncing the blocks or writing the inode fails, and in these cases the volume keeps its
    old inode.  When it succeeds, the volume's inode is the one of the file, and any client
    that opens the volume next gets a file with the same bytes and the same size. *)
Theorem volume_close_reopen (u u2 : gostring) (lease : Z) (v : Models.Volume) (e : fstate) (a : array) (n : Z) (x : vdata)
    (ino := writeINodeRef (file e)) :
  VType v = VolumeType → md_inv (mds e) → vid_ok (VId v) → vol_data (VId v) (mds e) = Some x → v_lock x = u → u ≠ [] →
  u2 ≠ [] → lease_ok lease (mds e) → BlockSize (bm_GlobalMetadata (mds e)) = blkSize (file e) →
  writeOpen (file e) = true → is_array e a (n + 1) → 0 ≤ n →
  wf_inoderef ino → Refs.Volume ino = VId v → INode ino ≠ 1 →
  (∀ e1, SyncBlocks e = (Ok tt, e1) → ∃ layers, savable e1 layers) →
  match block_Close u v e with
  | (Ok _, e') =>
      vol_data (VId v) (mds e') = Some (mkVData [] ino (v_snaps x)) ∧
      ∃ f (s2 : S) md, OpenBlockFile u2 lease v (mkV (store e') (mds e')) = (Ok f, mkV s2 md) ∧
        is_array (mkState f s2 md) a 0
  | (Err _, e') => vol_data (VId v) (mds e') = Some (mkVData [] (v_inode x) (v_snaps x))
  | (Panic, _) => False
  end.
Proof.
  intros Ht Hm Hv Hx Hl Hu Hu2 Hle Hbs Hwo Ha Hn Hwf Hvol Hn1 Hsv.
  pose proof (sync_all e a n Ha Hn Hsv) as Hs. pose proof (block_Sync_run u v e Hwo) as Hrun. unfold mbind, M_bind in Hrun.
  destruct (SyncAllWrites e) as [[ref|err|] e2]; [| |done].
  - destruct Hs as (-> & _ & Hmd & i & s2 & b & Hg & Hub & Harr). fold ino in Hg, Hrun.
    destruct (sync_law u (VId v) ino (mds e) x Hm Hv Hu Hwf Hvol Hx) as [m3 R3]. rewrite decide_True in R3 by done. destruct R3 as [R3 B3].
    unfold on_mds in Hrun. rewrite Hmd, R3 in Hrun.
    destruct (close_run u v e (mkState (file e2) (store e2) m3) (inl tt) (mkVData u ino (v_snaps x))) as (m4 & -> & B4);
      [apply (b_inv _ _ _ _ B3)|done|done|apply (b_here _ _ _ _ B3)|done|unfold try; by rewrite Hrun|].
    cbn [mds store file v_inode v_snaps] in *. split; [apply (b_here _ _ _ _ B4)|].
    assert (bm_GlobalMetadata m4 = bm_GlobalMetadata (mds e)) as Hgl by (by rewrite (b_global _ _ _ _ B4), (b_global _ _ _ _ B3)).
    destruct (open_run u2 lease v (mkV (store e2) m4) (mkVData [] ino (v_snaps x)) i s2 b Ht (b_inv _ _ _ _ B4) Hv Hu2) as [md Ho];
      [by apply (b_lease _ _ _ _ B4), (b_lease _ _ _ _ B3)|apply (b_here _ _ _ _ B4)|done..|].
    eexists _, s2, md. split; [exact Ho|]. cbn [vmds]. rewrite Hgl, Hbs. apply Harr.
  - destruct Hs as (Hmd & _). destruct (close_run u v e e2 (inr err) x) as (m4 & -> & B4); [by rewrite Hmd|done|done|by rewrite Hmd|done|unfold try; by rewrite Hrun|].
    apply (b_here _ _ _ _ B4).
Qed.
End volume.

(** ** Examples *)

#[local] Existing Instance map_range.
#[local] Instance no_rings : HashRing := {| HR := unit; NewWithWeights := λ _, tt; GetNodes := λ _ _ _, ([], false) |}.
#[local] Instance no_preconditions : Godbc := {| Require := λ _, Ok tt; Require_true := eq_refl |}.

(** Volume 3, the one of [fx_vol], in a service with its inode at [fx_ino]. *)
Definition bx_data (u : gostring) : blockTempVolumeData := mkVolumeData u fx_ino [].
Definition bx_server (u : gostring) : Server :=
  mkServer false (<[3 := 4]> ∅) 3 (<[[] := fx_vol]> ∅) (mkGlobal 16 []) [] (empty 1) (<[sprint 3 := bx_data u]> ∅) [] [].

Definition bx_view (u : gostring) : vdata := mkVData u fx_ino ∅.

Lemma bx_volume u : vol_data 3 (bx_server u) = Some (bx_view u).
Proof. unfold vol_data, temp_view, volume_data, bx_server, keys. by rewrite lookup_insert_eq. Qed.
Lemma bx_inv u : md_inv (bx_server u).
Proof.
  split; [done|]. intros k d. unfold bx_server, keys. intros [[_ <-]|[_ Hk]]%lookup_insert_Some; [constructor|done].
Qed.

Lemma bx_call_ok u c : vc_uuid c ≠ [] → vc_vid c = 3 → match vc_op c with VSync i => wf_inoderef i ∧ Refs.Volume i = 3 | _ => True end →
  call_ok c (bx_server u).
Proof.
  intros Hu Hv Ho. unfold call_ok. rewrite Hv. split_and!; [done|done|rewrite bx_volume; by eexists|].
  destruct (vc_op c); try done.
Qed.

Definition bx_calls : list vcall :=
  [mkCall [x62] 3 (VLock 0); mkCall [x62] 3 (VSync (mkINodeRef 3 9)); mkCall [x63] 3 (VSave 5 [x73]); mkCall [x63] 3 VGet].

Ltac bx_ok := repeat (apply list.Forall_cons; split);
  [split; [done|apply bx_call_ok; (done || (cbn; unfold wf_inoderef, u64, in_width; cbn; lia))]..|apply list.Forall_nil; done].

Lemma lock_excludes_witness :
  ∃ x', vol_data 3 (run_vcalls bx_calls (bx_server [x61])).2 = Some x' ∧ v_lock x' = [x61] ∧ v_inode x' = fx_ino.
Proof.
  pose proof (lock_excludes [x61] 3 fx_ino bx_calls (bx_server [x61]) (bx_view [x61]) (bx_inv _) ltac:(done) ltac:(done)
    ltac:(bx_ok) (bx_volume [x61]) eq_refl eq_refl) as Hp.
  destruct (run_vcalls bx_calls (bx_server [x61])) as [rs s']. apply Hp.
Defined.

Definition bx_saved : Server :=
  set_data 3 (mkVolumeData [] fx_ino [mkSnapshot [x74] 7 (INodeRef_ToBytes fx_ino)]) (bx_server []).
Definition bx_later : list vcall :=
  [mkCall [x62] 3 (VLock 0); mkCall [x62] 3 (VSync (mkINodeRef 3 9)); mkCall [x63] 3 (VSave 8 [x73]); mkCall [x62] 3 VUnlock].

Lemma bx_later_inode :
  (λ x, (v_lock x, v_inode x)) <$> vol_data 3 (run_vcalls bx_later bx_saved).2 = Some ([], mkINodeRef 3 9).
Proof. vm_compute. reflexivity. Qed.

Lemma snapshot_restore_witness :
  ∃ d3 m, RestoreSnapshot [x61] 0 fx_vol [x74] (run_vcalls bx_later bx_saved).2 = (Ok tt, d3) ∧
    vol_data 3 d3 = Some (mkVData [] fx_ino m).
Proof.
  pose proof (snapshot_restore [x61] 0 fx_vol [x74] 7 bx_later (bx_server []) bx_saved (bx_view []) (bx_inv _) ltac:(done)
    ltac:(done) I eq_refl ltac:(done) I ltac:(done) eq_refl (bx_volume [])) as Hp.
  specialize (Hp ltac:(vm_compute; reflexivity) ltac:(bx_ok)). pose proof bx_later_inode as Hl.
  destruct (run_vcalls bx_later bx_saved) as [rs d2]. destruct Hp as (x2 & Hd & Hr).
  cbn [snd VId fx_vol] in *. rewrite Hd in Hl. injection Hl as Hl _. destruct (Hr Hl) as (d3 & ? & ?).
  by exists d3, (v_snaps x2).
Defined.

(** The file of [fx_written], opened on that volume by client [a]. *)
Definition bx_open : state (S := tempBlockStore) (D := Server) :=
  mkState (file fx_written) (store fx_written) (bx_server [x61]).
Definition bx_synced : state (S := tempBlockStore) (D := Server) := (SyncBlocks bx_open).2.

Lemma is_array_mds {S D D'} `{BlockStoreLaws S} f s (d : D) (d' : D') a n :
  is_array (mkState f s d) a n → is_array (mkState f s d') a n.
Proof. intros [(vs & [] & Hvs) ? ? ?]. split; try done. exists vs. by split. Qed.

Lemma bx_array : is_array bx_open (fx_bytes, 40%nat) (1000 + 1).
Proof.
  destruct (fx_written_array 1001) as [_ Ha]; [lia|]. destruct fx_written as [f s d] eqn:E.
  unfold bx_open. rewrite E. by apply (is_array_mds _ _ d).
Qed.

Definition bx_inode : MINode := with_layers (File.inode (file bx_synced)) fx_layers.

Lemma bx_refs : Forall data_ref (base_refs (blocks (file bx_synced))).
Proof.
  assert (base_refs (blocks (file bx_synced)) = [mkBlockRef fx_ino 1; mkBlockRef fx_ino 2; ZeroBlock]) as ->
    by (vm_compute; reflexivity).
  repeat constructor; cbn; try lia; try done.
Qed.

Lemma bx_wf : wf_inoderef fx_ino.
Proof. unfold wf_inoderef, u64, in_width, fx_ino; cbn; lia. Qed.

Lemma bx_inode_eq : bx_inode = with_layers (File.inode (file fx_synced)) fx_layers.
Proof.
  assert (∀ i j : MINode, IN_Volume i = IN_Volume j → IN_INode i = IN_INode j → IN_Filesize i = IN_Filesize j →
    IN_Attrs i = IN_Attrs j → with_layers i fx_layers = with_layers j fx_layers) as Hx.
  { intros [] []; cbn; intros; by subst. }
  apply Hx; [vm_compute; reflexivity..|]. by_compute.
Qed.

Lemma bx_savable e1 : SyncBlocks bx_open = (Ok tt, e1) → ∃ layers, savable e1 layers.
Proof.
  intros E. assert (e1 = bx_synced) as -> by (unfold bx_synced; by rewrite E).
  assert (writeINodeRef (file bx_synced) = fx_ino) as Hi by (vm_compute; reflexivity). exists fx_layers.
  split; fold bx_inode; rewrite ?bx_inode_eq, ?fx_inode_size, ?Hi;
    [vm_compute; reflexivity|exact bx_refs|vm_compute; reflexivity|exact fx_inode_valid|lia|done|vm_compute; done|done].
Qed.

Lemma volume_close_reopen_witness :
  (block_Close [x61] fx_vol bx_open).1 = Ok tt ∧
  ∃ f (s2 : tempBlockStore) md,
    OpenBlockFile [x62] 0 fx_vol (mkV (store (block_Close [x61] fx_vol bx_open).2)
      (mds (block_Close [x61] fx_vol bx_open).2)) = (Ok f, mkV s2 md) ∧
    is_array (mkState f s2 md) (fx_bytes, 40%nat) 0.
Proof.
  assert ((block_Close [x61] fx_vol bx_open).1 = Ok tt) as E by (vm_compute; reflexivity). split; [exact E|].
  assert (writeINodeRef (file bx_open) = fx_ino) as Hi by (vm_compute; reflexivity).
  pose proof (volume_close_reopen [x61] [x62] 0 fx_vol bx_open (fx_bytes, 40%nat) 1000 (bx_view [x61])
    eq_refl (bx_inv _) ltac:(done) (bx_volume [x61]) eq_refl ltac:(done) ltac:(done) I ltac:(vm_compute; reflexivity) ltac:(vm_compute; reflexivity)
    bx_array ltac:(lia) ltac:(rewrite Hi; exact bx_wf) ltac:(rewrite Hi; reflexivity) ltac:(rewrite Hi; done) bx_savable) as Hp.
  destruct (block_Close [x61] fx_vol bx_open) as [o e']. cbn [fst snd] in *. subst o. apply Hp.
Defined.
