(* ===== verification/Nbd.v ===== *)
(** * Network block devices

    Models [src/internal/nbd]: the loop that serves the requests of a connection
    ([serveLoop] of [nbd.go]), which the kernel's socket and the network server
    share, and the handshake of the network server ([nbdserver.go]); and the finder
    of [src/cmd/torusblk/nbd.go], which makes the devices out of block volumes.

    A socket is the bytes that arrive before the other side closes it, the bytes
    written so far, and how many more the other side takes.  The ioctls that set the
    kernel's device up, the listener and log lines are left out. *)
From S2P Require Import Prelude GoSem GoStrings Refs TempStore Store Crc32 Blockset Proto Models INodeStore File Ring Metadata BlockVolume.

(** ** Sockets *)

Record sock := mkSock { rin : bytes; rout : bytes; room : nat; sclosed : bool }.

Definition ErrUnexpectedEOF : error := ErrMsg "unexpected EOF".
Definition ErrReset : error := ErrMsg "connection reset by peer".

(** [io.ReadFull] into a buffer of [n] bytes. *)
Definition ReadFull (n : nat) : M sock bytes := λ c,
  if decide (n ≤ length (rin c))%nat then
    (Ok (take n (rin c)), mkSock (drop n (rin c)) (rout c) (room c) (sclosed c))
  else (Err (if decide (rin c = []) then EOF else ErrUnexpectedEOF), mkSock [] (rout c) (room c) (sclosed c)).

(** [Write] of a socket writes everything or fails. *)
Definition sock_Write (b : bytes) : M sock unit := λ c,
  if decide (length b ≤ room c)%nat then (Ok tt, mkSock (rin c) (rout c ++ b) (room c - length b) (sclosed c))
  else (Err ErrReset, mkSock (rin c) (rout c ++ take (room c) b) 0 (sclosed c)).

Definition sock_Close : M sock unit := λ c, (Ok tt, mkSock (rin c) (rout c) (room c) true).

(** [binary.Read] and [binary.Write] of a big-endian integer of [n] bytes. *)
Definition read_be (n : nat) : M sock Z := b ← ReadFull n; mret (be_get b).
Definition write_be (n : nat) (z : Z) : M sock unit := sock_Write (be_put n z).

(** ** Devices *)

(** The interface [nbd.Device].  [ReadAt] is given the buffer and gives it back with
    what it read. *)
Class Device (V : Type) := {
  d_ReadAt : bytes → Z → M V (bytes * Z * option error);
  d_WriteAt : bytes → Z → M V (Z * option error);
  d_Sync : M V unit;
  d_Trim : Z → Z → M V unit;
  d_Size : V → Z;
  d_Close : M V unit;
}.

(** ** Requests *)

Definition cmdRead : Z := 0.
Definition cmdWrite : Z := 1.
Definition cmdDisc : Z := 2.
Definition cmdFlush : Z := 3.
Definition cmdTrim : Z := 4.
Definition magicRequest : Z := 0x25609513.
Definition magicReply : Z := 0x67446698.
Definition errIO : Z := 5.

(** [h[lo:hi]] of the header, which has 28 bytes. *)
Definition hfield (lo hi : nat) (h : bytes) : bytes := take (hi - lo) (drop lo h).

Definition hdr_command (h : bytes) : Z * Z := (be_get (hfield 6 8 h), be_get (hfield 4 6 h)).
Definition hdr_handle (h : bytes) : Z := be_get (hfield 8 16 h).
Definition hdr_length (h : bytes) : Z := be_get (hfield 24 28 h).
Definition hdr_magic (h : bytes) : Z := be_get (hfield 0 4 h).
Definition MaxInt64 : Z := 2 ^ 63 - 1.
Definition hdr_offset (h : bytes) : res Z :=
  let u := be_get (hfield 16 24 h) in if decide (u ≤ MaxInt64) then Ok u else Panic.

(** A slice from the start of its array, whose capacity is the whole array. *)
Record gbuf := mkBuf { arr : bytes; blen : nat }.
Definition shown (b : gbuf) : bytes := take (blen b) (arr b).

(** [buf[:n]] *)
Definition reslice (n : nat) (b : gbuf) : res gbuf :=
  if decide (n ≤ length (arr b))%nat then Ok (mkBuf (arr b) n) else Panic.
(** [buf[16:]] *)
Definition body (b : gbuf) : res bytes := if decide (16 ≤ blen b)%nat then Ok (drop 16 (shown b)) else Panic.
Definition set_body (x : bytes) (b : gbuf) : gbuf := mkBuf (blit 16 x (arr b)) (blen b).

Definition hdr_resize (h : bytes) (b : gbuf) : res gbuf :=
  let n := Z.to_nat (hdr_length h + 16) in
  if decide (length (arr b) < n)%nat then Ok (mkBuf (zeros n) n) else reslice n b.

Definition putReplyHeader (h : bytes) (err : Z) (b : gbuf) : res gbuf :=
  if decide (length (arr b) < 16)%nat then Panic
  else Ok (mkBuf (blit 0 (be_put 4 magicReply ++ be_put 4 err ++ hfield 8 16 h) (arr b)) (blen b)).

(** ** The loop *)

Section serve.
Context {V : Type} `{Device V}.

Record sstate := mkServe { cn : sock; mu : bool; dv : V }.

Definition on_sock {A} (m : M sock A) : M sstate A := λ s,
  let '(r, c) := m (cn s) in (r, mkServe c (mu s) (dv s)).
Definition on_dev {A} (m : M V A) : M sstate A := λ s,
  let '(r, v) := m (dv s) in (r, mkServe (cn s) (mu s) v).
Definition mu_Lock : M sstate unit := λ s,
  if mu s then (Err ErrForever, s) else (Ok tt, mkServe (cn s) true (dv s)).
Definition mu_Unlock : M sstate unit := λ s, (Ok tt, mkServe (cn s) false (dv s)).

Definition reply_code (err : option error) : Z := match err with Some _ => errIO | None => 0 end.
(** An error that is only logged. *)
Definition logged (m : M V unit) : M sstate unit := _ ← try (on_dev m); mret tt.

(** What is done for a request whose header and data are read, and the reply; nothing
    is written when the connection is closed. *)
Definition serve_request (h : bytes) (cmd : Z) (buf : gbuf) : M sstate (option gbuf) :=
  if decide (cmd = cmdRead) then
    buf ← lift (hdr_resize h buf);
    b ← lift (body buf);
    off ← lift (hdr_offset h);
    '(b', _, err) ← on_dev (d_ReadAt b off);
    buf ← lift (putReplyHeader h (reply_code err) (set_body b' buf));
    mret (Some buf)
  else if decide (cmd = cmdWrite) then
    b ← lift (body buf);
    off ← lift (hdr_offset h);
    '(_, err) ← on_dev (d_WriteAt b off);
    buf ← lift (putReplyHeader h (reply_code err) buf);
    buf ← lift (reslice 16 buf);
    mret (Some buf)
  else if decide (cmd = cmdTrim) then
    off ← lift (hdr_offset h);
    _ ← logged (d_Trim off (hdr_length h));
    _ ← logged d_Sync;
    buf ← lift (putReplyHeader h 0 buf);
    buf ← lift (reslice 16 buf);
    mret (Some buf)
  else if decide (cmd = cmdFlush) then
    _ ← logged d_Sync;
    buf ← lift (putReplyHeader h 0 buf);
    buf ← lift (reslice 16 buf);
    mret (Some buf)
  else if decide (cmd = cmdDisc) then
    _ ← logged d_Sync;
    _ ← on_sock sock_Close;
    mret None
  else throw (ErrMsg "nbd: invalid command").

(** One round of the loop: [None] when it returns nil.  The mutex stays locked when
    the data of a write does not arrive. *)
Definition serve_round (buf : gbuf) : M sstate (option gbuf) :=
  _ ← mu_Lock;
  r ← try (on_sock (ReadFull 28));
  match r with
  | inr e => _ ← mu_Unlock; throw e
  | inl h =>
      if decide (hdr_magic h ≠ magicRequest) then _ ← mu_Unlock; throw (ErrMsg "nbd: invalid magic")
      else
        let cmd := (hdr_command h).1 in
        buf ← (if decide (cmd = cmdWrite) then
                 buf ← lift (hdr_resize h buf);
                 b ← lift (body buf);
                 x ← on_sock (ReadFull (length b));
                 mret (set_body x buf)
               else mret buf);
        _ ← mu_Unlock;
        o ← serve_request h cmd buf;
        match o with
        | None => mret None
        | Some buf => _ ← on_sock (sock_Write (shown buf)); mret (Some buf)
        end
  end.

(** Every round reads a header, so one round more than there are bytes is enough. *)
Fixpoint serve_rounds (rounds : nat) (buf : gbuf) : M sstate unit :=
  match rounds with
  | O => throw ErrForever
  | S rounds' => o ← serve_round buf; match o with None => mret tt | Some buf => serve_rounds rounds' buf end
  end.
Definition serveLoop : M sstate unit :=
  n ← gets (λ s, length (rin (cn s)));
  serve_rounds (S n) (mkBuf (zeros 16) 16).
End serve.
Arguments sstate : clear implicits.

(** ** The handshake of the network server *)

Definition nbdMagic : Z := 0x4e42444d41474943.
Definition nbdOpts : Z := 0x49484156454F5054.
Definition nbdFlagFixedNewStyle : Z := 1.
Definition nbdOptExportName : Z := 1.
Definition nbdOptAbort : Z := 2.
Definition nbdOptList : Z := 3.
Definition nbdRepAck : Z := 1.
Definition nbdRepServer : Z := 2.
Definition nbdRepErrUnsup : Z := 0x80000001.
Definition flagHasFlags : Z := Z.shiftl 1 0.
Definition flagSendFlush : Z := Z.shiftl 1 2.
Definition flagSendTrim : Z := Z.shiftl 1 5.

(** [writeFull]; a socket never writes less without an error. *)
Definition writeFull (b : bytes) : M sock unit := sock_Write b.

Definition optReply (opt reptype : Z) (data : bytes) : M sock unit :=
  writeFull (be_put 8 0x3e889045565a9 ++ be_put 4 opt ++ be_put 4 reptype ++ be_put 4 (Z.of_nat (length data)) ++ data).

Record nbd_option := mkOption { opt : Z; odata : bytes }.

Definition getOpt : M sock nbd_option :=
  optMagic ← read_be 8;
  if decide (optMagic ≠ nbdOpts) then throw (ErrMsg "bad option magic")
  else
    o ← read_be 4;
    optLen ← read_be 4;
    if decide (4096 < optLen) then throw (ErrMsg "strange option length")
    else if decide (o = nbdOptExportName) then data ← ReadFull (Z.to_nat optLen); mret (mkOption o data)
    else if decide (o = nbdOptAbort ∨ o = nbdOptList) then mret (mkOption o [])
    else throw (ErrMsg "unknown option").

(** The interface [DeviceFinder]: a device is made of what the finder works on. *)
Class DeviceFinder (W V : Type) := {
  FindDevice : gostring → W → res V * W;
  ListDevices : M W (list gostring);
}.

Section handler.
Context {W V : Type} `{Device V} `{DeviceFinder W V}.

Record NBDConn := mkConn { nc : sock; nworld : W; ndevice : option V; nexport : gostring }.

Definition on_nc {A} (m : M sock A) : M NBDConn A := λ s,
  let '(r, c) := m (nc s) in (r, mkConn c (nworld s) (ndevice s) (nexport s)).
Definition on_world {A} (m : M W A) : M NBDConn A := λ s,
  let '(r, w) := m (nworld s) in (r, mkConn (nc s) w (ndevice s) (nexport s)).

(** The replies to a list of the devices. *)
Fixpoint list_replies (devs : list gostring) : M sock unit :=
  match devs with
  | [] => optReply nbdOptList nbdRepAck []
  | d :: devs' => _ ← optReply nbdOptList nbdRepServer (be_put 4 (Z.of_nat (length d)) ++ d); list_replies devs'
  end.

(** A round of the loop over the options: whether it goes on. *)
Definition option_round : M NBDConn bool :=
  o ← on_nc getOpt;
  if decide (opt o = nbdOptExportName) then
    if decide (odata o = []) then throw (ErrMsg "nbdserve doesn't support empty volume name")
    else
      dev ← (λ s, let '(r, w) := FindDevice (odata o) (nworld s) in (r, mkConn (nc s) w (ndevice s) (nexport s)));
      _ ← modify (λ s, mkConn (nc s) (nworld s) (Some dev) (odata o));
      mret false
  else if decide (opt o = nbdOptAbort) then
    _ ← on_nc (optReply nbdOptList nbdRepAck []); mret false
  else if decide (opt o = nbdOptList) then
    devs ← on_world ListDevices;
    _ ← on_nc (list_replies devs); mret true
  else _ ← on_nc (optReply (opt o) nbdRepErrUnsup []); mret true.

(** Every option has a magic number, so one round more than there are bytes is enough. *)
Fixpoint option_rounds (rounds : nat) : M NBDConn unit :=
  match rounds with
  | O => throw ErrForever
  | S rounds' => go ← option_round; if (go : bool) then option_rounds rounds' else mret tt
  end.
Definition options : M NBDConn unit := n ← gets (λ s, length (rin (nc s))); option_rounds (S n).

(** What a call on a nil device does. *)
Definition device_or_panic : M NBDConn V := s ← get; lift (or_panic (ndevice s)).

(** The loop of the connection on its device; its error is only logged. *)
Definition serve_device : M NBDConn unit := λ s,
  match ndevice s with
  | None => (Panic, s)
  | Some v =>
      let '(r, s') := serveLoop (mkServe (nc s) false v) in
      (match r with Panic => Panic | _ => Ok tt end, mkConn (cn s') (nworld s) (Some (dv s')) (nexport s))
  end.

(** The second half of [handler]: the size, the flags and the padding, and the loop. *)
Definition serve_export : M NBDConn unit :=
  v ← device_or_panic;
  _ ← on_nc (write_be 8 (d_Size v));
  _ ← on_nc (write_be 2 (Z.lor flagHasFlags (Z.lor flagSendFlush flagSendTrim)));
  _ ← on_nc (writeFull (zeros 124));
  serve_device.

Definition handler : M NBDConn unit :=
  _ ← on_nc (write_be 8 nbdMagic);
  _ ← on_nc (write_be 8 nbdOpts);
  _ ← on_nc (write_be 2 nbdFlagFixedNewStyle);
  _ ← on_nc (read_be 4);
  _ ← options;
  serve_export.

(** [NBDConn.Close]: the error of closing the device is dropped. *)
Definition conn_Close : M NBDConn unit :=
  s ← get;
  _ ← match ndevice s with
      | Some v => λ s, let '(r, v') := d_Close v in
          (match r with Panic => Panic | _ => Ok tt end, mkConn (nc s) (nworld s) (Some v') (nexport s))
      | None => mret tt
      end;
  on_nc sock_Close.

(** The goroutine of a connection, from [Serve]. *)
Definition serve_conn (c : sock) (w : W) : res unit * NBDConn :=
  (_ ← try handler; conn_Close) (mkConn c w None []).
End handler.
Arguments NBDConn : clear implicits.

(** ** Block volumes as devices *)

Section finder.
Context {S : Type} `{B : BlockStore S} {D : Type} `{BM : BlockMetadata D} `{Range} `{Godbc}.

Definition blockfile_Device (uuid : gostring) : Device (state (S := S) (D := D)) := {|
  d_ReadAt := File.ReadAt;
  d_WriteAt := File.WriteAt;
  d_Sync := e ← get; block_Sync uuid (volume (file e));
  d_Trim := File.Trim;
  d_Size e := IN_Filesize (inode (file e));
  d_Close := e ← get; block_Close uuid (volume (file e));
|}.

Definition finder (uuid : gostring) (lease : Z) (volumes : M D (list Models.Volume)) :
    DeviceFinder (vstate (S := S) (D := D)) (state (S := S) (D := D)) := {|
  FindDevice name e :=
    match (v ← v_mds (OpenBlockVolume uuid name); OpenBlockFile uuid lease v) e with
    | (Ok f, e') => (Ok (mkState f (vstore e') (vmds e')), e')
    | (Err x, e') => (Err x, e')
    | (Panic, e') => (Panic, e')
    end;
  ListDevices := vols ← v_mds volumes; mret (VName <$> vols);
|}.
End finder.
