(* ===== verification/NbdSpec.v ===== *)
(** * What the network block device server promises

    On a connection that stays up, the requests of a client are the calls of the
    device, one after the other, and the replies carry their outcomes; no bytes a
    client sends make the loop go on for ever or, but for an offset that does not fit
    a signed integer, panic.  The handshake leads to the device the client names; a
    client that aborts it brings the process down. *)
From S2P Require Import Prelude GoSem GoStrings Refs TempStore Store Crc32 Blockset BlocksetSpec Proto Models INodeStore File FileProps Ring Metadata MetaTemp BlockVolume Nbd.

(** ** Requests on the wire *)

Inductive request : Type :=
  | RRead (off : Z) (len : nat)
  | RWrite (off : Z) (data : bytes)
  | RTrim (off : Z) (len : nat)
  | RFlush.
Record nreq := mkReq { rq_flags : Z; rq_handle : bytes; rq : request }.

Definition req_cmd (r : request) : Z :=
  match r with RRead _ _ => cmdRead | RWrite _ _ => cmdWrite | RTrim _ _ => cmdTrim | RFlush => cmdFlush end.
Definition req_off (r : request) : Z := match r with RRead o _ | RWrite o _ | RTrim o _ => o | RFlush => 0 end.
Definition req_len (r : request) : nat := match r with RRead _ n | RTrim _ n => n | RWrite _ d => length d | RFlush => 0 end.
Definition req_data (r : request) : bytes := match r with RWrite _ d => d | _ => [] end.

Definition header (flags cmd : Z) (handle : bytes) (off len : Z) : bytes :=
  be_put 4 magicRequest ++ be_put 2 flags ++ be_put 2 cmd ++ handle ++ be_put 8 off ++ be_put 4 len.
Definition encode (r : nreq) : bytes :=
  header (rq_flags r) (req_cmd (rq r)) (rq_handle r) (req_off (rq r)) (Z.of_nat (req_len (rq r))) ++ req_data (rq r).


Definition reply_header (err : Z) (handle : bytes) : bytes := be_put 4 magicReply ++ be_put 4 err ++ handle.



(** ** The reply buffer *)

Definition buf_ok (b : gbuf) : Prop := (16 ≤ blen b ≤ length (arr b))%nat.

Lemma resize_ok h b : 0 ≤ hdr_length h → (16 ≤ length (arr b))%nat →
  ∃ b', hdr_resize h b = Ok b' ∧ buf_ok b' ∧ blen b' = Z.to_nat (hdr_length h + 16).
Proof.
  intros Hl Hb. unfold hdr_resize, reslice, buf_ok. case_decide; [|rewrite decide_True by lia]; eexists; split_and!; try done; cbn; autorewrite with len; lia.
Qed.
Lemma body_ok b : buf_ok b → body b = Ok (drop 16 (shown b)) ∧ length (drop 16 (shown b)) = (blen b - 16)%nat.
Proof. unfold buf_ok, body, shown. intros Hb. rewrite decide_True by lia. autorewrite with len. split; [done|lia]. Qed.

(** The bytes of the buffer after the reply is put: the header, and what was there. *)
Lemma put_reply_shown h err b :
  length (hfield 8 16 h) = 8%nat → buf_ok b →
  ∃ b', putReplyHeader h err b = Ok b' ∧ buf_ok b' ∧ blen b' = blen b ∧
    shown b' = reply_header err (hfield 8 16 h) ++ drop 16 (shown b) ∧
    ∃ b2, reslice 16 b' = Ok b2 ∧ buf_ok b2 ∧ shown b2 = reply_header err (hfield 8 16 h).
Proof.
  intros Hh Hb. unfold putReplyHeader. unfold buf_ok in *. rewrite decide_False by lia.
  fold (reply_header err (hfield 8 16 h)). set (H := reply_header err (hfield 8 16 h)).
  assert (length H = 16%nat) as HH by (unfold H, reply_header; autorewrite with len; lia).
  eexists. split; [done|]. cbn [blen arr]. unfold reslice, shown, blit. cbn [blen arr take].
  rewrite (take_ge H), take_0 by lia. cbn [app]. autorewrite with len. split_and!; [lia..|done| |].
  - rewrite take_app, (take_ge H) by lia. f_equal. rewrite HH. cbn [Nat.add]. by rewrite skipn_firstn_comm.
  - rewrite decide_True by lia. eexists. split; [done|]. cbn [blen arr]. autorewrite with len.
    split; [lia|]. by rewrite take_app_le, take_ge by lia.
Qed.
Lemma set_body_ok b x : buf_ok b → (length x = blen b - 16)%nat →
  buf_ok (set_body x b) ∧ blen (set_body x b) = blen b ∧ drop 16 (shown (set_body x b)) = x.
Proof.
  unfold buf_ok, set_body, shown, blit. cbn [arr blen]. intros Hb Hx. autorewrite with len. split_and!; [lia..|].
  rewrite skipn_firstn_comm, drop_app, drop_ge by (autorewrite with len; lia). cbn [app]. autorewrite with len.
  replace (16 - 16 `min` length (arr b))%nat with 0%nat by lia. rewrite drop_0, take_app, !take_ge by (rewrite ?take_ge; lia).
  replace (blen b - 16 - length x)%nat with 0%nat by lia. by rewrite take_0, app_nil_r.
Qed.

(** ** The requests as calls of the device *)

(** What [io.ReaderAt] asks of [ReadAt]: what was in the buffer before makes no
    difference, and without an error the whole buffer is read. *)
Class DeviceLaws (V : Type) `{Device V} := {
  read_at_law b off (v : V) b1 n err v' :
    d_ReadAt b off v = (Ok (b1, n, err), v') →
    length b1 = length b ∧
    ∀ c, length c = length b → ∃ c1, d_ReadAt c off v = (Ok (c1, n, err), v') ∧ (err = None → c1 = b1);
}.


Section session.
Context {V : Type} `{DV : DeviceLaws V}.



Lemma on_dev_run {A} (m : M V A) c l v a v' : m v = (Ok a, v') → on_dev m (mkServe c l v) = (Ok a, mkServe c l v').
Proof. unfold on_dev. cbn. by intros ->. Qed.


Lemma lift_run {S A} (r : res A) (a : A) (s : S) : r = Ok a → lift r s = (Ok a, s).
Proof. by intros ->. Qed.




(** *** The socket around it *)

Lemma ReadFull_run x rest out rm cl : ReadFull (length x) (mkSock (x ++ rest) out rm cl) = (Ok x, mkSock rest out rm cl).
Proof.
  unfold ReadFull. cbn. rewrite decide_True by (autorewrite with len; lia). by rewrite take_app_length, drop_app_length.
Qed.
Lemma sock_Write_run b inp out rm cl : (length b ≤ rm)%nat →
  sock_Write b (mkSock inp out rm cl) = (Ok tt, mkSock inp (out ++ b) (rm - length b) cl).
Proof. intros Hb. unfold sock_Write. cbn. by rewrite decide_True. Qed.
Lemma on_sock_run {A} (m : M sock A) c l (v : V) a c' : m c = (Ok a, c') → on_sock m (mkServe c l v) = (Ok a, mkServe c' l v).
Proof. unfold on_sock. cbn. by intros ->. Qed.
Lemma try_run {S A} (m : M S A) s a s' : m s = (Ok a, s') → try m s = (Ok (inl a), s').
Proof. unfold try. by intros ->. Qed.



(** The request to disconnect, which is not answered. *)
Definition disconnect : bytes := header 0 cmdDisc (zeros 8) 0 0.




(** ** Any bytes at all *)

(** A device that always answers, if only with an error. *)
Definition answers : Prop :=
  (∀ b off (v : V), ∃ r v', d_ReadAt b off v = (Ok r, v')) ∧ (∀ b off (v : V), ∃ r v', d_WriteAt b off v = (Ok r, v')) ∧
  (∀ off len (v : V), (d_Trim off len v).1 ≠ Panic) ∧ (∀ v : V, (d_Sync v).1 ≠ Panic).

Lemma logged_any (m : M V unit) c l v : (m v).1 ≠ Panic → ∃ v', logged m (mkServe c l v) = (Ok tt, mkServe c l v').
Proof.
  intros Hm. unfold logged, try, mbind, M_bind, on_dev. cbn. destruct (m v) as [[u|e|] w]; [by eexists|by eexists|done].
Qed.

(** The next request of the input, if its header has the magic number and its data is
    there: the header, and what comes after the data. *)
Definition next_request (inp : bytes) : option (bytes * bytes) :=
  let h := take 28 inp in
  let n := if decide ((hdr_command h).1 = cmdWrite) then Z.to_nat (hdr_length h) else 0%nat in
  if decide (hdr_magic h = magicRequest ∧ (28 + n ≤ length inp)%nat) then Some (h, drop (28 + n) inp) else None.

(** A command that has an offset, one whose offset is no [int64], and one that is served. *)
Definition located (h : bytes) : Prop := (hdr_command h).1 = cmdRead ∨ (hdr_command h).1 = cmdWrite ∨ (hdr_command h).1 = cmdTrim.
Definition bad_request (h : bytes) : Prop := located h ∧ MaxInt64 < be_get (hfield 16 24 h).
Definition good_request (h : bytes) : Prop := (hdr_command h).1 = cmdFlush ∨ located h ∧ be_get (hfield 16 24 h) ≤ MaxInt64.
Definition reply_size (h : bytes) : nat := if decide ((hdr_command h).1 = cmdRead) then Z.to_nat (hdr_length h + 16) else 16.

(** The inputs that have a request with a bad offset behind requests that are served,
    whose replies the client takes ([rm] bytes in all). *)
Inductive crashes : bytes → nat → Prop :=
  | crash_now inp rm h rest : next_request inp = Some (h, rest) → bad_request h → crashes inp rm
  | crash_later inp rm h rest : next_request inp = Some (h, rest) → good_request h → (reply_size h ≤ rm)%nat →
      crashes rest (rm - reply_size h) → crashes inp rm.

Lemma length_hfield h : length h = 28%nat → length (hfield 8 16 h) = 8%nat.
Proof. intros Hh. unfold hfield. autorewrite with len. lia. Qed.
Lemma hdr_length_pos h : 0 ≤ hdr_length h.
Proof. apply be_get_range. Qed.

(** The last two steps of a request. *)
Lemma short_any h err buf (s : sstate V) : length h = 28%nat → buf_ok buf →
  ∃ buf', (buf ← lift (putReplyHeader h err buf); buf ← lift (reslice 16 buf); mret (Some buf)) s = (Ok (Some buf'), s) ∧ buf_ok buf' ∧
    length (shown buf') = 16%nat.
Proof.
  intros Hh Hb. destruct (put_reply_shown h err buf (length_hfield h Hh) Hb) as (b3 & E4 & _ & _ & _ & b4 & E5 & Hb4 & Hs).
  run_step (lift_run _ _ s E4). run_step (lift_run _ _ s E5). exists b4. split_and!; [done|done|]. rewrite Hs. unfold reply_header.
  pose proof (length_hfield h Hh). autorewrite with len. lia.
Qed.

(** What a request comes to. *)
Definition request_end (h : bytes) (s : sstate V) (r : res (option gbuf) * sstate V) : Prop :=
  match r with
  | (Ok (Some buf), s') => good_request h ∧ buf_ok buf ∧ mu s' = mu s ∧ cn s' = cn s ∧ length (shown buf) = reply_size h
  | (Ok None, _) => ¬ good_request h ∧ ¬ bad_request h
  | (Err e, _) => e ≠ ErrForever ∧ ¬ good_request h ∧ ¬ bad_request h
  | (Panic, _) => bad_request h
  end.

Lemma offset_any h (k : Z → M (sstate V) (option gbuf)) s0 s :
  located h → (∀ off, good_request h → request_end h s0 (k off s)) → request_end h s0 ((off ← lift (hdr_offset h); k off) s).
Proof.
  intros Hl Hk. unfold lift, mbind, M_bind, hdr_offset. cbv zeta. case_decide as Ho; [apply Hk; right; by split|].
  split; [done|]. by apply Z.nle_gt.
Qed.

Lemma good_not_bad h : good_request h → ¬ bad_request h.
Proof. intros [Hf|[_ Ho]] [Hl Hb]; [|lia]. unfold located in Hl. rewrite Hf in Hl. by destruct Hl as [?|[?|?]]. Qed.
Lemma other_command h : ¬ located h → (hdr_command h).1 ≠ cmdFlush → ¬ good_request h ∧ ¬ bad_request h.
Proof. unfold good_request, bad_request. tauto. Qed.

Lemma request_any h buf (s : sstate V) : answers → length h = 28%nat → buf_ok buf →
  request_end h s (serve_request h (hdr_command h).1 buf s).
Proof.
  intros (HR & HW & HT & HS) Hh Hb. destruct s as [c l v]. unfold serve_request.
  assert (∀ err (s' : sstate V), (hdr_command h).1 ≠ cmdRead → good_request h → mu s' = l → cn s' = c → request_end h (mkServe c l v)
    ((buf ← lift (putReplyHeader h err buf); buf ← lift (reslice 16 buf); mret (Some buf)) s')) as Hshort.
  { intros err s' Hc Hg Hl Hs. destruct (short_any h err buf s' Hh Hb) as (b & -> & Hb' & Hlen). cbn. unfold reply_size.
    by rewrite decide_False by done. }
  repeat case_decide.
  - destruct (resize_ok h buf) as (b1 & E1 & Hb1 & Hn); [apply hdr_length_pos|unfold buf_ok in Hb; lia|].
    destruct (body_ok b1 Hb1) as [E2 Lb]. run_step (lift_run _ _ (mkServe c l v) E1). run_step (lift_run _ _ (mkServe c l v) E2).
    apply offset_any; [by left|]. intros off Hg. destruct (HR (drop 16 (shown b1)) off v) as ([[b' n] err] & v' & E3).
    run_step (on_dev_run _ c l v _ _ E3). destruct (read_at_law _ _ _ _ _ _ _ E3) as [L3 _].
    destruct (set_body_ok b1 b' Hb1) as (Hb2 & Hl2 & _); [lia|].
    destruct (put_reply_shown h (reply_code err) (set_body b' b1) (length_hfield h Hh) Hb2) as (b3 & E5 & Hb3 & Hl3 & _).
    run_step (lift_run _ _ (mkServe c l v') E5). cbn. split_and!; [done..|]. unfold reply_size, shown. rewrite decide_True by done.
    unfold buf_ok in Hb3. autorewrite with len. lia.
  - destruct (body_ok buf Hb) as [E2 Lb]. run_step (lift_run _ _ (mkServe c l v) E2). apply offset_any; [by right; left|]. intros off Hg.
    destruct (HW (drop 16 (shown buf)) off v) as ([n err] & v' & E3). run_step (on_dev_run _ c l v _ _ E3). by apply Hshort.
  - apply offset_any; [by right; right|]. intros off Hg. destruct (logged_any (d_Trim off (hdr_length h)) c l v) as [v1 E1]; [done|].
    run_step E1. destruct (logged_any d_Sync c l v1) as [v2 E2]; [done|]. run_step E2. by apply Hshort.
  - destruct (logged_any d_Sync c l v) as [v2 E2]; [done|]. run_step E2. apply Hshort; [done|by left|done|done].
  - destruct (logged_any d_Sync c l v) as [v2 E2]; [done|]. run_step E2. by apply other_command; [intros [?|[?|?]]|].
  - split; [done|]. by apply other_command; [intros [?|[?|?]]|].
Qed.

(** What a round comes to. *)
Definition round_end (c : sock) (r : res (option gbuf) * sstate V) : Prop :=
  match r with
  | (Ok (Some buf), s') => ∃ h, next_request (rin c) = Some (h, rin (cn s')) ∧ good_request h ∧ (reply_size h ≤ room c)%nat ∧
      buf_ok buf ∧ mu s' = false ∧ room (cn s') = (room c - reply_size h)%nat
  | (Ok None, _) => ¬ crashes (rin c) (room c)
  | (Err e, _) => e ≠ ErrForever ∧ ¬ crashes (rin c) (room c)
  | (Panic, _) => crashes (rin c) (room c)
  end.

Lemma next_request_none inp rm : next_request inp = None → ¬ crashes inp rm.
Proof. intros Hn Hc. inversion Hc; congruence. Qed.
Lemma no_crash inp rm h rest : next_request inp = Some (h, rest) → ¬ bad_request h → (good_request h → (rm < reply_size h)%nat) → ¬ crashes inp rm.
Proof. intros Hn Hb Hg Hc. inversion Hc as [? ? h' r' Hn'|? ? h' r' Hn' Hg' Hr']; rewrite Hn in Hn'; simplify_eq; [done|]. specialize (Hg Hg'). lia. Qed.

(** The data of a write, if there is any. *)
Lemma data_any h rest out rm cl buf (v : V) (n := if decide ((hdr_command h).1 = cmdWrite) then Z.to_nat (hdr_length h) else 0%nat) : buf_ok buf →
  ∃ r, (if decide ((hdr_command h).1 = cmdWrite) then
     buf ← lift (hdr_resize h buf); b ← lift (body buf); x ← on_sock (ReadFull (length b)); mret (set_body x buf)
   else mret buf) (mkServe (mkSock rest out rm cl) true v) = r ∧
  if decide (n ≤ length rest)%nat then ∃ b, r = (Ok b, mkServe (mkSock (drop n rest) out rm cl) true v) ∧ buf_ok b
  else ∃ e, r.1 = Err e ∧ e ≠ ErrForever.
Proof.
  intros Hb. eexists. split; [reflexivity|]. unfold n. clear n. destruct (decide ((hdr_command h).1 = cmdWrite)) as [Hc|Hc]; [|rewrite decide_True by lia; by exists buf].
  destruct (resize_ok h buf) as (b1 & E2 & Hb1 & Hn); [apply hdr_length_pos|unfold buf_ok in Hb; lia|].
  destruct (body_ok b1 Hb1) as [E3 Lb]. run_step (lift_run _ _ (mkServe (mkSock rest out rm cl) true v) E2).
  run_step (lift_run _ _ (mkServe (mkSock rest out rm cl) true v) E3). rewrite Lb. pose proof (hdr_length_pos h).
  replace (blen b1 - 16)%nat with (Z.to_nat (hdr_length h)) by lia. unfold mbind, M_bind, on_sock, ReadFull. cbn. case_decide as Hl.
  - eexists. split; [done|]. apply set_body_ok; [done|]. autorewrite with len. lia.
  - eexists. split; [done|]. by case_decide.
Qed.

Lemma round_any buf c (v : V) : answers → buf_ok buf → round_end c (serve_round buf (mkServe c false v)).
Proof.
  intros HA Hb. unfold serve_round. erewrite bind_step by reflexivity. cbn [mu cn dv].
  destruct c as [inp out rm cl]. destruct (decide (28 ≤ length inp)%nat) as [Hlen|Hlen].
  2: { assert (try (on_sock (ReadFull 28)) (mkServe (mkSock inp out rm cl) true v) =
      (Ok (inr (if decide (inp = []) then EOF else ErrUnexpectedEOF)), mkServe (mkSock [] out rm cl) true v)) as E.
    { unfold try, on_sock, ReadFull. cbn. by rewrite decide_False. }
    run_step E. split; [by case_decide|]. apply next_request_none. unfold next_request; cbv zeta; cbn [rin]. rewrite decide_False; [done|]. intros [_ Hx]. lia. }
  pose proof (take_drop 28 inp) as Hin. assert (length (take 28 inp) = 28%nat) as H28 by (autorewrite with len; lia).
  assert (next_request inp = _) as Hnext by (unfold next_request; reflexivity). cbv zeta in Hnext. rewrite <- drop_drop in Hnext.
  assert (length inp = (28 + length (drop 28 inp))%nat) as Hl by (autorewrite with len; lia). rewrite Hl in Hnext. clear Hl.
  set (h := take 28 inp) in *. set (rest := drop 28 inp) in *. rewrite <- Hin.
  pose proof (ReadFull_run h rest out rm cl) as E1. rewrite H28 in E1. apply (on_sock_run _ _ true v), try_run in E1.
  run_step E1. rewrite Hin. destruct (decide (hdr_magic h ≠ magicRequest)) as [Hm|Hm]; [cbn; split; [done|]; apply next_request_none; cbn [rin]; rewrite Hnext, decide_False by tauto; done|].
  cbv zeta. destruct (data_any h rest out rm cl buf v Hb) as (r & E2 & Hr). unfold mbind at 1, M_bind at 1. rewrite E2. clear E2.
  set (n := if decide ((hdr_command h).1 = cmdWrite) then _ else _) in *. case_decide as Hfit.
  2: { destruct r as [r s']. cbn [fst] in Hr. destruct Hr as (e & -> & He). split; [done|]. apply next_request_none. cbn [rin].
    rewrite Hnext, decide_False; [done|]. intros [_ Hx]. lia. }
  destruct Hr as (b & -> & Hb'). rewrite decide_True in Hnext by (split; [by apply dec_stable|lia]).
  erewrite bind_step by reflexivity. pose proof (request_any h b (mkServe (mkSock (drop n rest) out rm cl) false v) HA H28 Hb') as Hreq.
  cbn [mu cn dv]. unfold mbind, M_bind. destruct (serve_request h _ b _) as [[[b3|]|e|] s3]; cbn in Hreq |- *.
  - destruct Hreq as (Hg & Hb3 & Hm3 & Hc3 & Hs3). unfold on_sock, sock_Write. cbn. rewrite Hc3, Hs3. cbn. case_decide.
    + exists h. by split_and!.
    + split; [done|]. eapply no_crash; [done|by apply good_not_bad|intros _; cbn [room]; lia].
  - eapply no_crash; [done|tauto|tauto].
  - destruct Hreq as (He & Hng & Hnb). split; [done|]. eapply no_crash; [done|tauto|tauto].
  - by eapply crash_now.
Qed.

Lemma rounds_any rounds : ∀ buf c (v : V), answers → buf_ok buf → (length (rin c) < rounds)%nat →
  let r := (serve_rounds rounds buf (mkServe c false v)).1 in
  r ≠ Err ErrForever ∧ (r = Panic ↔ crashes (rin c) (room c)).
Proof.
  induction rounds as [|rounds IH]; intros buf c v HA Hb Hn; [lia|]. cbn [serve_rounds].
  pose proof (round_any buf c v HA Hb) as Hr. unfold mbind, M_bind.
  destruct (serve_round buf (mkServe c false v)) as [[[b|]|e|] [c' m' v']]; cbn [round_end mu cn] in Hr; cbn [fst].
  - destruct Hr as (h & Hnx & Hg & Hrm & Hb' & -> & Hroom).
    assert (length (rin c') < length (rin c))%nat as Hless.
    { unfold next_request in Hnx. cbv zeta in Hnx. destruct (decide (hdr_magic _ = _ ∧ _)) as [[_ Hle]|]; [|done]. injection Hnx as _ <-.
      rewrite length_drop. lia. }
    destruct (IH b c' v' HA Hb' ltac:(lia)) as [H1 H2]. rewrite Hroom in H2. split; [done|]. rewrite H2. split; [by eapply crash_later|].
    intros Hc. inversion Hc as [? ? h' r' Hn' Hbad|? ? h' r' Hn' Hg' Hr']; rewrite Hnx in Hn'; simplify_eq; [|done]. by apply good_not_bad in Hg.
  - split; [done|]. split; [done|]. by intros ?%Hr.
  - destruct Hr as [He Hc]. split; [by intros [= ->]|]. split; [done|]. by intros ?%Hc.
  - by split_and!.
Qed.

(** C23: what bytes from a client can do to the server.  The calls of the device do not
    panic ([answers]).  Whatever arrives on a connection, the loop comes to its end: it
    returns, with an error or without, or panics.  It panics exactly when the input, cut
    into requests, has a read, a write with all its data, or a trim whose offset is no
    signed 64-bit integer, behind nothing but requests that are served: reads, writes and
    trims with good offsets and flushes whose replies the client takes.  So no request
    makes it index or slice a buffer out of range; and a client that sends such an offset
    ends the process with all its volumes. *)
Theorem nbd_input_bounds (c : sock) (v : V) :
  answers →
  let r := (serveLoop (mkServe c false v)).1 in
  r ≠ Err ErrForever ∧ (r = Panic ↔ crashes (rin c) (room c)).
Proof.
  intros HA. unfold serveLoop. rewrite (bind_step _ _ _ (length (rin c)) (mkServe c false v)) by reflexivity.
  by apply (rounds_any (S (length (rin c))) (mkBuf (zeros 16) 16) c v HA); [|lia].
Qed.
End session.

(** ** Block volumes are devices *)

Lemma take_blit (off : nat) (src b c : bytes) :
  length b = length c → take off b = take off c →
  take (off + copied off src b) (blit off src b) = take (off + copied off src c) (blit off src c).
Proof.
  intros Hl Ht. destruct (decide (length b ≤ off)%nat) as [Hge|Hlt].
  { rewrite !take_ge in Ht by lia. by subst. }
  assert (∀ x : bytes, (off < length x)%nat → take (off + copied off src x) (blit off src x) = take off x ++ take (length x - off) src) as Hx.
  { intros x Hx. unfold blit, copied. rewrite take_app, take_ge by (autorewrite with len; lia). f_equal.
    rewrite length_take, take_app, take_ge by (autorewrite with len; lia).
    replace (_ - _ - _)%nat with 0%nat by (autorewrite with len; lia). by rewrite take_0, app_nil_r. }
  rewrite !Hx by lia. by rewrite Hl, Ht.
Qed.

Section volume.
Context {S : Type} `{B : BlockStore S} {D : Type} `{BM : BlockMetadata D} `{Range} `{Godbc}.
Implicit Types (e : state (S := S) (D := D)).

(** A read that goes on after [n] bytes takes nothing from the rest of the buffer. *)
Lemma read_loop_buffer fuel : ∀ b c toRead n off e b1 n1 err e',
  length c = length b → 0 ≤ n → take (Z.to_nat n) b = take (Z.to_nat n) c →
  read_loop fuel b toRead n off e = (Ok (b1, n1, err), e') →
  ∃ c1, read_loop fuel c toRead n off e = (Ok (c1, n1, err), e') ∧ length b1 = length b ∧ length c1 = length b ∧
    take (Z.to_nat n1) b1 = take (Z.to_nat n1) c1 ∧ (err = None → toRead ≤ n1).
Proof.
  induction fuel as [|fuel IH]; intros b c toRead n off e b1 n1 err e' Hl Hn Ht Hr.
  { cbn in Hr |- *. case_decide; [|done]. injection Hr as <- <- <- <-. by exists c. }
  cbn [read_loop] in Hr |- *. case_decide; [injection Hr as <- <- <- <-; by exists c|].
  apply bind_ok in Hr as (f & e1 & E1 & Hr). run_step E1. apply bind_ok in Hr as (i & e2 & E2 & Hr). run_step E2. cbv zeta in *.
  apply bind_ok in Hr as ([o|x] & e3 & E3 & Hr); run_step E3; [|injection Hr as <- <- <- <-; by exists c].
  apply bind_ok in Hr as (blk & e4 & E4 & Hr). run_step E4. apply bind_ok in Hr as (src & e5 & E5 & Hr). run_step E5.
  pose proof (take_blit (Z.to_nat n) src b c (eq_sym Hl) Ht) as Htb.
  assert (copied (Z.to_nat n) src c = copied (Z.to_nat n) src b) as Hcp by (unfold copied; by rewrite Hl).
  eapply IH in Hr as (c1 & E6 & L1 & L2 & H6 & H7).
  - exists c1. rewrite Hcp, E6. rewrite length_blit in L1, L2. by split_and!.
  - by rewrite !length_blit.
  - lia.
  - replace (Z.to_nat _) with (Z.to_nat n + copied (Z.to_nat n) src b)%nat by lia. by rewrite Htb, Hcp.
Qed.

Lemma blockfile_laws (uuid : gostring) : @DeviceLaws (state (S := S) (D := D)) (blockfile_Device uuid).
Proof.
  constructor. intros b off e b1 n err e' E. cbn [d_ReadAt blockfile_Device] in *. unfold ReadAt in *.
  apply bind_ok in E as (i & e1 & E1 & E). cbv zeta in E. set (long := bool_decide _) in E.
  apply bind_ok in E as ([[b2 n2] err2] & e2 & E2 & E).
  assert (∀ c, length c = length b → ∃ c1, read_loop (Datatypes.S (length b)) c
    (if long then to_signed 64 (IN_Filesize i) - off else Z.of_nat (length b)) 0 off e1 = (Ok (c1, n2, err2), e2) ∧
    length b2 = length b ∧ (err2 = None → long = false → c1 = b2)) as Hc.
  { intros c Hc. destruct (read_loop_buffer _ b c _ 0 off e1 b2 n2 err2 e2 Hc ltac:(lia) eq_refl E2) as (c1 & E3 & L1 & L2 & Ht & Hn).
    exists c1. split; [done|]. split; [done|]. intros He Hlong. rewrite Hlong in Hn. specialize (Hn He).
    rewrite !take_ge in Ht by lia. done. }
  destruct (Hc b eq_refl) as (_ & _ & L & _).
  assert (length b1 = length b) as Lb by (by destruct err2; injection E as <- <- <- <-).
  split; [done|]. intros c Hlc. destruct (Hc c Hlc) as (c1 & E3 & _ & Heq). exists c1. run_step E1. cbv zeta.
  rewrite Hlc. fold long. run_step E3. destruct err2 as [x|]; injection E as <- <- <- <-; [done|]. split; [done|].
  intros He. apply Heq; [done|]. by destruct long.
Qed.
End volume.

(** ** The handshake *)

Section handshake.
Context {W V : Type} `{DV : DeviceLaws V} `{DF : !DeviceFinder W V}.

(** What the client sends: its flags, and an option with its data. *)
Definition option_bytes (o : Z) (data : bytes) : bytes :=
  be_put 8 nbdOpts ++ be_put 4 o ++ be_put 4 (Z.of_nat (length data)) ++ data.
Definition hello (cflags : Z) (lists : nat) (o : Z) (data : bytes) : bytes :=
  be_put 4 cflags ++ concat (replicate lists (option_bytes nbdOptList [])) ++ option_bytes o data.

(** What it receives. *)
Definition greeting : bytes := be_put 8 nbdMagic ++ be_put 8 nbdOpts ++ be_put 2 nbdFlagFixedNewStyle.
Definition option_reply (o reptype : Z) (data : bytes) : bytes :=
  be_put 8 0x3e889045565a9 ++ be_put 4 o ++ be_put 4 reptype ++ be_put 4 (Z.of_nat (length data)) ++ data.
Fixpoint listing (devs : list gostring) : bytes :=
  match devs with
  | [] => option_reply nbdOptList nbdRepAck []
  | d :: devs' => option_reply nbdOptList nbdRepServer (be_put 4 (Z.of_nat (length d)) ++ d) ++ listing devs'
  end.

(** The finder asked for the list of devices [n] times. *)
Fixpoint listings (n : nat) : M W (list (list gostring)) :=
  match n with
  | O => mret []
  | S n' => l ← ListDevices; ls ← listings n'; mret (l :: ls)
  end.

Lemma read_be_run n z rest out rm cl : in_width (8 * Z.of_nat n) z →
  read_be n (mkSock (be_put n z ++ rest) out rm cl) = (Ok z, mkSock rest out rm cl).
Proof.
  intros Hz. unfold read_be. pose proof (ReadFull_run (be_put n z) rest out rm cl) as E. rewrite length_be_put in E.
  run_step E. unfold mret, M_ret. by rewrite be_get_put, wrap_id.
Qed.

Lemma getOpt_run o data rest out rm cl :
  (o = nbdOptExportName ∧ (length data ≤ 4096)%nat) ∨ ((o = nbdOptAbort ∨ o = nbdOptList) ∧ data = []) →
  getOpt (mkSock (option_bytes o data ++ rest) out rm cl) = (Ok (mkOption o data), mkSock rest out rm cl).
Proof.
  intros Ho. unfold getOpt, option_bytes. rewrite <- !app_assoc.
  assert (in_width 32 o ∧ (length data ≤ 4096)%nat) as [Hw Hl].
  { destruct Ho as [[-> Hl]|[[-> | ->] ->]]; (split; [unfold in_width, nbdOptExportName, nbdOptAbort, nbdOptList; lia|cbn; lia]). }
  run_step (read_be_run 8 nbdOpts (be_put 4 o ++ be_put 4 (Z.of_nat (length data)) ++ data ++ rest) out rm cl ltac:(unfold in_width, nbdOpts; lia)).
  rewrite decide_False by (by intros []).
  run_step (read_be_run 4 o (be_put 4 (Z.of_nat (length data)) ++ data ++ rest) out rm cl Hw).
  run_step (read_be_run 4 (Z.of_nat (length data)) (data ++ rest) out rm cl ltac:(unfold in_width; lia)).
  rewrite decide_False by lia. destruct Ho as [[-> _]|[Ho ->]].
  - rewrite decide_True by done. rewrite Nat2Z.id. by run_step (ReadFull_run data rest out rm cl).
  - rewrite decide_False by (destruct Ho; subst; done). by rewrite decide_True.
Qed.

Lemma on_nc_run {A} (m : M sock A) c (w : W) (d : option V) x a c' :
  m c = (Ok a, c') → on_nc m (mkConn c w d x) = (Ok a, mkConn c' w d x).
Proof. unfold on_nc. cbn. by intros ->. Qed.

Lemma list_replies_run devs : ∀ inp out rm cl, (length (listing devs) ≤ rm)%nat →
  list_replies devs (mkSock inp out rm cl) = (Ok tt, mkSock inp (out ++ listing devs) (rm - length (listing devs)) cl).
Proof.
  induction devs as [|d devs IH]; intros inp out rm cl Hrm; [by apply sock_Write_run|].
  cbn [listing list_replies] in *. set (x := option_reply _ _ _) in *. rewrite length_app in Hrm.
  assert (optReply nbdOptList nbdRepServer (be_put 4 (Z.of_nat (length d)) ++ d) (mkSock inp out rm cl) =
    (Ok tt, mkSock inp (out ++ x) (rm - length x) cl)) as E by (apply sock_Write_run; fold x; lia).
  run_step E. rewrite IH by lia. by rewrite length_app, app_assoc, Nat.sub_add_distr.
Qed.

(** A list of the devices, the abort and the name of a device. *)
Lemma option_round_list w ls w1 rest out rm cl (d : option V) x :
  ListDevices w = (Ok ls, w1) → (length (listing ls) ≤ rm)%nat →
  option_round (mkConn (mkSock (option_bytes nbdOptList [] ++ rest) out rm cl) w d x) =
    (Ok true, mkConn (mkSock rest (out ++ listing ls) (rm - length (listing ls)) cl) w1 d x).
Proof.
  intros Hl Hrm. unfold option_round.
  pose proof (getOpt_run nbdOptList [] rest out rm cl ltac:(right; split; [by right|done])) as E. apply (on_nc_run _ _ w d x) in E.
  run_step E. cbn [opt odata]. rewrite !decide_False, decide_True by done.
  assert (on_world ListDevices (mkConn (mkSock rest out rm cl) w d x) = (Ok ls, mkConn (mkSock rest out rm cl) w1 d x)) as E2
    by (unfold on_world; cbn; by rewrite Hl).
  run_step E2. pose proof (list_replies_run ls rest out rm cl Hrm) as E3. apply (on_nc_run _ _ w1 d x) in E3. by run_step E3.
Qed.

Fixpoint listing_len (lss : list (list gostring)) : nat :=
  match lss with [] => 0 | ls :: lss' => length (listing ls) + listing_len lss' end.

(** The loop over the options up to the one that ends it. *)
Lemma option_rounds_run n : ∀ rounds lss w w1 e r s' out rm cl (d : option V) x,
  listings n w = (Ok lss, w1) → (listing_len lss ≤ rm)%nat → (n < rounds)%nat →
  option_round (mkConn (mkSock e (out ++ concat (listing <$> lss)) (rm - listing_len lss) cl) w1 d x) = (r, s') → r ≠ Ok true →
  option_rounds rounds (mkConn (mkSock (concat (replicate n (option_bytes nbdOptList [])) ++ e) out rm cl) w d x) =
    (match r with Ok _ => Ok tt | Err y => Err y | Panic => Panic end, s').
Proof.
  induction n as [|n IH]; intros rounds lss w w1 e r s' out rm cl d x Hl Hrm Hn Hr Hne; (destruct rounds as [|rounds]; [lia|]).
  - injection Hl as <- <-. cbn in Hr. rewrite app_nil_r, Nat.sub_0_r in Hr. cbn [replicate concat app option_rounds].
    unfold mbind, M_bind. rewrite Hr. by destruct r as [[]| |].
  - cbn [listings] in Hl. apply bind_ok in Hl as (ls & w2 & E1 & Hl). apply bind_ok in Hl as (lss' & w3 & E2 & [= <- <-]).
    cbn [replicate concat option_rounds listing_len fmap list_fmap] in *. rewrite <- app_assoc.
    run_step (option_round_list w ls w2 (concat (replicate n (option_bytes nbdOptList [])) ++ e) out rm cl d x E1 ltac:(lia)).
    eapply IH; [exact E2|lia|lia| |done]. by rewrite <- Hr, <- app_assoc, Nat.sub_add_distr.
Qed.

Lemma options_run n lss w w1 e r s' out rm cl (d : option V) x :
  listings n w = (Ok lss, w1) → (listing_len lss ≤ rm)%nat →
  option_round (mkConn (mkSock e (out ++ concat (listing <$> lss)) (rm - listing_len lss) cl) w1 d x) = (r, s') → r ≠ Ok true →
  options (mkConn (mkSock (concat (replicate n (option_bytes nbdOptList [])) ++ e) out rm cl) w d x) =
    (match r with Ok _ => Ok tt | Err y => Err y | Panic => Panic end, s').
Proof.
  intros Hl Hrm Hr Hne. unfold options. erewrite bind_step by reflexivity. cbn [nc rin].
  eapply option_rounds_run; [done..| |done|done]. rewrite length_app.
  assert (n ≤ length (concat (replicate n (option_bytes nbdOptList []))))%nat; [|lia].
  clear. induction n as [|n IH]; [done|]. cbn [replicate concat]. rewrite length_app. unfold option_bytes at 1. autorewrite with len. lia.
Qed.

(** The greeting and the flags of the client, up to the options. *)
Lemma handler_greets cflags e w rm cl (d : option V) x : in_width 32 cflags → (18 ≤ rm)%nat →
  handler (mkConn (mkSock (be_put 4 cflags ++ e) [] rm cl) w d x) =
  (_ ← options; serve_export) (mkConn (mkSock e greeting (rm - 18) cl) w d x).
Proof.
  intros Hc Hrm. unfold handler.
  assert (∀ n z inp out r, (n ≤ r)%nat → on_nc (write_be n z) (mkConn (mkSock inp out r cl) w d x) =
    (Ok tt, mkConn (mkSock inp (out ++ be_put n z) (r - n) cl) w d x)) as Hw.
  { intros n z inp out r Hn. apply on_nc_run. unfold write_be. rewrite sock_Write_run by (rewrite length_be_put; lia).
    by rewrite length_be_put. }
  run_step (Hw 8%nat nbdMagic (be_put 4 cflags ++ e) [] rm ltac:(lia)).
  run_step (Hw 8%nat nbdOpts (be_put 4 cflags ++ e) ([] ++ be_put 8 nbdMagic) (rm - 8)%nat ltac:(lia)).
  run_step (Hw 2%nat nbdFlagFixedNewStyle (be_put 4 cflags ++ e) (([] ++ be_put 8 nbdMagic) ++ be_put 8 nbdOpts) (rm - 8 - 8)%nat ltac:(lia)).
  rewrite app_nil_l, <- app_assoc. fold greeting. replace (rm - 8 - 8 - 2)%nat with (rm - 18)%nat by lia.
  pose proof (read_be_run 4 cflags e greeting (rm - 18) cl Hc) as E. apply (on_nc_run _ _ w d x) in E. by run_step E.
Qed.



(** A client that aborts the handshake ends the process.  The option is answered
    and the loop over the options returns without an error and without a device;
    [handler] then asks the device for its size. *)
Theorem nbd_abort_panics cflags n lss (w w1 : W) rest rm :
  in_width 32 cflags → listings n w = (Ok lss, w1) → (38 + listing_len lss ≤ rm)%nat →
  (serve_conn (mkSock (hello cflags n nbdOptAbort [] ++ rest) [] rm false) w).1 = Panic.
Proof.
  intros Hc Hl Hrm. set (out1 := greeting ++ concat (listing <$> lss)). set (rm1 := (rm - 18 - listing_len lss)%nat).
  assert (option_round (mkConn (mkSock (option_bytes nbdOptAbort [] ++ rest) out1 rm1 false) w1 None []) =
    (Ok false, mkConn (V := V) (mkSock rest (out1 ++ option_reply nbdOptList nbdRepAck []) (rm1 - 20) false) w1 None [])) as E1.
  { unfold option_round. pose proof (getOpt_run nbdOptAbort [] rest out1 rm1 false ltac:(right; split; [by left|done])) as E.
    apply (on_nc_run _ _ w1 (@None V) []) in E. run_step E. cbn [opt odata]. rewrite decide_False, decide_True by done.
    assert (length (option_reply nbdOptList nbdRepAck []) = 20%nat) as L20 by (unfold option_reply; by autorewrite with len).
    pose proof (sock_Write_run (option_reply nbdOptList nbdRepAck []) rest out1 rm1 false ltac:(lia)) as E2. rewrite L20 in E2.
    apply (on_nc_run _ _ w1 (@None V) []) in E2. by run_step E2. }
  apply (options_run n lss w w1 _ _ _ greeting (rm - 18) false None [] Hl ltac:(lia)) in E1; [|done].
  unfold serve_conn, hello. rewrite <- !app_assoc. unfold mbind at 1, M_bind at 1, try at 1.
  rewrite handler_greets by (done || lia). by run_step E1.
Qed.
End handshake.

(** ** Examples *)

(** A device in memory. *)
#[local] Instance ram_Device : Device bytes := {|
  d_ReadAt b off v :=
    let x := take (length b) (drop (Z.to_nat off) v) in
    (Ok (blit 0 x b, Z.of_nat (length x), if decide (length x = length b) then None else Some EOF), v);
  d_WriteAt b off v := (Ok (Z.of_nat (length b), None), blit (Z.to_nat off) b v);
  d_Sync := mret tt;
  d_Trim _ _ := mret tt;
  d_Size v := Z.of_nat (length v);
  d_Close := mret tt;
|}.
#[local] Instance ram_laws : DeviceLaws bytes.
Proof.
  constructor. cbn. intros b off v b1 n err v' [= <- <- <- <-]. split; [apply length_blit|]. intros c Hc. rewrite Hc.
  eexists. split; [done|]. case_decide as Hx; [|done]. intros _. by rewrite !blit_all by congruence.
Qed.
Lemma ram_answers : answers (V := bytes).
Proof. split_and!; [intros; by do 2 eexists..|done|done]. Qed.

(** A flush, and a read whose offset is 2^63. *)
Definition ex_crash : bytes := header 0 cmdFlush (zeros 8) 0 0 ++ header 0 cmdRead (zeros 8) (2 ^ 63) 4.
Lemma nbd_input_bounds_witness : (serveLoop (mkServe (mkSock ex_crash [] 100 false) false (zeros 8))).1 = Panic.
Proof.
  apply (proj2 (nbd_input_bounds (mkSock ex_crash [] 100 false) (zeros 8) ram_answers)).
  eapply crash_later; [vm_compute; reflexivity|left; vm_compute; reflexivity|vm_compute; lia|].
  eapply crash_now; [vm_compute; reflexivity|]. split; [left; vm_compute; reflexivity|vm_compute; reflexivity].
Defined.

#[local] Existing Instance map_range.
#[local] Instance no_preconditions : Godbc := {| Require := λ _, Ok tt; Require_true := eq_refl |}.
#[local] Instance no_rings : HashRing := {| HR := unit; NewWithWeights := λ _, tt; GetNodes := λ _ _ _, ([], false) |}.
#[local] Existing Instance blockfile_laws.

(** A volume [x] of 40 bytes in blocks of 16, served to client [a]. *)
Definition nx_world : vstate (S := tempBlockStore) (D := Server) :=
  mkV fx_store (volume_create [x78] 40 (mkServer false ∅ 0 ∅ (mkGlobal 16 (match default_spec with Ok s => s | _ => [] end)) [] (empty 1) ∅ [] [])).2.
#[local] Instance nx_Device : Device (state (S := tempBlockStore) (D := Server)) := blockfile_Device [x61].
#[local] Instance nx_finder : DeviceFinder (vstate (S := tempBlockStore) (D := Server)) (state (S := tempBlockStore) (D := Server)) :=
  finder [x61] 0 (r ← GetVolumes map_to_list; mret r.1).



Lemma nx_list_ok : listings 1 nx_world = (Ok [[[x78]]], nx_world).
Proof. vm_compute. reflexivity. Qed.


Lemma nbd_abort_panics_witness :
  (serve_conn (mkSock (hello 0 1 nbdOptAbort []) [] 1000 false) nx_world).1 = Panic.
Proof.
  pose proof (nbd_abort_panics 0 1 [[[x78]]] nx_world nx_world [] 1000 ltac:(unfold in_width; lia) nx_list_ok
    ltac:(apply Nat.leb_le; vm_compute; reflexivity)) as E.
  rewrite app_nil_r in E. exact E.
Defined.

(** A read that fails is answered with the error and with what is in the buffer: here
    the data another request wrote.  A client that takes an error for a reply without
    data, as the protocol has it, reads its next reply out of these bytes. *)
Lemma failed_read_leaks :
  ∃ s, serveLoop (mkServe (mkSock (encode (mkReq 0 (be_put 8 1) (RWrite 0 [x61; x62; x63])) ++
      encode (mkReq 0 (be_put 8 2) (RRead 100 3)) ++ disconnect) [] 1000 false) false (zeros 8)) = (Ok tt, s) ∧
    rout (cn s) = reply_header 0 (be_put 8 1) ++ reply_header errIO (be_put 8 2) ++ [x61; x62; x63].
Proof. eexists. split; vm_compute; reflexivity. Qed.
