(* ===== verification/Aoe.v ===== *)
(** * ATA over Ethernet

    Models [src/block/aoe]: the identification of the device ([device.go]), the frames
    that are received and sent ([frame.go]) and the server ([aoe.go]) with the filter
    it gives to the kernel.

    The packages [aoe], [ethernet] and [bpf] are third-party code: the encodings of
    headers and frames, the ATA commands and the machine that runs a filter are the
    operations of the classes [AoePkg] and [Bpf].  The state of a server is its device
    and its network interface; sending a frame may fail.  The goroutine that syncs the
    device every five seconds and log lines are left out. *)
From S2P Require Import Prelude GoSem GoStrings Refs TempStore Store Crc32 Blockset Proto Models INodeStore File Ring Metadata BlockVolume.
From Stdlib Require String.

(** ** The identification of a device *)

Definition byte_str (s : string) : bytes := String.list_byte_of_string s.

(** The loops are written out in the code; [s] is a signed 64-bit integer. *)
Definition lba28 (s : Z) : bytes :=
  [byte_of_Z s; byte_of_Z (Z.shiftr s 8); byte_of_Z (Z.shiftr s 16); byte_of_Z (Z.land (wrap 8 (Z.shiftr s 24)) 0xf)].
Definition lba48 (s : Z) : bytes :=
  [byte_of_Z s; byte_of_Z (Z.shiftr s 8); byte_of_Z (Z.shiftr s 16); byte_of_Z (Z.shiftr s 24);
   byte_of_Z (Z.shiftr s 32); byte_of_Z (Z.shiftr s 40)].

(** Words of 16 bits: the offsets are in words. *)
Definition pshort (off : nat) (v : Z) (p : bytes) : res bytes :=
  if decide (off * 2 + 2 ≤ length p)%nat then Ok (blit (off * 2) (le_put 2 v) p) else Panic.

(** The bytes of each word are exchanged. *)
Fixpoint swap_words (b : bytes) : bytes :=
  match b with x :: y :: b' => y :: x :: swap_words b' | _ => b end.
Definition pstring (off sz : nat) (ident : bytes) (p : bytes) : res bytes :=
  if decide (sz mod 2 ≠ 0)%nat then Panic
  else
    let id := blit 0 ident (replicate sz x20) in
    if decide (length p < off * 2)%nat then Panic else Ok (blit (off * 2) (swap_words id) p).

Definition Sectors (size : Z) : res Z :=
  if decide (size = 0) then Err (ErrMsg "empty file device?") else Ok (Z.quot (to_signed 64 size) 512).

(** The words that do not depend on the device. *)
Definition ident_shorts : list (nat * Z) :=
  [(47%nat, 0x8000); (49%nat, 0x0200); (50%nat, 0x4000); (53%nat, 0x0002); (64%nat, 0x0002); (80%nat, 0x00F0); (83%nat, 0x5400); (84%nat, 0x4000);
   (86%nat, 0x1400); (87%nat, 0x4000); (93%nat, 0x400b); (69%nat, 0x4000); (169%nat, 0x0001)].
Fixpoint pshorts (l : list (nat * Z)) (p : bytes) : res bytes :=
  match l with [] => Ok p | (off, v) :: l' => p' ← pshort off v p; pshorts l' p' end.

Definition Identify (size : Z) : res bytes :=
  sectors ← Sectors size;
  buf ← pshorts ident_shorts (zeros 512);
  buf ← pstring 10 20 (byte_str "0") buf;
  buf ← pstring 23 8 (byte_str "V0") buf;
  buf ← pstring 27 40 (byte_str "torus AoE") buf;
  mret (blit (100 * 2) (lba48 sectors) (blit (60 * 2) (lba28 sectors) buf)).

(** ** Headers and frames *)

Inductive Arg : Type :=
  | ATAArg (b : bytes)
  | ConfigArg (BufferCount FirmwareVersion SectorCount Version Command : Z) (str : bytes)
  | OtherArg (b : bytes)
  | NilArg.
Record Header := mkHeader {
  HVersion : Z; FlagResponse : bool; FlagError : bool; HError : Z; Major : Z; Minor : Z; HCommand : Z; Tag : bytes; HArg : Arg }.
Record EFrame := mkEFrame { Destination : bytes; Source : bytes; EtherType : Z; Payload : bytes }.
Record Frame := mkFrame { fframe : EFrame; fheader : Header }.

(** What is received and sent: [sends] says which of the next sends fail. *)
Record aoe_state (V : Type) := mkAoe { adev : V; sent : list (bytes * bytes); sends : list (option error) }.
Arguments mkAoe {V} _ _ _.
Arguments adev {V} _.
Arguments sent {V} _.
Arguments sends {V} _.

(** The package [aoe], with its constants, and the package [ethernet]. *)
Class AoePkg (V : Type) := {
  BroadcastMajor : Z;
  BroadcastMinor : Z;
  CommandIssueATACommand : Z;
  CommandQueryConfigInformation : Z;
  ConfigCommandRead : Z;
  aoe_Version : Z;
  aoe_EtherType : Z;
  ErrorUnrecognizedCommandCode : Z;
  ErrorBadArgumentParameter : Z;
  ErrorDeviceUnavailable : Z;
  ErrInvalidATARequest : error;
  Header_UnmarshalBinary : bytes → res Header;
  Header_MarshalBinary : Header → res bytes;
  EFrame_UnmarshalBinary : bytes → res EFrame;
  EFrame_MarshalBinary : EFrame → res bytes;
  ServeATA : (Header → M (aoe_state V) Z) → Header → M (aoe_state V) Z;
}.

(** ** Filters *)

Inductive Instruction : Type :=
  | LoadAbsolute (Off Size : nat)
  | JumpIfEqual (Val : Z) (SkipTrue SkipFalse : nat)
  | RetConstant (Val : Z).

(** The machine that runs a filter: the number of bytes of the packet that are
    accepted, from the instructions that are left and the register. *)
Class Bpf := { bpf_exec : list Instruction → Z → bytes → Z }.

Section server.
Context {V : Type} `{AoePkg V} `{Bpf}.

Definition frame_UnmarshalBinary (data : bytes) : res Frame :=
  e ← EFrame_UnmarshalBinary data;
  h ← Header_UnmarshalBinary (Payload e);
  mret (mkFrame e h).

(** [WriteTo] of the interface. *)
Definition WriteTo (b dst : bytes) : M (aoe_state V) Z := λ s,
  match sends s with
  | Some e :: l => (Err e, mkAoe (adev s) (sent s) l)
  | None :: l => (Ok (Z.of_nat (length b)), mkAoe (adev s) (sent s ++ [(dst, b)]) l)
  | [] => (Ok (Z.of_nat (length b)), mkAoe (adev s) (sent s ++ [(dst, b)]) [])
  end.

Record FrameSender := mkSender { orig : Frame; dst : bytes; src : bytes; smajor : Z; sminor : Z }.

(** An error of an encoding is a panic. *)
Definition must {A} (r : res A) : res A := match r with Ok a => Ok a | _ => Panic end.

(** The header with the fields the server sets. *)
Definition stamped (fs : FrameSender) (h : Header) : Header :=
  mkHeader 1 true (FlagError h) (HError h) (smajor fs) (sminor fs) (HCommand h) (Tag (fheader (orig fs))) (HArg h).

Definition Send (fs : FrameSender) (h : Header) : M (aoe_state V) Z :=
  hbuf ← lift (must (Header_MarshalBinary (stamped fs h)));
  ebuf ← lift (must (EFrame_MarshalBinary (mkEFrame (dst fs) (src fs) aoe_EtherType hbuf)));
  WriteTo ebuf (dst fs).

Definition with_error (aerr : Z) (h : Header) : Header :=
  mkHeader (HVersion h) (FlagResponse h) true aerr (Major h) (Minor h) (HCommand h) (Tag h) (HArg h).
Definition SendError (fs : FrameSender) (aerr : Z) : M (aoe_state V) Z := Send fs (with_error aerr (fheader (orig fs))).

(** ** The server *)

Record AoeServer := mkAoeServer { major : Z; minor : Z; usingBPF : bool }.
Record Interface := mkInterface { MTU : Z; HardwareAddr : bytes }.

Definition defaultConfig (mtu : Z) : Arg :=
  ConfigArg 2 0 (wrap 8 (Z.quot mtu 512)) aoe_Version ConfigCommandRead [].

Definition set_arg (a : Arg) (h : Header) : Header :=
  mkHeader (HVersion h) (FlagResponse h) (FlagError h) (HError h) (Major h) (Minor h) (HCommand h) (Tag h) a.

(** Whether the request is for this server. *)
Definition for_us (s : AoeServer) (h : Header) : bool :=
  bool_decide (Major h = BroadcastMajor ∨ Major h = major s) && bool_decide (Minor h = BroadcastMinor ∨ Minor h = minor s).

(** A frame whose argument is of another type than its command panics. *)
Definition handleFrame (s : AoeServer) (iface : Interface) (from : bytes) (f : Frame) : M (aoe_state V) Z :=
  let hdr := fheader f in
  if negb (usingBPF s) && negb (for_us s hdr) then mret 0
  else
    let sender := mkSender f from (HardwareAddr iface) (major s) (minor s) in
    if decide (HCommand hdr = CommandIssueATACommand) then
      r ← try (ServeATA (Send sender) hdr);
      match r with
      | inl n => mret n
      | inr e => SendError sender (if decide (e = ErrInvalidATARequest) then ErrorBadArgumentParameter else ErrorDeviceUnavailable)
      end
    else if decide (HCommand hdr = CommandQueryConfigInformation) then
      match HArg hdr with
      | ConfigArg _ _ _ _ cmd _ =>
          if decide (cmd = ConfigCommandRead) then Send sender (set_arg (defaultConfig (MTU iface)) hdr)
          else SendError sender ErrorUnrecognizedCommandCode
      | _ => panic
      end
    else SendError sender ErrorUnrecognizedCommandCode.

Definition broadcastAddr : bytes := replicate 6 xff.
Definition advertise (s : AoeServer) (iface : Interface) : M (aoe_state V) unit :=
  let fr := mkFrame (mkEFrame [] [] 0 [])
    (mkHeader 0 false false 0 (major s) (minor s) CommandQueryConfigInformation (zeros 4) (ConfigArg 0 0 0 0 ConfigCommandRead [])) in
  _ ← handleFrame s iface broadcastAddr fr;
  mret tt.

(** The packets that arrive until the socket is closed, each with its sender; the
    buffer has the size of the MTU. *)
Fixpoint serve_packets (s : AoeServer) (iface : Interface) (l : list (bytes * bytes)) : M (aoe_state V) unit :=
  match l with
  | [] => mret tt
  | (from, p) :: l' =>
      match frame_UnmarshalBinary (take (Z.to_nat (MTU iface)) p) with
      | Ok f => _ ← try (handleFrame s iface from f); serve_packets s iface l'
      | Err _ => serve_packets s iface l'
      | Panic => panic
      end
  end.
Definition aoe_Serve (s : AoeServer) (iface : Interface) (l : list (bytes * bytes)) : M (aoe_state V) unit :=
  _ ← advertise s iface;
  serve_packets s iface l.

Definition majorOffset : nat := 16.
Definition majorLen : nat := 2.
Definition minorOffset : nat := 18.
Definition minorLen : nat := 1.

(** What is given to [bpf.Assemble]. *)
Definition mustAssembleBPF (s : AoeServer) (mtu : Z) : list Instruction :=
  [LoadAbsolute majorOffset majorLen;
   JumpIfEqual BroadcastMajor 2 0;
   JumpIfEqual (major s) 1 0;
   RetConstant 0;
   LoadAbsolute minorOffset minorLen;
   JumpIfEqual BroadcastMinor 2 0;
   JumpIfEqual (minor s) 1 0;
   RetConstant 0;
   RetConstant (wrap 32 mtu)].

(** What the kernel hands on of a packet when the filter is attached; a packet of which
    nothing is accepted is dropped. *)
Definition filtered (s : AoeServer) (mtu : Z) (p : bytes) : option bytes :=
  let n := bpf_exec (mustAssembleBPF s mtu) 0 p in
  if decide (n = 0) then None else Some (take (Z.to_nat n) p).
End server.

(** ** The server of a block volume *)

Section volume.
Context {S : Type} `{B : BlockStore S} {D : Type} `{BM : BlockMetadata D} `{Range} `{Godbc}.

(** [NewServer]: when the file cannot be synced it stays open, and its volume locked. *)
Definition aoe_NewServer (uuid : gostring) (lease : Z) (v : Models.Volume) (ma mi : Z) (e : vstate (S := S) (D := D)) :
    res (AoeServer * state (S := S) (D := D)) * vstate (S := S) (D := D) :=
  match OpenBlockFile uuid lease v e with
  | (Ok f, e') =>
      let '(r, st) := block_Sync uuid v (mkState f (vstore e') (vmds e')) in
      (_ ← r; mret (mkAoeServer ma mi false, st), mkV (store st) (mds st))
  | (Err x, e') => (Err x, e')
  | (Panic, e') => (Panic, e')
  end.

Definition fd_Identify (e : state (S := S) (D := D)) : res bytes := Identify (IN_Filesize (inode (file e))).
Definition aoe_Close (uuid : gostring) : M (state (S := S) (D := D)) unit := e ← get; block_Close uuid (volume (file e)).
End volume.
