(* ===== verification/AoeSpec.v ===== *)
(** * What the ATA over Ethernet server promises

    The identification of a device carries its size; and it makes no difference
    whether the kernel filters the packets or the server does. *)
From S2P Require Import Prelude GoSem GoStrings Refs TempStore Store Crc32 Blockset Proto Models INodeStore File Ring Metadata BlockVolume Aoe.

(** ** Identification *)

Lemma lba48_le s : lba48 s = le_put 6 s.
Proof. unfold lba48. cbn [le_put]. by rewrite !Z.div_div, !Z.shiftr_div_pow2 by lia. Qed.
Lemma lba28_le s : lba28 s = le_put 4 (s `mod` 2 ^ 28).
Proof.
  unfold lba28, wrap. cbn [le_put]. rewrite !Z.div_div, !Z.shiftr_div_pow2 by lia.
  assert (∀ x y, x `mod` 256 = y `mod` 256 → byte_of_Z x = byte_of_Z y) as Hb by (intros x y E; unfold byte_of_Z; by rewrite E).
  change 0xf with (Z.ones 4). rewrite Z.land_ones by lia.
  rewrite (Hb s (s `mod` 2 ^ 28)) by (Z.div_mod_to_equations; lia). f_equal.
  rewrite (Hb (s / 2 ^ 8) (s `mod` 2 ^ 28 / 256)) by (Z.div_mod_to_equations; lia). f_equal.
  rewrite (Hb (s / 2 ^ 16) (s `mod` 2 ^ 28 / (256 * 256))) by (Z.div_mod_to_equations; lia). f_equal.
  f_equal. apply Hb. Z.div_mod_to_equations. lia.
Qed.

(** The part of the identification that is the same for all devices. *)
Definition ident_fixed : bytes :=
  match (buf ← pshorts ident_shorts (zeros 512); buf ← pstring 10 20 (byte_str "0") buf;
         buf ← pstring 23 8 (byte_str "V0") buf; pstring 27 40 (byte_str "torus AoE") buf) with Ok b => b | _ => [] end.
Lemma Identify_fixed size s : Sectors size = Ok s →
  Identify size = Ok (blit (100 * 2) (lba48 s) (blit (60 * 2) (lba28 s) ident_fixed)).
Proof. intros Hs. unfold Identify. rewrite Hs. vm_compute. reflexivity. Qed.
Lemma ident_fixed_length : length ident_fixed = 512%nat.
Proof. vm_compute. reflexivity. Qed.

(** A copy into a buffer, and what is around it. *)
Lemma blit_region off (x m : bytes) : (off + length x ≤ length m)%nat → take (length x) (drop off (blit off x m)) = x.
Proof.
  intros Hl. unfold blit. rewrite (take_ge x) by lia. rewrite drop_app, drop_ge by (autorewrite with len; lia).
  rewrite length_take. replace (off - off `min` length m)%nat with 0%nat by lia. cbn [app]. rewrite drop_0. apply take_app_length.
Qed.
Lemma blit_apart lo n off (x m : bytes) : (off + length x ≤ length m)%nat → (lo + n ≤ off ∨ off + length x ≤ lo)%nat →
  take n (drop lo (blit off x m)) = take n (drop lo m).
Proof.
  intros Hl Ho. apply list_eq. intros i. destruct (decide (i < n)%nat) as [Hi|Hi].
  - rewrite !lookup_take_lt, !lookup_drop by lia. apply blit_lookup_out; lia.
  - by rewrite !lookup_take_ge by lia.
Qed.

(** The identification of a device tells its size.  For every volume that is not
    empty it has 512 bytes; the number of whole sectors is in the words 100 to 102, as
    far as 48 bits go, and in the words 60 and 61 as far as 28 bits go; and all other
    words are the same for all volumes. *)
Theorem identify_reports_size (size : Z) :
  0 < size < 2 ^ 63 →
  ∃ b, Identify size = Ok b ∧ length b = 512%nat ∧
    le_get (take 6 (drop 200 b)) = (size / 512) `mod` 2 ^ 48 ∧
    le_get (take 4 (drop 120 b)) = (size / 512) `mod` 2 ^ 28 ∧
    take 120 b = take 120 ident_fixed ∧ drop 206 b = drop 206 ident_fixed.
Proof.
  intros Hs. assert (Sectors size = Ok (size / 512)) as E.
  { unfold Sectors. rewrite decide_False by lia. by rewrite to_signed_small, Z.quot_div_nonneg by lia. }
  pose proof ident_fixed_length as L. set (s := size / 512) in *.
  assert (length (lba48 s) = 6%nat) as L6 by done. assert (length (lba28 s) = 4%nat) as L4 by done.
  eexists. split; [by apply Identify_fixed|]. split; [by rewrite !length_blit|].
  set (m := blit (60 * 2) (lba28 s) ident_fixed). assert (length m = 512%nat) as Lm by (unfold m; by rewrite length_blit).
  split_and!.
  - pose proof (blit_region 200 (lba48 s) m ltac:(lia)) as R. rewrite L6 in R. change (100 * 2)%nat with 200%nat. rewrite R.
    by rewrite lba48_le, le_get_put.
  - rewrite blit_apart by lia. pose proof (blit_region 120 (lba28 s) ident_fixed ltac:(lia)) as R. rewrite L4 in R.
    unfold m. change (60 * 2)%nat with 120%nat. rewrite R. rewrite lba28_le, le_get_put. apply wrap_id.
    pose proof (Z.mod_pos_bound s (2 ^ 28)). unfold in_width. lia.
  - pose proof (blit_apart 0 120 200 (lba48 s) m) as R1. pose proof (blit_apart 0 120 120 (lba28 s) ident_fixed) as R2.
    rewrite !drop_0 in R1, R2. change (100 * 2)%nat with 200%nat. rewrite R1 by lia. apply R2; lia.
  - pose proof (blit_apart 206 306 200 (lba48 s) m) as R1. pose proof (blit_apart 206 306 120 (lba28 s) ident_fixed) as R2.
    rewrite !(take_ge (drop 206 _)) in R1, R2 by (rewrite length_drop, ?length_blit; lia).
    change (100 * 2)%nat with 200%nat. rewrite R1 by lia. apply R2; lia.
Qed.

Lemma identify_reports_size_witness :
  ∃ b, Identify (40 * 2 ^ 30) = Ok b ∧ le_get (take 6 (drop 200 b)) = 80 * 2 ^ 20.
Proof.
  destruct (identify_reports_size (40 * 2 ^ 30) ltac:(lia)) as (b & H1 & _ & H2 & _). exists b. split; [exact H1|].
  rewrite H2. reflexivity.
Defined.

(** A disk of 2^28 sectors has none by the words of 28 bits. *)
Lemma lba28_wraps : lba28 (2 ^ 28) = zeros 4.
Proof. vm_compute. reflexivity. Qed.

(** ** Filters *)

(** The instructions of a filter, as they are documented: a load outside the packet
    ends it with nothing accepted. *)
Class BpfLaws `{Bpf} := {
  bpf_load off sz l a (p : bytes) : (off + sz ≤ length p)%nat →
    bpf_exec (LoadAbsolute off sz :: l) a p = bpf_exec l (be_get (take sz (drop off p))) p;
  bpf_load_out off sz l a (p : bytes) : (length p < off + sz)%nat → bpf_exec (LoadAbsolute off sz :: l) a p = 0;
  bpf_jump v st sf l a (p : bytes) :
    bpf_exec (JumpIfEqual v st sf :: l) a p = bpf_exec (drop (if decide (a = v) then st else sf) l) a p;
  bpf_ret v l a (p : bytes) : bpf_exec (RetConstant v :: l) a p = v;
}.

(** Where the address of the server is in a frame without tags. *)
Class AoePkgLaws (V : Type) `{AoePkg V} := {
  eframe_payload p e : be_get (take 2 (drop 12 p)) = aoe_EtherType → EFrame_UnmarshalBinary p = Ok e → Payload e = drop 14 p;
  header_address b h : Header_UnmarshalBinary b = Ok h →
    (5 ≤ length b)%nat ∧ Major h = be_get (take 2 (drop 2 b)) ∧ Minor h = be_get (take 1 (drop 4 b));
  unmarshal_total p : EFrame_UnmarshalBinary p ≠ Panic ∧ Header_UnmarshalBinary p ≠ Panic;
}.

Section filter.
Context {V : Type} `{AL : AoePkgLaws V} `{BL : BpfLaws}.

(** What the filter computes. *)
Lemma filter_accepts s mtu p :
  (19 ≤ length p)%nat →
  bpf_exec (mustAssembleBPF s mtu) 0 p =
    if decide ((be_get (take 2 (drop 16 p)) = BroadcastMajor ∨ be_get (take 2 (drop 16 p)) = major s) ∧
               (be_get (take 1 (drop 18 p)) = BroadcastMinor ∨ be_get (take 1 (drop 18 p)) = minor s))
    then wrap 32 mtu else 0.
Proof.
  intros Hp. unfold mustAssembleBPF, majorOffset, majorLen, minorOffset, minorLen.
  rewrite bpf_load by lia. set (ma := be_get (take 2 _)). set (mi := be_get (take 1 _)).
  assert (∀ a, bpf_exec [LoadAbsolute 18 1; JumpIfEqual BroadcastMinor 2 0; JumpIfEqual (minor s) 1 0; RetConstant 0; RetConstant (wrap 32 mtu)] a p =
    if decide (mi = BroadcastMinor ∨ mi = minor s) then wrap 32 mtu else 0) as Hmi.
  { intros a. rewrite bpf_load by lia. fold mi. rewrite bpf_jump. destruct (decide (mi = BroadcastMinor)) as [E|E]; cbn [drop].
    - rewrite bpf_ret. by rewrite decide_True by (by left).
    - rewrite bpf_jump. destruct (decide (mi = minor s)) as [E2|E2]; cbn [drop]; rewrite bpf_ret.
      + by rewrite decide_True by (by right).
      + by rewrite decide_False by (by intros [|]). }
  rewrite bpf_jump. destruct (decide (ma = BroadcastMajor)) as [E|E]; cbn [drop].
  - rewrite Hmi. apply decide_ext. naive_solver.
  - rewrite bpf_jump. destruct (decide (ma = major s)) as [E2|E2]; cbn [drop].
    + rewrite Hmi. apply decide_ext. naive_solver.
    + rewrite bpf_ret. by rewrite decide_False by naive_solver.
Qed.

(** It accepts all of a packet or nothing. *)
Lemma filter_values s mtu p :
  bpf_exec (mustAssembleBPF s mtu) 0 p = 0 ∨ bpf_exec (mustAssembleBPF s mtu) 0 p = wrap 32 mtu.
Proof.
  destruct (decide (19 ≤ length p)%nat) as [Hp|Hp]; [rewrite filter_accepts by done; case_decide; auto|left].
  unfold mustAssembleBPF, majorOffset, majorLen, minorOffset, minorLen.
  destruct (decide (18 ≤ length p)%nat); [|by rewrite bpf_load_out by lia]. rewrite bpf_load, !bpf_jump by lia.
  case_decide; cbn [drop]; [by rewrite bpf_load_out by lia|]. rewrite bpf_jump.
  case_decide; cbn [drop]; [by rewrite bpf_load_out by lia|apply bpf_ret].
Qed.

Lemma take_drop_take (k lo n : nat) (p : bytes) : (lo + k ≤ n)%nat → take k (drop lo (take n p)) = take k (drop lo p).
Proof. intros Hk. rewrite skipn_firstn_comm, take_take. f_equal. lia. Qed.

(** A frame that can be read is accepted exactly when it is for this server. *)
Lemma filter_agrees s (n : nat) mtu p f :
  wrap 32 mtu = Z.of_nat n → (19 ≤ n)%nat → be_get (take 2 (drop 12 p)) = aoe_EtherType →
  frame_UnmarshalBinary (take n p) = Ok f →
  filtered s mtu p = if for_us s (fheader f) then Some (take n p) else None.
Proof.
  intros Hn Hn19 Ht Hf. unfold frame_UnmarshalBinary in Hf.
  destruct (EFrame_UnmarshalBinary (take n p)) as [e| |] eqn:Ee; [|done..]. cbn in Hf.
  destruct (Header_UnmarshalBinary (Payload e)) as [h| |] eqn:Eh; [|done..]. injection Hf as <-.
  apply eframe_payload in Ee; [|by rewrite take_drop_take by lia].
  destruct (header_address _ _ Eh) as (H5 & Hma & Hmi). rewrite Ee in H5, Hma, Hmi. rewrite drop_drop in Hma, Hmi.
  rewrite length_drop, length_take in H5. rewrite take_drop_take in Hma, Hmi by lia.
  unfold filtered. rewrite filter_accepts by lia. cbn [fheader]. unfold for_us. rewrite Hma, Hmi, <- bool_decide_and, Hn.
  cbn [Nat.add]. set (P := _ ∧ _). destruct (decide P) as [Hd|Hd].
  - rewrite bool_decide_true by done. cbv zeta. rewrite decide_False by lia. by rewrite Nat2Z.id.
  - by rewrite bool_decide_false by done.
Qed.

(** C31: the filter in the kernel and the check in the server do the same.  On packets
    of the server's protocol, a server whose filter is attached, given the packets the
    filter lets through, does what a server without a filter does with all of them:
    the same calls of the device, and the same frames sent. *)
Theorem aoe_filter_equiv (ma mi : Z) (iface : Interface) (l : list (bytes * bytes)) (st : aoe_state V) :
  19 ≤ MTU iface < 2 ^ 32 → Forall (λ x, be_get (take 2 (drop 12 x.2)) = aoe_EtherType) l →
  let s := mkAoeServer ma mi in
  serve_packets (s true) iface (omap (λ x, (x.1,.) <$> filtered (s true) (MTU iface) x.2) l) st =
  serve_packets (s false) iface l st.
Proof.
  intros Hm Hl s. set (n := Z.to_nat (MTU iface)).
  assert (wrap 32 (MTU iface) = Z.of_nat n) as Hn by (rewrite wrap_id by (unfold in_width; lia); lia).
  revert st. induction Hl as [|[from p] l Ht Hl IH]; intros st; [done|]. cbn [omap list_omap serve_packets fst snd] in *. fold n.
  set (l' := omap _ l) in IH.
  destruct (frame_UnmarshalBinary (take n p)) as [f|e|] eqn:Ef.
  - rewrite (filter_agrees (s true) n (MTU iface) p f Hn ltac:(lia) Ht Ef). change (for_us (s true) (fheader f)) with (for_us (s false) (fheader f)).
    destruct (for_us (s false) (fheader f)) eqn:Eu; cbn [fmap option_fmap option_map serve_packets].
    + fold n. rewrite take_take, Nat.min_id, Ef. unfold mbind, M_bind.
      assert (handleFrame (s true) iface from f = handleFrame (s false) iface from f) as ->.
      { unfold handleFrame. cbn [usingBPF s negb andb]. by rewrite Eu. }
      destruct (try (handleFrame (s false) iface from f) st) as [[x|x|] st']; [apply IH|done..].
    + assert (try (handleFrame (s false) iface from f) st = (Ok (inl 0), st)) as E.
      { unfold handleFrame, try. cbn [usingBPF s negb andb]. by rewrite Eu. }
      run_step E. apply IH.
  - unfold filtered at 1. case_decide; cbn [fmap option_fmap option_map serve_packets]; [apply IH|]. fold n. set (k := bpf_exec _ _ _) in *.
    destruct (filter_values (s true) (MTU iface) p) as [Hk|Hk]; fold k in Hk; [done|]. rewrite Hk, Hn.
    rewrite Nat2Z.id, take_take, Nat.min_id, Ef. apply IH.
  - exfalso. unfold frame_UnmarshalBinary in Ef. destruct (EFrame_UnmarshalBinary (take n p)) as [e| |] eqn:Ee; cbn in Ef; [|done|].
    + destruct (Header_UnmarshalBinary (Payload e)) eqn:Eh; [done..|]. by apply (proj2 (unmarshal_total (Payload e))).
    + by apply (proj1 (unmarshal_total (take n p))).
Qed.
End filter.

(** ** Examples *)

Fixpoint run_bpf (fuel : nat) (l : list Instruction) (a : Z) (p : bytes) : Z :=
  match fuel, l with
  | S fuel', LoadAbsolute off sz :: l' =>
      if decide (off + sz ≤ length p)%nat then run_bpf fuel' l' (be_get (take sz (drop off p))) p else 0
  | S fuel', JumpIfEqual v st sf :: l' => run_bpf fuel' (drop (if decide (a = v) then st else sf) l') a p
  | S _, RetConstant v :: _ => v
  | _, _ => 0
  end.
Lemma run_bpf_enough n : ∀ m l a p, (length l ≤ n)%nat → (length l ≤ m)%nat → run_bpf n l a p = run_bpf m l a p.
Proof.
  induction n as [|n IH]; intros [|m] [|i l] a p Hn Hm; cbn in Hn, Hm; try lia; try done. cbn [run_bpf].
  destruct i; [case_decide; [|done]| |done]; apply IH; rewrite ?length_drop; lia.
Qed.
#[local] Instance ex_Bpf : Bpf := {| bpf_exec l := run_bpf (length l) l |}.
#[local] Instance ex_BpfLaws : BpfLaws.
Proof.
  split; cbn.
  - intros. by rewrite decide_True by done.
  - intros. by rewrite decide_False by lia.
  - intros. apply run_bpf_enough; rewrite length_drop; lia.
  - done.
Qed.

(** Headers of five bytes, and frames with a header of fourteen. *)
#[local] Instance ex_aoe : AoePkg unit := {|
  BroadcastMajor := 0xffff; BroadcastMinor := 0xff; CommandIssueATACommand := 0; CommandQueryConfigInformation := 1;
  ConfigCommandRead := 0; aoe_Version := 1; aoe_EtherType := 0x88a2; ErrorUnrecognizedCommandCode := 1;
  ErrorBadArgumentParameter := 2; ErrorDeviceUnavailable := 3; ErrInvalidATARequest := ErrInvalid;
  Header_UnmarshalBinary b := if decide (length b < 5)%nat then Err EOF
    else Ok (mkHeader 1 false false 0 (be_get (take 2 (drop 2 b))) (be_get (take 1 (drop 4 b))) 1 [] (ConfigArg 0 0 0 0 0 []));
  Header_MarshalBinary h := Ok (zeros 2 ++ be_put 2 (Major h) ++ be_put 1 (Minor h));
  EFrame_UnmarshalBinary p := Ok (mkEFrame [] [] (be_get (take 2 (drop 12 p))) (drop 14 p));
  EFrame_MarshalBinary e := Ok (Destination e ++ Source e ++ be_put 2 (EtherType e) ++ Payload e);
  ServeATA send h := send h;
|}.
#[local] Instance ex_aoe_laws : AoePkgLaws unit.
Proof.
  split; cbn.
  - by intros p e _ [= <-].
  - intros b h. case_decide; [done|]. intros [= <-]. split; [lia|done].
  - intros p. split; [done|]. by case_decide.
Qed.

Definition ex_packet (ma mi : Z) : bytes * bytes :=
  (replicate 6 x61, zeros 12 ++ be_put 2 0x88a2 ++ zeros 2 ++ be_put 2 ma ++ be_put 1 mi).
Definition ex_packets : list (bytes * bytes) := [ex_packet 1 1; ex_packet 2 1; ex_packet 0xffff 0xff; ex_packet 1 7].
Definition ex_iface : Interface := mkInterface 1500 (replicate 6 x62).

(** Two of the four packets are answered, with the filter and without. *)
Lemma aoe_filter_equiv_witness :
  let on := serve_packets (mkAoeServer 1 1 true) ex_iface
    (omap (λ x, (x.1,.) <$> filtered (mkAoeServer 1 1 true) 1500 x.2) ex_packets) (mkAoe tt [] []) in
  on = serve_packets (mkAoeServer 1 1 false) ex_iface ex_packets (mkAoe tt [] []) ∧ length (sent on.2) = 2%nat.
Proof.
  split; [|vm_compute; reflexivity].
  apply (aoe_filter_equiv 1 1 ex_iface ex_packets (mkAoe tt [] []) ltac:(cbn; lia)). repeat constructor.
Defined.
