(* ===== verification/GC.v ===== *)
(** * Garbage collection

    Models [src/gc/gc.go], [src/gc/null.go] and [src/block/gc_block_vol.go]: the
    collector of block volumes, which marks what the current inode and the
    snapshots of every volume refer to, and the controller that runs the
    registered collectors.  The metadata service is the in-memory one; where the
    inodes come from is the interface [INodeFetcher]. *)
From stdpp Require Import pretty.
From S2P Require Import Prelude GoSem GoStrings Refs TempStore Store Crc32 Blockset Proto Models INodeStore File Ring Metadata MetaTemp BlockVolume.

(** [gc.INodeFetcher] *)
Class INodeFetcher (F : Type) := { fetch : INodeRef → M F MINode }.

(** [torus.INodeStore] is one. *)
#[global] Instance store_fetcher {S} `{BlockStore S} `{Range} : INodeFetcher S := {| fetch := GetINode |}.

(** The collector of block volumes; [bset] is its field [set]. *)
Record blockvolGC := mkGC {
  bset : gset BlockRef;
  highwaters : gmap Z Z;
  curINodes : list INodeRef;
}.

(** [Clear], and a new collector. *)
Definition blockvol_Clear (b : blockvolGC) : blockvolGC := mkGC ∅ ∅ [].
Definition NewBlockVolGC : res blockvolGC := Ok (mkGC ∅ ∅ []).

(** A missing entry of a Go map of numbers is 0. *)
Definition highwater (b : blockvolGC) (v : Z) : Z := default 0 (highwaters b !! v).

Definition mark_ref (b : blockvolGC) (ref : BlockRef) : blockvolGC :=
  if IsZero ref then b
  else
    mkGC ({[ref]} ∪ bset b)
      (if decide (highwater b (Refs.Volume ref) < INode ref)
       then <[Refs.Volume ref := INode ref]> (highwaters b) else highwaters b)
      (curINodes b).

Definition blockvol_IsDead (b : blockvolGC) (ref : BlockRef) : bool :=
  match highwaters b !! Refs.Volume ref with
  | None => true
  | Some v =>
      if decide (v ≤ INode ref) then false
      else if decide (BlockType ref = BlockType_num TypeINode) then
        negb (existsb (λ x, HasINode ref x (BlockType_num TypeINode)) (curINodes b))
      else negb (bool_decide (ref ∈ bset b))
  end.

Section gc.
Context {F : Type} `{HF : INodeFetcher F} `{HashRing} `{Range} `{Godbc}.

(** What a collector uses of the server. *)
Record genv := mkEnv { gmds : Server; inodes : F }.

Definition on_inodes {A} (m : M F A) : M (blockvolGC * genv) A := λ '(b, e),
  let '(r, f) := m (inodes e) in (r, (b, mkEnv (gmds e) f)).
Definition on_meta {A} (m : M Server A) : M (blockvolGC * genv) A := λ '(b, e),
  let '(r, d) := m (gmds e) in (r, (b, mkEnv d (inodes e))).
Definition on_gc (f : blockvolGC → blockvolGC) : M (blockvolGC * genv) unit := λ '(b, e), (Ok tt, (f b, e)).

(** What an inode refers to. *)
Definition inode_refs (i : MINode) : res (list BlockRef) :=
  set ← UnmarshalFromProto (IN_Blocks i) None;
  GetAllBlockRefs set.

Fixpoint mark_inodes (l : list INodeRef) : M (blockvolGC * genv) unit :=
  match l with
  | [] => mret tt
  | x :: l' =>
      i ← on_inodes (fetch x);
      refs ← lift (inode_refs i);
      _ ← on_gc (λ b, foldl mark_ref b refs);
      mark_inodes l'
  end.

Fixpoint snap_inodes (l : list Snapshot) : res (list INodeRef) :=
  match l with
  | [] => Ok []
  | x :: l' => r ← INodeRefFromBytes (SINodeRef x); rs ← snap_inodes l'; mret (r :: rs)
  end.

Definition blockvol_PrepVolume (vol : Models.Volume) : M (blockvolGC * genv) unit :=
  if decide (VType vol ≠ VolumeType) then mret tt
  else
    curRef ← on_meta (volume_GetINode (VId vol));
    _ ← on_gc (λ b, mkGC (bset b) (<[Refs.Volume curRef := 0]> (highwaters b)) (curINodes b));
    if decide (INode curRef ≤ 1) then mret tt
    else
      snaps ← on_meta (GetSnapshots (VId vol));
      xs ← lift (snap_inodes snaps);
      _ ← mark_inodes (curRef :: xs);
      on_gc (λ b, mkGC (bset b) (highwaters b) (curINodes b ++ curRef :: xs)).

(** ** The controller *)

Inductive GC := NullGC | BlockVolGC (b : blockvolGC).

Definition PrepVolume (vol : Models.Volume) (g : GC) (e : genv) : res unit * GC * genv :=
  match g with
  | NullGC => (Ok tt, NullGC, e)
  | BlockVolGC b => let '(r, (b', e')) := blockvol_PrepVolume vol (b, e) in (r, BlockVolGC b', e')
  end.

Definition IsDead (g : GC) (ref : BlockRef) : bool :=
  match g with NullGC => false | BlockVolGC b => blockvol_IsDead b ref end.

Definition Clear (g : GC) : GC :=
  match g with NullGC => NullGC | BlockVolGC b => BlockVolGC (blockvol_Clear b) end.

Abbreviation controller := (list GC).

Fixpoint controller_PrepVolume (vol : Models.Volume) (gcs : controller) (e : genv) : res unit * controller * genv :=
  match gcs with
  | [] => (Ok tt, [], e)
  | x :: gcs' =>
      let '(r, x', e1) := PrepVolume vol x e in
      match r with
      | Ok _ => let '(r2, gcs2, e2) := controller_PrepVolume vol gcs' e1 in (r2, x' :: gcs2, e2)
      | _ => (r, x' :: gcs', e1)
      end
  end.

Definition controller_IsDead (gcs : controller) (ref : BlockRef) : bool := existsb (λ x, IsDead x ref) gcs.
Definition controller_Clear (gcs : controller) : controller := Clear <$> gcs.

(** The start of a cycle of [rebalanceTicker]: every volume is prepared, and an
    error is logged. *)
Fixpoint prep_volumes (vols : list Models.Volume) (gcs : controller) (e : genv) : list (res unit) * controller * genv :=
  match vols with
  | [] => ([], gcs, e)
  | x :: vols' =>
      let '(r, gcs1, e1) := controller_PrepVolume x gcs e in
      match r with
      | Panic => ([Panic], gcs1, e1)
      | _ => let '(rs, gcs2, e2) := prep_volumes vols' gcs1 e1 in (r :: rs, gcs2, e2)
      end
  end.

(** ** The registry *)

Definition RegisterGC (name : gostring) (newFunc : res GC) : M (option (gmap gostring (res GC))) unit := λ gcFuncs,
  let fs := default ∅ gcFuncs in
  match fs !! name with
  | Some _ => (Panic, Some fs)
  | None => (Ok tt, Some (<[name := newFunc]> fs))
  end.

(** [order] is the order the map is iterated over in; a collector that cannot be
    made is left out. *)
Definition NewGCController (order : gmap gostring (res GC) → list (gostring * res GC))
    (gcFuncs : option (gmap gostring (res GC))) : res controller :=
  foldr (λ '(_, f) gcs, gcs ← gcs; match f with Ok g => mret (g :: gcs) | Err _ => mret gcs | Panic => Panic end)
    (mret []) (order (default ∅ gcFuncs)).
End gc.
