(* ===== verification/GCSpec.v ===== *)
(** * What the garbage collector keeps and drops

    A block is dead exactly when its volume is gone, or when nothing its volume
    refers to needs it and it is older than the newest block the volume refers
    to.  The theorems are about one cycle of preparation of all the volumes;
    fetching inodes is abstracted by [FetcherLaws], which the inode store
    satisfies. *)
From stdpp Require Import pretty.
From S2P Require Import Prelude GoSem GoStrings Refs TempStore Store Crc32 Blockset Proto Models INodeStore File Ring Metadata MetaTemp MetaTempSpec BlockVolume BlockVolumeSpec GC.

(** What fetching promises: it answers from a fixed set of inodes. *)
Class FetcherLaws (F : Type) `{INodeFetcher F} := {
  fetch_inv : F → Prop;
  inode_at : F → INodeRef → option MINode;
  fetch_ok f x i f' : fetch_inv f → fetch x f = (Ok i, f') → inode_at f x = Some i;
  fetch_fails f x r f' : fetch_inv f → fetch x f = (r, f') → is_ok r = false → inode_at f x = None;
  fetch_same f x r f' : fetch_inv f → fetch x f = (r, f') → fetch_inv f' ∧ ∀ y, inode_at f' y = inode_at f y;
}.

(** ** Marking *)

Lemma mark_refs_set refs b r : r ∈ bset (foldl mark_ref b refs) ↔ r ∈ bset b ∨ r ∈ refs ∧ IsZero r = false.
Proof.
  revert b. induction refs as [|x refs IH]; intros b; cbn; [rewrite elem_of_nil; naive_solver|].
  rewrite IH, elem_of_cons. unfold mark_ref. destruct (IsZero x) eqn:E; cbn; [naive_solver congruence|].
  rewrite elem_of_union, elem_of_singleton. split; [|naive_solver]. intros [[->|?]|[? ?]]; auto.
Qed.

Lemma mark_refs_cur refs b : curINodes (foldl mark_ref b refs) = curINodes b.
Proof. revert b. induction refs as [|x refs IH]; intros b; cbn; [done|]. rewrite IH. unfold mark_ref. by destruct (IsZero x). Qed.

Lemma mark_refs_other refs v b :
  Forall (λ r, IsZero r = true ∨ Refs.Volume r ≠ v) refs → highwaters (foldl mark_ref b refs) !! v = highwaters b !! v.
Proof.
  intros Hr. revert b. induction Hr as [|x refs Hx Hr IH]; intros b; cbn; [done|]. rewrite IH. unfold mark_ref.
  destruct (IsZero x) eqn:E; [done|]. destruct Hx as [?|Hx]; [done|]. cbn. case_decide; [|done].
  by rewrite lookup_insert_ne.
Qed.

(** The highwater mark of a volume is the largest inode number seen. *)
Lemma mark_refs_high refs v b h :
  highwaters b !! v = Some h →
  ∃ h', highwaters (foldl mark_ref b refs) !! v = Some h' ∧
    ∀ n, n < h' ↔ n < h ∨ ∃ r, r ∈ refs ∧ IsZero r = false ∧ Refs.Volume r = v ∧ n < INode r.
Proof.
  revert b h. induction refs as [|x refs IH]; intros b h Hh; cbn.
  { exists h. split; [done|]. intros n. split; [by left|]. intros [?|(r & ?%not_elem_of_nil & _)]; done. }
  assert (∃ h1, highwaters (mark_ref b x) !! v = Some h1 ∧
    ∀ n, n < h1 ↔ n < h ∨ IsZero x = false ∧ Refs.Volume x = v ∧ n < INode x) as (h1 & Hh1 & Hn1).
  { unfold mark_ref. destruct (IsZero x) eqn:E; [exists h; split; [done|naive_solver]|]. cbn.
    destruct (decide (Refs.Volume x = v)) as [<-|Hv].
    - unfold highwater. rewrite Hh. cbn. case_decide as Hd.
      + exists (INode x). rewrite lookup_insert_eq. split; [done|]. intros n. split; [by right|].
        intros [?|(_ & _ & ?)]; lia.
      + exists h. split; [done|]. intros n. split; [by left|]. intros [?|(_ & _ & ?)]; lia.
    - exists h. split; [case_decide; [by rewrite lookup_insert_ne|done]|naive_solver]. }
  destruct (IH _ _ Hh1) as (h' & Hh' & Hn'). exists h'. split; [done|]. intros n. rewrite Hn', Hn1. split.
  - intros [[?|?]|(r & ? & ?)]; [by left|right; exists x; split; [by left|done]|right; exists r; split; [by right|done]].
  - intros [?|(r & [->|?]%elem_of_cons & ?)]; naive_solver.
Qed.

(** ** One volume as the collector sees it *)

Definition same_view (v : Z) (b b' : blockvolGC) : Prop :=
  highwaters b' !! v = highwaters b !! v ∧
  (∀ r : BlockRef, Refs.Volume r = v → r ∈ bset b' ↔ r ∈ bset b) ∧
  (∀ x : INodeRef, Refs.Volume x = v → x ∈ curINodes b' ↔ x ∈ curINodes b).

Lemma same_view_refl v b : same_view v b b.
Proof. done. Qed.
Lemma same_view_trans v b1 b2 b3 : same_view v b1 b2 → same_view v b2 b3 → same_view v b1 b3.
Proof.
  intros (H1 & S1 & C1) (H2 & S2 & C2). split; [congruence|]. split.
  - intros r Hr. by rewrite S2, S1.
  - intros x Hx. by rewrite C2, C1.
Qed.

Lemma has_inode_exists r l :
  existsb (λ x, HasINode r x (BlockType_num TypeINode)) l = true ↔ ∃ x, x ∈ l ∧ HasINode r x (BlockType_num TypeINode) = true.
Proof. rewrite existsb_exists. by setoid_rewrite list_elem_of_In. Qed.

Lemma HasINode_volume (r : BlockRef) (x : INodeRef) t : HasINode r x t = true → INode r = INode x ∧ Refs.Volume x = Refs.Volume r ∧ BlockType r = t.
Proof. unfold HasINode. rewrite !andb_true_iff, !bool_decide_eq_true. naive_solver. Qed.

(** When a block of a volume with a highwater mark is dead. *)
Lemma is_dead_spec b (r : BlockRef) h :
  highwaters b !! Refs.Volume r = Some h →
  blockvol_IsDead b r = true ↔ INode r < h ∧
    if decide (BlockType r = BlockType_num TypeINode)
    then ∀ x, x ∈ curINodes b → HasINode r x (BlockType_num TypeINode) = false
    else r ∉ bset b.
Proof.
  intros Hh. unfold blockvol_IsDead. rewrite Hh. case_decide as Hd; [split; [done|lia]|].
  case_decide as Ht.
  - rewrite negb_true_iff, <-not_true_iff_false, has_inode_exists. split.
    + intros Hx. split; [lia|]. intros x Hin. apply not_true_iff_false. naive_solver.
    + intros [_ Hx] (x & Hin & Hy). rewrite Hx in Hy by done. done.
  - rewrite negb_true_iff, bool_decide_eq_false. split; [by split; [lia|]|]. by intros [].
Qed.

Lemma is_dead_view b b' (r : BlockRef) :
  same_view (Refs.Volume r) b b' → blockvol_IsDead b' r = blockvol_IsDead b r.
Proof.
  intros (Hh & Hs & Hc). destruct (highwaters b !! Refs.Volume r) as [h|] eqn:E.
  - apply eq_true_iff_eq. rewrite !(is_dead_spec _ _ h) by congruence. case_decide; [|by rewrite Hs].
    split; intros [? Hx]; (split; [done|]); intros x Hin; destruct (HasINode r x _) eqn:Ei; try done;
      apply HasINode_volume in Ei as Hv; destruct Hv as (_ & Hv & _); rewrite Hx in Ei; try done; by apply Hc.
  - unfold blockvol_IsDead. by rewrite E, Hh.
Qed.

Section gc.
Context {F : Type} `{FL : FetcherLaws F} `{HH : HashRing} `{HR : Range} `{HG : Godbc}.
Abbreviation genv := (genv (F := F)).
Implicit Types (b : blockvolGC) (e : genv) (m : Server) (f : F) (r : BlockRef) (x : INodeRef) (vol : Models.Volume).

(** ** What a volume needs *)

(** The current inode of a volume and the inodes of its snapshots. *)
Definition root (m : Server) (vid : Z) (x : INodeRef) : Prop :=
  ∃ d, volume_data vid m = Some d ∧ (x = id d ∨ ∃ s, s ∈ snaps d ∧ INodeRefFromBytes (SINodeRef s) = Ok x).

(** A block of data one of them refers to. *)
Definition needs_data (m : Server) (f : F) (vid : Z) (r : BlockRef) : Prop :=
  ∃ x i refs, root m vid x ∧ inode_at f x = Some i ∧ inode_refs i = Ok refs ∧ r ∈ refs ∧ IsZero r = false.

(** A block one of them is kept in. *)
Definition needs_inode (m : Server) (vid : Z) (r : BlockRef) : Prop :=
  ∃ x, root m vid x ∧ HasINode r x (BlockType_num TypeINode) = true.

(** Inodes refer to data blocks of their own volume, and volumes to inodes of
    theirs. *)
Record tidy (m : Server) (f : F) : Prop := {
  tidy_refs x i refs r : inode_at f x = Some i → inode_refs i = Ok refs → r ∈ refs → IsZero r = false →
    Refs.Volume r = Refs.Volume x ∧ BlockType r = BlockType_num TypeBlock;
  tidy_roots vid x : root m vid x → Refs.Volume x = vid;
}.

(** The references of fetched inodes. *)
Definition refs_at (f : F) (x : INodeRef) (refs : list BlockRef) : Prop :=
  ∃ i, inode_at f x = Some i ∧ inode_refs i = Ok refs.

Lemma refs_at_same f f' x refs : (∀ y, inode_at f' y = inode_at f y) → refs_at f' x refs ↔ refs_at f x refs.
Proof. intros Hs. unfold refs_at. by rewrite Hs. Qed.

(** The inodes of [l] are marked in order; the marking is not complete when one of
    them cannot be read, and stops there. *)
Definition marked (f : F) (l : list INodeRef) (complete : bool) (b b' : blockvolGC) : Prop :=
  ∃ l1 l2 rss, l = l1 ++ l2 ∧ Forall2 (refs_at f) l1 rss ∧ b' = foldl mark_ref b (concat rss) ∧
    if complete then l2 = [] else ∃ y l3, l2 = y :: l3 ∧ ∀ refs, ¬ refs_at f y refs.

Lemma marked_stop f x l b : (∀ refs, ¬ refs_at f x refs) → marked f (x :: l) false b b.
Proof. intros Hx. exists [], (x :: l), []. split_and!; try done. by exists x, l. Qed.

Lemma marked_cons f x l ok b refs b' :
  refs_at f x refs → marked f l ok (foldl mark_ref b refs) b' → marked f (x :: l) ok b b'.
Proof.
  intros Hx (l1 & l2 & rss & -> & Hall & -> & Hok). exists (x :: l1), l2, (refs :: rss). split_and!; try done.
  - by constructor.
  - cbn. by rewrite foldl_app.
Qed.

Lemma marked_same f f' l ok b b' :
  (∀ y, inode_at f' y = inode_at f y) → marked f' l ok b b' → marked f l ok b b'.
Proof.
  intros Hs (l1 & l2 & rss & -> & Hall & -> & Hok). exists l1, l2, rss. split_and!; try done.
  - eapply Forall2_impl; [|exact Hall]. intros y rs. by apply refs_at_same.
  - destruct ok; [done|]. destruct Hok as (y & l3 & -> & Hy). exists y, l3. split; [done|].
    intros rs ?. apply (Hy rs). by eapply refs_at_same.
Qed.

(** What preparing a volume leaves of the server. *)
Definition same_env (e e' : genv) : Prop :=
  gmds e' = gmds e ∧ fetch_inv (inodes e') ∧ ∀ y, inode_at (inodes e') y = inode_at (inodes e) y.

Lemma mark_inodes_run l b e o b' e' :
  fetch_inv (inodes e) → mark_inodes l (b, e) = (o, (b', e')) →
  same_env e e' ∧ marked (inodes e) l (is_ok o) b b'.
Proof.
  revert b e. induction l as [|x l IH]; intros b e Hf; cbn [mark_inodes].
  { intros [= <- <- <-]. split; [done|]. by exists [], [], []. }
  unfold mbind at 1, M_bind, on_inodes. destruct (fetch x (inodes e)) as [o1 f'] eqn:E.
  destruct (fetch_same _ _ _ _ Hf E) as [Hf' Hs].
  assert (is_ok o1 = false → marked (inodes e) (x :: l) false b b) as Hbad.
  { intros Ho. apply marked_stop. intros refs (i & Hi & _). by rewrite (fetch_fails _ _ _ _ Hf E Ho) in Hi. }
  destruct o1 as [i|er|]; [|intros [= <- <- <-]; split; [done|by apply Hbad]..].
  pose proof (fetch_ok _ _ _ _ Hf E) as Hi. unfold mbind, M_bind, lift.
  destruct (inode_refs i) as [refs|er|] eqn:Er.
  2,3: intros [= <- <- <-]; split; [done|]; apply marked_stop; intros refs (i' & Hi' & Hx); congruence.
  unfold on_gc. intros Hr. destruct (IH _ (mkEnv (gmds e) f') Hf' Hr) as ((Hm & Hf2 & Hs2) & Hmk). cbn in *.
  split; [split_and!; try done; intros y; by rewrite Hs2|].
  eapply marked_cons; [by exists i|]. by eapply marked_same.
Qed.

(** ** Preparing one volume *)

Lemma set_data_id vid d m : volume_data vid m = Some d → set_data vid d m = m.
Proof. intros Hd. unfold set_data. rewrite insert_id by done. by destruct m. Qed.

Lemma get_inode_run vid m d : mut m = false → volume_data vid m = Some d → volume_GetINode vid m = (Ok (id d), m).
Proof. intros Hm Hd. by_data. rewrite Hd. cbn. by rewrite set_data_id. Qed.
Lemma get_snapshots_run vid m d : mut m = false → volume_data vid m = Some d → GetSnapshots vid m = (Ok (snaps d), m).
Proof. intros Hm Hd. by_data. rewrite Hd. cbn. by rewrite set_data_id. Qed.

(** The highwater mark of the volume starts again. *)
Definition reset (v : Z) b : blockvolGC := mkGC (bset b) (<[v := 0]> (highwaters b)) (curINodes b).

(** The outcomes of preparing a volume of the service. *)
Inductive prepared (e : genv) (vid : Z) (b : blockvolGC) : res unit → blockvolGC → Prop :=
  | prep_missing er : volume_data vid (gmds e) = None → prepared e vid b (Err er) b
  | prep_new d :
      volume_data vid (gmds e) = Some d → INode (id d) ≤ 1 →
      prepared e vid b (Ok tt) (reset (Refs.Volume (id d)) b)
  | prep_snaps d :
      volume_data vid (gmds e) = Some d → snap_inodes (snaps d) = Panic →
      prepared e vid b Panic (reset (Refs.Volume (id d)) b)
  | prep_done d xs b' :
      volume_data vid (gmds e) = Some d → 1 < INode (id d) → snap_inodes (snaps d) = Ok xs →
      marked (inodes e) (id d :: xs) true (reset (Refs.Volume (id d)) b) b' →
      prepared e vid b (Ok tt) (mkGC (bset b') (highwaters b') (curINodes b' ++ id d :: xs))
  | prep_stopped d xs o b' :
      volume_data vid (gmds e) = Some d → 1 < INode (id d) → snap_inodes (snaps d) = Ok xs → is_ok o = false →
      marked (inodes e) (id d :: xs) false (reset (Refs.Volume (id d)) b) b' →
      prepared e vid b o b'.

Lemma snap_inodes_no_err l er : snap_inodes l ≠ Err er.
Proof.
  induction l as [|s l IH]; cbn; [done|]. unfold INodeRefFromBytes, get_u64_at, or_panic, mbind, res_mbind, res_bind.
  destruct (gslice 0 _ _), (gslice 8 _ _); cbn; try done. by destruct (snap_inodes l).
Qed.

Lemma prep_run vol b e o b' e' :
  VType vol = VolumeType → mut (gmds e) = false → fetch_inv (inodes e) →
  blockvol_PrepVolume vol (b, e) = (o, (b', e')) →
  same_env e e' ∧ prepared e (VId vol) b o b'.
Proof.
  intros Ht Hm Hf. unfold blockvol_PrepVolume. rewrite decide_False by tauto.
  destruct (volume_data (VId vol) (gmds e)) as [d|] eqn:Hd.
  2: { unfold mbind, M_bind, on_meta, volume_GetINode. rewrite with_data_run, Hd by done.
       intros [= <- <- <-]. split; [done|]. by constructor. }
  rewrite (bind_step _ _ _ (id d) (b, e)) by (unfold on_meta; rewrite (get_inode_run _ _ d) by done; by destruct e).
  rewrite (bind_step _ _ _ tt (reset (Refs.Volume (id d)) b, e)) by done. case_decide as H1.
  { intros [= <- <- <-]. split; [done|]. by constructor. }
  rewrite (bind_step _ _ _ (snaps d) (reset (Refs.Volume (id d)) b, e))
    by (unfold on_meta; rewrite (get_snapshots_run _ _ d) by done; by destruct e).
  unfold mbind, M_bind, lift. destruct (snap_inodes (snaps d)) as [xs|er|] eqn:Hs; [|by apply snap_inodes_no_err in Hs|].
  2: { intros [= <- <- <-]. split; [done|]. by eapply prep_snaps. }
  destruct (mark_inodes (id d :: xs) _) as [o1 [b1 e1]] eqn:E. apply mark_inodes_run in E as [He Hmk]; [|done].
  destruct o1 as [[]|er|]; intros [= <- <- <-]; (split; [done|]);
    [eapply prep_done|eapply prep_stopped|eapply prep_stopped]; try done; lia.
Qed.

Lemma snap_inodes_elem l xs x :
  snap_inodes l = Ok xs → x ∈ xs ↔ ∃ s, s ∈ l ∧ INodeRefFromBytes (SINodeRef s) = Ok x.
Proof.
  revert xs. induction l as [|s l IH]; intros xs; cbn.
  { intros [= <-]. rewrite elem_of_nil. split; [done|]. intros (s & ?%not_elem_of_nil & _). done. }
  destruct (INodeRefFromBytes (SINodeRef s)) as [y|er|] eqn:E; try done. cbn.
  destruct (snap_inodes l) as [ys|er|]; try done. cbn. intros [= <-]. rewrite elem_of_cons, (IH ys) by done. split.
  - intros [->|(s' & ? & ?)]; [exists s|exists s']; (split; [|done]); [by left|by right].
  - intros (s' & [->|Hin]%elem_of_cons & Hx); [left; congruence|right; by exists s'].
Qed.

Lemma roots_list m vid d xs x :
  volume_data vid m = Some d → snap_inodes (snaps d) = Ok xs → x ∈ id d :: xs ↔ root m vid x.
Proof.
  intros Hd Hs. rewrite elem_of_cons, (snap_inodes_elem _ _ _ Hs). unfold root. rewrite Hd. split; [intros ?; by exists d|].
  by intros (d' & [= <-] & ?).
Qed.

(** What has been marked when the inodes of [l] are: the references of a prefix,
    all of it when the marking is complete. *)
Lemma marked_refs f l ok b b' :
  marked f l ok b b' →
  ∃ refs, b' = foldl mark_ref b refs ∧
    (∀ r, r ∈ refs → ∃ x rs, x ∈ l ∧ refs_at f x rs ∧ r ∈ rs) ∧
    (ok = true → ∀ x rs r, x ∈ l → refs_at f x rs → r ∈ rs → r ∈ refs).
Proof.
  intros (l1 & l2 & rss & -> & Hall & -> & Hok). exists (concat rss). split; [done|]. split.
  - clear Hok. induction Hall as [|x rs l1 rss Hx Hall IH]; cbn; intros r; [by intros ?%not_elem_of_nil|].
    rewrite elem_of_app. intros [Hin|Hin]; [exists x, rs; split; [by left|done]|].
    destruct (IH _ Hin) as (y & rs' & ? & ?). exists y, rs'. split; [by right|done].
  - intros ->. subst l2. rewrite app_nil_r. induction Hall as [|x rs l1 rss Hx Hall IH]; intros y rs' r; [by intros ?%not_elem_of_nil|].
    rewrite elem_of_cons. cbn. rewrite elem_of_app. intros [->|Hy] Hrs Hr; [left|right; by eapply IH].
    destruct Hx as (i & Hi & Hx), Hrs as (i' & Hi' & Hx'). congruence.
Qed.

(** Preparing a volume does not change how another one is seen. *)
Lemma prep_other e vid v b o b' :
  tidy (gmds e) (inodes e) → v ≠ vid → prepared e vid b o b' → same_view v b b'.
Proof.
  intros [Hrefs Hroots] Hv Hp.
  assert (∀ d, volume_data vid (gmds e) = Some d → same_view v b (reset (Refs.Volume (id d)) b)) as Hreset.
  { intros d Hd. split; [|done]. cbn. rewrite lookup_insert_ne; [done|]. rewrite (Hroots vid); [done|]. exists d. auto. }
  assert (∀ d xs ok b2 b3, volume_data vid (gmds e) = Some d → snap_inodes (snaps d) = Ok xs →
    marked (inodes e) (id d :: xs) ok b2 b3 → same_view v b2 b3) as Hmark.
  { intros d xs ok b2 b3 Hd Hs (refs & -> & Hin & _)%marked_refs.
    assert (Forall (λ r, IsZero r = true ∨ Refs.Volume r ≠ v) refs) as Hall.
    { apply list.Forall_forall. intros r Hr. destruct (IsZero r) eqn:Ez; [by left|right].
      destruct (Hin r) as (x & rs & Hx & (i & Hi & Hrs) & Hr'); [done|]. apply (roots_list (gmds e) vid d xs x Hd Hs) in Hx.
      destruct (Hrefs _ _ _ _ Hi Hrs Hr' Ez) as [-> _]. by rewrite (Hroots _ _ Hx). }
    split; [by apply mark_refs_other|]. split; [|by rewrite mark_refs_cur]. intros r Hr. rewrite mark_refs_set.
    split; [|by left]. intros [?|[Hr' Hz]]; [done|]. by destruct (proj1 (list.Forall_forall _ _) Hall r Hr'); [congruence|]. }
  destruct Hp as [er Hd|d Hd H1|d Hd H1|d xs b' Hd H1 Hs Hmk|d xs o b' Hd H1 Hs Ho Hmk]; [done|by apply Hreset|by apply Hreset| |].
  - eapply same_view_trans; [by eapply Hreset|]. eapply same_view_trans; [by eapply Hmark|]. split; [done|]. split; [done|].
    intros x Hx. cbn. rewrite elem_of_app. split; [|by left]. intros [?|Hin]; [done|].
    apply (roots_list (gmds e) vid d xs x Hd Hs) in Hin. by rewrite (Hroots _ _ Hin) in Hx.
  - eapply same_view_trans; [by eapply Hreset|]. by eapply Hmark.
Qed.

(** Nothing of a volume is marked yet. *)
Definition fresh (v : Z) b : Prop :=
  (∀ r, Refs.Volume r = v → r ∉ bset b) ∧ (∀ x, Refs.Volume x = v → x ∉ curINodes b).

Lemma fresh_view v b b' : same_view v b b' → fresh v b → fresh v b'.
Proof. intros (_ & Hs & Hc) [Hf1 Hf2]. split; intros y Hy; [by rewrite Hs; auto|by rewrite Hc; auto]. Qed.

(** When a block is dead: nothing its volume refers to needs it, and there is a
    newer block of data the volume needs. *)
Definition dead_block (m : Server) (f : F) (r : BlockRef) : Prop :=
  let v := Refs.Volume r in
  (∃ d, volume_data v m = Some d ∧ 1 < INode (id d)) ∧ ¬ needs_data m f v r ∧ ¬ needs_inode m v r ∧
  ∃ r', needs_data m f v r' ∧ INode r < INode r'.

(** The references of all the inodes of a volume are what it needs of data. *)
Lemma refs_needed e v d xs (refs : list BlockRef) :
  volume_data v (gmds e) = Some d → snap_inodes (snaps d) = Ok xs →
  (∀ r, r ∈ refs → ∃ x rs, x ∈ id d :: xs ∧ refs_at (inodes e) x rs ∧ r ∈ rs) →
  (∀ x rs r, x ∈ id d :: xs → refs_at (inodes e) x rs → r ∈ rs → r ∈ refs) →
  ∀ r, r ∈ refs ∧ IsZero r = false ↔ needs_data (gmds e) (inodes e) v r.
Proof.
  intros Hd Hs Hin Hall r. split.
  - intros [Hr Hz]. destruct (Hin _ Hr) as (x & rs & Hx & (i & Hi & Hrs) & ?). exists x, i, rs. split_and!; try done.
    by eapply roots_list.
  - intros (x & i & rs & Hx & Hi & Hrs & Hr & Hz). split; [|done]. eapply (Hall x rs); [|by exists i|done].
    by eapply roots_list.
Qed.

(** A block whose type is the one of inode blocks, and one whose type is not. *)
Lemma needs_inode_list e v b d xs r :
  volume_data v (gmds e) = Some d → snap_inodes (snaps d) = Ok xs → Refs.Volume r = v → fresh v b →
  ¬ needs_inode (gmds e) v r ↔
    ∀ x, x ∈ curINodes b ++ id d :: xs → HasINode r x (BlockType_num TypeINode) = false.
Proof.
  intros Hd Hs Hr [_ Hf]. split.
  - intros Hn x Hx. apply not_true_iff_false. intros Hh. apply elem_of_app in Hx as [Hx|Hx].
    + apply (Hf x); [|done]. apply HasINode_volume in Hh as (_ & -> & _). done.
    + apply Hn. exists x. split; [|done]. by eapply roots_list.
  - intros Hx (x & Hin & Hh). rewrite Hx in Hh; [done|]. rewrite elem_of_app. right. by eapply roots_list.
Qed.

Lemma needs_inode_type m v r : needs_inode m v r → BlockType r = BlockType_num TypeINode.
Proof. by intros (x & _ & (_ & _ & Hb)%HasINode_volume). Qed.
Lemma needs_data_type m f v r :
  tidy m f → needs_data m f v r → Refs.Volume r = v ∧ BlockType r ≠ BlockType_num TypeINode.
Proof.
  intros [Hrefs Hroots] (x & i & rs & Hx & Hi & Hrs & Hr & Hz). destruct (Hrefs _ _ _ _ Hi Hrs Hr Hz) as [-> ->].
  split; [by apply Hroots|done].
Qed.

Lemma prep_same e b b' r :
  tidy (gmds e) (inodes e) → fresh (Refs.Volume r) b → 0 ≤ INode r → prepared e (Refs.Volume r) b (Ok tt) b' →
  blockvol_IsDead b' r = true ↔ dead_block (gmds e) (inodes e) r.
Proof.
  set (v := Refs.Volume r). intros Ht Hf H0 Hp. assert (∀ d, volume_data v (gmds e) = Some d → Refs.Volume (id d) = v) as Hvol.
  { intros d Hd. apply (tidy_roots _ _ Ht). exists d. auto. }
  inversion Hp as [|d Hd H1| |d xs b1 Hd H1 Hs Hmk|d xs o b1]; subst; [| |done].
  { rewrite (is_dead_spec _ _ 0) by (cbn; rewrite Hvol by done; apply lookup_insert_eq).
    split; [lia|]. intros [(d' & Hd' & ?) _]. fold v in Hd'. rewrite Hd in Hd'. injection Hd' as <-. lia. }
  destruct (marked_refs _ _ _ _ _ Hmk) as (refs & -> & Hin & Hall).
  pose proof (refs_needed e v d xs refs Hd Hs Hin (Hall eq_refl)) as Hneed.
  destruct (mark_refs_high refs v (reset (Refs.Volume (id d)) b) 0) as (h & Hh & Hn);
    [cbn; rewrite Hvol by done; apply lookup_insert_eq|].
  assert (INode r < h ↔ ∃ r', needs_data (gmds e) (inodes e) v r' ∧ INode r < INode r') as Hlt.
  { rewrite Hn. split.
    - intros [?|(r' & Hr' & Hz & _ & ?)]; [lia|]. exists r'. split; [by apply Hneed|done].
    - intros (r' & Hr' & ?). right. exists r'. destruct (proj2 (Hneed r') Hr') as [? ?]. split_and!; try done.
      by apply (needs_data_type _ _ _ _ Ht). }
  rewrite (is_dead_spec _ _ h) by exact Hh. rewrite Hlt. unfold dead_block. fold v. cbn [bset curINodes].
  assert (∃ d', volume_data v (gmds e) = Some d' ∧ 1 < INode (id d')) as Hd' by (by exists d).
  case_decide as Hty.
  - rewrite mark_refs_cur, <-(needs_inode_list e v b d xs r) by done.
    assert (¬ needs_data (gmds e) (inodes e) v r) by (intros [_ ?]%needs_data_type; done).
    split; [intros [? ?]; by split_and!|by intros (_ & _ & ? & ?)].
  - assert (¬ needs_inode (gmds e) v r) by (by intros ?%needs_inode_type).
    assert (r ∉ bset b) by (by apply Hf). rewrite mark_refs_set, Hneed.
    split; [intros [? Hx]; split_and!; try done; intros ?; apply Hx; by right|intros (_ & Hx & _ & ?); split; [done|]].
    by intros [?|?].
Qed.

(** ** A whole cycle *)

Lemma same_env_trans e1 e2 e3 : same_env e1 e2 → same_env e2 e3 → same_env e1 e3.
Proof. intros (H1 & H2 & H3) (H4 & H5 & H6). split_and!; [congruence|done|]. intros y. by rewrite H6, H3. Qed.

Lemma needs_data_same e e' v r :
  same_env e e' → needs_data (gmds e') (inodes e') v r ↔ needs_data (gmds e) (inodes e) v r.
Proof. intros (Hm & _ & Hs). unfold needs_data. rewrite Hm. by setoid_rewrite Hs. Qed.

Lemma dead_block_same e e' r :
  same_env e e' → dead_block (gmds e') (inodes e') r ↔ dead_block (gmds e) (inodes e) r.
Proof.
  intros He. unfold dead_block. setoid_rewrite (needs_data_same _ _ _ _ He). destruct He as (Hm & _). by rewrite Hm.
Qed.

Lemma tidy_same e e' : same_env e e' → tidy (gmds e) (inodes e) → tidy (gmds e') (inodes e').
Proof.
  intros (Hm & _ & Hs) [Hr Ht]. split; [|by rewrite Hm]. intros x i refs r. rewrite Hs. apply Hr.
Qed.

(** One volume prepared by the controller of the block volumes alone. *)
Lemma controller_prep vol b e o c e' :
  controller_PrepVolume vol [BlockVolGC b] e = (o, c, e') →
  ∃ b', c = [BlockVolGC b'] ∧ blockvol_PrepVolume vol (b, e) = (o, (b', e')).
Proof.
  cbn. destruct (blockvol_PrepVolume vol (b, e)) as [[[]|er|] [b1 e1]]; intros [= <- <- <-]; by exists b1.
Qed.

Lemma prep_volume_view vol v b e o b' e' :
  mut (gmds e) = false → fetch_inv (inodes e) → tidy (gmds e) (inodes e) →
  (VType vol = VolumeType → VId vol ≠ v) → blockvol_PrepVolume vol (b, e) = (o, (b', e')) →
  same_env e e' ∧ same_view v b b'.
Proof.
  intros Hm Hf Ht Hv. destruct (decide (VType vol = VolumeType)) as [Hty|Hty].
  - intros [He Hp]%prep_run; try done. split; [done|]. eapply prep_other; try done. intros ->. by apply Hv.
  - unfold blockvol_PrepVolume. rewrite decide_True by done. intros [= <- <- <-]. done.
Qed.

Lemma prep_volumes_view vols v b e rs c e' :
  mut (gmds e) = false → fetch_inv (inodes e) → tidy (gmds e) (inodes e) →
  Forall (λ vol, VType vol = VolumeType → VId vol ≠ v) vols →
  prep_volumes vols [BlockVolGC b] e = (rs, c, e') →
  ∃ b', c = [BlockVolGC b'] ∧ same_env e e' ∧ same_view v b b'.
Proof.
  intros Hm Hf Ht Hv. revert b e rs c Hm Hf Ht. induction Hv as [|vol vols Hvol Hv IH]; intros b e rs c Hm Hf Ht; cbn [prep_volumes].
  { intros [= <- <- <-]. by exists b. }
  destruct (controller_PrepVolume vol [BlockVolGC b] e) as [[o c1] e1] eqn:E.
  apply controller_prep in E as (b1 & -> & E). destruct (prep_volume_view _ v _ _ _ _ _ Hm Hf Ht Hvol E) as [He Hb].
  assert (∀ rs2, prep_volumes vols [BlockVolGC b1] e1 = (rs2, c, e') →
    ∃ b', c = [BlockVolGC b'] ∧ same_env e e' ∧ same_view v b b') as Hnext.
  { intros rs2 Hr. destruct (IH b1 e1 rs2 c) as (b' & -> & He' & Hb'); try done; [by rewrite (proj1 He)|apply He|by eapply tidy_same|].
    exists b'. split; [done|]. split; [by eapply same_env_trans|by eapply same_view_trans]. }
  destruct o as [[]|er|]; [| |intros [= <- <- <-]; by exists b1];
    destruct (prep_volumes vols [BlockVolGC b1] e1) as [[rs2 c2] e2]; intros [= <- <- <-]; by eapply Hnext.
Qed.

(** The volume at one place of the list is prepared without an error. *)
Lemma prep_volumes_dead vols b e rs c e' k vol r :
  mut (gmds e) = false → fetch_inv (inodes e) → tidy (gmds e) (inodes e) → NoDup (VId <$> vols) →
  fresh (Refs.Volume r) b → prep_volumes vols [BlockVolGC b] e = (rs, c, e') →
  vols !! k = Some vol → rs !! k = Some (Ok tt) → VType vol = VolumeType → VId vol = Refs.Volume r → 0 ≤ INode r →
  controller_IsDead c r = true ↔ dead_block (gmds e) (inodes e) r.
Proof.
  intros Hm Hf Ht Hnd Hfr Hr Hk Hrs Hty Hv H0. revert b e rs c k Hm Hf Ht Hfr Hr Hk Hrs.
  induction vols as [|x vols IH]; intros b e rs c k Hm Hf Ht Hfr; cbn [prep_volumes]; [done|].
  cbn [fmap list_fmap] in Hnd. apply list.NoDup_cons in Hnd as [Hx Hnd].
  destruct (controller_PrepVolume x [BlockVolGC b] e) as [[o c1] e1] eqn:E. apply controller_prep in E as (b1 & -> & E).
  intros Hrun Hk Hrs. destruct k as [|k]; cbn in Hk.
  - injection Hk as ->. assert (o = Ok tt) as ->.
    { destruct o as [[]|er|]; [done| |by injection Hrun as <- <- <-].
      destruct (prep_volumes vols [BlockVolGC b1] e1) as [[rs2 c2] e2]. by injection Hrun as <- <- <-. }
    destruct (prep_run _ _ _ _ _ _ Hty Hm Hf E) as [He Hp]. rewrite Hv in Hp.
    destruct (prep_volumes vols [BlockVolGC b1] e1) as [[rs2 c2] e2] eqn:E2. injection Hrun as <- <- <-.
    destruct (prep_volumes_view vols (Refs.Volume r) b1 e1 rs2 c2 e2) as (b2 & -> & He2 & Hb2); try done;
      [by rewrite (proj1 He)|apply He|by eapply tidy_same| |].
    + apply list.Forall_forall. intros y Hy _ Hid. apply Hx. rewrite Hv, <-Hid. apply list_elem_of_fmap. by exists y.
    + cbn. rewrite orb_false_r, (is_dead_view _ _ _ Hb2). by apply (prep_same e b b1 r).
  - assert (VId x ≠ Refs.Volume r) as Hne.
    { intros Hid. apply Hx. rewrite Hid, <-Hv. apply list_elem_of_fmap. exists vol. split; [done|]. by eapply list_elem_of_lookup_2. }
    destruct (prep_volume_view _ (Refs.Volume r) _ _ _ _ _ Hm Hf Ht (λ _, Hne) E) as [He Hb].
    rewrite <-(dead_block_same _ _ _ He).
    assert (∃ rs2, prep_volumes vols [BlockVolGC b1] e1 = (rs2, c, e') ∧ rs2 !! k = Some (Ok tt)) as (rs2 & Hr2 & Hk2).
    { destruct o as [[]|er|]; [| |by injection Hrun as <- <- <-; destruct k];
        destruct (prep_volumes vols [BlockVolGC b1] e1) as [[rs2 c2] e2]; injection Hrun as <- <- <-; by exists rs2. }
    eapply (IH Hnd b1 e1 rs2 c k); try done; [by rewrite (proj1 He)|apply He|by eapply tidy_same|by eapply fresh_view].
Qed.

(** C11: the garbage collector drops exactly what nothing refers to.  After a cycle
    has prepared the volumes of the service, a block of a volume whose preparation
    succeeded is dead if and only if the volume has been written, so that its inode is not
    the first one, neither the current inode nor a snapshot of the volume needs the block,
    as data or to keep the inode itself, and they need a block of data with a larger inode
    number; errors of other volumes do not matter.  A block of a volume that is not listed
    is dead. *)
Theorem gc_exact (vols : list Models.Volume) (m : Server) (f : F) rs c e' (r : BlockRef) :
  mut m = false → fetch_inv f → tidy m f → NoDup (VId <$> vols) → 0 ≤ INode r →
  prep_volumes vols [BlockVolGC (mkGC ∅ ∅ [])] (mkEnv m f) = (rs, c, e') →
  (∀ k vol, vols !! k = Some vol → rs !! k = Some (Ok tt) → VType vol = VolumeType → VId vol = Refs.Volume r →
     controller_IsDead c r = true ↔ dead_block m f r) ∧
  (Forall (λ vol, VType vol = VolumeType → VId vol ≠ Refs.Volume r) vols → controller_IsDead c r = true).
Proof.
  intros Hm Hf Ht Hnd H0 Hr. split.
  - intros k vol Hk Hrs Hty Hv. eapply (prep_volumes_dead _ _ (mkEnv m f)); try done.
    split; intros y _; [apply not_elem_of_empty|apply not_elem_of_nil].
  - intros Hall. destruct (prep_volumes_view _ _ _ (mkEnv m f) _ _ _ Hm Hf Ht Hall Hr) as (b' & -> & _ & Hb).
    cbn. rewrite orb_false_r, (is_dead_view _ _ _ Hb). done.
Qed.

(** A snapshot that cannot be read loses the others.  When the inode of one
    snapshot cannot be fetched, as for a snapshot taken before anything was
    written to the volume, preparing the volume fails, and every block of data
    that only the snapshots after it need is dead if the current inode refers to a
    newer block.  The cycle goes on with these marks. *)
Theorem gc_unreadable_snapshot (vol : Models.Volume) (m : Server) (f : F) (d : blockTempVolumeData)
    (s0 : Snapshot) (later : list Snapshot) (x0 : INodeRef) (cur : list BlockRef) (r r' : BlockRef) :
  mut m = false → fetch_inv f → VType vol = VolumeType → volume_data (VId vol) m = Some d → 1 < INode (id d) →
  snaps d = s0 :: later → INodeRefFromBytes (SINodeRef s0) = Ok x0 → is_ok (snap_inodes later) = true →
  inode_at f x0 = None → refs_at f (id d) cur →
  r' ∈ cur → IsZero r' = false → Refs.Volume r' = Refs.Volume (id d) → INode r < INode r' →
  BlockType r = BlockType_num TypeBlock → Refs.Volume r = Refs.Volume (id d) → r ∉ cur →
  match controller_PrepVolume vol [BlockVolGC (mkGC ∅ ∅ [])] (mkEnv m f) with
  | (o, c, _) => is_ok o = false ∧ controller_IsDead c r = true
  end.
Proof.
  intros Hm Hf Hty Hd H1 Hs Hx0 Hlater Hnone Hcur Hr' Hz' Hv' Hlt Hb Hv Hnot.
  destruct (controller_PrepVolume vol _ _) as [[o c] e'] eqn:E. apply controller_prep in E as (b' & -> & E).
  apply prep_run in E as [_ Hp]; [|done..]. destruct (snap_inodes later) as [xs| |] eqn:El; try done.
  assert (snap_inodes (snaps d) = Ok (x0 :: xs)) as Hxs by (rewrite Hs; cbn; by rewrite Hx0, El).
  assert (∀ refs, ¬ refs_at f x0 refs) as Hbad by (intros refs (i & Hi & _); congruence).
  inversion Hp as [|d' Hd' H1'|d' Hd' H1'|d' xs' b1 Hd' H1' Hs' Hmk|d' xs' o' b1 Hd' H1' Hs' Ho Hmk];
    cbn [gmds inodes] in *; subst; try (assert (d' = d) as -> by congruence); try congruence; try lia;
    rewrite Hxs in Hs'; injection Hs' as <-.
  - destruct Hmk as (l1 & l2 & rss & Hl & Hall & _ & ->). rewrite app_nil_r in Hl. subst l1.
    apply Forall2_cons_inv_l in Hall as (? & ? & _ & Hall & _). apply Forall2_cons_inv_l in Hall as (refs & ? & Hx & _).
    by apply Hbad in Hx.
  - split; [done|]. destruct Hmk as (l1 & l2 & rss & Hl & Hall & -> & y & l3 & -> & Hy).
    assert (rss = [cur]) as ->.
    { destruct l1 as [|z1 l1]; [injection Hl as <- _; by apply Hy in Hcur|]. injection Hl as <- Hl.
      apply Forall2_cons_inv_l in Hall as (rs1 & rss1 & Hx1 & Hall & ->).
      destruct l1 as [|z2 l1]; [apply Forall2_nil_inv_l in Hall as ->|].
      - do 2 f_equal. destruct Hx1 as (i & Hi & Hx1), Hcur as (i' & Hi' & Hcur). congruence.
      - injection Hl as <- Hl. apply Forall2_cons_inv_l in Hall as (refs & ? & Hx & _). by apply Hbad in Hx. }
    cbn [controller_IsDead existsb IsDead concat]. rewrite orb_false_r, app_nil_r.
    destruct (mark_refs_high cur (Refs.Volume r) (reset (Refs.Volume (id d)) (mkGC ∅ ∅ [])) 0) as (h & Hh & Hn);
      [cbn; rewrite Hv; apply lookup_insert_eq|].
    rewrite (is_dead_spec _ _ h) by done. split; [apply Hn; right; exists r'; by rewrite Hv|].
    rewrite decide_False by (by rewrite Hb). rewrite mark_refs_set. intros [?%not_elem_of_empty|[? _]]; done.
Qed.
End gc.

(** ** The inode store as a fetcher *)

Section store.
Context {S : Type} `{L : BlockStoreLaws S} `{RG : Range}.
Implicit Types s : S.

(** Two states of a store with the same blocks. *)
Record sim (s s2 : S) : Prop := {
  sim_inv : inv s ∧ inv s2;
  sim_open : is_open s ∧ is_open s2;
  sim_stored r : stored s2 r = stored s r;
}.

Lemma sim_refl s : inv s → is_open s → sim s s.
Proof. done. Qed.
Lemma sim_sym s s2 : sim s s2 → sim s2 s.
Proof. intros [[] [] Hs]. split; [done..|]. intros r. by rewrite Hs. Qed.
Lemma sim_trans s1 s2 s3 : sim s1 s2 → sim s2 s3 → sim s1 s3.
Proof. intros [[] [] Ha] [[] [] Hb]. split; [done..|]. intros r. by rewrite Hb, Ha. Qed.

(** Code that only reads blocks: it changes none, and what it returns depends on
    nothing but them. *)
Definition reads {A} (m : M S A) : Prop :=
  ∀ s s2, sim s s2 → sim s (m s).2 ∧ sim s2 (m s2).2 ∧ ∀ a, (m s).1 = Ok a ↔ (m s2).1 = Ok a.

Lemma reads_lift {A} (r : res A) : reads (lift r).
Proof.
  intros s s2 Hs. pose proof Hs as [[] [] _]. split; [by apply sim_refl|]. split; [by apply sim_refl|done].
Qed.

Lemma reads_seq {A C} (m : M S A) (f : A → M S C) : reads m → (∀ a, reads (f a)) → reads (m ≫= f).
Proof.
  intros Hm Hf s s2 Hs. destruct (Hm s s2 Hs) as (H1 & H2 & Ha). unfold mbind, M_bind.
  destruct (m s) as [[a|er|] s'], (m s2) as [[a2|er2|] s2']; cbn in *;
    try (split_and!; [done..|]; naive_solver); try (by (specialize (Ha a) as [Ha _]; discriminate (Ha eq_refl)));
    try (by (specialize (Ha a2) as [_ Ha]; discriminate (Ha eq_refl))).
  assert (a2 = a) as -> by (pose proof (proj1 (Ha a) eq_refl); congruence).
  destruct (Hf a s' s2') as (H3 & H4 & H5). { apply (sim_trans _ s); [by apply sim_sym|]. by apply (sim_trans _ s2). }
  split; [by apply (sim_trans _ s')|]. split; [by apply (sim_trans _ s2')|done].
Qed.

(** Reading a block. *)
Lemma reads_get {A} (r : BlockRef) (k : bytes → M S A) :
  (∀ d, reads (k d)) → reads (sl ← Store.GetBlock r; d ← gets (λ s, deref s sl); k d).
Proof.
  intros Hk s s2 Hs. pose proof Hs as [[Hi Hi2] [Ho Ho2] Hst].
  destruct (stored s r) as [d|] eqn:Hd.
  - destruct (store_get_run s r d Hi Ho Hd) as (sl & s' & Hg & Hd' & He & Hs').
    destruct (store_get_run s2 r d Hi2 Ho2) as (sl2 & s2' & Hg2 & Hd2' & He2 & Hs2'); [by rewrite Hst|].
    rewrite (bind_step _ _ _ _ _ Hg), (bind_step _ _ _ _ _ Hg2).
    rewrite (bind_step (gets (λ s, deref s sl)) _ s' d s') by (unfold gets; by rewrite Hd').
    rewrite (bind_step (gets (λ s, deref s sl2)) _ s2' d s2') by (unfold gets; by rewrite Hd2').
    assert (sim s s') by (split; [split; [done|apply He]|split; [done|by apply He]|done]).
    assert (sim s2 s2') by (split; [split; [done|apply He2]|split; [done|by apply He2]|done]).
    destruct (Hk d s' s2') as (H3 & H4 & H5). { apply (sim_trans _ s); [by apply sim_sym|]. by apply (sim_trans _ s2). }
    split; [by apply (sim_trans _ s')|]. split; [by apply (sim_trans _ s2')|done].
  - assert (∀ s, inv s → is_open s → stored s r = None → ∃ er, Store.GetBlock r s = (Err er, s)) as Hmiss.
    { intros s0 ? ? Hn. apply GetBlock_missing; [done..|]. unfold stored in Hn. by destruct (backing s0 r). }
    destruct (Hmiss s Hi Ho Hd) as [er Hg]. destruct (Hmiss s2 Hi2 Ho2) as [er2 Hg2]; [by rewrite Hst|].
    rewrite (bind_step_err _ _ _ _ _ Hg), (bind_step_err _ _ _ _ _ Hg2). split_and!; [by apply sim_refl..|done].
Qed.

Lemma reads_get_loop fuel i dlen buf data bo off index : reads (get_loop fuel i dlen buf data bo off index).
Proof.
  revert buf data bo off index. induction fuel as [|fuel IH]; intros buf data bo off index; cbn [get_loop];
    (destruct (decide (bo = dlen)); [apply (reads_lift (Ok buf))|]); [apply (reads_lift Panic)|].
  apply reads_seq; [|intros []; apply IH]. case_decide; [|apply (reads_lift (Ok _))].
  apply (reads_get _ (λ d, mret (d, index + 1))). intros d. apply (reads_lift (Ok _)).
Qed.

Lemma reads_GetINode x : reads (GetINode x).
Proof.
  unfold GetINode. case_decide; [apply (reads_lift Panic)|]. apply reads_seq; [|intros; apply reads_lift].
  unfold get_data. apply reads_get. intros d. apply reads_seq; [apply reads_lift|]. intros h. apply reads_get_loop.
Qed.

#[global] Instance store_fetcher_laws : FetcherLaws S.
Proof.
  refine {| fetch_inv := λ s, inv s ∧ is_open s;
            inode_at := λ s x, match (GetINode x s).1 with Ok i => Some i | _ => None end |}.
  - intros s x i s' _ E. cbn in E. by rewrite E.
  - intros s x r s' _ E Ho. cbn in E. rewrite E. by destruct r.
  - intros s x r s' [Hi Hop] E. cbn in E. destruct (reads_GetINode x s s) as (Hs & _); [by apply sim_refl|].
    rewrite E in Hs. cbn in Hs. pose proof Hs as [[_ ?] [_ ?] _]. split; [done|]. intros y.
    destruct (reads_GetINode y s s' Hs) as (_ & _ & Ha).
    destruct (GetINode y s).1 as [i|er|], (GetINode y s').1 as [i'|er'|]; try done; cbn.
    all: try (by (specialize (Ha i) as [Ha _]; specialize (Ha eq_refl); congruence)).
    all: by (specialize (Ha i') as [_ Ha]; specialize (Ha eq_refl); congruence).
Defined.
End store.

(** ** Examples *)

#[local] Existing Instance map_range.
#[local] Instance no_ring : HashRing := {| HR := unit; NewWithWeights := λ _, tt; GetNodes := λ _ _ _, ([], false) |}.
#[local] Instance any_contract : Godbc := {| Require := λ _, Ok tt; Require_true := eq_refl |}.

(** Inodes kept in a map. *)
#[local] Instance map_fetcher : INodeFetcher (gmap INodeRef MINode) := {|
  fetch := λ x f, (match f !! x with Some i => Ok i | None => Err ErrBlockNotExist end, f)
|}.
#[local] Instance map_fetcher_laws : FetcherLaws (gmap INodeRef MINode).
Proof.
  refine {| fetch_inv := λ _, True; inode_at := λ f x, f !! x |}; cbn.
  - intros f x i f' _. destruct (f !! x); by intros [= <- <-].
  - intros f x r f' _ [= <- <-]. by destruct (f !! x).
  - intros f x r f' _ [= _ <-]. done.
Defined.

Definition gx_layers (refs : list BlockRef) : list PBlockLayer :=
  match MarshalBlocksetToProto (baseBlockset 0 refs false 16) with Ok l => l | _ => [] end.
Definition gx_inode (refs : list BlockRef) : MINode := mkMINode 3 0 0 ∅ (gx_layers refs).
Definition gx_ref (i n : Z) : BlockRef := mkBlockRef (mkINodeRef 3 i) n.

(** Volume 3 has inode 4, which refers to a block written under inode 2 and one
    written under inode 4. *)
Definition gx_refs : list BlockRef := [gx_ref 2 1; gx_ref 4 1; ZeroBlock].
Definition gx_inodes : gmap INodeRef MINode := <[mkINodeRef 3 4 := gx_inode gx_refs]> ∅.
Definition gx_server (l : list Snapshot) : Server :=
  mkServer false (<[3 := 4]> ∅) 3 ∅ (mkGlobal 16 []) [] (empty 1)
    (<[sprint 3 := mkVolumeData [] (mkINodeRef 3 4) l]> ∅) [] [].
Definition gx_vol : Models.Volume := mkVolume [] 3 VolumeType 0.

Lemma gx_inode_refs : inode_refs (gx_inode gx_refs) = Ok gx_refs.
Proof. vm_compute. reflexivity. Qed.

Lemma gx_data vid l d : volume_data vid (gx_server l) = Some d → vid = 3 ∧ d = mkVolumeData [] (mkINodeRef 3 4) l.
Proof.
  unfold volume_data, gx_server, keys. destruct (decide (sprint vid = sprint 3)) as [E|E].
  - rewrite E, lookup_insert_eq. intros [= <-]. apply list_byte_of_string_inj, (inj pretty) in E. split; [lia|done].
  - by rewrite lookup_insert_ne.
Qed.

Lemma gx_root vid x : root (gx_server []) vid x ↔ vid = 3 ∧ x = mkINodeRef 3 4.
Proof.
  split.
  - intros (d & [-> ->]%gx_data & Hx). split; [done|]. destruct Hx as [->|(s & ?%not_elem_of_nil & _)]; done.
  - intros [-> ->]. exists (mkVolumeData [] (mkINodeRef 3 4) []). split; [apply lookup_insert_eq|by left].
Qed.

Lemma gx_needs r :
  needs_data (gx_server []) gx_inodes 3 r ↔ r = gx_ref 2 1 ∨ r = gx_ref 4 1.
Proof.
  split.
  - intros (x & i & refs & [_ ->]%gx_root & Hi & Hrefs & Hr & Hz). cbn in Hi. unfold gx_inodes in Hi.
    rewrite lookup_insert_eq in Hi. injection Hi as <-. rewrite gx_inode_refs in Hrefs. injection Hrefs as <-.
    unfold gx_refs in Hr. rewrite !elem_of_cons, elem_of_nil in Hr. destruct Hr as [->|[->|[->|[]]]]; auto. done.
  - intros Hr. exists (mkINodeRef 3 4), (gx_inode gx_refs), gx_refs. split; [by apply gx_root|].
    split; [apply lookup_insert_eq|]. split; [apply gx_inode_refs|]. unfold gx_refs.
    rewrite !elem_of_cons. destruct Hr as [->| ->]; auto.
Qed.

Lemma gx_tidy : tidy (gx_server []) gx_inodes.
Proof.
  split.
  - intros x i refs r Hi Hrefs Hr Hz. cbn in Hi. unfold gx_inodes in Hi.
    destruct (decide (x = mkINodeRef 3 4)) as [->|Hx]; [|by rewrite lookup_insert_ne in Hi].
    rewrite lookup_insert_eq in Hi. injection Hi as <-. rewrite gx_inode_refs in Hrefs. injection Hrefs as <-.
    unfold gx_refs in Hr. rewrite !elem_of_cons, elem_of_nil in Hr. by destruct Hr as [->|[->|[->|[]]]].
  - by intros vid x [-> ->]%gx_root.
Qed.

Lemma gc_exact_witness :
  ∃ rs c e', prep_volumes [gx_vol] [BlockVolGC (mkGC ∅ ∅ [])] (mkEnv (gx_server []) gx_inodes) = (rs, c, e') ∧
    controller_IsDead c (gx_ref 3 1) = true ∧ controller_IsDead c (gx_ref 2 1) = false.
Proof.
  assert ((prep_volumes [gx_vol] [BlockVolGC (mkGC ∅ ∅ [])] (mkEnv (gx_server []) gx_inodes)).1.1 = [Ok tt]) as Hrs
    by (vm_compute; reflexivity).
  destruct (prep_volumes _ _ _) as [[rs c] e'] eqn:E. cbn in Hrs. subst rs. exists [Ok tt], c, e'. split; [done|].
  assert (∀ r : BlockRef, 0 ≤ INode r → Refs.Volume r = 3 → controller_IsDead c r = true ↔ dead_block (gx_server []) gx_inodes r) as Hp.
  { intros r H0 Hr. destruct (gc_exact (FL := map_fetcher_laws) [gx_vol] (gx_server []) gx_inodes [Ok tt] c e' r eq_refl I gx_tidy
      ltac:(apply list.NoDup_singleton) H0 E) as [Hp _]. by apply (Hp 0%nat gx_vol). }
  split.
  - apply Hp; [done|done|]. split; [exists (mkVolumeData [] (mkINodeRef 3 4) []); split; [apply lookup_insert_eq|done]|].
    split; [by intros [?|?]%gx_needs|]. split; [by intros (x & [_ ->]%gx_root & ?)|].
    exists (gx_ref 4 1). split; [|done]. apply gx_needs. by right.
  - apply not_true_iff_false. rewrite Hp by done. intros (_ & Hn & _). apply Hn, gx_needs. by left.
Defined.

(** The first snapshot was taken of inode 1, which is never written; the second
    of inode 2. *)
Definition gx_snaps : list Snapshot :=
  [mkSnapshot [x61] 0 (INodeRef_ToBytes (mkINodeRef 3 1)); mkSnapshot [x62] 1 (INodeRef_ToBytes (mkINodeRef 3 2))].

Definition gx_two : gmap INodeRef MINode :=
  <[mkINodeRef 3 4 := gx_inode [gx_ref 4 1]]> (<[mkINodeRef 3 2 := gx_inode [gx_ref 2 1]]> ∅).

Lemma gc_unreadable_snapshot_witness :
  match controller_PrepVolume gx_vol [BlockVolGC (mkGC ∅ ∅ [])] (mkEnv (gx_server gx_snaps) gx_two) with
  | (o, c, _) => is_ok o = false ∧ controller_IsDead c (gx_ref 2 1) = true
  end.
Proof.
  apply (gc_unreadable_snapshot (FL := map_fetcher_laws) gx_vol (gx_server gx_snaps) gx_two (mkVolumeData [] (mkINodeRef 3 4) gx_snaps)
    (mkSnapshot [x61] 0 (INodeRef_ToBytes (mkINodeRef 3 1))) [mkSnapshot [x62] 1 (INodeRef_ToBytes (mkINodeRef 3 2))]
    (mkINodeRef 3 1) [gx_ref 4 1] (gx_ref 2 1) (gx_ref 4 1) eq_refl I eq_refl
    ltac:(apply lookup_insert_eq) ltac:(done) eq_refl ltac:(vm_compute; reflexivity) ltac:(vm_compute; reflexivity)).
  - cbn [inode_at map_fetcher_laws]. unfold gx_two. by rewrite !lookup_insert_ne.
  - exists (gx_inode [gx_ref 4 1]). split; [apply lookup_insert_eq|vm_compute; reflexivity].
  - by left.
  - vm_compute. reflexivity.
  - vm_compute. reflexivity.
  - vm_compute. reflexivity.
  - vm_compute. reflexivity.
  - vm_compute. reflexivity.
  - by rewrite elem_of_cons, elem_of_nil; intros [?|[]].
Defined.
