(* ===== verification/LRU.v ===== *)
(** * The read cache of the distributor

    Models [src/distributor/lru.go], a map from keys to elements of a
    [container/list] list ordered by use.  An element is a pointer: the heap of
    elements is part of the state.  [reflect.DeepEqual] on the values is an
    argument, since for a slice it looks at the bytes behind it.  The cache is
    shown to behave as a list of pairs, the one used last first. *)
From S2P Require Import Prelude GoSem.

Section lru.
Context {V : Type}.

Record kv := mkKV { key : bytes; value : V }.

(** [entries] is the map [cache]; [elems] and [next] are the heap of elements. *)
Record cache := mkCache {
  entries : gmap bytes positive;
  priority : list positive;
  maxSize : Z;
  elems : gmap positive kv;
  next : positive;
}.

Definition newCache (size : Z) : cache := mkCache ∅ [] size ∅ 1%positive.

Definition set_priority (l : list positive) (c : cache) : cache :=
  mkCache (entries c) l (maxSize c) (elems c) (next c).
Definition set_entries (m : gmap bytes positive) (c : cache) : cache :=
  mkCache m (priority c) (maxSize c) (elems c) (next c).

(** ** [container/list] *)

Definition remove (e : positive) (l : list positive) : list positive := filter (λ x, x ≠ e) l.

(** Both do nothing to the list when the element is not in it. *)
Definition MoveToFront (e : positive) : M cache unit :=
  modify (λ c, if decide (e ∈ priority c) then set_priority (e :: remove e (priority c)) c else c).
Definition Remove (e : positive) : M cache kv :=
  _ ← modify (λ c, set_priority (remove e (priority c)) c);
  c ← get;
  lift (or_panic (elems c !! e)).

Definition PushFront (x : kv) : M cache unit :=
  modify (λ c, mkCache (entries c) (next c :: priority c) (maxSize c) (<[next c := x]> (elems c)) (Pos.succ (next c))).

(** ** The cache *)

Definition lru_get (k : bytes) : M cache (option V) :=
  c ← get;
  match entries c !! k with
  | Some element =>
      _ ← MoveToFront element;
      x ← lift (or_panic (elems c !! element));
      mret (Some (value x))
  | None => mret None
  end.

(** [Back] of an empty list is nil. *)
Definition removeOldest : M cache unit :=
  c ← get;
  match list.last (priority c) with
  | None => panic
  | Some e => x ← Remove e; modify (λ c, set_entries (delete (key x) (entries c)) c)
  end.

(** The walk from an element of the list on. *)
Fixpoint find (deepEqual : V → V → bool) (m : gmap positive kv) (l : list positive) (v : V) : res (option positive) :=
  match l with
  | [] => Ok None
  | e :: l' =>
      x ← or_panic (m !! e);
      if deepEqual (value x) v then Ok (Some e) else find deepEqual m l' v
  end.

(** What [Put] does once the key has no entry with that value; [clog.Fatalf] ends
    the process. *)
Definition put_new (k : bytes) (v : V) : M cache unit :=
  c ← get;
  _ ← (if decide (Z.of_nat (size (entries c)) = maxSize c) then removeOldest else mret tt);
  _ ← PushFront (mkKV k v);
  c ← get;
  e ← lift (or_panic (head (priority c)));
  modify (λ c, set_entries (<[k := e]> (entries c)) c).

Definition Put (deepEqual : V → V → bool) (k : bytes) (v : V) : M cache unit :=
  old ← lru_get k;
  match old with
  | Some v' =>
      if deepEqual v' v then mret tt
      else
        c ← get;
        o ← lift (find deepEqual (elems c) (priority c) v');
        match o with
        | Some e => _ ← Remove e; put_new k v
        | None => panic
        end
  | None => put_new k v
  end.

Definition Get (k : bytes) : M cache (option V) := lru_get k.
End lru.
Arguments kv : clear implicits.
Arguments cache : clear implicits.

(** ** What it promises *)

Section spec.
Context {V : Type} (deepEqual : V → V → bool).
Abbreviation pairs := (list (bytes * V)).
Abbreviation items := (list (positive * (bytes * V))).
Implicit Types (k : bytes) (v : V) (p : pairs) (l : items) (c : cache V).

Fixpoint assoc k p : option V :=
  match p with
  | [] => None
  | (k', v) :: p' => if decide (k' = k) then Some v else assoc k p'
  end.
Definition without k p : pairs := filter (λ x, x.1 ≠ k) p.

(** A list of pairs, the one used last first, of at most [n]. *)
Definition spec_get k p : option V * pairs :=
  match assoc k p with Some v => (Some v, (k, v) :: without k p) | None => (None, p) end.

(** A new pair goes in front; if the cache was full, with the pair it replaces
    counted, the last one goes. *)
Definition spec_put (n : Z) k v p : pairs :=
  let room x := if decide (Z.of_nat (length p) = n) then removelast x else x in
  match assoc k p with
  | Some v' => if deepEqual v' v then (k, v') :: without k p else (k, v) :: room (without k p)
  | None => (k, v) :: room p
  end.

(** *** Representation *)

Definition ents l : list (bytes * positive) := (λ x, (x.2.1, x.1)) <$> l.

Record repr c l : Prop := {
  r_priority : priority c = l.*1;
  r_elems : Forall (λ x, elems c !! x.1 = Some (mkKV x.2.1 x.2.2)) l;
  r_nodup : NoDup l.*1;
  r_keys : NoDup l.*2.*1;
  r_entries : entries c = list_to_map (ents l);
  r_next e : is_Some (elems c !! e) → (e < next c)%positive;
}.

Lemma ents_keys l : (ents l).*1 = l.*2.*1.
Proof. unfold ents. by rewrite <-!list_fmap_compose. Qed.

Lemma assoc_split k p v : assoc k p = Some v → ∃ p1 p2, p = p1 ++ (k, v) :: p2 ∧ k ∉ p1.*1.
Proof.
  induction p as [|[k' v'] p IH]; cbn; [done|]. case_decide as Hd.
  - intros [= <-]. subst. exists [], p. split; [done|]. apply not_elem_of_nil.
  - intros (p1 & p2 & -> & Hn)%IH. exists ((k', v') :: p1), p2. split; [done|]. cbn. rewrite not_elem_of_cons. by split.
Qed.
Lemma assoc_none k p : assoc k p = None ↔ k ∉ p.*1.
Proof.
  induction p as [|[k' v'] p IH]; cbn; [split; [intros _; apply not_elem_of_nil|done]|].
  rewrite not_elem_of_cons. case_decide as Hd; [naive_solver|]. rewrite IH. naive_solver.
Qed.
Lemma without_none k p : k ∉ p.*1 → without k p = p.
Proof.
  induction p as [|[k' v'] p IH]; [done|]. rewrite fmap_cons, not_elem_of_cons. intros [? ?]. unfold without.
  rewrite filter_cons_True by (cbn in *; congruence). f_equal. by apply IH.
Qed.
Lemma without_split k v p1 p2 : NoDup (p1 ++ (k, v) :: p2).*1 → without k (p1 ++ (k, v) :: p2) = p1 ++ p2.
Proof.
  rewrite fmap_app. cbn. intros Hnd. apply list.NoDup_app in Hnd as (_ & H1 & Hnd). apply list.NoDup_cons in Hnd as [H2 _].
  unfold without. rewrite list.filter_app, filter_cons_False by (cbn; tauto).
  fold (without k p1). fold (without k p2). rewrite !without_none; [done|done|]. intros Hin. apply (H1 k Hin). by left.
Qed.

(** The element of a key. *)
Lemma repr_lookup c l k :
  repr c l →
  match assoc k l.*2 with
  | Some v => ∃ e l1 l2, l = l1 ++ (e, (k, v)) :: l2 ∧ entries c !! k = Some e ∧ elems c !! e = Some (mkKV k v)
  | None => entries c !! k = None
  end.
Proof.
  intros [_ He _ Hk Hm _]. rewrite Hm. destruct (assoc k l.*2) as [v|] eqn:E.
  - apply assoc_split in E as (p1 & p2 & Hl & _). apply fmap_app_inv in Hl as (l1 & l2' & -> & Hl2 & ->).
    destruct l2' as [|[e x] l2]; [done|]. cbn in Hl2. injection Hl2 as <- ->. exists e, l1, l2. split; [done|]. split.
    + apply elem_of_list_to_map_1; [by rewrite ents_keys|]. unfold ents. rewrite fmap_app. apply elem_of_app. right. by left.
    + apply Forall_app in He as [_ He]. by apply list.Forall_cons in He as [He _].
  - apply not_elem_of_list_to_map_1. rewrite ents_keys. by apply assoc_none.
Qed.

Lemma remove_split e x l1 l2 : NoDup (l1 ++ (e, x) :: l2).*1 → remove e (l1 ++ (e, x) :: l2).*1 = (l1 ++ l2).*1.
Proof.
  rewrite !fmap_app. cbn. intros Hnd. apply list.NoDup_app in Hnd as (_ & H1 & Hnd). apply list.NoDup_cons in Hnd as [H2 _].
  unfold remove. rewrite list.filter_app, filter_cons_False by tauto.
  assert (∀ q : list positive, e ∉ q → filter (λ x, x ≠ e) q = q) as Hq.
  { induction q as [|y q IH]; [done|]. rewrite not_elem_of_cons. intros [? ?]. rewrite filter_cons_True by congruence. f_equal. by apply IH. }
  rewrite !Hq; [done|done|]. intros Hin. apply (H1 e Hin). by left.
Qed.

(** Moving an item to the front, and dropping one, keep the representation. *)
Lemma ents_perm l l' : l ≡ₚ l' → NoDup l.*2.*1 → list_to_map (M := gmap bytes positive) (ents l') = list_to_map (ents l).
Proof. intros Hp Hk. symmetry. apply list_to_map_proper; [by rewrite ents_keys|]. unfold ents. by rewrite Hp. Qed.

Lemma repr_perm c l l' : l ≡ₚ l' → repr c l → repr (set_priority l'.*1 c) l'.
Proof.
  intros Hp [_ He Hn Hk Hm Hx]. split; cbn; try done; try (by rewrite <-Hp).
  by rewrite (ents_perm l l').
Qed.

Lemma lru_get_run c l k :
  repr c l → ∃ c' l', lru_get k c = (Ok (spec_get k l.*2).1, c') ∧ repr c' l' ∧ l'.*2 = (spec_get k l.*2).2 ∧
    maxSize c' = maxSize c ∧
    match (spec_get k l.*2).1 with Some v => ∃ e l2, l' = (e, (k, v)) :: l2 | None => l' = l end.
Proof.
  intros Hr. pose proof (repr_lookup c l k Hr) as Hl. unfold lru_get, spec_get. rewrite (bind_step get _ c c c) by done.
  destruct (assoc k l.*2) as [v|]; [|rewrite Hl; by exists c, l].
  destruct Hl as (e & l1 & l2 & -> & He & Hx). rewrite He. cbn [fst snd].
  pose proof (r_priority _ _ Hr) as Hp. pose proof (r_nodup _ _ Hr) as Hn. pose proof (r_keys _ _ Hr) as Hk.
  rewrite (bind_step _ _ _ tt (set_priority ((e, (k, v)) :: l1 ++ l2).*1 c)).
  2: { unfold MoveToFront, modify. rewrite decide_True; [|rewrite Hp, fmap_app; apply elem_of_app; right; by left].
       by rewrite Hp, remove_split. }
  unfold mbind, M_bind, lift. rewrite Hx.
  eexists _, ((e, (k, v)) :: l1 ++ l2). split; [done|]. split; [|split].
  - apply (repr_perm _ (l1 ++ (e, (k, v)) :: l2)); [|done]. symmetry. apply Permutation_middle.
  - cbn. rewrite !fmap_app in *. cbn in *. by rewrite without_split by (by rewrite fmap_app).
  - split; [done|]. by eexists _, _.
Qed.

(** The state in which [put_new] runs: the key may still have the entry of an
    element that is no longer in the list. *)
Record repr_stale k c l : Prop := {
  s_priority : priority c = l.*1;
  s_elems : Forall (λ x, elems c !! x.1 = Some (mkKV x.2.1 x.2.2)) l;
  s_nodup : NoDup l.*1;
  s_keys : NoDup l.*2.*1;
  s_new : k ∉ l.*2.*1;
  s_entries : delete k (entries c) = list_to_map (ents l);
  s_next e : is_Some (elems c !! e) → (e < next c)%positive;
}.

Lemma removeOldest_run k c l x :
  repr_stale k c (l ++ [x]) → ∃ c', removeOldest c = (Ok tt, c') ∧ repr_stale k c' l ∧ maxSize c' = maxSize c.
Proof.
  intros [Hp He Hn Hk Hnew Hm Hx]. destruct x as [e [k' v']].
  assert (elems c !! e = Some (mkKV k' v')) as Hv by (apply Forall_app in He as [_ He]; by apply list.Forall_cons in He as [He _]).
  unfold removeOldest. rewrite (bind_step get _ c c c) by done. rewrite Hp, fmap_app. cbn [fmap list_fmap]. rewrite last_snoc.
  rewrite (bind_step (Remove _) _ c (mkKV k' v') (set_priority l.*1 c)).
  2: { unfold Remove. rewrite (bind_step (modify _) _ c tt (set_priority l.*1 c)).
       - cbn. unfold mbind, M_bind, get, lift. cbn. by rewrite Hv.
       - unfold modify. rewrite Hp, remove_split by done. by rewrite app_nil_r. }
  eexists. split; [done|]. split; [|done]. cbn [key].
  rewrite !fmap_app in *. cbn in *. apply list.NoDup_app in Hn as (Hn & _ & _). apply list.NoDup_app in Hk as (Hk & Hk' & _).
  apply not_elem_of_app in Hnew as [Hnew Hne]. rewrite not_elem_of_cons in Hne. split; cbn; try done.
  - by apply Forall_app in He as [He _].
  - assert (k' ∉ (ents l).*1) as Hk2 by (rewrite ents_keys; intros Hin; apply (Hk' _ Hin); by left).
    rewrite delete_delete, Hm. unfold ents at 1. rewrite fmap_app. cbn. fold (ents l). rewrite list_to_map_snoc by done.
    apply delete_insert_id. by apply not_elem_of_list_to_map_1.
Qed.

Lemma ents_size l : NoDup l.*2.*1 → size (list_to_map (M := gmap bytes positive) (ents l)) = length l.
Proof. intros Hk. rewrite map_size_list_to_map by (by rewrite ents_keys). unfold ents. apply length_fmap. Qed.

Lemma removelast_snoc {A} (q : list A) x : removelast (q ++ [x]) = q.
Proof. apply removelast_last. Qed.

(** [full] is whether the map has as many entries as the cache may have. *)
Lemma put_new_run k v c l :
  repr_stale k c l → (Z.of_nat (size (entries c)) = maxSize c → l ≠ []) →
  ∃ c' l', put_new k v c = (Ok tt, c') ∧ repr c' l' ∧ maxSize c' = maxSize c ∧
    l'.*2 = (k, v) :: (if decide (Z.of_nat (size (entries c)) = maxSize c) then removelast l.*2 else l.*2).
Proof.
  intros Hr Hfull. unfold put_new. rewrite (bind_step get _ c c c) by done.
  assert (∃ c1 l1, (if decide (Z.of_nat (size (entries c)) = maxSize c) then removeOldest else mret tt) c = (Ok tt, c1) ∧
    repr_stale k c1 l1 ∧ maxSize c1 = maxSize c ∧
    l1.*2 = (if decide (Z.of_nat (size (entries c)) = maxSize c) then removelast l.*2 else l.*2))
    as (c1 & l1 & Hrun & Hr1 & Hsz & <-).
  { case_decide as Hd; [|by exists c, l]. destruct l as [|x l _] using rev_ind; [by destruct Hfull|].
    destruct (removeOldest_run _ _ _ _ Hr) as (c1 & ? & ? & ?). exists c1, l. split_and!; try done.
    rewrite fmap_app. cbn [fmap list_fmap]. by rewrite removelast_snoc. }
  run_step Hrun. destruct Hr1 as [Hp He Hn Hk Hnew Hm Hx].
  eexists _, ((next c1, (k, v)) :: l1). unfold mbind, M_bind, PushFront, modify, get, lift. cbn. split; [done|].
  assert (∀ y, y ∈ l1.*1 → (y < next c1)%positive) as Hold.
  { intros y ([e z] & -> & Hy)%list_elem_of_fmap. apply Hx. rewrite list.Forall_forall in He. rewrite (He _ Hy). by eexists. }
  split; [|split; [done|done]]. split; cbn; [by rewrite Hp| | | | |].
  - constructor; [apply lookup_insert_eq|]. apply list.Forall_forall. intros [e z] Hy. rewrite lookup_insert_ne.
    + rewrite list.Forall_forall in He. by apply He.
    + cbn. assert (e < next c1)%positive; [|lia]. apply Hold. apply list_elem_of_fmap. by exists (e, z).
  - constructor; [|done]. intros Hin%Hold. lia.
  - by constructor.
  - by rewrite <-(insert_delete_eq (entries c1)), Hm.
  - intros e [x Hex]. destruct (decide (e = next c1)) as [->|Hne]; [lia|]. rewrite lookup_insert_ne in Hex by done.
    assert (e < next c1)%positive by (by apply Hx; eexists). lia.
Qed.

Lemma repr_size c l : repr c l → size (entries c) = length l.
Proof. intros Hr. rewrite (r_entries _ _ Hr). apply ents_size, Hr. Qed.

Lemma repr_not_stale k c l : repr c l → k ∉ l.*2.*1 → repr_stale k c l.
Proof.
  intros [Hp He Hn Hk Hm Hx] Hnew. split; try done. rewrite delete_id; [done|]. rewrite Hm.
  apply not_elem_of_list_to_map_1. by rewrite ents_keys.
Qed.

(** Removing the element of a key that is in front. *)
Lemma repr_remove_front k v e c l :
  repr c ((e, (k, v)) :: l) → repr_stale k (set_priority l.*1 c) l.
Proof.
  intros [Hp He Hn Hk Hm Hx]. cbn in *. apply list.NoDup_cons in Hn as [Hn1 Hn], Hk as [Hk1 Hk].
  apply list.Forall_cons in He as [_ He]. split; cbn; try done. rewrite Hm. cbn. apply delete_insert_id.
  apply not_elem_of_list_to_map_1. by rewrite ents_keys.
Qed.

Lemma Put_run c l k v :
  (∀ x, deepEqual x x = true) → 2 ≤ maxSize c → repr c l →
  ∃ c' l', Put deepEqual k v c = (Ok tt, c') ∧ repr c' l' ∧ maxSize c' = maxSize c ∧
    l'.*2 = spec_put (maxSize c) k v l.*2.
Proof.
  intros Hrefl Hmax Hr. pose proof (repr_size _ _ Hr) as Hsz. unfold Put, spec_put. rewrite length_fmap.
  destruct (lru_get_run c l k Hr) as (c1 & l1 & Hg & Hr1 & Hl1 & Hm1 & Hf). run_step Hg. unfold spec_get in *.
  destruct (assoc k l.*2) as [v'|] eqn:Ha; cbn [fst snd] in *.
  - destruct (deepEqual v' v); [by exists c1, l1|]. destruct Hf as (e & l2 & ->).
    pose proof (repr_size _ _ Hr1) as Hsz1. cbn in Hl1. injection Hl1 as Hl2.
    rewrite (bind_step get _ c1 c1 c1) by done. rewrite (bind_step (lift _) _ c1 (Some e) c1).
    2: { pose proof (r_elems _ _ Hr1) as He. apply list.Forall_cons in He as [He _]. unfold lift. rewrite (r_priority _ _ Hr1).
         cbn in *. rewrite He. cbn. by rewrite Hrefl. }
    rewrite (bind_step (Remove e) _ c1 (mkKV k v') (set_priority l2.*1 c1)).
    2: { pose proof (r_elems _ _ Hr1) as He. apply list.Forall_cons in He as [He _]. cbn in He.
         pose proof (remove_split e (k, v') [] l2 (r_nodup _ _ Hr1)) as Hrm. cbn [app] in Hrm.
         unfold Remove, modify, get, lift, mbind, M_bind. rewrite (r_priority _ _ Hr1), Hrm. cbn. by rewrite He. }
    assert (length l = length ((e, (k, v')) :: l2)) as Hlen.
    { apply assoc_split in Ha as (p1 & p2 & Hp & _). pose proof (r_keys _ _ Hr) as Hk. rewrite <-(length_fmap snd l), Hp in *.
      rewrite without_split in Hl2 by done. cbn. rewrite <-(length_fmap snd l2), Hl2. rewrite !length_app. cbn. lia. }
    destruct (put_new_run k v _ _ (repr_remove_front _ _ _ _ _ Hr1)) as (c' & l' & Hput & Hr' & Hm' & Hl').
    { cbn. rewrite Hsz1. intros Hfull ->. cbn in Hfull. lia. }
    cbn in Hl', Hm'. rewrite Hsz1, Hm1, <-Hlen, Hl2 in Hl'. exists c', l'. split_and!; try done. congruence.
  - subst l1. destruct (put_new_run k v c1 l) as (c' & l' & Hput & Hr' & Hm' & Hl').
    { apply repr_not_stale; [done|]. by apply assoc_none. }
    { rewrite (repr_size _ _ Hr1). intros Hfull ->. cbn in Hfull. lia. }
    rewrite (repr_size _ _ Hr1), Hm1 in Hl'. exists c', l'. split_and!; try done. congruence.
Qed.

(** *** Sequences of calls *)

Inductive lcall := LGet (k : bytes) | LPut (k : bytes) (v : V).

Definition lkey (o : lcall) : bytes := match o with LGet k | LPut k _ => k end.

Definition run_lcall (o : lcall) : M (cache V) (option V) :=
  match o with LGet k => Get k | LPut k v => _ ← Put deepEqual k v; mret None end.
Definition spec_lcall (n : Z) (o : lcall) p : option V * pairs :=
  match o with LGet k => spec_get k p | LPut k v => (None, spec_put n k v p) end.

Fixpoint lru_run (os : list lcall) c : list (res (option V)) * cache V :=
  match os with
  | [] => ([], c)
  | o :: os' => let '(r, c1) := run_lcall o c in let '(rs, c2) := lru_run os' c1 in (r :: rs, c2)
  end.
Fixpoint spec_run (n : Z) (os : list lcall) p : list (option V) * pairs :=
  match os with
  | [] => ([], p)
  | o :: os' => let '(r, p1) := spec_lcall n o p in let '(rs, p2) := spec_run n os' p1 in (r :: rs, p2)
  end.

Lemma run_lcall_repr o c l :
  (∀ x, deepEqual x x = true) → 2 ≤ maxSize c → repr c l →
  ∃ c' l', run_lcall o c = (Ok (spec_lcall (maxSize c) o l.*2).1, c') ∧ repr c' l' ∧ maxSize c' = maxSize c ∧
    l'.*2 = (spec_lcall (maxSize c) o l.*2).2.
Proof.
  intros Hrefl Hmax Hr. destruct o as [k|k v]; cbn.
  - destruct (lru_get_run c l k Hr) as (c' & l' & ? & ? & ? & ? & _). by exists c', l'.
  - destruct (Put_run c l k v Hrefl Hmax Hr) as (c' & l' & Hp & ? & ? & ?). run_step Hp. by exists c', l'.
Qed.

Lemma lru_run_repr os c l :
  (∀ x, deepEqual x x = true) → 2 ≤ maxSize c → repr c l →
  ∃ c' l', lru_run os c = (Ok <$> (spec_run (maxSize c) os l.*2).1, c') ∧ repr c' l' ∧ maxSize c' = maxSize c ∧
    l'.*2 = (spec_run (maxSize c) os l.*2).2.
Proof.
  intros Hrefl. revert c l. induction os as [|o os IH]; intros c l Hmax Hr; cbn; [by exists c, l|].
  destruct (run_lcall_repr o c l Hrefl Hmax Hr) as (c1 & l1 & Hc & Hr1 & Hm1 & Hl1). rewrite Hc.
  destruct (spec_lcall (maxSize c) o l.*2) as [r p1]. cbn in *. subst p1.
  destruct (IH c1 l1) as (c2 & l2 & Hc2 & Hr2 & Hm2 & Hl2); [lia|done|].
  rewrite Hm1 in *. rewrite Hc2.
  destruct (spec_run (maxSize c) os l1.*2) as [rs p2]. cbn in *. by exists c2, l2.
Qed.

Lemma new_repr n : repr (newCache n) [].
Proof. split; cbn; [done|constructor|constructor|constructor|done|]. intros e [x Hx]. by rewrite lookup_empty in Hx. Qed.

Lemma length_removelast (p : pairs) : p ≠ [] → length (removelast p) = (length p - 1)%nat.
Proof. destruct p as [|x p _] using rev_ind; [done|]. intros _. rewrite removelast_snoc, length_app. cbn. lia. Qed.

Lemma length_without k v p : NoDup p.*1 → assoc k p = Some v → length p = S (length (without k p)).
Proof.
  intros Hnd (p1 & p2 & -> & _)%assoc_split. rewrite without_split by done. rewrite !length_app. cbn. lia.
Qed.

(** A call keeps the pairs within bounds. *)
Lemma spec_lcall_length n o p :
  2 ≤ n → NoDup p.*1 → Z.of_nat (length p) ≤ n → Z.of_nat (length (spec_lcall n o p).2) ≤ n.
Proof.
  intros Hn Hnd Hlen. destruct o as [k|k v]; cbn; unfold spec_get, spec_put.
  - destruct (assoc k p) as [v|] eqn:E; cbn; [|done]. rewrite (length_without _ _ _ Hnd E) in Hlen. done.
  - destruct (assoc k p) as [v'|] eqn:E; [pose proof (length_without _ _ _ Hnd E) as Hl; destruct (deepEqual v' v)|]; cbn.
    + lia.
    + case_decide; [rewrite length_removelast|]; try lia. intros E'. rewrite E' in Hl. cbn in Hl. lia.
    + case_decide; [rewrite length_removelast|]; try lia. intros ->. cbn in *. lia.
Qed.

Lemma keys_without k p : NoDup p.*1 → NoDup (without k p).*1 ∧ (∀ j, j ∈ (without k p).*1 ↔ j ∈ p.*1 ∧ j ≠ k).
Proof.
  intros Hnd. induction p as [|[k' v'] p IH]; [split; [done|]; intros j; cbn; rewrite elem_of_nil; tauto|].
  cbn [fmap list_fmap] in Hnd. apply list.NoDup_cons in Hnd as [Hk Hnd]. destruct (IH Hnd) as [Hnd' Hin]. unfold without.
  destruct (decide (k' = k)) as [->|Hne].
  - rewrite filter_cons_False by (cbn; tauto). split; [done|]. intros j. fold (without k p). rewrite Hin. cbn.
    rewrite elem_of_cons. split; [tauto|]. by intros [[->|?] ?].
  - rewrite filter_cons_True by done. fold (without k p). cbn. split.
    + apply list.NoDup_cons. split; [|done]. rewrite Hin. tauto.
    + intros j. rewrite !elem_of_cons, Hin. split; [|tauto]. intros [->|?]; tauto.
Qed.

Lemma keys_removelast p : NoDup p.*1 → NoDup (removelast p).*1.
Proof.
  destruct p as [|x p _] using rev_ind; [done|]. rewrite removelast_snoc, fmap_app. intros Hnd.
  by apply list.NoDup_app in Hnd as (? & _ & _).
Qed.

Lemma elem_of_removelast (p : pairs) k : k ∈ (removelast p).*1 → k ∈ p.*1.
Proof.
  destruct p as [|x p _] using rev_ind; [done|]. rewrite removelast_snoc, fmap_app, elem_of_app. by left.
Qed.

Lemma spec_lcall_keys n o p : NoDup p.*1 → NoDup (spec_lcall n o p).2.*1.
Proof.
  intros Hnd. assert (∀ k v q, NoDup q.*1 → k ∉ q.*1 → NoDup ((k, v) :: q : pairs).*1) as Hcons.
  { intros k v q Hq Hk. cbn. by apply list.NoDup_cons. }
  destruct o as [k|k v]; cbn; unfold spec_get, spec_put; destruct (keys_without k p Hnd) as [Hw Hin];
    destruct (assoc k p) as [v'|] eqn:E; cbn [snd]; try done; try (destruct (deepEqual v' v)); try apply Hcons; try done;
    try (rewrite Hin; tauto); try (case_decide; [by apply keys_removelast|done]).
  - case_decide; [intros Hk%elem_of_removelast; apply Hin in Hk; tauto|rewrite Hin; tauto].
  - apply assoc_none in E. case_decide; [by intros Hk%elem_of_removelast|done].
Qed.

Lemma spec_run_ok n os p :
  2 ≤ n → NoDup p.*1 → Z.of_nat (length p) ≤ n →
  NoDup (spec_run n os p).2.*1 ∧ Z.of_nat (length (spec_run n os p).2) ≤ n.
Proof.
  intros Hn. revert p. induction os as [|o os IH]; intros p Hnd Hlen; cbn; [done|].
  pose proof (spec_lcall_keys n o p Hnd) as Hnd1. pose proof (spec_lcall_length n o p Hn Hnd Hlen) as Hlen1.
  destruct (spec_lcall n o p) as [r p1]. cbn in *. destruct (IH p1 Hnd1 Hlen1) as [? ?]. by destruct (spec_run n os p1).
Qed.

(** The pair of a key, with only keys of [D] in front of it. *)
Definition behind (D : gset bytes) k v p : Prop :=
  ∃ p1 p2, p = p1 ++ (k, v) :: p2 ∧ ∀ j, j ∈ p1.*1 → j ∈ D.

Lemma behind_front (D : gset bytes) k v j w p : j ∈ D → behind D k v p → behind D k v ((j, w) :: p).
Proof.
  intros Hj (p1 & p2 & -> & Hd). exists ((j, w) :: p1), p2. split; [done|]. intros i. cbn. rewrite elem_of_cons.
  intros [->|?]; auto.
Qed.
Lemma behind_without (D : gset bytes) k v j p : j ≠ k → NoDup p.*1 → behind D k v p → behind D k v (without j p).
Proof.
  intros Hj Hnd (p1 & p2 & -> & Hd). exists (without j p1), (without j p2). split.
  - unfold without. rewrite list.filter_app, filter_cons_True by done. done.
  - intros i Hi. apply Hd. rewrite fmap_app in Hnd. apply list.NoDup_app in Hnd as (Hnd & _ & _).
    by apply (keys_without j p1 Hnd) in Hi as [? _].
Qed.

(** The last pair is another one when the list is longer than the keys in front. *)
Lemma behind_removelast (D : gset bytes) k v p :
  NoDup p.*1 → (size D + 1 < length p)%nat → behind D k v p → behind D k v (removelast p).
Proof.
  intros Hnd Hlen (p1 & p2 & -> & Hd). destruct p2 as [|x p2 _] using rev_ind.
  - exfalso. rewrite length_app in Hlen. cbn in Hlen. rewrite fmap_app in Hnd. apply list.NoDup_app in Hnd as (Hnd & _ & _).
    assert (list_to_set p1.*1 ⊆ D) as Hsub%subseteq_size by (intros j Hj%elem_of_list_to_set; by apply Hd).
    rewrite size_list_to_set, length_fmap in Hsub by done. lia.
  - exists p1, p2. split; [|done]. rewrite app_comm_cons, app_assoc. apply removelast_snoc.
Qed.

Lemma behind_step (D : gset bytes) k v n o p :
  Z.of_nat (size D) ≤ n - 2 → NoDup p.*1 → behind D k v p → lkey o ∈ D → lkey o ≠ k →
  behind D k v (spec_lcall n o p).2.
Proof.
  intros Hn Hnd Hb Hin Hne. destruct o as [j|j w]; cbn in *; unfold spec_get, spec_put.
  - destruct (assoc j p) as [w|]; cbn; [|done]. apply behind_front; [done|]. by apply behind_without.
  - destruct (assoc j p) as [w'|] eqn:E; cbn.
    + pose proof (length_without _ _ _ Hnd E) as Hl. destruct (keys_without j p Hnd) as [Hnd' Hin'].
      destruct (deepEqual w' w); (apply behind_front; [done|]); [by apply behind_without|].
      assert (behind (D ∖ {[j]}) k v (without j p)) as Hb'.
      { destruct (behind_without D k v j p Hne Hnd Hb) as (p1 & p2 & Hp & Hd). exists p1, p2. split; [done|].
        intros i Hi. apply elem_of_difference. split; [by apply Hd|]. rewrite elem_of_singleton. intros ->.
        assert (j ∈ (without j p).*1) as Hj by (rewrite Hp, fmap_app; apply elem_of_app; by left). apply Hin' in Hj. tauto. }
      case_decide; [|by apply behind_without]. assert (size D = S (size (D ∖ {[j]}))) as Hsz.
      { rewrite size_difference by (by apply singleton_subseteq_l). rewrite size_singleton.
        assert (size D ≠ 0%nat); [|lia]. intros H0%size_empty_inv. by apply H0, not_elem_of_empty in Hin. }
      destruct (behind_removelast (D ∖ {[j]}) k v (without j p) Hnd' ltac:(lia) Hb') as (p1 & p2 & Hp & Hd).
      exists p1, p2. split; [done|]. intros i Hi. by apply Hd, elem_of_difference in Hi as [? _].
    + apply behind_front; [done|]. case_decide; [|done]. apply behind_removelast; [done|lia|done].
Qed.

Lemma behind_run (D : gset bytes) k v n os p :
  2 ≤ n → Z.of_nat (size D) ≤ n - 2 → NoDup p.*1 → behind D k v p → Forall (λ o, lkey o ∈ D ∧ lkey o ≠ k) os →
  behind D k v (spec_run n os p).2.
Proof.
  intros H2 Hn Hnd Hb Hos. revert p Hnd Hb. induction Hos as [|o os [Hin Hne] Hos IH]; intros p Hnd Hb; cbn; [done|].
  pose proof (spec_lcall_keys n o p Hnd) as Hnd1. pose proof (behind_step D k v n o p Hn Hnd Hb Hin Hne) as Hb1.
  destruct (spec_lcall n o p) as [r p1]. cbn in *. specialize (IH p1 Hnd1 Hb1). by destruct (spec_run n os p1).
Qed.

Lemma behind_assoc (D : gset bytes) k v p : NoDup p.*1 → behind D k v p → assoc k p = Some v.
Proof.
  intros Hnd (p1 & p2 & -> & _). induction p1 as [|[j w] p1 IH]; cbn in *; [by rewrite decide_True|].
  apply list.NoDup_cons in Hnd as [Hj Hnd]. rewrite decide_False; [by apply IH|]. intros ->. apply Hj.
  rewrite fmap_app. apply elem_of_app. right. by left.
Qed.

(** C39: the read cache is a bounded list of pairs ordered by use.  Any sequence of
    [Get] and [Put] calls on a new cache of at least two entries returns what the
    list returns, panics nowhere and never holds more entries than the cache may;
    the elements and the map stay in step. *)
Theorem lru_refines (n : Z) (os : list lcall) :
  2 ≤ n → (∀ x, deepEqual x x = true) →
  ∃ c l, lru_run os (newCache n) = (Ok <$> (spec_run n os []).1, c) ∧ repr c l ∧
    l.*2 = (spec_run n os []).2 ∧ Z.of_nat (size (entries c)) ≤ n.
Proof.
  intros Hn Hrefl. destruct (lru_run_repr os (newCache n) [] Hrefl Hn (new_repr n)) as (c & l & Hrun & Hr & Hm & Hl).
  exists c, l. split_and!; try done. rewrite (repr_size _ _ Hr), <-(length_fmap snd l), Hl.
  apply spec_run_ok; [done|constructor|cbn; lia].
Qed.

(** What was used recently is still cached.  After a pair has been put into a
    cache of [n] entries, any calls on at most [n - 2] other keys leave it there:
    [Get] returns the value put, or the equal one it replaced. *)
Theorem lru_keeps_recent (n : Z) (os1 os2 : list lcall) (k : bytes) (v : V) (D : gset bytes) :
  2 ≤ n → (∀ x, deepEqual x x = true) → Z.of_nat (size D) ≤ n - 2 → Forall (λ o, lkey o ∈ D ∧ lkey o ≠ k) os2 →
  let '(_, c1) := lru_run os1 (newCache n) in
  let '(_, c2) := run_lcall (LPut k v) c1 in
  let '(_, c3) := lru_run os2 c2 in
  ∃ v', (v' = v ∨ deepEqual v' v = true) ∧ (Get k c3).1 = Ok (Some v').
Proof.
  intros Hn Hrefl HD Hos. destruct (lru_run_repr os1 (newCache n) [] Hrefl Hn (new_repr n)) as (c1 & l1 & -> & Hr1 & Hm1 & Hl1).
  destruct (run_lcall_repr (LPut k v) c1 l1 Hrefl ltac:(by rewrite Hm1) Hr1) as (c2 & l2 & -> & Hr2 & Hm2 & Hl2).
  destruct (lru_run_repr os2 c2 l2 Hrefl ltac:(by rewrite Hm2, Hm1) Hr2) as (c3 & l3 & -> & Hr3 & Hm3 & Hl3).
  destruct (spec_run_ok n os1 [] Hn ltac:(constructor) ltac:(cbn; lia)) as [Hnd1 _].
  change (l1.*2 = (spec_run n os1 []).2) in Hl1. rewrite <-Hl1 in Hnd1.
  assert (∃ v', (v' = v ∨ deepEqual v' v = true) ∧ behind D k v' l2.*2) as (v' & Hv' & Hb).
  { rewrite Hl2. cbn. unfold spec_put. destruct (assoc k l1.*2) as [v'|]; [destruct (deepEqual v' v) eqn:E|].
    - exists v'. split; [by right|]. eexists [], _. split; [done|]. intros j ?%not_elem_of_nil. done.
    - exists v. split; [by left|]. eexists [], _. split; [done|]. intros j ?%not_elem_of_nil. done.
    - exists v. split; [by left|]. eexists [], _. split; [done|]. intros j ?%not_elem_of_nil. done. }
  exists v'. split; [done|]. pose proof (spec_lcall_keys (maxSize c1) (LPut k v) l1.*2 Hnd1) as Hnd2. rewrite <-Hl2 in Hnd2.
  pose proof (behind_run D k v' n os2 l2.*2 Hn HD Hnd2 Hb Hos) as Hb3.
  assert (maxSize c2 = n) as Hmn by (by rewrite Hm2, Hm1). rewrite Hmn in Hl3.
  rewrite <-Hl3 in Hb3. destruct (lru_get_run c3 l3 k Hr3) as (c4 & l4 & Hg & _). unfold Get. rewrite Hg. cbn.
  unfold spec_get. by rewrite (behind_assoc D k v' l3.*2 (r_keys _ _ Hr3) Hb3).
Qed.
End spec.

(** ** Examples *)

Definition byte_eq (x y : byte) : bool := bool_decide (x = y).

Lemma lru_refines_witness :
  ∃ c l, lru_run byte_eq [LPut [x61] x01; LPut [x62] x02; LGet [x61]; LPut [x63] x03; LGet [x62]; LGet [x61]] (newCache 2)
    = ([Ok None; Ok None; Ok (Some x01); Ok None; Ok None; Ok (Some x01)], c) ∧ repr c l.
Proof.
  destruct (lru_refines byte_eq 2 [LPut [x61] x01; LPut [x62] x02; LGet [x61]; LPut [x63] x03; LGet [x62]; LGet [x61]])
    as (c & l & Hrun & Hr & _); [lia|intros x; by apply bool_decide_eq_true|].
  exists c, l. split; [exact Hrun|exact Hr].
Defined.

Lemma lru_keeps_recent_witness :
  ∃ v', (v' = x01 ∨ byte_eq v' x01 = true) ∧
    (Get [x61] (lru_run byte_eq [LPut [x62] x02; LPut [x62] x03; LGet [x62]]
       (run_lcall byte_eq (LPut [x61] x01) (newCache 3)).2).2).1 = Ok (Some v').
Proof.
  pose proof (lru_keeps_recent byte_eq 3 [] [LPut [x62] x02; LPut [x62] x03; LGet [x62]] [x61] x01 {[ [x62] ]} ltac:(lia)
    ltac:(intros x; by apply bool_decide_eq_true) ltac:(by vm_compute)
    ltac:(repeat constructor; cbn; by (apply elem_of_singleton || done))) as Hp.
  destruct (lru_run byte_eq [] (newCache 3)) as [r1 c1] eqn:E. injection E as <- <-.
  destruct (run_lcall byte_eq (LPut [x61] x01) (newCache 3)) as [r2 c2]. cbn [snd].
  destruct (lru_run byte_eq _ c2) as [r3 c3]. exact Hp.
Defined.
