(* ===== verification/Distributor.v ===== *)
(** * The distributor

    Models [src/distributor]: [client.go] (connections to the peers),
    [storage.go] (the block store over the cluster), [rpc.go] (what a node does
    for its peers), the ring watcher of [rebalance.go] and the cache set-up and
    [Close] of [distributor.go]; and the peer map of [src/server.go] and
    [src/heartbeat.go].  The local block store, the network, the metadata service
    and the read cache are the state.  A call over the network is an operation of
    the interface [Network]; it may fail at any time, a timeout included.

    The goroutines of [WriteBlock] and [readSpread] are interleaved by an explicit
    schedule.  Every other call is run alone, so the mutexes are left out. *)
From stdpp Require Import pretty.
From S2P Require Import Prelude GoSem GoStrings Refs TempStore Store Crc32 Blockset Proto Models INodeStore File Ring Metadata MetaTemp LRU.

(** [protocols.RPC] and [protocols.DialRPC], parsing the address included. *)
Class Network (N : Type) := {
  conn : Type;
  DialRPC : gostring → M N conn;
  conn_Block : conn → BlockRef → M N bytes;
  conn_PutBlock : conn → BlockRef → bytes → M N unit;
  conn_RebalanceCheck : conn → list BlockRef → M N (list bool);
  conn_Close : conn → M N unit;
}.

(** The order in which a [range] loop visits a map with strings or with block
    references as keys. *)
Class MapOrder := {
  map_order {A} : gmap bytes A → list (bytes * A);
  ref_order {A} : gmap BlockRef A → list (BlockRef * A);
  map_order_perm {A} (m : gmap bytes A) : map_order m ≡ₚ map_to_list m;
  ref_order_perm {A} (m : gmap BlockRef A) : ref_order m ≡ₚ map_to_list m;
}.

(** [torus.Config] and what else does not change. *)
Record Config := mkConfig {
  CUUID : gostring;
  CWriteLevel : WriteLevel;
  CReadLevel : ReadLevel;
  ReadCacheSize : Z;
  GOMAXPROCS : nat;
}.

Definition ErrNoPeersBlock : error := ErrMsg "distributor: no peers available for a block".
Definition ErrDeadlineExceeded : error := ErrMsg "context deadline exceeded".
Definition ErrUnimplemented : error := ErrMsg "unimplemented -- finding if a block exists cluster-wide".

Section dist.
Context {S N : Type} `{B : BlockStore S} `{HN : Network N} `{HH : HashRing} `{HR : Range} `{HO : MapOrder}.

Record Distributor := mkDist {
  blocks : S;
  net : N;
  openConns : gmap gostring conn;
  peersMap : gmap gostring PeerInfo;
  dmds : Server;
  readCache : option (cache slice);
  dring : Ring;
  chansClosed : bool;  (** [rebalancerChan] and [ringWatcherChan] are closed *)
  closed : bool;
}.

Definition on_blocks {A} (m : M S A) : M Distributor A := λ d,
  let '(r, s) := m (blocks d) in
  (r, mkDist s (net d) (openConns d) (peersMap d) (dmds d) (readCache d) (dring d) (chansClosed d) (closed d)).
Definition on_net {A} (m : M N A) : M Distributor A := λ d,
  let '(r, n) := m (net d) in
  (r, mkDist (blocks d) n (openConns d) (peersMap d) (dmds d) (readCache d) (dring d) (chansClosed d) (closed d)).
Definition on_dmds {A} (m : M Server A) : M Distributor A := λ d,
  let '(r, s) := m (dmds d) in
  (r, mkDist (blocks d) (net d) (openConns d) (peersMap d) s (readCache d) (dring d) (chansClosed d) (closed d)).
Definition set_openConns (c : gmap gostring conn) (d : Distributor) : Distributor :=
  mkDist (blocks d) (net d) c (peersMap d) (dmds d) (readCache d) (dring d) (chansClosed d) (closed d).
Definition set_peersMap (p : gmap gostring PeerInfo) (d : Distributor) : Distributor :=
  mkDist (blocks d) (net d) (openConns d) p (dmds d) (readCache d) (dring d) (chansClosed d) (closed d).
Definition set_readCache (c : option (cache slice)) (d : Distributor) : Distributor :=
  mkDist (blocks d) (net d) (openConns d) (peersMap d) (dmds d) c (dring d) (chansClosed d) (closed d).
Definition set_dring (r : Ring) (d : Distributor) : Distributor :=
  mkDist (blocks d) (net d) (openConns d) (peersMap d) (dmds d) (readCache d) r (chansClosed d) (closed d).
Definition set_closed (chans c : bool) (d : Distributor) : Distributor :=
  mkDist (blocks d) (net d) (openConns d) (peersMap d) (dmds d) (readCache d) (dring d) chans c.

(** A new buffer holding bytes that came over the network. *)
Definition alloc (b : bytes) : M Distributor slice := on_blocks (λ s, let '(sl, s') := mk_slice b s in (Ok sl, s')).

(** ** Connections: [distClient] *)

Definition onPeerTimeout (uuid : gostring) : M Distributor unit :=
  d ← get;
  match openConns d !! uuid with
  | None => mret tt
  | Some c =>
      _ ← try (on_net (conn_Close c));
      modify (λ d, set_openConns (delete uuid (openConns d)) d)
  end.

Definition timed_out (p : PeerInfo) : PeerInfo :=
  mkPeerInfo (UUID p) (Address p) (LastSeen p) (TotalBlocks p) (UsedBlocks p) true (PRebalanceInfo p) (ProtocolVersion p).

(** The loop over the peers of the map: the ones the service no longer lists are
    marked, and the client's callback drops their connections. *)
Fixpoint mark_missing (peers : PeerInfoList) (l : list (gostring * PeerInfo)) : M Distributor unit :=
  match l with
  | [] => mret tt
  | (k, _) :: l' =>
      _ ← (if bool_decide (k ∈ peer_list peers) then mret tt
           else
             _ ← onPeerTimeout k;
             modify (λ d, set_peersMap (alter timed_out k (peersMap d)) d));
      mark_missing peers l'
  end.

Definition updatePeerMap : M Distributor unit :=
  r ← try (on_dmds MetaTemp.GetPeers);
  match r with
  | inr _ => mret tt
  | inl peers =>
      _ ← modify (λ d, set_peersMap (foldl (λ m p, <[UUID p := p]> m) (peersMap d) peers) d);
      d ← get;
      mark_missing peers (map_order (peersMap d))
  end.

Definition GetPeerMap : M Distributor (gmap gostring PeerInfo) := gets peersMap.
Definition UpdatePeerMap : M Distributor (gmap gostring PeerInfo) := _ ← updatePeerMap; GetPeerMap.

(** The connection to a peer, dialled if there is none; [None] is nil. *)
Definition getConn (uuid : gostring) : M Distributor (option conn) :=
  d ← get;
  match openConns d !! uuid with
  | Some c => mret (Some c)
  | None =>
      pm ← GetPeerMap;
      pi ← (match pm !! uuid with
            | Some pi => mret (Some pi)
            | None => pm' ← UpdatePeerMap; mret (pm' !! uuid)
            end);
      match pi with
      | None => mret None
      | Some pi =>
          if TimedOut pi then mret None
          else
            r ← try (on_net (DialRPC (Address pi)));
            match r with
            | inr _ => mret None
            | inl c => _ ← modify (λ d, set_openConns (<[uuid := c]> (openConns d)) d); mret (Some c)
            end
      end
  end.

Definition resetConn (uuid : gostring) : M Distributor unit :=
  d ← get;
  match openConns d !! uuid with
  | None => mret tt
  | Some c =>
      _ ← modify (λ d, set_openConns (delete uuid (openConns d)) d);
      _ ← try (on_net (conn_Close c));
      mret tt
  end.

Fixpoint close_conns (l : list (gostring * conn)) : M Distributor unit :=
  match l with
  | [] => mret tt
  | (_, c) :: l' => _ ← on_net (conn_Close c); close_conns l'
  end.
Definition client_Close : M Distributor unit := d ← get; close_conns (map_order (openConns d)).

Definition client_GetBlock (uuid : gostring) (b : BlockRef) : M Distributor slice :=
  c ← getConn uuid;
  match c with
  | None => throw ErrNoPeer
  | Some c =>
      r ← try (on_net (conn_Block c b));
      match r with
      | inl data => alloc data
      | inr _ => _ ← resetConn uuid; throw ErrBlockUnavailable
      end
  end.

Definition client_PutBlock (uuid : gostring) (b : BlockRef) (data : slice) : M Distributor unit :=
  c ← getConn uuid;
  match c with
  | None => throw ErrNoPeer
  | Some c =>
      d ← get;
      r ← try (on_net (conn_PutBlock c b (deref (blocks d) data)));
      match r with
      | inl _ => mret tt
      | inr e =>
          _ ← resetConn uuid;
          if decide (e = ErrDeadlineExceeded) then throw ErrBlockUnavailable else throw e
      end
  end.

Definition client_Check (uuid : gostring) (blks : list BlockRef) : M Distributor (list bool) :=
  c ← getConn uuid;
  match c with
  | None => throw ErrNoPeer
  | Some c =>
      r ← try (on_net (conn_RebalanceCheck c blks));
      match r with
      | inl resp => mret resp
      | inr e => _ ← resetConn uuid; throw e
      end
  end.

(** ** The read cache; a nil cache holds nothing *)

Definition on_cache {A} (nil : A) (m : M (cache slice) A) : M Distributor A := λ d,
  match readCache d with
  | None => (Ok nil, d)
  | Some c => let '(r, c') := m c in (r, set_readCache (Some c') d)
  end.

Definition cache_Get (i : BlockRef) : M Distributor (option slice) := on_cache None (LRU.Get (BlockRef_ToBytes i)).

(** [reflect.DeepEqual] compares the bytes behind two slices. *)
Definition cache_Put (i : BlockRef) (data : slice) : M Distributor unit :=
  d ← get;
  on_cache tt (LRU.Put (λ x y, bool_decide (deref (blocks d) x = deref (blocks d) y)) (BlockRef_ToBytes i) data).

(** ** Reading *)

Definition local_Get (i : BlockRef) : M Distributor slice := on_blocks (Store.GetBlock i).

Definition readFromPeer (i : BlockRef) (peer : gostring) : M Distributor slice :=
  blk ← client_GetBlock peer i;
  _ ← cache_Put i blk;
  mret blk.

Fixpoint readSequential (cfg : Config) (i : BlockRef) (peers : PeerList) : M Distributor slice :=
  match peers with
  | [] => throw ErrNoPeersBlock
  | p :: peers' =>
      if decide (p = CUUID cfg) then
        r ← try (local_Get i);
        match r with inl b => mret b | inr _ => readSequential cfg i peers' end
      else
        r ← try (readFromPeer i p);
        match r with
        | inl blk => mret blk
        | inr e =>
            if decide (e = ErrBlockUnavailable ∨ e = ErrNoPeer) then readSequential cfg i peers' else throw e
        end
  end.

(** Every try waits twice as long as the one before. *)
Fixpoint read_tries (n : nat) (cfg : Config) (i : BlockRef) (peers : PeerList) : M Distributor slice :=
  match n with
  | O => throw ErrNoPeersBlock
  | Datatypes.S n' =>
      r ← try (readSequential cfg i peers);
      match r with inl blk => mret blk | inr _ => read_tries n' cfg i peers end
  end.
Definition readWithBackoff (cfg : Config) (i : BlockRef) (peers : PeerList) : M Distributor slice :=
  read_tries 10 cfg i peers.

(** The goroutines of [readSpread] in the order they finish: the first block one
    of them sends is the answer, and the others go on. *)
Fixpoint spread_all (i : BlockRef) (found : option slice) (order : PeerList) : M Distributor (option slice) :=
  match order with
  | [] => mret found
  | p :: order' =>
      r ← try (readFromPeer i p);
      spread_all i (match found, r with None, inl blk => Some blk | _, _ => found end) order'
  end.

(** [first] are the peers of the replication.  With no goroutine at all the
    [select] waits for ever, the outcome [Panic]. *)
Definition readSpread (cfg : Config) (order : PeerList → PeerList) (i : BlockRef) (first : PeerList) : M Distributor slice :=
  let others := filter (λ p, p ≠ CUUID cfg) first in
  if decide (others = []) then panic
  else
    found ← spread_all i None (order others);
    match found with Some blk => mret blk | None => throw ErrNoPeersBlock end.

(** The first loop of [GetBlock]: one try of the local store. *)
Fixpoint try_local (cfg : Config) (i : BlockRef) (first : PeerList) : M Distributor (option slice) :=
  match first with
  | [] => mret None
  | p :: first' =>
      if decide (p = CUUID cfg ∨ CWriteLevel cfg = WriteLocal) then
        r ← try (local_Get i);
        match r with inl b => mret (Some b) | inr _ => mret None end
      else try_local cfg i first'
  end.

Definition dist_GetBlock (cfg : Config) (order : PeerList → PeerList) (i : BlockRef) : M Distributor slice :=
  bcache ← cache_Get i;
  match bcache with
  | Some b => mret b
  | None =>
      d ← get;
      peers ← lift (Ring.GetPeers (dring d) i);
      if decide (length (Peers peers) = 0%nat) then throw ErrNoPeersBlock
      else
        first ← lift (or_panic (gslice 0 (Replication peers) (Peers peers)));
        l ← try_local cfg i first;
        match l with
        | Some b => mret b
        | None =>
            match CReadLevel cfg with
            | ReadBlock => readWithBackoff cfg i (Peers peers)
            | ReadSequential => readSequential cfg i (Peers peers)
            | ReadSpread => readSpread cfg order i first
            end
        end
  end.

(** ** Writing *)

Definition local_Write (i : BlockRef) (data : slice) : M Distributor unit :=
  d ← get; on_blocks (Store.WriteBlock i (deref (blocks d) data)).

(** What [writer] does with one peer. *)
Definition write_peer (cfg : Config) (i : BlockRef) (data : slice) (p : gostring) : M Distributor unit :=
  if decide (p = CUUID cfg) then local_Write i data else client_PutBlock p i data.

(** [WriteAll]: the goroutine that feeds the channel and the writers that empty
    it.  [w_busy] are the peers the writers are at. *)
Record wstate := mkW {
  w_index : nat;
  w_toWrite : Z;
  w_queue : PeerList;
  w_closed : bool;
  w_busy : PeerList;
  w_acked : PeerList;  (** the peers whose write succeeded, for the theorems *)
  w_crashed : bool;
  w_dist : Distributor;
}.

(** What happens next: another peer is put into the channel, the channel is
    closed, a writer takes a peer, or the [k]th busy writer finishes. *)
Inductive wchoice := WFeed | WClose | WTake | WDone (k : nat).

Definition more (peers : PeerList) (w : wstate) : Prop :=
  (w_index w < length peers)%nat ∧ Z.of_nat (w_index w) < w_toWrite w.
#[global] Instance more_dec peers w : Decision (more peers w).
Proof. unfold more. apply _. Defined.

Definition wstep (cfg : Config) (i : BlockRef) (data : slice) (peers : PeerList) (writers : nat) (c : wchoice)
    (w : wstate) : option wstate :=
  if w_crashed w then None
  else
    match c with
    | WFeed =>
        if decide (w_closed w = false ∧ more peers w) then
          match peers !! w_index w with
          | Some p => Some (mkW (w_index w + 1) (w_toWrite w) (w_queue w ++ [p]) false (w_busy w) (w_acked w) false (w_dist w))
          | None => None
          end
        else None
    | WClose =>
        if decide (w_closed w = false ∧ ¬ more peers w)
        then Some (mkW (w_index w) (w_toWrite w) (w_queue w) true (w_busy w) (w_acked w) false (w_dist w)) else None
    | WTake =>
        match w_queue w with
        | p :: q =>
            if decide (length (w_busy w) < writers)%nat
            then Some (mkW (w_index w) (w_toWrite w) q (w_closed w) (w_busy w ++ [p]) (w_acked w) false (w_dist w)) else None
        | [] => None
        end
    | WDone k =>
        match w_busy w !! k with
        | Some p =>
            let '(r, d) := write_peer cfg i data p (w_dist w) in
            let ok := is_ok r in
            Some (mkW (w_index w) (if ok then w_toWrite w - 1 else w_toWrite w) (w_queue w) (w_closed w)
                      (delete k (w_busy w)) (if ok then w_acked w ++ [p] else w_acked w)
                      (bool_decide (r = Panic)) d)
        | None => None
        end
    end.

(** The writers return when the channel is closed and empty. *)
Definition wdone (w : wstate) : Prop := w_closed w = true ∧ w_queue w = [] ∧ w_busy w = [] ∧ w_crashed w = false.
#[global] Instance wdone_dec w : Decision (wdone w).
Proof. unfold wdone. apply _. Defined.

(** A choice that is not possible is passed over. *)
Fixpoint wrun (cfg : Config) (i : BlockRef) (data : slice) (peers : PeerList) (writers : nat) (sched : list wchoice)
    (w : wstate) : wstate :=
  match sched with
  | [] => w
  | c :: sched' => wrun cfg i data peers writers sched' (default w (wstep cfg i data peers writers c w))
  end.

Definition int32 (n : Z) : Z := to_signed 32 n.
Definition wstart (rep : Z) (d : Distributor) : wstate := mkW 0 (int32 rep) [] false [] [] false d.
Definition num_writers (cfg : Config) (perm : PeerPermutation) : nat :=
  Nat.min (Nat.min (Z.to_nat (int32 (Replication perm))) (length (Peers perm))) (GOMAXPROCS cfg).

(** A schedule under which the call does not finish is the outcome [Panic]. *)
Definition write_all (cfg : Config) (sched : list wchoice) (i : BlockRef) (data : slice) (perm : PeerPermutation) :
    M Distributor unit := λ d,
  let w := wrun cfg i data (Peers perm) (num_writers cfg perm) sched (wstart (Replication perm) d) in
  if decide (wdone w) then
    if decide (w_toWrite w = int32 (Replication perm)) then (Err ErrNoPeer, w_dist w) else (Ok tt, w_dist w)
  else (Panic, w_dist w).

(** [WriteOne]: here if this is one of the desired peers, or else at the first
    peer that takes the block. *)
Fixpoint write_here (cfg : Config) (i : BlockRef) (data : slice) (first : PeerList) : M Distributor bool :=
  match first with
  | [] => mret false
  | p :: first' =>
      if decide (p = CUUID cfg) then
        r ← try (local_Write i data);
        match r with inl _ => mret true | inr _ => write_here cfg i data first' end
      else write_here cfg i data first'
  end.
Fixpoint write_remote (i : BlockRef) (data : slice) (peers : PeerList) : M Distributor unit :=
  match peers with
  | [] => throw ErrNoPeer
  | p :: peers' =>
      r ← try (client_PutBlock p i data);
      match r with inl _ => mret tt | inr _ => write_remote i data peers' end
  end.
Definition write_one (cfg : Config) (i : BlockRef) (data : slice) (perm : PeerPermutation) : M Distributor unit :=
  first ← lift (or_panic (gslice 0 (Replication perm) (Peers perm)));
  here ← write_here cfg i data first;
  if (here : bool) then mret tt else write_remote i data (Peers perm).

(** The deferred function puts the block into the cache when the variable [err]
    is nil, which [WriteAll] never sets. *)
Definition dist_WriteBlock (cfg : Config) (sched : list wchoice) (i : BlockRef) (data : slice) : M Distributor unit :=
  d ← get;
  perm ← lift (Ring.GetPeers (dring d) i);
  if decide (length (Peers perm) = 0%nat) then throw ErrNoPeersBlock
  else
    match CWriteLevel cfg with
    | WriteLocal =>
        r ← try (local_Write i data);
        match r with
        | inl _ => cache_Put i data
        | inr _ => _ ← write_one cfg i data perm; cache_Put i data
        end
    | WriteOne => _ ← write_one cfg i data perm; cache_Put i data
    | WriteAll =>
        r ← try (write_all cfg sched i data perm);
        _ ← cache_Put i data;
        match r with inl _ => mret tt | inr e => throw e end
    end.

(** ** The rest of the block store *)

Definition dist_WriteBuf (i : BlockRef) : M Distributor slice := on_blocks (Store.WriteBuf i).
Definition dist_HasBlock (i : BlockRef) : M Distributor bool := throw ErrUnimplemented.
Definition dist_DeleteBlock (i : BlockRef) : M Distributor unit := on_blocks (Store.DeleteBlock i).
Definition dist_NumBlocks (d : Distributor) : Z := Store.NumBlocks (blocks d).
Definition dist_UsedBlocks (d : Distributor) : Z := Store.UsedBlocks (blocks d).
Definition dist_BlockSize (d : Distributor) : Z := Store.BlockSize (blocks d).
Definition dist_Flush : M Distributor unit := on_blocks Store.Flush.

(** ** What a node does for its peers: [rpc.go] *)

Definition serve_Block (ref : BlockRef) : M Distributor slice :=
  r ← try (on_blocks (Store.GetBlock ref));
  match r with inl data => mret data | inr _ => throw ErrBlockUnavailable end.

(** A block that does not belong to this node is written all the same. *)
Definition serve_PutBlock (ref : BlockRef) (data : bytes) : M Distributor unit :=
  d ← get;
  _ ← lift (Ring.GetPeers (dring d) ref);
  _ ← on_blocks (Store.WriteBlock ref data);
  dist_Flush.

Fixpoint serve_RebalanceCheck (refs : list BlockRef) : M Distributor (list bool) :=
  match refs with
  | [] => mret []
  | x :: refs' => ok ← on_blocks (Store.HasBlock x); out ← serve_RebalanceCheck refs'; mret (ok :: out)
  end.

(** ** Setting up and closing *)

(** The size of the read cache; a block size of 0 panics. *)
Definition new_readCache (cfg : Config) (blockSize : Z) : res (option (cache slice)) :=
  if decide (ReadCacheSize cfg ≠ 0) then
    if decide (blockSize = 0) then Panic
    else
      let size := ReadCacheSize cfg / blockSize in
      let size := if decide (size < 100) then 100 else size in
      Ok (Some (newCache (to_signed 64 size)))
  else Ok None.

Definition newDistributor (cfg : Config) (b : S) (n : N) (peers : gmap gostring PeerInfo) (m : Server) : res Distributor :=
  c ← new_readCache cfg (Metadata.BlockSize (global m));
  r ← (GetRing m).1;
  mret (mkDist b n ∅ peers m c r false false).

(** A ring from the metadata service. *)
Definition watch_ring (newring : Ring) : M Distributor unit :=
  d ← get;
  if decide (Version newring = Version (dring d)) then mret tt
  else if decide (Version newring < Version (dring d)) then panic
  else modify (set_dring newring).

(** Closing a closed channel panics. *)
Definition dist_Close : M Distributor unit :=
  d ← get;
  if closed d then mret tt
  else if chansClosed d then panic
  else
    _ ← modify (λ d, set_closed true (closed d) d);
    _ ← try client_Close;
    _ ← on_blocks Store.Close;
    modify (λ d, set_closed (chansClosed d) true d).
End dist.
