(* ===== verification/DistributorSpec.v ===== *)
(** * What the distributor promises

    A block reference is written once, so all the copies of a block are equal:
    whatever fails on the network and however the goroutines interleave, a read
    returns what was written under the reference.  [write_all_run] says how many
    copies a [WriteAll] write leaves.  The lemmas are proved against the interface
    [NetworkLaws], which the handlers of the peers implement ([Cluster]); the
    theorems about nodes that are the network of each other are in [ClusterSpec]. *)
From stdpp Require Import pretty.
From S2P Require Import Prelude GoSem GoStrings Refs TempStore Store Crc32 Blockset Proto Models INodeStore File Ring Metadata MetaTemp LRU Distributor.

(** One content per reference. *)
Definition once (P : BlockRef → bytes → Prop) : Prop := ∀ r b b', P r b → P r b' → b = b'.

(** What the network and the peers behind it promise, for any property [P] of
    the blocks they keep that gives a reference one content: what a peer answers it
    keeps, and it keeps what was there and what it was sent.  [net_has] says that
    the peer at an address keeps a block.  [cluster_laws] proves these laws of peers
    that carry out the calls that arrive with the handlers of [Distributor]. *)
Class NetworkLaws (N : Type) `{Network N} := {
  conn_addr : conn → gostring;
  net_holds : (BlockRef → bytes → Prop) → N → Prop;
  net_has : N → gostring → BlockRef → bytes → Prop;
  has_holds P n a r b : net_holds P n → net_has n a r b → P r b;
  Dial_holds P a n o n' : once P → net_holds P n → DialRPC a n = (o, n') →
    net_holds P n' ∧ (∀ a r b, net_has n a r b → net_has n' a r b) ∧
    match o with Ok c => conn_addr c = a | _ => True end;
  Block_holds P c r n o n' : once P → net_holds P n → conn_Block c r n = (o, n') →
    net_holds P n' ∧ (∀ a r b, net_has n a r b → net_has n' a r b) ∧ match o with Ok b => P r b | _ => True end;
  PutBlock_holds P c r b n o n' : once P → net_holds P n → P r b → conn_PutBlock c r b n = (o, n') →
    net_holds P n' ∧ (∀ a r b, net_has n a r b → net_has n' a r b) ∧
    match o with Ok _ => net_has n' (conn_addr c) r b | _ => True end;
  Check_holds P c l n o n' : once P → net_holds P n → conn_RebalanceCheck c l n = (o, n') →
    net_holds P n' ∧ (∀ a r b, net_has n a r b → net_has n' a r b) ∧
    match o with
    | Ok oks => Forall2 (λ r ok, ok = true → ∃ b, net_has n' (conn_addr c) r b) l oks
    | _ => True
    end;
  Close_holds P c n o n' : once P → net_holds P n → conn_Close c n = (o, n') →
    net_holds P n' ∧ (∀ a r b, net_has n a r b → net_has n' a r b);
}.

(** ** Pairs of the cache *)

Section pairs.
Context {V : Type} (deepEqual : V → V → bool).
Implicit Types (p : list (bytes * V)) (Q : bytes * V → Prop).

Lemma Forall_without Q k p : Forall Q p → Forall Q (without k p).
Proof.
  induction 1 as [|x p Hx Hp IH]; [constructor|]. unfold without. rewrite filter_cons. case_decide; [by constructor|done].
Qed.
Lemma Forall_removelast Q p : Forall Q p → Forall Q (removelast p).
Proof. destruct p as [|x p _] using rev_ind; [done|]. rewrite removelast_last. by intros [? _]%Forall_app. Qed.

Lemma spec_get_all Q k p :
  Forall Q p → Forall Q (spec_get k p).2 ∧ ∀ v, (spec_get k p).1 = Some v → Q (k, v).
Proof.
  intros Hp. unfold spec_get. destruct (assoc k p) as [v|] eqn:E; cbn; [|done].
  assert (Q (k, v)) as Hv.
  { apply assoc_split in E as (p1 & p2 & -> & _). by apply Forall_app in Hp as [_ [? _]%list.Forall_cons]. }
  split; [|by intros v' [= <-]]. constructor; [done|]. by apply Forall_without.
Qed.

Lemma spec_put_all Q n k v p : Forall Q p → Q (k, v) → Forall Q (spec_put deepEqual n k v p).
Proof.
  intros Hp Hv. unfold spec_put. destruct (assoc k p) as [v'|] eqn:E; [destruct (deepEqual v' v)|].
  - constructor; [|by apply Forall_without]. apply (spec_get_all Q k p Hp). unfold spec_get. by rewrite E.
  - constructor; [done|]. case_decide; [apply Forall_removelast|]; by apply Forall_without.
  - constructor; [done|]. case_decide; [by apply Forall_removelast|done].
Qed.
End pairs.

Section dist.
Context {S N : Type} `{L : BlockStoreLaws S} `{NL : NetworkLaws N} `{HH : HashRing} `{HR : Range} `{HO : MapOrder}.
Context (addr : gostring → gostring) (R : Ring → Prop) (P : BlockRef → bytes → Prop) (P_once : once P) (cached : bool).
Abbreviation dist := (Distributor (S := S) (N := N)).
Implicit Types (d : dist) (s : S) (r : BlockRef).

(** A slice that holds a block that may be under a reference. *)
Definition good (r : BlockRef) (sl : slice) (s : S) : Prop := live s sl ∧ P r (deref s sl).

(** A buffer that is not the memory of a stored block. *)
Definition private (s : S) (sl : slice) : Prop := ∀ r, backing s r ≠ Some sl.

Definition item_ok (s : S) (x : bytes * slice) : Prop :=
  live s x.2 ∧ private s x.2 ∧ ∀ r, wf_blockref r → BlockRef_ToBytes r = x.1 → P r (deref s x.2).

(** Every copy of a block a node can get at has the property, and the peers have
    the addresses [addr] gives them; [cached] says that there is a read cache, and
    [R] holds of the rings the node uses. *)
Record coherent d : Prop := {
  co_inv : inv (blocks d);
  co_store r b : stored (blocks d) r = Some b → P r b;
  co_net : net_holds P (net d);
  co_conns u c : openConns d !! u = Some c → conn_addr c = addr u;
  co_peers u pi : peersMap d !! u = Some pi → Address pi = addr u;
  co_dmds pi : pi ∈ MetaTemp.peers (dmds d) → Address pi = addr (UUID pi);
  co_cache c : readCache d = Some c → 2 ≤ maxSize c ∧ ∃ l, repr c l ∧ Forall (item_ok (blocks d)) l.*2;
  co_cached : cached = true → readCache d ≠ None;
  co_ring : R (dring d);
}.

(** A state reached without losing a slice or a copy of a block. *)
Record dist_ext d d' : Prop := {
  de_store : store_ext (blocks d) (blocks d');
  de_kept r b : stored (blocks d) r = Some b → stored (blocks d') r = Some b;
  de_net a r b : net_has (net d) a r b → net_has (net d') a r b;
}.

Lemma dist_ext_trans d1 d2 d3 : dist_ext d1 d2 → dist_ext d2 d3 → dist_ext d1 d3.
Proof. intros [] []. split; [by eapply store_ext_trans|auto|auto]. Qed.
Lemma dist_ext_same d d' : coherent d → blocks d' = blocks d → net d' = net d → dist_ext d d'.
Proof. intros Hc Hb Hn. split; rewrite ?Hb, ?Hn; [apply store_ext_refl, Hc|done|done]. Qed.
Lemma dist_ext_refl d : coherent d → dist_ext d d.
Proof. intros Hc. by apply dist_ext_same. Qed.

(** The block is in the local store or at a peer. *)
Definition durable (r : BlockRef) (b : bytes) d : Prop :=
  stored (blocks d) r = Some b ∨ ∃ a, net_has (net d) a r b.
Lemma durable_ext r b d d' : dist_ext d d' → durable r b d → durable r b d'.
Proof. intros He [Hs|[a Ha]]; [left; by apply (de_kept _ _ He)|right; exists a; by apply (de_net _ _ He)]. Qed.

Lemma ext_deref d d' sl : dist_ext d d' → live (blocks d) sl → live (blocks d') sl ∧ deref (blocks d') sl = deref (blocks d) sl.
Proof. intros [He _ _]. by apply (ext_slice _ _ He). Qed.
Lemma good_ext r sl d d' : dist_ext d d' → good r sl (blocks d) → good r sl (blocks d').
Proof. intros He [Hl Hp]. destruct (ext_deref _ _ _ He Hl) as [Hl' Hd]. split; [done|]. by rewrite Hd. Qed.

Lemma private_ext sl d d' : dist_ext d d' → live (blocks d) sl → private (blocks d) sl → private (blocks d') sl.
Proof. intros [He _ _] Hl Hp. exact (ext_private _ _ He sl Hl Hp). Qed.

Lemma items_ext l s s' : store_ext s s' → Forall (item_ok s) l → Forall (item_ok s') l.
Proof.
  intros He Hl. eapply Forall_impl; [|exact Hl]. intros x (Hx & Hpr & Hp). destruct (ext_slice _ _ He _ Hx) as [Hx' Hd].
  split; [done|]. split; [exact (ext_private _ _ He _ Hx Hpr)|]. by rewrite Hd.
Qed.

(** ** A logic for the code

    [safe m Q d]: [m] run from [d] keeps the copies coherent and loses nothing,
    and what it returns satisfies [Q]. *)
Definition safe {A} (m : M dist A) (Q : A → dist → Prop) (d : dist) : Prop :=
  let '(o, d') := m d in coherent d' ∧ dist_ext d d' ∧ match o with Ok a => Q a d' | _ => True end.

Lemma safe_ret {A} (a : A) (Q : A → dist → Prop) d : coherent d → Q a d → safe (mret a) Q d.
Proof. intros Hc HQ. split; [done|]. split; [by apply dist_ext_refl|done]. Qed.
Lemma safe_fail {A} (o : res A) Q d : coherent d → (∀ a, o = Ok a → Q a d) → safe (lift o) Q d.
Proof. intros Hc HQ. split; [done|]. split; [by apply dist_ext_refl|]. destruct o; auto. Qed.

Lemma safe_bind {A C} (m : M dist A) (f : A → M dist C) Q d :
  safe m (λ a d', safe (f a) Q d') d → safe (m ≫= f) Q d.
Proof.
  unfold safe, mbind, M_bind. destruct (m d) as [[a|e|] d1]; [|done|done]. intros (Hc & He & Hf).
  destruct (f a d1) as [o d2]. destruct Hf as (Hc2 & He2 & HQ). split; [done|]. split; [by eapply dist_ext_trans|done].
Qed.

Lemma safe_try {A} (m : M dist A) (Q : A + error → dist → Prop) d :
  safe m (λ a d', Q (inl a) d') d →
  (∀ e d', coherent d' → dist_ext d d' → Q (inr e) d') → safe (try m) Q d.
Proof.
  unfold safe, try. destruct (m d) as [[a|e|] d1]; intros (Hc & He & Hf) Herr; (split; [done|]); (split; [done|]); auto.
Qed.

(** What follows may use that nothing of the state before is lost. *)
Lemma safe_mono {A} (m : M dist A) (Q Q' : A → dist → Prop) d :
  safe m Q d → (∀ a d', coherent d' → dist_ext d d' → Q a d' → Q' a d') → safe m Q' d.
Proof. unfold safe. destruct (m d) as [[a|e|] d1]; intros (Hc & He & Hf) HQ; auto. Qed.

Lemma safe_seq {A C} (m : M dist A) (f : A → M dist C) Q Q' d :
  safe m Q' d → (∀ a d', coherent d' → dist_ext d d' → Q' a d' → safe (f a) Q d') → safe (m ≫= f) Q d.
Proof. intros Hm Hf. apply safe_bind. by eapply safe_mono. Qed.

Lemma safe_get {A} (f : dist → M dist A) Q d : safe (f d) Q d → safe (get ≫= f) Q d.
Proof. done. Qed.

(** *** The parts of the state *)

(** A change of the connections and of the map of peers. *)
Lemma safe_modify (f : dist → dist) d :
  coherent d → blocks (f d) = blocks d → net (f d) = net d → readCache (f d) = readCache d → dmds (f d) = dmds d →
  (∀ u c, openConns (f d) !! u = Some c → conn_addr c = addr u) →
  (∀ u pi, peersMap (f d) !! u = Some pi → Address pi = addr u) → R (dring (f d)) →
  safe (modify f) (λ _ _, True) d.
Proof.
  intros [Hi Hs Hn Hco Hpe Hdm Hca Hcd Hri] Hb Hne Hr Hd Hco' Hpe' Hri'. unfold safe, modify.
  split; [split; rewrite ?Hb, ?Hne, ?Hr, ?Hd; done|]. split; [|done]. split; rewrite ?Hb, ?Hne; [by apply store_ext_refl|done|done].
Qed.

Lemma safe_net {A} (m : M N A) (Q : A → N → Prop) d :
  coherent d → (∀ o n', m (net d) = (o, n') → net_holds P n' ∧ (∀ a r b, net_has (net d) a r b → net_has n' a r b) ∧
                        match o with Ok a => Q a n' | _ => True end) →
  safe (on_net m) (λ a d', Q a (net d')) d.
Proof.
  intros [Hi Hs Hn Hco Hpe Hdm Hca Hcd Hri] Hm. unfold safe, on_net. destruct (m (net d)) as [o n'] eqn:E.
  destruct (Hm _ _ eq_refl) as (Hn' & Hk & HQ). split; [by split|]. split; [|by destruct o].
  split; [by apply store_ext_refl|done|done].
Qed.

Lemma safe_blocks {A} (m : M S A) (Q : A → S → Prop) d :
  coherent d →
  (∀ o s', m (blocks d) = (o, s') → store_ext (blocks d) s' ∧ (∀ r b, stored s' r = Some b → P r b) ∧
     (∀ r b, stored (blocks d) r = Some b → stored s' r = Some b) ∧ match o with Ok a => Q a s' | _ => True end) →
  safe (on_blocks m) (λ a d', Q a (blocks d')) d.
Proof.
  intros [Hi Hs Hn Hco Hpe Hdm Hca Hcd Hri] Hm. unfold safe, on_blocks. destruct (m (blocks d)) as [o s'] eqn:E.
  destruct (Hm _ _ eq_refl) as (He & Hs' & Hk & HQ). split; [|split; [by split|by destruct o]].
  split; cbn; [apply He|done..| |done|done].
  intros c Hc. destruct (Hca c Hc) as (Hmax & l & Hr & Hl). split; [done|]. exists l. split; [done|]. by eapply items_ext.
Qed.

Lemma safe_alloc r b d :
  coherent d → P r b → safe (alloc b) (λ sl d', good r sl (blocks d') ∧ private (blocks d') sl) d.
Proof.
  intros Hc Hp. unfold alloc. apply (safe_blocks _ (λ sl s', good r sl s' ∧ private s' sl)); [done|]. intros o s'.
  destruct (mk_slice b (blocks d)) as [sl s1] eqn:E. intros [= <- <-]. pose proof (co_inv _ Hc) as Hi.
  destruct (mk_slice_stored _ _ _ _ Hi E) as (He & Hd & Hs). destruct (mk_slice_spec _ _ _ _ Hi E) as (_ & _ & _ & _ & Hl & Hnl & Hb & _).
  split; [done|]. split; [intros r' b'; rewrite Hs; apply (co_store _ Hc)|]. split; [intros r' b'; by rewrite Hs|].
  split; [split; [done|by rewrite Hd]|]. intros r'. rewrite Hb. intros Hr'. by apply Hnl, (backing_live _ r').
Qed.

Lemma safe_local_Get r d : coherent d → safe (local_Get r) (λ sl d', good r sl (blocks d')) d.
Proof.
  intros Hc. apply (safe_blocks _ (λ sl s', good r sl s')); [done|]. intros o s' Hg. pose proof (co_inv _ Hc) as Hi.
  destruct o as [sl|e|].
  - destruct (GetBlock_stored _ _ _ _ Hi Hg) as (He & Hd & Hs). destruct (GetBlock_ok _ _ _ _ Hi Hg) as (_ & _ & _ & Hl & _).
    split; [done|]. split; [intros r' b'; rewrite Hs; apply (co_store _ Hc)|]. split; [intros r' b'; by rewrite Hs|].
    split; [done|]. by apply (co_store _ Hc).
  - rewrite (GetBlock_err _ _ _ _ Hi Hg). split; [by apply store_ext_refl|]. split; [apply (co_store _ Hc)|done].
  - by destruct (GetBlock_no_panic _ _ _ Hi Hg).
Qed.

Lemma safe_WriteBlock r b d :
  coherent d → P r b → valid r → fits (blocks d) b →
  safe (on_blocks (Store.WriteBlock r b)) (λ _ d', stored (blocks d') r = Some b) d.
Proof.
  intros Hc Hp Hv Hf. apply (safe_blocks _ (λ _ s', stored s' r = Some b)); [done|]. intros o s' Hw. pose proof (co_inv _ Hc) as Hi.
  destruct o as [[]|e|].
  - destruct (WriteBlock_stored _ _ _ _ Hi Hv Hf Hw) as (He & Hs & Hk). split; [done|]. split; [|split; [|done]]; intros r' b';
      (destruct (decide (r' = r)) as [->|Hne]; [rewrite Hs|rewrite Hk by done; try apply (co_store _ Hc); done]).
    + by intros [= <-].
    + intros Hold%(co_store _ Hc). f_equal. by eapply P_once.
  - destruct (WriteBlock_err_stored _ _ _ _ _ Hi Hv Hf Hw) as (He & Hk). split; [done|].
    split; [intros r' b'; rewrite Hk; apply (co_store _ Hc)|]. split; [intros r' b'; by rewrite Hk|done].
  - by destruct (WriteBlock_no_panic _ _ _ _ Hi Hv Hf Hw).
Qed.

(** *** The cache *)

Lemma safe_cache_Get r d :
  wf_blockref r → coherent d →
  safe (cache_Get r) (λ o d', match o with Some sl => good r sl (blocks d') | None => True end) d.
Proof.
  intros Hwf Hc. unfold safe, cache_Get, on_cache. destruct (readCache d) as [c|] eqn:E.
  2: { split; [done|]. split; [by apply dist_ext_same|done]. }
  destruct (co_cache _ Hc c E) as (Hmax & l & Hr & Hl). unfold LRU.Get.
  destruct (lru_get_run (λ _ _, true) c l (BlockRef_ToBytes r) Hr) as (c' & l' & -> & Hr' & Hl' & Hm' & _).
  destruct (spec_get_all _ (BlockRef_ToBytes r) _ Hl) as [Hall Hv].
  split; [|split; [by apply dist_ext_same|]].
  - destruct Hc as [Hi Hs Hn Hco Hpe Hdm Hca Hcd Hri]. split; try done. cbn. intros c0 [= <-]. rewrite Hm'. split; [done|]. exists l'.
    split; [done|]. by rewrite Hl'.
  - destruct (spec_get _ _).1 as [sl|]; [|done]. destruct (Hv sl eq_refl) as (Hlive & _ & Hp). split; [done|]. by apply Hp.
Qed.

Lemma safe_cache_Put r sl d :
  wf_blockref r → coherent d → good r sl (blocks d) → private (blocks d) sl → safe (cache_Put r sl) (λ _ _, True) d.
Proof.
  intros Hwf Hc [Hlive Hp] Hpr. unfold cache_Put. apply safe_get. unfold safe, on_cache. destruct (readCache d) as [c|] eqn:E.
  2: { split; [done|]. split; [by apply dist_ext_same|done]. }
  destruct (co_cache _ Hc c E) as (Hmax & l & Hr & Hl).
  set (eqb := λ x y, bool_decide (deref (blocks d) x = deref (blocks d) y)).
  destruct (Put_run eqb c l (BlockRef_ToBytes r) sl) as (c' & l' & -> & Hr' & Hm' & Hl'); try done.
  { intros x. by apply bool_decide_eq_true. }
  split; [|split; [by apply dist_ext_same|done]]. destruct Hc as [Hi Hs Hn Hco Hpe Hdm Hca Hcd Hri]. split; try done. cbn. intros c0 [= <-].
  rewrite Hm'. split; [done|]. exists l'. split; [done|]. rewrite Hl'. apply spec_put_all; [done|]. split; [done|]. split; [done|].
  cbn. intros r' Hwf' Heq. apply BlockRef_ToBytes_inj in Heq; [by subst|done|done].
Qed.

(** *** The client *)

Abbreviation trivial := (λ _ _, True).

Lemma safe_true {A} (a : A) d : coherent d → safe (mret a) trivial d.
Proof. intros Hc. by apply safe_ret. Qed.

(** A sequence of which nothing is returned, and an error that is dropped. *)
Lemma safe_then {A C} (m : M dist A) (f : A → M dist C) Q d :
  safe m trivial d → (∀ a d', coherent d' → dist_ext d d' → safe (f a) Q d') → safe (m ≫= f) Q d.
Proof. intros Hm Hf. eapply safe_seq; [exact Hm|]. auto. Qed.
Lemma safe_try_true {A} (m : M dist A) d : safe m trivial d → safe (try m) trivial d.
Proof. intros Hm. by apply safe_try. Qed.

Lemma safe_Close c d : coherent d → safe (on_net (conn_Close c)) trivial d.
Proof.
  intros Hc. apply (safe_net _ (λ _ _, True)); [done|]. intros o n' E.
  destruct (Close_holds P _ _ _ _ P_once (co_net _ Hc) E). split_and!; try done. by destruct o.
Qed.
Lemma GetPeers_run m o m' : MetaTemp.GetPeers m = (o, m') → MetaTemp.peers m' = MetaTemp.peers m ∧ ∀ l, o = Ok l → l = MetaTemp.peers m.
Proof.
  unfold MetaTemp.GetPeers, with_lock, gets. destruct (mut m); intros [= <- <-]; [done|]. split; [done|]. by intros l [= <-].
Qed.
Lemma safe_GetPeers d :
  coherent d → safe (on_dmds MetaTemp.GetPeers) (λ l _, Forall (λ pi, Address pi = addr (UUID pi)) l) d.
Proof.
  intros Hc. unfold safe, on_dmds. destruct (MetaTemp.GetPeers (dmds d)) as [o m'] eqn:E. destruct (GetPeers_run _ _ _ E) as [Hp Hl].
  pose proof (co_dmds _ Hc) as Hd. split; [|split; [by apply dist_ext_same|]].
  - destruct Hc as [Hi Hs Hn Hco Hpe Hdm Hca Hcd Hri]. split; try done. cbn. by rewrite Hp.
  - destruct o as [l|e|]; [|done|done]. rewrite (Hl l eq_refl). by apply list.Forall_forall.
Qed.

(** Connections are dropped, added at the address of their peer, and peers are
    replaced or marked. *)
Lemma safe_drop_conn u d : coherent d → safe (modify (λ d, set_openConns (delete u (openConns d)) d)) trivial d.
Proof.
  intros Hc. apply safe_modify; try done; [|apply (co_peers _ Hc)|apply (co_ring _ Hc)]. intros u' c. cbn. rewrite lookup_delete_Some.
  intros [_ ?]. by apply (co_conns _ Hc).
Qed.

Lemma safe_onPeerTimeout u d : coherent d → safe (onPeerTimeout u) trivial d.
Proof.
  intros Hc. unfold onPeerTimeout. apply safe_get. destruct (openConns d !! u) as [c|]; [|by apply safe_true].
  eapply safe_then; [by apply safe_try_true, safe_Close|]. intros _ d' Hc' _. by apply safe_drop_conn.
Qed.
Lemma safe_resetConn u d : coherent d → safe (resetConn u) trivial d.
Proof.
  intros Hc. unfold resetConn. apply safe_get. destruct (openConns d !! u) as [c|]; [|by apply safe_true].
  eapply safe_then; [by apply safe_drop_conn|]. intros _ d1 Hc1 _.
  eapply safe_then; [by apply safe_try_true, safe_Close|]. intros _ d2 Hc2 _. by apply safe_true.
Qed.

Lemma safe_mark_missing peers l d : coherent d → safe (mark_missing peers l) trivial d.
Proof.
  revert d. induction l as [|[k pi] l IH]; intros d Hc; cbn [mark_missing]; [by apply safe_true|].
  eapply safe_then; [|intros; by apply IH]. case_match; [by apply safe_true|].
  eapply safe_then; [by apply safe_onPeerTimeout|]. intros _ d' Hc' _.
  apply safe_modify; try done; [apply (co_conns _ Hc')| |apply (co_ring _ Hc')]. intros u pi'. cbn. rewrite lookup_alter_Some.
  intros [(-> & pi0 & Hpi & ->)|[_ ?]]; [|by apply (co_peers _ Hc')]. by apply (co_peers _ Hc') in Hpi.
Qed.

Lemma safe_UpdatePeerMap d : coherent d → safe UpdatePeerMap (λ pm _, ∀ u pi, pm !! u = Some pi → Address pi = addr u) d.
Proof.
  intros Hc. unfold UpdatePeerMap, updatePeerMap.
  eapply safe_then; [|intros _ d' Hc' _; apply safe_ret; [done|apply (co_peers _ Hc')]].
  eapply (safe_seq _ _ _ (λ x _, match x with inl l => Forall (λ pi, Address pi = addr (UUID pi)) l | inr _ => True end)).
  { apply safe_try; [by apply safe_GetPeers|done]. }
  intros [peers|e] d1 Hc1 _ Hl; [|by apply safe_true].
  eapply safe_then; [|intros _ d2 Hc2 _; apply safe_get; by apply safe_mark_missing].
  apply safe_modify; try done; [apply (co_conns _ Hc1)| |apply (co_ring _ Hc1)]. cbn. pose proof (co_peers _ Hc1) as Hpm. clear -Hl Hpm.
  revert Hpm. generalize (peersMap d1). induction Hl as [|p l Hp Hl IH]; intros m Hm; [done|]. cbn. apply IH.
  intros u pi. rewrite lookup_insert_Some. intros [[<- <-]|[_ ?]]; [done|by apply Hm].
Qed.

Lemma safe_getConn u d : coherent d → safe (getConn u) (λ o _, ∀ c, o = Some c → conn_addr c = addr u) d.
Proof.
  intros Hc. unfold getConn. apply safe_get. destruct (openConns d !! u) as [c|] eqn:Ec.
  { apply safe_ret; [done|]. intros c' [= <-]. by apply (co_conns _ Hc). }
  eapply (safe_seq _ _ _ (λ pm _, ∀ u pi, pm !! u = Some pi → Address pi = addr u)).
  { apply safe_ret; [done|apply (co_peers _ Hc)]. }
  intros pm d1 Hc1 _ Hpm. eapply (safe_seq _ _ _ (λ o _, ∀ pi, o = Some pi → Address pi = addr u)).
  { destruct (pm !! u) eqn:E; [apply safe_ret; [done|]; intros pi [= <-]; by apply Hpm|].
    eapply safe_seq; [by apply safe_UpdatePeerMap|]. intros pm' d2 Hc2 _ Hpm'. apply safe_ret; [done|]. intros pi. apply Hpm'. }
  intros [pi|] d2 Hc2 _ Hpi; [|by apply safe_ret]. destruct (TimedOut pi); [by apply safe_ret|].
  eapply (safe_seq _ _ _ (λ x _, ∀ c, x = inl c → conn_addr c = addr u)).
  { apply safe_try; [|done]. apply (safe_net _ (λ c _, ∀ c', inl c = inl c' → conn_addr c' = addr u)); [done|]. intros o n' E.
    destruct (Dial_holds P _ _ _ _ P_once (co_net _ Hc2) E) as (? & ? & Ho). split_and!; try done. destruct o as [c| |]; [|done|done].
    intros c' [= <-]. by rewrite Ho, (Hpi pi). }
  intros [c|e] d3 Hc3 _ Hx; [|by apply safe_ret]. eapply safe_then; [|intros; apply safe_ret; [done|]; intros c' [= <-]; by apply Hx].
  apply safe_modify; try done; [|apply (co_peers _ Hc3)|apply (co_ring _ Hc3)]. intros u' c'. cbn. rewrite lookup_insert_Some.
  intros [[<- <-]|[_ ?]]; [by apply Hx|by apply (co_conns _ Hc3)].
Qed.

Lemma safe_client_GetBlock u r d :
  coherent d → safe (client_GetBlock u r) (λ sl d', good r sl (blocks d') ∧ private (blocks d') sl) d.
Proof.
  intros Hc. unfold client_GetBlock. eapply safe_seq; [by apply safe_getConn|]. intros [c|] d1 Hc1 _ _; [|by apply safe_fail].
  eapply (safe_seq _ _ _ (λ x _, match x with inl b => P r b | inr _ => True end)).
  { apply safe_try; [|done]. apply (safe_net _ (λ b _, P r b)); [done|]. intros o n' E.
    by apply (Block_holds P _ _ _ _ _ P_once (co_net _ Hc1) E). }
  intros [b|e] d2 Hc2 _ Hb; [by apply safe_alloc|].
  eapply safe_then; [by apply safe_resetConn|]. intros. by apply safe_fail.
Qed.

(** The peer behind a UUID has the block of a buffer. *)
Definition sent_to (u : gostring) (r : BlockRef) (sl : slice) (d : dist) : Prop :=
  net_has (net d) (addr u) r (deref (blocks d) sl).

Lemma safe_client_PutBlock u r sl d :
  coherent d → good r sl (blocks d) → safe (client_PutBlock u r sl) (λ _ d', sent_to u r sl d') d.
Proof.
  intros Hc Hg. unfold client_PutBlock. eapply safe_seq; [by apply safe_getConn|].
  intros [c|] d1 Hc1 He1 Hu; [|by apply safe_fail]. apply (good_ext _ _ _ _ He1) in Hg. apply safe_get.
  set (b := deref (blocks d1) sl).
  eapply (safe_seq _ _ _ (λ x d', match x with inl _ => net_has (net d') (addr u) r b | inr _ => True end)).
  { apply safe_try; [|done]. apply (safe_net _ (λ _ n', net_has n' (addr u) r b)); [done|]. intros o n' E.
    rewrite <-(Hu c eq_refl). by apply (PutBlock_holds P _ _ _ _ _ _ P_once (co_net _ Hc1) (proj2 Hg) E). }
  intros [x|e] d2 Hc2 He2 Hx.
  - apply safe_ret; [done|]. unfold sent_to. destruct (ext_deref _ _ sl He2 (proj1 Hg)) as [_ ->]. done.
  - eapply safe_then; [by apply safe_resetConn|]. intros _ d3 Hc3 _. case_decide; by apply safe_fail.
Qed.

Lemma safe_client_Check u l d :
  coherent d →
  safe (client_Check u l) (λ oks d', Forall2 (λ r ok, ok = true → ∃ b, net_has (net d') (addr u) r b) l oks) d.
Proof.
  intros Hc. unfold client_Check. eapply safe_seq; [by apply safe_getConn|]. intros [c|] d1 Hc1 _ Hu; [|by apply safe_fail].
  set (Q := λ (oks : list bool) n, Forall2 (λ r ok, ok = true → ∃ b, net_has n (addr u) r b) l oks).
  eapply (safe_seq _ _ _ (λ x d', match x with inl oks => Q oks (net d') | inr _ => True end)).
  { apply safe_try; [|done]. apply (safe_net _ Q); [done|]. intros o n' E. unfold Q. rewrite <-(Hu c eq_refl).
    by apply (Check_holds P _ _ _ _ _ P_once (co_net _ Hc1) E). }
  intros [oks|e] d2 Hc2 _ Hx; [by apply safe_ret|].
  eapply safe_then; [by apply safe_resetConn|]. intros. by apply safe_fail.
Qed.

(** *** Reading *)

Definition returns (r : BlockRef) (sl : slice) (d : dist) : Prop := good r sl (blocks d).

Lemma safe_readFromPeer r u d : wf_blockref r → coherent d → safe (readFromPeer r u) (returns r) d.
Proof.
  intros Hwf Hc. unfold readFromPeer. eapply safe_seq; [by apply safe_client_GetBlock|]. intros sl d1 Hc1 _ [Hg Hpr].
  eapply safe_then; [by apply safe_cache_Put|]. intros _ d2 Hc2 He. apply safe_ret; [done|]. by eapply good_ext.
Qed.

(** A try whose result is returned if there is one. *)
Lemma safe_attempt r {A} (m : M dist slice) (f : slice → A) (g : error → M dist A) (Q : A → dist → Prop) d :
  safe m (returns r) d → (∀ sl d', coherent d' → returns r sl d' → Q (f sl) d') →
  (∀ e d', coherent d' → dist_ext d d' → safe (g e) Q d') →
  safe (x ← try m; match x with inl sl => mret (f sl) | inr e => g e end) Q d.
Proof.
  intros Hm Hf Hg. eapply (safe_seq _ _ _ (λ x d', match x with inl sl => returns r sl d' | inr _ => True end)).
  { by apply safe_try. }
  intros [sl|e] d' Hc He Hx; [apply safe_ret; [done|by apply Hf]|by apply Hg].
Qed.

Lemma safe_readSequential cfg r peers d : wf_blockref r → coherent d → safe (readSequential cfg r peers) (returns r) d.
Proof.
  intros Hwf. revert d. induction peers as [|p peers IH]; intros d Hc; cbn [readSequential]; [by apply safe_fail|].
  case_decide.
  - eapply (safe_attempt r _ (λ x, x)); [by apply safe_local_Get|done|]. intros. by apply IH.
  - eapply (safe_attempt r _ (λ x, x)); [by apply safe_readFromPeer|done|]. intros e d' Hc' _.
    case_decide; [by apply IH|by apply safe_fail].
Qed.

Lemma safe_read_tries n cfg r peers d : wf_blockref r → coherent d → safe (read_tries n cfg r peers) (returns r) d.
Proof.
  intros Hwf. revert d. induction n as [|n IH]; intros d Hc; cbn [read_tries]; [by apply safe_fail|].
  eapply (safe_attempt r _ (λ x, x)); [by apply safe_readSequential|done|]. intros. by apply IH.
Qed.

Lemma safe_spread r found order d :
  wf_blockref r → coherent d → (∀ sl, found = Some sl → returns r sl d) →
  safe (spread_all r found order) (λ o d', ∀ sl, o = Some sl → returns r sl d') d.
Proof.
  intros Hwf. revert found d. induction order as [|p order IH]; intros found d Hc Hf; cbn [spread_all]; [by apply safe_ret|].
  eapply (safe_seq _ _ _ (λ x d', match x with inl sl => returns r sl d' | inr _ => True end)).
  { apply safe_try; [by apply safe_readFromPeer|done]. }
  intros x d' Hc' He Hx. apply IH; [done|]. intros sl. destruct found as [sl0|]; [|destruct x; [by intros [= <-]|done]].
  intros [= <-]. eapply good_ext; [done|]. by apply Hf.
Qed.

Lemma safe_GetBlock cfg order r d : wf_blockref r → coherent d → safe (dist_GetBlock cfg order r) (returns r) d.
Proof.
  intros Hwf Hc. unfold dist_GetBlock. eapply safe_seq; [by apply safe_cache_Get|]. intros [sl|] d1 Hc1 _ Hg; [by apply safe_ret|].
  apply safe_get. eapply safe_then; [by apply safe_fail|]. intros perm d2 Hc2 _. case_decide; [by apply safe_fail|].
  eapply safe_then; [by apply safe_fail|]. intros first d3 Hc3 _.
  eapply (safe_seq _ _ _ (λ o d', ∀ sl, o = Some sl → returns r sl d')).
  { clear -Hc3 Hwf. induction first as [|p first IH]; cbn [try_local]; [by apply safe_ret|]. case_decide; [|done].
    eapply (safe_attempt r _ Some); [by apply safe_local_Get|by intros sl d' _ Hg sl' [= <-]|]. intros. by apply safe_ret. }
  intros [sl|] d4 Hc4 _ Hl; [apply safe_ret; [done|by apply Hl]|].
  destruct (CReadLevel cfg); [by apply safe_read_tries|by apply safe_readSequential|].
  unfold readSpread. case_decide; [by apply safe_fail|]. eapply safe_seq; [by apply safe_spread|].
  intros [sl|] d5 Hc5 _ Hs; [apply safe_ret; [done|by apply Hs]|by apply safe_fail].
Qed.

(** *** Writing *)

(** A buffer the caller gives to a write. *)
Definition to_write (r : BlockRef) (sl : slice) (s : S) : Prop :=
  good r sl s ∧ valid r ∧ Z.of_nat (length (deref s sl)) = Store.BlockSize s ∧ private s sl.

Lemma to_write_ext r sl d d' : dist_ext d d' → to_write r sl (blocks d) → to_write r sl (blocks d').
Proof.
  intros He (Hg & Hv & Hl & Hp). split; [by eapply good_ext|]. split; [done|].
  destruct (ext_deref _ _ sl He (proj1 Hg)) as [_ ->]. rewrite (ext_size _ _ (de_store _ _ He)). split; [done|].
  eapply private_ext; [done|apply Hg|done].
Qed.

(** The block of a buffer is at a peer, which may be this node. *)
Definition at_peer (cfg : Config) (p : gostring) (r : BlockRef) (b : bytes) (d : dist) : Prop :=
  if decide (p = CUUID cfg) then stored (blocks d) r = Some b else net_has (net d) (addr p) r b.
Lemma at_peer_ext cfg p r b d d' : dist_ext d d' → at_peer cfg p r b d → at_peer cfg p r b d'.
Proof. intros [_ Hk Hn]. unfold at_peer. case_decide; auto. Qed.
Lemma at_peer_durable cfg p r b d : at_peer cfg p r b d → durable r b d.
Proof. unfold at_peer. case_decide; [by left|right; by eexists]. Qed.

Definition acked (r : BlockRef) (sl : slice) (d : dist) : Prop := durable r (deref (blocks d) sl) d.
Lemma acked_ext r sl d d' : dist_ext d d' → live (blocks d) sl → acked r sl d → acked r sl d'.
Proof. intros He Hl Ha. unfold acked. destruct (ext_deref _ _ sl He Hl) as [_ ->]. by eapply durable_ext. Qed.

Lemma safe_local_Write r sl d :
  coherent d → to_write r sl (blocks d) →
  safe (local_Write r sl) (λ _ d', stored (blocks d') r = Some (deref (blocks d') sl)) d.
Proof.
  intros Hc ([Hlive Hp] & Hv & Hl & _). unfold local_Write. apply safe_get.
  eapply safe_mono; [apply safe_WriteBlock; try done; apply fits_size; [apply Hc|done]|].
  intros [] d' Hc' He Hs. by destruct (ext_deref _ _ sl He Hlive) as [_ ->].
Qed.

Lemma safe_write_peer cfg r sl p d :
  coherent d → to_write r sl (blocks d) →
  safe (write_peer cfg r sl p) (λ _ d', at_peer cfg p r (deref (blocks d') sl) d') d.
Proof.
  intros Hc Hw. unfold write_peer, at_peer. case_decide; [by apply safe_local_Write|].
  apply safe_client_PutBlock; [done|apply Hw].
Qed.

Lemma safe_write_here cfg r sl first d :
  coherent d → to_write r sl (blocks d) → safe (write_here cfg r sl first) (λ here d', here = true → acked r sl d') d.
Proof.
  revert d. induction first as [|p first IH]; intros d Hc Hw; cbn [write_here]; [by apply safe_ret|].
  case_decide; [|by apply IH].
  eapply (safe_seq _ _ _ (λ x d', match x with inl _ => stored (blocks d') r = Some (deref (blocks d') sl) | inr _ => True end)).
  { apply safe_try; [by apply safe_local_Write|done]. }
  intros [x|e] d' Hc' He Hx; [apply safe_ret; [done|by left]|]. apply IH; [done|]. by eapply to_write_ext.
Qed.
Lemma safe_write_remote r sl peers d :
  coherent d → good r sl (blocks d) → safe (write_remote r sl peers) (λ _ d', acked r sl d') d.
Proof.
  revert d. induction peers as [|p peers IH]; intros d Hc Hg; cbn [write_remote]; [by apply safe_fail|].
  eapply (safe_seq _ _ _ (λ x d', match x with inl _ => sent_to p r sl d' | inr _ => True end)).
  { apply safe_try; [by apply safe_client_PutBlock|done]. }
  intros [x|e] d' Hc' He Hx; [apply safe_ret; [done|right; by eexists]|]. apply IH; [done|]. by eapply good_ext.
Qed.

Lemma safe_write_one cfg r sl perm d :
  coherent d → to_write r sl (blocks d) → safe (write_one cfg r sl perm) (λ _ d', acked r sl d') d.
Proof.
  intros Hc Hw. unfold write_one. eapply safe_then; [by apply safe_fail|]. intros first d1 Hc1 He1.
  eapply safe_seq; [apply safe_write_here; [done|by eapply to_write_ext]|]. intros here d2 Hc2 He2 Hh.
  destruct here; [apply safe_ret; [done|by apply Hh]|]. apply safe_write_remote; [done|].
  eapply good_ext; [done|]. eapply good_ext; [done|apply Hw].
Qed.

(** *** What peers ask of the node *)

Lemma safe_serve_Block r d : coherent d → safe (serve_Block r) (returns r) d.
Proof.
  intros Hc. unfold serve_Block. eapply (safe_attempt r _ (λ x, x)); [by apply safe_local_Get|done|]. intros. by apply safe_fail.
Qed.

Lemma safe_serve_PutBlock r b d :
  coherent d → P r b → valid r → Z.of_nat (length b) = Store.BlockSize (blocks d) →
  safe (serve_PutBlock r b) (λ _ d', stored (blocks d') r = Some b) d.
Proof.
  intros Hc Hp Hv Hl. unfold serve_PutBlock. apply safe_get. eapply safe_then; [by apply safe_fail|]. intros perm d1 Hc1 He1.
  eapply (safe_seq _ _ _ (λ _ d', stored (blocks d') r = Some b)).
  { apply safe_WriteBlock; try done. apply fits_size; [apply Hc1|]. by rewrite (ext_size _ _ (de_store _ _ He1)). }
  intros _ d2 Hc2 _ Hst. apply (safe_blocks _ (λ _ s', stored s' r = Some b)); [done|].
  intros o s' E. destruct (Flush_same _ _ _ E) as [-> _].
  split; [apply store_ext_refl, Hc2|]. split; [apply (co_store _ Hc2)|]. split; [done|by destruct o].
Qed.

(** *** [WriteAll] *)

(** What the goroutines of a write keep: the peers that acknowledged the block
    have it. *)
Definition wsafe (cfg : Config) (rep : Z) (r : BlockRef) (sl : slice) (w : wstate) : Prop :=
  coherent (w_dist w) ∧ to_write r sl (blocks (w_dist w)) ∧
  (∀ p, p ∈ w_acked w → at_peer cfg p r (deref (blocks (w_dist w)) sl) (w_dist w)) ∧
  w_toWrite w = rep - Z.of_nat (length (w_acked w)).

Lemma wstep_safe cfg rep r sl peers n c w w' :
  wsafe cfg rep r sl w → wstep cfg r sl peers n c w = Some w' → wsafe cfg rep r sl w' ∧ dist_ext (w_dist w) (w_dist w').
Proof.
  intros (Hc & Hw & Ha & Ht). unfold wstep. destruct (w_crashed w); [done|]. pose proof (dist_ext_refl _ Hc) as He.
  destruct c as [| | |k].
  - case_decide; [|done]. destruct (peers !! w_index w); [|done]. by intros [= <-].
  - case_decide; [|done]. by intros [= <-].
  - destruct (w_queue w); [done|]. case_decide; [|done]. by intros [= <-].
  - destruct (w_busy w !! k) as [p|]; [|done]. pose proof (safe_write_peer cfg r sl p _ Hc Hw) as Hs. unfold safe in Hs.
    destruct (write_peer cfg r sl p (w_dist w)) as [o d'] eqn:Ew. intros [= <-]. cbn.
    destruct Hs as (Hc' & He' & Ho). split; [|done]. split; [done|]. split; [by eapply to_write_ext|]. cbn.
    assert (∀ q, q ∈ w_acked w → at_peer cfg q r (deref (blocks d') sl) d') as Hold.
    { intros q Hq. destruct (ext_deref _ _ sl He' (proj1 (proj1 Hw))) as [_ ->]. eapply at_peer_ext; [done|by apply Ha]. }
    destruct o as [[]|e|]; cbn; [|done|done]. split; [|rewrite length_app; cbn; lia].
    intros q. rewrite elem_of_app, list_elem_of_singleton. intros [?| ->]; [by apply Hold|done].
Qed.

Lemma wrun_safe cfg rep r sl peers n sched w :
  wsafe cfg rep r sl w →
  wsafe cfg rep r sl (wrun cfg r sl peers n sched w) ∧ dist_ext (w_dist w) (w_dist (wrun cfg r sl peers n sched w)).
Proof.
  revert w. induction sched as [|c sched IH]; intros w Hw; cbn [wrun]; [split; [done|]; apply dist_ext_refl, Hw|].
  destruct (wstep cfg r sl peers n c w) as [w'|] eqn:E; cbn; [|by apply IH].
  destruct (wstep_safe _ _ _ _ _ _ _ _ _ Hw E) as (Hw' & He). destruct (IH w' Hw') as (? & ?).
  split; [done|by eapply dist_ext_trans].
Qed.

Lemma wstart_safe cfg rep r sl d :
  coherent d → to_write r sl (blocks d) → wsafe cfg (int32 rep) r sl (wstart rep d).
Proof. intros Hc Hw. split_and!; try done; [by intros p ?%not_elem_of_nil|cbn; lia]. Qed.

Lemma safe_write_all cfg sched r sl perm d :
  coherent d → to_write r sl (blocks d) → safe (write_all cfg sched r sl perm) (λ _ d', acked r sl d') d.
Proof.
  intros Hc Hw. unfold safe, write_all. set (n := num_writers cfg perm).
  destruct (wrun_safe cfg _ r sl (Peers perm) n sched _ (wstart_safe cfg (Replication perm) r sl d Hc Hw))
    as [(Hc' & _ & Ha & Ht) He].
  case_decide; [|done]. case_decide as Hd; [done|]. split; [done|]. split; [done|].
  destruct (w_acked _) as [|p l]; [cbn in Ht; lia|]. eapply at_peer_durable, (Ha p). by left.
Qed.

Lemma safe_WriteBlock_dist cfg sched r sl d :
  wf_blockref r → coherent d → to_write r sl (blocks d) → safe (dist_WriteBlock cfg sched r sl) (λ _ d', acked r sl d') d.
Proof.
  intros Hwf Hc Hw. unfold dist_WriteBlock. apply safe_get. eapply safe_then; [by apply safe_fail|].
  intros perm d1 Hc1 He1. apply (to_write_ext _ _ _ _ He1) in Hw. case_decide; [by apply safe_fail|].
  assert (∀ d2 d3, to_write r sl (blocks d2) → dist_ext d2 d3 → coherent d3 → acked r sl d3 →
    safe (cache_Put r sl) (λ _ d', acked r sl d') d3) as Hput.
  { intros d2 d3 Hw2 He Hc3 Ha. destruct (to_write_ext _ _ _ _ He Hw2) as (Hg & _ & _ & Hpr).
    eapply safe_mono; [by apply safe_cache_Put|]. intros _ d4 _ He4 _. eapply acked_ext; [done|apply Hg|done]. }
  destruct (CWriteLevel cfg).
  - eapply (safe_seq _ _ _ (λ x d', match x with inl _ => acked r sl d' | inr _ => True end)).
    { apply safe_try; [by apply safe_write_all|done]. }
    intros [x|e] d2 Hc2 He2 Hx.
    + eapply safe_seq; [by eapply Hput|]. intros [] d3 Hc3 _ Ha. by apply safe_ret.
    + eapply safe_then; [by apply safe_cache_Put; try done; apply (to_write_ext _ _ _ _ He2 Hw)|]. intros. by apply safe_fail.
  - eapply safe_seq; [by apply safe_write_one|]. intros [] d2 Hc2 He2 Ha. by eapply Hput.
  - eapply (safe_seq _ _ _ (λ x d', match x with inl _ => acked r sl d' | inr _ => True end)).
    { apply safe_try; [|done]. eapply safe_mono; [by apply safe_local_Write|]. intros. by left. }
    intros [x|e] d2 Hc2 He2 Hx; [by eapply Hput|].
    eapply safe_seq; [apply safe_write_one; [done|by eapply to_write_ext]|]. intros [] d3 Hc3 He3 Ha.
    eapply (Hput d2); [by eapply to_write_ext|done|done|done].
Qed.
End dist.

(** ** Calls *)

Section run.
Context {S N : Type} `{L : BlockStoreLaws S} `{NL : NetworkLaws N} `{HH : HashRing} `{HR : Range} `{HO : MapOrder}.
Context (cfg : Config) (addr : gostring → gostring) (R : Ring → Prop).
Abbreviation dist := (Distributor (S := S) (N := N)).

(** A call of this node or of a peer; a schedule or an order of completion goes
    with the calls that start goroutines. *)
Inductive dop :=
  | DGet (order : PeerList → PeerList) (r : BlockRef)
  | DWrite (sched : list wchoice) (r : BlockRef) (b : bytes)
  | DServeGet (r : BlockRef)
  | DServePut (r : BlockRef) (b : bytes)
  | DRing (ring : Ring)
  | DPeers.

(** The writer hands over a new buffer and leaves it alone. *)
Definition run_dop (o : dop) : M dist (option bytes) :=
  match o with
  | DGet order r => sl ← dist_GetBlock cfg order r; d ← get; mret (Some (deref (blocks d) sl))
  | DWrite sched r b => sl ← alloc b; _ ← dist_WriteBlock cfg sched r sl; mret None
  | DServeGet r => sl ← serve_Block r; d ← get; mret (Some (deref (blocks d) sl))
  | DServePut r b => _ ← serve_PutBlock r b; mret None
  | DRing ring => _ ← watch_ring ring; mret None
  | DPeers => _ ← UpdatePeerMap; mret None
  end.

(** The calls respect that a reference has one content, of the size of a block. *)
Definition dop_ok (content : BlockRef → option bytes) (size : Z) (o : dop) : Prop :=
  match o with
  | DGet _ r => wf_blockref r
  | DWrite _ r b => wf_blockref r ∧ valid r ∧ content r = Some b ∧ Z.of_nat (length b) = size
  | DServePut r b => valid r ∧ content r = Some b ∧ Z.of_nat (length b) = size
  | DRing ring => R ring
  | _ => True
  end.

(** What a call may return. *)
Definition answer (content : BlockRef → option bytes) (o : dop) (x : res (option bytes)) : Prop :=
  match o, x with
  | DGet _ r, Ok x | DServeGet r, Ok x => ∃ b, x = Some b ∧ content r = Some b
  | _, _ => True
  end.

Abbreviation the content := (λ r b, content r = Some b).

Lemma content_once (content : BlockRef → option bytes) : once (the content).
Proof. intros r b b'. congruence. Qed.

Lemma run_dop_safe (content : BlockRef → option bytes) o (d : dist) :
  coherent addr R (the content) false d → dop_ok content (Store.BlockSize (blocks d)) o →
  safe addr R (the content) false (run_dop o)
    (λ x d', answer content o (Ok x) ∧ match o with DWrite _ r b => durable r b d' | _ => True end) d.
Proof.
  intros Hc Ho. pose proof (content_once content) as Honce.
  destruct o as [order r|sched r b|r|r b|ring|]; cbn in Ho; cbn [run_dop answer].
  - eapply safe_seq; [by apply safe_GetBlock|]. intros sl d' Hc' _ [_ Hd]. apply safe_get. apply safe_ret; [done|].
    split; [by eexists|done].
  - destruct Ho as (Hwf & Hv & Hb & Hl). eapply safe_seq; [by apply (safe_alloc _ _ _ _ r)|]. intros sl d' Hc' He [Hg Hpr].
    pose proof (proj2 Hg) as Hsl. cbn in Hsl. rewrite Hb in Hsl. injection Hsl as ->.
    eapply safe_seq; [apply safe_WriteBlock_dist; [done..|]|].
    { split; [done|]. split; [done|]. by rewrite (ext_size _ _ (de_store _ _ He)). }
    intros [] d2 Hc2 He2 Ha. apply safe_ret; [done|]. split; [done|]. unfold acked in Ha.
    by destruct (ext_deref _ _ sl He2 (proj1 Hg)) as [_ <-].
  - eapply safe_seq; [by apply safe_serve_Block|]. intros sl d' Hc' _ [_ Hd]. apply safe_get. apply safe_ret; [done|].
    split; [by eexists|done].
  - destruct Ho as (Hv & Hb & Hl). eapply safe_seq; [by apply safe_serve_PutBlock|]. intros. by apply safe_ret.
  - eapply safe_then; [|intros; by apply safe_ret]. unfold watch_ring. apply safe_get.
    case_decide; [by apply safe_true|]. case_decide; [by apply safe_fail|].
    apply safe_modify; try done; [apply (co_conns _ _ _ _ _ Hc)|apply (co_peers _ _ _ _ _ Hc)].
  - eapply safe_seq; [by apply safe_UpdatePeerMap|]. intros. by apply safe_ret.
Qed.

End run.

(** ** How many copies [WriteAll] leaves *)

Section copies.
Context {S N : Type} `{B : BlockStore S} `{HN : Network N} `{HH : HashRing} `{HR : Range} `{HO : MapOrder}.
Context (cfg : Config) (i : BlockRef) (data : slice).
Abbreviation dist := (Distributor (S := S) (N := N)).
Implicit Types (w : wstate (S := S) (N := N)) (peers : PeerList).

(** What the writers were answered, in the order in which they finished. *)
Definition attempt (c : wchoice) w : list (gostring * res unit) :=
  match c with
  | WDone k => match w_busy w !! k with Some p => [(p, (write_peer cfg i data p (w_dist w)).1)] | None => [] end
  | _ => []
  end.
Fixpoint attempts peers (writers : nat) (sched : list wchoice) w : list (gostring * res unit) :=
  match sched with
  | [] => []
  | c :: sched' =>
      match wstep cfg i data peers writers c w with
      | None => attempts peers writers sched' w
      | Some w' => attempt c w ++ attempts peers writers sched' w'
      end
  end.

(** The peers that took the block. *)
Definition took (att : list (gostring * res unit)) : PeerList := (filter (λ x, is_ok x.2 = true) att).*1.

Lemma took_app a b : took (a ++ b) = took a ++ took b.
Proof. unfold took. by rewrite list.filter_app, fmap_app. Qed.

(** What holds in every state the goroutines can reach: the peers handed out are
    waiting, being written to or were answered as [att] says; the counter says how
    many took the block; and the channel is closed only when there is no reason to
    go on. *)
Record winv (rep : Z) peers (att : list (gostring * res unit)) w : Prop := {
  wi_index : (w_index w ≤ length peers)%nat ∧ Z.of_nat (w_index w) ≤ Z.max 0 rep;
  wi_peers : take (w_index w) peers ≡ₚ w_queue w ++ w_busy w ++ att.*1;
  wi_acked : w_acked w = took att;
  wi_toWrite : w_toWrite w = rep - Z.of_nat (length (took att));
  wi_closed : w_closed w = true → (length peers ≤ w_index w)%nat ∨ w_toWrite w ≤ Z.of_nat (w_index w);
}.

Lemma delete_perm {A} (l : list A) k x : l !! k = Some x → l ≡ₚ x :: delete k l.
Proof.
  intros Hk. rewrite <-(take_drop_middle l k x Hk) at 1. rewrite delete_take_drop. symmetry. apply Permutation_middle.
Qed.

Lemma wstep_inv rep peers att n c w w' :
  winv rep peers att w → wstep cfg i data peers n c w = Some w' → winv rep peers (att ++ attempt c w) w'.
Proof.
  intros [[Hi1 Hi2] Hp Ha Ht Hcl] Hs. unfold wstep in Hs. unfold attempt. destruct (w_crashed w); [done|].
  destruct c as [| | |k]; try rewrite app_nil_r.
  - case_decide as Hd; [|done]. destruct Hd as [Hopen [Hl Hm]]. destruct (peers !! w_index w) as [p|] eqn:E; [|done].
    injection Hs as <-. split; cbn; try done; [split; lia|].
    rewrite Nat.add_1_r, (take_S_r _ _ _ E), Hp. solve_Permutation.
  - case_decide as Hd; [|done]. injection Hs as <-. split; cbn; try done. intros _. destruct Hd as [_ Hd]. unfold more in Hd. lia.
  - destruct (w_queue w) as [|p q]; [done|]. case_decide; [|done]. injection Hs as <-. split; cbn; try done.
    rewrite Hp. solve_Permutation.
  - destruct (w_busy w !! k) as [p|] eqn:E; [|done]. destruct (write_peer cfg i data p (w_dist w)) as [o d'] eqn:Ew.
    injection Hs as <-. pose proof (delete_perm _ _ _ E) as Hb. set (rest := delete k (w_busy w)) in *. clearbody rest.
    assert (took (att ++ [(p, o)]) = took att ++ if is_ok o then [p] else []) as Htk.
    { rewrite took_app. by destruct o. }
    split; cbn; try done.
    + rewrite Hp, Hb, fmap_app. cbn. solve_Permutation.
    + rewrite Htk, Ha. destruct (is_ok o); [done|by rewrite app_nil_r].
    + rewrite Htk, length_app. destruct (is_ok o); cbn; lia.
    + intros Hc. destruct (Hcl Hc); [by left|right]. destruct (is_ok o); lia.
Qed.

Lemma wrun_inv rep peers att n sched w :
  winv rep peers att w → winv rep peers (att ++ attempts peers n sched w) (wrun cfg i data peers n sched w).
Proof.
  revert att w. induction sched as [|c sched IH]; intros att w Hw; cbn [wrun attempts]; [by rewrite app_nil_r|].
  destruct (wstep cfg i data peers n c w) as [w'|] eqn:E; cbn; [|by apply IH].
  rewrite app_assoc. apply IH. by eapply wstep_inv.
Qed.

Lemma wstart_inv rep peers d : winv rep peers [] (mkW 0 rep [] false [] [] false d).
Proof. split; cbn; try done; lia. Qed.

Lemma int32_small n : 0 ≤ n < 2 ^ 31 → int32 n = n.
Proof. intros Hn. by apply to_signed_small. Qed.

End copies.

Section copies_kept.
Context {S N : Type} `{L : BlockStoreLaws S} `{NL : NetworkLaws N} `{HH : HashRing} `{HR : Range} `{HO : MapOrder}.
Context (cfg : Config) (addr : gostring → gostring) (R : Ring → Prop) (P : BlockRef → bytes → Prop) (P_once : once P) (cached : bool).
Abbreviation dist := (Distributor (S := S) (N := N)).

(** What the writers of a [WriteAll] were answered. *)
Definition answered (sched : list wchoice) (i : BlockRef) (data : slice) (perm : PeerPermutation) (d : dist) :
    list (gostring * res unit) :=
  attempts cfg i data (Peers perm) (num_writers cfg perm) sched (wstart (Replication perm) d).

Lemma write_all_run (sched : list wchoice) (i : BlockRef) (data : slice) (perm : PeerPermutation) (d d' : dist) (o : res unit) :
  coherent addr R P cached d → to_write P i data (blocks d) →
  0 ≤ Replication perm ≤ Z.of_nat (length (Peers perm)) → Replication perm < 2 ^ 31 →
  write_all cfg sched i data perm d = (o, d') → o ≠ Panic →
  let att := answered sched i data perm d in
  att.*1 ≡ₚ take (length att) (Peers perm) ∧ Z.of_nat (length att) ≤ Replication perm ∧
  (∀ p, p ∈ took att → at_peer addr cfg p i (deref (blocks d) data) d') ∧
  match o with
  | Ok _ => took att ≠ [] ∧ Replication perm ≤ Z.of_nat (length att) + Z.of_nat (length (took att))
  | _ => o = Err ErrNoPeer ∧ took att = [] ∧ Z.of_nat (length att) = Replication perm
  end.
Proof.
  intros Hco Hw Hrep H31 Ho Hnp att. unfold write_all in Ho.
  pose proof (wstart_safe addr R P cached cfg (Replication perm) i data d Hco Hw) as Hst.
  pose proof (wrun_safe addr R P P_once cached cfg _ i data (Peers perm) (num_writers cfg perm) sched _ Hst) as [(_ & _ & Hack & _) He].
  assert (winv (Replication perm) (Peers perm) [] (wstart (Replication perm) d)) as Hw0
    by (unfold wstart; rewrite int32_small by lia; apply wstart_inv).
  apply (wrun_inv cfg i data _ _ _ (num_writers cfg perm) sched) in Hw0. cbn [app] in Hw0.
  change (attempts _ _ _ _ _ _ _) with att in Hw0. rewrite int32_small in Ho by lia.
  set (w := wrun _ _ _ _ _ _ _) in *. destruct Hw0 as [[Hi1 Hi2] Hp Ha Ht Hcl].
  case_decide as Hd; [|by injection Ho as <- _]. destruct Hd as (Hc & Hq & Hb & _). rewrite Hq, Hb in Hp. cbn in Hp.
  assert (length att = w_index w) as Hl.
  { apply Permutation_length in Hp. rewrite length_take, length_fmap in Hp. lia. }
  specialize (Hcl Hc). assert (d' = w_dist w) as -> by (case_decide; by injection Ho).
  split; [by rewrite Hl|]. split; [lia|]. split.
  { intros p Hp'. destruct (ext_deref _ _ data He (proj1 (proj1 Hw))) as [_ Hdr]. rewrite <-Ha in Hp'. cbn [wstart w_dist] in Hdr.
    rewrite <-Hdr. by apply Hack. }
  case_decide as Hz; injection Ho as <-.
  - assert (took att = []) as Htk by (apply length_zero_iff_nil; lia). split_and!; [done|done|]. rewrite Htk in *. cbn in *. lia.
  - split; [intros Htk; rewrite Htk in Ht; cbn in Ht; lia|]. lia.
Qed.
End copies_kept.

(** ** What the code leaves alone *)

Section keeps.
Context {S N : Type} `{B : BlockStore S} `{HN : Network N} `{HH : HashRing} `{HR : Range} `{HO : MapOrder}.
Abbreviation dist := (Distributor (S := S) (N := N)).

Definition keeps {X A} (π : dist → X) (m : M dist A) : Prop := ∀ d, π (m d).2 = π d.

(** What the client does not touch. *)
Definition untouched {X} (π : dist → X) : Prop :=
  ∀ d n c p m, π (mkDist (blocks d) n c p m (readCache d) (dring d) (chansClosed d) (closed d)) = π d.

Lemma untouched_blocks : untouched blocks.
Proof. done. Qed.
Lemma untouched_cache : untouched readCache.
Proof. done. Qed.

Context {X : Type} (π : dist → X).
Lemma keeps_bind {A C} (m : M dist A) (f : A → M dist C) : keeps π m → (∀ a, keeps π (f a)) → keeps π (m ≫= f).
Proof.
  intros Hm Hf d. unfold mbind, M_bind. specialize (Hm d). destruct (m d) as [[a|e|] d1]; [|done|done].
  cbn in Hm. rewrite <-Hm. apply Hf.
Qed.
Lemma keeps_try {A} (m : M dist A) : keeps π m → keeps π (try m).
Proof. intros Hm d. unfold try. specialize (Hm d). by destruct (m d) as [[a|e|] d1]. Qed.
Lemma keeps_lift {A} (o : res A) : keeps π (lift o).
Proof. done. Qed.
Lemma keeps_ret {A} (a : A) : keeps π (mret a).
Proof. done. Qed.
Lemma keeps_throw {A} e : keeps π (throw (A := A) e).
Proof. done. Qed.
Lemma keeps_get : keeps π get.
Proof. done. Qed.
Lemma keeps_gets {A} (f : dist → A) : keeps π (gets f).
Proof. done. Qed.
Lemma keeps_net {A} (m : M N A) : untouched π → keeps π (on_net m).
Proof. intros Hu d. unfold on_net. destruct (m (net d)). apply Hu. Qed.
Lemma keeps_dmds {A} (m : M Server A) : untouched π → keeps π (on_dmds m).
Proof. intros Hu d. unfold on_dmds. destruct (m (dmds d)). apply Hu. Qed.
Lemma keeps_conns f : untouched π → keeps π (modify (λ d, set_openConns (f d) d)).
Proof. intros Hu d. apply Hu. Qed.
Lemma keeps_peers f : untouched π → keeps π (modify (λ d, set_peersMap (f d) d)).
Proof. intros Hu d. apply Hu. Qed.
End keeps.

Create HintDb keeps.
#[export] Hint Resolve keeps_bind keeps_try keeps_lift keeps_ret keeps_throw keeps_get keeps_gets keeps_net keeps_dmds
  keeps_conns keeps_peers untouched_blocks untouched_cache : keeps.
Ltac keeps_auto := repeat first [progress intros | case_match | solve [auto with keeps] | apply keeps_bind].

Section keeps_client.
Context {S N : Type} `{B : BlockStore S} `{HN : Network N} `{HH : HashRing} `{HR : Range} `{HO : MapOrder}.
Context {X : Type} (π : Distributor (S := S) (N := N) → X) (Hu : untouched π).

Lemma keeps_onPeerTimeout u : keeps π (onPeerTimeout u).
Proof. unfold onPeerTimeout. keeps_auto. Qed.
Lemma keeps_resetConn u : keeps π (resetConn u).
Proof. unfold resetConn. keeps_auto. Qed.
#[local] Hint Resolve keeps_onPeerTimeout keeps_resetConn : keeps.
Lemma keeps_mark_missing peers l : keeps π (mark_missing peers l).
Proof. induction l as [|[k pi] l IH]; cbn [mark_missing]; keeps_auto. Qed.
#[local] Hint Resolve keeps_mark_missing : keeps.
Lemma keeps_UpdatePeerMap : keeps π UpdatePeerMap.
Proof. unfold UpdatePeerMap, updatePeerMap, GetPeerMap. keeps_auto. Qed.
#[local] Hint Resolve keeps_UpdatePeerMap : keeps.
Lemma keeps_getConn u : keeps π (getConn u).
Proof. unfold getConn, GetPeerMap. keeps_auto. Qed.
#[local] Hint Resolve keeps_getConn : keeps.
Lemma keeps_client_PutBlock u r sl : keeps π (client_PutBlock u r sl).
Proof. unfold client_PutBlock. keeps_auto. Qed.
Lemma keeps_client_Check u l : keeps π (client_Check u l).
Proof. unfold client_Check. keeps_auto. Qed.
End keeps_client.
#[export] Hint Resolve keeps_client_PutBlock keeps_client_Check : keeps.

Section keeps_writes.
Context {S N : Type} `{B : BlockStore S} `{HN : Network N} `{HH : HashRing} `{HR : Range} `{HO : MapOrder}.
Abbreviation keeps_cache := (keeps (S := S) (N := N) readCache).

Lemma keeps_blocks {A} (m : M S A) : keeps_cache (on_blocks m).
Proof. intros d. unfold on_blocks. by destruct (m (blocks d)). Qed.
#[local] Hint Resolve keeps_blocks : keeps.
Lemma keeps_local_Write r sl : keeps_cache (local_Write r sl).
Proof. unfold local_Write. keeps_auto. Qed.
#[local] Hint Resolve keeps_local_Write : keeps.
Lemma keeps_write_peer cfg r sl p : keeps_cache (write_peer cfg r sl p).
Proof. unfold write_peer. keeps_auto. Qed.

Lemma keeps_wrun cfg r sl peers n sched (w : wstate (S := S) (N := N)) :
  readCache (w_dist (wrun cfg r sl peers n sched w)) = readCache (w_dist w).
Proof.
  revert w. induction sched as [|c sched IH]; intros w; cbn [wrun]; [done|]. rewrite IH.
  destruct (wstep cfg r sl peers n c w) as [w'|] eqn:E; [|done]. cbn. unfold wstep in E.
  destruct (w_crashed w); [done|]. destruct c as [| | |k].
  - case_decide; [|done]. destruct (peers !! w_index w); [|done]. by injection E as <-.
  - case_decide; [|done]. by injection E as <-.
  - destruct (w_queue w); [done|]. case_decide; [|done]. by injection E as <-.
  - destruct (w_busy w !! k) as [p|]; [|done]. pose proof (keeps_write_peer cfg r sl p (w_dist w)) as Hk.
    destruct (write_peer cfg r sl p (w_dist w)) as [o d']. injection E as <-. exact Hk.
Qed.
Lemma keeps_write_all cfg sched r sl perm : keeps_cache (write_all cfg sched r sl perm).
Proof.
  intros d. unfold write_all. repeat case_decide; apply (keeps_wrun _ _ _ _ _ _ (wstart (Replication perm) d)).
Qed.
Lemma keeps_write_one cfg r sl perm : keeps_cache (write_one cfg r sl perm).
Proof.
  unfold write_one. apply keeps_bind; [auto with keeps|]. intros first. apply keeps_bind.
  - induction first as [|p first IH]; cbn [write_here]; keeps_auto.
  - intros []; [auto with keeps|]. induction (Peers perm) as [|p peers IH]; cbn [write_remote]; keeps_auto.
Qed.
End keeps_writes.
#[export] Hint Resolve keeps_local_Write keeps_write_all keeps_write_one : keeps.

(** ** Writes that leave fewer copies *)

Section half.
Context {S N : Type} `{B : BlockStore S} `{HN : Network N} `{HH : HashRing} `{HR : Range} `{HO : MapOrder}.
Context (cfg : Config) (i : BlockRef) (data : slice).
Abbreviation dist := (Distributor (S := S) (N := N)).

(** The state after the peers of a list were written to one after the other. *)
Definition after (d : dist) (l : PeerList) : dist := foldl (λ d p, (write_peer cfg i data p d).2) d l.

(** One writer is faster than the loop that feeds it. *)
Definition eager (k : nat) : list wchoice := mjoin (replicate k [WFeed; WTake; WDone 0]) ++ [WClose].

(** The state in which the first [j] peers have acknowledged the block. *)
Definition round (perm : PeerPermutation) (j : nat) (d : dist) : wstate :=
  mkW j (Replication perm - Z.of_nat j) [] false [] (take j (Peers perm)) false d.

Lemma eager_round perm n d j d1 p sched :
  (1 ≤ n)%nat → Peers perm !! j = Some p → 2 * Z.of_nat j < Replication perm → write_peer cfg i data p d = (Ok tt, d1) →
  wrun cfg i data (Peers perm) n (WFeed :: WTake :: WDone 0 :: sched) (round perm j d)
  = wrun cfg i data (Peers perm) n sched (round perm (Datatypes.S j) d1).
Proof.
  intros Hn Hp Hj Hw. pose proof (lookup_lt_Some _ _ _ Hp) as Hl. unfold round. cbn [wrun].
  set (t := Replication perm - Z.of_nat j). set (a := take j (Peers perm)).
  assert (wstep cfg i data (Peers perm) n WFeed (mkW j t [] false [] a false d)
    = Some (mkW (j + 1) t [p] false [] a false d)) as ->.
  { cbn. rewrite decide_True by (split; [done|]; split; cbn; lia). by rewrite Hp. }
  assert (wstep cfg i data (Peers perm) n WTake (mkW (j + 1) t [p] false [] a false d)
    = Some (mkW (j + 1) t [] false [p] a false d)) as E2 by (cbn; by rewrite decide_True by lia).
  assert (wstep cfg i data (Peers perm) n (WDone 0) (mkW (j + 1) t [] false [p] a false d)
    = Some (mkW (j + 1) (t - 1) [] false [] (a ++ [p]) false d1)) as E3 by (cbn; by rewrite Hw).
  cbn [from_option Datatypes.id]. rewrite E2. cbn [from_option Datatypes.id]. rewrite E3.
  cbn [from_option Datatypes.id]. rewrite Nat.add_1_r, (take_S_r _ _ _ Hp). do 2 f_equal. unfold t. lia.
Qed.

Lemma after_take d (l : PeerList) j p : l !! j = Some p → after d (take (Datatypes.S j) l) = (write_peer cfg i data p (after d (take j l))).2.
Proof. intros Hp. unfold after. by rewrite (take_S_r _ _ _ Hp), foldl_app. Qed.

Lemma eager_rounds (perm : PeerPermutation) (n : nat) (d : dist) (j m : nat) :
  (1 ≤ n)%nat → (j + m ≤ length (Peers perm))%nat → 2 * (Z.of_nat (j + m) - 1) < Replication perm →
  (∀ k p, (k < j + m)%nat → Peers perm !! k = Some p →
    (write_peer cfg i data p (after d (take k (Peers perm)))).1 = Ok tt) →
  wrun cfg i data (Peers perm) n (mjoin (replicate m [WFeed; WTake; WDone 0]) ++ [WClose])
    (round perm j (after d (take j (Peers perm))))
  = wrun cfg i data (Peers perm) n [WClose] (round perm (j + m) (after d (take (j + m) (Peers perm)))).
Proof.
  intros Hn Hl Hr Hok. revert j Hl Hr Hok. induction m as [|m IH]; intros j Hl Hr Hok.
  { cbn [replicate mjoin list_join app]. by rewrite Nat.add_0_r. }
  destruct (lookup_lt_is_Some_2 (Peers perm) j) as [p Hp]; [lia|]. pose proof (after_take d _ _ _ Hp) as Ha.
  pose proof (Hok j p ltac:(lia) Hp) as Hw. destruct (write_peer cfg i data p _) as [o d1] eqn:E. cbn in Hw, Ha. subst o.
  change (mjoin (replicate (Datatypes.S m) [WFeed; WTake; WDone 0]) ++ [WClose])
    with (WFeed :: WTake :: WDone 0 :: (mjoin (replicate m [WFeed; WTake; WDone 0]) ++ [WClose])).
  rewrite (eager_round _ _ _ _ d1 p) by (done || lia). rewrite <-Ha, IH; [|lia..|].
  - by replace (Datatypes.S j + m)%nat with (j + Datatypes.S m)%nat by lia.
  - intros k q Hk. apply Hok. lia.
Qed.

(** [WriteAll] can report success with half of the copies although no write
    fails.  If a writer acknowledges each peer before the next one is handed out,
    the loop stops after the first half of the replication, rounded up, because it
    compares its index with the counter of writes still to do, which the writers
    count down; with a replication of two the block is at one peer only. *)
Theorem write_all_half (perm : PeerPermutation) (d : dist) (k : nat) :
  0 < Replication perm ≤ Z.of_nat (length (Peers perm)) → Replication perm < 2 ^ 31 → (1 ≤ GOMAXPROCS cfg)%nat →
  Z.of_nat k = (Replication perm + 1) / 2 →
  (∀ j p, (j < k)%nat → Peers perm !! j = Some p →
    (write_peer cfg i data p (after d (take j (Peers perm)))).1 = Ok tt) →
  ∃ sched, write_all cfg sched i data perm d = (Ok tt, after d (take k (Peers perm))).
Proof.
  intros Hrep H31 Hgo Hk Hok. assert (2 * (Z.of_nat k - 1) < Replication perm ≤ 2 * Z.of_nat k) as Hk2.
  { pose proof (Z.div_mod (Replication perm + 1) 2 ltac:(lia)) as Hd.
    pose proof (Z.mod_pos_bound (Replication perm + 1) 2 ltac:(lia)) as Hm. lia. }
  exists (eager k). unfold write_all, eager, wstart. rewrite int32_small by lia.
  pose proof (eager_rounds perm (num_writers cfg perm) d 0 k) as Hr. unfold round in Hr.
  rewrite Z.sub_0_r, take_0 in Hr. cbn [Nat.add] in Hr. change (after d []) with d in Hr. rewrite Hr; try done; try lia.
  2: { unfold num_writers. rewrite int32_small by lia. lia. }
  set (w := mkW k _ [] false [] _ false _). assert (wrun cfg i data (Peers perm) (num_writers cfg perm) [WClose] w
    = mkW k (w_toWrite w) [] true [] (w_acked w) false (w_dist w)) as ->.
  { cbn [wrun]. unfold wstep. cbn [w w_crashed]. rewrite decide_True; [done|].
    split; [done|]. intros [_ Hm]. cbn in Hm. lia. }
  rewrite decide_True by done. rewrite decide_False by (cbn; lia). done.
Qed.
End half.

Section cached.
Context {S N : Type} `{L : BlockStoreLaws S} `{NL : NetworkLaws N} `{HH : HashRing} `{HR : Range} `{HO : MapOrder}.
Context (cfg : Config) (addr : gostring → gostring) (R : Ring → Prop) (P : BlockRef → bytes → Prop) (P_once : once P).
Abbreviation dist := (Distributor (S := S) (N := N)).
Abbreviation with_cache := (coherent addr R P true).

(** A block in the cache is what a read returns, whatever else is where. *)
Lemma cache_put_get order r sl (d : dist) :
  with_cache d →
  ∃ d1 sl' d2, cache_Put r sl d = (Ok tt, d1) ∧ blocks d1 = blocks d ∧ dist_GetBlock cfg order r d1 = (Ok sl', d2) ∧
    blocks d2 = blocks d ∧ deref (blocks d) sl' = deref (blocks d) sl.
Proof.
  intros Hc. pose proof (co_cached _ _ _ _ _ Hc eq_refl) as Hn. destruct (readCache d) as [c|] eqn:E; [clear Hn|done].
  destruct (co_cache _ _ _ _ _ Hc c E) as (Hmax & l & Hr & _).
  unfold cache_Put, on_cache. rewrite (bind_step get _ d d d) by done. rewrite E.
  set (eqb := λ x y, bool_decide (deref (blocks d) x = deref (blocks d) y)). set (k := BlockRef_ToBytes r).
  destruct (Put_run eqb c l k sl) as (c1 & l1 & Hp & Hr1 & Hm1 & Hl1); [intros x; by apply bool_decide_eq_true|done..|].
  rewrite Hp. destruct (lru_get_run eqb c1 l1 k Hr1) as (c2 & l2 & Hg & _).
  assert (∃ sl', (spec_get k l1.*2).1 = Some sl' ∧ deref (blocks d) sl' = deref (blocks d) sl) as (sl' & Hs & Hd).
  { rewrite Hl1. unfold spec_put, spec_get. destruct (assoc k l.*2) as [v'|] eqn:Ea; [destruct (eqb v' sl) eqn:Eq|];
      cbn; rewrite decide_True by done; cbn; [|by exists sl..]. exists v'. split; [done|]. by apply bool_decide_eq_true in Eq. }
  eexists _, sl', _. split; [done|]. split; [done|]. unfold dist_GetBlock, cache_Get, on_cache, mbind, M_bind. cbn [readCache set_readCache].
  unfold LRU.Get. fold k. rewrite Hg, Hs. done.
Qed.

(** A write that failed is read back all the same.  When [WriteAll] returns
    ErrNoPeer, no peer having taken the block, the block was put into the read cache
    nevertheless, and a read of the same node returns it. *)
Theorem failed_write_cached (sched : list wchoice) order (r : BlockRef) (sl : slice) (d d' : dist) :
  with_cache d → to_write P r sl (blocks d) → wf_blockref r → CWriteLevel cfg = WriteAll →
  dist_WriteBlock cfg sched r sl d = (Err ErrNoPeer, d') → Ring.GetPeers (dring d) r ≠ Err ErrNoPeer →
  ∃ sl' d2, dist_GetBlock cfg order r d' = (Ok sl', d2) ∧ deref (blocks d') sl' = deref (blocks d') sl.
Proof.
  intros Hc Hw Hwf Hlv. unfold dist_WriteBlock. rewrite (bind_step get _ d d d) by done. rewrite Hlv.
  destruct (Ring.GetPeers (dring d) r) as [perm|e|]; [|intros [= -> _] Hne; by destruct Hne|by intros [=]].
  rewrite (bind_step (lift _) _ d perm d) by done. case_decide; [by intros [= <-]|]. intros Hrun _.
  pose proof (safe_write_all addr R P P_once true cfg sched r sl perm d Hc Hw) as Hs. unfold safe in Hs.
  unfold mbind, M_bind, try in Hrun. destruct (write_all cfg sched r sl perm d) as [o d1]. destruct Hs as (Hc1 & _).
  destruct (cache_put_get order r sl d1 Hc1) as (d2 & sl' & d3 & Hp & Hb & Hg & _ & Hd).
  destruct o as [[]|e|]; [| |done]; rewrite Hp in Hrun; unfold mret, M_ret, throw in Hrun; [done|]. injection Hrun as -> <-.
  exists sl', d3. split; [done|]. by rewrite Hb.
Qed.

(** A successful write ends with the buffer put into the cache. *)
Lemma write_then_put sched r sl (d d' : dist) :
  dist_WriteBlock cfg sched r sl d = (Ok tt, d') →
  ∃ d1, readCache d1 = readCache d ∧ cache_Put r sl d1 = (Ok tt, d').
Proof.
  unfold dist_WriteBlock. rewrite (bind_step get _ d d d) by done. intros Hrun.
  apply bind_ok in Hrun as (perm & d0 & Hp & Hrun). assert (d0 = d) as -> by (by injection Hp).
  case_decide; [done|]. destruct (CWriteLevel cfg).
  - apply bind_ok in Hrun as (x & d1 & Hx & Hrun). apply bind_ok in Hrun as ([] & d2 & Hc & Hrun).
    exists d1. split; [pose proof (keeps_try readCache _ (keeps_write_all cfg sched r sl perm) d) as Hk; by rewrite Hx in Hk|].
    destruct x; [|done]. by injection Hrun as <-.
  - apply bind_ok in Hrun as ([] & d1 & Hx & Hrun). exists d1. split; [|done].
    pose proof (keeps_write_one cfg r sl perm d) as Hk. by rewrite Hx in Hk.
  - apply bind_ok in Hrun as (x & d1 & Hx & Hrun).
    pose proof (keeps_try readCache _ (keeps_local_Write r sl) d) as Hk. rewrite Hx in Hk. cbn in Hk. destruct x as [x|e]; [by exists d1|].
    apply bind_ok in Hrun as ([] & d2 & Hy & Hrun). exists d2. split; [|done].
    pose proof (keeps_write_one cfg r sl perm d1) as Hk2. rewrite Hy in Hk2. cbn in Hk2. congruence.
Qed.

(** The read cache keeps the caller's buffer.  After a successful write of a
    buffer whose block was not cached, a caller that writes into the buffer again
    changes what reads of the block it wrote before return. *)
Theorem written_buffer_shared (sched : list wchoice) order (r : BlockRef) (sl : slice) (b : bytes) (d d' : dist) :
  with_cache d → to_write P r sl (blocks d) → wf_blockref r →
  (∀ c l, readCache d = Some c → repr c l → assoc (BlockRef_ToBytes r) l.*2 = None) →
  dist_WriteBlock cfg sched r sl d = (Ok tt, d') → length b = length (deref (blocks d') sl) →
  let '(_, d1) := on_blocks (λ s, (Ok tt, copy_to sl 0 b s)) d' in
  ∃ d2, dist_GetBlock cfg order r d1 = (Ok sl, d2) ∧ deref (blocks d2) sl = b.
Proof.
  intros Hc Hw Hwf Hnew Hrun Hb. pose proof (safe_WriteBlock_dist addr R P P_once true cfg sched r sl d Hwf Hc Hw) as Hs. unfold safe in Hs.
  rewrite Hrun in Hs. destruct Hs as (Hc' & He & _). destruct (write_then_put _ _ _ _ _ Hrun) as (d1 & Hrc & Hput).
  pose proof (co_cached _ _ _ _ _ Hc eq_refl) as Hn. destruct (readCache d) as [c|] eqn:E; [clear Hn|done].
  destruct (co_cache _ _ _ _ _ Hc c E) as (Hmax & l & Hr & _).
  unfold cache_Put, on_cache in Hput. rewrite (bind_step get _ d1 d1 d1), Hrc in Hput by done.
  destruct (Put_run (λ x y, bool_decide (deref (blocks d1) x = deref (blocks d1) y)) c l (BlockRef_ToBytes r) sl)
    as (c1 & l1 & Hp & Hr1 & Hm1 & Hl1); [intros x; by apply bool_decide_eq_true|done..|].
  rewrite Hp in Hput. injection Hput as <-. cbn [on_blocks blocks set_readCache] in *.
  destruct (lru_get_run (λ _ _, true) c1 l1 (BlockRef_ToBytes r) Hr1) as (c2 & l2 & Hg & _).
  rewrite Hl1 in Hg. unfold spec_put in Hg. rewrite (Hnew c l) in Hg by done. unfold spec_get in Hg. cbn [assoc] in Hg.
  rewrite decide_True in Hg by done. unfold on_blocks.
  destruct (copy_to_spec (blocks d1) sl 0 b) as (_ & _ & _ & Hcp & _); [apply Hc'|by eapply (ext_deref _ _ _ He), Hw|cbn in *; lia|].
  eexists. unfold dist_GetBlock, cache_Get, on_cache, mbind, M_bind, LRU.Get. cbn [readCache set_readCache]. rewrite Hg.
  split; [done|]. cbn. rewrite Hcp. unfold blit. cbn in Hb. rewrite take_0, (take_ge b), drop_ge by lia. by rewrite app_nil_r.
Qed.

(** A spread read of a block only this node should have never returns when the
    node does not have it: there is no other peer to ask, and the [select] waits for
    answers of nobody. *)
Theorem spread_read_hangs order (r : BlockRef) (d : dist) (perm : PeerPermutation) :
  inv (blocks d) → is_open (blocks d) → readCache d = None → CReadLevel cfg = ReadSpread →
  Ring.GetPeers (dring d) r = Ok perm → Replication perm = 1 → Peers perm = [CUUID cfg] →
  stored (blocks d) r = None → (dist_GetBlock cfg order r d).1 = Panic.
Proof.
  intros Hi Ho Hc Hlv Hp Hrep Hpeers Hst. destruct (GetBlock_missing (blocks d) r Hi Ho) as [e Hg].
  { unfold stored in Hst. by destruct (backing (blocks d) r). }
  assert (try (local_Get r) d = (Ok (inr e), d)) as Hl by (unfold try, local_Get, on_blocks; rewrite Hg; by destruct d).
  unfold dist_GetBlock. rewrite (bind_step (cache_Get r) _ d None d) by (unfold cache_Get, on_cache; by rewrite Hc).
  rewrite (bind_step get _ d d d) by done. rewrite (bind_step (lift _) _ d perm d) by (unfold lift; by rewrite Hp).
  rewrite Hpeers, Hrep, decide_False by done. rewrite (bind_step (lift _) _ d [CUUID cfg] d) by done.
  rewrite (bind_step (try_local _ _ _) _ d None d).
  2: { cbn [try_local]. rewrite decide_True by auto. by run_step Hl. }
  rewrite Hlv. unfold readSpread. rewrite filter_cons_False by tauto. by rewrite decide_True by done.
Qed.
End cached.
