(* ===== verification/Cluster.v ===== *)
(** * A cluster of distributors

    Composes nodes: the network of a node is the other nodes, each of which
    answers a call with the handlers of [src/distributor/rpc.go].  A list of
    faults says which requests and which replies are lost; a call that arrives is
    carried out as a whole, as by the handlers of [Grpc] and unlike a put over
    [Tdp] whose connection breaks.  The cluster satisfies the laws the proofs about
    the distributor ask of a network, and it is the network of their examples.  A
    handler that panics is answered with an error. *)
From stdpp Require Import pretty.
From S2P Require Import Prelude GoSem GoStrings Refs TempStore Store Crc32 Blockset Proto Models INodeStore File Ring Metadata MetaTemp LRU Distributor DistributorSpec.
From Stdlib Require String.

(** A node that calls nobody: the handlers do not use the network. *)
#[export] Instance no_network : Network unit := {|
  conn := Empty_set;
  DialRPC := λ _, throw ErrNoPeer;
  conn_Block := λ _ _, throw ErrNoPeer;
  conn_PutBlock := λ _ _ _, throw ErrNoPeer;
  conn_RebalanceCheck := λ _ _, throw ErrNoPeer;
  conn_Close := λ _, throw ErrNoPeer;
|}.
#[export] Program Instance no_network_laws : NetworkLaws unit := {|
  conn_addr := λ _, [];
  net_holds := λ _ _, True;
  net_has := λ _ _ _ _, False;
|}.
Next Obligation. done. Qed.
Next Obligation. intros P a n o n' _ _ [= <- <-]. done. Qed.
Solve Obligations with intros P [].

Inductive fault := Fine | LostRequest | LostReply.
#[export] Instance fault_eq_dec : EqDecision fault.
Proof. solve_decision. Defined.

Definition ErrReset : error := ErrMsg "connection reset by peer".

Section cluster.
Context {S : Type} `{L : BlockStoreLaws S} `{HH : HashRing} `{HR : Range} `{HO : MapOrder}.

Abbreviation node := (Distributor (S := S) (N := unit)).

Record cluster := mkCluster { nodes : gmap gostring node; faults : list fault }.

(** What the caller sees of the outcome of a handler. *)
Definition reply {A} (f : fault) (o : res A) : res A :=
  match f, o with
  | Fine, Panic => Err ErrReset
  | Fine, o => o
  | _, _ => Err ErrDeadlineExceeded
  end.

(** One call of the node at an address. *)
Definition call {A} (a : gostring) (m : M node A) : M cluster A := λ c,
  let f := default Fine (head (faults c)) in
  match nodes c !! a with
  | None => (Err ErrReset, mkCluster (nodes c) (tail (faults c)))
  | Some d =>
      let '(o, d') := if decide (f = LostRequest) then (Panic, d) else m d in
      (reply f o, mkCluster (<[a := d']> (nodes c)) (tail (faults c)))
  end.

(** The bytes of the block a handler answers with go over the wire. *)
Definition handle_Block (r : BlockRef) : M node bytes :=
  sl ← serve_Block r; d ← get; mret (deref (blocks d) sl).

#[export] Instance cluster_network : Network cluster := {|
  conn := gostring;
  DialRPC := λ a, call a (mret a);
  conn_Block := λ a r, call a (handle_Block r);
  conn_PutBlock := λ a r b, call a (serve_PutBlock r b);
  conn_RebalanceCheck := λ a l, call a (serve_RebalanceCheck l);
  conn_Close := λ _, mret tt;
|}.

(** No call panics at the caller. *)
Lemma call_quiet {A} a (m : M node A) c : (call a m c).1 ≠ Panic.
Proof.
  unfold call. destruct (nodes c !! a) as [d|]; [|done]. destruct (if decide _ then _ else _) as [o d']. cbn.
  by destruct (default Fine (head (faults c))), o.
Qed.

(** The nodes are those at the addresses [A].  Every node is coherent and open and
    has blocks of one size; the rings it uses have the property [R]. *)
Definition cluster_holds (addr : gostring → gostring) (R : Ring → Prop) (size : Z) (A : gset gostring)
    (P : BlockRef → bytes → Prop) (c : cluster) : Prop :=
  dom (nodes c) = A ∧ (∀ r b, P r b → valid r ∧ Z.of_nat (length b) = size) ∧
  ∀ (a : gostring) (d : node), nodes c !! a = Some d →
    coherent addr R P false d ∧ is_open (blocks d) ∧ Store.BlockSize (blocks d) = size.
Definition cluster_has (c : cluster) (a : gostring) (r : BlockRef) (b : bytes) : Prop :=
  ∃ d, nodes c !! a = Some d ∧ stored (blocks d) r = Some b.

Lemma call_holds {X} addr R size A P a (m : M node X) (Q : X → node → Prop) c o c' :
  cluster_holds addr R size A P c →
  (∀ d, coherent addr R P false d → (∀ r b, P r b → valid r ∧ Z.of_nat (length b) = Store.BlockSize (blocks d)) →
    safe addr R P false m Q d) →
  call a m c = (o, c') →
  cluster_holds addr R size A P c' ∧ (∀ a r b, cluster_has c a r b → cluster_has c' a r b) ∧
  match o with Ok x => ∃ d, nodes c' !! a = Some d ∧ Q x d | _ => True end.
Proof.
  intros (HA & HP & Hc) Hm. unfold call. destruct (nodes c !! a) as [d|] eqn:E; [|by intros [= <- <-]].
  destruct (Hc _ _ E) as (Hd & Hop & Hsz). pose proof (Hm d Hd) as Hs. rewrite Hsz in Hs. specialize (Hs HP). unfold safe in Hs.
  case_decide as Hf.
  { rewrite Hf. intros [= <- <-]. by rewrite (insert_id _ _ _ E). }
  destruct (m d) as [o1 d1] eqn:Em. destruct Hs as (Hc1 & He & HQ). intros [= <- <-].
  pose proof (de_store _ _ He) as Hst. split_and!.
  - split; [|split; [done|]].
    + cbn. rewrite dom_insert_L, HA. apply elem_of_dom_2 in E. rewrite HA in E. set_solver.
    + intros a' d'. cbn. rewrite lookup_insert_Some. intros [[<- <-]|[_ ?]]; [|by eapply Hc].
      split; [done|]. split; [by apply (ext_open _ _ Hst)|by rewrite (ext_size _ _ Hst)].
  - intros a' r b (d' & Ha' & Hstd). destruct (decide (a' = a)) as [->|Hne].
    + rewrite Ha' in E. injection E as ->. exists d1. cbn. rewrite lookup_insert_eq. split; [done|]. by apply (de_kept _ _ He).
    + exists d'. cbn. by rewrite lookup_insert_ne by done.
  - unfold reply. destruct (default Fine _); [|done|done]. destruct o1 as [x|e|]; [|done|done]. exists d1. cbn.
    by rewrite lookup_insert_eq.
Qed.

Lemma safe_handle_Block addr R P r (d : node) : coherent addr R P false d → safe addr R P false (handle_Block r) (λ b _, P r b) d.
Proof.
  intros Hc. unfold handle_Block. eapply safe_seq; [by apply safe_serve_Block|]. intros sl d' Hc' _ [_ Hd].
  apply safe_get. by apply safe_ret.
Qed.

Lemma safe_RebalanceCheck addr R P l (d : node) :
  coherent addr R P false d →
  safe addr R P false (serve_RebalanceCheck l)
    (λ oks d', Forall2 (λ r ok, ok = true → ∃ b, stored (blocks d') r = Some b) l oks) d.
Proof.
  intros Hc. assert (serve_RebalanceCheck l d = (Ok ((λ r, bool_decide (is_Some (backing (blocks d) r))) <$> l), d)) as E.
  { induction l as [|r l IH]; [done|]. cbn [serve_RebalanceCheck].
    rewrite (bind_step _ _ d (bool_decide (is_Some (backing (blocks d) r))) d).
    - by rewrite (bind_step _ _ d _ d IH).
    - unfold on_blocks. rewrite HasBlock_run by apply Hc. by destruct d. }
  unfold safe. rewrite E. split; [done|]. split; [by eapply dist_ext_refl|]. clear E. induction l as [|r l IH]; [constructor|].
  constructor; [|done]. rewrite bool_decide_eq_true. intros [sl Hsl]. exists (deref (blocks d) sl). unfold stored. by rewrite Hsl.
Qed.

(** The cluster keeps the laws of a network: they follow from the handlers. *)
#[program] Definition cluster_laws (addr : gostring → gostring) (R : Ring → Prop) (size : Z) (A : gset gostring) :
    NetworkLaws cluster := {|
  conn_addr := λ a, a;
  net_holds := cluster_holds addr R size A;
  net_has := cluster_has;
|}.
Next Obligation.
  intros addr R size A P c a r b (_ & _ & Hc) (d & Hd & Hs). destruct (Hc _ _ Hd) as (Hco & _). by apply (co_store _ _ _ _ _ Hco).
Qed.
Next Obligation.
  intros addr R size A P a c o c' _ Hc E.
  destruct (call_holds _ _ _ _ P a _ (λ x _, x = a) c o c' Hc (λ d H _, safe_ret _ _ _ _ a _ _ H eq_refl) E) as (? & ? & Ho).
  split_and!; try done. destruct o as [x|e|]; [|done|done]. by destruct Ho as (_ & _ & ?).
Qed.
Next Obligation.
  intros addr R size A P a r c o c' _ Hc E.
  destruct (call_holds _ _ _ _ P a _ (λ b _, P r b) c o c' Hc (λ d H _, safe_handle_Block addr R P r d H) E) as (? & ? & Ho).
  split_and!; try done. destruct o as [b|e|]; [|done|done]. by destruct Ho as (_ & _ & ?).
Qed.
Next Obligation.
  intros addr R size A P a r b c o c' Hon Hc Hp E.
  destruct (call_holds _ _ _ _ P a (serve_PutBlock r b) (λ _ d, stored (blocks d) r = Some b) c o c' Hc) with (2 := E) as (? & ? & Ho).
  { intros d Hd Hsz. destruct (Hsz r b Hp). by apply safe_serve_PutBlock. }
  split_and!; done.
Qed.
Next Obligation.
  intros addr R size A P a l c o c' _ Hc E.
  destruct (call_holds _ _ _ _ P a _ _ c o c' Hc (λ d H _, safe_RebalanceCheck addr R P l d H) E) as (? & ? & Ho).
  split_and!; try done. destruct o as [oks|e|]; [|done|done]. destruct Ho as (d & Hd & Hoks).
  eapply Forall2_impl; [|exact Hoks]. intros r ok Hok Ht. destruct (Hok Ht) as [b Hb]. by exists b, d.
Qed.
Next Obligation. intros addr R size A P a c o c' _ Hc [= <- <-]. done. Qed.
End cluster.

(** ** Examples *)

(** Three nodes and a ring over some of them; the node [a] is the caller. *)
#[local] Instance cx_hash : HashRing := {|
  HR := list gostring;
  NewWithWeights := λ w, (map_to_list w).*1;
  GetNodes := λ r _ n, (take (Z.to_nat n) r, bool_decide (0 ≤ n ≤ Z.of_nat (length r)));
|}.
#[local] Existing Instance map_range.
#[local] Instance cx_order : MapOrder := {| 
  map_order := λ A m, map_to_list m; map_order_perm := λ A m, reflexivity _;
  ref_order := λ A m, map_to_list m; ref_order_perm := λ A m, reflexivity _ |}.

Definition cx_peer (x a : byte) : PeerInfo := mkPeerInfo [x] [a] 0 8 0 false None 0.
Definition cx_a : PeerInfo := cx_peer x61 x41.
Definition cx_b : PeerInfo := cx_peer x62 x42.
Definition cx_c : PeerInfo := cx_peer x63 x43.
Definition cx_mds (r : Ring) : Server :=
  mkServer false ∅ 0 ∅ (mkGlobal 4 []) [cx_a; cx_b; cx_c] r ∅ [] [].
Definition cx_store : tempBlockStore := mkTemp ∅ 1 (Some ∅) 8 "current" 4.
Definition cx_node (r : Ring) : Distributor (S := tempBlockStore) (N := unit) :=
  mkDist cx_store tt ∅ ∅ (cx_mds r) None r false false.
Definition cx_net (r : Ring) (f : list fault) : cluster (S := tempBlockStore) :=
  mkCluster (<[[x42] := cx_node r]> (<[[x43] := cx_node r]> ∅)) f.
Definition cx_dist (c : option (cache positive)) (r : Ring) (f : list fault) :
    Distributor (S := tempBlockStore) (N := cluster (S := tempBlockStore)) :=
  mkDist cx_store (cx_net r f) ∅ ∅ (cx_mds r) c r false false.
Definition cx_cfg : Config := mkConfig [x61] WriteAll ReadSequential 400 2.

Definition cx_ref : BlockRef := mkBlockRef (mkINodeRef 1 2) 3.
Definition cx_data : bytes := [x01; x02; x03; x04].
Definition cx_content (r : BlockRef) : option bytes := if decide (r = cx_ref) then Some cx_data else None.
Definition cx_the (r : BlockRef) (b : bytes) : Prop := cx_content r = Some b.
(** Both peers of a replication of two are handed out before either is written. *)
Definition cx_sched : list wchoice := [WFeed; WFeed; WClose; WTake; WTake; WDone 1; WDone 0].

Lemma cx_store_inv : inv cx_store.
Proof. apply (open_inv "current" 32 4); [lia|reflexivity]. Qed.
Lemma cx_store_none r : stored cx_store r = None.
Proof. done. Qed.

Definition cx_any (r : Ring) : Prop := True.

(** The address of [a] is [A] and so on. *)
Definition cx_addr (u : gostring) : gostring := match u with [x61] => [x41] | [x62] => [x42] | _ => [x43] end.

Lemma cx_mds_addr r pi : pi ∈ MetaTemp.peers (cx_mds r) → Address pi = cx_addr (UUID pi).
Proof. cbn. rewrite !elem_of_cons. by intros [->|[->|[->|?%not_elem_of_nil]]]. Qed.

Lemma cx_node_ok R r : R r → coherent cx_addr R cx_the false (cx_node r).
Proof. intros HR. split; try done; [exact cx_store_inv|apply cx_mds_addr]. Qed.
Lemma cx_the_size r b : cx_the r b → valid (S := tempBlockStore) r ∧ Z.of_nat (length b) = 4.
Proof. unfold cx_the, cx_content. case_decide; [|done]. by intros [= <-]. Qed.

(** The nodes [b] and [c] are the network of [a]. *)
Definition cx_peers : gset gostring := {[[x42]; [x43]]}.
Definition cx_laws (R : Ring → Prop) : NetworkLaws cluster := cluster_laws cx_addr R 4 cx_peers.
Abbreviation cx_coh R := (coherent (NL := cx_laws R) cx_addr R cx_the).

Lemma cx_coherent (R : Ring → Prop) (cached : bool) (c : option (cache positive)) r f :
  R r → c = (if cached then Some (newCache 100) else None) → cx_coh R cached (cx_dist c r f).
Proof.
  intros HR ->. split; try done.
  - exact cx_store_inv.
  - split; [unfold cx_peers; cbn [net cx_dist cx_net nodes]; by rewrite !dom_insert_L, dom_empty_L, (right_id_L ∅ (∪))|].
    split; [exact cx_the_size|]. intros a d Hd. assert (d = cx_node r) as ->.
    { cbn in Hd. rewrite !lookup_insert_Some in Hd. by destruct Hd as [[_ <-]|[_ [[_ <-]|[_ Hd]]]]. }
    split; [by apply cx_node_ok|]. split; [by eexists|done].
  - apply cx_mds_addr.
  - cbn. intros c Hc. destruct cached; [|done]. injection Hc as <-. split; [cbn; lia|]. exists []. split; [apply new_repr|constructor].
  - by intros ->.
Qed.

Lemma cx_ref_wf : wf_blockref cx_ref.
Proof. repeat split; cbn; lia. Qed.
Lemma cx_write_ok R s : dop_ok (S := tempBlockStore) R cx_content 4 (DWrite s cx_ref cx_data).
Proof. split; [exact cx_ref_wf|]. split_and!; [done| |done]. unfold cx_content. by rewrite decide_True. Qed.

Definition cx_ring : Ring := mod_ 1 2 [cx_b; cx_c].
Definition cx_start (f : list fault) := cx_dist None cx_ring f.

Definition cx_buf : slice (S := tempBlockStore) := 1%positive.

(** The state with the block to write in a buffer. *)
Definition cx_loaded (c : option (cache positive)) (r : Ring) (f : list fault) := (alloc cx_data (cx_dist c r f)).2.
Definition cx_perm : PeerPermutation := mkPermutation 2 [[x62]; [x63]; [x61]].

(** One of the two peers gets the block. *)
Definition cx_half := after cx_cfg cx_ref cx_buf (cx_loaded None cx_ring []) [[x62]].

Lemma write_all_half_witness :
  (∃ sched, write_all cx_cfg sched cx_ref cx_buf cx_perm (cx_loaded None cx_ring []) = (Ok tt, cx_half)) ∧
  (λ d : Distributor (N := unit), stored (blocks d) cx_ref) <$> nodes (net cx_half) !! [x43] = Some None.
Proof.
  split; [|vm_compute; reflexivity].
  apply (write_all_half (S := tempBlockStore) (N := cluster) cx_cfg cx_ref cx_buf cx_perm (cx_loaded None cx_ring []) 1).
  - cbn. lia.
  - cbn. lia.
  - cbn. lia.
  - reflexivity.
  - intros j p Hj Hp. assert (j = 0%nat) as -> by lia. injection Hp as <-. vm_compute. reflexivity.
Defined.

Lemma cx_to_write (cached : bool) c r f :
  c = (if cached then Some (newCache 100) else None) →
  cx_coh cx_any cached (cx_loaded c r f) ∧ to_write cx_the cx_ref cx_buf (blocks (cx_loaded c r f)).
Proof.
  intros Hc.
  assert (cx_the cx_ref cx_data) as Hd by (unfold cx_the, cx_content; by rewrite decide_True).
  pose proof (safe_alloc (NL := cx_laws cx_any) cx_addr cx_any cx_the cached cx_ref cx_data _ (cx_coherent cx_any cached c r f I Hc) Hd) as (Hc' & _ & Hg & Hp).
  split; [exact Hc'|]. split; [exact Hg|]. split; [done|]. split; [done|exact Hp].
Qed.

Lemma cx_once : once cx_the.
Proof. unfold cx_the. intros r b b'. congruence. Qed.

(** Neither peer can be dialled. *)
Definition cx_lost : list fault := [LostRequest; LostRequest].

Lemma failed_write_cached_witness :
  let d' := (dist_WriteBlock cx_cfg cx_sched cx_ref cx_buf (cx_loaded (Some (newCache 100)) cx_ring cx_lost)).2 in
  ∃ sl' d2, dist_GetBlock cx_cfg (λ l, l) cx_ref d' = (Ok sl', d2) ∧ deref (blocks d') sl' = deref (blocks d') cx_buf.
Proof.
  destruct (cx_to_write true _ cx_ring cx_lost eq_refl) as [Hc Hw].
  assert ((dist_WriteBlock cx_cfg cx_sched cx_ref cx_buf (cx_loaded (Some (newCache 100)) cx_ring cx_lost)).1
    = Err ErrNoPeer) as E by (vm_compute; reflexivity).
  destruct (dist_WriteBlock cx_cfg cx_sched cx_ref cx_buf (cx_loaded (Some (newCache 100)) cx_ring cx_lost)) as [o d'] eqn:Ew.
  cbn in E. subst o. cbn [snd].
  apply (failed_write_cached (S := tempBlockStore) (N := cluster) (NL := cx_laws cx_any) cx_cfg cx_addr cx_any cx_the cx_once
    cx_sched (λ l, l) cx_ref cx_buf _ d' Hc Hw cx_ref_wf eq_refl Ew).
  vm_compute. discriminate.
Defined.

Lemma written_buffer_shared_witness :
  let d' := (dist_WriteBlock cx_cfg cx_sched cx_ref cx_buf (cx_loaded (Some (newCache 100)) cx_ring [])).2 in
  let d1 := (on_blocks (λ s, (Ok tt, copy_to cx_buf 0 [x09; x09; x09; x09] s)) d').2 in
  ∃ d2, dist_GetBlock cx_cfg (λ l, l) cx_ref d1 = (Ok cx_buf, d2) ∧ deref (blocks d2) cx_buf = [x09; x09; x09; x09].
Proof.
  destruct (cx_to_write true _ cx_ring [] eq_refl) as [Hc Hw].
  assert ((dist_WriteBlock cx_cfg cx_sched cx_ref cx_buf (cx_loaded (Some (newCache 100)) cx_ring [])).1 = Ok tt) as E
    by (vm_compute; reflexivity).
  assert (length (deref (blocks (dist_WriteBlock cx_cfg cx_sched cx_ref cx_buf
    (cx_loaded (Some (newCache 100)) cx_ring [])).2) cx_buf) = 4%nat) as El by (vm_compute; reflexivity).
  destruct (dist_WriteBlock cx_cfg cx_sched cx_ref cx_buf (cx_loaded (Some (newCache 100)) cx_ring [])) as [o d'] eqn:Ew.
  cbn in E. subst o. cbn [snd] in El |- *.
  apply (written_buffer_shared (S := tempBlockStore) (N := cluster) (NL := cx_laws cx_any) cx_cfg cx_addr cx_any cx_the cx_once
    cx_sched (λ l, l) cx_ref cx_buf [x09; x09; x09; x09] _ d' Hc Hw cx_ref_wf); [|exact Ew|by rewrite El].
  intros c l Hcc Hr. cbn in Hcc. injection Hcc as <-. destruct l as [|x l]; [done|].
  pose proof (r_priority _ _ Hr) as Hp. discriminate Hp.
Defined.

(** This node is the whole ring and has no such block. *)
Lemma spread_read_hangs_witness :
  (dist_GetBlock (mkConfig [x61] WriteAll ReadSpread 0 2) (λ l, l) cx_ref
    (cx_dist None (single 1 cx_a (mkPermutation 1 [[x61]])) [])).1 = Panic.
Proof.
  apply (spread_read_hangs (S := tempBlockStore) (N := cluster)) with (perm := mkPermutation 1 [[x61]]); try done.
  - exact cx_store_inv.
  - by eexists.
Defined.
