(* ===== verification/Registry.v ===== *)
(** * Registries of implementations and the set-up of a server

    Models the maps in which packages register their constructors: those of
    [src/metadata.go] (metadata services, and how they are initialized, wiped and given
    a ring), of [src/storage.go] (block stores) and of
    [src/distributor/protocols/protocols.go] (listeners and dialers); and [NewServer]
    of [src/local_server.go], which makes a server of the two it is asked for.  A map
    that is nil is an empty one: only a first registration makes it. *)
From S2P Require Import Prelude GoSem.
From Stdlib Require Import Strings.String.

(** Registering a name twice panics; so does calling what is not registered, which is
    a nil function. *)
Section registry.
Context {F : Type}.
Abbreviation registry := (gmap string F).

Definition register_once (name : string) (f : F) (m : registry) : res registry :=
  match m !! name with Some _ => Panic | None => Ok (<[name := f]> m) end.
Definition call_registered {A} (m : registry) (name : string) (k : F → res A) : res A :=
  f ← or_panic (m !! name); k f.
Definition find_registered {A} (e : error) (m : registry) (name : string) (k : F → res A) : res A :=
  match m !! name with Some f => k f | None => Err e end.

(** The registrations of the packages, in the order they are initialized in. *)
Fixpoint register_all (l : list (string * F)) (m : registry) : res registry :=
  match l with
  | [] => Ok m
  | (name, f) :: l' => m' ← register_once name f m; register_all l' m'
  end.

Lemma register_all_run l m : NoDup l.*1 → (∀ name, name ∈ l.*1 → m !! name = None) →
  register_all l m = Ok (list_to_map l ∪ m).
Proof.
  revert m. induction l as [|[name f] l IH]; intros m Hn Hm; [cbn; by rewrite (left_id_L ∅ (∪))|]. rewrite fmap_cons in Hn, Hm.
  apply list.NoDup_cons in Hn as [Hname Hn]. cbn. unfold register_once. rewrite Hm by (by left). cbn. rewrite IH; [|done|].
  - f_equal. rewrite <-insert_union_r by (by apply not_elem_of_list_to_map_1). by rewrite insert_union_l.
  - intros name' Hin. rewrite lookup_insert_ne; [apply Hm; by right|]. intros ->. by apply Hname.
Qed.

(** The order in which packages register does not matter, as long as no name is used
    twice; if one is, the program does not start. *)
Lemma registrations_commute l l' : l ≡ₚ l' → NoDup l.*1 → register_all l ∅ = register_all l' ∅.
Proof.
  intros Hp Hn. rewrite !register_all_run; [|by rewrite <-Hp|by intros; apply lookup_empty|done|by intros; apply lookup_empty].
  by rewrite (list_to_map_proper l l' Hn Hp).
Qed.
Lemma registered_twice l name f g l' l'' m : register_all (l ++ (name, f) :: l' ++ (name, g) :: l'') m = Panic.
Proof.
  assert (∀ l1 m1, is_Some (m1 !! name) → register_all (l1 ++ (name, g) :: l'') m1 = Panic) as Hsnd.
  { induction l1 as [|[n h] l1 IH]; intros m1 Hm; cbn; unfold register_once at 1.
    - by destruct Hm as [? ->].
    - destruct (m1 !! n) eqn:E; [done|]. cbn. apply IH. rewrite lookup_insert_ne; [done|]. intros ->. rewrite E in Hm. by destruct Hm. }
  revert m. induction l as [|[n h] l IH]; intros m; cbn; unfold register_once at 1.
  - destruct (m !! name); [done|]. cbn. apply Hsnd. rewrite lookup_insert_eq. by eexists.
  - destruct (m !! n); [done|]. apply IH.
Qed.
End registry.

(** ** The registries *)

Section registries.
Context {Config GlobalMetadata MetadataService BlockStore Ring RingType URL RPC RPCServer Server : Type}.

Abbreviation CreateMetadataServiceFunc := (Config → res MetadataService).
Abbreviation InitMDSFunc := (Config → GlobalMetadata → RingType → res unit).
Abbreviation WipeMDSFunc := (Config → res unit).
Abbreviation SetRingFunc := (Config → Ring → res unit).
Abbreviation NewBlockStoreFunc := (string → Config → GlobalMetadata → res BlockStore).
Abbreviation RPCDialerFunc := (URL → Z → GlobalMetadata → res RPC).
Abbreviation RPCListenerFunc := (URL → RPC → GlobalMetadata → res RPCServer).

Definition RegisterMetadataService (name : string) (newFunc : CreateMetadataServiceFunc) := register_once name newFunc.
Definition CreateMetadataService (metadataServices : gmap string CreateMetadataServiceFunc) (name : string) (cfg : Config) : res MetadataService :=
  find_registered (ErrMsg "torus: the metadata service doesn't exist") metadataServices name (λ mdsf, mdsf cfg).

Definition RegisterMetadataInit (name : string) (newFunc : InitMDSFunc) := register_once name newFunc.
Definition InitMDS (initMDSFuncs : gmap string InitMDSFunc) (name : string) (cfg : Config) (gmd : GlobalMetadata) (ringType : RingType) : res unit :=
  call_registered initMDSFuncs name (λ f, f cfg gmd ringType).

Definition RegisterMetadataWipe (name : string) (newFunc : WipeMDSFunc) := register_once name newFunc.
Definition WipeMDS (wipeMDSFuncs : gmap string WipeMDSFunc) (name : string) (cfg : Config) : res unit :=
  call_registered wipeMDSFuncs name (λ f, f cfg).

Definition RegisterSetRing (name : string) (newFunc : SetRingFunc) := register_once name newFunc.
Definition torus_SetRing (setRingFuncs : gmap string SetRingFunc) (name : string) (cfg : Config) (r : Ring) : res unit :=
  call_registered setRingFuncs name (λ f, f cfg r).

Definition RegisterBlockStore (name : string) (newFunc : NewBlockStoreFunc) := register_once name newFunc.
Definition CreateBlockStore (blockStores : gmap string NewBlockStoreFunc) (kind name : string) (cfg : Config) (gmd : GlobalMetadata) : res BlockStore :=
  call_registered blockStores kind (λ f, f name cfg gmd).

(** The scheme of the address is the name. *)
Definition RegisterRPCListener (scheme : string) (newFunc : RPCListenerFunc) := register_once scheme newFunc.
Definition ListenRPC (rpcListeners : gmap string RPCListenerFunc) (scheme : URL → string) (url : URL) (handler : RPC) (gmd : GlobalMetadata) : res RPCServer :=
  find_registered (ErrMsg "Unknown ListenRPC protocol") rpcListeners (scheme url) (λ f, f url handler gmd).
Definition RegisterRPCDialer (scheme : string) (newFunc : RPCDialerFunc) := register_once scheme newFunc.
Definition DialRPC (rpcDialers : gmap string RPCDialerFunc) (scheme : URL → string) (url : URL) (timeout : Z) (gmd : GlobalMetadata) : res RPC :=
  find_registered (ErrMsg "Unknown DialRPC protocol") rpcDialers (scheme url) (λ f, f url timeout gmd).

(** ** A server *)

(** The directories are made from the outer one in; [mkdir] is [os.MkdirAll], and the
    path [dir] is one that [filepath.Join] leaves as it is. *)
Definition MkdirsFor (mkdir : string → res unit) (dir : string) : res unit :=
  if decide (dir = "")%string then mret tt
  else
    _ ← mkdir dir;
    _ ← mkdir (dir ++ "/metadata")%string;
    mkdir (dir ++ "/block")%string.

Definition NewServer (mkdir : string → res unit) (metadataServices : gmap string CreateMetadataServiceFunc)
    (blockStores : gmap string NewBlockStoreFunc) (global : MetadataService → GlobalMetadata) (DataDir : Config → string)
    (byImpl : Config → MetadataService → BlockStore → Server) (cfg : Config) (metadataServiceKind blockStoreKind : string) : res Server :=
  _ ← MkdirsFor mkdir (DataDir cfg);
  mds ← CreateMetadataService metadataServices metadataServiceKind cfg;
  blocks ← CreateBlockStore blockStores blockStoreKind "current" cfg (global mds);
  mret (byImpl cfg mds blocks).

(** A server is made of what is registered under the two names.  A metadata service
    that is not registered is an error, a block store that is not panics. *)
Lemma new_server_cases mkdir ms bs global DataDir byImpl cfg mk bk :
  MkdirsFor mkdir (DataDir cfg) = Ok tt →
  NewServer mkdir ms bs global DataDir byImpl cfg mk bk =
  match ms !! mk with
  | None => Err (ErrMsg "torus: the metadata service doesn't exist")
  | Some f =>
      mds ← f cfg;
      match bs !! bk with
      | None => Panic
      | Some g => b ← g "current"%string cfg (global mds); mret (byImpl cfg mds b)
      end
  end.
Proof.
  intros Hm. unfold NewServer. rewrite Hm. cbn. unfold CreateMetadataService, find_registered. destruct (ms !! mk) as [f|]; [|done].
  destruct (f cfg) as [mds| |]; [|done..]. cbn. unfold CreateBlockStore, call_registered. by destruct (bs !! bk).
Qed.
End registries.
