(* ===== verification/Heartbeat.v ===== *)
(** * The server of a node and its heartbeat

    Models [src/server.go], [src/heartbeat.go], [NewServerByImpl] of
    [src/local_server.go], [openReplication] of [src/distributor/replication.go] and
    [GetUUID] of [src/metadata/common.go].  The block store, the metadata service and
    what the callbacks change are the state; the time and the interfaces of the host
    are arguments.  Every call is run alone, so the mutexes are left out; the
    heartbeat goroutine is a sequence of [oneHeartbeat]. *)
From S2P Require Import Prelude GoSem GoStrings Refs TempStore Store Crc32 Blockset Proto Models INodeStore File Ring Metadata MetaTemp EtcdKeys Etcd LRU Distributor.

(** ** Addresses *)

Definition colon : byte := Byte.x3a.
Definition lbracket : byte := Byte.x5b.
Definition rbracket : byte := Byte.x5d.

(** [strings.IndexByte] and [last] of the package [net]. *)
Fixpoint IndexByte (s : gostring) (c : byte) : option nat :=
  match s with
  | [] => None
  | x :: s' => if decide (x = c) then Some O else S <$> IndexByte s' c
  end.
Fixpoint LastByte (s : gostring) (c : byte) : option nat :=
  match s with
  | [] => None
  | x :: s' =>
      match LastByte s' c with
      | Some i => Some (S i)
      | None => if decide (x = c) then Some O else None
      end
  end.

Definition errMissingPort : error := ErrMsg "missing port in address".
Definition errTooManyColons : error := ErrMsg "too many colons in address".
Definition errMissingBracket : error := ErrMsg "missing ']' in address".
Definition errUnexpectedOpen : error := ErrMsg "unexpected '[' in address".
Definition errUnexpectedClose : error := ErrMsg "unexpected ']' in address".

(** [net.SplitHostPort] *)
Definition SplitHostPort (hostport : gostring) : res (gostring * gostring) :=
  match LastByte hostport colon with
  | None => Err errMissingPort
  | Some i =>
      '(host, j, k) ← (if decide (head hostport = Some lbracket) then
          match IndexByte hostport rbracket with
          | None => Err errMissingBracket
          | Some e =>
              if decide (e + 1 = length hostport)%nat then Err errMissingPort
              else if decide (e + 1 = i)%nat then Ok (take (e - 1) (drop 1 hostport), 1%nat, (e + 1)%nat)
              else if decide (hostport !! (e + 1)%nat = Some colon) then Err errTooManyColons
              else Err errMissingPort
          end
        else
          let host := take i hostport in
          match IndexByte host colon with
          | Some _ => Err errTooManyColons
          | None => Ok (host, O, O)
          end);
      match IndexByte (drop j hostport) lbracket, IndexByte (drop k hostport) rbracket with
      | Some _, _ => Err errUnexpectedOpen
      | None, Some _ => Err errUnexpectedClose
      | None, None => Ok (host, drop (i + 1) hostport)
      end
  end.

(** An address of the host: its text, and what the code asks about it. *)
Record IPNet := mkIPNet { ip_String : gostring; IsLoopback : bool; To4 : bool }.

(** A [url.URL] whose other fields are empty, with a host that needs no escapes. *)
Record URL := mkURL { Scheme : gostring; Host : gostring }.
Definition url_String (u : URL) : gostring :=
  match Scheme u with [] => [] | s => s ++ str ":" end ++
  match Host u with [] => [] | h => str "//" ++ h end.

(** ** The metadata service, as far as the server uses it *)

(** [RegisterPeer] may change the peer it is given, also when it fails. *)
Class PeerService (D : Type) := {
  mds_UUID : D → gostring;
  mds_GetLease : M D Z;
  mds_RenewLease : Z → M D unit;
  mds_RegisterPeer : Z → Z → PeerInfo → M D (PeerInfo * option error);
  mds_GetPeers : Z → M D PeerInfoList;
}.

Section server.
Context {S D C : Type} `{B : BlockStore S} `{HO : MapOrder} `{PS : PeerService D}.


(** [closeChans] says of each channel whether it is closed; [callbacks] is what the
    functions in [timeoutCallbacks] change. *)
Record TorusServer := mkTServer {
  sBlocks : S;
  sMDS : D;
  sPeersMap : gmap gostring PeerInfo;
  closeChans : list bool;
  peerInfo : PeerInfo;
  lease : Z;
  heartbeating : bool;
  ReplicationOpen : bool;
  timeoutCallbacks : list (gostring → M C unit);
  callbacks : C;
}.

Definition on_sBlocks {A} (m : M S A) : M TorusServer A := λ s,
  let '(r, b) := m (sBlocks s) in
  (r, mkTServer b (sMDS s) (sPeersMap s) (closeChans s) (peerInfo s) (lease s) (heartbeating s) (ReplicationOpen s) (timeoutCallbacks s) (callbacks s)).
Definition on_sMDS {A} (m : M D A) : M TorusServer A := λ s,
  let '(r, d) := m (sMDS s) in
  (r, mkTServer (sBlocks s) d (sPeersMap s) (closeChans s) (peerInfo s) (lease s) (heartbeating s) (ReplicationOpen s) (timeoutCallbacks s) (callbacks s)).
Definition on_callbacks {A} (m : M C A) : M TorusServer A := λ s,
  let '(r, c) := m (callbacks s) in
  (r, mkTServer (sBlocks s) (sMDS s) (sPeersMap s) (closeChans s) (peerInfo s) (lease s) (heartbeating s) (ReplicationOpen s) (timeoutCallbacks s) c).
Definition set_sBlocks (b : S) (s : TorusServer) : TorusServer :=
  mkTServer b (sMDS s) (sPeersMap s) (closeChans s) (peerInfo s) (lease s) (heartbeating s) (ReplicationOpen s) (timeoutCallbacks s) (callbacks s).
Definition set_sPeersMap (m : gmap gostring PeerInfo) (s : TorusServer) : TorusServer :=
  mkTServer (sBlocks s) (sMDS s) m (closeChans s) (peerInfo s) (lease s) (heartbeating s) (ReplicationOpen s) (timeoutCallbacks s) (callbacks s).
Definition set_closeChans (l : list bool) (s : TorusServer) : TorusServer :=
  mkTServer (sBlocks s) (sMDS s) (sPeersMap s) l (peerInfo s) (lease s) (heartbeating s) (ReplicationOpen s) (timeoutCallbacks s) (callbacks s).
Definition set_peerInfo (p : PeerInfo) (s : TorusServer) : TorusServer :=
  mkTServer (sBlocks s) (sMDS s) (sPeersMap s) (closeChans s) p (lease s) (heartbeating s) (ReplicationOpen s) (timeoutCallbacks s) (callbacks s).
Definition set_lease (l : Z) (s : TorusServer) : TorusServer :=
  mkTServer (sBlocks s) (sMDS s) (sPeersMap s) (closeChans s) (peerInfo s) l (heartbeating s) (ReplicationOpen s) (timeoutCallbacks s) (callbacks s).
Definition set_heartbeating (h : bool) (s : TorusServer) : TorusServer :=
  mkTServer (sBlocks s) (sMDS s) (sPeersMap s) (closeChans s) (peerInfo s) (lease s) h (ReplicationOpen s) (timeoutCallbacks s) (callbacks s).
Definition set_ReplicationOpen (o : bool) (s : TorusServer) : TorusServer :=
  mkTServer (sBlocks s) (sMDS s) (sPeersMap s) (closeChans s) (peerInfo s) (lease s) (heartbeating s) o (timeoutCallbacks s) (callbacks s).

Definition NewServerByImpl (mds : D) (blocks : S) (c : C) : TorusServer :=
  mkTServer blocks mds ∅ [] (mkPeerInfo (mds_UUID mds) [] 0 0 0 false None 0) 0 false false [] c.

Definition AddTimeoutCallback (f : gostring → M C unit) (s : TorusServer) : TorusServer :=
  mkTServer (sBlocks s) (sMDS s) (sPeersMap s) (closeChans s) (peerInfo s) (lease s) (heartbeating s) (ReplicationOpen s) (timeoutCallbacks s ++ [f]) (callbacks s).

(** ** Leases *)

(** A lease that cannot be renewed, for whatever reason, is replaced; when there is
    no new one either the server has none, which is 0. *)
Definition createOrRenewLease : M TorusServer unit :=
  s ← get;
  renewed ← (if decide (lease s = 0) then mret false
             else r ← try (on_sMDS (mds_RenewLease (lease s))); mret (match r with inl _ => true | inr _ => false end));
  if renewed : bool then mret tt
  else
    r ← try (on_sMDS mds_GetLease);
    match r with
    | inl l => modify (set_lease l)
    | inr e => _ ← modify (set_lease 0); throw e
    end.

(** ** The peer map *)

Fixpoint call_all (l : list (gostring → M C unit)) (k : gostring) : M TorusServer unit :=
  match l with
  | [] => mret tt
  | f :: l' => _ ← try (on_callbacks (f k)); call_all l' k
  end.

Fixpoint mark_timed_out (peers : PeerInfoList) (l : list (gostring * PeerInfo)) : M TorusServer unit :=
  match l with
  | [] => mret tt
  | (k, _) :: l' =>
      _ ← (if bool_decide (k ∈ peer_list peers) then mret tt
           else
             s ← get;
             _ ← call_all (timeoutCallbacks s) k;
             modify (λ s, set_sPeersMap (alter timed_out k (sPeersMap s)) s));
      mark_timed_out peers l'
  end.

Definition srv_updatePeerMap (now : Z) : M TorusServer unit :=
  r ← try (on_sMDS (mds_GetPeers now));
  match r with
  | inr _ => mret tt
  | inl peers =>
      _ ← modify (λ s, set_sPeersMap (foldl (λ m p, <[UUID p := p]> m) (sPeersMap s) peers) s);
      s ← get;
      mark_timed_out peers (map_order (sPeersMap s))
  end.
Definition srv_GetPeerMap : M TorusServer (gmap gostring PeerInfo) := gets sPeersMap.
Definition srv_UpdatePeerMap (now : Z) : M TorusServer (gmap gostring PeerInfo) :=
  _ ← srv_updatePeerMap now; srv_GetPeerMap.

(** ** Heartbeats *)

Definition with_blocks (total used : Z) (p : PeerInfo) : PeerInfo :=
  mkPeerInfo (UUID p) (Address p) (LastSeen p) total used (TimedOut p) (PRebalanceInfo p) (ProtocolVersion p).
Definition with_rebalance (ri : option RebalanceInfo) (p : PeerInfo) : PeerInfo :=
  mkPeerInfo (UUID p) (Address p) (LastSeen p) (TotalBlocks p) (Models.UsedBlocks p) (TimedOut p) ri (ProtocolVersion p).
Definition with_version (v : Z) (p : PeerInfo) : PeerInfo :=
  mkPeerInfo (UUID p) (Address p) (LastSeen p) (TotalBlocks p) (Models.UsedBlocks p) (TimedOut p) (PRebalanceInfo p) v.
Definition with_address (a : gostring) (p : PeerInfo) : PeerInfo :=
  mkPeerInfo (UUID p) a (LastSeen p) (TotalBlocks p) (Models.UsedBlocks p) (TimedOut p) (PRebalanceInfo p) (ProtocolVersion p).

Definition UpdateRebalanceInfo (ri : RebalanceInfo) : M TorusServer unit :=
  modify (λ s, set_peerInfo (with_rebalance (Some ri) (peerInfo s)) s).

(** Neither a lease nor the registration has to succeed. *)
Definition oneHeartbeat (now : Z) : M TorusServer unit :=
  _ ← modify (λ s, set_peerInfo (with_blocks (NumBlocks (sBlocks s)) (Store.UsedBlocks (sBlocks s)) (peerInfo s)) s);
  _ ← try createOrRenewLease;
  s ← get;
  r ← on_sMDS (mds_RegisterPeer now (lease s) (peerInfo s));
  _ ← modify (set_peerInfo r.1);
  srv_updatePeerMap now.

Definition currentProtocolVersion : Z := 1.
Definition minProtocolVersion : Z := 0.

(** The host's own address in the place of all addresses; [addrs] is what
    [net.InterfaceAddrs] returns. *)
Definition anyIP : gostring := str "0.0.0.0".
Definition autodetectIP (addrs : res (list IPNet)) (ip : gostring) : res gostring :=
  if decide (ip ≠ anyIP) then Ok ip
  else
    match addrs with
    | Ok l => Ok (from_option (λ a, ip_String a.2) (str "127.0.0.1") (list_find (λ a, IsLoopback a = false ∧ To4 a = true) l))
    | _ => Panic
    end.

(** The address the node tells its peers. *)
Definition advertiseURI (addrs : res (list IPNet)) (addr : URL) : res URL :=
  '(ipaddr, port) ← SplitHostPort (Host addr);
  ipaddr ← autodetectIP addrs ipaddr;
  mret (mkURL (Scheme addr) (match port with [] => ipaddr | _ => ipaddr ++ str ":" ++ port end)).

Definition errTooOld : error := ErrMsg "cluster too old".

(** Starting the goroutine is adding the channel that ends it. *)
Definition BeginHeartbeat (now : Z) (addrs : res (list IPNet)) (addr : option URL) : M TorusServer unit :=
  s ← get;
  if heartbeating s then mret tt
  else
    peers ← srv_UpdatePeerMap now;
    if existsb (λ kp, bool_decide (ProtocolVersion kp.2 < minProtocolVersion)) (map_order peers) then throw errTooOld
    else
      _ ← modify (λ s, set_peerInfo (with_version currentProtocolVersion (peerInfo s)) s);
      _ ← (match addr with
           | None => mret tt
           | Some u =>
               uri ← lift (advertiseURI addrs u);
               modify (λ s, set_peerInfo (with_address (url_String uri) (peerInfo s)) s)
           end);
      _ ← createOrRenewLease;
      _ ← UpdateRebalanceInfo RebalanceInfo_zero;
      modify (λ s, set_heartbeating true (set_closeChans (closeChans s ++ [false]) s)).

(** The goroutine: a heartbeat at each of the times, until its channel is closed. *)
Fixpoint heartbeat (times : list Z) : M TorusServer unit :=
  match times with
  | [] => mret tt
  | now :: times' => _ ← oneHeartbeat now; heartbeat times'
  end.

(** ** Opening and closing *)

(** Closing a channel twice panics. *)
Fixpoint close_all (done todo : list bool) : M TorusServer unit :=
  match todo with
  | [] => mret tt
  | true :: _ => panic
  | false :: todo' => _ ← modify (set_closeChans (done ++ true :: todo')); close_all (done ++ [true]) todo'
  end.

(** [INodes] is a wrapper of the block store: closing it closes the store.  The
    service is closed by [mds_Close]. *)
Definition srv_Close (mds_Close : M D unit) : M TorusServer unit :=
  s ← get;
  _ ← close_all [] (closeChans s);
  _ ← on_sMDS mds_Close;
  _ ← on_sBlocks Store.Close;
  on_sBlocks Store.Close.

(** [newDistributor] gives the store that takes the place of the one there was. *)
Definition openReplication (newDistributor : option URL → M TorusServer S) (now : Z) (addrs : res (list IPNet)) (addr : option URL) :
    M TorusServer unit :=
  s ← get;
  if ReplicationOpen s then throw ErrExists
  else
    dist ← newDistributor addr;
    _ ← modify (set_sBlocks dist);
    _ ← BeginHeartbeat now addrs addr;
    modify (set_ReplicationOpen true).
End server.
Arguments TorusServer : clear implicits.

(** ** The two metadata services *)

Definition temp_peer_service `{HashRing} `{Range} (uuid : gostring) : PeerService MetaTemp.Server := {|
  mds_UUID _ := uuid;
  mds_GetLease := mret 1;
  mds_RenewLease _ := mret tt;
  mds_RegisterPeer _ _ p := _ ← RegisterPeer p; mret (p, None);
  mds_GetPeers _ := MetaTemp.GetPeers;
|}.

(** The time a peer was seen is set in the peer itself, before the request. *)
Definition seen_at (now : Z) (p : PeerInfo) : PeerInfo :=
  mkPeerInfo (UUID p) (Address p) now (TotalBlocks p) (Models.UsedBlocks p) (TimedOut p) (PRebalanceInfo p) (ProtocolVersion p).

Definition etcd_peer_service {K : Type} `{Etcd K} (uuid : gostring) : PeerService K := {|
  mds_UUID _ := uuid;
  mds_GetLease := run GetLease;
  mds_RenewLease l := run (RenewLease l);
  mds_RegisterPeer now l p :=
    r ← try (run (etcd_RegisterPeer now l p));
    mret (match r with inl p' => (p', None) | inr e => (if decide (l = 0) then p else seen_at now p, Some e) end);
  mds_GetPeers now := run (etcd_GetPeers now);
|}.

(** ** The identity of a node *)

(** The file with the UUID, [None] when there is none.  [id] is the new UUID;
    [create] says whether the file can be made, [wrote] how much of the text is
    written, with the error when that is not all. *)
Definition GetUUID (datadir id : gostring) (create : res unit) (wrote : nat * option error) : M (option bytes) (gostring * option error) :=
  if decide (datadir = []) then throw (ErrMsg "given a empty datadir and asked to get it's UUID")
  else
    f ← get;
    match f with
    | None =>
        _ ← lift create;
        _ ← modify (λ _, Some (take wrote.1 id));
        mret (id, wrote.2)
    | Some b => mret (b, None)
    end.
