(* ===== verification/HeartbeatSpec.v ===== *)
(** * What heartbeats give

    Over the documented behaviour of etcd ([EtcdLaws]): a heartbeat registers the node
    and makes its peer map say who is alive; a lock is bound to the lease of the client
    that took it, so it is handed over when the lease ends, and also when the client
    itself replaced the lease; and which addresses a node can advertise. *)
From stdpp Require Import sorting.
From S2P Require Import Prelude GoSem GoStrings Refs TempStore Store Crc32 Blockset Proto Models INodeStore File Ring Metadata MetaTemp EtcdKeys Etcd EtcdSpec EtcdProps RingSpec LRU Distributor Cluster Heartbeat.

(** ** The nodes in etcd *)

Section nodes.
Context `{HashRing} `{Range} `{Godbc} `{HG : Json GlobalMetadata} `{HS : Json Snapshot} `{!JsonLaws Snapshot}.
Implicit Types (m : gmap bytes KeyValue) (p : PeerInfo).

Definition nodes_prefix : bytes := MkKey [str "nodes"].
Definition node_kvs m : list (bytes * KeyValue) := merge_sort key_le (map_to_list (with_prefix nodes_prefix m)).
Definition peer_at (u : gostring) m : option PeerInfo :=
  kv ← m !! key_of (KNode u); match Proto.Unmarshal (Value kv) PeerInfo_zero with Ok p => Some p | _ => None end.

(** The nodes hold peers that can be read. *)
Definition peers_ok m : Prop :=
  ∀ u kv, plain u → m !! key_of (KNode u) = Some kv → ∃ p, PeerInfo_valid p ∧ UUID p = u ∧ Proto.Marshal p = Ok (Value kv).

Lemma nodes_prefix_of x : ekey_ok x → nodes_prefix `prefix_of` key_of x ↔ ∃ u, x = KNode u.
Proof.
  intros Hx. unfold nodes_prefix, key_of. change [str "nodes"] with ([] ++ [str "nodes"]).
  rewrite MkKey_prefix; [|by apply list.Forall_nil|by_compute|by apply path_plain]. split.
  - intros (e' & m' & E & Hpre). destruct x; cbn [path_of app] in E; try discriminate E; injection E; intros; subst;
      try (exfalso; revert Hpre; by_compute). by eexists.
  - intros [u ->]. exists (str "nodes"), [u]. split; [done|apply reflexivity].
Qed.

Lemma elem_node_kvs m k kv : (k, kv) ∈ node_kvs m ↔ m !! k = Some kv ∧ nodes_prefix `prefix_of` k.
Proof.
  unfold node_kvs. rewrite merge_sort_Permutation, elem_of_map_to_list. unfold with_prefix. by rewrite map_lookup_filter_Some.
Qed.
Lemma NoDup_node_kvs m : NoDup (node_kvs m).*1.
Proof. unfold node_kvs. rewrite merge_sort_Permutation. apply NoDup_fst_map_to_list. Qed.

Lemma peer_bytes p b : PeerInfo_valid p → Proto.Marshal p = Ok b → Proto.Unmarshal b PeerInfo_zero = Ok p.
Proof. intros Hp E. assert (msg_valid p) as Hv by exact Hp. destruct (message_roundtrip p Hv) as (d & Ed & _ & Hu). rewrite E in Ed. injection Ed as ->. exact Hu. Qed.

(** A node under its key, as it is read. *)
Definition node_entry (x : bytes * KeyValue) p : Prop :=
  plain (UUID p) ∧ x.1 = key_of (KNode (UUID p)) ∧ Proto.Unmarshal (Value x.2) PeerInfo_zero = Ok p.

Lemma node_entries m : tidy m → peers_ok m → ∀ x, x ∈ node_kvs m → ∃ p, node_entry x p.
Proof.
  intros Ht Hp [k kv] [E Hpre]%elem_node_kvs. destruct (Ht _ _ E) as (x & Hx & -> & _).
  apply nodes_prefix_of in Hpre as [u ->]; [|done]. destruct (Hp u kv Hx E) as (p & Hv & <- & Hm).
  exists p. split_and!; [done..|]. by apply peer_bytes.
Qed.

Lemma live_peers_entries now l : (∀ x, x ∈ l → ∃ p, node_entry x p) → NoDup l.*1 →
  ∃ ps, live_peers now l = Ok ps ∧ NoDup (UUID <$> ps) ∧
    ∀ p, p ∈ ps ↔ (∃ x, x ∈ l ∧ node_entry x p) ∧ now - LastSeen p ≤ peerTimeoutMax.
Proof.
  induction l as [|[k kv] l IH]; intros Hl Hn.
  { exists []. split_and!; [done|constructor|]. intros p. split; [by intros ?%elem_of_nil|]. by intros [(x & ?%elem_of_nil & _) _]. }
  rewrite fmap_cons in Hn. apply list.NoDup_cons in Hn as [Hk Hn]. destruct IH as (ps & E & Hnd & Hps); [intros x Hx; apply Hl; by constructor|done|].
  destruct (Hl (k, kv)) as (p & Hp); [by constructor|]. destruct Hp as (Hpl & Hkey & Hu). cbn in Hkey, Hu.
  assert (∀ q, node_entry (k, kv) q → q = p) as Huniq by (intros q (_ & _ & Hq); cbn in Hq; congruence).
  cbn [live_peers]. rewrite Hu, E. case_decide as Hlate.
  - exists ps. split_and!; [done..|]. intros q. rewrite Hps. split.
    + intros [(x & Hx & Hq) Hlive]. split; [|done]. exists x. split; [by constructor|done].
    + intros [(x & [->|Hx]%elem_of_cons & Hq) Hlive]; [|by eauto]. apply Huniq in Hq as ->. lia.
  - exists (p :: ps). split_and!; [done| |].
    + rewrite fmap_cons. apply list.NoDup_cons. split; [|done]. intros (q & Eq & Hq)%list_elem_of_fmap. apply Hps in Hq as [(x & Hx & (_ & Hxk & _)) _].
      apply Hk. cbn. rewrite Hkey, Eq, <-Hxk. apply list_elem_of_fmap. by exists x.
    + intros q. rewrite elem_of_cons, Hps. split.
      * intros [->|[(x & Hx & Hq) Hlive]]; [split; [|lia]; exists (k, kv); split; [by constructor|done]|].
        split; [|done]. exists x. split; [by constructor|done].
      * intros [(x & [->|Hx]%elem_of_cons & Hq) Hlive]; [left; by apply Huniq|right; by eauto].
Qed.

(** [GetPeers] gives the nodes that were seen not long ago. *)
Lemma live_peers_run now m : tidy m → peers_ok m → ∃ ps, live_peers now (node_kvs m) = Ok ps ∧ NoDup (UUID <$> ps) ∧
  ∀ p, p ∈ ps ↔ plain (UUID p) ∧ peer_at (UUID p) m = Some p ∧ now - LastSeen p ≤ peerTimeoutMax.
Proof.
  intros Ht Hp. destruct (live_peers_entries now (node_kvs m)) as (ps & E & Hn & Hps); [by apply node_entries|apply NoDup_node_kvs|].
  exists ps. split_and!; [done..|]. intros p. rewrite Hps. split.
  - intros [([k kv] & [Hm _]%elem_node_kvs & (Hpl & Hk & Hu)) Hlive]. cbn in Hk, Hu. split_and!; [done| |done].
    unfold peer_at. rewrite <-Hk, Hm. cbn. by rewrite Hu.
  - intros (Hpl & Hat & Hlive). split; [|done]. unfold peer_at in Hat. destruct (m !! key_of (KNode (UUID p))) as [kv|] eqn:Em; [|done].
    cbn in Hat. destruct (Proto.Unmarshal (Value kv) PeerInfo_zero) as [q| |] eqn:Eu; [|done..]. injection Hat as ->.
    exists (key_of (KNode (UUID p)), kv). split; [|by split_and!]. apply elem_node_kvs. split; [done|].
    apply nodes_prefix_of; [done|by eexists].
Qed.
End nodes.

(** ** The peer map *)

Lemma peers_lookup (peers : PeerInfoList) (m : gmap gostring PeerInfo) k : NoDup (UUID <$> peers) →
  foldl (λ m p, <[UUID p := p]> m) m peers !! k =
  match list_find (λ p, UUID p = k) peers with Some (_, p) => Some p | None => m !! k end.
Proof.
  revert m. induction peers as [|p peers IH]; intros m Hn; [done|]. rewrite fmap_cons in Hn. apply list.NoDup_cons in Hn as [Hp Hn].
  cbn [foldl list_find]. rewrite IH by done. case_decide as Hk.
  - destruct (list_find (λ q, UUID q = k) peers) as [[i q]|] eqn:E.
    + apply list_find_Some in E as (Hi & Hq & _). destruct Hp. rewrite Hk, <-Hq. apply list_elem_of_fmap. exists q.
      split; [done|by eapply list_elem_of_lookup_2].
    + by rewrite Hk, lookup_insert_eq.
  - rewrite lookup_insert_ne by done. by destruct (list_find (λ q, UUID q = k) peers) as [[]|].
Qed.

Lemma timed_out_twice p : timed_out (timed_out p) = timed_out p.
Proof. done. Qed.

Section server.
Context {S D C : Type} `{B : BlockStore S} `{HO : MapOrder} `{PS : PeerService D}.
Abbreviation torus_server := (TorusServer S D C).
Implicit Types s : torus_server.

(** No callback panics. *)
Definition calm (s : torus_server) : Prop := Forall (λ f, ∀ k c, (f k c).1 ≠ Panic) (timeoutCallbacks s).

(** The peer map and what the callbacks change. *)
Definition with_map (m : gmap gostring PeerInfo) (c : C) s : torus_server :=
  mkTServer (sBlocks s) (sMDS s) m (closeChans s) (peerInfo s) (lease s) (heartbeating s) (ReplicationOpen s) (timeoutCallbacks s) c.
Definition with_mds (d : D) s : torus_server :=
  mkTServer (sBlocks s) d (sPeersMap s) (closeChans s) (peerInfo s) (lease s) (heartbeating s) (ReplicationOpen s) (timeoutCallbacks s) (callbacks s).

Lemma with_map_same s : s = with_map (sPeersMap s) (callbacks s) s.
Proof. by destruct s. Qed.

Lemma call_all_run fs k s : Forall (λ f, ∀ k c, (f k c).1 ≠ Panic) fs →
  ∃ c, call_all fs k s = (Ok tt, with_map (sPeersMap s) c s).
Proof.
  intros Hf. revert s. induction Hf as [|f fs Hf _ IH]; intros s; [exists (callbacks s); by rewrite <-with_map_same|].
  cbn [call_all]. unfold mbind, M_bind, try, on_callbacks. specialize (Hf k (callbacks s)).
  destruct (f k (callbacks s)) as [[[]|e|] c]; [..|done]; destruct (IH (with_map (sPeersMap s) c s)) as (c' & E); exists c'; exact E.
Qed.

Lemma mark_run peers l s : calm s → ∃ m c, mark_timed_out peers l s = (Ok tt, with_map m c s) ∧
  ∀ k, m !! k = if decide (k ∈ l.*1 ∧ k ∉ peer_list peers) then timed_out <$> sPeersMap s !! k else sPeersMap s !! k.
Proof.
  revert s. induction l as [|[k x] l IH]; intros s Hs.
  { exists (sPeersMap s), (callbacks s). split; [by rewrite <-with_map_same|]. intros k. rewrite decide_False; [done|]. by intros [?%elem_of_nil _]. }
  cbn [mark_timed_out]. rewrite fmap_cons. case_bool_decide as Hk.
  - destruct (IH s Hs) as (m & c & E & Hm). exists m, c. split; [exact E|]. intros j. rewrite Hm.
    apply decide_ext. rewrite elem_of_cons. cbn. split; [naive_solver|]. intros [[->|?] ?]; done.
  - destruct (call_all_run (timeoutCallbacks s) k s Hs) as (c & E). set (m1 := alter timed_out k (sPeersMap s)).
    destruct (IH (with_map m1 c s) Hs) as (m & c' & E' & Hm). exists m, c'. split.
    + unfold mbind, M_bind, get, modify. rewrite E. exact E'.
    + intros j. rewrite Hm. cbn [with_map sPeersMap]. unfold m1. destruct (decide (j = k)) as [->|Hj].
      * rewrite lookup_alter_eq. rewrite (decide_True (P := k ∈ (k, x).1 :: l.*1 ∧ _)) by (split; [by constructor|done]).
        case_decide; [|done]. by destruct (sPeersMap s !! k).
      * rewrite lookup_alter_ne by done. apply decide_ext. rewrite elem_of_cons. cbn. naive_solver.
Qed.

(** The map after it is brought up to date: the peers of the service, and the others
    marked as gone. *)
Lemma updatePeerMap_run now s peers d : calm s → NoDup (UUID <$> peers) → mds_GetPeers now (sMDS s) = (Ok peers, d) →
  ∃ m c, srv_updatePeerMap now s = (Ok tt, with_map m c (with_mds d s)) ∧
    (∀ p, p ∈ peers → m !! UUID p = Some p) ∧
    ∀ k p, m !! k = Some p → TimedOut p = false → p ∈ peers.
Proof.
  intros Hs Hn E. set (m1 := foldl (λ m p, <[UUID p := p]> m) (sPeersMap s) peers).
  destruct (mark_run peers (map_order m1) (with_map m1 (callbacks s) (with_mds d s)) Hs) as (m & c & Em & Hm).
  cbn [with_map with_mds sPeersMap] in Hm. exists m, c. split_and!.
  - unfold srv_updatePeerMap, mbind, M_bind, try, on_sMDS, get, modify. rewrite E. exact Em.
  - intros p Hp. rewrite Hm. assert (UUID p ∈ peer_list peers) as Hin by (by apply list_elem_of_fmap_2).
    rewrite decide_False by (by intros [_ ?]). unfold m1. rewrite peers_lookup by done.
    apply list_elem_of_lookup in Hp as [i Hi]. destruct (list_find (λ q, UUID q = UUID p) peers) as [[j q]|] eqn:Ef.
    + apply list_find_Some in Ef as (Hj & Hq & _). f_equal. apply (NoDup_lookup _ i j) with (x := UUID p) in Hn as <-.
      * congruence.
      * by rewrite list_lookup_fmap, Hi.
      * by rewrite list_lookup_fmap, Hj, <-Hq.
    + apply list_find_None in Ef. rewrite Forall_lookup in Ef. by destruct (Ef i p Hi).
  - intros k p. rewrite Hm. case_decide as Hk.
    + by intros (q & _ & ->)%fmap_Some Ht.
    + intros Hp _. unfold m1 in *. rewrite peers_lookup in Hp by done.
      destruct (list_find (λ q, UUID q = k) peers) as [[j q]|] eqn:Ef; [apply list_find_Some in Ef as (Hj & _); injection Hp as ->; by eapply list_elem_of_lookup_2|].
      destruct Hk. split; [|intros (q & -> & Hq)%list_elem_of_fmap; apply list_find_None in Ef; rewrite list.Forall_forall in Ef; by destruct (Ef q Hq)].
      apply list_elem_of_fmap. exists (k, p). split; [done|]. rewrite map_order_perm. apply elem_of_map_to_list.
      fold m1. unfold m1. rewrite peers_lookup by done. by rewrite Ef.
Qed.
End server.

(** ** Heartbeats over etcd *)

Section beats.
Context {S K C : Type} `{B : BlockStore S} `{HO : MapOrder} `{EL : EtcdLaws K}.
Context `{HashRing} `{Range} `{Godbc} `{HG : Json GlobalMetadata} `{HS : Json Snapshot} `{!JsonLaws Snapshot} (uuid : gostring).
Abbreviation torus_server := (TorusServer S K C).
Implicit Types (s : torus_server) (d : K).
#[local] Instance service : PeerService K := etcd_peer_service uuid.

Abbreviation kvs_of s := (kvs (view (sMDS s))).
Abbreviation leases_of s := (leases (view (sMDS s))).

(** What a beat tells the service. *)
Definition beat_info (now : Z) s : PeerInfo :=
  seen_at now (with_blocks (NumBlocks (sBlocks s)) (Store.UsedBlocks (sBlocks s)) (peerInfo s)).

Lemma lease_run s : ∃ l d, createOrRenewLease s = (Ok tt, set_lease l (with_mds d s)) ∧
  l ≠ 0 ∧ l ∈ leases (view d) ∧ kvs (view d) = kvs_of s ∧ leases_of s ⊆ leases (view d) ∧
  (if decide (lease s ≠ 0 ∧ lease s ∈ leases_of s) then l = lease s else l ∉ leases_of s).
Proof.
  assert (∀ d, view d = view (sMDS s) → ¬ (lease s ≠ 0 ∧ lease s ∈ leases_of s) → ∃ l d',
    (r ← try (on_sMDS mds_GetLease); match r with inl l => modify (set_lease l) | inr e => _ ← modify (set_lease 0); throw e end) (with_mds d s)
      = (Ok tt, set_lease l (with_mds d' s)) ∧ l ≠ 0 ∧ l ∈ leases (view d') ∧ kvs (view d') = kvs_of s ∧ leases_of s ⊆ leases (view d') ∧ l ∉ leases_of s) as Hnew.
  { intros d Hd Hno. destruct (serve_grant leaseTTL d) as (l & d' & E & Hl & Hfr & Hv). exists l, d'.
    unfold mbind, M_bind, try, on_sMDS. cbn. rewrite E. rewrite Hv, Hd in *. cbn. split_and!; [done|done|set_solver|done|set_solver|done]. }
  unfold createOrRenewLease. destruct (decide (lease s = 0)) as [Hz|Hz].
  - destruct (Hnew (sMDS s)) as (l & d' & E & Hrest); [done|naive_solver|]. exists l, d'.
    unfold mbind, M_bind, get at 1. rewrite decide_True by done. rewrite decide_False by naive_solver.
    split; [|done]. destruct s. exact E.
  - destruct (serve_keepalive (lease s) (sMDS s)) as (d & E & Hv). destruct (decide (lease s ∈ leases_of s)) as [Hin|Hin].
    + exists (lease s), d. rewrite decide_True by done. split; [|split_and!; [done|by rewrite Hv..|done]].
      unfold mbind, M_bind, get, try, on_sMDS. rewrite decide_False by done. cbn. rewrite E. cbn. by destruct s.
    + destruct (Hnew d Hv) as (l & d' & E' & Hrest); [naive_solver|]. exists l, d'. rewrite decide_False by naive_solver.
      split; [|done]. unfold mbind, M_bind, get at 1, try at 1, on_sMDS at 1. rewrite decide_False by done. cbn. rewrite E. cbn.
      exact E'.
Qed.

Lemma register_run now l p d : l ≠ 0 → l ∈ leases (view d) → PeerInfo_valid (seen_at now p) →
  ∃ d' b, mds_RegisterPeer now l p d = (Ok (seen_at now p, None), d') ∧ Proto.Marshal (seen_at now p) = Ok b ∧
    view d' = mkEStore (put_key (key_of (KNode (UUID p))) b l (kvs (view d))) (leases (view d)).
Proof.
  intros Hl Hin Hv. assert (msg_valid (seen_at now p)) as Hm by exact Hv. destruct (message_roundtrip _ Hm) as (b & Eb & _ & _).
  destruct (serve_do (OpPut (key_of (KNode (UUID p))) b l) d) as (d' & E & Hd).
  unfold do_request in *. cbn [op_lease] in *. rewrite bool_decide_true in * by (by right). exists d', b.
  split_and!; [|done|exact Hd]. cbn. unfold mbind, M_bind, try, etcd_RegisterPeer. rewrite decide_False by done.
  fold (seen_at now p). rewrite Eb. cbn. unfold key_of in E. cbn in E. by rewrite E.
Qed.

Lemma get_peers_run now d : tidy (kvs (view d)) → peers_ok (kvs (view d)) →
  ∃ ps d', mds_GetPeers now d = (Ok ps, d') ∧ view d' = view d ∧ NoDup (UUID <$> ps) ∧
    ∀ p, p ∈ ps ↔ plain (UUID p) ∧ peer_at (UUID p) (kvs (view d)) = Some p ∧ now - LastSeen p ≤ peerTimeoutMax.
Proof.
  intros Ht Hp. destruct (live_peers_run now (kvs (view d)) Ht Hp) as (ps & E & Hn & Hps).
  destruct (serve_do (OpGetPrefix nodes_prefix) d) as (d' & Ed & Hv). unfold do_request in *. cbn in Ed, Hv. exists ps, d'.
  split_and!; [|by rewrite Hv; destruct (view d)|done..]. cbn. unfold nodes_prefix in Ed. rewrite Ed. cbn.
  unfold node_kvs, nodes_prefix in E. by rewrite E.
Qed.

Lemma peer_at_put p b l m : PeerInfo_valid p → Proto.Marshal p = Ok b →
  peer_at (UUID p) (put_key (key_of (KNode (UUID p))) b l m) = Some p.
Proof. intros Hv Hb. unfold peer_at, put_key. rewrite lookup_insert_eq. cbn. by rewrite (peer_bytes p b). Qed.

Lemma peers_ok_put p b l m : plain (UUID p) → PeerInfo_valid p → Proto.Marshal p = Ok b → peers_ok m →
  peers_ok (put_key (key_of (KNode (UUID p))) b l m).
Proof.
  intros Hp Hv Hb Hm w kv Hw. unfold put_key. intros [[Hk <-]|[_ E]]%lookup_insert_Some; [|by eapply Hm].
  apply key_of_inj in Hk; [|done..]. injection Hk as <-. by exists p.
Qed.

(** The service and the server are in a state they can be in. *)
Definition sound s : Prop := calm s ∧ tidy (kvs_of s) ∧ peers_ok (kvs_of s) ∧ plain (UUID (peerInfo s)).

(** What a beat leaves behind. *)
Record beaten (now : Z) s s' : Prop := {
  beat_peer : peerInfo s' = beat_info now s;
  beat_lease : lease s' ≠ 0 ∧ lease s' ∈ leases_of s';
  beat_kept : if decide (lease s ≠ 0 ∧ lease s ∈ leases_of s) then lease s' = lease s else lease s' ∉ leases_of s;
  beat_leases : leases_of s ⊆ leases_of s';
  beat_kvs : ∃ b, Proto.Marshal (peerInfo s') = Ok b ∧
    kvs_of s' = put_key (key_of (KNode (UUID (peerInfo s)))) b (lease s') (kvs_of s);
  beat_rest : sBlocks s' = sBlocks s ∧ timeoutCallbacks s' = timeoutCallbacks s ∧ closeChans s' = closeChans s;
  beat_alive : ∀ p, plain (UUID p) → peer_at (UUID p) (kvs_of s') = Some p → now - LastSeen p ≤ peerTimeoutMax →
    sPeersMap s' !! UUID p = Some p;
  beat_gone : ∀ k p, sPeersMap s' !! k = Some p → TimedOut p = false →
    peer_at (UUID p) (kvs_of s') = Some p ∧ now - LastSeen p ≤ peerTimeoutMax;
}.

Lemma beat_run now s : sound s → PeerInfo_valid (beat_info now s) → ∃ s', oneHeartbeat now s = (Ok tt, s') ∧ beaten now s s' ∧ sound s'.
Proof.
  intros (Hc & Ht & Hp & Hu) Hv. set (s0 := set_peerInfo (with_blocks (NumBlocks (sBlocks s)) (Store.UsedBlocks (sBlocks s)) (peerInfo s)) s).
  destruct (lease_run s0) as (l & d1 & El & Hl0 & Hlin & Hk1 & Hsub & Hl).
  destruct (register_run now l (peerInfo s0) d1 Hl0 Hlin Hv) as (d2 & b & Er & Hb & Hv2).
  change (seen_at now (peerInfo s0)) with (beat_info now s) in Er, Hb.
  assert (tidy (kvs (view d2))) as Ht2 by (rewrite Hv2, Hk1; apply tidy_put; [done|done|by exists (beat_info now s)]).
  assert (peers_ok (kvs (view d2))) as Hp2 by (rewrite Hv2, Hk1; by apply (peers_ok_put (beat_info now s))).
  destruct (get_peers_run now d2 Ht2 Hp2) as (ps & d3 & Eg & Hv3 & Hn & Hps).
  set (s2 := set_peerInfo (beat_info now s) (with_mds d2 (set_lease l (with_mds d1 s0)))).
  destruct (updatePeerMap_run now s2 ps d3 Hc Hn Eg) as (m & c & Eu & Hin & Hout).
  assert (oneHeartbeat now s = (Ok tt, with_map m c (with_mds d3 s2))) as Erun.
  { unfold oneHeartbeat, mbind, M_bind, try, modify, get. fold s0. rewrite El. unfold on_sMDS.
    change (sMDS (set_lease l (with_mds d1 s0))) with d1. change (lease (set_lease l (with_mds d1 s0))) with l.
    change (peerInfo (set_lease l (with_mds d1 s0))) with (peerInfo s0). rewrite Er. exact Eu. }
  eexists. split; [exact Erun|]. rewrite <-Hv3 in Ht2, Hp2. split; [|done].
  assert (kvs (view d3) = put_key (key_of (KNode (UUID (peerInfo s)))) b l (kvs_of s)) as Hk3 by (by rewrite Hv3, Hv2, Hk1).
  assert (leases (view d3) = leases (view d1)) as Hl3 by (by rewrite Hv3, Hv2).
  rewrite <-Hv3 in Hps. split; cbn; rewrite ?Hl3; try done.
  - by exists b.
  - intros p Hpl Hat Hnow. apply Hin. by apply Hps.
  - intros k p Hk Hto. apply (Hout k) in Hto; [|done]. apply Hps in Hto as (_ & ? & ?). done.
Qed.

(** The peer fits a message at any time. *)
Definition fit s : Prop := ∀ now, int_range 64 now → PeerInfo_valid (beat_info now s).

(** What heartbeats leave behind, the last of them at [now]. *)
Record registered (now : Z) s s' : Prop := {
  reg_peer : peerInfo s' = beat_info now s;
  reg_lease : lease s' ≠ 0 ∧ lease s' ∈ leases_of s';
  reg_kept : if decide (lease s ≠ 0 ∧ lease s ∈ leases_of s) then lease s' = lease s else lease s' ∉ leases_of s;
  reg_leases : leases_of s ⊆ leases_of s';
  reg_node : ∃ kv, kvs_of s' !! key_of (KNode (UUID (peerInfo s))) = Some kv ∧ Lease kv = lease s' ∧
    Proto.Unmarshal (Value kv) PeerInfo_zero = Ok (peerInfo s');
  reg_others : ∀ k, k ≠ key_of (KNode (UUID (peerInfo s))) → kvs_of s' !! k = kvs_of s !! k;
  reg_alive : ∀ p, plain (UUID p) → peer_at (UUID p) (kvs_of s') = Some p → now - LastSeen p ≤ peerTimeoutMax →
    sPeersMap s' !! UUID p = Some p;
  reg_gone : ∀ k p, sPeersMap s' !! k = Some p → TimedOut p = false →
    peer_at (UUID p) (kvs_of s') = Some p ∧ now - LastSeen p ≤ peerTimeoutMax;
}.

Lemma beaten_registered now s s' : PeerInfo_valid (beat_info now s) → beaten now s s' → registered now s s'.
Proof.
  intros Hv [Hp Hl Hk Hls (b & Hb & Hkv) _ Ha Hg]. split; try done.
  - rewrite Hkv. unfold put_key. rewrite lookup_insert_eq. eexists. split_and!; [done..|]. cbn. rewrite Hp in *. by apply peer_bytes.
  - intros k Hne. rewrite Hkv. unfold put_key. by rewrite lookup_insert_ne.
Qed.

Lemma registered_after now now' s s1 s' : beaten now s s1 → registered now' s1 s' → registered now' s s'.
Proof.
  intros [Hp Hl Hk Hls (b & Hb & Hkv) (Hbl & _ & _) _ _] [Hp' Hl' Hk' Hls' Hn Ho Ha Hg].
  assert (UUID (peerInfo s1) = UUID (peerInfo s)) as Hu by (by rewrite Hp). rewrite Hu in *. split; try done.
  - rewrite Hp'. unfold beat_info. by rewrite Hp, Hbl.
  - rewrite decide_True in Hk' by done. by rewrite Hk'.
  - by etrans.
  - intros k Hne. rewrite Ho by done. rewrite Hkv. unfold put_key. by rewrite lookup_insert_ne.
Qed.

Lemma heartbeats_run times now s : sound s → fit s → Forall (int_range 64) times → int_range 64 now →
  ∃ s', heartbeat (times ++ [now]) s = (Ok tt, s') ∧ registered now s s' ∧ sound s'.
Proof.
  intros Hs Hf Ht Hn. revert s Hs Hf. induction Ht as [|t times Ht _ IH]; intros s Hs Hf.
  - destruct (beat_run now s Hs (Hf now Hn)) as (s' & E & Hb & Hs'). exists s'. split_and!; [|by apply beaten_registered; [apply Hf|]|done].
    cbn. unfold mbind, M_bind. by rewrite E.
  - destruct (beat_run t s Hs (Hf t Ht)) as (s1 & E & Hb & Hs1). destruct (IH s1 Hs1) as (s' & E' & Hr & Hs').
    + intros now' Hn'. unfold beat_info. destruct Hb as [-> _ _ _ _ (-> & _) _ _]. exact (Hf now' Hn').
    + exists s'. split_and!; [|by eapply registered_after|done]. cbn. unfold mbind, M_bind. by rewrite E.
Qed.

(** C19: heartbeats register a node.  Whatever lease the server has, none or one that
    has ended, after heartbeats the last of which is at [now] the service has the node
    with the numbers of the store, under a lease that lives, and nothing else in it
    has changed; a lease that lived is still the same.  The peer map has every node
    the service lists and that was seen lately, as the service has it, and every
    other peer of the map is marked as gone. *)
Theorem heartbeats_register (times : list Z) (now : Z) (s : torus_server) :
  sound s → fit s → Forall (int_range 64) times → int_range 64 now →
  ∃ s', heartbeat (times ++ [now]) s = (Ok tt, s') ∧ registered now s s'.
Proof. intros Hs Hf Ht Hn. destruct (heartbeats_run times now s Hs Hf Ht Hn) as (s' & E & Hr & _). by exists s'. Qed.

(** ** Locks and leases *)

(** A request for a lock, by what is there. *)
Lemma lock_run u l v d : u64 v → l ≠ 0 → l ∈ leases (view d) → tidy (kvs (view d)) →
  ∃ d', run (etcd_Lock u l v) d = (match kvs (view d) !! key_lock v with Some _ => Err ErrLocked | None => Ok tt end, d') ∧
    leases (view d') = leases (view d) ∧
    kvs (view d') !! key_lock v = match kvs (view d) !! key_lock v with Some kv => Some kv | None => Some (Etcd.mkKV u 1 l) end.
Proof.
  intros Hv Hl Hin Ht. unfold etcd_Lock. rewrite decide_False by done.
  edestruct (run_or_locked (mkTxn [VersionIs (key_lock v) 0] [OpPut (key_lock v) u l] []) d) as (d' & Hd & E); [|done|].
  { cbn. by rewrite bool_decide_true by (by right). }
  exists d'. rewrite E, Hd. cbn. rewrite andb_true_r. pose proof (version_pos (kvs (view d)) (KLock v) Ht Hv) as Hver.
  change (key_of (KLock v)) with (key_lock v) in Hver. destruct (kvs (view d) !! key_lock v) as [kv|] eqn:Ek.
  - rewrite bool_decide_false by (intros Hz; by apply Hver in Hz). done.
  - rewrite bool_decide_true by (by apply Hver). cbn. unfold put_key, version_of. by rewrite lookup_insert_eq, Ek.
Qed.

(** An inode is refused while another client has the lock. *)
Lemma sync_refused u i d kv : kvs (view d) !! key_lock (Refs.Volume i) = Some kv → Value kv ≠ u →
  ∃ d', run (etcd_SyncINode u i) d = (Err ErrLocked, d') ∧ view d' = view d.
Proof.
  intros Ek Hu. unfold etcd_SyncINode.
  edestruct (run_or_locked (mkTxn [VersionAbove (key_lock (Refs.Volume i)) 0; ValueIs (key_lock (Refs.Volume i)) u]
    [OpPut (key_blockinode (Refs.Volume i)) (INodeRef_ToBytes i) 0] []) d) as (d' & Hd & E); [by cbn|done|].
  exists d'. rewrite E, Hd. cbn. rewrite Ek. cbn. rewrite (bool_decide_false (Some (Value kv) = Some u)) by congruence.
  rewrite andb_false_r. by destruct (view d).
Qed.

(** The node has locked the volume, under its lease. *)
Definition has_lock (v : Z) s : Prop :=
  ∃ kv, kvs_of s !! key_lock v = Some kv ∧ Value kv = UUID (peerInfo s) ∧ Lease kv = lease s.

Lemma lock_not_node v u : u64 v → plain u → key_lock v ≠ key_of (KNode u).
Proof. intros Hv Hu E. by apply (key_of_inj (KLock v) (KNode u)) in E. Qed.

Lemma expired_others k kv ls e : kvs e !! k = Some kv → Lease kv ∉ ls → kvs (foldr expire e ls) !! k = Some kv.
Proof.
  intros E. induction ls as [|l ls IH]; intros Hl; [done|]. cbn. apply not_elem_of_cons in Hl as [Hne Hl].
  apply map_lookup_filter_Some. by split; [apply IH|].
Qed.
Lemma tidy_expired ls e : tidy (kvs e) → tidy (kvs (foldr expire e ls)).
Proof. intros Ht. induction ls as [|l ls IH]; [done|]. by apply tidy_expire. Qed.

(** C20: heartbeats keep the locks of a node.  While its lease is renewed in time, a
    node keeps the volumes it has locked: through any heartbeats, and whatever other
    leases end, another client that asks for the lock is refused. *)
Theorem heartbeats_keep_lock (times : list Z) (now : Z) (s : torus_server) (v : Z) :
  sound s → fit s → Forall (int_range 64) times → int_range 64 now → u64 v →
  lease s ≠ 0 → lease s ∈ leases_of s → has_lock v s →
  ∃ s', heartbeat (times ++ [now]) s = (Ok tt, s') ∧ has_lock v s' ∧
    ∀ (ended : list Z) (d : K) u l, lease s ∉ ended → view d = foldr expire (view (sMDS s')) ended →
      l ≠ 0 → l ∈ leases (view d) →
      ∃ d', run (etcd_Lock u l v) d = (Err ErrLocked, d') ∧ kvs (view d') !! key_lock v = kvs_of s' !! key_lock v.
Proof.
  intros Hs Hf Ht Hn Hv Hl Hin (kv & Ek & Hval & Hlease). destruct (heartbeats_run times now s Hs Hf Ht Hn) as (s' & E & Hr & Hs').
  destruct Hr as [Hp _ Hk _ _ Ho _ _]. rewrite decide_True in Hk by done.
  assert (kvs_of s' !! key_lock v = Some kv) as Ek' by (rewrite Ho; [done|]; apply lock_not_node; [done|apply Hs]).
  exists s'. split_and!; [done|exists kv; split_and!; [done|by rewrite Hp|by rewrite Hk]|].
  intros ended d u l Hne Hd Hl' Hin'. rewrite <-Hlease in Hne. pose proof (expired_others _ _ ended _ Ek' Hne) as Ed. rewrite <-Hd in Ed.
  destruct (lock_run u l v d Hv Hl' Hin') as (d' & E' & _ & Hk'); [rewrite Hd; apply tidy_expired, Hs'|].
  rewrite Ed in E', Hk'. exists d'. split; [done|]. by rewrite Hk', Ek'.
Qed.

(** A time in which no request is answered, as when a heartbeat runs into its timeout. *)
Definition outage (e : error) : PeerService K := {|
  mds_UUID _ := uuid;
  mds_GetLease := throw e;
  mds_RenewLease _ := throw e;
  mds_RegisterPeer now l p := mret (if decide (l = 0) then p else seen_at now p, Some e);
  mds_GetPeers _ := throw e;
|}.

Definition missed s : torus_server :=
  set_lease 0 (set_peerInfo (with_blocks (NumBlocks (sBlocks s)) (Store.UsedBlocks (sBlocks s)) (peerInfo s)) s).
Lemma outage_run e t s : oneHeartbeat (PS := outage e) t s = (Ok tt, missed s).
Proof.
  unfold oneHeartbeat, createOrRenewLease, mbind, M_bind, modify, get, try. destruct s; cbn.
  case_decide as Hz; [by subst|done].
Qed.

Lemma expired_key k kv l e : kvs e !! k = Some kv → Lease kv = l → kvs (expire l e) !! k = None.
Proof. intros E <-. apply map_lookup_filter_None. right. intros kv' E'. rewrite E in E'. injection E' as ->. naive_solver. Qed.

(** C34: one missed heartbeat loses the locks of a node that is up.  A server whose
    renewal is not answered once, for whatever reason, takes a new lease at its next
    heartbeat and never renews the old one again, to which its locks stay bound.  When
    the old lease ends another client gets the lock, although the node is registered
    under a lease that lives, and the node's own inodes are refused from then on. *)
Theorem missed_heartbeat_loses_lock (e : error) (t : Z) (times : list Z) (now : Z) (s : torus_server) (v : Z)
    (u : gostring) (l : Z) (i : INodeRef) :
  sound s → fit s → Forall (int_range 64) times → int_range 64 now → u64 v →
  lease s ≠ 0 → lease s ∈ leases_of s → has_lock v s →
  u ≠ UUID (peerInfo s) → l ≠ 0 → l ≠ lease s → l ∈ leases_of s → Refs.Volume i = v →
  ∃ s1 s2, oneHeartbeat (PS := outage e) t s = (Ok tt, s1) ∧ heartbeat (times ++ [now]) s1 = (Ok tt, s2) ∧
    lease s2 ∈ leases_of s2 ∧ lease s2 ≠ lease s ∧ peer_at (UUID (peerInfo s)) (kvs_of s2) = Some (peerInfo s2) ∧
    ∀ d, view d = expire (lease s) (view (sMDS s2)) → ∃ d1 d2,
      run (etcd_Lock u l v) d = (Ok tt, d1) ∧
      run (etcd_SyncINode (UUID (peerInfo s)) i) d1 = (Err ErrLocked, d2) ∧ lease s2 ∈ leases (view d2).
Proof.
  intros Hs Hf Ht Hn Hv Hl0 Hlin (kv & Ek & Hval & Hlease) Hu Hl Hne Hin Hi.
  destruct (heartbeats_run times now (missed s)) as (s2 & E2 & Hr & Hs2); [exact Hs|exact Hf|done..|].
  destruct Hr as [Hp [_ Hlive] Hk Hls (kvn & En & _ & Hdec) Ho _ _]. rewrite decide_False in Hk by (cbn; naive_solver).
  assert (lease s2 ≠ lease s) as Hnew by (intros Heq; apply Hk; by rewrite Heq).
  exists (missed s), s2. split_and!; [apply outage_run|done|done|done|unfold peer_at; cbn in En |- *; by rewrite En; cbn; rewrite Hdec|].
  intros d Hd. assert (kvs_of s2 !! key_lock v = Some kv) as Ek2 by (rewrite Ho; [done|]; apply lock_not_node; [done|apply Hs]).
  pose proof (expired_key _ _ _ _ Ek2 Hlease) as Ed. rewrite <-Hd in Ed.
  destruct (lock_run u l v d Hv Hl) as (d1 & E1 & Hl1 & Hk1); [rewrite Hd; cbn; set_solver|rewrite Hd; apply tidy_expire, Hs2|].
  rewrite Ed in E1, Hk1. subst v. destruct (sync_refused (UUID (peerInfo s)) i d1 _ Hk1 Hu) as (d2 & E3 & Hd2).
  exists d1, d2. split_and!; [done..|]. rewrite Hd2, Hl1, Hd. cbn. set_solver.
Qed.
End beats.

(** ** Addresses *)

Lemma IndexByte_None s c : c ∉ s → IndexByte s c = None.
Proof.
  induction s as [|x s IH]; [done|]. rewrite not_elem_of_cons. intros [Hne Hs]. cbn. rewrite decide_False by done. by rewrite IH.
Qed.
Lemma IndexByte_app s c r : c ∉ s → IndexByte (s ++ c :: r) c = Some (length s).
Proof.
  induction s as [|x s IH]; cbn; [by rewrite decide_True|]. rewrite not_elem_of_cons. intros [Hne Hs]. rewrite decide_False by done. by rewrite IH.
Qed.
Lemma IndexByte_Some s c : c ∈ s → is_Some (IndexByte s c).
Proof. induction 1 as [x l|x y l _ IH]; cbn; case_decide; [done..|done|by apply fmap_is_Some]. Qed.
Lemma LastByte_None s c : c ∉ s → LastByte s c = None.
Proof.
  induction s as [|x s IH]; [done|]. rewrite not_elem_of_cons. intros [Hne Hs]. cbn. rewrite IH by done. by rewrite decide_False.
Qed.
Lemma LastByte_app s c r : c ∉ r → LastByte (s ++ c :: r) c = Some (length s).
Proof. intros Hr. induction s as [|x s IH]; cbn; [by rewrite LastByte_None, decide_True|]. by rewrite IH. Qed.

(** Text without the bytes that separate hosts and ports. *)
Definition unbracketed (s : gostring) : Prop := (lbracket ∉ s) ∧ (rbracket ∉ s).
Definition simple (s : gostring) : Prop := (colon ∉ s) ∧ unbracketed s.

Lemma unbracketed_pair h p : unbracketed h → unbracketed p → unbracketed (h ++ colon :: p).
Proof. intros [] []. split; rewrite elem_of_app, elem_of_cons; intros [|[E|]]; done. Qed.
Lemma unbracketed_head h : unbracketed h → head h ≠ Some lbracket.
Proof. intros [Hl _] E. apply Hl. destruct h as [|x h]; [done|]. injection E as ->. by left. Qed.

Lemma port_of h (p : gostring) : drop (length h + 1) (h ++ colon :: p) = p.
Proof. by rewrite drop_app_add. Qed.

Lemma split_simple h p : simple h → simple p → SplitHostPort (h ++ colon :: p) = Ok (h, p).
Proof.
  intros [Hh Hbh] [Hp Hbp]. pose proof (unbracketed_pair h p Hbh Hbp) as Hb. unfold SplitHostPort. rewrite LastByte_app by done.
  rewrite decide_False by (by apply unbracketed_head). rewrite take_app_length, IndexByte_None by done.
  unfold mbind, res_mbind, res_bind. cbv beta iota. by rewrite !drop_0, !IndexByte_None, port_of by apply Hb.
Qed.

(** Colons in the host are too many. *)
Lemma split_colons h p : colon ∈ h → unbracketed h → simple p → SplitHostPort (h ++ colon :: p) = Err errTooManyColons.
Proof.
  intros Hh Hb Hp. unfold SplitHostPort. rewrite LastByte_app by apply Hp.
  rewrite decide_False by (apply unbracketed_head; apply unbracketed_pair; [done|apply Hp]). rewrite take_app_length.
  by destruct (IndexByte_Some h colon Hh) as [i ->].
Qed.

Lemma split_brackets h p : unbracketed h → simple p → SplitHostPort (lbracket :: h ++ rbracket :: colon :: p) = Ok (h, p).
Proof.
  intros Hb Hp. unfold SplitHostPort.
  change (lbracket :: h ++ rbracket :: colon :: p) with ((lbracket :: h) ++ rbracket :: colon :: p).
  assert (rbracket ∉ lbracket :: h) as Hr by (rewrite not_elem_of_cons; split; [done|apply Hb]).
  rewrite (IndexByte_app _ _ _ Hr). rewrite (cons_middle rbracket), app_assoc, LastByte_app by apply Hp.
  rewrite decide_True by done. rewrite decide_False by (len; lia). rewrite decide_True by (len; lia).
  unfold mbind, res_mbind, res_bind. cbv beta iota. rewrite IndexByte_None, IndexByte_None.
  - f_equal. f_equal; [|apply port_of]. cbn. rewrite Nat.sub_0_r, <-app_assoc, drop_0. by rewrite take_app_length.
  - replace (length (lbracket :: h) + 1)%nat with (length ((lbracket :: h) ++ [rbracket])) by (by len).
    rewrite drop_app_length. rewrite not_elem_of_cons. split; [done|apply Hp].
  - cbn. rewrite drop_0, !elem_of_app, !elem_of_cons, elem_of_nil. destruct Hb, Hp as [_ []]. by intros [[|[|]]|[|]].
Qed.

(** The address a node advertises.  A host without colons, with a port, is
    advertised as it is, or as the address of an interface when it stands for all of
    them, and its peers split it into that host and port.  An IPv6 address in brackets
    is advertised without them, which no peer can split again; and an address without
    a port, which the listener takes, ends the start of the node with an error. *)
Theorem advertised_address (addrs : res (list IPNet)) (scheme h p : gostring) :
  (∀ h', simple h → simple p → p ≠ [] → autodetectIP addrs h = Ok h' → simple h' →
     ∃ u, advertiseURI addrs (mkURL scheme (h ++ colon :: p)) = Ok u ∧ Scheme u = scheme ∧ SplitHostPort (Host u) = Ok (h', p)) ∧
  (colon ∈ h → unbracketed h → simple p → p ≠ [] →
     ∃ u, advertiseURI addrs (mkURL scheme (lbracket :: h ++ rbracket :: colon :: p)) = Ok u ∧
       SplitHostPort (Host u) = Err errTooManyColons) ∧
  (simple h → advertiseURI addrs (mkURL scheme h) = Err errMissingPort).
Proof.
  assert (∀ h' : gostring, p ≠ [] → match p with [] => h' | _ :: _ => h' ++ str ":" ++ p end = h' ++ colon :: p) as Hj by (by destruct p).
  split_and!.
  - intros h' Hh Hp Hne Ha Hh'. eexists. unfold advertiseURI. cbn [Host]. rewrite split_simple by done. cbn. rewrite Ha. cbn.
    split_and!; [done..|]. cbn. rewrite Hj by done. by apply split_simple.
  - intros Hc Hb Hp Hne. eexists. unfold advertiseURI. cbn [Host]. rewrite split_brackets by done. cbn.
    unfold autodetectIP. rewrite decide_True; [cbn; split; [done|]; cbn; rewrite Hj by done; by apply split_colons|].
    intros ->. revert Hc. apply (bool_decide_unpack (_ ∉ _)). by_compute.
  - intros [Hc _]. unfold advertiseURI, SplitHostPort. cbn [Host]. by rewrite LastByte_None.
Qed.

(** ** Examples: a node [a] with the lease 7 and a lock on volume 32, and a client [b]
    with the lease 8 *)

#[local] Existing Instances map_range fixed_ring no_preconditions snap_Json snap_JsonLaws no_global_Json cx_order.

Definition hx_a : gostring := str "a".
Definition hx_keys : gmap bytes KeyValue := put_key (key_of (KLock 32)) hx_a 7 ∅.
Definition hx : TorusServer tempBlockStore estore unit :=
  mkTServer cx_store (mkEStore hx_keys {[7; 8]}) ∅ [false] (mkPeerInfo hx_a [] 0 0 0 false None 1) 7 true true [] tt.

Lemma hx_sound : sound hx.
Proof.
  split_and!; [constructor| | |by_compute].
  - apply tidy_put; [by intros ? ? ?|unfold ekey_ok, in_width; lia|done].
  - intros u kv Hu. change (put_key (key_of (KLock 32)) hx_a 7 ∅ !! key_of (KNode u) = Some kv → ∃ p, PeerInfo_valid p ∧ UUID p = u ∧ Proto.Marshal p = Ok (Value kv)).
    unfold put_key. rewrite lookup_insert_ne; [done|].
    intros E. apply key_of_inj in E; [done|unfold ekey_ok, in_width; lia|done].
Qed.
Lemma hx_fit : fit hx.
Proof.
  intros now Hn. assert (PeerInfo_Size (beat_info now hx) = 7 + size_varint_field (wrap64 now)) as Hsz.
  { unfold PeerInfo_Size, beat_info, seen_at, with_blocks. cbn [UUID Address LastSeen TotalBlocks Models.UsedBlocks TimedOut PRebalanceInfo ProtocolVersion].
    generalize (size_varint_field (wrap64 now)). intros z.
    change (size_bytes_field hx_a) with 3. change (size_varint_field (Store.UsedBlocks (sBlocks hx))) with 0.
    change (size_varint_field (NumBlocks (sBlocks hx))) with 2. change (size_varint_field (ProtocolVersion (peerInfo hx))) with 2.
    change (3 + 0 + z + 2 + 0 + 0 + 0 + 2 = 7 + z). lia. }
  split_and!; try done; [unfold u64, in_width; cbn; lia..|]. rewrite Hsz. unfold size_varint_field, sov.
  pose proof (sov_loop_bound 10 (wrap64 now)). case_decide; lia.
Qed.
Lemma hx_lock : has_lock 32 hx.
Proof. exists (Etcd.mkKV hx_a 1 7). split_and!; [vm_compute; reflexivity|done|done]. Qed.

Lemma hx_leases : 7 ∈ leases (view (sMDS hx)) ∧ 8 ∈ leases (view (sMDS hx)).
Proof. cbn. set_solver. Qed.

Lemma heartbeats_register_witness :
  ∃ s', heartbeat (PS := service hx_a) ([5] ++ [10]) hx = (Ok tt, s') ∧ registered 10 hx s'.
Proof.
  apply (heartbeats_register hx_a [5] 10 hx hx_sound hx_fit); [apply list.Forall_singleton|]; unfold int_range; lia.
Defined.

Lemma heartbeats_keep_lock_witness :
  ∃ s', heartbeat (PS := service hx_a) ([5] ++ [10]) hx = (Ok tt, s') ∧ has_lock 32 s'.
Proof.
  destruct (heartbeats_keep_lock hx_a [5] 10 hx 32 hx_sound hx_fit) as (s' & E & Hl & _);
    [apply list.Forall_singleton; unfold int_range; lia|unfold int_range; lia|unfold in_width; lia|done|apply hx_leases|apply hx_lock|exists s'; split; [exact E|exact Hl]].
Defined.

Lemma missed_heartbeat_loses_lock_witness :
  ∃ s2, heartbeat (PS := service hx_a) ([5] ++ [10]) (missed hx) = (Ok tt, s2) ∧ lease s2 ≠ 7 ∧
    ∃ d1, run (etcd_Lock (str "b") 8 32) (expire 7 (sMDS s2)) = (Ok tt, d1) ∧
      (run (etcd_SyncINode hx_a (mkINodeRef 32 4)) d1).1 = Err ErrLocked.
Proof.
  destruct (missed_heartbeat_loses_lock hx_a EOF 0 [5] 10 hx 32 (str "b") 8 (mkINodeRef 32 4) hx_sound hx_fit)
    as (s1 & s2 & E1 & E2 & _ & Hl & _ & Hd);
    [apply list.Forall_singleton; unfold int_range; lia|unfold int_range; lia|unfold in_width; lia|done|apply hx_leases|apply hx_lock
    |by_compute|done|done|apply hx_leases|done|].
  rewrite outage_run in E1. apply (f_equal snd) in E1. cbn [snd] in E1. subst s1. exists s2. split_and!; [exact E2|exact Hl|].
  destruct (Hd _ eq_refl) as (d1 & d2 & H1 & H2 & _). exists d1. split; [exact H1|exact (f_equal fst H2)].
Defined.

Lemma advertised_address_witness :
  ∃ u, advertiseURI (Ok []) (mkURL (str "http") (str "0.0.0.0:40000")) = Ok u ∧ SplitHostPort (Host u) = Ok (str "127.0.0.1", str "40000").
Proof.
  destruct (advertised_address (Ok []) (str "http") (str "0.0.0.0") (str "40000")) as (Ha & _ & _).
  destruct (Ha (str "127.0.0.1")) as (u & E & _ & Hs); [split_and!; by_compute|split_and!; by_compute|done|reflexivity|split_and!; by_compute|].
  by exists u.
Defined.
