(* ===== verification/Tdp.v ===== *)
(** * The data protocol between nodes

    Models [src/distributor/protocols/tdp]: the commands and replies, the bit set
    a rebalance check is answered with, the goroutine that serves a connection
    ([handle] and what it calls) and the client's [Conn] with its mutex, its
    deadlines and its keepalive.

    A server goroutine is a [proc]: a program whose steps are the reads and
    writes of the socket and the calls of the [Handler] it serves.  It is run
    against the bytes that arrive ([deliver]), so a request that is cut short
    leaves what the goroutine had done by then.  [conn.Read] returns some of the
    bytes asked for; the model hands them over one by one, and the loop of
    [readConnIntoBuffer] is the same for any other division. *)
From S2P Require Import Prelude GoSem Refs Store Models Ring Metadata MetaTemp LRU Distributor.

(** ** Bit sets *)

Abbreviation bitset := bytes.

(** The loop that appends zero bytes until the byte at [off] exists. *)
Definition grow (b : bitset) (off : nat) : bitset := b ++ zeros (Datatypes.S off - length b).

Definition set (i : nat) (b : bitset) : bitset :=
  let off := (i / 8)%nat in
  alter (λ x, byte_of_Z (Z.lor (byte_to_Z x) (Z.shiftl 1 (Z.of_nat (i mod 8))))) off (grow b off).

Definition unset (i : nat) (b : bitset) : bitset :=
  let off := (i / 8)%nat in
  alter (λ x, byte_of_Z (Z.ldiff (byte_to_Z x) (Z.shiftl 1 (Z.of_nat (i mod 8))))) off (grow b off).

Definition test (b : bitset) (i : nat) : bool :=
  match b !! (i / 8)%nat with
  | None => false
  | Some x => negb (bool_decide (Z.land (byte_to_Z x) (Z.shiftl 1 (Z.of_nat (i mod 8))) = 0))
  end.

(** The loop of [bitsetFromBool], from index [i] on. *)
Fixpoint from_bool (i : nat) (l : list bool) (b : bitset) : bitset :=
  match l with
  | [] => b
  | x :: l' => from_bool (Datatypes.S i) l' (if x then set i b else unset i b)
  end.
Definition bitsetFromBool (l : list bool) : bitset := from_bool 0 l [].

Definition toBool (b : bitset) (len : nat) : list bool := test b <$> seq 0 len.

(** ** Commands and replies *)

Definition cmdKeepAlive : byte := x00.
Definition cmdPutBlock : byte := x01.
Definition cmdBlock : byte := x02.
Definition cmdRebalanceCheck : byte := x03.
Definition respOk : byte := x01.
Definition respErr : byte := x02.

(** What the server serves: [tdp.Handler].  The server never calls [PutBlock]; it
    reads the data of a put into the slice [WriteBuf] gives. *)
Class Handler (H : Type) := {
  hslice : Type;
  h_deref : H → hslice → bytes;
  h_copy : hslice → nat → bytes → H → H;
  h_Block : BlockRef → M H hslice;
  h_PutBlock : BlockRef → bytes → M H unit;
  h_RebalanceCheck : list BlockRef → M H (list bool);
  h_WriteBuf : BlockRef → M H hslice;
}.

(** [distributor.ListenRPC] serves the distributor itself. *)
#[export] Instance dist_handler {S N : Type} `{B : BlockStore S} `{HN : Network N} `{HH : HashRing} `{HR : Range} `{HO : MapOrder} :
    Handler (Distributor (S := S) (N := N)) := {|
  hslice := slice;
  h_deref d sl := deref (blocks d) sl;
  h_copy sl off b := λ d, (on_blocks (modify (copy_to sl off b)) d).2;
  h_Block := serve_Block;
  h_PutBlock := serve_PutBlock;
  h_RebalanceCheck := serve_RebalanceCheck;
  h_WriteBuf := dist_WriteBuf;
|}.

Section tdp.
Context {H : Type} `{HD : Handler H}.

(** ** The goroutine of a connection *)

(** Where a read puts the bytes: a buffer of the goroutine's own or a slice the
    handler gave, which is the memory of its store. *)
Inductive buffer := Local (n : nat) | Shared (sl : hslice).

Definition buf_len (h : H) (b : buffer) : nat :=
  match b with Local n => n | Shared sl => length (h_deref h sl) end.
Definition buf_put (b : buffer) (off : nat) (x : bytes) (h : H) : H :=
  match b with Local _ => h | Shared sl => h_copy sl off x h end.

Inductive proc (A : Type) : Type :=
  | Ret (a : A)
  | Crash
  | Recv (b : buffer) (k : bytes + error → proc A)  (** [readConnIntoBuffer(conn, b)] *)
  | Send (b : H → bytes) (k : option error → proc A)  (** [conn.Write(b)] *)
  | CallBlock (r : BlockRef) (k : hslice + error → proc A)
  | CallWriteBuf (r : BlockRef) (k : hslice + error → proc A)
  | CallRebalanceCheck (l : list BlockRef) (k : list bool + error → proc A).
#[global] Arguments Ret {A} _.
#[global] Arguments Crash {A}.
#[global] Arguments Recv {A} _ _.
#[global] Arguments Send {A} _ _.
#[global] Arguments CallBlock {A} _ _.
#[global] Arguments CallWriteBuf {A} _ _.
#[global] Arguments CallRebalanceCheck {A} _ _.

#[global] Instance proc_ret : MRet proc := λ A a, Ret a.
Fixpoint proc_bind_def {A B} (f : A → proc B) (p : proc A) : proc B :=
  match p with
  | Ret a => f a
  | Crash => Crash
  | Recv b k => Recv b (λ x, proc_bind_def f (k x))
  | Send b k => Send b (λ x, proc_bind_def f (k x))
  | CallBlock r k => CallBlock r (λ x, proc_bind_def f (k x))
  | CallWriteBuf r k => CallWriteBuf r (λ x, proc_bind_def f (k x))
  | CallRebalanceCheck l k => CallRebalanceCheck l (λ x, proc_bind_def f (k x))
  end.
#[global] Instance proc_bind : MBind proc := @proc_bind_def.

Definition readConnIntoBuffer (b : buffer) : proc (bytes + error) := Recv b mret.
Definition conn_write (b : H → bytes) : proc (option error) := Send b mret.
Definition of_res {A} (r : res A) : proc A := match r with Ok a => Ret a | _ => Crash end.

(** The slice that is returned with an error is nil, and writing it writes
    nothing. *)
Definition handleBlock : proc (option error) :=
  r ← readConnIntoBuffer (Local BlockRefByteSize);
  match r with
  | inr e => mret (Some e)
  | inl refbuf =>
      ref ← of_res (BlockRefFromBytes refbuf);
      data ← CallBlock ref mret;
      let respheader := match data with inl _ => respOk | inr _ => respErr end in
      err ← conn_write (λ _, [respheader]);
      match err with
      | Some e => mret (Some e)
      | None => conn_write (λ h, match data with inl sl => h_deref h sl | inr _ => [] end)
      end
  end.

(** [null] is a buffer of a block's size for the data of a block that is there
    already. *)
Definition handlePutBlock (blocksize : Z) : proc (option error) :=
  r ← readConnIntoBuffer (Local BlockRefByteSize);
  match r with
  | inr e => mret (Some e)
  | inl refbuf =>
      ref ← of_res (BlockRefFromBytes refbuf);
      data ← CallWriteBuf ref mret;
      match data with
      | inr e =>
          if decide (e = ErrExists) then
            r ← readConnIntoBuffer (Local (Z.to_nat blocksize));
            match r with inr e => mret (Some e) | inl _ => conn_write (λ _, [respOk]) end
          else mret (Some e)
      | inl sl =>
          r ← readConnIntoBuffer (Shared sl);
          match r with inr e => mret (Some e) | inl _ => conn_write (λ _, [respOk]) end
      end
  end.

(** The loop that reads [n] references after those in [refs]. *)
Fixpoint read_refs (n : nat) (refs : list BlockRef) : proc (list BlockRef + error) :=
  match n with
  | O => mret (inl refs)
  | Datatypes.S n' =>
      r ← readConnIntoBuffer (Local BlockRefByteSize);
      match r with
      | inr e => mret (inr e)
      | inl refbuf => ref ← of_res (BlockRefFromBytes refbuf); read_refs n' (refs ++ [ref])
      end
  end.

Definition handleRebalanceCheck (n : nat) : proc (option error) :=
  r ← read_refs n [];
  match r with
  | inr e => mret (Some e)
  | inl refs =>
      bools ← CallRebalanceCheck refs mret;
      let respheader := match bools with inl _ => respOk | inr _ => respErr end in
      err ← conn_write (λ _, [respheader]);
      match err with
      | Some e => mret (Some e)
      | None => conn_write (λ _, bitsetFromBool (match bools with inl l => l | inr _ => [] end))
      end
  end.

(** One round of the loop of [handle] after the read of the header; [true] goes
    on with the loop, [false] returns.  The error of a rebalance check goes to a
    variable of the inner scope, so it is not looked at. *)
Definition on_header (blocksize : Z) (r : bytes + error) : proc bool :=
  match r with
  | inr _ => mret false
  | inl header =>
      match header with
      | [c] =>
          if decide (c = cmdKeepAlive) then mret true
          else if decide (c = cmdBlock) then
            err ← handleBlock; mret (bool_decide (err = None))
          else if decide (c = cmdPutBlock) then
            err ← handlePutBlock blocksize; mret (bool_decide (err = None))
          else if decide (c = cmdRebalanceCheck) then
            r ← readConnIntoBuffer (Local 1);
            match r with
            | inl [n] => _ ← handleRebalanceCheck (Z.to_nat (byte_to_Z n)); mret true
            | _ => mret true
            end
          else mret false
      | _ => Crash
      end
  end.

(** ** Running the goroutine *)

(** The goroutine waits in a read that has part of its bytes, has returned and
    closed the connection, or has taken the process down. *)
Inductive thread :=
  | Reading (b : buffer) (got : bytes) (k : bytes + error → proc bool)
  | Returned
  | Crashed.

(** [pipe] are the bytes on their way to the client. *)
Record server := mkServer { blocksize : Z; hs : H; th : thread; pipe : bytes }.

(** [up]: the connection is open.  A read of no bytes returns at once; on a
    connection that is gone every read and write fails. *)
Fixpoint run (bs : Z) (up : bool) (p : proc bool) (h : H) (out : bytes) : server :=
  match p with
  | Ret true => mkServer bs h (if up then Reading (Local 1) [] (on_header bs) else Returned) out
  | Ret false => mkServer bs h Returned out
  | Crash => mkServer bs h Crashed out
  | Recv b k =>
      if decide (buf_len h b = 0%nat) then run bs up (k (inl [])) h out
      else if up then mkServer bs h (Reading b [] k) out
      else run bs up (k (inr EOF)) h out
  | Send b k => if up then run bs up (k None) h (out ++ b h) else run bs up (k (Some ErrClosed)) h out
  | CallBlock r k =>
      match h_Block r h with
      | (Ok sl, h') => run bs up (k (inl sl)) h' out
      | (Err e, h') => run bs up (k (inr e)) h' out
      | (Panic, h') => mkServer bs h' Crashed out
      end
  | CallWriteBuf r k =>
      match h_WriteBuf r h with
      | (Ok sl, h') => run bs up (k (inl sl)) h' out
      | (Err e, h') => run bs up (k (inr e)) h' out
      | (Panic, h') => mkServer bs h' Crashed out
      end
  | CallRebalanceCheck l k =>
      match h_RebalanceCheck l h with
      | (Ok bools, h') => run bs up (k (inl bools)) h' out
      | (Err e, h') => run bs up (k (inr e)) h' out
      | (Panic, h') => mkServer bs h' Crashed out
      end
  end.

(** A goroutine for a new connection. *)
Definition handle (bs : Z) (h : H) : server := mkServer bs h (Reading (Local 1) [] (on_header bs)) [].

(** A byte arrives. *)
Definition deliver1 (s : server) (x : byte) : server :=
  let bs := blocksize s in
  match th s with
  | Reading b got k =>
      let h := buf_put b (length got) [x] (hs s) in
      if decide (buf_len h b ≤ length got + 1)%nat then run bs true (k (inl (got ++ [x]))) h (pipe s)
      else mkServer bs h (Reading b (got ++ [x]) k) (pipe s)
  | _ => s
  end.
Definition deliver (b : bytes) (s : server) : server := foldl deliver1 s b.

(** The connection ends. *)
Definition hangup (s : server) : server :=
  match th s with
  | Reading b got k => run (blocksize s) false (k (inr EOF)) (hs s) (pipe s)
  | _ => s
  end.

(** ** The client *)

(** What happens to a read or a write of the client: nothing, the deadline after
    some bytes, or the end of the connection after some bytes. *)
Inductive event := Clear | Deadline (k : nat) | Break (k : nat).

Definition ErrTimeout : error := ErrMsg "i/o timeout".
Definition ErrServer : error := ErrMsg "server error".

(** [err] is a field of the Go struct that nothing sets.  [mainLoop] is whether
    that goroutine runs. *)
Record Conn := mkConn {
  srv : server;
  up : bool;
  mut : bool;
  closed : bool;
  mainLoop : bool;
  blockSize : Z;
  events : list event;
}.

Definition Dial (bs : Z) (h : H) (ev : list event) : Conn :=
  mkConn (handle bs h) true false false true (to_signed 64 bs) ev.

Definition set_net (s : server) (u : bool) (ev : list event) (c : Conn) : Conn :=
  mkConn s u (mut c) (closed c) (mainLoop c) (blockSize c) ev.

Definition next_event (c : Conn) : event := default Clear (head (events c)).

Definition set_pipe (b : bytes) (s : server) : server := mkServer (blocksize s) (hs s) (th s) b.

(** [c.conn.Write(b)] *)
Definition net_write (b : bytes) : M Conn unit := λ c,
  if up c then
    match next_event c with
    | Clear => (Ok tt, set_net (deliver b (srv c)) true (tail (events c)) c)
    | Deadline k =>
        (Err ErrTimeout, set_net (deliver (take k b) (srv c)) true (tail (events c)) c)
    | Break k =>
        (Err ErrClosed,
         set_net (hangup (deliver (take k b) (srv c))) false (tail (events c)) c)
    end
  else (Err ErrClosed, c).

(** [readConnIntoBuffer(c.conn, buf)] for a buffer of [n] bytes.  When the bytes
    do not come, the read fails at the deadline, or at once when the other side
    has closed. *)
Definition net_read (n : nat) : M Conn bytes := λ c,
  let s := srv c in
  if decide (n = 0%nat) then (Ok [], c)
  else if up c then
    match next_event c with
    | Clear =>
        if decide (n ≤ length (pipe s))%nat then
          (Ok (take n (pipe s)), set_net (set_pipe (drop n (pipe s)) s) true (tail (events c)) c)
        else
          (Err (match th s with Reading _ _ _ => ErrTimeout | _ => EOF end),
           set_net (set_pipe [] s) true (tail (events c)) c)
    | Deadline k =>
        (Err ErrTimeout, set_net (set_pipe (drop (Nat.min k (n - 1)) (pipe s)) s) true (tail (events c)) c)
    | Break k => (Err ErrClosed, set_net (hangup s) false (tail (events c)) c)
    end
  else (Err ErrClosed, c).

(** [c.mut.Lock(); defer c.mut.Unlock()]: the calls of one connection come one
    after the other. *)
Definition locked {A} (m : M Conn A) : M Conn A := λ c, if mut c then (Err ErrForever, c) else m c.

(** [make] of a negative size panics. *)
Definition make_len (n : Z) : res nat := if decide (n < 0) then Panic else Ok (Z.to_nat n).

(** [fmt.Errorf(msg + ": %v", err)] *)
Definition or_say {A} (msg : string) (m : M Conn A) : M Conn A := λ c,
  match m c with (Err _, c') => (Err (ErrMsg msg), c') | x => x end.

Definition Block (ref : BlockRef) : M Conn bytes := locked (
  _ ← or_say "couldn't write" (net_write (cmdBlock :: BlockRef_ToBytes ref));
  h ← net_read 1;
  if decide (h = [respErr]) then throw ErrServer
  else
    c ← get;
    n ← lift (make_len (blockSize c));
    net_read n).

Definition PutBlock (ref : BlockRef) (data : bytes) : M Conn unit := locked (
  _ ← or_say "couldn't write" (net_write (cmdPutBlock :: BlockRef_ToBytes ref));
  _ ← or_say "couldn't write data" (net_write data);
  h ← net_read 1;
  if decide (h = [respErr]) then throw ErrServer else mret tt).

Fixpoint write_refs (refs : list BlockRef) : M Conn unit :=
  match refs with
  | [] => mret tt
  | ref :: refs' => _ ← or_say "couldn't write ref" (net_write (BlockRef_ToBytes ref)); write_refs refs'
  end.

(** Go's division rounds towards zero. *)
Definition RebalanceCheck (refs : list BlockRef) : M Conn (list bool) :=
  if decide (255 < length refs)%nat then throw (ErrMsg "too many references for one request")
  else locked (
    _ ← or_say "couldn't write" (net_write [cmdRebalanceCheck; byte_of_Z (Z.of_nat (length refs))]);
    _ ← write_refs refs;
    let size := Z.quot (Z.of_nat (length refs) - 1) 8 + 1 in
    h ← net_read 1;
    if decide (h = [respErr]) then throw ErrServer
    else
      data ← net_read (Z.to_nat size);
      mret (toBool data (length refs))).

(** The branch of [mainLoop] that runs every two seconds.  When the write fails
    the goroutine returns without unlocking the mutex. *)
Definition keepAlive : M Conn unit := λ c,
  if mainLoop c then
    locked (λ c,
      match net_write [cmdKeepAlive] c with
      | (Ok _, c') => (Ok tt, c')
      | (o, c') => (o, mkConn (srv c') (up c') true (closed c') false (blockSize c') (events c'))
      end) c
  else (Ok tt, c).

(** [Close] closes the channel [mainLoop] waits on, which then closes the
    connection. *)
Definition Close : M Conn unit := locked (λ c,
  if closed c then (Ok tt, c)
  else
    (Ok tt,
     if mainLoop c
     then mkConn (if up c then hangup (srv c) else srv c) false (mut c) true false (blockSize c) (events c)
     else mkConn (srv c) (up c) (mut c) true false (blockSize c) (events c))).
End tdp.

#[global] Arguments proc H {_} A.
#[global] Arguments buffer H {_}.
#[global] Arguments server H {_}.
#[global] Arguments Conn H {_}.
