(* ===== verification/TdpSpec.v ===== *)
(** * The data protocol is transparent on an intact connection, and what happens
    on one that is not

    A session of calls through a [Conn] is compared with the same calls made on
    the handler directly ([direct]).  [HandlerLaws] is what the protocol needs of
    the handler; a distributor over the mmap store has it. *)
From S2P Require Import Prelude GoSem Refs MFile Store Models Ring Metadata MetaTemp LRU Distributor Cluster Tdp.

(** ** Bit sets *)

Lemma length_grow b off : length (grow b off) = Nat.max (length b) (Datatypes.S off).
Proof. unfold grow. rewrite length_app, length_zeros. lia. Qed.

Definition bit (x : byte) (j : nat) : bool := Z.testbit (byte_to_Z x) (Z.of_nat j).

Lemma byte_high x j : 8 ≤ j → Z.testbit (byte_to_Z x) j = false.
Proof.
  intros Hj. pose proof (byte_to_Z_range x).
  destruct (decide (byte_to_Z x = 0)) as [->|Hn]; [apply Z.testbit_0_l|].
  apply Z.bits_above_log2; [lia|]. apply Z.log2_lt_pow2; [lia|].
  apply Z.lt_le_trans with (2 ^ 8); [simpl; lia|]. apply Z.pow_le_mono_r; lia.
Qed.

Lemma bit_of_Z z j : (j < 8)%nat → bit (byte_of_Z z) j = Z.testbit z (Z.of_nat j).
Proof. intros Hj. unfold bit. rewrite byte_to_of_Z. change 256 with (2 ^ 8). apply Z.mod_pow2_bits_low. lia. Qed.

Lemma test_bit b i : test b i = match b !! (i / 8)%nat with Some x => bit x (i mod 8) | None => false end.
Proof.
  unfold test. destruct (b !! _) as [x|]; [|done]. pose proof (Nat.mod_upper_bound i 8).
  replace (Z.land (byte_to_Z x) (Z.shiftl 1 (Z.of_nat (i mod 8)))) with
    (if bit x (i mod 8) then Z.shiftl 1 (Z.of_nat (i mod 8)) else 0).
  - destruct (bit x _); [|by rewrite bool_decide_true].
    rewrite bool_decide_false; [done|]. rewrite Z.shiftl_1_l. apply Z.pow_nonzero; lia.
  - apply Z.bits_inj'. intros j Hj. rewrite Z.land_spec, Z.shiftl_1_l, Z.pow2_bits_eqb by lia.
    unfold bit. destruct (Z.eqb_spec (Z.of_nat (i mod 8)) j) as [<-|Hne].
    + rewrite andb_true_r. destruct (Z.testbit (byte_to_Z x) _); [|apply Z.testbit_0_l].
      rewrite Z.pow2_bits_eqb by lia. apply Z.eqb_refl.
    + rewrite andb_false_r. destruct (Z.testbit (byte_to_Z x) _); [|apply Z.testbit_0_l].
      rewrite Z.pow2_bits_eqb by lia. by apply Z.eqb_neq.
Qed.

Lemma grow_lookup b off i : (grow b off) !! i = match b !! i with Some x => Some x | None => if decide (i ≤ off)%nat then Some x00 else None end.
Proof.
  unfold grow. destruct (b !! i) as [x|] eqn:E; [by apply lookup_app_l_Some|].
  apply lookup_ge_None in E. rewrite lookup_app_r, zeros_lookup by done.
  repeat case_decide; [done|lia|lia|done].
Qed.

(** The two updates change one bit. *)
Definition set_bit (x : bool) (i : nat) (b : bitset) : bitset := if x then set i b else unset i b.

Definition new_byte (x : bool) (k : nat) (y : byte) : byte :=
  if x then byte_of_Z (Z.lor (byte_to_Z y) (Z.shiftl 1 (Z.of_nat k)))
  else byte_of_Z (Z.ldiff (byte_to_Z y) (Z.shiftl 1 (Z.of_nat k))).

Lemma bit_new_byte x k y j : (j < 8)%nat → bit (new_byte x k y) j = if decide (j = k) then x else bit y j.
Proof.
  intros Hj. unfold new_byte. destruct x; rewrite bit_of_Z by done;
    rewrite ?Z.lor_spec, ?Z.ldiff_spec, Z.shiftl_1_l, Z.pow2_bits_eqb by lia; unfold bit; case_decide as E.
  1, 3: subst; rewrite Z.eqb_refl; by destruct (Z.testbit _ _).
  all: rewrite (proj2 (Z.eqb_neq _ _)) by lia; by destruct (Z.testbit _ _).
Qed.

Lemma set_bit_lookup x i b j :
  set_bit x i b !! j = (if decide (j = i / 8)%nat then new_byte x (i mod 8) else λ y, y) <$> grow b (i / 8) !! j.
Proof.
  unfold set_bit, set, unset, new_byte. case_decide as Hd.
  - subst j. destruct x; by rewrite list_lookup_alter_eq.
  - destruct x; rewrite list_lookup_alter_ne by congruence; by destruct (grow b (i / 8) !! j).
Qed.

Lemma test_set_bit x i b j : test (set_bit x i b) j = if decide (j = i) then x else test b j.
Proof.
  rewrite !test_bit, set_bit_lookup, grow_lookup.
  pose proof (Nat.div_mod_eq i 8) as Hi. pose proof (Nat.div_mod_eq j 8) as Hj.
  pose proof (Nat.mod_upper_bound j 8 ltac:(lia)) as Hj8.
  destruct (decide (j / 8 = i / 8)%nat) as [Hd|Hd].
  - rewrite Hd, (decide_True (P := (i / 8 ≤ i / 8)%nat)) by lia.
    destruct (b !! (i / 8)%nat) as [y|] eqn:E; cbn [fmap option_fmap option_map]; rewrite bit_new_byte by done;
      destruct (decide (j = i)) as [->|]; [by rewrite decide_True|by rewrite decide_False by lia|
        by rewrite decide_True|rewrite decide_False by lia; apply Z.testbit_0_l].
  - rewrite (decide_False (P := (j = i))) by congruence.
    destruct (b !! (j / 8)%nat) as [y|] eqn:E; [done|]. case_decide; [apply Z.testbit_0_l|done].
Qed.

Lemma test_from_bool l : ∀ i b j,
  test (from_bool i l b) j = if decide (i ≤ j)%nat then default (test b j) (l !! (j - i)%nat) else test b j.
Proof.
  induction l as [|x l IH]; intros i b j; simpl; [by case_decide|].
  rewrite IH. change (if x then set i b else unset i b) with (set_bit x i b). rewrite test_set_bit.
  destruct (decide (j = i)) as [->|Hne].
  - rewrite decide_False, decide_True by lia. by rewrite Nat.sub_diag.
  - destruct (decide (Datatypes.S i ≤ j)%nat).
    + rewrite decide_True by lia. replace (j - i)%nat with (Datatypes.S (j - Datatypes.S i)) by lia. done.
    + by rewrite decide_False by lia.
Qed.

Lemma bitset_back l : toBool (bitsetFromBool l) (length l) = l.
Proof.
  apply list_eq. intros j. unfold toBool, bitsetFromBool. rewrite list_lookup_fmap.
  destruct (decide (j < length l)%nat) as [Hj|Hj].
  - rewrite lookup_seq_lt by done. simpl. rewrite test_from_bool, decide_True, Nat.sub_0_r by lia.
    by destruct (lookup_lt_is_Some_2 l j Hj) as [x ->].
  - rewrite lookup_seq_ge, lookup_ge_None_2 by lia. done.
Qed.

Lemma length_from_bool l : ∀ i b, (length b = (i + 7) / 8)%nat → length (from_bool i l b) = ((i + length l + 7) / 8)%nat.
Proof.
  induction l as [|x l IH]; intros i b Hb; cbn [from_bool length]; [by rewrite Nat.add_0_r|].
  rewrite IH; [do 2 f_equal; lia|].
  assert (length (if x then set i b else unset i b) = Nat.max (length b) (Datatypes.S (i / 8))) as ->.
  { destruct x; unfold set, unset; by rewrite length_alter, length_grow. }
  rewrite Hb. replace (Datatypes.S i + 7)%nat with (i + 1 * 8)%nat by lia. rewrite Nat.div_add by lia.
  assert ((i + 7) / 8 ≤ i / 8 + 1)%nat; [|lia].
  replace (i / 8 + 1)%nat with ((i + 1 * 8) / 8)%nat by (by rewrite Nat.div_add). apply Nat.Div0.div_le_mono. lia.
Qed.

Lemma length_bitsetFromBool l : length (bitsetFromBool l) = ((length l + 7) / 8)%nat.
Proof. apply (length_from_bool l 0 []). done. Qed.

(** ** What the protocol needs of the handler *)

(** [h_inv bs] is the handler's invariant for blocks of [bs] bytes, [h_live] the
    slices that can be written. *)
Class HandlerLaws (H : Type) `{HD : Handler H} := {
  h_inv : Z → H → Prop;
  h_valid : BlockRef → Prop;
  h_live : H → hslice → Prop;
  h_Block_spec bs r h : h_inv bs h →
    match h_Block r h with
    | (Ok sl, h') => h_inv bs h' ∧ Z.of_nat (length (h_deref h' sl)) = bs
    | (Err _, h') => h_inv bs h'
    | (Panic, _) => False
    end;
  h_Check_spec bs l h : h_inv bs h →
    match h_RebalanceCheck l h with
    | (Ok out, h') => h_inv bs h' ∧ length out = length l
    | (Err _, h') => h_inv bs h'
    | (Panic, _) => False
    end;
  h_WriteBuf_spec bs r h : h_inv bs h → h_valid r →
    match h_WriteBuf r h with
    | (Ok sl, h') => h_inv bs h' ∧ h_live h' sl ∧ Z.of_nat (length (h_deref h' sl)) = bs
    | (Err _, h') => h_inv bs h'
    | (Panic, _) => False
    end;
  h_copy_spec bs sl off b h : h_inv bs h → h_live h sl → (off + length b ≤ length (h_deref h sl))%nat →
    h_inv bs (h_copy sl off b h) ∧ h_live (h_copy sl off b h) sl ∧
    h_deref (h_copy sl off b h) sl = blit off b (h_deref h sl);
  h_copy_app bs sl off a b h : h_inv bs h → h_live h sl →
    (off + length (a ++ b) ≤ length (h_deref h sl))%nat →
    h_copy sl (off + length a) b (h_copy sl off a h) = h_copy sl off (a ++ b) h;
}.

Section session.
Context {H : Type} `{HL : HandlerLaws H}.

(** ** The bytes of a request arrive *)

Lemma deliver_app a b (s : server H) : deliver (a ++ b) s = deliver b (deliver a s).
Proof. apply foldl_app. Qed.

Lemma deliver_local n b : ∀ bs h got k out,
  b ≠ [] → (length got + length b = n)%nat →
  deliver b (mkServer bs h (Reading (Local n) got k) out) = run bs true (k (inl (got ++ b))) h out.
Proof.
  induction b as [|x b IH]; intros bs h got k out Hb Hn; [done|].
  change (deliver (x :: b) ?s) with (deliver b (deliver1 s x)). unfold deliver1; simpl.
  destruct b as [|y b]; case_decide as Hd; simpl in *; try lia; [done|].
  rewrite IH; [by rewrite <-(assoc_L (++))|done|]. rewrite length_app. simpl. lia.
Qed.

(** Into the memory of the handler: the part of a block that arrived is there. *)
Lemma deliver_shared_part bs sl b : ∀ h got k out,
  h_inv bs h → h_live h sl → b ≠ [] → (length got + length b < length (h_deref h sl))%nat →
  deliver b (mkServer bs h (Reading (Shared sl) got k) out) =
    mkServer bs (h_copy sl (length got) b h) (Reading (Shared sl) (got ++ b) k) out.
Proof.
  induction b as [|x b IH]; intros h got k out Hi Hl Hb Hn; [done|]. cbn [length] in Hn.
  destruct (h_copy_spec bs sl (length got) [x] h Hi Hl) as (Hi1 & Hl1 & Hd1); [simpl; lia|].
  change (deliver (x :: b) ?s) with (deliver b (deliver1 s x)). unfold deliver1; cbn [th buf_put buf_len hs pipe blocksize].
  rewrite Hd1, length_blit, decide_False by lia.
  destruct b as [|y b]; [done|].
  rewrite IH; [|done|done|done|rewrite Hd1, length_blit, length_app; simpl in *; lia].
  rewrite <-(assoc_L (++)). f_equal. rewrite length_app.
  change (x :: y :: b) with ([x] ++ y :: b). apply h_copy_app with bs; [done..|]. simpl in *. lia.
Qed.

Lemma deliver_shared bs sl b h k out :
  h_inv bs h → h_live h sl → b ≠ [] → length b = length (h_deref h sl) →
  deliver b (mkServer bs h (Reading (Shared sl) [] k) out) = run bs true (k (inl b)) (h_copy sl 0 b h) out.
Proof.
  intros Hi Hl Hb Hn. destruct b as [|x b' _] using rev_ind; [done|].
  rewrite length_app in Hn. simpl in Hn. destruct b' as [|y b'].
  - unfold deliver, deliver1. simpl. destruct (h_copy_spec bs sl 0 [x] h Hi Hl) as (_ & _ & Hd); [simpl in *; lia|].
    rewrite Hd, length_blit, decide_True by (simpl in *; lia). done.
  - rewrite deliver_app, (deliver_shared_part bs) by (try done; simpl in *; lia). cbn [app].
    unfold deliver, deliver1. cbn [foldl th buf_put buf_len hs pipe blocksize].
    rewrite (h_copy_app bs sl 0 (y :: b') [x]) by (try done; rewrite length_app; simpl in *; lia).
    destruct (h_copy_spec bs sl 0 ((y :: b') ++ [x]) h Hi Hl) as (_ & _ & Hd); [rewrite length_app; simpl in *; lia|].
    rewrite Hd, length_blit, decide_True by (simpl in *; lia). done.
Qed.

(** ** The three requests *)

(** The goroutine waits for a command. *)
Definition idle (bs : Z) (h : H) (out : bytes) : server H := mkServer bs h (Reading (Local 1) [] (on_header bs)) out.

Lemma ToBytes_nonempty r : BlockRef_ToBytes r ≠ [].
Proof. intros E%(f_equal length). by rewrite length_BlockRef_ToBytes in E. Qed.

Lemma deliver_ref bs h k out r :
  wf_blockref r →
  deliver (BlockRef_ToBytes r) (mkServer bs h (Reading (Local BlockRefByteSize) [] k) out) =
    run bs true (k (inl (BlockRef_ToBytes r))) h out.
Proof. intros Hr. rewrite deliver_local; [done|apply ToBytes_nonempty|apply length_BlockRef_ToBytes]. Qed.

Lemma deliver_Block bs h out r :
  wf_blockref r →
  deliver (cmdBlock :: BlockRef_ToBytes r) (idle bs h out) =
    match h_Block r h with
    | (Ok sl, h') => idle bs h' (out ++ respOk :: h_deref h' sl)
    | (Err _, h') => idle bs h' (out ++ [respErr])
    | (Panic, h') => mkServer bs h' Crashed out
    end.
Proof.
  intros Hr. change (deliver (?x :: ?b) ?s) with (deliver b (deliver1 s x)).
  etrans; [by apply deliver_ref|]. cbn -[BlockRefFromBytes]. rewrite BlockRef_bytes_roundtrip_aux by done. cbn.
  destruct (h_Block r h) as [[sl|e|] h']; cbn; try done.
  - by rewrite <-(assoc_L (++)).
  - by rewrite app_nil_r.
Qed.

(** The goroutine's next step when the data of a block has arrived. *)
Definition put_rest (r : bytes + error) : proc H bool :=
  err ← match r with inr e => mret (Some e) | inl _ => conn_write (λ _, [respOk]) end;
  mret (bool_decide (err = None)).

Lemma deliver_PutBlock bs h out r :
  wf_blockref r → h_inv bs h → h_valid r → 0 < bs →
  deliver (cmdPutBlock :: BlockRef_ToBytes r) (idle bs h out) =
    match h_WriteBuf r h with
    | (Ok sl, h') => mkServer bs h' (Reading (Shared sl) [] put_rest) out
    | (Err ErrExists, h') => mkServer bs h' (Reading (Local (Z.to_nat bs)) [] put_rest) out
    | (Err _, h') => mkServer bs h' Returned out
    | (Panic, h') => mkServer bs h' Crashed out
    end.
Proof.
  intros Hr Hi Hv Hbs. pose proof (h_WriteBuf_spec bs r h Hi Hv) as Hs.
  change (deliver (?x :: ?b) ?s) with (deliver b (deliver1 s x)).
  etrans; [by apply deliver_ref|]. cbn -[BlockRefFromBytes]. rewrite BlockRef_bytes_roundtrip_aux by done. cbn.
  destruct (h_WriteBuf r h) as [[sl|e|] h']; cbn; try done.
  - destruct Hs as (_ & _ & Hl). rewrite decide_False by lia. done.
  - case_decide as He; [subst e|by destruct e]. cbn. rewrite decide_False by lia. done.
Qed.

Lemma deliver_refs {A} (f : A → proc H bool) (g : list BlockRef + error → proc H A) bs h out refs : ∀ acc,
  Forall wf_blockref refs →
  deliver (concat (BlockRef_ToBytes <$> refs)) (run bs true ((read_refs (length refs) acc ≫= g) ≫= f) h out) =
    run bs true (g (inl (acc ++ refs)) ≫= f) h out.
Proof.
  induction refs as [|r refs IH]; intros acc Hw; [by rewrite app_nil_r|].
  apply list.Forall_cons in Hw as [Hr Hw]. cbn [fmap list_fmap concat]. rewrite deliver_app.
  replace (acc ++ r :: refs) with ((acc ++ [r]) ++ refs) by (by rewrite <-(assoc_L (++))).
  rewrite <-IH by done. f_equal. etrans; [by apply deliver_ref|].
  cbn -[BlockRefFromBytes read_refs]. by rewrite BlockRef_bytes_roundtrip_aux by done.
Qed.

Lemma deliver_Check bs h out refs :
  Forall wf_blockref refs → (length refs ≤ 255)%nat →
  deliver (concat (BlockRef_ToBytes <$> refs))
      (deliver [cmdRebalanceCheck; byte_of_Z (Z.of_nat (length refs))] (idle bs h out)) =
    match h_RebalanceCheck refs h with
    | (Ok l, h') => idle bs h' (out ++ respOk :: bitsetFromBool l)
    | (Err _, h') => idle bs h' (out ++ [respErr])
    | (Panic, h') => mkServer bs h' Crashed out
    end.
Proof.
  intros Hw Hn. trans (deliver (concat (BlockRef_ToBytes <$> refs))
    (run bs true (handleRebalanceCheck (Z.to_nat (byte_to_Z (byte_of_Z (Z.of_nat (length refs))))) ≫= λ _, mret true) h out)).
  { done. }
  rewrite byte_to_of_Z, Z.mod_small, Nat2Z.id by lia. unfold handleRebalanceCheck. rewrite deliver_refs by done. cbn.
  destruct (h_RebalanceCheck refs h) as [[l|e|] h']; cbn; try done.
  - by rewrite <-(assoc_L (++)).
  - by rewrite app_nil_r.
Qed.

(** ** The client on an intact connection *)

(** The client's end of a connection on which nothing fails. *)
Definition clean (bs : Z) (s : server H) : Conn H := mkConn s true false false true bs [].

Lemma clean_write msg bs b s : or_say msg (net_write b) (clean bs s) = (Ok tt, clean bs (deliver b s)).
Proof. done. Qed.

Lemma clean_read bs n s : (0 < n ≤ length (pipe s))%nat →
  net_read n (clean bs s) = (Ok (take n (pipe s)), clean bs (set_pipe (drop n (pipe s)) s)).
Proof. intros Hn. unfold net_read. cbn. rewrite decide_False, decide_True by lia. done. Qed.

Lemma clean_read1 bs x h out :
  net_read 1 (clean bs (idle bs h (x :: out))) = (Ok [x], clean bs (idle bs h out)).
Proof. rewrite clean_read by (simpl; lia). cbn. rewrite take_0, drop_0. done. Qed.

Lemma clean_read_all bs n h b : (0 < n)%nat → length b = n →
  net_read n (clean bs (idle bs h b)) = (Ok b, clean bs (idle bs h [])).
Proof. intros Hp Hn. rewrite clean_read by (simpl; lia). cbn. by rewrite take_ge, drop_ge by lia. Qed.

Lemma Block_clean bs r h :
  wf_blockref r → 0 < bs → h_inv bs h →
  match h_Block r h with
  | (Ok sl, h') => Block r (clean bs (idle bs h [])) = (Ok (h_deref h' sl), clean bs (idle bs h' []))
  | (_, h') => Block r (clean bs (idle bs h [])) = (Err ErrServer, clean bs (idle bs h' []))
  end.
Proof.
  intros Hr Hbs Hi. pose proof (h_Block_spec bs r h Hi) as Hs. unfold Block, locked. cbn [mut clean].
  pose proof (clean_write "couldn't write" bs (cmdBlock :: BlockRef_ToBytes r) (idle bs h [])) as Hw.
  rewrite deliver_Block in Hw by done. destruct (h_Block r h) as [[sl|e|] h']; [|by run_step Hw; run_step (clean_read1 bs respErr h' [])|done].
  destruct Hs as [_ Hl]. run_step Hw. run_step (clean_read1 bs respOk h' (h_deref h' sl)).
  rewrite decide_False by done. assert (make_len bs = Ok (Z.to_nat bs)) as Hm by (unfold make_len; by rewrite decide_False by lia).
  unfold mbind, M_bind, get, lift. cbn [blockSize clean]. rewrite Hm. apply clean_read_all; lia.
Qed.

Lemma PutBlock_clean bs r data h :
  wf_blockref r → 0 < bs → h_inv bs h → h_valid r → Z.of_nat (length data) = bs →
  match h_WriteBuf r h with
  | (Ok sl, h') => PutBlock r data (clean bs (idle bs h [])) = (Ok tt, clean bs (idle bs (h_copy sl 0 data h') []))
  | (Err ErrExists, h') => PutBlock r data (clean bs (idle bs h [])) = (Ok tt, clean bs (idle bs h' []))
  | (_, h') => PutBlock r data (clean bs (idle bs h [])) = (Err EOF, clean bs (mkServer bs h' Returned []))
  end.
Proof.
  intros Hr Hbs Hi Hv Hd. pose proof (h_WriteBuf_spec bs r h Hi Hv) as Hs. unfold PutBlock, locked. cbn [mut clean].
  pose proof (clean_write "couldn't write" bs (cmdPutBlock :: BlockRef_ToBytes r) (idle bs h [])) as Hw.
  rewrite deliver_PutBlock in Hw by done.
  assert (data ≠ []) as Hne by (intros ->; simpl in Hd; lia).
  assert (∀ h', deliver data (mkServer bs h' Returned []) = mkServer bs h' Returned []) as Hret.
  { intros h'. clear. induction data as [|x l IH]; [done|apply IH]. }
  destruct (h_WriteBuf r h) as [[sl|e|] h']; [| |done].
  - destruct Hs as (Hi' & Hl & Hlen). run_step Hw. run_step (clean_write "couldn't write data" bs data (mkServer bs h' (Reading (Shared sl) [] put_rest) [])).
    rewrite (deliver_shared bs) by (try done; lia). cbn [put_rest]. by run_step (clean_read1 bs respOk (h_copy sl 0 data h') []).
  - destruct e; run_step Hw;
      first [ run_step (clean_write "couldn't write data" bs data (mkServer bs h' (Reading (Local (Z.to_nat bs)) [] put_rest) []));
              rewrite deliver_local by (try done; simpl; lia); by run_step (clean_read1 bs respOk h' [])
            | run_step (clean_write "couldn't write data" bs data (mkServer bs h' Returned [])); by rewrite Hret ].
Qed.

Lemma write_refs_clean bs refs : ∀ s,
  write_refs refs (clean bs s) = (Ok tt, clean bs (deliver (concat (BlockRef_ToBytes <$> refs)) s)).
Proof.
  induction refs as [|r refs IH]; intros s; [done|]. cbn [write_refs fmap list_fmap concat].
  run_step (clean_write "couldn't write ref" bs (BlockRef_ToBytes r) s). rewrite deliver_app. apply IH.
Qed.

Lemma check_size n : (0 < n)%nat → Z.to_nat (Z.quot (Z.of_nat n - 1) 8 + 1) = ((n + 7) / 8)%nat.
Proof.
  intros Hn. pose proof (Z.div_pos (Z.of_nat n - 1) 8). rewrite Z.quot_div_nonneg by lia.
  apply Nat2Z.inj. rewrite Z2Nat.id, Nat2Z.inj_div, Nat2Z.inj_add by lia.
  replace (Z.of_nat n + Z.of_nat 7) with (Z.of_nat n - 1 + 1 * 8) by lia. by rewrite Z.div_add by lia.
Qed.

Lemma Check_clean bs refs h :
  Forall wf_blockref refs → (0 < length refs ≤ 255)%nat → h_inv bs h →
  match h_RebalanceCheck refs h with
  | (Ok l, h') => RebalanceCheck refs (clean bs (idle bs h [])) = (Ok l, clean bs (idle bs h' []))
  | (_, h') => RebalanceCheck refs (clean bs (idle bs h [])) = (Err ErrServer, clean bs (idle bs h' []))
  end.
Proof.
  intros Hw Hn Hi. pose proof (h_Check_spec bs refs h Hi) as Hs. unfold RebalanceCheck, locked. cbn [mut clean].
  rewrite decide_False by lia.
  pose proof (write_refs_clean bs refs (deliver [cmdRebalanceCheck; byte_of_Z (Z.of_nat (length refs))] (idle bs h []))) as Hr.
  rewrite deliver_Check in Hr by (done || lia).
  destruct (h_RebalanceCheck refs h) as [[l|e|] h']; [| |done].
  all: run_step (clean_write "couldn't write" bs [cmdRebalanceCheck; byte_of_Z (Z.of_nat (length refs))] (idle bs h [])); run_step Hr.
  - destruct Hs as [_ Hl]. run_step (clean_read1 bs respOk h' (bitsetFromBool l)). rewrite decide_False by done.
    pose proof (length_bitsetFromBool l) as Hb. rewrite Hl in Hb. rewrite check_size by lia.
    assert (0 < (length refs + 7) / 8)%nat as Hp by (apply Nat.div_str_pos; lia).
    run_step (clean_read_all bs _ h' (bitsetFromBool l) Hp Hb). rewrite <-Hl, bitset_back. done.
  - by run_step (clean_read1 bs respErr h' []).
Qed.

Lemma keepAlive_clean bs h : keepAlive (clean bs (idle bs h [])) = (Ok tt, clean bs (idle bs h [])).
Proof. done. Qed.

(** ** Sessions *)

Inductive rpc := CBlock (r : BlockRef) | CPut (r : BlockRef) (data : bytes) | CCheck (refs : list BlockRef) | CKeep.
Inductive answer := ABlock (b : bytes) | ADone | ABools (l : list bool) | ARefused.

(** The call on the handler itself. *)
Definition direct (c : rpc) : M H answer :=
  match c with
  | CBlock r =>
      x ← try (h_Block r);
      match x with inl sl => gets (λ h, ABlock (h_deref h sl)) | inr _ => mret ARefused end
  | CPut r data =>
      x ← try (h_WriteBuf r);
      match x with
      | inl sl => _ ← modify (h_copy sl 0 data); mret ADone
      | inr ErrExists => mret ADone
      | inr _ => throw EOF
      end
  | CCheck refs =>
      x ← try (h_RebalanceCheck refs);
      mret (match x with inl l => ABools l | inr _ => ARefused end)
  | CKeep => mret ADone
  end.

(** An answer of the server, or the error of a connection that is of no more use. *)
Definition answered {A} (f : A → answer) (m : M (Conn H) A) : M (Conn H) answer := λ c,
  match m c with
  | (Ok a, c') => (Ok (f a), c')
  | (Err e, c') => (if decide (e = ErrServer) then Ok ARefused else Err e, c')
  | (Panic, c') => (Panic, c')
  end.
Definition remote (c : rpc) : M (Conn H) answer :=
  match c with
  | CBlock r => answered ABlock (Block r)
  | CPut r data => answered (λ _, ADone) (PutBlock r data)
  | CCheck refs => answered ABools (RebalanceCheck refs)
  | CKeep => answered (λ _, ADone) keepAlive
  end.

Definition rpc_ok (bs : Z) (c : rpc) : Prop :=
  match c with
  | CBlock r => wf_blockref r
  | CPut r data => wf_blockref r ∧ h_valid r ∧ Z.of_nat (length data) = bs
  | CCheck refs => Forall wf_blockref refs ∧ (0 < length refs ≤ 255)%nat
  | CKeep => True
  end.

Fixpoint session {St} (f : rpc → M St answer) (l : list rpc) : M St (list answer) :=
  match l with
  | [] => mret []
  | c :: l' => a ← f c; as_ ← session f l'; mret (a :: as_)
  end.

Lemma remote_step bs c h : rpc_ok bs c → 0 < bs → h_inv bs h →
  ∃ o h' c', direct c h = (o, h') ∧ remote c (clean bs (idle bs h [])) = (o, c') ∧ h_inv bs h' ∧ hs (srv c') = h' ∧
    o ≠ Panic ∧ (is_ok o = true → c' = clean bs (idle bs h' [])).
Proof.
  intros Hok Hbs Hi. destruct c as [r|r data|refs|]; unfold direct, remote, answered, try, mbind, M_bind.
  - pose proof (Block_clean bs r h Hok Hbs Hi) as Hc. pose proof (h_Block_spec bs r h Hi) as Hs.
    destruct (h_Block r h) as [[sl|e|] h']; [rewrite Hc..|done]; do 3 eexists; split_and!; naive_solver.
  - destruct Hok as (Hw & Hv & Hd). pose proof (PutBlock_clean bs r data h Hw Hbs Hi Hv Hd) as Hc.
    pose proof (h_WriteBuf_spec bs r h Hi Hv) as Hs. destruct (h_WriteBuf r h) as [[sl|e|] h']; [| |done].
    + destruct Hs as (Hi' & Hl & Hlen). rewrite Hc. destruct (h_copy_spec bs sl 0 data h' Hi' Hl) as (? & _); [lia|].
      by do 3 eexists; split_and!.
    + destruct e; rewrite Hc; by do 3 eexists; split_and!.
  - destruct Hok as (Hw & Hn). pose proof (Check_clean bs refs h Hw Hn Hi) as Hc. pose proof (h_Check_spec bs refs h Hi) as Hs.
    destruct (h_RebalanceCheck refs h) as [[l|e|] h']; [rewrite Hc..|done]; do 3 eexists; split_and!; naive_solver.
  - rewrite keepAlive_clean. by do 3 eexists; split_and!.
Qed.

(** C15: over a connection on which nothing fails, any sequence of block reads,
    puts of a whole block, rebalance checks of 1 to 255 references and keepalives
    gives exactly the answers the handler of the server gives when it is called
    directly, and leaves it in the same state; after each answer the two ends are in
    step again.  A put is the handler's [WriteBuf] and a copy into the slice it gives,
    which is what the server does; its [PutBlock] is never called.  A put of a block
    the handler has already changes nothing and is answered as done; another put the
    handler refuses ends the connection. *)
Theorem tdp_refines_handler (bs : Z) (l : list rpc) (h : H) :
  0 < bs < 2 ^ 63 → h_inv bs h → Forall (rpc_ok bs) l →
  ∃ o h' c', session direct l h = (o, h') ∧ session remote l (Dial bs h []) = (o, c') ∧ hs (srv c') = h' ∧
    o ≠ Panic ∧ (is_ok o = true → c' = Dial bs h' []).
Proof.
  intros Hbs Hi Hl. assert (∀ h, Dial bs h [] = clean bs (idle bs h [])) as Hd.
  { intros h0. unfold Dial, clean. rewrite to_signed_small by lia. done. }
  rewrite Hd. setoid_rewrite Hd. clear Hd. revert h Hi. induction Hl as [|c l Hc Hl IH]; intros h Hi.
  { by exists (Ok []), h, (clean bs (idle bs h [])). }
  destruct (remote_step bs c h Hc (proj1 Hbs) Hi) as (o & h1 & c1 & H1 & H2 & Hi1 & Hh & Hp & Hok).
  cbn [session]. destruct o as [a|e|]; [|run_step H1; run_step H2; do 3 eexists; split_and!; done|done].
  run_step H1. run_step H2. rewrite (Hok eq_refl).
  destruct (IH h1 Hi1) as (o & h2 & c2 & E1 & E2 & Hh2 & Hp2 & Hok2).
  destruct o as [as_|e|]; [| |done]; run_step E1; run_step E2; do 3 eexists; split_and!; naive_solver.
Qed.

(** ** A connection that fails *)

Lemma write_clear msg b s m cl ml bs ev :
  or_say msg (net_write b) (mkConn s true m cl ml bs (Clear :: ev)) = (Ok tt, mkConn (deliver b s) true m cl ml bs ev).
Proof. done. Qed.

(** When the deadline of a block read passes before the reply comes, the
    reply stays in the connection, and the next block read returns it: the data
    of the first block as the data of the second. *)
Theorem late_reply_misread (bs : Z) (r1 r2 : BlockRef) (h h1 : H) (sl : hslice) :
  0 < bs < 2 ^ 63 → h_inv bs h → wf_blockref r1 → wf_blockref r2 →
  h_Block r1 h = (Ok sl, h1) →
  ∃ c1 c2, Block r1 (Dial bs h [Clear; Deadline 0]) = (Err ErrTimeout, c1) ∧
    Block r2 c1 = (Ok (h_deref h1 sl), c2).
Proof.
  intros Hbs Hi Hr1 Hr2 Hb. pose proof (h_Block_spec bs r1 h Hi) as Hs. rewrite Hb in Hs. destruct Hs as [Hi1 Hl].
  exists (clean bs (idle bs h1 (respOk :: h_deref h1 sl))).
  assert (Block r1 (Dial bs h [Clear; Deadline 0]) = (Err ErrTimeout, clean bs (idle bs h1 (respOk :: h_deref h1 sl)))) as H1.
  { unfold Block, locked, Dial. rewrite to_signed_small by lia. cbn [mut]. change (handle bs h) with (idle bs h []).
    set (c0 := mkConn _ _ _ _ _ _ _).
    assert (∀ msg, or_say msg (net_write (cmdBlock :: BlockRef_ToBytes r1)) c0 =
      (Ok tt, mkConn (idle bs h1 (respOk :: h_deref h1 sl)) true false false true bs [Deadline 0])) as Hw.
    { intros msg. unfold c0. rewrite write_clear. pose proof (deliver_Block bs h [] r1 Hr1) as Hd. rewrite Hb in Hd. by rewrite Hd. }
    by run_step (Hw "couldn't write"). }
  pose proof (h_Block_spec bs r2 h1 Hi1) as Hs. unfold Block, locked. cbn [mut clean].
  pose proof (clean_write "couldn't write" bs (cmdBlock :: BlockRef_ToBytes r2) (idle bs h1 (respOk :: h_deref h1 sl))) as Hw.
  rewrite deliver_Block in Hw by done.
  assert (∃ h2 more, or_say "couldn't write" (net_write (cmdBlock :: BlockRef_ToBytes r2)) (clean bs (idle bs h1 (respOk :: h_deref h1 sl))) =
    (Ok tt, clean bs (idle bs h2 (respOk :: h_deref h1 sl ++ more)))) as (h2 & more & Hw2).
  { destruct (h_Block r2 h1) as [[sl2|e|] h2]; [..|done]; eauto. }
  eexists. split; [exact H1|]. run_step Hw2. run_step (clean_read1 bs respOk h2 (h_deref h1 sl ++ more)). rewrite decide_False by done.
  assert (make_len bs = Ok (Z.to_nat bs)) as Hm by (unfold make_len; by rewrite decide_False by lia).
  unfold mbind, M_bind, get, lift. cbn [blockSize clean]. rewrite Hm. rewrite clean_read by (cbn; rewrite length_app; lia).
  cbn [pipe idle]. by rewrite take_app_length' by lia.
Qed.

(** A block write whose connection breaks in the middle of the data leaves
    the part that arrived in the block the handler gave out, under the reference;
    when the handler then reports the block as there already, the same write over
    a new connection is answered with success and changes nothing. *)
Theorem interrupted_put_kept (bs : Z) (r : BlockRef) (data : bytes) (k : nat) (h h1 h2 : H) (sl : hslice) :
  0 < bs < 2 ^ 63 → h_inv bs h → wf_blockref r → h_valid r → Z.of_nat (length data) = bs → (0 < k < length data)%nat →
  h_WriteBuf r h = (Ok sl, h1) →
  h_WriteBuf r (h_copy sl 0 (take k data) h1) = (Err ErrExists, h2) →
  ∃ c1 c2, PutBlock r data (Dial bs h [Clear; Break k]) = (Err (ErrMsg "couldn't write data"), c1) ∧
    hs (srv c1) = h_copy sl 0 (take k data) h1 ∧
    PutBlock r data (Dial bs (hs (srv c1)) []) = (Ok tt, c2) ∧ hs (srv c2) = h2.
Proof.
  intros Hbs Hi Hr Hv Hd Hk Hw1 Hw2. pose proof (h_WriteBuf_spec bs r h Hi Hv) as Hs. rewrite Hw1 in Hs.
  destruct Hs as (Hi1 & Hlv & Hlen).
  assert (length (take k data) = k) as Htk by (rewrite length_take; lia).
  destruct (h_copy_spec bs sl 0 (take k data) h1 Hi1 Hlv) as (Hi2 & _); [lia|].
  eexists (mkConn (mkServer bs (h_copy sl 0 (take k data) h1) Returned []) false false false true bs []), _. split_and!.
  - unfold PutBlock, locked, Dial. rewrite to_signed_small by lia. cbn [mut].
    change (handle bs h) with (idle bs h []). set (c0 := mkConn _ _ _ _ _ _ _).
    assert (∀ msg, or_say msg (net_write (cmdPutBlock :: BlockRef_ToBytes r)) c0 =
      (Ok tt, mkConn (mkServer bs h1 (Reading (Shared sl) [] put_rest) []) true false false true bs [Break k])) as Hw.
    { intros msg. unfold c0. rewrite write_clear. pose proof (deliver_PutBlock bs h [] r Hr Hi Hv (proj1 Hbs)) as Hd'.
      rewrite Hw1 in Hd'. by rewrite Hd'. }
    run_step (Hw "couldn't write"). unfold or_say, net_write, mbind, M_bind. cbn -[deliver].
    rewrite (deliver_shared_part bs) by (try done; simpl; first [lia|intros E; rewrite E in Htk; simpl in *; lia]). done.
  - done.
  - cbn [hs srv]. unfold Dial. rewrite to_signed_small by lia.
    pose proof (PutBlock_clean bs r data _ Hr (proj1 Hbs) Hi2 Hv Hd) as Hp. rewrite Hw2 in Hp. exact Hp.
  - done.
Qed.

(** When the write of a keepalive fails, the goroutine returns with the
    mutex of the connection locked: every later call on it, [Close] included,
    waits forever. *)
Theorem keepalive_failure_hangs (c c1 : Conn H) (e : error) :
  mut c = false → keepAlive c = (Err e, c1) →
  (∀ r, Block r c1 = (Err ErrForever, c1)) ∧ (∀ r data, PutBlock r data c1 = (Err ErrForever, c1)) ∧
  (∀ refs, (length refs ≤ 255)%nat → RebalanceCheck refs c1 = (Err ErrForever, c1)) ∧
  Close c1 = (Err ErrForever, c1).
Proof.
  intros Hm Hk. assert (mut c1 = true) as Hm1.
  { unfold keepAlive, locked in Hk. rewrite Hm in Hk. destruct (mainLoop c); [|done].
    destruct (net_write _ c) as [[[]|?|] c2]; simplify_eq/=; done. }
  unfold Block, PutBlock, RebalanceCheck, Close, locked. rewrite Hm1. split_and!; try done.
  intros refs Hl. rewrite decide_False by lia. by rewrite Hm1.
Qed.
End session.

(** ** A distributor over the mmap store *)

Section mfile_handler.
Context `{HM : MMapLib} {N : Type} `{HN : Network N} `{HH : HashRing} `{HR : Range} `{HO : MapOrder}.

Abbreviation mnode := (Distributor (S := mfileBlock) (N := N)).

Lemma m_copy_app m i off a b :
  mfile_inv m → 0 ≤ i < nslots m → (off + length (a ++ b) ≤ length (m_deref m (MMapped i)))%nat →
  m_copy (MMapped i) (off + length a) b (m_copy (MMapped i) off a m) = m_copy (MMapped i) off (a ++ b) m.
Proof.
  intros Hi Hs Hl. rewrite length_app in Hl.
  destruct (m_copy_mapped m i off a Hi Hs) as (_ & S & Hd & _).
  pose proof (mf_slot_nat _ _ _ _ (fi_data _ Hi) Hs) as [Hb _].
  unfold m_copy at 1. rewrite Hd, blit_app by lia. unfold m_copy. cbn [with_files dataFile refFile mmap blkSize fsize MFile.blocksize].
  rewrite blit_over; [done| |]; rewrite ?length_blit; [done|].
  cbn. rewrite length_block_at by done. lia.
Qed.

#[export] Program Instance mfile_handler_laws : HandlerLaws mnode := {|
  h_inv bs d := mfile_inv (blocks d) ∧ MFile.blocksize (blocks d) = bs;
  h_valid := nonzero_ref;
  h_live d sl := ∃ i, sl = MMapped i ∧ 0 ≤ i < nslots (blocks d);
|}.
Next Obligation.
  intros bs r d [Hi Hb]. cbn. unfold serve_Block, on_blocks, try, mbind, M_bind. cbn.
  rewrite GetBlock_spec by done. destruct (MFile.closed (blocks d)); [done|].
  destruct (refIndex (blocks d) !! r) as [i|] eqn:E; [|done]. cbn.
  split; [done|]. rewrite <-Hb. apply (length_mapped _ i); [done|]. apply (fi_index _ Hi _ _ E).
Qed.
Next Obligation.
  intros bs l d [Hi Hb]. cbn. revert l. induction l as [|r l IH]; [done|]. cbn [serve_RebalanceCheck].
  unfold mbind, M_bind, on_blocks at 1. cbn.
  replace (mkDist _ _ _ _ _ _ _ _ _) with d by (by destruct d).
  destruct (serve_RebalanceCheck l d) as [[out|e|] d']; [|done..]. cbn. destruct IH as [? ?]. split; [done|]. by f_equal.
Qed.
Next Obligation.
  intros bs r d [Hi Hb] Hr. cbn. unfold dist_WriteBuf, on_blocks. cbn.
  destruct (MFile.closed (blocks d)) eqn:Hc; [by rewrite WriteBuf_closed|].
  destruct (WriteBuf_run r (blocks d) Hi Hr Hc) as [->|(i & m2 & W & ->)]; [done|].
  pose proof (wr_same _ _ _ _ _ W) as Hsame. pose proof (wr_slot _ _ _ _ _ W) as Hs.
  assert (MFile.blocksize m2 = bs) as Hb2 by (by rewrite (si_bs _ _ Hsame)).
  destruct (refIndex (blocks d) !! r); cbn; [split; [apply (wr_inv _ _ _ _ _ W)|done]|].
  split_and!; [apply (wr_insert _ _ _ _ _ W)|done|exists i; split; [done|]|].
  - change (nslots (with_index (<[r:=i]> (refIndex m2)) m2)) with (nslots m2). by rewrite (si_slots _ _ Hsame).
  - rewrite <-Hb2. apply (length_mapped m2 i); [apply (wr_inv _ _ _ _ _ W)|]. by rewrite (si_slots _ _ Hsame).
Qed.
Next Obligation.
  intros bs sl off b d [Hi Hb] (i & -> & Hs) Hl. cbn in *.
  destruct (m_copy_mapped (blocks d) i off b Hi Hs) as (Hi' & S & Hd & _).
  split_and!; [done|done|exists i; split; [done|rewrite <-(si_slots _ _ S) in Hs; exact Hs]|exact Hd].
Qed.
Next Obligation.
  intros bs sl off a b d [Hi Hb] (i & -> & Hs) Hl. cbn in *. f_equal. by apply m_copy_app.
Qed.
End mfile_handler.

(** ** Examples: a node with an empty store of two blocks of 16 bytes *)

#[local] Existing Instances mem_mmap cx_hash map_range cx_order.

Definition tx_store : mfileBlock :=
  mkMfile (mkMFile (zeros 32) 16 32) (mkMFile (zeros 48) 24 48) ∅ false 0 "current" 16 ∅ 1.

Lemma tx_store_good : mfile_good tx_store ∧ nslots tx_store = 2 ∧ MFile.blocksize tx_store = 16.
Proof.
  destruct mem_store as (m & Hm & Hg & _ & Hn & Hb). replace tx_store with m; [done|].
  vm_compute in Hm. injection Hm as <-. vm_compute. reflexivity.
Qed.

Definition tx_node : Distributor (S := mfileBlock) (N := unit) :=
  mkDist tx_store tt ∅ ∅ (cx_mds cx_ring) None cx_ring false false.

Lemma tx_node_inv : h_inv 16 tx_node.
Proof. destruct tx_store_good as ([Hi _ _] & _ & Hb). split; [exact Hi|exact Hb]. Qed.

Definition tx_other : BlockRef := mkBlockRef (mkINodeRef 1 2) 4.
Definition tx_data : bytes := replicate 16 x07.

Lemma tx_nonzero : nonzero_ref cx_ref.
Proof. split; [exact cx_ref_wf|done]. Qed.
Lemma tx_other_wf : wf_blockref tx_other.
Proof. vm_compute. split_and!; done. Qed.

Definition tx_calls : list rpc :=
  [CPut cx_ref tx_data; CBlock cx_ref; CCheck [tx_other; cx_ref]; CKeep; CBlock tx_other; CPut cx_ref tx_data].

Lemma tdp_refines_handler_witness :
  (session remote tx_calls (Dial 16 tx_node [])).1 =
    Ok [ADone; ABlock tx_data; ABools [false; true]; ADone; ARefused; ADone].
Proof.
  assert (Forall (rpc_ok (H := Distributor (S := mfileBlock) (N := unit)) 16) tx_calls) as Hl.
  { pose proof cx_ref_wf. pose proof tx_other_wf. pose proof tx_nonzero.
    repeat first [apply list.Forall_nil_2 | apply list.Forall_cons; split]; cbn [rpc_ok];
      split_and?; try done; try (cbn; lia); repeat first [apply list.Forall_nil_2 | apply list.Forall_cons; split]; done. }
  destruct (tdp_refines_handler 16 tx_calls tx_node ltac:(lia) tx_node_inv Hl) as (o & h' & c' & H1 & H2 & _).
  rewrite H2. cbn [fst]. assert (o = (session direct tx_calls tx_node).1) as -> by (by rewrite H1). vm_compute. reflexivity.
Defined.

Abbreviation tnode := (Distributor (S := mfileBlock) (N := unit)).

(** The node after [cx_ref] was written. *)
Definition tx_node1 : tnode := (direct (CPut cx_ref tx_data) tx_node).2.
Definition tx_slot : hslice (H := tnode) := MMapped 1.

Definition gave_slot (o : res (hslice (H := tnode))) : bool :=
  match o with Ok sl => bool_decide ((sl : mslice) = MMapped 1) | _ => false end.
Lemma gave_slot_run (x : res (hslice (H := tnode)) * tnode) : gave_slot x.1 = true → x = (Ok tx_slot, x.2).
Proof.
  destruct x as [[sl|e|] h]; cbn; intros E; try done.
  apply (bool_decide_eq_true_1 _) in E. unfold tx_slot. congruence.
Qed.
Definition said_exists {A} (o : res A) : bool := match o with Err e => bool_decide (e = ErrExists) | _ => false end.
Lemma said_exists_run {A} (x : res A * tnode) : said_exists x.1 = true → x = (Err ErrExists, x.2).
Proof. destruct x as [[sl|e|] h]; cbn; intros E; try done. apply (bool_decide_eq_true_1 _) in E. by subst. Qed.

Lemma late_reply_misread_witness :
  ∃ c1 c2, Block cx_ref (Dial 16 tx_node1 [Clear; Deadline 0]) = (Err ErrTimeout, c1) ∧
    Block tx_other c1 = (Ok tx_data, c2).
Proof.
  assert (h_inv 16 tx_node1) as Hi.
  { destruct (remote_step 16 (CPut cx_ref tx_data) tx_node) as (o & h' & c' & Hd & _ & Hi & _);
      [split_and!; [exact cx_ref_wf|exact tx_nonzero|done]|done|exact tx_node_inv|].
    unfold tx_node1. rewrite Hd. exact Hi. }
  assert (gave_slot (h_Block cx_ref tx_node1).1 = true) as Hg by (vm_compute; reflexivity).
  destruct (late_reply_misread 16 cx_ref tx_other tx_node1 (h_Block cx_ref tx_node1).2 tx_slot ltac:(lia) Hi cx_ref_wf
    tx_other_wf (gave_slot_run _ Hg)) as (c1 & c2 & H1 & H2).
  exists c1, c2. split; [exact H1|].
  assert (h_deref (h_Block cx_ref tx_node1).2 tx_slot = tx_data) as <- by by_compute. exact H2.
Defined.

(** The peer serves five bytes of the data and eleven zeros, and says that all
    is well. *)
Lemma interrupted_put_kept_witness :
  ∃ c1 c2, PutBlock cx_ref tx_data (Dial 16 tx_node [Clear; Break 5]) = (Err (ErrMsg "couldn't write data"), c1) ∧
    PutBlock cx_ref tx_data (Dial 16 (hs (srv c1)) []) = (Ok tt, c2) ∧
    h_deref (hs (srv c2)) tx_slot = replicate 5 x07 ++ zeros 11.
Proof.
  assert (gave_slot (h_WriteBuf cx_ref tx_node).1 = true) as Hg by (vm_compute; reflexivity).
  set (h1 := (h_WriteBuf cx_ref tx_node).2).
  assert (said_exists (h_WriteBuf cx_ref (h_copy tx_slot 0 (take 5 tx_data) h1)).1 = true) as He by (vm_compute; reflexivity).
  destruct (interrupted_put_kept 16 cx_ref tx_data 5 tx_node h1 _ tx_slot ltac:(lia) tx_node_inv cx_ref_wf tx_nonzero
    eq_refl ltac:(cbn; lia) (gave_slot_run _ Hg) (said_exists_run _ He)) as (c1 & c2 & H1 & _ & H2 & H3).
  exists c1, c2. split; [exact H1|]. split; [exact H2|]. rewrite H3. by_compute.
Defined.

Lemma keepalive_failure_hangs_witness :
  ∃ c1, (keepAlive (Dial 16 tx_node [Break 0])).2 = c1 ∧ Block cx_ref c1 = (Err ErrForever, c1).
Proof.
  eexists. split; [reflexivity|].
  apply (keepalive_failure_hangs (Dial 16 tx_node [Break 0]) _ ErrClosed); reflexivity.
Defined.
