(* ===== verification/Grpc.v ===== *)
(** * The protocol between nodes over gRPC

    Models [src/distributor/protocols/grpc/grpc.go], the stubs of the service in
    [src/models/rpc.pb.go] and the interface of [src/distributor/protocols/protocols.go].
    The gRPC library is third-party code: it carries messages, which the package
    [models] encodes, and gives an error of the handler back as an error of its own
    ([rpc_error]); a message may be too large for it.  A call may be lost on the way,
    or its reply. *)
From S2P Require Import Prelude GoSem Refs MFile Store Proto Models Ring Metadata MetaTemp LRU Distributor Cluster Tdp TdpSpec.

Class GrpcLib := {
  rpc_error : error → error;
  too_large : bytes → bool;
  ErrTooLarge : error;
}.

(** What becomes of a call: it is answered, it is lost, or its reply is. *)
Inductive delivery : Type := Delivered | Dropped (e : error) | Unreplied (e : error).

Section grpc.
Context {H : Type} `{HR : Handler H} `{GL : GrpcLib}.

(** ** The handler *)

(** A message that is nil cannot be read. *)
Definition handler_Block (req : BlockRequest) : M H BlockResponse :=
  p ← lift (or_panic (BQ_BlockRef req));
  data ← h_Block (BlockFromProto p);
  h ← get;
  mret (mkBlockResponse true (h_deref h data)).

(** The loop from index [i] on. *)
Fixpoint put_loop (refs : list pbBlockRef) (i : nat) (blocks : list bytes) : M H unit :=
  match refs with
  | [] => mret tt
  | ref :: refs' =>
      b ← lift (or_panic (blocks !! i));
      _ ← h_PutBlock (BlockFromProto ref) b;
      put_loop refs' (i + 1) blocks
  end.
Definition handler_PutBlock (req : PutBlockRequest) : M H PutResponse :=
  _ ← put_loop (PQ_Refs req) 0 (PQ_Blocks req);
  mret (mkPutResponse true []).

Definition handler_RebalanceCheck (req : RebalanceCheckRequest) : M H RebalanceCheckResponse :=
  out ← h_RebalanceCheck (BlockFromProto <$> RQ_BlockRefs req);
  mret (mkRebalanceCheckResponse out 0).

(** ** Calls over the network *)

(** A message from one end to the other. *)
Definition carry {A} `{Message A} (m : A) : res A :=
  b ← Marshal m;
  if too_large b then Err ErrTooLarge else Unmarshal b msg_zero.

(** The generated handler of a method: [dec] is the request as it arrived. *)
Definition method_Handler {Q R} (method : Q → M H R) (dec : res Q) : M H R :=
  req ← lift dec; method req.

(** The generated stub of a method, with [grpc.Invoke]. *)
Definition invoke {Q R} `{Message Q} `{Message R} (f : delivery) (method : Q → M H R) (q : Q) : M H R :=
  match f with
  | Dropped e => throw e
  | _ =>
      x ← try (method_Handler method (carry q));
      match x, f with
      | _, Unreplied e => throw e
      | inr e, _ => throw (rpc_error e)
      | inl r, _ => lift (carry r)
      end
  end.

(** ** The client *)

Definition grpc_PutBlock (f : delivery) (ref : BlockRef) (data : bytes) : M H unit :=
  _ ← invoke f handler_PutBlock (mkPutBlockRequest [BlockRef_ToProto ref] [data]);
  mret tt.
Definition grpc_Block (f : delivery) (ref : BlockRef) : M H bytes :=
  resp ← invoke f handler_Block (mkBlockRequest (Some (BlockRef_ToProto ref)));
  mret (BS_Data resp).
Definition grpc_RebalanceCheck (f : delivery) (refs : list BlockRef) : M H (list bool) :=
  resp ← invoke f handler_RebalanceCheck (mkRebalanceCheckRequest (BlockRef_ToProto <$> refs));
  mret (RS_Valid resp).
Definition grpc_WriteBuf (ref : BlockRef) : M H bytes := panic.

(** ** What the calls are meant to be *)

(** The call on the handler, as its client sees it. *)
Definition seen {A B} (f : delivery) (m : M H A) (g : H → A → B) : M H B := λ h,
  match f, m h with
  | Dropped e, _ => (Err e, h)
  | _, (Panic, h') => (Panic, h')
  | Unreplied e, (_, h') => (Err e, h')
  | Delivered, (Ok a, h') => (Ok (g h' a), h')
  | Delivered, (Err e, h') => (Err (rpc_error e), h')
  end.

Definition fits {A} `{Message A} (m : A) : Prop := ∀ b, Marshal m = Ok b → too_large b = false.

Lemma carry_id {A} `{MessageLaws A} (m : A) : msg_valid m → fits m → carry m = Ok m.
Proof.
  intros Hm Hf. destruct (message_roundtrip m Hm) as (d & Hd & _ & Hu). unfold carry. rewrite Hd. cbn.
  by rewrite (Hf d Hd).
Qed.

Lemma invoke_seen {Q R B} `{MessageLaws Q} `{MessageLaws R} f (method : Q → M H R) q (g : R → B) h :
  msg_valid q → fits q →
  (f = Delivered → ∀ r h', method q h = (Ok r, h') → msg_valid r ∧ fits r) →
  (r ← invoke f method q; mret (g r)) h = seen f (method q) (λ _, g) h.
Proof.
  intros Hq Hfq Hr. unfold invoke, seen, method_Handler, mbind, M_bind, lift, try. destruct f as [|e|e]; [| |]; rewrite ?carry_id by done; try done.
  - destruct (method q h) as [[r|e|] h'] eqn:E; [|done..]. destruct (Hr eq_refl r h' eq_refl) as [Hv Hf]. by rewrite carry_id.
  - by destruct (method q h) as [[r|x|] h'].
Qed.

(** A message the library carries. *)
Definition carried {A} `{MessageLaws A} (m : A) : Prop := msg_valid m ∧ fits m.

Lemma from_to_proto r : BlockFromProto (BlockRef_ToProto r) = r.
Proof. by destruct r as [[] ?]. Qed.

Lemma from_to_protos (refs : list BlockRef) : BlockFromProto <$> (BlockRef_ToProto <$> refs) = refs.
Proof. induction refs as [|r refs IH]; [done|]. rewrite !fmap_cons, from_to_proto. by f_equal. Qed.

(** Two computations whose outcomes look the same to the client. *)
Lemma seen_same {A A' B} f (m : M H A) (m' : M H A') (g : H → A → B) (g' : H → A' → B) h :
  match m' h with
  | (Ok a', h') => ∃ a, m h = (Ok a, h') ∧ g h' a = g' h' a'
  | (Err e, h') => m h = (Err e, h')
  | (Panic, h') => m h = (Panic, h')
  end → seen f m g h = seen f m' g' h.
Proof.
  unfold seen. destruct (m' h) as [[a'|e|] h']; [intros (a & -> & Hg)|intros -> ..]; by destruct f; rewrite ?Hg.
Qed.

Lemma handler_PutBlock_one ref data h :
  match h_PutBlock ref data h with
  | (Ok _, h') => handler_PutBlock (mkPutBlockRequest [BlockRef_ToProto ref] [data]) h = (Ok (mkPutResponse true []), h')
  | (Err e, h') => handler_PutBlock (mkPutBlockRequest [BlockRef_ToProto ref] [data]) h = (Err e, h')
  | (Panic, h') => handler_PutBlock (mkPutBlockRequest [BlockRef_ToProto ref] [data]) h = (Panic, h')
  end.
Proof.
  unfold handler_PutBlock. cbn [PQ_Refs PQ_Blocks put_loop]. unfold mbind, M_bind, lift. cbn. rewrite from_to_proto.
  by destruct (h_PutBlock ref data h) as [[] ?].
Qed.

(** C38: the protocol over gRPC is transparent.  A [PutBlock], [Block] or
    [RebalanceCheck] of the client whose messages the library carries (they are
    valid and not too large for it) is the call of the handler with the same
    arguments, and its outcome is the handler's, an error wrapped by gRPC; a call
    that is lost does nothing, and one whose reply is lost has been carried out.
    The fourth method, [WriteBuf], always panics. *)
Theorem grpc_transparent (f : delivery) (h : H) :
  (∀ ref data, carried (mkPutBlockRequest [BlockRef_ToProto ref] [data]) → carried (mkPutResponse true []) →
     grpc_PutBlock f ref data h = seen f (h_PutBlock ref data) (λ _ _, tt) h) ∧
  (∀ ref, carried (mkBlockRequest (Some (BlockRef_ToProto ref))) →
     (∀ sl h', h_Block ref h = (Ok sl, h') → carried (mkBlockResponse true (h_deref h' sl))) →
     grpc_Block f ref h = seen f (h_Block ref) h_deref h) ∧
  (∀ refs, carried (mkRebalanceCheckRequest (BlockRef_ToProto <$> refs)) →
     (∀ l h', h_RebalanceCheck refs h = (Ok l, h') → carried (mkRebalanceCheckResponse l 0)) →
     grpc_RebalanceCheck f refs h = seen f (h_RebalanceCheck refs) (λ _ l, l) h) ∧
  ∀ ref, grpc_WriteBuf ref h = (Panic, h).
Proof.
  split_and!.
  - intros ref data [Hq Hfq] Hresp. unfold grpc_PutBlock. pose proof (handler_PutBlock_one ref data h) as Hone.
    rewrite (invoke_seen f _ _ (λ _, tt) h Hq Hfq).
    + apply seen_same. destruct (h_PutBlock ref data h) as [[] ?]; [by eexists|done..].
    + intros _ r h'. destruct (h_PutBlock ref data h) as [[] ?]; rewrite Hone; [|done..]. by intros [= <- <-].
  - intros ref [Hq Hfq] Hresp. unfold grpc_Block. rewrite (invoke_seen f _ _ BS_Data h Hq Hfq).
    + apply seen_same. unfold handler_Block, mbind, M_bind. cbn. rewrite from_to_proto.
      destruct (h_Block ref h) as [[] ?]; [by eexists|done..].
    + intros _ r h'. unfold handler_Block, mbind, M_bind. cbn. rewrite from_to_proto.
      destruct (h_Block ref h) as [[sl| |] h1]; [|done..]. intros [= <- <-]. by apply Hresp.
  - intros refs [Hq Hfq] Hresp. unfold grpc_RebalanceCheck. rewrite (invoke_seen f _ _ RS_Valid h Hq Hfq).
    + apply seen_same. unfold handler_RebalanceCheck, mbind, M_bind. cbn [RQ_BlockRefs]. rewrite from_to_protos.
      destruct (h_RebalanceCheck refs h) as [[] ?]; [by eexists|done..].
    + intros _ r h'. unfold handler_RebalanceCheck, mbind, M_bind. cbn [RQ_BlockRefs]. rewrite from_to_protos.
      destruct (h_RebalanceCheck refs h) as [[l| |] h1] eqn:E; [|done..]. intros [= <- <-]. by apply (Hresp l h1).
  - done.
Qed.

(** A peer can bring a node down with one message over gRPC.  A request for a block
    without a reference, and a request to put blocks that names references and has no
    blocks, are both messages of the wire format; the first reads through a nil pointer
    in the handler and the second indexes past the end. *)
Theorem grpc_malformed_panics (h : H) (ref : pbBlockRef) (refs : list pbBlockRef) :
  carried (mkBlockRequest None) → carried (mkPutBlockRequest (ref :: refs) []) →
  (invoke Delivered handler_Block (mkBlockRequest None) h).1 = Panic ∧
  (invoke Delivered handler_PutBlock (mkPutBlockRequest (ref :: refs) []) h).1 = Panic.
Proof.
  intros [Hv1 Hf1] [Hv2 Hf2]. unfold invoke, method_Handler, mbind, M_bind, lift, try. by rewrite !carry_id by done.
Qed.
End grpc.

(** ** Examples: a node with an empty store *)

#[local] Existing Instances mem_mmap cx_hash map_range cx_order.
#[local] Instance ex_grpc : GrpcLib := {| rpc_error e := e; too_large b := bool_decide (4194304 < Z.of_nat (length b)); ErrTooLarge := ErrInvalid |}.

Lemma grpc_malformed_panics_witness :
  (invoke Delivered handler_Block (mkBlockRequest None) tx_node).1 = Panic.
Proof.
  refine (proj1 (grpc_malformed_panics tx_node (BlockRef_ToProto cx_ref) [] _ _)).
  - split; [done|]. intros b E. vm_compute in E. injection E as <-. reflexivity.
  - split; [|intros b E; vm_compute in E; injection E as <-; reflexivity].
    split_and!; [repeat constructor; unfold in_width; cbn; lia|done|vm_compute; reflexivity].
Defined.

(** A block that is put is read, over a connection that loses the reply to the put. *)
Definition rx_put := grpc_PutBlock (Unreplied EOF) cx_ref tx_data tx_node.
Lemma rx_block : h_Block (H := tnode) cx_ref rx_put.2 = (Ok tx_slot, (h_Block (H := tnode) cx_ref rx_put.2).2).
Proof. apply gave_slot_run. vm_compute. reflexivity. Qed.
Lemma rx_data : h_deref (H := tnode) (h_Block (H := tnode) cx_ref rx_put.2).2 tx_slot = tx_data.
Proof. by_compute. Qed.

Lemma grpc_transparent_witness :
  rx_put.1 = Err EOF ∧ (grpc_Block Delivered cx_ref rx_put.2).1 = Ok tx_data.
Proof.
  split; [vm_compute; reflexivity|].
  destruct (grpc_transparent Delivered rx_put.2) as (_ & Hb & _). rewrite Hb.
  - unfold seen. rewrite rx_block. cbn [fst]. exact (f_equal Ok rx_data).
  - split; [repeat constructor; unfold in_width; cbn; lia|]. intros b E. vm_compute in E. injection E as <-. reflexivity.
  - intros sl h' E. pose proof rx_data as Hd. rewrite rx_block in E. set (h1 := (h_Block cx_ref rx_put.2).2) in *.
    assert (sl = tx_slot ∧ h' = h1) as [-> ->] by (clearbody h1; split; congruence). rewrite Hd. clear E Hd h1.
    split; [split; vm_compute; reflexivity|]. intros b E. vm_compute in E. injection E as <-. reflexivity.
Defined.
