(* ===== verification/Rebalance.v ===== *)
(** * The rebalancer

    Models [src/distributor/rebalance/rebalancer.go] and [tick.go], which move the
    blocks of a node to the peers the ring wants them at and delete what is not
    needed here, and the cycle of [rebalanceTicker] in
    [src/distributor/rebalance.go].  The rebalancer works on the distributor: the
    local block store, the client and the ring are its fields.  The distributor is
    also the block store the collector reads inodes from ([dist_store]).  Waiting
    between the calls and log lines are left out. *)
From stdpp Require Import pretty.
From S2P Require Import Prelude GoSem GoStrings Refs TempStore Store Crc32 Blockset Proto Models INodeStore File Ring Metadata MetaTemp BlockVolume GC LRU Distributor.

Section rebalance.
Context {S N : Type} `{B : BlockStore S} `{HN : Network N} `{HH : HashRing} `{HR : Range} `{HO : MapOrder} `{HG : Godbc}.
Context (cfg : Config).
Abbreviation dist := (Distributor (S := S) (N := N)).

(** The distributor as a block store; [order] and [sched] are the interleavings
    of its goroutines. *)
Definition dist_store (order : PeerList → PeerList) (sched : list wchoice) : BlockStore dist := {|
  slice := Store.slice;
  slice_eq_dec := Store.slice_eq_dec;
  deref := λ d, deref (blocks d);
  mk_slice := λ b d, let '(sl, s) := mk_slice b (blocks d) in (sl, (on_blocks (λ _, (Ok tt, s)) d).2);
  copy_to := λ sl off b d, (on_blocks (λ s, (Ok tt, copy_to sl off b s)) d).2;
  Store.HasBlock := dist_HasBlock;
  Store.GetBlock := dist_GetBlock cfg order;
  Store.WriteBlock := λ r b, sl ← alloc b; dist_WriteBlock cfg sched r sl;
  Store.WriteBuf := dist_WriteBuf;
  Store.DeleteBlock := dist_DeleteBlock;
  Store.NumBlocks := dist_NumBlocks;
  Store.UsedBlocks := dist_UsedBlocks;
  Store.BlockSize := dist_BlockSize;
  Store.Flush := dist_Flush;
  Store.Close := dist_Close;
  Store.iterator := Store.iterator;
  Store.BlockIterator := λ d, Store.BlockIterator (blocks d);
  Store.iter_Next := λ d, Store.iter_Next (blocks d);
  Store.iter_BlockRef := Store.iter_BlockRef;
  Store.iter_Err := Store.iter_Err;
|}.

(** A nil iterator and a nil ring are [None]. *)
Record rebalancer := mkReb { r_it : option Store.iterator; r_gc : list GC.GC; r_ring : option Ring }.

Definition NewRebalancer (g : list GC.GC) : rebalancer := mkReb None g None.
Definition VersionStart (d : dist) (r : rebalancer) : Z :=
  match r_ring r with None => Version (dring d) | Some g => Version g end.
Definition Reset (r : rebalancer) : rebalancer := mkReb None (controller_Clear (r_gc r)) (r_ring r).

Definition maxIters : nat := 50.

(** ** What to do with the next blocks *)

Record plan := mkPlan {
  p_it : Store.iterator;
  p_m : gmap gostring (list BlockRef);  (** the blocks to ask a peer for *)
  p_delete : gmap BlockRef bool;
  p_dead : gmap BlockRef bool;
}.

Fixpoint ask (ref : BlockRef) (myIndex j : Z) (desired : PeerList) (m : gmap gostring (list BlockRef)) :
    gmap gostring (list BlockRef) :=
  match desired with
  | [] => m
  | p :: desired' =>
      ask ref myIndex (j + 1) desired' (if decide (j = myIndex) then m else <[p := default [] (m !! p) ++ [ref]]> m)
  end.

Definition plan_ref (gcs : list GC.GC) (ring : Ring) (ref : BlockRef) : M plan unit :=
  if controller_IsDead gcs ref then modify (λ p, mkPlan (p_it p) (p_m p) (p_delete p) (<[ref := true]> (p_dead p)))
  else
    perm ← lift (Ring.GetPeers ring ref);
    desired ← lift (or_panic (gslice 0 (Replication perm) (Peers perm)));
    let myIndex := IndexAt desired (CUUID cfg) in
    modify (λ p, mkPlan (p_it p) (ask ref myIndex 0 desired (p_m p))
      (if decide (myIndex = -1) then <[ref := true]> (p_delete p) else p_delete p) (p_dead p)).

(** The loop over the iterator of the store [st]; the result is [itDone]. *)
Fixpoint scan (n : nat) (gcs : list GC.GC) (ring : Ring) (st : S) : M plan bool :=
  match n with
  | O => mret false
  | Datatypes.S n' =>
      p ← get;
      let '(ok, it) := Store.iter_Next st (p_it p) in
      _ ← modify (λ p, mkPlan it (p_m p) (p_delete p) (p_dead p));
      ok ← lift ok;
      if negb ok then
        match Store.iter_Err it with
        | Some err => throw err
        | None => mret true
        end
      else
        ref ← lift (Store.iter_BlockRef it);
        _ ← plan_ref gcs ring ref;
        scan n' gcs ring st
  end.

(** ** Asking the peers and sending them what they miss *)

Record tick := mkTick { t_dist : dist; t_delete : gmap BlockRef bool; t_n : Z }.

Definition on_dist {A} (m : M dist A) : M tick A := λ t,
  let '(r, d) := m (t_dist t) in (r, mkTick d (t_delete t) (t_n t)).
Definition keep (ref : BlockRef) : M tick unit := modify (λ t, mkTick (t_dist t) (<[ref := false]> (t_delete t)) (t_n t)).

Definition send_one (k : gostring) (ref : BlockRef) : M tick unit :=
  g ← try (on_dist (local_Get ref));
  match g with
  | inr _ => mret tt
  | inl data =>
      _ ← modify (λ t, mkTick (t_dist t) (t_delete t) (t_n t + 1));
      w ← try (on_dist (client_PutBlock k ref data));
      match w with inl _ => mret tt | inr _ => keep ref end
  end.

Fixpoint send (k : gostring) (v : list BlockRef) (oks : list bool) : M tick unit :=
  match oks with
  | [] => mret tt
  | true :: oks' => send k (tail v) oks'
  | false :: oks' =>
      match v with
      | [] => panic
      | ref :: v' => _ ← send_one k ref; send k v' oks'
      end
  end.

Fixpoint keep_all (v : list BlockRef) : M tick unit :=
  match v with [] => mret tt | blk :: v' => _ ← keep blk; keep_all v' end.

Fixpoint check_peers (l : list (gostring * list BlockRef)) : M tick unit :=
  match l with
  | [] => mret tt
  | (k, v) :: l' =>
      r ← try (on_dist (client_Check k v));
      _ ← (match r with inr _ => keep_all v | inl oks => send k v oks end);
      check_peers l'
  end.

(** ** Deleting *)

Fixpoint delete_refs (l : list (BlockRef * bool)) : M dist unit :=
  match l with
  | [] => mret tt
  | (k, v) :: l' =>
      _ ← (if (v : bool) then _ ← try (on_blocks (Store.DeleteBlock k)); mret tt else mret tt);
      delete_refs l'
  end.

(** ** [Tick] *)

(** The second component of the result is [err == io.EOF]. *)
Definition Tick : M (dist * rebalancer) (Z * bool) := λ '(d, r),
  let '(it, ring) := match r_it r with
                     | None => (Store.BlockIterator (blocks d), dring d)
                     | Some it => (it, default (dring d) (r_ring r))
                     end in
  let '(s, p) := scan maxIters (r_gc r) ring (blocks d) (mkPlan it ∅ ∅ ∅) in
  let r' := mkReb (Some (p_it p)) (r_gc r) (Some ring) in
  match s with
  | Err e => (Err e, (d, r'))
  | Panic => (Panic, (d, r'))
  | Ok itDone =>
      let '(c, t) := check_peers (map_order (p_m p)) (mkTick d (p_delete p) 0) in
      match c with
      | Ok _ =>
          let '(o, d') := (_ ← delete_refs (ref_order (t_delete t));
                           _ ← delete_refs (ref_order (p_dead p));
                           _ ← try (on_blocks Store.Flush);
                           mret tt) (t_dist t) in
          match o with
          | Ok _ => (Ok (t_n t, itDone), (d', r'))
          | Err e => (Err e, (d', r'))
          | Panic => (Panic, (d', r'))
          end
      | Err e => (Err e, (t_dist t, r'))
      | Panic => (Panic, (t_dist t, r'))
      end
  end.

(** ** [rebalanceTicker] *)

Record ticker := mkTicker {
  k_dist : dist;
  k_reb : rebalancer;
  k_rebalancing : bool;
  k_total : Z;
  k_n : Z;  (** the next wait is [2(n+1)] milliseconds *)
  k_info : option RebalanceInfo;  (** [peerInfo.RebalanceInfo] of the server *)
}.

Definition is_panic {A} (r : res A) : bool := match r with Panic => true | _ => false end.

(** The volumes are prepared; an error is logged. *)
Definition prepare (order : PeerList → PeerList) (sched : list wchoice) : M ticker unit := λ k,
  let d := k_dist k in
  let '(vs, m) := GetVolumes map_order (dmds d) in
  let vols := match vs with Ok (l, _) => l | _ => [] end in
  let '(rs, gcs, e) := prep_volumes (HF := store_fetcher (H := dist_store order sched)) vols (r_gc (k_reb k)) (mkEnv m d) in
  let d' := (on_dmds (λ _, (Ok tt, gmds e)) (inodes e)).2 in
  let k' := mkTicker d' (mkReb (r_it (k_reb k)) gcs (r_ring (k_reb k))) (k_rebalancing k) (k_total k) (k_n k) (k_info k) in
  if is_panic vs || existsb is_panic rs then (Panic, k') else (Ok tt, k').

(** [err == io.EOF], which an error of the iterator or of the ring may be too. *)
Definition at_eof (o : res (Z * bool)) : bool :=
  match o with Ok (_, fin) => fin | Err err => bool_decide (err = EOF) | Panic => false end.

(** One round of the inner loop; the result says whether the cycle is over. *)
Definition tick_once (now : Z) : M ticker bool := λ k,
  let '(o, (d, r)) := Tick (k_dist k, k_reb k) in
  if is_panic o then (Panic, mkTicker d r (k_rebalancing k) (k_total k) (k_n k) (k_info k))
  else
    let written := match o with Ok (n, _) => n | _ => 0 end in
    let reb := if decide (Version (dring d) ≠ VersionStart d r) then true else k_rebalancing k in
    let total := k_total k + written in
    if at_eof o then
      let reb := if decide (VersionStart d r = Version (dring d)) then false else reb in
      (Ok true, mkTicker d r reb 0 (k_n k) (Some (mkRebalanceInfo now (wrap64 total) reb)))
    else (Ok false, mkTicker d r reb total written (Some (mkRebalanceInfo 0 (wrap64 total) reb))).

(** The inner loop; the result [false] is a loop that is not over. *)
Fixpoint tick_loop (fuel : nat) (now : Z) : M ticker bool :=
  match fuel with
  | O => mret false
  | Datatypes.S fuel' => done ← tick_once now; if (done : bool) then mret true else tick_loop fuel' now
  end.

(** One cycle, of at most [fuel] rounds. *)
Definition cycle (fuel : nat) (order : PeerList → PeerList) (sched : list wchoice) (now : Z) : M ticker bool :=
  _ ← prepare order sched;
  o ← tick_loop fuel now;
  _ ← modify (λ k, mkTicker (k_dist k) (Reset (k_reb k)) (k_rebalancing k) (k_total k) (k_n k) (k_info k));
  mret o.
End rebalance.
