(* ===== verification/RebalanceSpec.v ===== *)
(** * What the rebalancer promises

    A block that is deleted here was dead, or every peer the ring wants it at has
    it.  The theorems are about one [Tick], about the loop of a whole cycle, which
    comes to an end, and about ticks between any other calls of the node.  While one
    of these runs, the peers keep what they have ([NetworkLaws]), which [Cluster]
    proves of nodes whose handlers answer the calls; what the peers delete on their
    own is in [ClusterSpec]. *)
From stdpp Require Import pretty.
From S2P Require Import Prelude GoSem GoStrings Refs BlockDevice TempStore Store Crc32 Blockset Proto Models INodeStore File Ring RingSpec Metadata MetaTemp MetaTempSpec BlockVolume GC LRU Distributor DistributorSpec Cluster Rebalance.

(** ** The plan *)

Section plan.
Context {S : Type} `{B : BlockStore S} `{HH : HashRing} `{HR : Range} (cfg : Config).
Implicit Types (st : S) (m : gmap gostring (list BlockRef)) (ring : Ring).

(** The peers the ring wants a block at. *)
Definition wanted ring (r : BlockRef) (desired : PeerList) : Prop :=
  ∃ perm, Ring.GetPeers ring r = Ok perm ∧ gslice 0 (Replication perm) (Peers perm) = Some desired.

Definition asked m (q : gostring) (r : BlockRef) : Prop := ∃ v, m !! q = Some v ∧ r ∈ v.

Lemma ask_insert m p q r ref : asked m q r → asked (<[p := default [] (m !! p) ++ [ref]]> m) q r.
Proof.
  intros (v & Hv & Hr). destruct (decide (q = p)) as [->|Hne].
  - eexists. rewrite lookup_insert_eq, Hv. split; [done|]. cbn. by apply elem_of_app; left.
  - exists v. by rewrite lookup_insert_ne.
Qed.
Lemma ask_mono ref mi j desired m q r : asked m q r → asked (ask ref mi j desired m) q r.
Proof.
  revert j m. induction desired as [|p desired IH]; intros j m Hm; cbn [ask]; [done|]. apply IH.
  case_decide; [done|by apply ask_insert].
Qed.
Lemma ask_all ref j desired m q : 0 ≤ j → q ∈ desired → asked (ask ref (-1) j desired m) q ref.
Proof.
  revert j m. induction desired as [|p desired IH]; intros j m Hj Hq; [by apply not_elem_of_nil in Hq|]. cbn [ask].
  rewrite decide_False by lia. apply elem_of_cons in Hq as [->|Hq]; [|apply IH; [lia|done]]. apply ask_mono. eexists.
  rewrite lookup_insert_eq. split; [done|]. apply elem_of_app. right. by apply list_elem_of_singleton.
Qed.

(** What a plan made with a collector and a ring says. *)
Record planned (gcs : list GC.GC) ring (p : plan (S := S)) : Prop := {
  pl_dead r b : p_dead p !! r = Some b → controller_IsDead gcs r = true;
  pl_delete r b : p_delete p !! r = Some b →
    ∃ desired, wanted ring r desired ∧ (CUUID cfg ∉ desired) ∧ ∀ q, q ∈ desired → asked (p_m p) q r;
}.

Lemma planned_empty gcs ring it : planned gcs ring (mkPlan it ∅ ∅ ∅).
Proof. split; intros r b; cbn [p_dead p_delete]; by rewrite lookup_empty. Qed.

Lemma plan_ref_planned gcs ring ref p o p' :
  planned gcs ring p → plan_ref cfg gcs ring ref p = (o, p') → planned gcs ring p'.
Proof.
  intros Hp. unfold plan_ref. destruct (controller_IsDead gcs ref) eqn:Ed.
  { intros [= <- <-]. destruct Hp as [Hd Hdel]. split; [|done]. cbn. intros r b.
    rewrite lookup_insert_Some. intros [[<- _]|[_ Hr]]; [done|by eapply Hd]. }
  unfold mbind, M_bind, lift. destruct (Ring.GetPeers ring ref) as [perm|e|] eqn:Eg; [|by intros [= <- <-]..].
  destruct (gslice 0 (Replication perm) (Peers perm)) as [desired|] eqn:Es; cbn; [|by intros [= <- <-]].
  unfold modify. intros [= <- <-]. destruct Hp as [Hd Hdel]. split; [done|]. cbn.
  intros r b. case_decide as Hi.
  - rewrite lookup_insert_Some. intros [[<- _]|[_ Hr]].
    + exists desired. split; [by exists perm|]. split.
      { intros Hin. by apply (index_from_spec 0 (CUUID cfg) desired) in Hin. }
      intros q Hq. rewrite Hi. by apply ask_all.
    + destruct (Hdel _ _ Hr) as (ds & Hw & Hn & Ha). exists ds. split_and!; try done. intros q Hq. by apply ask_mono, Ha.
  - intros Hr. destruct (Hdel _ _ Hr) as (ds & Hw & Hn & Ha). exists ds. split_and!; try done. intros q Hq.
    by apply ask_mono, Ha.
Qed.

Lemma plan_ref_it gcs ring ref p o p' : plan_ref cfg gcs ring ref p = (o, p') → p_it p' = p_it p.
Proof.
  unfold plan_ref. destruct (controller_IsDead gcs ref); [by intros [= <- <-]|]. unfold mbind, M_bind, lift.
  destruct (Ring.GetPeers ring ref) as [perm|e|]; [|by intros [= <- <-]..].
  destruct (gslice 0 (Replication perm) (Peers perm)); cbn; by intros [= <- <-].
Qed.

(** A scan keeps the plan right. *)
Lemma scan_planned n gcs ring st p o p' :
  planned gcs ring p → scan cfg n gcs ring st p = (o, p') → planned gcs ring p'.
Proof.
  revert p. induction n as [|n IH]; intros p Hp; cbn [scan]; [by intros [= <- <-]|].
  rewrite (bind_step get _ p p p) by done. destruct (iter_Next st (p_it p)) as [ok it].
  rewrite (bind_step (modify _) _ p tt (mkPlan it (p_m p) (p_delete p) (p_dead p))) by done.
  set (p1 := mkPlan it _ _ _). assert (planned gcs ring p1) as Hp1 by (by destruct Hp). unfold mbind, M_bind, lift.
  destruct ok as [[]|e|]; cbn [negb]; [| |by intros [= <- <-]..].
  - destruct (iter_BlockRef it) as [ref|e|]; [|by intros [= <- <-]..].
    destruct (plan_ref cfg gcs ring ref p1) as [[[]|e|] p2] eqn:E2; pose proof (plan_ref_planned _ _ _ _ _ _ Hp1 E2) as Hp2;
      [by apply IH|by intros [= <- <-]..].
  - destruct (iter_Err it); by intros [= <- <-].
Qed.

Lemma plan_ref_marks gcs ring ref p p' :
  plan_ref cfg gcs ring ref p = (Ok tt, p') →
  (controller_IsDead gcs ref = true → p_dead p' !! ref = Some true) ∧
  ∀ r, p_dead p !! r = Some true → p_dead p' !! r = Some true.
Proof.
  unfold plan_ref. destruct (controller_IsDead gcs ref) eqn:Ed.
  { intros [= <-]. cbn. split; [by rewrite lookup_insert_eq|]. intros r Hr. rewrite lookup_insert_Some.
    destruct (decide (ref = r)); auto. }
  unfold mbind, M_bind, lift. destruct (Ring.GetPeers ring ref) as [perm|e|]; [|done|done].
  destruct (gslice 0 (Replication perm) (Peers perm)); cbn; [|done]. by intros [= <-].
Qed.
End plan.

(** What a scan visits when the store's iterators have the laws. *)
Section visits.
Context {S : Type} `{IL : IteratorLaws S} `{HH : HashRing} `{HR : Range} (cfg : Config).
Implicit Types (st : S) (ring : Ring).

Record scanned (n : nat) (gcs : list GC.GC) (p p' : plan (S := S)) (o : res bool) (vis : list BlockRef) : Prop := {
  sc_ok : iter_ok (p_it p');
  sc_left : iter_left (p_it p) = vis ++ iter_left (p_it p');
  sc_some : (1 ≤ n)%nat → o ≠ Ok true → vis ≠ [];
  sc_end : o = Ok true → iter_left (p_it p') = [];
  sc_dead r : is_ok o = true → r ∈ vis → controller_IsDead gcs r = true → p_dead p' !! r = Some true;
  sc_kept r : is_ok o = true → p_dead p !! r = Some true → p_dead p' !! r = Some true;
}.

Lemma scan_visits n gcs ring st p o p' :
  iter_ok (p_it p) → scan cfg n gcs ring st p = (o, p') → ∃ vis, scanned n gcs p p' o vis.
Proof.
  revert p. induction n as [|n IH]; intros p Hok; cbn [scan].
  { intros [= <- <-]. exists []. split; try done; [lia|]. by intros r _ ?%not_elem_of_nil. }
  rewrite (bind_step get _ p p p) by done. destruct (iter_left (p_it p)) as [|ref l] eqn:E.
  { destruct (iter_end st _ Hok E) as (it & -> & Hok' & Hl & He).
    rewrite (bind_step (modify _) _ p tt (mkPlan it (p_m p) (p_delete p) (p_dead p))) by done. unfold mbind, M_bind, lift.
    cbn [negb]. rewrite He. intros [= <- <-]. exists []. split; try done; [cbn; by rewrite E, Hl|]. by intros r _ ?%not_elem_of_nil. }
  destruct (iter_step st _ _ _ Hok E) as (it & -> & Hok1 & Hl & Hr).
  rewrite (bind_step (modify _) _ p tt (mkPlan it (p_m p) (p_delete p) (p_dead p))) by done. set (p1 := mkPlan it _ _ _).
  unfold mbind, M_bind, lift. cbn [negb]. rewrite Hr. destruct (plan_ref cfg gcs ring ref p1) as [po p2] eqn:E2.
  pose proof (plan_ref_it _ _ _ _ _ _ _ E2) as Hit. cbn in Hit.
  destruct po as [[]|e|]; [|intros [= <- <-]; exists [ref]; split; cbn; rewrite ?Hit; try done; by rewrite E, Hl..].
  destruct (plan_ref_marks _ _ _ _ _ _ E2) as [Hd Hk]. cbn in Hk. intros Hs. assert (iter_ok (p_it p2)) as Hok2 by (by rewrite Hit).
  destruct (IH _ Hok2 Hs) as (vis & [Ho Hv Hne He Hde Hke]). exists (ref :: vis). rewrite Hit in Hv. split; try done.
  - by rewrite E, <-Hl, Hv.
  - intros r Hi [->|Hin]%elem_of_cons Hdr; auto.
  - intros r Hi Hpr. auto.
Qed.
End visits.

(** ** Code that does not panic *)

(** No call over the network panics. *)
Definition quiet_net (N : Type) `{Network N} : Prop :=
  (∀ a (n : N), (DialRPC a n).1 ≠ Panic) ∧ (∀ c r b (n : N), (conn_PutBlock c r b n).1 ≠ Panic) ∧
  (∀ c l (n : N), (conn_RebalanceCheck c l n).1 ≠ Panic) ∧ ∀ c (n : N), (conn_Close c n).1 ≠ Panic.

Section calm.
Context {S N : Type} `{B : BlockStore S} `{HN : Network N} `{HH : HashRing} `{HR : Range} `{HO : MapOrder}.
Abbreviation dist := (Distributor (S := S) (N := N)).

(** The mutex of the metadata service is free. *)
Definition unlocked (d : dist) : Prop := mut (dmds d) = false.
Definition calm {A} (m : M dist A) : Prop := ∀ d, unlocked d → (m d).1 ≠ Panic ∧ unlocked (m d).2.

Lemma calm_bind {A C} (m : M dist A) (f : A → M dist C) : calm m → (∀ a, calm (f a)) → calm (m ≫= f).
Proof.
  intros Hm Hf d Hd. unfold mbind, M_bind. specialize (Hm d Hd). destruct Hm as [Hp Hu]. destruct (m d) as [[a|e|] d1]; [by apply Hf|done|done].
Qed.
Lemma calm_try {A} (m : M dist A) : calm m → calm (try m).
Proof. intros Hm d Hd. unfold try. destruct (Hm d Hd) as [Hp Hu]. by destruct (m d) as [[a|e|] d1]. Qed.
Lemma calm_ret {A} (a : A) : calm (mret a).
Proof. done. Qed.
Lemma calm_throw {A} e : calm (throw (A := A) e).
Proof. done. Qed.
Lemma calm_get : calm get.
Proof. done. Qed.
Lemma calm_gets {A} (f : dist → A) : calm (gets f).
Proof. done. Qed.
Lemma calm_conns f : calm (modify (λ d, set_openConns (f d) d)).
Proof. done. Qed.
Lemma calm_peers f : calm (modify (λ d, set_peersMap (f d) d)).
Proof. done. Qed.
Lemma calm_net {A} (m : M N A) : (∀ n, (m n).1 ≠ Panic) → calm (on_net m).
Proof. intros Hm d Hd. unfold on_net. specialize (Hm (net d)). by destruct (m (net d)). Qed.
Lemma calm_GetPeers : calm (on_dmds MetaTemp.GetPeers).
Proof. intros d Hd. unfold on_dmds, MetaTemp.GetPeers, with_lock. unfold unlocked in *. by rewrite Hd. Qed.
End calm.

Create HintDb calm.
#[export] Hint Resolve calm_bind calm_try calm_ret calm_throw calm_get calm_gets calm_conns calm_peers calm_net calm_GetPeers : calm.
Ltac calm_auto := repeat first [progress intros | case_match | solve [auto with calm] | apply calm_bind].

Section calm_client.
Context {S N : Type} `{B : BlockStore S} `{HN : Network N} `{HH : HashRing} `{HR : Range} `{HO : MapOrder}.
Context (Hq : quiet_net N).

Lemma calm_Dial a : calm (S := S) (on_net (DialRPC a)).
Proof. apply calm_net, Hq. Qed.
Lemma calm_Put c r b : calm (S := S) (on_net (conn_PutBlock c r b)).
Proof. apply calm_net, Hq. Qed.
Lemma calm_Check c l : calm (S := S) (on_net (conn_RebalanceCheck c l)).
Proof. apply calm_net, Hq. Qed.
Lemma calm_Close c : calm (S := S) (on_net (conn_Close c)).
Proof. apply calm_net, Hq. Qed.
#[local] Hint Resolve calm_Dial calm_Put calm_Check calm_Close : calm.
Lemma calm_onPeerTimeout u : calm (S := S) (onPeerTimeout u).
Proof. unfold onPeerTimeout. calm_auto. Qed.
Lemma calm_resetConn u : calm (S := S) (resetConn u).
Proof. unfold resetConn. calm_auto. Qed.
#[local] Hint Resolve calm_onPeerTimeout calm_resetConn : calm.
Lemma calm_mark_missing peers l : calm (S := S) (mark_missing peers l).
Proof. induction l as [|[k pi] l IH]; cbn [mark_missing]; calm_auto. Qed.
#[local] Hint Resolve calm_mark_missing : calm.
Lemma calm_UpdatePeerMap : calm (S := S) UpdatePeerMap.
Proof. unfold UpdatePeerMap, updatePeerMap, GetPeerMap. calm_auto. Qed.
#[local] Hint Resolve calm_UpdatePeerMap : calm.
Lemma calm_getConn u : calm (S := S) (getConn u).
Proof. unfold getConn, GetPeerMap. calm_auto. Qed.
#[local] Hint Resolve calm_getConn : calm.
Lemma calm_client_PutBlock u r sl : calm (S := S) (client_PutBlock u r sl).
Proof. unfold client_PutBlock. calm_auto. Qed.
Lemma calm_client_Check u l : calm (S := S) (client_Check u l).
Proof. unfold client_Check. calm_auto. Qed.
End calm_client.

(** ** Asking and sending *)

Section tick.
Context {S N : Type} `{L : BlockStoreLaws S} `{NL : NetworkLaws N} `{HH : HashRing} `{HR : Range} `{HO : MapOrder}.
Context (cfg : Config) (addr : gostring → gostring) (R : Ring → Prop) (P : BlockRef → bytes → Prop) (P_once : once P) (cached : bool).
Abbreviation dist := (Distributor (S := S) (N := N)).
Abbreviation coh := (coherent addr R P cached).
Implicit Types (d : dist) (t : tick (S := S) (N := N)) (r : BlockRef).

(** Blocks are only taken off the list of those to delete. *)
Definition falls (m m' : gmap BlockRef bool) : Prop := ∀ r, m' !! r = Some true → m !! r = Some true.

(** What a tick does to the state before it deletes. *)
Record tick_ext t t' : Prop := {
  te_dist : dist_ext (t_dist t) (t_dist t');
  te_falls : falls (t_delete t) (t_delete t');
  te_same r : stored (blocks (t_dist t')) r = stored (blocks (t_dist t)) r;
}.
Lemma tick_ext_trans t1 t2 t3 : tick_ext t1 t2 → tick_ext t2 t3 → tick_ext t1 t3.
Proof.
  intros [He Hf Hs] [He2 Hf2 Hs2]. split; [by eapply dist_ext_trans|by intros r Hr; apply Hf, Hf2|]. intros r. by rewrite Hs2.
Qed.
Lemma tick_ext_same t t' : coh (t_dist t) → t_dist t' = t_dist t → falls (t_delete t) (t_delete t') → tick_ext t t'.
Proof. intros Hc Hd Hf. split; [rewrite Hd; by eapply dist_ext_refl|done|by rewrite Hd]. Qed.
Lemma tick_ext_refl t : coh (t_dist t) → tick_ext t t.
Proof. intros Hc. apply tick_ext_same; [done..|by intros r]. Qed.
Lemma te_open t t' : tick_ext t t' → is_open (blocks (t_dist t)) → is_open (blocks (t_dist t')).
Proof. intros [He _ _]. apply (ext_open _ _ (de_store _ _ He)). Qed.
Lemma te_net t t' a r b : tick_ext t t' → net_has (net (t_dist t)) a r b → net_has (net (t_dist t')) a r b.
Proof. intros [He _ _]. apply (de_net _ _ He). Qed.

(** The logic of the distributor for a tick, which does not panic when no call
    over the network does and the metadata service is not locked. *)
Definition goes_on {A} (o : res A) t t' : Prop := quiet_net N → unlocked (t_dist t) → o ≠ Panic ∧ unlocked (t_dist t').
Definition tsafe {A} (m : M tick A) (Q : A → tick → Prop) t : Prop :=
  let '(o, t') := m t in
  coh (t_dist t') ∧ tick_ext t t' ∧ goes_on o t t' ∧ match o with Ok a => Q a t' | _ => True end.

Lemma tsafe_ret {A} (a : A) (Q : A → tick → Prop) t : coh (t_dist t) → Q a t → tsafe (mret a) Q t.
Proof. intros Hc HQ. split; [done|]. split; [by apply tick_ext_refl|done]. Qed.

Lemma tsafe_mono {A} (m : M tick A) (Q Q' : A → tick → Prop) t :
  tsafe m Q t → (∀ a t', coh (t_dist t') → tick_ext t t' → Q a t' → Q' a t') → tsafe m Q' t.
Proof. unfold tsafe. destruct (m t) as [[a|e|] t1]; intros (Hc & He & Hg & HQ) Hf; auto. Qed.

Lemma tsafe_seq {A C} (m : M tick A) (f : A → M tick C) Q Q' t :
  tsafe m Q' t → (∀ a t', coh (t_dist t') → tick_ext t t' → Q' a t' → tsafe (f a) Q t') → tsafe (m ≫= f) Q t.
Proof.
  unfold tsafe, mbind, M_bind. destruct (m t) as [[a|e|] t1]; intros (Hc & He & Hg & HQ) Hf; [| |].
  - specialize (Hf a t1 Hc He HQ). destruct (f a t1) as [o t2]. destruct Hf as (Hc2 & He2 & Hg2 & HQ2).
    split; [done|]. split; [by eapply tick_ext_trans|]. split; [|done]. intros Hq Hu. apply Hg2; [done|]. by apply Hg.
  - split; [done|]. split; [done|]. split; [|done]. intros Hq Hu. split; [done|]. by apply Hg.
  - split; [done|]. split; [done|]. split; [|done]. intros Hq Hu. by destruct (Hg Hq Hu).
Qed.

(** A call that changes no stored block. *)
Lemma tsafe_client {A} (m : M dist A) (Q : A → dist → Prop) t :
  safe addr R P cached m Q (t_dist t) → keeps blocks m → (quiet_net N → calm m) →
  tsafe (try (on_dist m)) (λ x t', t_delete t' = t_delete t ∧ match x with inl a => Q a (t_dist t') | inr _ => True end) t.
Proof.
  intros Hs Hk Hq. unfold safe in Hs. unfold tsafe, goes_on, try, on_dist. specialize (Hk (t_dist t)).
  assert (quiet_net N → unlocked (t_dist t) → (m (t_dist t)).1 ≠ Panic ∧ unlocked (m (t_dist t)).2) as Hq' by (intros Hn; by apply (Hq Hn)).
  destruct (m (t_dist t)) as [[a|e|] d1]; destruct Hs as (Hc & He & HQ); cbn in *;
    (split; [done|]); (split; [split; [done|by intros r|intros r; cbn; by rewrite Hk]|]); (split; [|done]); intros Hn Hu; by destruct (Hq' Hn Hu).
Qed.

Lemma tsafe_keep r t : coh (t_dist t) → tsafe (keep r) (λ _ t', t_delete t' !! r = Some false) t.
Proof.
  intros Hc. unfold tsafe, keep, modify. cbn. split; [done|]. split; [|by rewrite lookup_insert_eq].
  apply tick_ext_same; [done..|]. intros r'. cbn.
  destruct (decide (r' = r)) as [->|Hne]; [by rewrite lookup_insert_eq|by rewrite lookup_insert_ne].
Qed.

(** A block that is still to be deleted is at the peer. *)
Definition arrived (k : gostring) r (b : bytes) t : Prop :=
  t_delete t !! r = Some true → net_has (net (t_dist t)) (addr k) r b.

Lemma arrived_mono k r b t t' : tick_ext t t' → arrived k r b t → arrived k r b t'.
Proof. intros He Ha Hd. eapply te_net; [done|]. apply Ha, (te_falls _ _ He), Hd. Qed.

Lemma tsafe_keep_all v t :
  coh (t_dist t) → tsafe (keep_all v) (λ _ t', ∀ r, r ∈ v → t_delete t' !! r ≠ Some true) t.
Proof.
  revert t. induction v as [|x v IH]; intros t Hc; cbn [keep_all].
  { apply tsafe_ret; [done|]. by intros r ?%not_elem_of_nil. }
  eapply tsafe_seq; [by apply tsafe_keep|]. intros [] t1 Hc1 He1 Hx. eapply tsafe_mono; [by apply IH|].
  intros [] t2 Hc2 He2 HQ r [->|Hr]%elem_of_cons; [|by apply HQ]. intros Ht%(te_falls _ _ He2). congruence.
Qed.

(** A read of a stored block does not fail. *)
Lemma tsafe_get r t :
  coh (t_dist t) → is_open (blocks (t_dist t)) →
  tsafe (try (on_dist (local_Get r)))
    (λ x t', match x with inl sl => good P r sl (blocks (t_dist t')) | inr _ => stored (blocks (t_dist t)) r = None end) t.
Proof.
  intros Hc Ho. pose proof (co_inv _ _ _ _ _ Hc) as Hi. pose proof (safe_local_Get addr R P cached r _ Hc) as Hg. unfold safe, tsafe in *.
  unfold try, on_dist, local_Get, on_blocks in *. destruct (Store.GetBlock r (blocks (t_dist t))) as [[sl|e|] s'] eqn:E; cbn in *.
  - destruct Hg as (Hc' & He & HQ). destruct (GetBlock_stored _ _ _ _ Hi E) as (_ & _ & Hs).
    split; [done|]. split; [|done]. split; [done|by intros q|done].
  - destruct Hg as (Hc' & He & _). rewrite (GetBlock_err _ _ _ _ Hi E) in *. split; [done|]. split; [split; [done|by intros q|done]|].
    split; [done|]. destruct (stored (blocks (t_dist t)) r) as [b|] eqn:Es; [|done].
    destruct (store_get_run _ _ _ Hi Ho Es) as (sl & s2 & Hr & _). congruence.
  - by destruct (GetBlock_no_panic _ _ _ Hi E).
Qed.

Lemma tsafe_send_one k r t :
  coh (t_dist t) → is_open (blocks (t_dist t)) →
  tsafe (send_one k r) (λ _ t', ∀ b, stored (blocks (t_dist t)) r = Some b → arrived k r b t') t.
Proof.
  intros Hc Ho. unfold send_one. eapply tsafe_seq; [by apply tsafe_get|]. intros [sl|e] t1 Hc1 He1 Hx.
  2: { apply tsafe_ret; [done|]. intros b. by rewrite Hx. }
  eapply (tsafe_seq _ _ _ (λ _ t', t_dist t' = t_dist t1)).
  { split; [done|]. split; [apply tick_ext_same; [done..|by intros q]|done]. }
  intros [] t2 Hc2 _ Ed2. rewrite <-Ed2 in Hx.
  eapply tsafe_seq; [apply tsafe_client; [by apply safe_client_PutBlock|auto with keeps|intros; by apply calm_client_PutBlock]|].
  intros [x|e] t3 Hc3 He3 [_ Hw].
  - apply tsafe_ret; [done|]. intros b Hb _. unfold sent_to in Hw.
    destruct (ext_deref _ _ sl (te_dist _ _ He3) (proj1 Hx)) as [_ Hd].
    rewrite Hd in Hw. replace b with (deref (blocks (t_dist t2)) sl); [done|]. eapply P_once; [apply Hx|].
    by apply (co_store _ _ _ _ _ Hc).
  - eapply tsafe_mono; [by apply tsafe_keep|]. intros [] t4 _ _ Hk b _ Hd. congruence.
Qed.

Lemma tsafe_send k v oks t :
  coh (t_dist t) → is_open (blocks (t_dist t)) →
  Forall2 (λ r ok, ok = true → ∃ b, net_has (net (t_dist t)) (addr k) r b) v oks →
  tsafe (send k v oks) (λ _ t', ∀ r b, r ∈ v → stored (blocks (t_dist t)) r = Some b → arrived k r b t') t.
Proof.
  intros Hc Ho Hf. revert t Hc Ho Hf. revert v. induction oks as [|ok oks IH]; intros v t Hc Ho Hf; cbn [send].
  { apply Forall2_nil_inv_r in Hf as ->. apply tsafe_ret; [done|]. by intros r b ?%not_elem_of_nil. }
  apply Forall2_cons_inv_r in Hf as (r & v' & Hok & Hf & ->). destruct ok; cbn [tail].
  - destruct (Hok eq_refl) as [b0 Hb0]. eapply tsafe_mono; [by apply IH|].
    intros [] t' _ He HQ r' b [->|Hr]%elem_of_cons Hb; [|by apply HQ]. intros _. eapply te_net; [done|].
    replace b with b0; [done|]. eapply P_once; [by eapply has_holds, Hb0; apply Hc|by apply (co_store _ _ _ _ _ Hc)].
  - eapply tsafe_seq; [by apply tsafe_send_one|]. intros [] t1 Hc1 He1 H1.
    eapply tsafe_mono; [apply IH; [done|by eapply te_open|]|].
    { eapply Forall2_impl; [|exact Hf]. intros r' ok' Hr' Ht. destruct (Hr' Ht) as [b Hb]. exists b. by eapply te_net. }
    intros [] t' _ He HQ r' b [->|Hr]%elem_of_cons Hb; [eapply arrived_mono; [done|by apply H1]|].
    apply HQ; [done|]. by rewrite (te_same _ _ He1).
Qed.

Lemma tsafe_check_peers l t :
  coh (t_dist t) → is_open (blocks (t_dist t)) →
  tsafe (check_peers l) (λ _ t', ∀ k v r b, (k, v) ∈ l → r ∈ v → stored (blocks (t_dist t)) r = Some b → arrived k r b t') t.
Proof.
  revert t. induction l as [|[k v] l IH]; intros t Hc Ho; cbn [check_peers].
  { apply tsafe_ret; [done|]. by intros k v r b ?%not_elem_of_nil. }
  eapply tsafe_seq; [apply tsafe_client; [by apply safe_client_Check|auto with keeps|intros; by apply calm_client_Check]|]. intros x t1 Hc1 He1 [_ Hx].
  pose proof (te_open _ _ He1 Ho) as Ho1.
  eapply (tsafe_seq _ _ _ (λ _ t', ∀ r b, r ∈ v → stored (blocks (t_dist t1)) r = Some b → arrived k r b t')).
  { destruct x as [oks|e]; [by apply tsafe_send|]. eapply tsafe_mono; [by apply tsafe_keep_all|].
    intros [] t2 _ _ Hk r b Hr _ Hd. by destruct (Hk r Hr). }
  intros [] t2 Hc2 He2 H2. eapply tsafe_mono; [apply IH; [done|by eapply te_open]|].
  intros [] t3 _ He3 HQ k' v' r b [[= -> ->]|Hin]%elem_of_cons Hr Hb.
  - eapply arrived_mono; [done|]. apply H2; [done|]. by rewrite (te_same _ _ He1).
  - eapply HQ; [done|done|]. by rewrite (te_same _ _ He2), (te_same _ _ He1).
Qed.

(** ** Deleting *)

(** Only blocks [D] says are deleted, and nothing else changes. *)
Record deleted (D : BlockRef → Prop) d d' : Prop := {
  dl_open : is_open (blocks d) → is_open (blocks d');
  dl_size : Store.BlockSize (blocks d') = Store.BlockSize (blocks d);
  dl_net : net d' = net d;
  dl_ring : dring d' = dring d;
  dl_dmds : dmds d' = dmds d;
  dl_less r b : stored (blocks d') r = Some b → stored (blocks d) r = Some b;
  dl_kept r b : stored (blocks d) r = Some b → stored (blocks d') r = Some b ∨ D r;
  dl_gone r : is_open (blocks d) → D r → stored (blocks d') r = None;
}.

Lemma deleted_refl d : deleted (λ _, False) d d.
Proof. split; auto. by intros r _ []. Qed.
Lemma deleted_trans D1 D2 d1 d2 d3 : deleted D1 d1 d2 → deleted D2 d2 d3 → deleted (λ r, D1 r ∨ D2 r) d1 d3.
Proof.
  intros [] []. split; [auto|congruence|congruence|congruence|congruence|auto| |].
  - intros r b Hr. destruct (dl_kept0 r b Hr) as [Hr'|]; [|auto]. destruct (dl_kept1 r b Hr'); auto.
  - intros r Ho [HD|HD]; [|auto]. pose proof (dl_gone0 r Ho HD) as Hn. destruct (stored (blocks d3) r) as [b|] eqn:E; [|done].
    apply dl_less1 in E. congruence.
Qed.
Lemma deleted_iff (D D' : BlockRef → Prop) d d' : (∀ r, D r ↔ D' r) → deleted D d d' → deleted D' d d'.
Proof.
  intros Hi []. split; auto; [intros r b Hr; rewrite <-Hi; by apply dl_kept0|intros r Ho Hr; apply dl_gone0; [done|by apply Hi]].
Qed.

Lemma stored_deleted r s s' :
  inv s → Store.DeleteBlock r s = (Ok tt, s') → stored s' r = None ∧ ∀ q, q ≠ r → stored s' q = stored s q.
Proof.
  intros Hi E. destruct (DeleteBlock_ok _ _ _ Hi E) as (Hi' & Ho & Hz & Hn & Hk & Hx). split; [unfold stored; by rewrite Hn|].
  intros q Hne. unfold stored. rewrite Hk by done. destruct (backing s q) as [sl|] eqn:Eb; [|done]. cbn. f_equal.
  apply Hx; [by eapply backing_live|]. intros Hr. by apply Hne, (backing_inj s q r sl).
Qed.

Lemma coherent_delete r d s' :
  coh d → Store.DeleteBlock r (blocks d) = (Ok tt, s') → coh (on_blocks (λ _, (Ok tt, s')) d).2.
Proof.
  intros Hc E. pose proof (co_inv _ _ _ _ _ Hc) as Hi. destruct (stored_deleted _ _ _ Hi E) as [Hnone Heq].
  destruct (DeleteBlock_ok _ _ _ Hi E) as (Hi' & Ho & Hz & Hn & Hk & Hx).
  destruct Hc as [_ Hs Hne Hco Hpe Hdm Hca Hcd Hri]. split; try done; cbn.
  - intros q b. destruct (decide (q = r)) as [->|Hqr]; [by rewrite Hnone|rewrite Heq by done; apply Hs].
  - intros c Hcc. destruct (Hca c Hcc) as (Hmax & l & Hr & Hl). split; [done|]. exists l. split; [done|].
    eapply Forall_impl; [|exact Hl]. intros x (Hxl & Hxp & HxP). destruct (Hx x.2 Hxl (Hxp r)) as [Hl' Hd'].
    split; [done|]. split; [|by rewrite Hd']. intros q. destruct (decide (q = r)) as [->|Hqr]; [by rewrite Hn|].
    rewrite Hk by done. apply Hxp.
Qed.

Lemma delete_one r d :
  coh d → ∃ x d', try (on_blocks (Store.DeleteBlock r)) d = (Ok x, d') ∧ coh d' ∧ deleted (λ q, q = r) d d'.
Proof.
  intros Hc. pose proof (co_inv _ _ _ _ _ Hc) as Hi. unfold try, on_blocks.
  destruct (Store.DeleteBlock r (blocks d)) as [[[]|e|] s'] eqn:E.
  - eexists _, _. split; [done|]. split; [by apply (coherent_delete r d s')|].
    destruct (DeleteBlock_ok _ _ _ Hi E) as (_ & Ho & Hz & _). destruct (stored_deleted _ _ _ Hi E) as [Hnone Heq].
    split; try done; cbn.
    + intros q b. destruct (decide (q = r)) as [->|Hne]; [by rewrite Hnone|by rewrite Heq].
    + intros q b Hq. destruct (decide (q = r)) as [->|Hne]; [by right|left]. by rewrite Heq.
    + by intros q _ ->.
  - eexists _, d. rewrite (DeleteBlock_err _ _ _ _ Hi E). split; [by destruct d|]. split; [done|]. split; try done; [auto|].
    intros q Ho ->. destruct (stored (blocks d) r) as [b|] eqn:Es; [|done]. unfold stored in Es.
    destruct (backing (blocks d) r) as [sl|] eqn:Eb; [|done]. destruct (DeleteBlock_found _ _ _ Hi Ho Eb) as [s2 Hd]. congruence.
  - by destruct (DeleteBlock_no_panic _ _ _ Hi E).
Qed.

Lemma delete_refs_run l d :
  coh d → ∃ d', delete_refs l d = (Ok tt, d') ∧ coh d' ∧ deleted (λ q, (q, true) ∈ l) d d'.
Proof.
  revert d. induction l as [|[k v] l IH]; intros d Hc; cbn [delete_refs].
  { exists d. split_and!; [done..|]. eapply deleted_iff; [|apply deleted_refl]. intros r. by rewrite elem_of_nil. }
  assert (∃ d1, (if v then _ ← try (on_blocks (Store.DeleteBlock k)); mret tt else mret tt) d = (Ok tt, d1) ∧
    coh d1 ∧ deleted (λ q, v = true ∧ q = k) d d1) as (d1 & Hr & Hc1 & Hd1).
  { destruct v; [|exists d; split_and!; [done..|]; eapply deleted_iff; [|apply deleted_refl]; naive_solver].
    destruct (delete_one k d Hc) as (x & d1 & Hr & Hc1 & Hd1). exists d1. rewrite (bind_step _ _ _ _ _ Hr).
    split_and!; [done..|]. eapply deleted_iff; [|exact Hd1]. naive_solver. }
  rewrite (bind_step _ _ _ _ _ Hr). destruct (IH d1 Hc1) as (d2 & Hr2 & Hc2 & Hd2). exists d2. split_and!; [done..|].
  eapply deleted_iff; [|by eapply deleted_trans]. intros r. rewrite elem_of_cons. naive_solver.
Qed.

(** ** [Tick] *)

(** What [Tick] may do to the node: a block that was here is here, is dead, or is
    at every peer the ring wants it at, and this node is none of them; no block is
    new here, and none is lost elsewhere. *)
Record moved (gcs : list GC.GC) (ring : Ring) d d' : Prop := {
  mv_open : is_open (blocks d) → is_open (blocks d');
  mv_size : Store.BlockSize (blocks d') = Store.BlockSize (blocks d);
  mv_net a r b : net_has (net d) a r b → net_has (net d') a r b;
  mv_less r b : stored (blocks d') r = Some b → stored (blocks d) r = Some b;
  mv_kept r b : stored (blocks d) r = Some b →
    stored (blocks d') r = Some b ∨ controller_IsDead gcs r = true ∨
    ∃ desired, wanted ring r desired ∧ (CUUID cfg ∉ desired) ∧ ∀ p, p ∈ desired → net_has (net d') (addr p) r b;
}.

Lemma moved_trans gcs ring d1 d2 d3 : moved gcs ring d1 d2 → moved gcs ring d2 d3 → moved gcs ring d1 d3.
Proof.
  intros [] []. split; [auto|congruence|auto|auto|]. intros r b Hr.
  destruct (mv_kept0 r b Hr) as [Hr2|[Hd|(ds & Hw & Hn & Ha)]]; [by apply mv_kept1|auto|].
  right. right. exists ds. split_and!; auto.
Qed.

(** What a tick starts from. *)
Definition tick_it d (r : rebalancer) : Store.iterator := default (Store.BlockIterator (blocks d)) (r_it r).
Definition tick_ring d (r : rebalancer) : Ring :=
  match r_it r with None => dring d | Some _ => default (dring d) (r_ring r) end.

Lemma moved_ext gcs ring d d' :
  dist_ext d d' → (∀ r, stored (blocks d') r = stored (blocks d) r) → moved gcs ring d d'.
Proof.
  intros [He Hk Hn] Hs. split; [apply (ext_open _ _ He)|apply (ext_size _ _ He)|done|intros r b; by rewrite Hs|].
  intros r b Hr. left. by rewrite Hs.
Qed.
Lemma moved_refl gcs ring d : coh d → moved gcs ring d d.
Proof. intros Hc. apply moved_ext; [by eapply dist_ext_refl|done]. Qed.

(** The end of a tick: the lists are deleted and the store is flushed. *)
Lemma finish_run l1 l2 d :
  coh d → ∃ d', (_ ← delete_refs l1; _ ← delete_refs l2; _ ← try (on_blocks Store.Flush); mret tt) d = (Ok tt, d') ∧
    coh d' ∧ deleted (λ q, (q, true) ∈ l1 ∨ (q, true) ∈ l2) d d'.
Proof.
  intros Hc. destruct (delete_refs_run l1 d Hc) as (d1 & Hr1 & Hc1 & Hd1).
  destruct (delete_refs_run l2 d1 Hc1) as (d2 & Hr2 & Hc2 & Hd2). exists d2.
  rewrite (bind_step _ _ _ _ _ Hr1), (bind_step _ _ _ _ _ Hr2). split_and!; [|done|by eapply deleted_trans].
  unfold mbind, M_bind, try, on_blocks. destruct (Store.Flush (blocks d2)) as [o s'] eqn:E.
  destruct (Flush_same _ _ _ E) as [-> Ho]. by destruct o, d2.
Qed.

Definition tick_plan d (r : rebalancer) : res bool * plan :=
  scan cfg maxIters (r_gc r) (tick_ring d r) (blocks d) (mkPlan (tick_it d r) ∅ ∅ ∅).

(** [Tick] up to the scan. *)
Lemma Tick_unfold d (r : rebalancer) :
  Tick cfg (d, r) =
    (let '(s, p) := tick_plan d r in
     let r' := mkReb (Some (p_it p)) (r_gc r) (Some (tick_ring d r)) in
     match s with
     | Err e => (Err e, (d, r'))
     | Panic => (Panic, (d, r'))
     | Ok itDone =>
         let '(c, t) := check_peers (map_order (p_m p)) (mkTick d (p_delete p) 0) in
         match c with
         | Ok _ =>
             let '(o, d') := (_ ← delete_refs (ref_order (t_delete t)); _ ← delete_refs (ref_order (p_dead p));
                              _ ← try (on_blocks Store.Flush); mret tt) (t_dist t) in
             match o with
             | Ok _ => (Ok (t_n t, itDone), (d', r'))
             | Err e => (Err e, (d', r'))
             | Panic => (Panic, (d', r'))
             end
         | Err e => (Err e, (t_dist t, r'))
         | Panic => (Panic, (t_dist t, r'))
         end
     end).
Proof. unfold Tick, tick_plan, tick_it, tick_ring. by destruct (r_it r). Qed.

Lemma Tick_safe d (r : rebalancer) o d' (r' : rebalancer) :
  coh d → is_open (blocks d) → Tick cfg (d, r) = (o, (d', r')) →
  coh d' ∧ moved (r_gc r) (tick_ring d r) d d' ∧
  (is_ok o = true → ∀ q, p_dead (tick_plan d r).2 !! q = Some true → stored (blocks d') q = None) ∧
  (quiet_net N → unlocked d → (tick_plan d r).1 ≠ Panic → o ≠ Panic ∧ unlocked d').
Proof.
  intros Hc Ho. rewrite Tick_unfold. destruct (tick_plan d r) as [so p] eqn:Es. cbn [fst snd].
  destruct (scan_planned cfg _ _ _ _ _ _ _ (planned_empty cfg _ _ _) Es) as [Hdead Hdel]. clear Es. set (ring := tick_ring d r) in *.
  pose proof (moved_refl (r_gc r) ring d Hc) as Hrefl.
  destruct so as [itDone|e|]; [|by intros [= <- <- <-]..].
  pose proof (tsafe_check_peers (map_order (p_m p)) (mkTick d (p_delete p) 0) Hc Ho) as Ht. unfold tsafe, goes_on in Ht.
  destruct (check_peers _ _) as [co t]. destruct Ht as (Hct & [Het Hfall Hsame] & Hgo & Harr). cbn in Het, Hfall, Harr, Hsame, Hgo.
  pose proof (moved_ext (r_gc r) ring _ _ Het Hsame) as Hm1.
  destruct co as [[]|e|]; [|intros [= <- <- <-]; split_and!; try done; intros Hq Hu _; by destruct (Hgo Hq Hu)..].
  destruct (finish_run (ref_order (t_delete t)) (ref_order (p_dead p)) _ Hct) as (d2 & -> & Hc2 & Hd2).
  intros [= <- <- <-]. split; [done|]. pose proof (dl_net _ _ _ Hd2) as Hnet. split_and!.
  - eapply moved_trans; [done|]. split; [apply (dl_open _ _ _ Hd2)|apply (dl_size _ _ _ Hd2)|by rewrite Hnet|apply (dl_less _ _ _ Hd2)|].
    intros q b Hq. destruct (dl_kept _ _ _ Hd2 q b Hq) as [Hk|[Hin|Hin]]; [by left| |].
    + rewrite ref_order_perm in Hin. apply elem_of_map_to_list in Hin. right. right.
      destruct (Hdel q true (Hfall _ Hin)) as (ds & Hw & Hn & Ha). exists ds. split_and!; try done. intros u Hu.
      destruct (Ha u Hu) as (v & Hv & Hqv). rewrite Hnet. rewrite Hsame in Hq. eapply Harr; [|exact Hqv|exact Hq|exact Hin].
      rewrite map_order_perm. by apply elem_of_map_to_list.
    + rewrite ref_order_perm in Hin. apply elem_of_map_to_list in Hin. right. left. by eapply Hdead.
  - intros _ q Hq. apply (dl_gone _ _ _ Hd2); [apply (ext_open _ _ (de_store _ _ Het)), Ho|].
    right. rewrite ref_order_perm. by apply elem_of_map_to_list.
  - intros Hq Hu _. split; [done|]. unfold unlocked. rewrite (dl_dmds _ _ _ Hd2). by apply Hgo.
Qed.

(** ** A cycle *)

Lemma Tick_reb d d' (r r' : rebalancer) o :
  Tick cfg (d, r) = (o, (d', r')) → r' = mkReb (Some (p_it (tick_plan d r).2)) (r_gc r) (Some (tick_ring d r)).
Proof.
  rewrite Tick_unfold. destruct (tick_plan d r) as [so p]. cbn [snd]. destruct so as [itDone|e|]; [|by intros [= <- <- <-]..].
  destruct (check_peers _ _) as [[[]|e|] t]; [|by intros [= <- <- <-]..].
  destruct ((delete_refs (ref_order (t_delete t)) ≫= _) (t_dist t)) as [[[]|e|] d2]; by intros [= <- <- <-].
Qed.

Lemma tick_once_run now (k k' : ticker) o :
  tick_once cfg now k = (o, k') → ∃ x, Tick cfg (k_dist k, k_reb k) = (x, (k_dist k', k_reb k')) ∧
    o = (if is_panic x then Panic else Ok (at_eof x)).
Proof.
  unfold tick_once. destruct (Tick cfg (k_dist k, k_reb k)) as [x [d r]]. intros Hk. exists x.
  destruct (is_panic x); [by injection Hk as <- <-|]. destruct (at_eof x); by injection Hk as <- <-.
Qed.

Lemma tick_once_safe now (k : ticker) o k' :
  coh (k_dist k) → is_open (blocks (k_dist k)) → tick_once cfg now k = (o, k') →
  coh (k_dist k') ∧ moved (r_gc (k_reb k)) (tick_ring (k_dist k) (k_reb k)) (k_dist k) (k_dist k') ∧
  r_gc (k_reb k') = r_gc (k_reb k) ∧ tick_ring (k_dist k') (k_reb k') = tick_ring (k_dist k) (k_reb k).
Proof.
  intros Hc Ho (x & E & _)%tick_once_run. destruct (Tick_safe _ _ _ _ _ Hc Ho E) as (Hc' & Hm & _). split_and!; try done;
    by rewrite (Tick_reb _ _ _ _ _ E).
Qed.

Lemma tick_loop_safe (fuel : nat) (now : Z) (k : ticker) (o : res bool) (k' : ticker) :
  coh (k_dist k) → is_open (blocks (k_dist k)) → tick_loop cfg fuel now k = (o, k') →
  coh (k_dist k') ∧ moved (r_gc (k_reb k)) (tick_ring (k_dist k) (k_reb k)) (k_dist k) (k_dist k').
Proof.
  revert k. induction fuel as [|fuel IH]; intros k Hc Ho; cbn [tick_loop].
  { intros [= <- <-]. split; [done|by apply moved_refl]. }
  unfold mbind, M_bind. destruct (tick_once cfg now k) as [to k1] eqn:E.
  destruct (tick_once_safe _ _ _ _ Hc Ho E) as (Hc1 & Hm & Hg & Hr).
  destruct to as [[]|e|]; [by intros [= <- <-]| |by intros [= <- <-]..].
  intros Hl. destruct (IH k1 Hc1 (mv_open _ _ _ _ Hm Ho) Hl) as [Hc2 Hm2]. split; [done|].
  rewrite Hg, Hr in Hm2. by eapply moved_trans.
Qed.
End tick.

(** ** A cycle comes to an end *)

Section errors.
Context {S N : Type} `{B : BlockStore S} `{HN : Network N} `{HH : HashRing} `{HR : Range} `{HO : MapOrder}.
Context (cfg : Config).
Abbreviation dist := (Distributor (S := S) (N := N)).

(** Code that handles its errors. *)
Definition no_err {T A} (m : M T A) : Prop := ∀ t e, (m t).1 ≠ Err e.

Lemma no_err_bind {T A C} (m : M T A) (f : A → M T C) : no_err m → (∀ a, no_err (f a)) → no_err (m ≫= f).
Proof.
  intros Hm Hf t e. unfold mbind, M_bind. pose proof (Hm t) as Ht. destruct (m t) as [[a|e'|] t1]; [apply Hf| |done].
  by destruct (Ht e').
Qed.
Lemma no_err_try {T A} (m : M T A) : no_err (try m).
Proof. intros t e. unfold try. by destruct (m t) as [[a|e'|] t1]. Qed.
Lemma no_err_ret {T A} (a : A) : no_err (T := T) (mret a).
Proof. done. Qed.
Lemma no_err_modify {T} (f : T → T) : no_err (modify f).
Proof. done. Qed.
Lemma no_err_panic {T A} : no_err (T := T) (panic (A := A)).
Proof. done. Qed.
End errors.

Create HintDb noerr.
#[export] Hint Resolve no_err_bind no_err_try no_err_ret no_err_modify no_err_panic : noerr.
Ltac noerr_auto := repeat first [progress intros | case_match | solve [auto with noerr] | apply no_err_bind].

Section loop.
Context {S N : Type} `{B : BlockStore S} `{HN : Network N} `{HH : HashRing} `{HR : Range} `{HO : MapOrder}.
Context (cfg : Config).
Abbreviation dist := (Distributor (S := S) (N := N)).

Lemma no_err_keep r : no_err (keep (S := S) (N := N) r).
Proof. unfold keep. auto with noerr. Qed.
#[local] Hint Resolve no_err_keep : noerr.
Lemma no_err_send k v oks : no_err (send (S := S) (N := N) k v oks).
Proof. revert v. induction oks as [|[] oks IH]; intros v; cbn [send]; [auto with noerr|done|]. unfold send_one. noerr_auto. Qed.
Lemma no_err_keep_all v : no_err (keep_all (S := S) (N := N) v).
Proof. induction v; cbn [keep_all]; noerr_auto. Qed.
#[local] Hint Resolve no_err_send no_err_keep_all : noerr.
Lemma no_err_check l : no_err (check_peers (S := S) (N := N) l).
Proof. induction l as [|[k v] l IH]; cbn [check_peers]; noerr_auto. Qed.
Lemma no_err_delete l : no_err (delete_refs (S := S) (N := N) l).
Proof. induction l as [|[k []] l IH]; cbn [delete_refs]; noerr_auto. Qed.
#[local] Hint Resolve no_err_check no_err_delete : noerr.

(** A tick fails only when its scan does. *)
Lemma Tick_fails (d d' : dist) (r r' : rebalancer) o :
  Tick cfg (d, r) = (o, (d', r')) →
  match o with Ok (_, fin) => (tick_plan cfg d r).1 = Ok fin | Err e => (tick_plan cfg d r).1 = Err e | Panic => True end.
Proof.
  rewrite Tick_unfold. destruct (tick_plan cfg d r) as [so p]. cbn [fst]. destruct so as [itDone|e|]; [|by intros [= <- <- <-]..].
  pose proof (no_err_check (map_order (p_m p)) (mkTick d (p_delete p) 0)) as Hc.
  destruct (check_peers _ _) as [[[]|e|] t]; [|by destruct (Hc e)|by intros [= <- <- <-]].
  set (m := _ ← delete_refs _; _). assert (no_err m) as Hm by (unfold m; noerr_auto). specialize (Hm (t_dist t)).
  destruct (m (t_dist t)) as [[[]|e|] d2]; [by intros [= <- <- <-]|by destruct (Hm e)|by intros [= <- <- <-]].
Qed.

(** A ring that places a block, and one that does not panic for it. *)
Definition places (ring : Ring) (q : BlockRef) : Prop := ∃ desired, wanted ring q desired.
Definition steady (ring : Ring) (q : BlockRef) : Prop :=
  match Ring.GetPeers ring q with
  | Ok perm => is_Some (gslice 0 (Replication perm) (Peers perm))
  | Err _ => True
  | Panic => False
  end.
End loop.

(** Every well-formed ring is steady. *)
Lemma ring_steady `{HL : HashRingLaws} `{HR : Range} ring q : ring_ok ring → steady ring q.
Proof.
  intros Hr. pose proof (get_peers_spec ring q Hr) as Hp. unfold steady. destruct (Ring.GetPeers ring q) as [perm|e|]; [|done|done].
  destruct Hp as (_ & _ & Hrep). unfold gslice. rewrite decide_True by lia. by eexists.
Qed.

Section ends.
Context {S N : Type} `{IL : IteratorLaws S} `{HN : Network N} `{HH : HashRing} `{HR : Range} `{HO : MapOrder}.
Context (cfg : Config).
Abbreviation dist := (Distributor (S := S) (N := N)).

Lemma scan_outcome n gcs ring (st : S) p :
  iter_ok (p_it p) →
  (Forall (places ring) (iter_left (p_it p)) → ∀ e, (scan cfg n gcs ring st p).1 ≠ Err e) ∧
  (Forall (steady ring) (iter_left (p_it p)) → (scan cfg n gcs ring st p).1 ≠ Panic).
Proof.
  revert p. induction n as [|n IH]; intros p Hok; cbn [scan]; [done|]. rewrite (bind_step get _ p p p) by done.
  destruct (iter_left (p_it p)) as [|ref l] eqn:E.
  { destruct (iter_end st _ Hok E) as (it & -> & _ & _ & He).
    rewrite (bind_step (modify _) _ p tt (mkPlan it (p_m p) (p_delete p) (p_dead p))) by done. unfold mbind, M_bind, lift.
    cbn [negb]. by rewrite He. }
  destruct (iter_step st _ _ _ Hok E) as (it & -> & Hok1 & Hl & Hr).
  rewrite (bind_step (modify _) _ p tt (mkPlan it (p_m p) (p_delete p) (p_dead p))) by done. set (p1 := mkPlan it _ _ _).
  unfold mbind, M_bind, lift. cbn [negb]. rewrite Hr. cbn beta iota.
  destruct (plan_ref cfg gcs ring ref p1) as [po p2] eqn:E2. pose proof (plan_ref_it _ _ _ _ _ _ _ E2) as Hit. cbn in Hit.
  assert (iter_ok (p_it p2)) as Hok2 by (by rewrite Hit). destruct (IH p2 Hok2) as [IH1 IH2]. rewrite Hit, Hl in IH1, IH2.
  unfold plan_ref in E2. rewrite !list.Forall_cons. destruct (controller_IsDead gcs ref).
  { injection E2 as <- <-. split; intros [_ Hf]; [by apply IH1|by apply IH2]. }
  unfold mbind, M_bind, lift, places, wanted, steady in *. destruct (Ring.GetPeers ring ref) as [perm|e|].
  - destruct (gslice 0 (Replication perm) (Peers perm)); cbn in E2; injection E2 as <- <-; [split; intros [_ Hf]; [by apply IH1|by apply IH2]|].
    split; [done|]. by intros [[? ?] _].
  - injection E2 as <- <-. split; [|done]. by intros [(? & ? & ? & _) _].
  - injection E2 as <- <-. split; [done|]. by intros [[] _].
Qed.

(** A tick goes through its iterator. *)
Lemma Tick_visits (d d' : dist) (r r' : rebalancer) o :
  iter_ok (tick_it d r) → Tick cfg (d, r) = (o, (d', r')) →
  iter_ok (tick_it d' r') ∧
  ∃ vis, iter_left (tick_it d r) = vis ++ iter_left (tick_it d' r') ∧
    (o ≠ Panic → (∀ n, o ≠ Ok (n, true)) → vis ≠ []) ∧
    (∀ n, o = Ok (n, true) → iter_left (tick_it d' r') = []) ∧
    (is_ok o = true → ∀ q, q ∈ vis → controller_IsDead (r_gc r) q = true → p_dead (tick_plan cfg d r).2 !! q = Some true).
Proof.
  intros Hok E. pose proof (Tick_fails _ _ _ _ _ _ E) as Hf. rewrite (Tick_reb _ _ _ _ _ _ E).
  destruct (tick_plan cfg d r) as [so p] eqn:Es. cbn [fst snd] in *. cbn.
  destruct (scan_visits cfg _ _ _ _ _ _ _ (Hok : iter_ok (p_it (mkPlan (tick_it d r) ∅ ∅ ∅))) Es) as (vis & [Ho Hl Hs He Hd _]).
  split; [done|]. exists vis. split; [done|]. split_and!.
  - intros Hp Hn. apply Hs; [unfold maxIters; lia|]. intros ->. destruct o as [[n fin]|e|]; [|done|done]. injection Hf as <-. by apply (Hn n).
  - intros n ->. by apply He.
  - intros Hi q Hq Hdq. apply Hd; [|done|done]. destruct o as [[n fin]|e|]; [by rewrite Hf|done|done].
Qed.
End ends.

Section loops.
Context {S N : Type} `{IL : IteratorLaws S} `{NL : NetworkLaws N} `{HH : HashRing} `{HR : Range} `{HO : MapOrder}.
Context (cfg : Config) (addr : gostring → gostring) (R : Ring → Prop) (P : BlockRef → bytes → Prop) (P_once : once P) (cached : bool).
Abbreviation dist := (Distributor (S := S) (N := N)).
Abbreviation coh := (coherent addr R P cached).

(** The blocks a cycle has still to visit. *)
Definition to_visit (k : ticker (S := S) (N := N)) : list BlockRef := iter_left (tick_it (k_dist k) (k_reb k)).

Lemma tick_loop_ends (now : Z) (k : ticker) (fuel : nat) :
  coh (k_dist k) → is_open (blocks (k_dist k)) → quiet_net N → unlocked (k_dist k) → iter_ok (tick_it (k_dist k) (k_reb k)) →
  Forall (steady (tick_ring (k_dist k) (k_reb k))) (to_visit k) →
  (length (to_visit k) < fuel)%nat → (tick_loop cfg fuel now k).1 = Ok true.
Proof.
  unfold to_visit. revert k. induction fuel as [|fuel IH]; intros k Hc Ho Hq Hu Hok Hst Hf; [lia|]. cbn [tick_loop].
  unfold mbind, M_bind. destruct (tick_once cfg now k) as [o k1] eqn:E.
  destruct (tick_once_safe cfg addr R P P_once cached _ _ _ _ Hc Ho E) as (Hc1 & Hm & _ & Hr).
  destruct (tick_once_run _ _ _ _ _ E) as (x & Ex & ->).
  destruct (Tick_safe cfg addr R P P_once cached _ _ _ _ _ Hc Ho Ex) as (_ & _ & _ & Hgo).
  destruct (scan_outcome cfg maxIters (r_gc (k_reb k)) (tick_ring (k_dist k) (k_reb k)) (blocks (k_dist k))
    (mkPlan (tick_it (k_dist k) (k_reb k)) ∅ ∅ ∅) Hok) as [_ Hp]. specialize (Hp Hst).
  destruct (Hgo Hq Hu Hp) as [Hx Hu1]. replace (is_panic x) with false by (by destruct x).
  destruct (Tick_visits cfg _ _ _ _ _ Hok Ex) as (Hok1 & vis & Hl & Hv & _). rewrite Hl in Hst, Hf.
  apply Forall_app in Hst as [_ Hst]. rewrite length_app in Hf. destruct (at_eof x) eqn:Ea; [done|].
  apply IH; try done; [by apply (mv_open _ _ _ _ _ _ Hm)|by rewrite Hr|].
  assert (vis ≠ []) as Hne; [|destruct vis; [done|cbn in Hf; lia]]. apply Hv; [done|]. intros n ->. done.
Qed.

(** C32: garbage is collected.  When a cycle over a store whose iterators go through a
    list of its blocks has come to its end and the ring placed every block, no dead block
    the iterator visits is left in the store, whatever failed on the network.  It follows that a collector that knows no volume, as
    after an error of the metadata service that is only logged, empties the
    store. *)
Theorem dead_blocks_collected (fuel : nat) (now : Z) (k k' : ticker) :
  coh (k_dist k) → is_open (blocks (k_dist k)) → iter_ok (tick_it (k_dist k) (k_reb k)) →
  Forall (places (tick_ring (k_dist k) (k_reb k))) (to_visit k) →
  tick_loop cfg fuel now k = (Ok true, k') →
  ∀ q, q ∈ to_visit k → controller_IsDead (r_gc (k_reb k)) q = true → stored (blocks (k_dist k')) q = None.
Proof.
  unfold to_visit. revert k. induction fuel as [|fuel IH]; intros k Hc Ho Hok Hp; cbn [tick_loop]; [done|].
  unfold mbind, M_bind. destruct (tick_once cfg now k) as [o k1] eqn:E.
  destruct (tick_once_safe cfg addr R P P_once cached _ _ _ _ Hc Ho E) as (Hc1 & Hm & Hg & Hr).
  destruct (tick_once_run _ _ _ _ _ E) as (x & Ex & ->).
  destruct (Tick_safe cfg addr R P P_once cached _ _ _ _ _ Hc Ho Ex) as (_ & _ & Hgone & _).
  destruct (scan_outcome cfg maxIters (r_gc (k_reb k)) (tick_ring (k_dist k) (k_reb k)) (blocks (k_dist k))
    (mkPlan (tick_it (k_dist k) (k_reb k)) ∅ ∅ ∅) Hok) as [He _]. specialize (He Hp).
  destruct (Tick_visits cfg _ _ _ _ _ Hok Ex) as (Hok1 & vis & Hl & _ & Hf & Hd).
  pose proof (Tick_fails cfg _ _ _ _ _ Ex) as Hfail. destruct x as [[n fin]|e|]; [|by destruct (He e)|done].
  specialize (Hd eq_refl). specialize (Hgone eq_refl). cbn [is_panic at_eof].
  destruct fin.
  - intros [= <-] q Hq Hdq. rewrite Hl, (Hf n eq_refl), app_nil_r in Hq. by apply Hgone, Hd.
  - intros Hloop q Hq Hdq. pose proof (mv_open _ _ _ _ _ _ Hm Ho) as Ho1. rewrite Hl in Hq, Hp. apply Forall_app in Hp as [_ Hp].
    apply elem_of_app in Hq as [Hq|Hq]; [|eapply (IH k1); try done; [by rewrite Hr|by rewrite Hg]].
    destruct (stored (blocks (k_dist k')) q) as [b|] eqn:Es; [|done]. pose proof (Hgone q (Hd q Hq Hdq)) as Hn.
    destruct (tick_loop_safe cfg addr R P P_once cached fuel now k1 _ _ Hc1 Ho1 Hloop) as [_ Hm2].
    apply (mv_less _ _ _ _ _ _ Hm2) in Es. congruence.
Qed.
End loops.

(** ** A node at work *)

Section node.
Context {S N : Type} `{L : BlockStoreLaws S} `{NL : NetworkLaws N} `{HH : HashRing} `{HR : Range} `{HO : MapOrder}.
Context (cfg : Config) (addr : gostring → gostring).
Abbreviation dist := (Distributor (S := S) (N := N)).
Abbreviation the content := (λ r b, content r = Some b).

(** A call, a tick of the rebalancer, or the start of a cycle with what the
    collectors found. *)
Inductive nop := NCall (o : dop) | NTick | NCycle (gcs : list GC.GC).

Definition run_nop (o : nop) : M (dist * rebalancer) (option bytes) := λ '(d, r),
  match o with
  | NCall o => let '(x, d') := run_dop cfg o d in (x, (d', r))
  | NTick => (_ ← Tick cfg; mret None) (d, r)
  | NCycle gcs => (Ok None, (d, mkReb None gcs (r_ring r)))
  end.

Definition nop_ok (R : Ring → Prop) (content : BlockRef → option bytes) (size : Z) (o : nop) : Prop :=
  match o with NCall o => dop_ok (S := S) R content size o | _ => True end.
Definition nanswer (content : BlockRef → option bytes) (o : nop) (x : res (option bytes)) : Prop :=
  match o with NCall o => answer content o x | _ => True end.

(** The node is coherent and open, and [R] holds of the rebalancer's ring too. *)
Record node_ok (R : Ring → Prop) (content : BlockRef → option bytes) (st : dist * rebalancer) : Prop := {
  no_coherent : coherent addr R (the content) false st.1;
  no_open : is_open (blocks st.1);
  no_ring g : r_ring st.2 = Some g → R g;
}.

Lemma tick_ring_ok R content st : node_ok R content st → R (tick_ring st.1 st.2).
Proof.
  intros [Hc _ Hr]. unfold tick_ring. destruct (r_it st.2); [|apply (co_ring _ _ _ _ _ Hc)].
  destruct (r_ring st.2) eqn:E; cbn; [by apply Hr|apply (co_ring _ _ _ _ _ Hc)].
Qed.

Lemma run_nop_ok R content o st :
  node_ok R content st → nop_ok R content (Store.BlockSize (blocks st.1)) o →
  node_ok R content (run_nop o st).2 ∧ nanswer content o (run_nop o st).1 ∧
  Store.BlockSize (blocks (run_nop o st).2.1) = Store.BlockSize (blocks st.1).
Proof.
  intros Hn Ho. pose proof Hn as [Hc Hop Hr]. destruct st as [d r]. cbn in *. destruct o as [o| |gcs]; cbn in *.
  - pose proof (run_dop_safe cfg addr R content o d Hc Ho) as Hs. unfold safe in Hs. destruct (run_dop cfg o d) as [x d'].
    destruct Hs as (Hc' & [He _ _] & Hx). split_and!; [split; [done|by apply (ext_open _ _ He)|done]| |apply (ext_size _ _ He)].
    destruct x; [apply Hx|by destruct o|by destruct o].
  - unfold mbind, M_bind. pose proof (tick_ring_ok _ _ _ Hn) as Hri. destruct (Tick cfg (d, r)) as [o [d' r']] eqn:E.
    destruct (Tick_safe cfg addr R _ (content_once content) false _ _ _ _ _ Hc Hop E) as (Hc' & Hm & _).
    assert (node_ok R content (d', r')) as Hn'.
    { split; [done|by apply (mv_open _ _ _ _ _ _ Hm)|]. rewrite (Tick_reb _ _ _ _ _ _ E). by intros g [= <-]. }
    pose proof (mv_size _ _ _ _ _ _ Hm). by destruct o.
  - split_and!; [|done|done]. by split.
Qed.

(** ** An acknowledged block *)

(** A ring wants a block somewhere. *)
Definition placed (r : BlockRef) (ring : Ring) : Prop := ∀ desired, wanted ring r desired → desired ≠ [].

Lemma moved_durable gcs ring r b (d d' : dist) :
  moved cfg addr gcs ring d d' → controller_IsDead gcs r = false → placed r ring → durable r b d → durable r b d'.
Proof.
  intros Hm Hd Hp [Hs|[a Ha]]; [|right; exists a; by apply (mv_net _ _ _ _ _ _ Hm)].
  destruct (mv_kept _ _ _ _ _ _ Hm r b Hs) as [Hs'|[Hd'|(ds & Hw & _ & Hall)]]; [by left|congruence|].
  right. destruct ds as [|p ds]; [by destruct (Hp [] Hw)|]. exists (addr p). apply Hall. by left.
Qed.

(** No collector finds the block dead. *)
Definition alive (r : BlockRef) (o : nop) : Prop :=
  match o with NCycle gcs => controller_IsDead gcs r = false | _ => True end.

Lemma run_nop_alive r o (st : dist * rebalancer) :
  alive r o → controller_IsDead (r_gc st.2) r = false → controller_IsDead (r_gc (run_nop o st).2.2) r = false.
Proof.
  destruct st as [d rb]. intros Hal Hd. destruct o as [o| |gcs]; cbn in *; [by destruct (run_dop cfg o d)| |done].
  unfold mbind, M_bind. destruct (Tick cfg (d, rb)) as [o [d' r']] eqn:E. rewrite (Tick_reb _ _ _ _ _ _ E). by destruct o.
Qed.

Lemma run_nop_durable content r b o st :
  node_ok (placed r) content st → nop_ok (placed r) content (Store.BlockSize (blocks st.1)) o → alive r o →
  controller_IsDead (r_gc st.2) r = false → durable r b st.1 → durable r b (run_nop o st).2.1.
Proof.
  intros Hn Ho Hal Hd Hb. pose proof Hn as [Hc Hop Hr]. destruct st as [d rb]. cbn in *. destruct o as [o| |gcs]; cbn in *.
  - pose proof (run_dop_safe cfg addr (placed r) content o d Hc Ho) as Hs. unfold safe in Hs.
    destruct (run_dop cfg o d) as [x d']. destruct Hs as (_ & He & _). by eapply durable_ext.
  - unfold mbind, M_bind. pose proof (tick_ring_ok _ _ _ Hn) as Hri. destruct (Tick cfg (d, rb)) as [o [d' r']] eqn:E.
    destruct (Tick_safe cfg addr (placed r) _ (content_once content) false _ _ _ _ _ Hc Hop E) as (_ & Hm & _).
    pose proof (moved_durable _ _ _ _ _ _ Hm Hd Hri Hb) as Hb'. by destruct o.
  - done.
Qed.

(** A write that succeeds leaves the block somewhere. *)
Lemma run_nop_acked content R sched r b (st st' : dist * rebalancer) :
  node_ok R content st → nop_ok R content (Store.BlockSize (blocks st.1)) (NCall (DWrite sched r b)) →
  run_nop (NCall (DWrite sched r b)) st = (Ok None, st') → durable r b st'.1.
Proof.
  destruct st as [d rb]. intros [Hc _ _] Ho Hrun. cbn [fst] in *.
  pose proof (run_dop_safe cfg addr R content (DWrite sched r b) d Hc Ho) as Hs. unfold safe in Hs. cbn [run_nop] in Hrun.
  destruct (run_dop cfg (DWrite sched r b) d) as [x d']. injection Hrun as -> <-. by destruct Hs as (_ & _ & _ & ?).
Qed.
End node.

(** ** An iterator with an error *)

Section broken.
Context {N : Type} `{HN : Network N} `{HH : HashRing} `{HR : Range} `{HO : MapOrder} (cfg : Config).

(** At the end of the device, after an error. *)
Definition broken (e : error) (it : deviceBlockIterator) : Prop :=
  i_done it = true ∧ i_err it = Some e.

Lemma broken_Next e d it : broken e it → ∃ it', BlockDevice.Next d it = (Ok false, it') ∧ broken e it'.
Proof.
  intros [Hd He]. unfold BlockDevice.Next, BlockDevice.nextHelper. case_decide; cbn; rewrite Hd; by eexists.
Qed.

(** An error of the device's iterator is never forgotten.  When the iterator of
    the block device is at the end of the device and could not read a header on its
    way, every further round of the rebalancer returns that error and not the end:
    the cycle never ends, its collectors are never prepared again and nothing is
    deleted or moved any more, unless the error happens to be io.EOF. *)
Theorem iterator_error_never_ends (fuel : nat) (now : Z) (k : ticker (S := deviceBlock) (N := N)) (it : deviceBlockIterator) e :
  r_it (k_reb k) = Some it → broken e it → e ≠ EOF →
  (tick_loop cfg fuel now k).1 = Ok false ∧ k_dist (tick_loop cfg fuel now k).2 = k_dist k.
Proof.
  intros Hit Hb Hne. revert k it Hit Hb. induction fuel as [|fuel IH]; intros k it Hit Hb; cbn [tick_loop]; [done|].
  unfold mbind, M_bind. destruct (tick_once cfg now k) as [o k1] eqn:E. destruct (tick_once_run _ _ _ _ _ E) as (x & Ex & ->).
  destruct (broken_Next e (blocks (k_dist k)) it Hb) as (it' & Hn & Hb').
  assert (∃ p, tick_plan cfg (k_dist k) (k_reb k) = (Err e, p) ∧ p_it p = it') as (p & Hp & Hpi).
  { unfold tick_plan, tick_it. rewrite Hit. cbn [default maxIters]. unfold scan. cbn.
    unfold mbind, M_bind, get, modify, lift. cbn. rewrite Hn. cbn. destruct Hb' as [_ ->]. by eexists. }
  pose proof (Tick_reb _ _ _ _ _ _ Ex) as Hr. rewrite Tick_unfold, Hp in Ex. injection Ex as <- Hd _. cbn.
  rewrite bool_decide_false by done. rewrite Hp in Hr. cbn in Hr. rewrite Hpi in Hr.
  destruct (IH k1 it') as [H1 H2]; [by rewrite Hr|done|]. by rewrite H2, <-Hd.
Qed.
End broken.

(** A device that ends within the header of its second place: the first round of
    the rebalancer meets a short read, and the second one the end. *)
#[local] Existing Instances cx_hash map_range cx_order.
Definition bx_device : bytes := Metadata_Marshal (mkMetadata 512 0 0) ++ zeros (Z.to_nat (bdBlockSize + 512 + 100)).
Definition bx_ticker : res (ticker (S := deviceBlock) (N := unit)) :=
  d ← newBlockDeviceBlockStore bx_device 512;
  mret (mkTicker (mkDist d tt ∅ ∅ (cx_mds cx_ring) None cx_ring false false) (NewRebalancer []) false 0 0 None).
Definition bx_cfg : Config := mkConfig [x61] WriteLocal ReadSequential 400 2.
Definition bx_after : option (ticker (S := deviceBlock) (N := unit)) :=
  match bx_ticker with Ok k => Some (tick_loop bx_cfg 2 7 k).2 | _ => None end.
Definition bx_it : deviceBlockIterator := mkDIter 13312 (BlockRefFromUint64s 0 0 0) true (Some ErrShortRead).

Lemma bx_broken : ∃ k, bx_after = Some k ∧ r_it (k_reb k) = Some bx_it.
Proof.
  assert ((λ k, r_it (k_reb k)) <$> bx_after = Some (Some bx_it)) as E by (vm_compute; reflexivity).
  destruct bx_after as [k|]; [|done]. exists k. split; [done|]. by injection E.
Qed.
Lemma iterator_error_never_ends_witness : ∃ k, bx_after = Some k ∧ (tick_loop bx_cfg 1000 7 k).1 = Ok false.
Proof.
  destruct bx_broken as (k & Hk & Hit). exists k. split; [exact Hk|].
  refine (proj1 (iterator_error_never_ends bx_cfg 1000 7 k bx_it ErrShortRead Hit _ _)); [split; reflexivity|discriminate].
Defined.
