(* ===== verification/ClusterSpec.v ===== *)
(** * What a cluster of nodes promises

    Puts the nodes together: every node has a distributor and a rebalancer, and the
    network of each node is the others ([Cluster]).  An event is a call at a node,
    a tick of its rebalancer or the start of a cycle; while it runs, the node calls
    the others, and requests and replies of these calls are lost as the event says.
    The theorems are about any sequence of events at any nodes, so the peers of a
    node delete blocks too. *)
From stdpp Require Import pretty.
From S2P Require Import Prelude GoSem GoStrings Refs TempStore Store Crc32 Blockset Proto Models INodeStore File Ring RingSpec Metadata MetaTemp MetaTempSpec BlockVolume GC LRU Distributor DistributorSpec Cluster Rebalance RebalanceSpec.

(** ** The nodes and their events *)

Section world.
Context {S : Type} `{B : BlockStore S} `{HH : HashRing} `{HR : Range} `{HO : MapOrder}.
Context (cfgs : gostring → Config).

(** The distributor without its network, the connections and the rebalancer. *)
Record member := mkMember {
  mb_node : Distributor (S := S) (N := unit);
  mb_conns : gmap gostring gostring;
  mb_reb : rebalancer (S := S);
}.
(** The nodes by their addresses. *)
Abbreviation world := (gmap gostring member).

Definition attach (f : list fault) (others : world) (m : member) : Distributor (S := S) (N := cluster) :=
  let n := mb_node m in
  mkDist (blocks n) (mkCluster (mb_node <$> others) f) (mb_conns m) (peersMap n) (dmds n) (readCache n) (dring n)
    (chansClosed n) (closed n).
Definition detach (d : Distributor (S := S) (N := cluster)) (r : rebalancer) : member :=
  mkMember (mkDist (blocks d) tt ∅ (peersMap d) (dmds d) (readCache d) (dring d) (chansClosed d) (closed d)) (openConns d) r.
Definition refresh (ns : gmap gostring (Distributor (S := S) (N := unit))) (others : world) : world :=
  map_imap (λ a m, Some (mkMember (default (mb_node m) (ns !! a)) (mb_conns m) (mb_reb m))) others.

Record event := mkEvent { e_at : gostring; e_faults : list fault; e_op : nop }.

Definition step (e : event) (w : world) : res (option bytes) * world :=
  match w !! e_at e with
  | None => (Err ErrNoPeer, w)
  | Some m =>
      let others := delete (e_at e) w in
      let '(x, (d, r)) := run_nop (cfgs (e_at e)) (e_op e) (attach (e_faults e) others m, mb_reb m) in
      (x, <[e_at e := detach d r]> (refresh (nodes (net d)) others))
  end.

Fixpoint steps (es : list event) (w : world) : list (res (option bytes)) * world :=
  match es with
  | [] => ([], w)
  | e :: es' => let '(x, w1) := step e w in let '(xs, w2) := steps es' w1 in (x :: xs, w2)
  end.

Lemma refresh_lookup ns others a :
  refresh ns others !! a = (λ m, mkMember (default (mb_node m) (ns !! a)) (mb_conns m) (mb_reb m)) <$> others !! a.
Proof. unfold refresh. rewrite map_lookup_imap. by destruct (others !! a). Qed.
End world.

(** ** Invariant *)

Section nodes.
Context {S : Type} `{L : BlockStoreLaws S} `{HH : HashRing} `{HR : Range} `{HO : MapOrder}.
Context (cfgs : gostring → Config) (addr : gostring → gostring) (content : BlockRef → option bytes) (size : Z).
Context (content_ok : ∀ r b, content r = Some b → valid r ∧ Z.of_nat (length b) = size).
Abbreviation world := (gmap gostring (member (S := S))).
Abbreviation the_content := (λ r b, content r = Some b).
Implicit Types (w : world) (m : member (S := S)) (e : event) (a : gostring) (r : BlockRef) (b : bytes) (R : Ring → Prop).

Record member_ok R m : Prop := {
  mo_coherent : coherent addr R the_content false (mb_node m);
  mo_open : is_open (blocks (mb_node m));
  mo_size : Store.BlockSize (blocks (mb_node m)) = size;
  mo_conns u c : mb_conns m !! u = Some c → c = addr u;
  mo_ring g : r_ring (mb_reb m) = Some g → R g;
}.
Definition world_ok R w : Prop := ∀ a m, w !! a = Some m → member_ok R m.
Definition event_ok R e : Prop := nop_ok (S := S) R content size (e_op e).

(** The laws of the network of the node at [a]. *)
Abbreviation laws R w a := (cluster_laws (S := S) addr R size (dom (delete a w))).

Lemma attach_ok R w a m f :
  world_ok R w → w !! a = Some m → node_ok (NL := laws R w a) addr R content (attach f (delete a w) m, mb_reb m).
Proof.
  intros Hw Ha. destruct (Hw a m Ha) as [[Hi Hs Hn Hco Hpe Hdm Hca Hcd Hri] Hop Hsz Hcn Hr]. split; [|done|done].
  split; try done. change (cluster_holds addr R size (dom (delete a w)) the_content (mkCluster (mb_node <$> delete a w) f)).
  split; [cbn [nodes]; by rewrite dom_fmap_L|]. split; [exact content_ok|]. intros a' d. cbn [nodes].
  rewrite lookup_fmap, fmap_Some. intros (m' & [_ Hm']%lookup_delete_Some & ->). by destruct (Hw _ _ Hm').
Qed.

Lemma detach_ok R w a d rb :
  node_ok (NL := laws R w a) addr R content (d, rb) → Store.BlockSize (blocks d) = size → member_ok R (detach d rb).
Proof. intros [[Hi Hs Hn Hco Hpe Hdm Hca Hcd Hri] Hop Hr] Hsz. by split. Qed.

(** The other nodes are as the calls of the event left them. *)
Lemma refresh_ok R w a (d : Distributor (S := S) (N := cluster)) rb :
  world_ok R w → node_ok (NL := laws R w a) addr R content (d, rb) → world_ok R (refresh (nodes (net d)) (delete a w)).
Proof.
  intros Hw [Hc _ _] a' m'. rewrite refresh_lookup, fmap_Some. intros (m & [_ Hm]%lookup_delete_Some & ->).
  destruct (Hw _ _ Hm) as [Hco Hop Hsz Hcn Hr]. destruct (co_net _ _ _ _ _ Hc) as (_ & _ & Hns).
  destruct (nodes (net d) !! a') as [n|] eqn:E; cbn; [|by split]. destruct (Hns _ _ E) as (? & ? & ?). by split.
Qed.

Lemma step_run R e w :
  world_ok R w → event_ok R e →
  (step cfgs e w).1 = Err ErrNoPeer ∧ (step cfgs e w).2 = w ∨
  ∃ m d rb x, w !! e_at e = Some m ∧
    run_nop (cfgs (e_at e)) (e_op e) (attach (e_faults e) (delete (e_at e) w) m, mb_reb m) = (x, (d, rb)) ∧
    step cfgs e w = (x, <[e_at e := detach d rb]> (refresh (nodes (net d)) (delete (e_at e) w))) ∧
    node_ok (NL := laws R w (e_at e)) addr R content (attach (e_faults e) (delete (e_at e) w) m, mb_reb m) ∧
    nop_ok (S := S) R content (Store.BlockSize (blocks (mb_node m))) (e_op e) ∧
    node_ok (NL := laws R w (e_at e)) addr R content (d, rb) ∧ nanswer content (e_op e) x ∧ Store.BlockSize (blocks d) = size.
Proof.
  intros Hw He. unfold step. destruct (w !! e_at e) as [m|] eqn:Em; [|by left]. right. exists m.
  pose proof (attach_ok R w _ m (e_faults e) Hw Em) as Hn. destruct (Hw _ _ Em) as [_ _ Hsz _ _].
  assert (nop_ok (S := S) R content (Store.BlockSize (blocks (mb_node m))) (e_op e)) as Ho by (by rewrite Hsz).
  destruct (run_nop_ok (NL := laws R w (e_at e)) (cfgs (e_at e)) addr R content (e_op e) _ Hn Ho) as (Hn' & Hx & Hz).
  destruct (run_nop _ _ _) as [x [d rb]]. exists d, rb, x. cbn in Hz. rewrite Hsz in Hz. by split_and!.
Qed.

Lemma step_ok R e w : world_ok R w → event_ok R e → world_ok R (step cfgs e w).2 ∧ nanswer content (e_op e) (step cfgs e w).1.
Proof.
  intros Hw He. destruct (step_run R e w Hw He) as [[-> ->]|(m & d & rb & x & _ & _ & -> & _ & _ & Hn & Hx & Hz)].
  { split; [done|]. by destruct (e_op e) as [[]| |]. }
  split; [|done]. intros a' m'. cbn. rewrite lookup_insert_Some. intros [[<- <-]|[_ Hm']]; [by eapply detach_ok|].
  eapply refresh_ok; done.
Qed.

Lemma steps_ok R es w : world_ok R w → Forall (event_ok R) es →
  world_ok R (steps cfgs es w).2 ∧ Forall2 (λ e x, nanswer content (e_op e) x) es (steps cfgs es w).1.
Proof.
  revert w. induction es as [|e es IH]; intros w Hw Hes; cbn [steps]; [done|]. apply list.Forall_cons in Hes as [He Hes].
  destruct (step_ok R e w Hw He) as [Hw1 Hx]. destruct (step cfgs e w) as [x w1]. destruct (IH w1 Hw1 Hes) as [Hw2 Hxs].
  destruct (steps cfgs es w1) as [xs w2]. split; [done|by constructor].
Qed.

(** C2: the nodes never return the wrong block.  Take nodes that are the network of
    each other: a call of a node that arrives is carried out by the handlers of the
    peer as a whole, and any requests and replies may be lost.  All have the same
    block size, and every peer has one address.  Take any sequence of events at any of
    them, one after the other: reads and writes, in which every reference is written
    with the content that belongs to it, one block long, ticks of the rebalancers, new
    cycles with whatever the collectors find, and new rings and peers; any schedule of
    the writers of a write and any order in which the reads of a spread read finish.
    Every block that is read, from the read cache, the local store or a peer, is the
    content of its reference; a reference without a content is never found. *)
Theorem distributor_coherent (es : list event) (w : world) :
  world_ok (λ _, True) w → Forall (event_ok (λ _, True)) es →
  Forall2 (λ e x, nanswer content (e_op e) x) es (steps cfgs es w).1.
Proof. intros Hw Hes. by apply (steps_ok _ es w Hw Hes). Qed.

(** ** Acknowledged blocks *)

(** Some node has the block in its store. *)
Definition kept r b w : Prop := ∃ a m, w !! a = Some m ∧ stored (blocks (mb_node m)) r = Some b.
(** No collector of a rebalancer has found the block dead. *)
Definition all_alive r w : Prop := ∀ a m, w !! a = Some m → controller_IsDead (r_gc (mb_reb m)) r = false.

Lemma kept_durable r b w a m f R : w !! a = Some m → kept r b w → durable (NL := laws R w a) r b (attach f (delete a w) m).
Proof.
  intros Ha (a' & m' & Ha' & Hs). destruct (decide (a' = a)) as [->|Hne]; [left; cbn; congruence|].
  right. exists a', (mb_node m'). split; [|done]. cbn. by rewrite lookup_fmap, lookup_delete_ne, Ha'.
Qed.
Lemma durable_kept r b w a d rb R :
  node_ok (NL := laws R w a) addr R content (d, rb) → durable (NL := laws R w a) r b d →
  kept r b (<[a := detach d rb]> (refresh (nodes (net d)) (delete a w))).
Proof.
  intros [Hc _ _] [Hs|(a' & n & Hn & Hs)]; [exists a; eexists; by rewrite lookup_insert_eq|].
  destruct (co_net _ _ _ _ _ Hc) as (HA & _). assert (a' ∈ dom (delete a w)) as Hin by (rewrite <-HA; by eapply elem_of_dom_2).
  apply elem_of_dom in Hin as [m Hm]. exists a'. eexists. rewrite lookup_insert_ne.
  - by rewrite refresh_lookup, Hm, Hn.
  - intros ->. by rewrite lookup_delete_eq in Hm.
Qed.

Lemma step_kept r b e w :
  world_ok (placed r) w → event_ok (placed r) e → alive r (e_op e) → all_alive r w →
  all_alive r (step cfgs e w).2 ∧ (kept r b w → kept r b (step cfgs e w).2).
Proof.
  intros Hw He Hal Hall.
  destruct (step_run _ e w Hw He) as [[_ ->]|(m & d & rb & x & Hm & Hrun & -> & Hn & Ho & Hn' & _)]; [done|]. cbn [snd].
  pose proof (run_nop_alive (cfgs (e_at e)) r (e_op e) (attach (e_faults e) (delete (e_at e) w) m, mb_reb m) Hal (Hall _ _ Hm)) as Hd.
  rewrite Hrun in Hd. cbn in Hd. split.
  - intros a' m'. rewrite lookup_insert_Some. intros [[<- <-]|[_ Hm']]; [done|].
    rewrite refresh_lookup, fmap_Some in Hm'. destruct Hm' as (m0 & [_ Hm0]%lookup_delete_Some & ->). exact (Hall a' m0 Hm0).
  - intros Hk. eapply durable_kept; [done|].
    pose proof (run_nop_durable (NL := laws _ w (e_at e)) (cfgs (e_at e)) addr content r b (e_op e) _ Hn Ho Hal (Hall _ _ Hm)
      (kept_durable r b w _ m (e_faults e) _ Hm Hk)) as Hdur.
    by rewrite Hrun in Hdur.
Qed.

Lemma steps_kept r b es w :
  world_ok (placed r) w → Forall (event_ok (placed r)) es → Forall (λ e, alive r (e_op e)) es → all_alive r w →
  kept r b w → kept r b (steps cfgs es w).2.
Proof.
  revert w. induction es as [|e es IH]; intros w Hw Hes Hal Hall Hk; cbn [steps]; [done|].
  apply list.Forall_cons in Hes as [He Hes]. apply list.Forall_cons in Hal as [Ha Hal].
  destruct (step_ok _ e w Hw He) as [Hw1 _]. destruct (step_kept r b e w Hw He Ha Hall) as [Hall1 Hk1].
  destruct (step cfgs e w) as [x w1]. specialize (IH w1 Hw1 Hes Hal Hall1 (Hk1 Hk)). by destruct (steps cfgs es w1).
Qed.

(** C10: an acknowledged write is not lost.  Take nodes that are the network of each
    other, as for [distributor_coherent].  When [WriteBlock] of one of them returns
    nil, at any write level, some node has the block in its store; and after any
    events at any nodes that follow, one after the other and with any calls lost, some
    node still has it: a node deletes it only when others have it, although these delete
    blocks too.  No collector finds the block dead, every ring the nodes use or are given
    wants it somewhere, and no node leaves. *)
Theorem acknowledged_write_kept (a : gostring) (f : list fault) (sched : list wchoice) (r : BlockRef) (b : bytes)
    (es : list event) (w w1 : world) :
  let e := mkEvent a f (NCall (DWrite sched r b)) in
  world_ok (placed r) w → Forall (event_ok (placed r)) (e :: es) →
  Forall (λ e, alive r (e_op e)) es → all_alive r w →
  step cfgs e w = (Ok None, w1) →
  kept r b w1 ∧ kept r b (steps cfgs es w1).2.
Proof.
  intros e Hw Hes Hal Hall Hrun. apply list.Forall_cons in Hes as [He Hes].
  destruct (step_ok _ e w Hw He) as [Hw1 _]. destruct (step_kept r b e w Hw He I Hall) as [Hall1 _].
  rewrite Hrun in Hw1, Hall1. cbn in Hw1, Hall1. assert (kept r b w1) as Hk; [|split; [done|by apply steps_kept]].
  destruct (step_run _ e w Hw He) as [[Hx _]|(m & d & rb & x & Hm & Hr & Hstep & Hn & Ho & Hn' & _)]; [by rewrite Hrun in Hx|].
  rewrite Hrun in Hstep. injection Hstep as <- ->. eapply durable_kept; [done|].
  by apply (run_nop_acked (NL := laws _ w a) (cfgs a) addr content (placed r) sched r b _ (d, rb) Hn Ho Hr).
Qed.
End nodes.

(** ** One node among the others *)

Section one.
Context {S : Type} `{IL : IteratorLaws S} `{HH : HashRing} `{HR : Range} `{HO : MapOrder}.
Context (cfg : Config) (addr : gostring → gostring) (R : Ring → Prop) (size : Z) (A : gset gostring).
Context (P : BlockRef → bytes → Prop) (P_once : once P) (cached : bool).
Abbreviation dist := (Distributor (S := S) (N := cluster)).
#[local] Instance laws_here : NetworkLaws cluster := cluster_laws (S := S) addr R size A.
Abbreviation coh := (coherent addr R P cached).

(** C12: the rebalancer never destroys the last copies.  Its peers are the other
    nodes, which carry out a call that arrives as a whole; any requests and replies
    may be lost.  However long the loop of a cycle runs, a block of the local store
    is still there, or the collector had found it dead, or every peer the ring of
    the cycle wants it at has it in its store and this node is none of those peers;
    nothing is lost at a peer, and the copies stay coherent.  (Over tdp a put that
    is cut short leaves a half-written block that the peer reports as there, see
    [interrupted_put_kept].) *)
Theorem rebalance_safe (fuel : nat) (now : Z) (k : ticker) (o : res bool) (k' : ticker) :
  coh (k_dist k) → is_open (blocks (k_dist k)) → tick_loop cfg fuel now k = (o, k') →
  coh (k_dist k') ∧ moved cfg addr (r_gc (k_reb k)) (tick_ring (k_dist k) (k_reb k)) (k_dist k) (k_dist k').
Proof. by apply tick_loop_safe. Qed.

Lemma cluster_quiet : quiet_net (cluster (S := S)).
Proof. split_and!; intros; try apply call_quiet. done. Qed.

(** C30: a cycle of the rebalancer ends.  Take a store whose iterators go through a
    list of its blocks, as those of the temp and of the mfile store do, and nodes
    that are the network of each other, whose requests and replies may be lost.  If
    the mutex of the metadata service is free and the ring panics for no block that
    is to be visited, the inner loop neither panics nor goes on for ever: it reports
    the end after at most one round more than there are blocks to visit, also when
    the ring answers with errors. *)
Theorem cycle_ends (now : Z) (k : ticker) (fuel : nat) :
  coh (k_dist k) → is_open (blocks (k_dist k)) → unlocked (k_dist k) → iter_ok (tick_it (k_dist k) (k_reb k)) →
  Forall (steady (tick_ring (k_dist k) (k_reb k))) (to_visit k) →
  (length (to_visit k) < fuel)%nat → (tick_loop cfg fuel now k).1 = Ok true.
Proof. intros. by eapply (tick_loop_ends cfg addr R P P_once cached); [..|apply cluster_quiet| | | |]. Qed.

(** C28: what a [WriteAll] write that finishes has done, however its goroutines were
    interleaved and whichever calls were lost.  [answered] is what its writers got
    back.  They were at the first peers of the ring, each once, and no more than the
    replication; every peer whose answer was nil has the block.  When the write
    succeeds there is such a peer, and the peers asked and the peers that took the
    block together are at least the replication, so at least half of the replication
    when no peer failed.  When it fails with ErrNoPeer all the peers of the
    replication were asked and none took the block; there is no other outcome. *)
Theorem write_all_copies (sched : list wchoice) (i : BlockRef) (data : slice) (perm : PeerPermutation) (d d' : dist) (o : res unit) :
  coh d → to_write P i data (blocks d) →
  0 ≤ Replication perm ≤ Z.of_nat (length (Peers perm)) → Replication perm < 2 ^ 31 →
  write_all cfg sched i data perm d = (o, d') → o ≠ Panic →
  let att := answered cfg sched i data perm d in
  att.*1 ≡ₚ take (length att) (Peers perm) ∧ Z.of_nat (length att) ≤ Replication perm ∧
  (∀ p, p ∈ took att → at_peer addr cfg p i (deref (blocks d) data) d') ∧
  match o with
  | Ok _ => took att ≠ [] ∧ Replication perm ≤ Z.of_nat (length att) + Z.of_nat (length (took att))
  | _ => o = Err ErrNoPeer ∧ took att = [] ∧ Z.of_nat (length att) = Replication perm
  end.
Proof. by apply write_all_run. Qed.
End one.

(** ** Examples *)

#[local] Existing Instances cx_hash map_range cx_order.

(** The node [a] keeps the block, which belongs to [b] and [c]. *)
Definition cx_local : Config := mkConfig [x61] WriteLocal ReadSequential 400 2.
Definition cx_kept (f : list fault) := (run_dop cx_local (DWrite [] cx_ref cx_data) (cx_start f)).2.
Definition cx_ticker (gcs : list GC.GC) (f : list fault) : ticker :=
  mkTicker (cx_kept f) (NewRebalancer gcs) false 0 0 None.

Lemma cx_kept_coherent f : cx_coh cx_any false (cx_kept f) ∧ is_open (blocks (cx_kept f)).
Proof.
  pose proof (run_dop_safe (NL := cx_laws cx_any) cx_local cx_addr cx_any cx_content (DWrite [] cx_ref cx_data) (cx_start f)
    (cx_coherent cx_any false None cx_ring f I eq_refl) (cx_write_ok _ _)) as Hs. unfold safe in Hs. unfold cx_kept.
  destruct (run_dop _ _ _) as [o d]. destruct Hs as (Hc & [He _ _] & _). split; [exact Hc|]. apply (ext_open _ _ He). by eexists.
Qed.

(** Where the block is. *)
Definition cx_where (d : Distributor (S := tempBlockStore) (N := cluster)) : list (option bytes) :=
  stored (blocks d) cx_ref :: ((λ a, nodes (net d) !! a ≫= λ n, stored (blocks n) cx_ref) <$> [[x42]; [x43]]).

Lemma rebalance_safe_witness :
  let k := cx_ticker [] [] in
  let k' := (tick_loop cx_local 2 7 k).2 in
  moved (NL := cx_laws cx_any) cx_local cx_addr [] (tick_ring (k_dist k) (k_reb k)) (k_dist k) (k_dist k') ∧
  cx_where (k_dist k) = [Some cx_data; None; None] ∧ cx_where (k_dist k') = [None; Some cx_data; Some cx_data].
Proof.
  destruct (cx_kept_coherent []) as [Hc Ho]. split; [|split; vm_compute; reflexivity].
  destruct (tick_loop cx_local 2 7 (cx_ticker [] [])) as [o k'] eqn:E. cbn [snd].
  exact (proj2 (rebalance_safe cx_local cx_addr cx_any 4 cx_peers cx_the cx_once false 2 7 (cx_ticker [] []) o k' Hc Ho E)).
Defined.

Lemma cx_to_visit gcs f : to_visit (cx_ticker gcs f) = [cx_ref].
Proof. vm_compute. reflexivity. Qed.
Lemma cx_wanted : wanted cx_ring cx_ref [[x63]; [x62]].
Proof. exists (mkPermutation 2 [[x63]; [x62]]). split; vm_compute; reflexivity. Qed.

Lemma cycle_ends_witness : (tick_loop cx_local 2 7 (cx_ticker [] [LostRequest])).1 = Ok true.
Proof.
  destruct (cx_kept_coherent [LostRequest]) as [Hc Ho].
  apply (cycle_ends cx_local cx_addr cx_any 4 cx_peers cx_the cx_once false 7 (cx_ticker [] [LostRequest]) 2 Hc Ho).
  - vm_compute. reflexivity.
  - apply iter_new.
  - rewrite cx_to_visit. constructor; [|constructor]. vm_compute. eexists. reflexivity.
  - rewrite cx_to_visit. cbn. lia.
Defined.

(** A collector that knows no volume. *)
Definition cx_cleared : list GC.GC := [BlockVolGC (mkGC ∅ ∅ [])].

Lemma dead_blocks_collected_witness :
  stored (blocks (k_dist (tick_loop cx_local 2 7 (cx_ticker cx_cleared [])).2)) cx_ref = None.
Proof.
  destruct (cx_kept_coherent []) as [Hc Ho].
  assert ((tick_loop cx_local 2 7 (cx_ticker cx_cleared [])).1 = Ok true) as E by (vm_compute; reflexivity).
  destruct (tick_loop cx_local 2 7 (cx_ticker cx_cleared [])) as [o k'] eqn:El. cbn [fst snd] in *. subst o.
  apply (dead_blocks_collected (NL := cx_laws cx_any) cx_local cx_addr cx_any cx_the cx_once false 2 7 (cx_ticker cx_cleared []) k' Hc Ho).
  - apply iter_new.
  - rewrite cx_to_visit. constructor; [|constructor]. exists [[x63]; [x62]]. exact cx_wanted.
  - exact El.
  - rewrite cx_to_visit. by left.
  - reflexivity.
Defined.

Lemma write_all_copies_witness :
  let d := cx_loaded None cx_ring [LostRequest] in
  answered cx_cfg cx_sched cx_ref cx_buf cx_perm d = [([x63], Err ErrNoPeer); ([x62], Ok tt)] ∧
  at_peer (NL := cx_laws cx_any) cx_addr cx_cfg [x62] cx_ref cx_data (write_all cx_cfg cx_sched cx_ref cx_buf cx_perm d).2.
Proof.
  cbv zeta. assert (answered cx_cfg cx_sched cx_ref cx_buf cx_perm (cx_loaded None cx_ring [LostRequest])
    = [([x63], Err ErrNoPeer); ([x62], Ok tt)]) as Ea by (vm_compute; reflexivity). split; [exact Ea|].
  destruct (cx_to_write false None cx_ring [LostRequest] eq_refl) as [Hc Hw].
  assert ((write_all cx_cfg cx_sched cx_ref cx_buf cx_perm (cx_loaded None cx_ring [LostRequest])).1 = Ok tt) as E
    by (vm_compute; reflexivity).
  destruct (write_all cx_cfg cx_sched cx_ref cx_buf cx_perm (cx_loaded None cx_ring [LostRequest])) as [o d'] eqn:Ew.
  cbn [fst snd] in E |- *. subst o.
  destruct (write_all_copies cx_cfg cx_addr cx_any 4 cx_peers cx_the cx_once false cx_sched cx_ref cx_buf cx_perm
    (cx_loaded None cx_ring [LostRequest]) d' (Ok tt) Hc Hw ltac:(cbn; lia) ltac:(cbn; lia) Ew ltac:(done)) as (_ & _ & Hat & _).
  rewrite Ea in Hat. apply (Hat [x62]). by left.
Defined.

(** Three nodes: [a] writes the block locally, reads it and moves it to [b] and [c],
    at the second try because a reply was lost; a tick of [b] finds it at its place,
    and [a] reads it again from a peer. *)
Definition wx_cfgs (a : gostring) : Config :=
  mkConfig (match a with [x41] => [x61] | [x42] => [x62] | _ => [x63] end) WriteLocal ReadSequential 400 2.
Definition wx_member : member (S := tempBlockStore) := mkMember (cx_node cx_ring) ∅ (NewRebalancer []).
Definition wx : gmap gostring (member (S := tempBlockStore)) :=
  <[[x41] := wx_member]> (<[[x42] := wx_member]> (<[[x43] := wx_member]> ∅)).
Definition wx_write : event := mkEvent [x41] [] (NCall (DWrite [] cx_ref cx_data)).
Definition wx_read : event := mkEvent [x41] [] (NCall (DGet (λ l, l) cx_ref)).
Definition wx_events : list event :=
  [wx_read; mkEvent [x41] [Fine; Fine; LostReply] NTick; mkEvent [x41] [] (NCycle []); mkEvent [x41] [] NTick;
   mkEvent [x42] [] NTick; mkEvent [x43] [] (NCall DPeers); wx_read].

Lemma cx_content_ok r b : cx_content r = Some b → valid (S := tempBlockStore) r ∧ Z.of_nat (length b) = 4.
Proof. exact (cx_the_size r b). Qed.
Lemma cx_placed : placed cx_ref cx_ring.
Proof.
  intros ds (perm & Hg & Hs). destruct cx_wanted as (perm' & Hg' & Hs'). rewrite Hg in Hg'. injection Hg' as <-.
  rewrite Hs in Hs'. by injection Hs' as ->.
Qed.
Lemma wx_ok (R : Ring → Prop) : R cx_ring → world_ok cx_addr cx_content 4 R wx.
Proof.
  intros HR a m. unfold wx. rewrite !lookup_insert_Some, lookup_empty.
  assert (member_ok cx_addr cx_content 4 R wx_member) as Hm by (split; [by apply cx_node_ok|by eexists|done..]).
  intros [[_ <-]|[_ [[_ <-]|[_ [[_ <-]|[_ ?]]]]]]; done.
Qed.
Lemma wx_events_ok R : Forall (event_ok (S := tempBlockStore) cx_content 4 R) (wx_write :: wx_events).
Proof.
  constructor; [exact (cx_write_ok R [])|]. constructor; [exact cx_ref_wf|]. do 5 (constructor; [exact I|]).
  constructor; [exact cx_ref_wf|constructor].
Qed.
Definition wx_where (w : gmap gostring (member (S := tempBlockStore))) : list (option (option bytes)) :=
  (λ a, (λ m, stored (blocks (mb_node m)) cx_ref) <$> w !! a) <$> [[x41]; [x42]; [x43]].

Lemma distributor_coherent_witness :
  let xs := (steps wx_cfgs (wx_write :: wx_events) wx).1 in
  Forall2 (λ e x, nanswer cx_content (e_op e) x) (wx_write :: wx_events) xs ∧
  xs = [Ok None; Ok (Some cx_data); Ok None; Ok None; Ok None; Ok None; Ok None; Ok (Some cx_data)].
Proof.
  split; [|vm_compute; reflexivity].
  apply (distributor_coherent wx_cfgs cx_addr cx_content 4 cx_content_ok (wx_write :: wx_events) wx).
  - apply wx_ok. exact I.
  - apply wx_events_ok.
Defined.

Definition wx_written := (step wx_cfgs wx_write wx).2.
Lemma wx_step : step wx_cfgs wx_write wx = (Ok None, wx_written).
Proof.
  assert ((step wx_cfgs wx_write wx).1 = Ok None) as E by (vm_compute; reflexivity). unfold wx_written.
  destruct (step wx_cfgs wx_write wx) as [x w]. cbn in *. by subst.
Qed.
Lemma wx_alive : all_alive cx_ref wx.
Proof. intros a m. unfold wx. rewrite !lookup_insert_Some, lookup_empty. by intros [[_ <-]|[_ [[_ <-]|[_ [[_ <-]|[_ ?]]]]]]. Qed.

Lemma acknowledged_write_kept_witness :
  kept cx_ref cx_data wx_written ∧ kept cx_ref cx_data (steps wx_cfgs wx_events wx_written).2 ∧
  wx_where wx_written = [Some (Some cx_data); Some None; Some None] ∧
  wx_where (steps wx_cfgs wx_events wx_written).2 = [Some None; Some (Some cx_data); Some (Some cx_data)].
Proof.
  assert (Forall (λ e, alive cx_ref (e_op e)) wx_events) as Hal by (repeat constructor).
  destruct (acknowledged_write_kept wx_cfgs cx_addr cx_content 4 cx_content_ok [x41] [] [] cx_ref cx_data wx_events wx wx_written
    (wx_ok _ cx_placed) (wx_events_ok _) Hal wx_alive wx_step) as [H1 H2].
  split; [exact H1|]. split; [exact H2|]. split; vm_compute; reflexivity.
Defined.
